(* ===== verification/_CoqProject ===== *)
-Q . S2P
Prelude.v
Errors.v
Extensions.v
Policy.v
Common.v
Registry.v
RegistryInv.v
RegistrySpec.v
Inflight.v
Deadline.v
Sql.v
SqlSpec.v
Interfaces.v
Ops.v
OpsSpec.v
OpsResult.v
LineageRead.v
LineageReadSpec.v
LineageWrite.v
LineageWriteSpec.v
LineageEvent.v
LineageEventSpec.v
ControlPlane.v
ControlPlaneSpec.v
Lifecycle.v
Auth.v
AuthSpec.v
DuckText.v
DuckTextSpec.v
Plan.v
PlanSpec.v
ReadPool.v
Watcher.v
DuckEngine.v
DuckEngineLaws.v
DuckEngineSpec.v
DuckTrail.v
Admin.v
AdminSpec.v
Wire.v
WireSpec.v
DataService.v
Forward.v
ForwardSpec.v
ClusterSpec.v
ForwardSample.v
Mcp.v
McpSpec.v
McpSample.v
Resources.v
ResourcesSpec.v
Storage.v
StorageSpec.v
Cli.v
CliSpec.v
CliSample.v
Trails.v
TrailRuns.v
TrailsSpec.v
TrailsSample.v
Serve.v
ServeSpec.v
Sdk.v
SdkSpec.v
SdkSample.v
Migrations.v
MigrationsSpec.v
Schemas.v
SchemasSpec.v
