(* ===== verification/Prelude.v ===== *)
(** * Latiq: a verification development

    Latiq gives agents SQL databases ("ponds") over a cluster of nodes.  A
    control plane keeps a registry of nodes, ponds, datasets and catalogs; each
    node runs the agent operations against the ponds it owns and delegates the
    rest to their owners.  This library models that core as executable
    definitions, in the order of the code's own layers, and proves what makes
    each layer correct.  Paths below are under [src/crates/].

    ** Files

    - [Prelude]: the [result] type, strings as Rust slices and [char] iterators
      see them, ordered maps as [BTreeMap] lists them, shared lemmas and tactics.
    - [Errors] ([latiq-common/src/error.rs], [latiq-agent-core/src/error.rs],
      [latiq-control-plane/src/error.rs]): error kinds, guidance, the envelope and
      its template rendering, every constructor, and the classification of engine
      errors.
    - [Extensions] ([latiq-common/src/extensions.rs], [catalog.rs]) and [Policy]
      ([pond_name.rs], [tier.rs], [timeout.rs]): what a caller may ask for.
    - [Common] ([identity.rs], [trace.rs], [meta.rs], [latiq-auth/src/lib.rs],
      [latiq-agent-core/src/access.rs]): identities, the bearer header, W3C trace
      context, result metadata, the access record.
    - [Registry] ([latiq-control-plane/src/registry.rs], the schema of
      [migrations.rs]): the tables as maps and lists, one definition per method.
      [RegistryInv]: the step relation of the methods, reachability, and the
      invariant [wf].  [RegistrySpec]: the contract of each method.
    - [Inflight] ([latiq-agent-core/src/inflight.rs]): the registry of running
      statements, as sections under two mutexes and their interleavings.
    - [Deadline] ([latiq-agent-core/src/deadline.rs]): a statement's guard and its
      watcher, as a step relation.
    - [Sql], [SqlSpec] ([latiq-engine/src/sql.rs] and the text functions of
      [latiq-agent-core/src/ops.rs]): read/write classification, quoting,
      redaction.
    - [Interfaces]: the traits [ControlPlane], [PondStorage], [QueryEngine],
      [Forwarder] and the lineage reader, as classes over the state their
      implementations keep.  The theorems on operations hold for every instance.
    - [Ops] ([latiq-agent-core/src/ops.rs]): every agent operation as a function
      of the node's [World], in a state monad with errors.  [OpsSpec]: ownership,
      the access trail, accounting.  [OpsResult]: answers, drops, lineage records,
      dataset loads, and a sample node.
    - [LineageRead] ([latiq-lineage/src/reader.rs]), [LineageWrite] ([writer.rs],
      [sink.rs]) and [LineageEvent] ([event.rs], [facets.rs]), each with its [Spec]:
      pages of events, the files and the queue they are written to, the events.
    - [ControlPlane] ([latiq-control-plane/src/control_service.rs], and the two
      implementations of the trait: [latiq-agent-core/src/registry_control.rs],
      [latiq-pond-node/src/grpc_control.rs]), [ControlPlaneSpec]: the service, the
      registry behind it, and that both implementations agree and are lawful
      ([LawfulControlPlane]).  [Lifecycle]: nodes of [Ops] over that registry.
    - [Auth] ([latiq-auth/src/jwks.rs], [verify.rs], [metadata.rs]), [AuthSpec]:
      the key cache, the verifier, the challenge.
    - [DuckText] ([latiq-engine-duckdb/src/errclass.rs], [attachers.rs], the lists
      of [instance.rs]), [Plan] ([explain.rs], provenance and cells of [exec.rs]),
      each with its [Spec]: what the DuckDB adapter reads and writes as text.
    - [ReadPool], [Watcher] ([duck_engine.rs], [abort.rs]): the pool of read
      connections and the interrupt watcher, as step relations of their threads.
    - [DuckEngine] ([duck_engine.rs], [exec.rs], [instance.rs]): the ponds a node
      keeps open and every operation of the engine, as an instance of [QueryEngine]
      over any DuckDB.  [DuckEngineLaws]: what is relied on of DuckDB, and how
      relations carry over compound runs.  [DuckEngineSpec]: what an operation
      leaves behind.  [DuckTrail]: what it sends.
    - [Admin] ([latiq-control-plane/src/admin_service.rs], [trace_meta.rs]),
      [AdminSpec]: the operators' service over the registry.
    - [Wire] ([latiq-pond-node/src/wire.rs] and the serde derives of the types it
      carries), [WireSpec]: the JSON bodies between nodes, each with its round trip.
    - [DataService] ([data_service.rs], [stream_service.rs]), [Forward]
      ([forward_client.rs], [latiq-control-plane/src/node_client.rs], [serve_data] of
      [lib.rs]): the surfaces of a node over [Ops], and the clients that call them.
      [ForwardSpec]: what one call on a peer does.  [ClusterSpec]: a relayed operation
      on both its nodes.  [ForwardSample]: two nodes to evaluate on.
    - [Mcp] ([latiq-mcp/src/server.rs], [encode.rs], [response.rs]), [McpSpec]: the
      agents' surface: every tool with its arguments and its answer, and the layer that
      verifies a request.  [McpSample]: an agent at the nodes of [ForwardSample].
    - [Resources] ([latiq-mcp/src/resources.rs], the texts of [server.rs]),
      [ResourcesSpec]: the pages, prompts and descriptions agents read.
    - [Schemas] ([latiq-mcp/src/schema.rs]), [SchemasSpec]: what a tool declares of its
      answer, against what is derived of its type.
    - [Storage] ([latiq-storage/src/local_fs.rs], [temp_fs.rs]), [StorageSpec]: the files
      of a node's ponds, over a disk that may refuse any call.
    - [Cli] ([latiq/src/lib.rs]): what the flags configure, what each command sends and
      what it prints, as a function of the servers it reaches.  [CliSpec]: where its
      messages go, what a refusal does, the tables.  [CliSample]: a terminal to evaluate
      on.
    - [Trails] (the lineage writers of [ops.rs], with [writer.rs] and [reader.rs] under
      them), [TrailsSpec]: the files of a node's recording ponds, as what implements the
      trails [Ops] records.  [TrailRuns]: a writer whose records are whole runs, each a
      start and its end side by side.  [TrailsSample]: a node that records.
    - [Serve] ([latiq-pond-node/src/lib.rs], [latiq-control-plane/src/lib.rs], [run_serve]
      and [run_node_add] of [latiq/src/lib.rs]): the start of both servers as what each
      does to its cluster and to the world, in order; heartbeats, reaper, gauges.
      [ServeSpec]: what a started server serves, and when a node stays up.
    - [Sdk] ([latiq-sdk/src/lib.rs]), [SdkSpec]: the client library, and the cluster it can
      embed.  [SdkSample]: a client of the nodes of [ForwardSample].
    - [Migrations] ([latiq-control-plane/src/migrations.rs]), [MigrationsSpec]: the
      schema's migrations as statements, run from any version.

    ** How the parts meet

    An operation asks the control plane for the pond, [placement] decides whether
    this node serves it, and the local half registers with [Inflight], arms a
    [Deadline], calls the engine and classifies its error by [Errors].  [ControlPlane]
    gives the control plane an instance over [Registry], and [Lifecycle] runs [Ops]
    on it.  [Auth] makes the identity that [Ops] records.  Where the pond is another
    node's, [Forward] gives [Ops] its [Forwarder]: a client of that node's [DataService],
    which runs the owner's [Ops] in the scope of the call.  [Mcp] is the same for agents:
    a tool runs [Ops] in the scope of its request.  [Storage] gives [Ops] its files.
    [Serve] starts all of these with what [Cli] made of the flags, and [Sdk] is one more
    client of [DataService] and [ControlPlane].  The text
    an operation records goes through [Sql.Redact]; names and tiers were checked
    by [Policy] and [Extensions] when [Registry] created the row.

    ** What the theorems show

    - Operations: every call leaves exactly one access record, on the node that
      ran or refused it; a node that does not own a pond touches nothing it holds;
      answers are the owner's or are stamped here; a drop is registry first; a
      statement on a recording pond leaves one lineage record; gauges and the
      in-flight map are restored, except on the path the theorem names.
    - Registry: keys, references and ownership of every reachable state; the exact
      conditions under which a pond is created, found, dropped or forgotten; node
      liveness under the reaper; round trips of datasets.
    - Cluster: a pond that could not be materialized leaves no row; a listing
      survives the drops that race it; the remote control plane answers as the
      in-process one does; a pond has one owner among nodes, and a dropped one
      is refused everywhere.  A forwarded operation is the owner's: its answer, its
      error and its stream arrive as they left, but for the columns of datasets; the
      caller and the trace are the same on both sides; it is recorded once; and an owner
      that is gone or refuses is reported as such.
    - Agents: a tool is its operation on the pond it names, as the caller its token names
      and with the bounds it gives; every answer carries the trace of its request; on a
      guarded surface nothing runs without a verified caller; a tool takes exactly the
      arguments it declares, and the one that declares none takes anything.  What an agent is told leads somewhere: links, tools,
      extensions, and the pages errors point at; a declared schema is the derived one, less
      its prose.
    - Storage: an operation on a pond's files changes no other pond's, whatever fails; the
      directories under the root are the map of ponds the trait promises.
    - Command line: every message carries the token of the invocation, and a pond's goes
      where the control plane said it is; a refusal reaches the user as its envelope; a
      query prints the rows of its answer; authentication is configured whole or refused.
    - Operators: each of their calls is recorded, only a verified caller changes the
      registry where tokens are required, and a catalog is stored without credentials.
    - Lineage: pages are exact and newest first, every line is written once or
      counted as dropped, what is parsed is what was recorded.
      The files of a node hold what its operations recorded, each record a whole run; a
      node that stops in time leaves nothing in its buffers, and one cut off loses what
      its flush had in hand.
    - Start-up: a server whose checks fail does nothing; one that serves verifies exactly
      whom its flags say, on every surface; a node that beats stays up whatever calls are
      lost, and is back two rounds after an outage; a registry left at any version reaches
      the one schema with its rows.
    - Client library: a read arrives as its front door served it; every message says who
      the client is and goes where it is served; connecting ends with a usable client or
      the reason there is none.
    - Authentication: what an accepted token and an accepted configuration are;
      the key cache answers, ends, and asks its issuer no faster than it says,
      unless its callers go away.
    - Engine: no transaction outlives its operation, where the text explained is one
      statement, and no reader waits for a connection that is not coming back; reads run inside a read-only transaction,
      writes are attributed and then committed, or rolled back; a mounted catalog is
      taken away with its secrets; a serving node installs nothing; an error's class,
      a plan's datasets and an attach statement are what the message, the plan and
      the parameters say.
    - Concurrency: a disarmed watcher interrupts nothing and a cancel reaches the
      statement that runs; the read pool loses no wake-up unless a clone fails; a drop
      cancels every operation of its pond but those that were
      between two locks when it began, and such a race exists; the watcher of a deadline
      that has passed cancels in at most two steps of its own, and a timeout is reported
      only then.
    - Text: redaction leaves no digit or quote of a value and depends on no
      literal, where apostrophes stand only in literals and comments; the statement that loads a dataset has the tokens it should whatever
      the names are; a read is recognised exactly by its words.
    - Policy and wire forms: allowlists, names, tiers and timeouts are enforced as
      documented; trace headers and stored lists survive a round trip.

    ** Conventions

    A Rust string is a [string] of bytes; a [char] of it is the list of its bytes
    ([chars]).  [u32] and [u64] counters are [N], reduced where the code narrows
    them; times are microseconds in [Z].  A [HashMap] is a [gmap]; a [BTreeMap] is
    a [gmap] listed in order by [btree_entries]; a table with insertion order is a
    list.  Recursion that is not structural takes the length of its input as fuel;
    each round reads a character, so that is enough: [render_facts_refines] equates
    the loop of [Errors] with a definition without fuel, and the loops of [Sql]
    agree at any two amounts past it ([SqlSpec.redact_loop_fuel], [strip_loop_fuel]);
    a chunk of a stream is decoded with its length as fuel, and each batch takes a byte
    of it ([ForwardSpec.decode_chunk_fuel]).
    Clocks, random choices and fresh ids are arguments, or oracles in the [World].
    UUID parsing, Arrow, JSON text, URLs and tokens are third-party and are parameters.
    A serde derive is what its attributes say: [Wire.Derive] reads and writes a struct
    field by field as serde documents it.

    ** What is not modelled

    Transport (a message arrives as the type its method declares, or a status does), the
    protocol of MCP and the derivation of its schemas, HTTP, DuckDB itself (a class
    with laws), log lines and the set-up of a log, the metrics exporter, failures of the
    registry's own database, operating-system signals, and the parsing of flags, which is
    the clap crate's.  [latiq-client] is an MCP client that only tests use, [latiq-proto] is
    generated, and the Python binding converts what [Sdk] answers.  A streamed read is run to its
    end.  A server's tasks are what they were started with: the sweeps, beats and flushes
    they make are events of [Serve.Heart] and of [TrailsSpec], in any order.

    ** Plan

    What is left would need its third parties modelled first: the exporter's rendering and
    the enforcement of [UNIQUE] on upgraded rows. *)
From Stdlib Require Export Ascii NArith ZArith Lia.
From stdpp Require Export base option list strings gmap pretty sets fin_maps relations sorting.

(** ** The [Result] of a fallible Rust function *)

Inductive result (A E : Type) : Type :=
| Ok (a : A)
| Err (e : E).
Arguments Ok {A E} _.
Arguments Err {A E} _.

Declare Scope rust_scope.
Delimit Scope rust_scope with rust.

(** The [?] operator. *)
Definition res_bind {A B E} (r : result A E) (k : A -> result B E) : result B E :=
  match r with
  | Ok a => k a
  | Err e => Err e
  end.

Notation "'let?' x := r 'in' k" := (res_bind r (fun x => k))
  (at level 10, x pattern, r at level 100, k at level 200,
   format "'[v' 'let?'  x  :=  r  'in' '/' k ']'") : rust_scope.

Definition map_err {A E F} (f : E -> F) (r : result A E) : result A F :=
  match r with
  | Ok a => Ok a
  | Err e => Err (f e)
  end.

Definition map_ok {A B E} (f : A -> B) (r : result A E) : result B E :=
  match r with
  | Ok a => Ok (f a)
  | Err e => Err e
  end.

Definition ok_or {A E} (o : option A) (e : E) : result A E :=
  match o with
  | Some a => Ok a
  | None => Err e
  end.

Definition is_ok {A E} (r : result A E) : bool :=
  match r with
  | Ok _ => true
  | Err _ => false
  end.

Definition res_ok {A E} (r : result A E) : option A :=
  match r with
  | Ok a => Some a
  | Err _ => None
  end.

Definition res_err {A E} (r : result A E) : option E :=
  match r with
  | Ok _ => None
  | Err e => Some e
  end.

#[export] Instance result_eq_dec `{EqDecision A} `{EqDecision E} :
  EqDecision (result A E).
Proof. solve_decision. Defined.

Create HintDb latiq discriminated.
Create Rewrite HintDb latiq_str.

(** Split every [let?] and [match] of a hypothesis that equates a
    computation with a constructor. *)
Ltac inv_result H :=
  repeat match type of H with
  | res_bind ?r _ = _ => let E := fresh "E" in destruct r eqn:E; cbn [res_bind] in H
  | map_err _ ?r = _ => let E := fresh "E" in destruct r eqn:E; cbn [map_err] in H
  | map_ok _ ?r = _ => let E := fresh "E" in destruct r eqn:E; cbn [map_ok] in H
  | ok_or ?r _ = _ => let E := fresh "E" in destruct r eqn:E; cbn [ok_or] in H
  end; try discriminate H; simplify_eq.

(** ** Rust strings

    A Rust [str] is UTF-8: it is modelled by the string of its bytes, so that
    [str::len] is [String.length].  A [char] is the string of the one to four
    bytes that encode it; [chars] cuts a string into them and [str_concat] puts
    them back together. *)

Definition utf8_width (a : ascii) : nat :=
  match a with
  | Ascii _ _ _ _ b4 b5 b6 b7 =>
      if negb b7 then 1 else if negb b6 then 1 else if negb b5 then 2
      else if negb b4 then 3 else 4
  end.

Fixpoint chars (s : string) : list string :=
  match s with
  | EmptyString => []
  | String a s1 =>
      match utf8_width a, s1 with
      | 2, String b s2 => String a (String b EmptyString) :: chars s2
      | 3, String b (String c s3) =>
          String a (String b (String c EmptyString)) :: chars s3
      | 4, String b (String c (String d s4)) =>
          String a (String b (String c (String d EmptyString))) :: chars s4
      | _, _ => String a EmptyString :: chars s1
      end
  end.

Fixpoint str_concat (l : list string) : string :=
  match l with
  | [] => EmptyString
  | c :: l' => c +:+ str_concat l'
  end.

(** One byte of ASCII as a [char]. *)
Definition on_ascii {A} (f : ascii -> A) (d : A) (c : string) : A :=
  match c with
  | String a EmptyString => f a
  | _ => d
  end.

Definition ascii_in (lo hi : N) (a : ascii) : bool :=
  ((lo <=? N_of_ascii a) && (N_of_ascii a <=? hi))%N.

Definition is_digit (a : ascii) : bool := ascii_in 48 57 a.
Definition is_upper (a : ascii) : bool := ascii_in 65 90 a.
Definition is_lower (a : ascii) : bool := ascii_in 97 122 a.
Definition is_alphabetic (a : ascii) : bool := is_upper a || is_lower a.
Definition is_alphanumeric (a : ascii) : bool := is_alphabetic a || is_digit a.

Definition is_ascii_digit (c : string) : bool := on_ascii is_digit false c.
Definition is_ascii_alphabetic (c : string) : bool := on_ascii is_alphabetic false c.
Definition is_ascii_alphanumeric (c : string) : bool := on_ascii is_alphanumeric false c.

Definition is_Some_b {A} (o : option A) : bool :=
  match o with Some _ => true | None => false end.

Fixpoint of_bytes (l : list N) : string :=
  match l with
  | [] => EmptyString
  | n :: l' => String (ascii_of_N n) (of_bytes l')
  end.

(** The double quote, which a string literal cannot show on its own. *)
Definition dq : string := of_bytes [34%N].
Definition nl : string := of_bytes [10%N].

(** [char::is_whitespace]: the code points with the White_Space property. *)
Definition WHITESPACE : list string :=
  map of_bytes
    ([[9]; [10]; [11]; [12]; [13]; [32]; [194; 133]; [194; 160]; [225; 154; 128];
      [226; 128; 128]; [226; 128; 129]; [226; 128; 130]; [226; 128; 131];
      [226; 128; 132]; [226; 128; 133]; [226; 128; 134]; [226; 128; 135];
      [226; 128; 136]; [226; 128; 137]; [226; 128; 138]; [226; 128; 168];
      [226; 128; 169]; [226; 128; 175]; [226; 129; 159]; [227; 128; 128]])%N.

Definition is_whitespace (c : string) : bool := existsb (String.eqb c) WHITESPACE.

Fixpoint skip_while {A} (p : A -> bool) (l : list A) : list A :=
  match l with
  | [] => []
  | x :: l' => if p x then skip_while p l' else l
  end.

Definition trim_start (s : string) : string :=
  str_concat (skip_while is_whitespace (chars s)).

Definition trim_chars (l : list string) : list string :=
  reverse (skip_while is_whitespace (reverse (skip_while is_whitespace l))).

Definition trim (s : string) : string := str_concat (trim_chars (chars s)).

(** [str::to_lowercase]: exact on ASCII and on the two code points outside
    ASCII whose mapping yields an ASCII letter (KELVIN SIGN and LATIN CAPITAL
    LETTER I WITH DOT ABOVE); every other character is passed through, which
    the code that lowercases cannot observe: it compares the result with ASCII
    words only. *)
Definition lower_ascii (a : ascii) : ascii :=
  if is_upper a then ascii_of_N (N_of_ascii a + 32) else a.

Definition lower_char (c : string) : string :=
  match c with
  | String a EmptyString => String (lower_ascii a) EmptyString
  | _ =>
      if String.eqb c (of_bytes [226; 132; 170]%N) then "k"
      else if String.eqb c (of_bytes [196; 176]%N) then of_bytes [105; 204; 135]%N
      else c
  end.

Definition to_lowercase (s : string) : string := str_concat (map lower_char (chars s)).

(** [str::eq_ignore_ascii_case]. *)
Fixpoint ascii_lowercase (s : string) : string :=
  match s with
  | EmptyString => EmptyString
  | String a s' => String (lower_ascii a) (ascii_lowercase s')
  end.

Definition eq_ignore_ascii_case (a b : string) : bool :=
  String.eqb (ascii_lowercase a) (ascii_lowercase b).

Fixpoint strip_prefix (pat s : string) : option string :=
  match pat, s with
  | EmptyString, _ => Some s
  | String a pat', String b s' => if Ascii.eqb a b then strip_prefix pat' s' else None
  | String _ _, EmptyString => None
  end.

Definition starts_with (pat s : string) : bool := is_Some_b (strip_prefix pat s).

Fixpoint str_contains (pat s : string) : bool :=
  starts_with pat s ||
  match s with
  | EmptyString => false
  | String _ s' => str_contains pat s'
  end.

Fixpoint ends_with (pat s : string) : bool :=
  String.eqb pat s ||
  match s with
  | EmptyString => false
  | String _ s' => ends_with pat s'
  end.

(** [str::split_once]: cut at the first occurrence of [pat]. *)
Fixpoint split_once (pat s : string) : option (string * string) :=
  match strip_prefix pat s with
  | Some rest => Some (EmptyString, rest)
  | None =>
      match s with
      | EmptyString => None
      | String a s' =>
          match split_once pat s' with
          | Some (l, r) => Some (String a l, r)
          | None => None
          end
      end
  end.

(** [str::split] on a predicate over the elements. *)
Fixpoint split_on {A} (p : A -> bool) (l : list A) : list (list A) :=
  match l with
  | [] => [[]]
  | x :: l' =>
      if p x then [] :: split_on p l'
      else match split_on p l' with
           | h :: t => (x :: h) :: t
           | [] => [[x]]
           end
  end.

Definition split_pred (p : string -> bool) (s : string) : list string :=
  map str_concat (split_on p (chars s)).

(** [str::replace] of one ASCII byte by a string. *)
Fixpoint replace_ascii (a : ascii) (by' s : string) : string :=
  match s with
  | EmptyString => EmptyString
  | String b s' =>
      if Ascii.eqb a b then by' +:+ replace_ascii a by' s'
      else String b (replace_ascii a by' s')
  end.

Fixpoint join (sep : string) (l : list string) : string :=
  match l with
  | [] => EmptyString
  | [x] => x
  | x :: l' => x +:+ sep +:+ join sep l'
  end.

(** [Vec::contains] then [push]: append an element that is not there yet. *)
Definition push_new {A} `{EqDecision A} (l : list A) (x : A) : list A :=
  if bool_decide (x ∈ l) then l else l ++ [x].

(** [str::split] on one ASCII byte, which never occurs inside a longer char. *)
Fixpoint split_byte (a : ascii) (s : string) : list string :=
  match s with
  | EmptyString => [EmptyString]
  | String b s' =>
      if Ascii.eqb a b then EmptyString :: split_byte a s'
      else match split_byte a s' with
           | h :: t => String b h :: t
           | [] => [String b EmptyString]
           end
  end.

Fixpoint all_bytes (p : ascii -> bool) (s : string) : bool :=
  match s with
  | EmptyString => true
  | String a s' => p a && all_bytes p s'
  end.

Definition is_ascii_byte (a : ascii) : bool :=
  match a with Ascii _ _ _ _ _ _ _ b7 => negb b7 end.

(** [str::is_ascii]. *)
Definition is_ascii (s : string) : bool := all_bytes is_ascii_byte s.

(** ** Lemmas on strings *)

#[local] Arguments String.append !_ _ / : simpl nomatch.

Lemma is_Some_b_true {A} (o : option A) : is_Some_b o = true <-> is_Some o.
Proof. by destruct o; split; try (by intros [? ?]); try done; eexists. Qed.

Lemma str_app_nil_r (s : string) : s +:+ EmptyString = s.
Proof. induction s as [|a s IH]; simpl; [done|]. by rewrite IH. Qed.

Lemma str_app_assoc (a b c : string) : (a +:+ b) +:+ c = a +:+ (b +:+ c).
Proof. induction a as [|x a IH]; simpl; [done|]. by rewrite IH. Qed.

#[export] Hint Rewrite str_app_nil_r str_app_assoc : latiq_str.

Lemma str_length_app (a b : string) :
  String.length (a +:+ b) = String.length a + String.length b.
Proof. induction a as [|x a IH]; simpl; [done|]. by rewrite IH. Qed.

Lemma str_concat_app (l k : list string) :
  str_concat (l ++ k) = str_concat l +:+ str_concat k.
Proof. induction l as [|c l IH]; simpl; [done|]. by rewrite IH, str_app_assoc. Qed.

Lemma str_concat_chars (s : string) : str_concat (chars s) = s.
Proof.
  induction (well_founded_ltof _ String.length s) as [s _ IH].
  unfold ltof in IH. destruct s as [|a s1]; [done|]. cbn [chars].
  repeat case_match; subst; cbn [str_concat];
    (rewrite IH; [done|cbn [String.length]; lia]).
Qed.

Lemma chars_ascii_app (s t : string) :
  is_ascii s = true -> chars (s +:+ t) = chars s ++ chars t.
Proof.
  induction s as [|a s IH]; [done|]. unfold is_ascii. cbn [all_bytes].
  intros [Ha Hs]%andb_true_iff. cbn [String.append].
  destruct a as [b0 b1 b2 b3 b4 b5 b6 [|]]; [done|].
  cbn [chars utf8_width negb app]. f_equal. by apply IH.
Qed.

Lemma strip_prefix_Some (p s r : string) :
  strip_prefix p s = Some r <-> s = p +:+ r.
Proof.
  revert s. induction p as [|a p IH]; intros s; simpl.
  - split; congruence.
  - destruct s as [|b s]; [done|]. destruct (Ascii.eqb_spec a b) as [->|Hne].
    + rewrite IH. split; congruence.
    + split; congruence.
Qed.

Lemma starts_with_spec (p s : string) :
  starts_with p s = true <-> exists r, s = p +:+ r.
Proof.
  unfold starts_with. setoid_rewrite <- strip_prefix_Some.
  destruct (strip_prefix p s); split; try done; [by eexists|by intros [r Hr]].
Qed.

Lemma str_contains_spec (p s : string) :
  str_contains p s = true <-> exists l r, s = l +:+ p +:+ r.
Proof.
  induction s as [|a s IH]; simpl; rewrite orb_true_iff, starts_with_spec.
  - split.
    + intros [[r Hr]|]; [|done]. by exists EmptyString, r.
    + intros ([|? ?] & r & Hr); [|done]. left. by exists r.
  - rewrite IH. split.
    + intros [[r Hr]|(l & r & Hr)]; [by exists EmptyString, r|].
      exists (String a l), r. simpl. by rewrite Hr.
    + intros ([|b l] & r & Hr); [left; by exists r|]. right.
      exists l, r. simpl in Hr. congruence.
Qed.

Lemma split_once_Some (p s l r : string) :
  split_once p s = Some (l, r) -> s = l +:+ p +:+ r.
Proof.
  revert l. induction s as [|a s IH]; intros l H; cbn [split_once] in H;
    destruct (strip_prefix p _) as [rest|] eqn:Hp.
  - simplify_eq. apply strip_prefix_Some in Hp. done.
  - done.
  - simplify_eq. apply strip_prefix_Some in Hp. done.
  - destruct (split_once p s) as [[l' r']|] eqn:E; [|done]. simplify_eq.
    simpl. f_equal. by apply IH.
Qed.

Lemma split_byte_ne_nil a s : split_byte a s <> [].
Proof.
  destruct s as [|b s]; simpl; [done|]. case_match; [done|].
  by destruct (split_byte a s).
Qed.

Lemma split_byte_none a s :
  all_bytes (fun b => negb (Ascii.eqb a b)) s = true -> split_byte a s = [s].
Proof.
  induction s as [|b s IH]; simpl; [done|].
  intros [Hb Hs]%andb_true_iff. destruct (Ascii.eqb a b); [done|].
  by rewrite (IH Hs).
Qed.

Lemma split_byte_cons a x s :
  all_bytes (fun b => negb (Ascii.eqb a b)) x = true ->
  split_byte a (x +:+ String a s) = x :: split_byte a s.
Proof.
  induction x as [|b x IH]; simpl.
  - by rewrite Ascii.eqb_refl.
  - intros [Hb Hx]%andb_true_iff. destruct (Ascii.eqb a b); [done|].
    by rewrite (IH Hx).
Qed.

(** Splitting on a byte undoes joining with it. *)
Lemma split_byte_app_sep a x y :
  split_byte a (x +:+ String a y) = split_byte a x ++ split_byte a y.
Proof.
  induction x as [|b x IH]; simpl; [by rewrite Ascii.eqb_refl|].
  destruct (Ascii.eqb a b); [by rewrite IH|]. rewrite IH.
  destruct (split_byte a x) eqn:E; [by destruct (split_byte_ne_nil a x)|done].
Qed.

Lemma split_byte_join a (l : list string) :
  l <> [] -> Forall (fun x => all_bytes (fun b => negb (Ascii.eqb a b)) x = true) l ->
  split_byte a (join (String a EmptyString) l) = l.
Proof.
  induction l as [|x l IH]; [done|]. intros _ [Hx Hl]%Forall_cons.
  destruct l as [|y l]; [by apply split_byte_none|].
  change (join (String a EmptyString) (x :: y :: l))
    with (x +:+ String a (join (String a EmptyString) (y :: l))).
  rewrite split_byte_cons by done. by rewrite IH.
Qed.

Lemma skip_while_app_false {A} (p : A -> bool) l k :
  Forall (fun x => p x = true) l -> skip_while p (l ++ k) = skip_while p k.
Proof. induction 1 as [|x l Hx _ IH]; simpl; [done|]. by rewrite Hx. Qed.

Lemma skip_while_suffix {A} (p : A -> bool) l :
  exists k, l = k ++ skip_while p l /\ Forall (fun x => p x = true) k.
Proof.
  induction l as [|x l (k & Hl & Hk)]; [by exists []|]. simpl.
  destruct (p x) eqn:Hx; [|by exists []].
  exists (x :: k). split; [simpl; congruence|]. by constructor.
Qed.

Lemma skip_while_head {A} (p : A -> bool) l x k :
  skip_while p l = x :: k -> p x = false.
Proof.
  induction l as [|y l IH]; simpl; [done|].
  destruct (p y) eqn:Hy; [done|]. intros [= -> ->]. done.
Qed.

Lemma skip_while_id {A} (p : A -> bool) l :
  match l with x :: _ => p x = false | [] => True end -> skip_while p l = l.
Proof. destruct l as [|x l]; simpl; [done|]. by intros ->. Qed.

Lemma chars_cons (s c : string) (l : list string) :
  chars s = c :: l -> exists s', s = c +:+ s' /\ chars s' = l /\
    forall t, String.length t <= String.length s' -> chars (c +:+ t) = c :: chars t.
Proof.
  destruct s as [|a s]; [done|]. cbn [chars]. intros Hs.
  assert (Hone : [String a EmptyString] ++ chars s = c :: l ->
    (forall t, String.length t <= String.length s ->
       chars (String a t) = String a EmptyString :: chars t) ->
    exists s', String a s = c +:+ s' /\ chars s' = l /\
      forall t, String.length t <= String.length s' -> chars (c +:+ t) = c :: chars t).
  { simpl. intros [= <- <-] Ht. by exists s. }
  destruct (utf8_width a) as [|[|[|[|[|w]]]]] eqn:Hw;
    try (apply Hone; [done|]; intros t _; cbn [chars]; by rewrite Hw).
  - destruct s as [|b s]; [apply Hone; [done|]; intros [|] Ht; simpl in *; [by rewrite Hw|lia]|].
    injection Hs as <- <-. exists s. split_and!; [done..|]. intros t _. simpl. by rewrite Hw.
  - destruct s as [|b [|d s]]; [apply Hone; [done|]; intros [|] Ht; simpl in *; [by rewrite Hw|lia]| |].
    { apply Hone; [done|]. intros [|? [|]] Ht; simpl in *; [by rewrite Hw..|lia]. }
    injection Hs as <- <-. exists s. split_and!; [done..|]. intros t _. simpl. by rewrite Hw.
  - destruct s as [|b [|d [|e s]]]; [apply Hone; [done|]; intros [|] Ht; simpl in *; [by rewrite Hw|lia]| | |].
    { apply Hone; [done|]. intros [|? [|]] Ht; simpl in *; [by rewrite Hw..|lia]. }
    { apply Hone; [done|]. intros [|? [|? [|]]] Ht; simpl in *; [by rewrite Hw..|lia]. }
    injection Hs as <- <-. exists s. split_and!; [done..|]. intros t _. simpl. by rewrite Hw.
Qed.

Lemma chars_infix (s : string) (l1 l2 l3 : list string) :
  chars s = l1 ++ l2 ++ l3 -> chars (str_concat l2) = l2.
Proof.
  revert s l1. induction l2 as [|c l2 IH]; intros s l1; [done|].
  revert s. induction l1 as [|d l1 IH1]; intros s Hs; simpl in Hs.
  - apply chars_cons in Hs as (s' & _ & Hl & Hc). pose proof (IH s' [] Hl) as Hl2.
    cbn [str_concat]. rewrite Hc, Hl2; [done|].
    rewrite <- (str_concat_chars s'), Hl, str_concat_app, str_length_app. lia.
  - apply chars_cons in Hs as (s' & _ & Hl & _). by apply (IH1 s').
Qed.

Lemma trim_chars_infix l : exists l1 l3, l = l1 ++ trim_chars l ++ l3.
Proof.
  unfold trim_chars. destruct (skip_while_suffix is_whitespace l) as (k & Hl & _).
  set (m := skip_while is_whitespace l) in *.
  destruct (skip_while_suffix is_whitespace (reverse m)) as (k' & Hm & _).
  exists k, (reverse k'). rewrite Hl at 1. f_equal.
  rewrite <- (reverse_involutive m) at 1. by rewrite Hm at 1; rewrite reverse_app.
Qed.

Lemma trim_chars_idem l : trim_chars (trim_chars l) = trim_chars l.
Proof.
  assert (Hskip : skip_while is_whitespace (trim_chars l) = trim_chars l).
  { apply skip_while_id. unfold trim_chars.
    destruct (skip_while_suffix is_whitespace (reverse (skip_while is_whitespace l))) as (k & Hm & _).
    apply (f_equal reverse) in Hm. rewrite reverse_involutive, reverse_app in Hm.
    destruct (reverse (skip_while is_whitespace (reverse _))) as [|x m]; [done|].
    by apply (skip_while_head is_whitespace l x (m ++ reverse k)). }
  unfold trim_chars at 1. rewrite Hskip. unfold trim_chars at 1. rewrite reverse_involutive.
  assert (Hid : forall l', skip_while is_whitespace (skip_while is_whitespace l') =
                           skip_while is_whitespace l').
  { intros l'. apply skip_while_id. destruct (skip_while _ l') eqn:E; [done|].
    by eapply skip_while_head. }
  by rewrite Hid.
Qed.

Lemma trim_idem (s : string) : trim (trim s) = trim s.
Proof.
  unfold trim at 1. destruct (trim_chars_infix (chars s)) as (l1 & l3 & Hs).
  assert (Hc : chars (trim s) = trim_chars (chars s)) by (by apply (chars_infix s l1 _ l3)).
  by rewrite Hc, trim_chars_idem.
Qed.

Lemma elem_of_push_new {A} `{EqDecision A} (l : list A) x y :
  y ∈ push_new l x <-> y ∈ l \/ y = x.
Proof.
  unfold push_new. case_bool_decide; rewrite ?elem_of_app, ?list_elem_of_singleton;
    naive_solver.
Qed.

Lemma NoDup_push_new {A} `{EqDecision A} (l : list A) x :
  NoDup l -> NoDup (push_new l x).
Proof.
  unfold push_new. case_bool_decide; [done|]. intros Hl.
  apply NoDup_app. repeat split; [done| |by apply NoDup_singleton].
  intros y Hy Hx. apply list_elem_of_singleton in Hx. by subst.
Qed.

#[export] Hint Resolve NoDup_push_new : latiq.

(** A byte test that only ASCII passes may be run on bytes or on chars. *)
Lemma forallb_chars (f : ascii -> bool) (s : string) :
  (forall a, f a = true -> is_ascii_byte a = true) ->
  forallb (on_ascii f false) (chars s) = all_bytes f s.
Proof.
  intros Hf. induction (well_founded_ltof _ String.length s) as [s _ IH].
  unfold ltof in IH. destruct s as [|a s1]; [done|]. cbn [chars all_bytes].
  destruct (f a) eqn:Ha.
  - pose proof (Hf a Ha) as Hb. destruct a as [b0 b1 b2 b3 b4 b5 b6 [|]]; [done|].
    cbn [utf8_width negb forallb on_ascii]. rewrite Ha. apply IH. simpl. lia.
  - cbn [andb]. repeat case_match; subst; cbn [forallb on_ascii andb]; by rewrite ?Ha.
Qed.

Lemma forallb_find_None {A} (p : A -> bool) (l : list A) :
  find (fun x => negb (p x)) l = None <-> forallb p l = true.
Proof.
  induction l as [|x l IH]; simpl; [done|]. destruct (p x); simpl; [done|]. done.
Qed.

Lemma existsb_eqb_elem_of (x : string) (l : list string) :
  existsb (String.eqb x) l = true <-> x ∈ l.
Proof.
  rewrite existsb_exists, list_elem_of_In. split.
  - intros (y & Hy & ->%String.eqb_eq). done.
  - intros Hx. exists x. by rewrite String.eqb_refl.
Qed.

(** The byte classes only hold ASCII. *)
Lemma ascii_in_is_ascii lo hi a :
  (hi < 128)%N -> ascii_in lo hi a = true -> is_ascii_byte a = true.
Proof.
  unfold ascii_in. intros Hhi [_ Hle%N.leb_le]%andb_true_iff.
  destruct a as [b0 b1 b2 b3 b4 b5 b6 [|]]; [|done]. exfalso.
  assert (128 <= N_of_ascii (Ascii b0 b1 b2 b3 b4 b5 b6 true))%N; [|lia].
  by destruct b0, b1, b2, b3, b4, b5, b6.
Qed.

Lemma is_alphanumeric_is_ascii a : is_alphanumeric a = true -> is_ascii_byte a = true.
Proof.
  unfold is_alphanumeric, is_alphabetic.
  intros [[H|H]%orb_true_iff|H]%orb_true_iff;
    by apply ascii_in_is_ascii in H.
Qed.

(** ** Cutting at one byte *)

Definition no_byte (a : ascii) (s : string) : Prop :=
  all_bytes (fun b => negb (Ascii.eqb a b)) s = true.

Lemma split_once_byte a l r :
  no_byte a l -> split_once (String a EmptyString) (l +:+ String a r) = Some (l, r).
Proof.
  unfold no_byte. induction l as [|b l IH]; simpl.
  - by rewrite Ascii.eqb_refl.
  - intros [Hb Hl]%andb_true_iff. destruct (Ascii.eqb a b); [done|]. by rewrite (IH Hl).
Qed.

Lemma split_once_byte_None a s :
  split_once (String a EmptyString) s = None <-> no_byte a s.
Proof.
  unfold no_byte. induction s as [|b s IH]; simpl; [done|].
  destruct (Ascii.eqb a b); simpl; [done|].
  destruct (split_once _ s) as [[? ?]|]; naive_solver.
Qed.

Lemma split_once_byte_Some a s l r :
  split_once (String a EmptyString) s = Some (l, r) ->
  s = l +:+ String a r /\ no_byte a l.
Proof.
  intros H. split; [by apply split_once_Some in H|]. revert l H. unfold no_byte.
  induction s as [|b s IH]; simpl; [done|]. intros l.
  destruct (Ascii.eqb a b) eqn:Hab; [by intros [= <- <-]|].
  destruct (split_once _ s) as [[l' r']|]; [|done]. intros [= <- <-]. simpl.
  rewrite Hab. by apply IH.
Qed.

Lemma all_bytes_app f s t : all_bytes f (s +:+ t) = all_bytes f s && all_bytes f t.
Proof. induction s as [|b s IH]; simpl; [done|]. by rewrite IH, andb_assoc. Qed.

Lemma no_byte_app a s t : no_byte a (s +:+ t) <-> no_byte a s /\ no_byte a t.
Proof.
  unfold no_byte. induction s as [|b s IH]; simpl; [naive_solver|].
  rewrite !andb_true_iff, IH. naive_solver.
Qed.

(** ** [BTreeMap<String, _>]: a map visited in the order of its keys *)

Definition sort_strings (l : list string) : list string := merge_sort String.le l.

Definition btree_keys {A} (m : gmap string A) : list string :=
  sort_strings (elements (dom m)).

Definition btree_entries {A} (m : gmap string A) : list (string * A) :=
  omap (fun k => pair k <$> m !! k) (btree_keys m).

Lemma sort_strings_Permutation l : sort_strings l ≡ₚ l.
Proof. apply merge_sort_Permutation. Qed.

Lemma sort_strings_Sorted l : StronglySorted String.le (sort_strings l).
Proof. apply (StronglySorted_merge_sort _). Qed.

Lemma elem_of_btree_keys {A} (m : gmap string A) k :
  k ∈ btree_keys m <-> is_Some (m !! k).
Proof.
  unfold btree_keys. rewrite sort_strings_Permutation, elem_of_elements.
  apply elem_of_dom.
Qed.

Lemma NoDup_btree_keys {A} (m : gmap string A) : NoDup (btree_keys m).
Proof. unfold btree_keys. rewrite sort_strings_Permutation. apply NoDup_elements. Qed.

Lemma elem_of_btree_entries {A} (m : gmap string A) k v :
  (k, v) ∈ btree_entries m <-> m !! k = Some v.
Proof.
  unfold btree_entries. rewrite list_elem_of_omap. split.
  - intros (k' & _ & H). destruct (m !! k') eqn:E; simpl in H; congruence.
  - intros H. exists k. rewrite H. split; [|done]. apply elem_of_btree_keys. by eexists.
Qed.

Lemma btree_entries_fst {A} (m : gmap string A) : (btree_entries m).*1 = btree_keys m.
Proof.
  unfold btree_entries.
  assert (H : Forall (fun k => is_Some (m !! k)) (btree_keys m)).
  { apply Forall_forall. intros k. apply elem_of_btree_keys. }
  induction H as [|k l [v Hv] _ IH]; simpl; [done|]. rewrite Hv. simpl. f_equal. apply IH.
Qed.

Lemma list_to_map_btree_entries {A} (m : gmap string A) :
  list_to_map (btree_entries m) = m.
Proof.
  apply map_eq. intros k. apply option_eq. intros v.
  rewrite <- elem_of_list_to_map; [apply elem_of_btree_entries|].
  rewrite btree_entries_fst. apply NoDup_btree_keys.
Qed.
