(* ===== verification/Errors.v ===== *)
(** * The error contract

    The structured envelope every surface returns
    ([crates/latiq-common/src/error.rs]), the engine's error classes
    ([crates/latiq-engine/src/engine.rs]), the agent-facing constructors and
    the classification of engine errors ([crates/latiq-agent-core/src/error.rs])
    and the registry's errors ([crates/latiq-control-plane/src/error.rs]). *)
From S2P Require Import Prelude.

#[local] Open Scope rust_scope.
#[local] Arguments String.append !_ _ / : simpl nomatch.

(** ** The closed taxonomy of kinds *)

Module Kind.
Inductive ErrorKind :=
| PondNotFound
| DatasetNotFound
| NameConflict
| CatalogError
| ParseError
| InvalidValue
| MissingArgument
| WriteToReservedSchema
| ResultCapExceeded
| ReadOnlyViolation
| UnsupportedFeature
| CapabilityUnavailable
| QueryTimeout
| QueryCancelled
| Unauthenticated
| PondUnavailable
| SourceUnavailable
| Storage
| Internal.

#[export] Instance ErrorKind_eq_dec : EqDecision ErrorKind.
Proof. solve_decision. Defined.

Definition ALL : list ErrorKind :=
  [PondNotFound; DatasetNotFound; NameConflict; CatalogError; ParseError;
   InvalidValue; MissingArgument; WriteToReservedSchema; ResultCapExceeded; ReadOnlyViolation;
   UnsupportedFeature; CapabilityUnavailable; QueryTimeout; QueryCancelled;
   Unauthenticated; PondUnavailable; SourceUnavailable; Storage; Internal].

Definition as_str (k : ErrorKind) : string :=
  match k with
  | PondNotFound =>
      "pond_not_found"
  | DatasetNotFound =>
      "dataset_not_found"
  | NameConflict =>
      "name_conflict"
  | CatalogError =>
      "catalog_error"
  | ParseError =>
      "parse_error"
  | InvalidValue =>
      "invalid_value"
  | MissingArgument =>
      "missing_argument"
  | WriteToReservedSchema =>
      "write_to_reserved_schema"
  | ResultCapExceeded =>
      "result_cap_exceeded"
  | ReadOnlyViolation =>
      "read_only_violation"
  | UnsupportedFeature =>
      "unsupported_feature"
  | CapabilityUnavailable =>
      "capability_unavailable"
  | QueryTimeout =>
      "query_timeout"
  | QueryCancelled =>
      "query_cancelled"
  | Unauthenticated =>
      "unauthenticated"
  | PondUnavailable =>
      "pond_unavailable"
  | SourceUnavailable =>
      "source_unavailable"
  | Storage =>
      "storage"
  | Internal =>
      "internal"
  end.

Definition default_suggest (k : ErrorKind) : string :=
  match k with
  | PondNotFound =>
      "Call list_ponds to see available ponds, or allocate_pond to create one."
  | DatasetNotFound =>
      "Call list_datasets to see what's available."
  | NameConflict =>
      "Choose a different name, or omit name to let Latiq generate one."
  | CatalogError =>
      "Look up what the pond actually has before retrying: describe_pond, or read_query "
        +:+ dq
        +:+ "SHOW TABLES"
        +:+ dq
        +:+ " / "
        +:+ dq
        +:+ "DESCRIBE <table>"
        +:+ dq
        +:+ " / "
        +:+ dq
        +:+ "SELECT * FROM information_schema.columns"
        +:+ dq
        +:+ ". Then use a name that exists — or create it with write_query first. If the name already "
        +:+ "exists, pick another or use CREATE OR REPLACE / CREATE TABLE IF NOT EXISTS."
  | ParseError =>
      "Check the SQL syntax against the supported dialect."
  | InvalidValue =>
      "Fix the value and retry."
  | MissingArgument =>
      "Provide the required argument and retry."
  | WriteToReservedSchema =>
      "Write to your own tables/schema, not a reserved one."
  | ResultCapExceeded =>
      "Narrow with WHERE/LIMIT, aggregate server-side (GROUP BY/count/sum), or materialize with "
        +:+ "CREATE TABLE AS SELECT. Call explain_query on the statement first: its `estimated_rows` is "
        +:+ "how many rows this would return, so you can see whether narrowing is enough before spending "
        +:+ "another attempt on it."
  | ReadOnlyViolation =>
      "Use write_query for INSERT/UPDATE/DELETE/DDL; read_query is for SELECT."
  | UnsupportedFeature =>
      "Remove the clause the message names and re-send — this engine does not implement it, so the "
        +:+ "identical statement can never succeed. A DuckLake pond has no PRIMARY KEY/UNIQUE or CHECK "
        +:+ "constraints, no indexes, no sequences and no generated columns: declare the columns and "
        +:+ "their types, and enforce uniqueness with a query (read_query "
        +:+ dq
        +:+ "SELECT id, count(*) FROM t GROUP BY id HAVING count(*) > 1"
        +:+ dq
        +:+ ") instead of a constraint. See latiq://dialect."
  | CapabilityUnavailable =>
      "Stop and report this — you cannot provision anything from here, and the identical call will "
        +:+ "keep failing until somebody does. Tell whoever is orchestrating you (a human operator, or "
        +:+ "the agent that dispatched you) which capability is missing: it is in `facts.capability`, "
        +:+ "and the message names it too. An operator installs a missing DuckDB extension by running "
        +:+ "`latiq warm-extensions` on the node with network access and restarting it — the container "
        +:+ "image bakes the same step in at build time. Send this call again only once you are told the "
        +:+ "capability is there. Meanwhile you can keep working on anything that does not need it: a "
        +:+ "pond allocated without that extension still reads CSV/Parquet/JSON (latiq://dialect says "
        +:+ "what is always loaded)."
  | QueryTimeout =>
      "Retry with a larger timeout_ms (up to the node's maximum), or narrow the query "
        +:+ "(WHERE/LIMIT) or aggregate server-side. explain_query shows which table is scanned and how "
        +:+ "big it is estimated to be — it predicts no duration, but the largest full_scan in "
        +:+ "`scan_operations` is what to fix."
  | QueryCancelled =>
      "Re-issue the query if you still need the result."
  | Unauthenticated =>
      "Obtain a fresh access token for this deployment and retry with it."
  | PondUnavailable =>
      "Ask an operator to bring the pond's node back (latiq node list shows which are registered); "
        +:+ "if it is gone for good, `latiq pond forget <pond> --confirm` drops the registry record — "
        +:+ "the data on that node is NOT deleted."
  | SourceUnavailable =>
      "Check the path or URL in the statement — spelling, host, bucket, and whether it needs "
        +:+ "credentials this deployment does not have. It must be reachable from the node, whose "
        +:+ "network is not yours. One retry is worth it if the failure could be a transient network "
        +:+ "fault; a second identical failure means the source, not the query. To work offline of it, "
        +:+ "load the data into the pond first (load_dataset / pull_catalog)."
  | Storage =>
      "Retry; if it persists, report to your operator."
  | Internal =>
      "Retry; if it persists, report to your operator."
  end.

Definition default_see (k : ErrorKind) : string :=
  match k with
  | PondNotFound =>
      "latiq://troubleshooting/pond-not-found"
  | DatasetNotFound =>
      "latiq://datasets"
  | NameConflict =>
      "latiq://guidance"
  | CatalogError =>
      "latiq://troubleshooting/catalog-error"
  | ParseError =>
      "latiq://dialect"
  | InvalidValue =>
      "latiq://guidance"
  | MissingArgument =>
      "latiq://guidance"
  | WriteToReservedSchema =>
      "latiq://dialect"
  | ResultCapExceeded =>
      "latiq://troubleshooting/large-results"
  | ReadOnlyViolation =>
      "latiq://dialect"
  | UnsupportedFeature =>
      "latiq://dialect"
  | CapabilityUnavailable =>
      "latiq://troubleshooting/capability-unavailable"
  | QueryTimeout =>
      "latiq://troubleshooting/timeouts"
  | QueryCancelled =>
      "latiq://troubleshooting/timeouts"
  | Unauthenticated =>
      "latiq://troubleshooting/unauthenticated"
  | PondUnavailable =>
      "latiq://troubleshooting/pond-unavailable"
  | SourceUnavailable =>
      "latiq://troubleshooting/source-unavailable"
  | Storage =>
      "latiq://troubleshooting/internal"
  | Internal =>
      "latiq://troubleshooting/internal"
  end.

(** Who can fix the failure. *)
Inductive Audience := Agent | Operator.

(** Whether the same request can ever work again. *)
Inductive Retryable := Never | AsIs | AfterChange | AfterProvisioning.

#[export] Instance Audience_eq_dec : EqDecision Audience.
Proof. solve_decision. Defined.
#[export] Instance Retryable_eq_dec : EqDecision Retryable.
Proof. solve_decision. Defined.

Definition audience_as_str (a : Audience) : string :=
  match a with
  | Agent => "agent"
  | Operator => "operator"
  end.

Definition retryable_as_str (r : Retryable) : string :=
  match r with
  | Never => "never"
  | AsIs => "as_is"
  | AfterChange => "after_change"
  | AfterProvisioning => "after_provisioning"
  end.

Definition audience (k : ErrorKind) : Audience :=
  match k with
  | PondNotFound | DatasetNotFound | NameConflict | CatalogError | ParseError
  | InvalidValue | MissingArgument | WriteToReservedSchema | ResultCapExceeded
  | ReadOnlyViolation | UnsupportedFeature | QueryTimeout | QueryCancelled
  | Unauthenticated | SourceUnavailable => Agent
  | PondUnavailable | CapabilityUnavailable | Storage | Internal => Operator
  end.

Definition retryable (k : ErrorKind) : Retryable :=
  match k with
  | QueryTimeout | QueryCancelled | SourceUnavailable => AsIs
  | Storage | Internal => AsIs
  | PondNotFound | DatasetNotFound | NameConflict | CatalogError | ParseError
  | InvalidValue | MissingArgument | WriteToReservedSchema | ResultCapExceeded
  | UnsupportedFeature | Unauthenticated => AfterChange
  | ReadOnlyViolation => Never
  | PondUnavailable => Never
  | CapabilityUnavailable => AfterProvisioning
  end.
End Kind.
#[export] Existing Instances Kind.ErrorKind_eq_dec Kind.Audience_eq_dec Kind.Retryable_eq_dec.
Import Kind.

(** ** Facts and their rendering *)

Inductive Fact :=
| Number (n : N)
| Text (s : string)
| Flag (b : bool).

#[export] Instance Fact_eq_dec : EqDecision Fact.
Proof. solve_decision. Defined.

(** [impl Display for Fact]. *)
Definition fact_to_string (f : Fact) : string :=
  match f with
  | Number n => pretty n
  | Text s => s
  | Flag b => if b then "true" else "false"
  end.

(** [Facts] is a [BTreeMap<String, Fact>]. *)
Abbreviation Facts := (gmap string Fact).

(** The [facts!] macro: successive inserts into an empty map. *)
Definition facts (l : list (string * Fact)) : Facts :=
  foldl (fun m kv => <[kv.1 := kv.2]> m) ∅ l.

Definition render_hole (fs : Facts) (key : string) : string :=
  match fs !! key with
  | Some fact => fact_to_string fact
  | None => "{" +:+ key +:+ "}"
  end.

Fixpoint render_loop (fuel : nat) (fs : Facts) (rest : string) : string :=
  match fuel with
  | O => rest
  | S fuel' =>
      match split_once "{" rest with
      | None => rest
      | Some (before, after) =>
          match split_once "}" after with
          | None => rest
          | Some (key, rest') =>
              before +:+ render_hole fs key +:+ render_loop fuel' fs rest'
          end
      end
  end.

(** The loop consumes at least the two braces of a hole on every turn, so the
    length of the template is fuel enough ([render_loop_fuel]). *)
Definition render_facts (template : string) (fs : Facts) : string :=
  render_loop (S (String.length template)) fs template.

(** ** The envelope *)

Record Location := { line : N; column : N; byte : N }.

Record ErrorEnvelope := {
  kind : ErrorKind;
  message : string;
  location : option Location;
  suggest : string;
  see : string;
  env_audience : Audience;
  env_retryable : Retryable;
  env_facts : Facts;
  trace_id : option string;
  traceparent : option string
}.

(** The condition [assert_opaque_kinds_keep_canonical_guidance] asserts. *)
Definition opaque_kinds_keep_canonical_guidance (k : ErrorKind) (sugg se : string) : bool :=
  match k with
  | Internal =>
      String.eqb sugg (default_suggest k) && String.eqb se "latiq://troubleshooting/internal"
  | _ => true
  end.

Module Envelope.
Definition new (k : ErrorKind) (msg sugg se : string) : ErrorEnvelope :=
  {| kind := k; message := msg; location := None; suggest := sugg; see := se;
     env_audience := audience k; env_retryable := retryable k; env_facts := ∅;
     trace_id := None; traceparent := None |}.

Definition for_kind (k : ErrorKind) (msg : string) : ErrorEnvelope :=
  new k msg (default_suggest k) (default_see k).

Definition rendered_with (k : ErrorKind) (template : string) (fs : Facts)
    (sugg se : string) : ErrorEnvelope :=
  {| kind := k; message := render_facts template fs; location := None;
     suggest := render_facts sugg fs; see := se; env_audience := audience k;
     env_retryable := retryable k; env_facts := fs; trace_id := None;
     traceparent := None |}.

Definition rendered (k : ErrorKind) (template : string) (fs : Facts) : ErrorEnvelope :=
  rendered_with k template fs (default_suggest k) (default_see k).

Definition with_location (e : ErrorEnvelope) (loc : Location) : ErrorEnvelope :=
  {| kind := kind e; message := message e; location := Some loc; suggest := suggest e;
     see := see e; env_audience := env_audience e; env_retryable := env_retryable e;
     env_facts := env_facts e; trace_id := trace_id e; traceparent := traceparent e |}.

Definition with_trace_id (e : ErrorEnvelope) (t : option string) : ErrorEnvelope :=
  {| kind := kind e; message := message e; location := location e; suggest := suggest e;
     see := see e; env_audience := env_audience e; env_retryable := env_retryable e;
     env_facts := env_facts e; trace_id := t; traceparent := traceparent e |}.

(** First writer wins: a relayed envelope keeps the executing span. *)
Definition with_traceparent (e : ErrorEnvelope) (t : option string) : ErrorEnvelope :=
  match traceparent e with
  | Some _ => e
  | None =>
      {| kind := kind e; message := message e; location := location e;
         suggest := suggest e; see := see e; env_audience := env_audience e;
         env_retryable := env_retryable e; env_facts := env_facts e;
         trace_id := trace_id e; traceparent := t |}
  end.

Definition with_facts (e : ErrorEnvelope) (fs : Facts) : ErrorEnvelope :=
  {| kind := kind e; message := message e; location := location e; suggest := suggest e;
     see := see e; env_audience := env_audience e; env_retryable := env_retryable e;
     env_facts := fs; trace_id := trace_id e; traceparent := traceparent e |}.
End Envelope.

(** ** Engine errors *)

Module EngineError.
Inductive EngineError :=
| Parse (m : string)
| Catalog (m : string)
| Conversion (m : string)
| Constraint_ (m : string)
| SourceIo (m : string)
| Unsupported (message : string) (feature : option string)
| CapabilityUnavailable (message capability : string)
| InvalidInput (m : string)
| MissingParameter (m : string)
| UnsupportedParameter (m : string)
| TransactionControl (m : string)
| ReadOnlyViolation
| Cancelled
| Timeout
| Engine (m : string).

#[export] Instance EngineError_eq_dec : EqDecision EngineError.
Proof. solve_decision. Defined.
End EngineError.
#[export] Existing Instance EngineError.EngineError_eq_dec.
Abbreviation EngineError := EngineError.EngineError.

(** ** [AgentError]: a box around the envelope *)

Abbreviation AgentError := ErrorEnvelope.

Module Agent.
Definition pond_not_found (pond_ref : string) : AgentError :=
  Envelope.rendered PondNotFound
    ("Pond '{pond}' does not exist.")
    (facts [("pond", Text pond_ref)]).

Definition pond_unavailable (pond_ref : string) : AgentError :=
  Envelope.rendered PondUnavailable
    ("Pond '{pond}' exists, but the node that owns it is not registered with this deployment — no "
        +:+ "node is currently serving it, and this node does not hold its data.")
    (facts [("pond", Text pond_ref)]).

Definition name_conflict (name : string) : AgentError :=
  Envelope.rendered NameConflict
    ("A pond named '{name}' already exists.")
    (facts [("name", Text name)]).

Definition result_cap_exceeded (rows cap : N) : AgentError :=
  Envelope.rendered ResultCapExceeded
    ("Result has {rows} rows, over the inline cap of {cap}.")
    (facts [("rows", Number rows); ("cap", Number cap)]).

Definition result_cap_exceeded_unknown (cap : N) : AgentError :=
  Envelope.rendered ResultCapExceeded
    ("Result has more than {cap} rows, over the inline cap of {cap}. Collection stopped at the "
        +:+ "cap, so the exact row count is not known — use `SELECT count(*)` or explain_query's "
        +:+ "`estimated_rows` to size it.")
    (facts [("cap", Number cap)]).

Definition dataset_not_found (reference : string) : AgentError :=
  Envelope.rendered DatasetNotFound
    ("Dataset '{dataset}' is not in the catalog.")
    (facts [("dataset", Text reference)]).

Definition unsupported_extension (msg : string) : AgentError :=
  Envelope.new InvalidValue msg
    ("Request only signed/official extensions baked into this deployment; see latiq://guidance "
        +:+ "for the supported set.")
    "latiq://guidance".

Definition query_timeout (effective_ms max_ms : N) : AgentError :=
  let at_ceiling := (max_ms <=? effective_ms)%N in
  let fs := facts [("timeout_ms", Number effective_ms); ("max_timeout_ms", Number max_ms)] in
  let sugg :=
    if at_ceiling then
      "This ran at the node's maximum, so a larger timeout_ms is not available. Narrow the query — "
        +:+ "add a WHERE on a selective column, a LIMIT, or fewer columns — or aggregate server-side "
        +:+ "(GROUP BY/count/sum) instead of scanning. If the work is genuinely this large, it is too "
        +:+ "big for this pond's tier: ask an operator to re-tier the pond."
    else
      "Retry with a larger timeout_ms (this node allows up to {max_timeout_ms}), or narrow the "
        +:+ "query — add a WHERE on a selective column, a LIMIT, or fewer columns — or aggregate "
        +:+ "server-side (GROUP BY/count/sum). If it still times out at {max_timeout_ms} ms, the query "
        +:+ "is too large for this pond's tier: ask an operator to re-tier it." in
  Envelope.rendered_with QueryTimeout
    ("Query stopped after {timeout_ms} ms — the timeout in effect for this request. This node "
        +:+ "allows up to {max_timeout_ms} ms.")
    fs sugg (default_see QueryTimeout).

Definition internal (msg : string) : AgentError := Envelope.for_kind Internal msg.

Definition storage (msg : string) : AgentError := Envelope.for_kind Storage msg.

(** [impl From<EngineError> for AgentError]. *)
Definition from_engine (e : EngineError) : AgentError :=
  match e with
  | EngineError.ReadOnlyViolation =>
      Envelope.for_kind ReadOnlyViolation
        "read_query received a statement that is not read-only."
  | EngineError.Cancelled =>
      Envelope.for_kind QueryCancelled "The query was cancelled."
  | EngineError.Timeout =>
      Envelope.for_kind QueryTimeout "The query exceeded the timeout."
  | EngineError.Parse m => Envelope.for_kind ParseError m
  | EngineError.Catalog m => Envelope.for_kind CatalogError m
  | EngineError.Conversion m =>
      Envelope.new InvalidValue m
        ("A value does not match the type it is being used as. Check the column types (read_query "
        +:+ dq
        +:+ "DESCRIBE <table>"
        +:+ dq
        +:+ " or describe_pond), then supply a value of that type or CAST it explicitly — e.g. CAST('7' "
        +:+ "AS INTEGER). Quoted text is never coerced into a numeric column just because it looks "
        +:+ "numeric.")
        "latiq://dialect"
  | EngineError.Constraint_ m =>
      Envelope.new InvalidValue m
        ("The value is the right type but breaks a rule on the table (primary key, unique, not null, "
        +:+ "or check). Read the conflicting rows first — read_query "
        +:+ dq
        +:+ "SELECT * FROM <table> WHERE <key> = <value>"
        +:+ dq
        +:+ " — then either correct the value, UPDATE the existing row instead of inserting, or use "
        +:+ "INSERT OR REPLACE / ON CONFLICT.")
        "latiq://dialect"
  | EngineError.SourceIo m => Envelope.for_kind SourceUnavailable m
  | EngineError.Unsupported msg feature =>
      match feature with
      | Some f =>
          Envelope.with_facts
            (Envelope.new UnsupportedFeature msg
               ("This pond's engine does not support "
                 +:+ f +:+ " — remove that from the statement and re-send; the statement as written can never succeed. "
                 +:+ "A DuckLake pond has no PRIMARY KEY/UNIQUE or CHECK constraints, no indexes, no sequences "
                 +:+ "and no generated columns: declare the columns and their types, and check uniqueness with a "
                 +:+ "query (read_query "
                 +:+ dq
                 +:+ "SELECT id, count(*) FROM <table> GROUP BY id HAVING count(*) > 1"
                 +:+ dq
                 +:+ ") instead of declaring a constraint.")
               (default_see UnsupportedFeature))
            (facts [("feature", Text f)])
      | None => Envelope.for_kind UnsupportedFeature msg
      end
  | EngineError.CapabilityUnavailable msg capability =>
      Envelope.with_facts (Envelope.for_kind CapabilityUnavailable msg)
        (facts [("capability", Text capability)])
  | EngineError.InvalidInput m =>
      Envelope.new InvalidValue m
        ("A value or argument in the statement is not acceptable to the engine — out of range for its "
        +:+ "type, or invalid for the function or file it was passed to. The message names it. Fix that "
        +:+ "value and re-send: a wider type for an arithmetic overflow (CAST the operands to "
        +:+ "BIGINT/HUGEINT or aggregate differently), a correct format string, a path that really holds "
        +:+ "the format you are reading.")
        "latiq://dialect"
  | EngineError.MissingParameter m => Envelope.for_kind MissingArgument m
  | EngineError.UnsupportedParameter m => Envelope.for_kind InvalidValue m
  | EngineError.TransactionControl m =>
      Envelope.new UnsupportedFeature m
        ("Latiq owns the transaction, so a statement must not contain BEGIN / COMMIT / ROLLBACK / "
        +:+ "START TRANSACTION — send plain statements and Latiq commits them together as one attributed "
        +:+ "snapshot. Your own transaction control ended Latiq's bracket, so part of the statement may "
        +:+ "ALREADY have been committed: check with read_query "
        +:+ dq
        +:+ "SELECT count(*) FROM <table>"
        +:+ dq
        +:+ " before re-sending, then re-send only what is missing, without the transaction control.")
        "latiq://dialect"
  | EngineError.Engine m => internal ("engine error: " +:+ m)
  end.
End Agent.

(** ** Registry errors *)

Module ControlPlaneError.
Inductive ControlPlaneError :=
| NameConflict (name : string)
| PondNotFound (r : string)
| NodeNotFound (n : string)
| NoNodeAvailable (m : string)
| DatasetNotFound (r : string)
| CatalogNotFound (r : string)
| PondStillOwned (pond node_id : string)
| AllocationNotMaterialized (name owner cause : string) (compensated : bool)
| Invalid (m : string)
| Storage (m : string).

#[export] Instance ControlPlaneError_eq_dec : EqDecision ControlPlaneError.
Proof. solve_decision. Defined.

Definition envelope (e : ControlPlaneError) : ErrorEnvelope :=
  match e with
  | NameConflict name =>
      Envelope.rendered Kind.NameConflict "Name '{name}' is taken."
        (facts [("name", Text name)])
  | PondNotFound r =>
      Envelope.rendered Kind.PondNotFound "Pond '{pond}' does not exist."
        (facts [("pond", Text r)])
  | NoNodeAvailable m =>
      Envelope.for_kind Internal
        ("No pond node is available to host a pond: "
          +:+ m +:+ ". A pond node must be registered and heartbeating with this control plane before one can be "
           +:+ "created — `latiq node list` shows which are registered.")
  | NodeNotFound n =>
      Envelope.rendered_with InvalidValue
        ("Node '{node_id}' is not registered with this control plane.")
        (facts [("node_id", Text n)])
        ("Run `latiq node list` to see the registered nodes, then retry with an id from that list.")
        (default_see InvalidValue)
  | DatasetNotFound r =>
      Envelope.rendered Kind.DatasetNotFound "Dataset '{dataset}' is not in the catalog."
        (facts [("dataset", Text r)])
  | CatalogNotFound r =>
      Envelope.rendered_with Kind.DatasetNotFound "Catalog '{catalog}' is not registered."
        (facts [("catalog", Text r)])
        "Call list_catalogs to see registered catalogs."
        "latiq://guidance"
  | PondStillOwned pond node_id =>
      Envelope.rendered_with InvalidValue
        ("Pond '{pond}' is still owned by node '{node_id}', which is registered and active — "
        +:+ "forgetting it would orphan data a live node is serving.")
        (facts [("pond", Text pond); ("node_id", Text node_id)])
        ("Use `latiq pond drop <pond> --confirm`, which deletes the pond AND its data via the owning "
        +:+ "node. `pond forget` is only for a pond whose node is gone.")
        "latiq://guidance"
  | AllocationNotMaterialized name owner cause true =>
      Envelope.rendered_with PondUnavailable
        ("Pond '{name}' was NOT created: the node it was assigned to ({node_endpoint}) could not "
        +:+ "materialise its storage ({cause}). The assignment has been rolled back, so the name is free "
        +:+ "and nothing was left behind.")
        (facts [("name", Text name); ("node_endpoint", Text owner);
                ("cause", Text cause); ("compensated", Flag true)])
        ("Retry allocate_pond (or `latiq pond create`) — the failed attempt left nothing behind, so "
        +:+ "the same name is free. If it keeps failing, that node is down: report it to your operator.")
        (default_see PondUnavailable)
  | AllocationNotMaterialized name owner cause false =>
      Envelope.rendered_with PondUnavailable
        ("Pond '{name}' was NOT created: the node it was assigned to ({node_endpoint}) could not "
        +:+ "materialise its storage ({cause}), AND the assignment could not be rolled back — a registry "
        +:+ "row named '{name}' may still exist with no storage behind it.")
        (facts [("name", Text name); ("node_endpoint", Text owner);
                ("cause", Text cause); ("compensated", Flag false)])
        ("Retry under a DIFFERENT name; the original may still be taken. Ask an operator to remove "
        +:+ "the stranded record with `latiq pond forget <pond> --confirm` (it deletes the registry row "
        +:+ "only, never data).")
        (default_see PondUnavailable)
  | Invalid m => Envelope.for_kind InvalidValue m
  | Storage m => Envelope.for_kind Kind.Storage ("storage error: " +:+ m)
  end.

(** gRPC status codes. *)
Inductive Code := AlreadyExists | NotFound | FailedPrecondition | InvalidArgument | CodeInternal.

Definition code (e : ControlPlaneError) : Code :=
  match e with
  | NameConflict _ => AlreadyExists
  | PondNotFound _ | DatasetNotFound _ | CatalogNotFound _ | NodeNotFound _ => NotFound
  | NoNodeAvailable _ | PondStillOwned _ _ | AllocationNotMaterialized _ _ _ _ =>
      FailedPrecondition
  | Invalid _ => InvalidArgument
  | Storage _ => CodeInternal
  end.
End ControlPlaneError.
#[export] Existing Instance ControlPlaneError.ControlPlaneError_eq_dec.
Abbreviation ControlPlaneError := ControlPlaneError.ControlPlaneError.

(** ** Lemmas *)

Lemma render_loop_fuel fs n m s :
  String.length s < n -> String.length s < m ->
  render_loop n fs s = render_loop m fs s.
Proof.
  revert m s. induction n as [|n IH]; intros [|m] s Hn Hm; try lia. cbn [render_loop].
  destruct (split_once "{" s) as [[b a]|] eqn:E1; [|done].
  destruct (split_once "}" a) as [[k r]|] eqn:E2; [|done].
  apply split_once_Some in E1 as ->. apply split_once_Some in E2 as ->.
  rewrite !str_length_app in Hn, Hm. cbn [String.length] in *.
  do 2 f_equal. apply IH; lia.
Qed.

Lemma render_facts_hole fs l k r :
  no_byte "{" l -> no_byte "}" k ->
  render_facts (l +:+ "{" +:+ k +:+ "}" +:+ r) fs =
    l +:+ render_hole fs k +:+ render_facts r fs.
Proof.
  intros Hl Hk. unfold render_facts at 1. cbn [render_loop].
  change ("{" +:+ k +:+ "}" +:+ r) with (String "{" (k +:+ "}" +:+ r)).
  rewrite split_once_byte by done.
  change ("}" +:+ r) with (String "}" r). rewrite split_once_byte by done.
  do 2 f_equal. apply render_loop_fuel; [|lia].
  rewrite !str_length_app. cbn [String.length]. rewrite str_length_app. cbn [String.length]. lia.
Qed.

Lemma render_facts_plain fs s : no_byte "{" s -> render_facts s fs = s.
Proof.
  intros Hs. unfold render_facts. cbn [render_loop].
  by apply split_once_byte_None in Hs as ->.
Qed.

Lemma render_facts_unclosed fs l r :
  no_byte "{" l -> no_byte "}" r -> render_facts (l +:+ "{" +:+ r) fs = l +:+ "{" +:+ r.
Proof.
  intros Hl Hr. unfold render_facts. cbn [render_loop].
  change ("{" +:+ r) with (String "{" r). rewrite split_once_byte by done.
  by apply split_once_byte_None in Hr as ->.
Qed.

(** The substitution as a relation: a hole is replaced by its fact, an unknown
    hole stays verbatim, and what was substituted is not scanned again. *)
Inductive Rendered (fs : Facts) : string -> string -> Prop :=
| Rendered_plain s : no_byte "{" s -> Rendered fs s s
| Rendered_unclosed l r :
    no_byte "{" l -> no_byte "}" r -> Rendered fs (l +:+ "{" +:+ r) (l +:+ "{" +:+ r)
| Rendered_hole l k r out :
    no_byte "{" l -> no_byte "}" k -> Rendered fs r out ->
    Rendered fs (l +:+ "{" +:+ k +:+ "}" +:+ r) (l +:+ render_hole fs k +:+ out).

(** The control fields are the kind's own, and an opaque kind keeps its advice. *)
Definition coherent (e : ErrorEnvelope) : Prop :=
  env_audience e = audience (kind e) /\ env_retryable e = retryable (kind e) /\
  opaque_kinds_keep_canonical_guidance (kind e) (suggest e) (see e) = true.

Lemma coherent_for_kind k m : coherent (Envelope.for_kind k m).
Proof. repeat split. by destruct k. Qed.

Lemma coherent_with_facts e fs : coherent e -> coherent (Envelope.with_facts e fs).
Proof. done. Qed.

Lemma coherent_specific e :
  kind e <> Internal -> env_audience e = audience (kind e) ->
  env_retryable e = retryable (kind e) -> coherent e.
Proof. intros Hk Ha Hr. repeat split; [done..|]. by destruct (kind e). Qed.

#[export] Hint Resolve coherent_for_kind coherent_with_facts : latiq.
#[export] Hint Extern 2 (coherent _) => apply coherent_specific; done : latiq.

(** Rewrite [render_facts] of a template literal, hole by hole. *)
Ltac render_holes :=
  rewrite ?render_facts_plain by done;
  repeat match goal with
  | |- context [render_facts ?t ?fs] =>
      let r := eval vm_compute in (split_once "{" t) in
      match r with
      | Some (?b, ?a) =>
          let r' := eval vm_compute in (split_once "}" a) in
          match r' with
          | Some (?k, ?rest) =>
              change (render_facts t fs)
                with (render_facts (b +:+ "{" +:+ k +:+ "}" +:+ rest) fs);
              rewrite (render_facts_hole fs b k rest) by done
          end
      | None => rewrite (render_facts_plain fs t) by done
      end
  end.

(** ** Properties *)

(** [render_facts] implements the substitution relation: its fuel is always
    enough, every template has exactly one rendering, and a fact's own text is
    never scanned for holes. *)
Theorem render_facts_refines fs t out :
  Rendered fs t out <-> render_facts t fs = out.
Proof.
  split.
  - induction 1 as [s Hs|l r Hl Hr|l k r out Hl Hk _ IH].
    + by apply render_facts_plain.
    + by apply render_facts_unclosed.
    + rewrite render_facts_hole by done. by rewrite IH.
  - intros <-. induction (well_founded_ltof _ String.length t) as [t _ IH].
    unfold ltof in IH.
    destruct (split_once "{" t) as [[l a]|] eqn:E1.
    + apply split_once_byte_Some in E1 as [-> Hl].
      change (String "{" a) with ("{" +:+ a) in *.
      destruct (split_once "}" a) as [[k r]|] eqn:E2.
      * apply split_once_byte_Some in E2 as [-> Hk].
        change (String "}" r) with ("}" +:+ r) in *.
        rewrite render_facts_hole by done. apply Rendered_hole; [done..|].
        apply IH. rewrite !str_length_app. cbn [String.length]. lia.
      * apply split_once_byte_None in E2.
        rewrite render_facts_unclosed by done. by apply Rendered_unclosed.
    + apply split_once_byte_None in E1.
      rewrite render_facts_plain by done. by apply Rendered_plain.
Qed.

(** the fact-carrying constructors resolve every hole of their templates:
    the caller's own text is quoted unchanged, whatever braces it holds. *)
Theorem agent_messages_resolve p rows cap eff mx :
  message (Agent.pond_not_found p) = "Pond '" +:+ p +:+ "' does not exist." /\
  message (Agent.name_conflict p) = "A pond named '" +:+ p +:+ "' already exists." /\
  message (Agent.dataset_not_found p) = "Dataset '" +:+ p +:+ "' is not in the catalog." /\
  message (Agent.result_cap_exceeded rows cap) =
    "Result has " +:+ pretty rows +:+ " rows, over the inline cap of " +:+ pretty cap +:+ "." /\
  message (Agent.query_timeout eff mx) =
    "Query stopped after " +:+ pretty eff
      +:+ " ms — the timeout in effect for this request. This node allows up to "
      +:+ pretty mx +:+ " ms.".
Proof.
  repeat split;
    unfold Agent.pond_not_found, Agent.name_conflict, Agent.dataset_not_found,
      Agent.result_cap_exceeded, Agent.query_timeout;
    cbn [message Envelope.rendered Envelope.rendered_with].
  all: render_holes. all: reflexivity.
Qed.

(** every envelope built from an engine error or a registry error is
    coherent: [audience] and [retryable] are those of its kind, and an
    [internal] envelope carries no bespoke advice. *)
Theorem classified_envelopes_coherent :
  (forall e : EngineError, coherent (Agent.from_engine e)) /\
  (forall e : ControlPlaneError, coherent (ControlPlaneError.envelope e)).
Proof.
  split; intros e; destruct e; cbn [Agent.from_engine ControlPlaneError.envelope];
    unfold Agent.internal; try case_match; eauto with latiq.
Qed.

(** an engine error becomes the unclassified [internal] exactly when the
    engine itself could not classify it, and it is addressed to the operator
    only then or when a capability is missing. *)
Theorem from_engine_internal_iff (e : EngineError) :
  (kind (Agent.from_engine e) = Internal <-> exists m, e = EngineError.Engine m) /\
  (env_audience (Agent.from_engine e) = Operator <->
     (exists m, e = EngineError.Engine m) \/
     (exists m c, e = EngineError.CapabilityUnavailable m c)).
Proof.
  destruct e; cbn [Agent.from_engine]; try case_match; simpl; split; naive_solver.
Qed.

(** a timeout at the node's ceiling never advises a larger [timeout_ms], and
    one below it names the ceiling the node would allow. *)
Theorem query_timeout_advice eff mx :
  let e := Agent.query_timeout eff mx in
  kind e = QueryTimeout /\ coherent e /\
  env_facts e !! "timeout_ms" = Some (Number eff) /\
  env_facts e !! "max_timeout_ms" = Some (Number mx) /\
  (if (mx <=? eff)%N
   then starts_with "This ran at the node's maximum, so a larger timeout_ms is not available."
          (suggest e) = true
   else exists rest,
          suggest e = "Retry with a larger timeout_ms (this node allows up to "
                        +:+ pretty mx +:+ rest).
Proof.
  cbn zeta. split; [done|]. split; [eauto with latiq|]. do 2 (split; [done|]).
  unfold Agent.query_timeout. destruct (mx <=? eff)%N;
    cbn [suggest Envelope.rendered_with].
  - render_holes. reflexivity.
  - render_holes. eexists. reflexivity.
Qed.
