(* ===== verification/Extensions.v ===== *)
(** * External catalog types and DuckDB extensions

    [crates/latiq-common/src/catalog.rs]: which parameters of an external
    catalog may be stored, and [extensions.rs]: the one list of extensions, the
    sets derived from it and the validation of a caller's request. *)
From S2P Require Import Prelude.

#[local] Open Scope rust_scope.
#[local] Arguments String.append !_ _ / : simpl nomatch.

(** ** catalog.rs *)

Module Catalog.
Record CatalogTypeSpec := {
  name : string;
  allowed_params : list string;
  required_extensions : list string
}.

Definition TYPES : list CatalogTypeSpec :=
  [{| name := "iceberg";
      allowed_params := ["endpoint"; "warehouse"; "s3_endpoint"; "s3_region"];
      required_extensions := ["iceberg"; "httpfs"] |};
   {| name := "ducklake";
      allowed_params := ["metadata_path"; "data_path"; "s3_endpoint"; "s3_region"];
      required_extensions := ["ducklake"; "httpfs"] |}].

Definition lookup (type_ : string) : option CatalogTypeSpec :=
  find (fun t => String.eqb (name t) type_) TYPES.

Definition is_known_type (type_ : string) : bool := is_Some_b (lookup type_).

(** One turn of the loop of [filter_params]. *)
Definition filter_param (spec : CatalogTypeSpec)
    (acc : gmap string string * list string) (kv : string * string) :
    gmap string string * list string :=
  if existsb (String.eqb kv.1) (allowed_params spec)
  then (<[kv.1 := kv.2]> acc.1, acc.2)
  else (acc.1, acc.2 ++ [kv.1]).

Definition filter_params (type_ : string) (params : gmap string string) :
    gmap string string * list string :=
  match lookup type_ with
  | Some spec =>
      let acc := foldl (filter_param spec) (∅, []) (btree_entries params) in
      (acc.1, sort_strings acc.2)
  | None => (params, [])
  end.
End Catalog.

(** ** extensions.rs *)

Module Extensions.
Inductive Bucket := Catalog | Transport | Format | Engine.

#[export] Instance Bucket_eq_dec : EqDecision Bucket.
Proof. solve_decision. Defined.

Definition BUCKETS : list Bucket := [Catalog; Transport; Format; Engine].

Definition title (b : Bucket) : string :=
  match b with
  | Catalog => "Catalogs it can reach"
  | Transport => "Where the bytes can live"
  | Format => "Formats it can read"
  | Engine => "What the engine can compute"
  end.

Record Ext := { name : string; bucket : Bucket; always_loaded : bool; what : string }.

Definition EXTENSIONS : list Ext :=
  [{| name := "ducklake"; bucket := Catalog; always_loaded := true;
      what := "the pond's own storage format, and other DuckLake catalogs" |};
   {| name := "iceberg"; bucket := Catalog; always_loaded := false;
      what := "Apache Iceberg tables via a REST catalog (pull_catalog)" |};
   {| name := "httpfs"; bucket := Transport; always_loaded := true;
      what := "http(s):// URLs and s3:// object storage, read straight from SQL" |};
   {| name := "parquet"; bucket := Format; always_loaded := true;
      what := "Parquet files (statically linked; always present)" |};
   {| name := "json"; bucket := Format; always_loaded := true;
      what := "JSON and newline-delimited JSON (statically linked)" |};
   {| name := "spatial"; bucket := Format; always_loaded := false;
      what := "geospatial: GeoJSON/Shapefile/GeoPackage and the ST_* functions" |};
   {| name := "icu"; bucket := Engine; always_loaded := true;
      what := "time zones (TIMESTAMPTZ arithmetic) and Unicode collations" |};
   {| name := "fts"; bucket := Engine; always_loaded := false;
      what := "full-text search: BM25 ranking over a text column" |};
   {| name := "inet"; bucket := Engine; always_loaded := false;
      what := "the INET type: IP addresses and CIDR containment" |}].

Definition is_catalog_driven (n : string) : bool :=
  existsb (fun t => existsb (String.eqb n) (Catalog.required_extensions t)) Catalog.TYPES.

Definition names_where (pred : Ext -> bool) : list string :=
  map name (List.filter pred EXTENSIONS).

Definition STANDARD : list string := names_where always_loaded.

Definition OPTIONAL : list string :=
  names_where (fun e => negb (always_loaded e) && negb (is_catalog_driven (name e))).

Definition transitive_deps (n : string) : list string :=
  if String.eqb n "iceberg" then ["avro"] else [].

Definition CATALOG_DRIVEN : list string :=
  foldl (fun out t =>
    foldl (fun out e =>
      foldl (fun out n =>
        if negb (bool_decide (n ∈ STANDARD)) && negb (bool_decide (n ∈ out))
        then out ++ [n] else out)
        out (e :: transitive_deps e))
      out (Catalog.required_extensions t))
    [] Catalog.TYPES.

Definition in_bucket (b : Bucket) : list Ext :=
  List.filter (fun e => bool_decide (bucket e = b)) EXTENSIONS.

Definition lookup (n : string) : option Ext :=
  find (fun e => String.eqb (name e) n) EXTENSIONS.

(** The normal form of a requested name. *)
Definition normalize (raw : string) : string := to_lowercase (trim raw).

Fixpoint validate_loop (out : list string) (requested : list string) :
    result (list string) string :=
  match requested with
  | [] => Ok out
  | raw :: rest =>
      let n := normalize raw in
      if String.eqb n EmptyString || bool_decide (n ∈ STANDARD) then validate_loop out rest
      else if negb (bool_decide (n ∈ OPTIONAL)) then
        Err ("unknown or unsupported extension '" +:+ n +:+ "'. Allowed: "
               +:+ join ", " OPTIONAL
               +:+ ". Community/unsigned extensions aren't supported — bake new ones into the "
               +:+ "deployment image and upgrade Latiq.")
      else validate_loop (push_new out n) rest
  end.

Definition validate (requested : list string) : result (list string) string :=
  validate_loop [] requested.

Definition parse_csv (s : string) : list string :=
  List.filter (fun x => negb (String.eqb x EmptyString)) (map trim (split_byte "," s)).
End Extensions.

(** ** Lemmas *)

Lemma filter_param_loop_kept spec l m d k :
  NoDup l.*1 ->
  (foldl (Catalog.filter_param spec) (m, d) l).1 !! k =
    if decide (k ∈ Catalog.allowed_params spec)
    then union_with (fun a _ => Some a) ((list_to_map l : gmap string string) !! k) (m !! k)
    else m !! k.
Proof.
  revert m d. induction l as [|[k' v] l IH]; intros m d Hnd; simpl.
  { rewrite lookup_empty. case_decide; [|done]. by destruct (m !! k). }
  apply NoDup_cons in Hnd as [Hk' Hnd']. unfold Catalog.filter_param at 2. simpl.
  destruct (existsb _ _) eqn:E; simpl; rewrite IH by done.
  - apply existsb_eqb_elem_of in E. destruct (decide (k = k')) as [->|Hne].
    + rewrite !decide_True by done. rewrite !lookup_insert_eq.
      rewrite (proj1 (not_elem_of_list_to_map _ _)) by done. by destruct (m !! k').
    + by rewrite !lookup_insert_ne by congruence.
  - case_decide as Hin; [|done]. destruct (decide (k = k')) as [->|Hne].
    + apply existsb_eqb_elem_of in Hin. congruence.
    + by rewrite lookup_insert_ne by congruence.
Qed.

Lemma filter_param_loop_dropped spec l m d :
  (foldl (Catalog.filter_param spec) (m, d) l).2 =
    d ++ List.filter (fun k => negb (existsb (String.eqb k) (Catalog.allowed_params spec))) l.*1.
Proof.
  revert m d. induction l as [|[k v] l IH]; intros m d; simpl; [by rewrite app_nil_r|].
  unfold Catalog.filter_param at 2. simpl.
  destruct (existsb _ _); simpl; rewrite IH; [done|]. by rewrite <- app_assoc.
Qed.

Lemma optional_not_skipped n :
  n ∈ Extensions.OPTIONAL -> n <> EmptyString /\ n ∉ Extensions.STANDARD.
Proof.
  rewrite !list_elem_of_In. vm_compute.
  intros [<-|[<-|[<-|[]]]]; (split; [done|]); intros H; destruct_or? H; done.
Qed.

Lemma validate_loop_Ok out req res :
  Extensions.validate_loop out req = Ok res -> NoDup out ->
  NoDup res /\
  forall n, n ∈ res <->
    n ∈ out \/ (n ∈ Extensions.OPTIONAL /\ exists raw, raw ∈ req /\ Extensions.normalize raw = n).
Proof.
  revert out. induction req as [|raw req IH]; intros out; cbn [Extensions.validate_loop].
  { intros [= <-] Hnd. split; [done|]. intros n. setoid_rewrite elem_of_nil. naive_solver. }
  set (n0 := Extensions.normalize raw).
  destruct (String.eqb n0 EmptyString || bool_decide (n0 ∈ Extensions.STANDARD)) eqn:Eskip.
  - intros H Hnd. destruct (IH _ H Hnd) as [Hres Hspec]. split; [done|]. intros n.
    rewrite Hspec. setoid_rewrite (elem_of_cons req). split; [naive_solver|].
    intros [?|(Hopt & r & [->|Hr] & Hn)]; [by left| |right; eauto].
    exfalso. apply optional_not_skipped in Hopt as [Hne Hstd]. subst n.
    apply orb_true_iff in Eskip as [?%String.eqb_eq|?%bool_decide_eq_true]; done.
  - destruct (bool_decide (n0 ∈ Extensions.OPTIONAL)) eqn:Eopt; simpl; [|done].
    apply bool_decide_eq_true in Eopt. intros H Hnd.
    destruct (IH _ H) as [Hres Hspec]; [auto with latiq|]. split; [done|]. intros n.
    rewrite Hspec, elem_of_push_new. setoid_rewrite (elem_of_cons req). unfold n0 in *. naive_solver.
Qed.

Lemma validate_loop_is_Ok out req :
  is_ok (Extensions.validate_loop out req) = true <->
  forall raw, raw ∈ req ->
    Extensions.normalize raw = EmptyString \/
    Extensions.normalize raw ∈ Extensions.STANDARD \/
    Extensions.normalize raw ∈ Extensions.OPTIONAL.
Proof.
  revert out. induction req as [|raw req IH]; intros out; cbn [Extensions.validate_loop].
  { split; [by intros _ raw ?%elem_of_nil|done]. }
  setoid_rewrite (elem_of_cons req).
  destruct (String.eqb _ _ || _) eqn:Eskip.
  - rewrite IH. apply orb_true_iff in Eskip. rewrite String.eqb_eq, bool_decide_eq_true in Eskip.
    naive_solver.
  - apply orb_false_iff in Eskip as [?%String.eqb_neq ?%bool_decide_eq_false].
    case_bool_decide; simpl; [rewrite IH; naive_solver|]. naive_solver.
Qed.

Lemma parse_csv_join l :
  Forall (fun x => trim x = x /\ x <> EmptyString /\ no_byte "," x) l ->
  Extensions.parse_csv (join "," l) = l.
Proof.
  intros Hl. unfold Extensions.parse_csv. destruct l as [|x0 l0]; [done|].
  rewrite split_byte_join; [|done|by eapply Forall_impl; [exact Hl|intros ? (?&?&?)]].
  induction Hl as [|x l (Htrim & Hne & _) _ IH]; [done|]. cbn [map List.filter].
  rewrite Htrim. apply String.eqb_neq in Hne. rewrite Hne. simpl. by rewrite IH.
Qed.

(** What [validate] lets through has no comma and no blank to lose. *)
Lemma parse_csv_validated req res :
  Extensions.validate req = Ok res -> Extensions.parse_csv (join "," res) = res.
Proof.
  intros H. apply parse_csv_join, Forall_forall. intros n Hn.
  apply (validate_loop_Ok _ _ _ H NoDup_nil_2) in Hn as [?%elem_of_nil|[Hopt _]]; [done|].
  apply list_elem_of_In in Hopt. vm_compute in Hopt. destruct_or! Hopt; by subst.
Qed.

(** ** Properties *)

(** what [filter_params] persists is exactly the allowlisted part of the
    parameters: a key outside the type's list, and so every credential, is
    dropped and reported, sorted and once. *)
Theorem filter_params_partitions type_ spec params :
  Catalog.lookup type_ = Some spec ->
  let r := Catalog.filter_params type_ params in
  (forall k, r.1 !! k = if decide (k ∈ Catalog.allowed_params spec) then params !! k else None) /\
  (forall k, k ∈ r.2 <-> is_Some (params !! k) /\ k ∉ Catalog.allowed_params spec) /\
  StronglySorted String.le r.2 /\ NoDup r.2.
Proof.
  intros Hl. cbn zeta. unfold Catalog.filter_params. rewrite Hl. cbn [fst snd].
  rewrite filter_param_loop_dropped, btree_entries_fst. cbn [app]. split; [|split; [|split]].
  - intros k. rewrite filter_param_loop_kept by (rewrite btree_entries_fst; apply NoDup_btree_keys).
    rewrite list_to_map_btree_entries, lookup_empty.
    case_decide; [|done]. by destruct (params !! k).
  - intros k. rewrite sort_strings_Permutation, list_elem_of_In, filter_In, <- list_elem_of_In.
    rewrite elem_of_btree_keys, negb_true_iff, <- not_true_iff_false, existsb_eqb_elem_of. done.
  - apply sort_strings_Sorted.
  - rewrite sort_strings_Permutation. apply NoDup_ListNoDup, List.NoDup_filter, NoDup_ListNoDup.
    apply NoDup_btree_keys.
Qed.

(** [validate] accepts a request exactly when every name in it is blank,
    always loaded or requestable, and then returns the requestable ones, each
    once. *)
Theorem validate_extensions_spec req :
  (is_ok (Extensions.validate req) = true <->
     forall raw, raw ∈ req ->
       Extensions.normalize raw = EmptyString \/
       Extensions.normalize raw ∈ Extensions.STANDARD \/
       Extensions.normalize raw ∈ Extensions.OPTIONAL) /\
  (forall res, Extensions.validate req = Ok res ->
     NoDup res /\
     forall n, n ∈ res <->
       n ∈ Extensions.OPTIONAL /\ exists raw, raw ∈ req /\ Extensions.normalize raw = n).
Proof.
  split; [apply validate_loop_is_Ok|]. intros res H.
  destruct (validate_loop_Ok _ _ _ H NoDup_nil_2) as [Hnd Hspec]. split; [done|].
  intros n. rewrite Hspec, elem_of_nil. naive_solver.
Qed.

(** a validated list survives its storage: joined with commas by the
    registry and parsed back, it is the same list. *)
Theorem extensions_csv_roundtrip req res :
  Extensions.validate req = Ok res -> Extensions.parse_csv (join "," res) = res.
Proof. apply parse_csv_validated. Qed.

Lemma extensions_csv_roundtrip_witness :
  Extensions.validate [" Spatial"; "json"; "fts"; "spatial"] = Ok ["spatial"; "fts"] /\
  Extensions.parse_csv (join "," ["spatial"; "fts"]) = ["spatial"; "fts"].
Proof.
  split; [reflexivity|].
  apply (extensions_csv_roundtrip [" Spatial"; "json"; "fts"; "spatial"]). reflexivity.
Defined.

Lemma filter_params_partitions_witness :
  let r := Catalog.filter_params "iceberg" (<["token" := "t"]> {["endpoint" := "e"]}) in
  r.1 !! "token" = None /\ "token" ∈ r.2.
Proof.
  destruct (filter_params_partitions "iceberg" _
    (<["token" := "t"]> {["endpoint" := "e"]}) eq_refl) as (Hk & Hd & _).
  split; [rewrite Hk; reflexivity|]. apply Hd. split; [eexists; reflexivity|].
  vm_compute. intros H. apply list_elem_of_In in H. simpl in H. intuition congruence.
Defined.
