(* ===== verification/Policy.v ===== *)
(** * Policies every surface shares: pond names, tiers and query timeouts

    [crates/latiq-common/src/pond_name.rs], [tier.rs] and [timeout.rs]. *)
From S2P Require Import Prelude.

#[local] Open Scope rust_scope.
#[local] Arguments String.append !_ _ / : simpl nomatch.

(** ** pond_name.rs *)
Module PondName.

Definition MAX_LEN : nat := 64.

Definition RULE : string :=
  "1-64 characters, letters, digits, `_` or `-` only (it is used as the pond's SQL catalog name)".

Definition legal_byte (a : ascii) : bool :=
  is_alphanumeric a || Ascii.eqb a "_" || Ascii.eqb a "-".

Definition validate (name : string) : result unit string :=
  if String.eqb name EmptyString then
    Err ("pond name must not be empty — omit `name` entirely to have Latiq generate one. A name is "
           +:+ RULE +:+ ".")
  else if Nat.ltb MAX_LEN (String.length name) then
    Err ("pond name is " +:+ pretty (String.length name) +:+ " characters, over the "
           +:+ pretty MAX_LEN +:+ "-character maximum. A name is " +:+ RULE +:+ ".")
  else
    match find (fun c => negb (on_ascii legal_byte false c)) (chars name) with
    | Some bad =>
        Err ("pond name '" +:+ name +:+ "' contains '" +:+ bad
               +:+ "', which is not allowed. A name is " +:+ RULE +:+ ".")
    | None => Ok tt
    end.

Lemma legal_byte_is_ascii a : legal_byte a = true -> is_ascii_byte a = true.
Proof.
  unfold legal_byte. rewrite !orb_true_iff, !Ascii.eqb_eq.
  intros [[?| ->]| ->]; [by apply is_alphanumeric_is_ascii|done|done].
Qed.

(** The set of names [validate] accepts. *)
Definition legal (name : string) : Prop :=
  1 <= String.length name <= MAX_LEN /\ all_bytes legal_byte name = true.

Lemma validate_Ok name : validate name = Ok tt <-> legal name.
Proof.
  unfold validate, legal. destruct (String.eqb_spec name EmptyString) as [->|Hne].
  { split; [done|]. cbn [String.length]. lia. }
  assert (1 <= String.length name) by (destruct name; simpl; [done|lia]).
  destruct (Nat.ltb_spec MAX_LEN (String.length name)).
  { split; [done|lia]. }
  rewrite <- (forallb_chars _ _ legal_byte_is_ascii), <- forallb_find_None.
  destruct (find _ (chars name)); split; try done; by intros [_ ?].
Qed.
End PondName.

(** ** tier.rs *)

Module Tier.
Record ResourceLimits := { memory_bytes : N; cores : N }.

Definition MB : N := (1024 * 1024)%N.
Definition GB : N := (1024 * MB)%N.

Inductive PondTier := None_ | XSmall | Small | Medium | Large | XLarge.

#[export] Instance PondTier_eq_dec : EqDecision PondTier.
Proof. solve_decision. Defined.

Definition default : PondTier := Medium.

Definition ALL : list string := ["x-small"; "small"; "medium"; "large"; "x-large"; "none"].
Definition CREATABLE : list string := ["x-small"; "small"; "medium"; "large"; "x-large"].

Definition as_str (t : PondTier) : string :=
  match t with
  | None_ => "none"
  | XSmall => "x-small"
  | Small => "small"
  | Medium => "medium"
  | Large => "large"
  | XLarge => "x-large"
  end.

Definition parse (s : string) : option PondTier :=
  let l := to_lowercase (trim s) in
  if String.eqb l "none" || String.eqb l "uncapped" then Some None_
  else if String.eqb l "x-small" || String.eqb l "xsmall" then Some XSmall
  else if String.eqb l "small" then Some Small
  else if String.eqb l "medium" then Some Medium
  else if String.eqb l "large" then Some Large
  else if String.eqb l "x-large" || String.eqb l "xlarge" then Some XLarge
  else None.

Definition parse_for_create (s : string) : result PondTier string :=
  if String.eqb (trim s) EmptyString then Ok default
  else ok_or (parse s)
         ("unknown tier '" +:+ trim s +:+ "'. Allowed at creation: "
            +:+ join ", " CREATABLE +:+ ".").

Definition limits (t : PondTier) : option ResourceLimits :=
  match t with
  | None_ => None
  | XSmall => Some {| memory_bytes := 512 * MB; cores := 1 |}
  | Small => Some {| memory_bytes := GB; cores := 2 |}
  | Medium => Some {| memory_bytes := 4 * GB; cores := 4 |}
  | Large => Some {| memory_bytes := 16 * GB; cores := 8 |}
  | XLarge => Some {| memory_bytes := 32 * GB; cores := 16 |}
  end%N.

(** The spellings [parse] takes for a tier, after trimming and lowercasing. *)
Definition spellings (t : PondTier) : list string :=
  match t with
  | None_ => ["none"; "uncapped"]
  | XSmall => ["x-small"; "xsmall"]
  | Small => ["small"]
  | Medium => ["medium"]
  | Large => ["large"]
  | XLarge => ["x-large"; "xlarge"]
  end.

Lemma parse_as_str t : parse (as_str t) = Some t.
Proof. by destruct t. Qed.
#[export] Hint Resolve parse_as_str : latiq.

Lemma parse_for_create_as_str t : parse_for_create (as_str t) = Ok t.
Proof. by destruct t. Qed.

Lemma as_str_inj t t' : as_str t = as_str t' -> t = t'.
Proof. by destruct t, t'. Qed.

Lemma parse_spec s t : parse s = Some t <-> to_lowercase (trim s) ∈ spellings t.
Proof.
  unfold parse. set (l := to_lowercase (trim s)). clearbody l. split.
  - repeat case_match; try done; intros [= <-]; simpl;
      repeat match goal with
      | H : _ || _ = true |- _ => apply orb_true_iff in H as [H|H]
      | H : String.eqb _ _ = true |- _ => apply String.eqb_eq in H; subst
      end; set_solver.
  - destruct t; simpl; rewrite ?elem_of_cons, ?elem_of_nil;
      intros; destruct_or?; simplify_eq; done.
Qed.

Lemma parse_for_create_Ok s t :
  parse_for_create s = Ok t ->
  (trim s = EmptyString /\ t = Medium) \/ parse s = Some t.
Proof.
  unfold parse_for_create. destruct (String.eqb_spec (trim s) EmptyString).
  - intros [= <-]. by left.
  - intros H. inv_result H. by right.
Qed.
End Tier.
#[export] Existing Instance Tier.PondTier_eq_dec.

(** ** timeout.rs *)

Module Timeout.
Definition DEFAULT_QUERY_TIMEOUT_MS : N := 30000.
Definition MAX_QUERY_TIMEOUT_MS : N := 300000.

Record QueryTimeouts := { default_ms : N; max_ms : N }.

Definition default : QueryTimeouts :=
  {| default_ms := DEFAULT_QUERY_TIMEOUT_MS; max_ms := MAX_QUERY_TIMEOUT_MS |}.

Definition new (default_ms max_ms : N) : result QueryTimeouts string :=
  if N.eqb default_ms 0 then
    Err "--query-timeout-ms must be greater than 0 (a zero timeout would cancel every query immediately)"
  else if N.eqb max_ms 0 then
    Err "--query-timeout-max-ms must be greater than 0 (a zero maximum would cancel every query immediately)"
  else if N.ltb max_ms default_ms then
    Err ("--query-timeout-ms (" +:+ pretty default_ms
           +:+ ") must not exceed --query-timeout-max-ms (" +:+ pretty max_ms
           +:+ "): the default is clamped to the maximum, so this node would silently apply "
           +:+ pretty max_ms +:+ " ms to every query")
  else Ok {| default_ms := default_ms; max_ms := max_ms |}.

Definition effective (t : QueryTimeouts) (requested_ms : option N) : N :=
  match requested_ms with
  | None | Some 0%N => default_ms t
  | Some ms => N.min ms (max_ms t)
  end.

Definition wf (t : QueryTimeouts) : Prop :=
  (0 < default_ms t /\ default_ms t <= max_ms t)%N.

Lemma new_Ok d m t : new d m = Ok t -> wf t /\ default_ms t = d /\ max_ms t = m.
Proof.
  intros Hnew. unfold new, wf in *.
  destruct (N.eqb_spec d 0), (N.eqb_spec m 0), (N.ltb_spec m d); simplify_eq; simpl; lia.
Qed.

Lemma effective_bounds t r : wf t -> (0 < effective t r <= max_ms t)%N.
Proof. unfold wf, effective. destruct r as [[|p]|]; lia. Qed.
#[export] Hint Resolve effective_bounds : latiq.
End Timeout.

(** The creatable tiers, from the smallest up. *)
Definition ladder : list Tier.PondTier :=
  [Tier.XSmall; Tier.Small; Tier.Medium; Tier.Large; Tier.XLarge].

Lemma find_first_split {A} (p : A -> bool) (l : list A) x :
  find p l = Some x ->
  exists l1 l2, l = l1 ++ x :: l2 /\ p x = true /\ Forall (fun y => p y = false) l1.
Proof.
  induction l as [|y l IH]; simpl; [done|]. destruct (p y) eqn:Hy.
  - intros [= ->]. by exists [], l.
  - intros (l1 & l2 & -> & Hx & Hl1)%IH. exists (y :: l1), l2. auto.
Qed.

(** ** Properties *)

(** [pond_name::validate] accepts exactly the names of 1 to 64 ASCII letters,
    digits, [_] and [-]; a refusal for an illegal character quotes the first
    one. *)
Theorem pond_name_validate_spec name :
  (PondName.validate name = Ok tt <-> PondName.legal name) /\
  (1 <= String.length name <= PondName.MAX_LEN -> forall e, PondName.validate name = Err e ->
     exists l bad r,
       chars name = l ++ bad :: r /\
       Forall (fun c => on_ascii PondName.legal_byte false c = true) l /\
       on_ascii PondName.legal_byte false bad = false /\
       e = "pond name '" +:+ name +:+ "' contains '" +:+ bad
             +:+ "', which is not allowed. A name is " +:+ PondName.RULE +:+ ".").
Proof.
  split; [apply PondName.validate_Ok|]. intros Hlen e. unfold PondName.validate.
  destruct (String.eqb_spec name EmptyString) as [->|_]; [simpl in Hlen; lia|].
  destruct (Nat.ltb_spec PondName.MAX_LEN (String.length name)); [lia|].
  destruct (find _ (chars name)) as [bad|] eqn:E; intros H'; simplify_eq.
  apply find_first_split in E as (l & r & Hl & Hbad & Hpre).
  apply negb_true_iff in Hbad. exists l, bad, r. split_and!; try done.
  eapply Forall_impl; [exact Hpre|]. intros c Hc. by apply negb_false_iff in Hc.
Qed.

(** a create request names a tier or gets an error that quotes what it said:
    only a blank name takes the default, and no unknown name ever does. *)
Theorem tier_parse_for_create_spec s :
  match Tier.parse_for_create s with
  | Ok t =>
      (trim s = EmptyString /\ t = Tier.Medium) \/
      (trim s <> EmptyString /\ to_lowercase (trim s) ∈ Tier.spellings t)
  | Err e =>
      trim s <> EmptyString /\ (forall t, to_lowercase (trim s) ∉ Tier.spellings t) /\
      e = "unknown tier '" +:+ trim s
            +:+ "'. Allowed at creation: x-small, small, medium, large, x-large."
  end.
Proof.
  unfold Tier.parse_for_create.
  destruct (String.eqb_spec (trim s) EmptyString) as [E|E]; [by left|].
  destruct (Tier.parse s) as [t|] eqn:Hp; simpl.
  - right. split; [done|]. by apply Tier.parse_spec.
  - split; [done|]. split; [|done]. intros t Ht%Tier.parse_spec. congruence.
Qed.

(** a tier is stored as its canonical name and read back as itself, and the
    caps grow strictly along the creatable tiers, within 64 and 32 bits; only
    the operator's [none] has no caps. *)
Theorem tier_ladder :
  (forall t, Tier.parse (Tier.as_str t) = Some t /\ Tier.parse_for_create (Tier.as_str t) = Ok t) /\
  map Tier.as_str ladder = Tier.CREATABLE /\
  (forall t, Tier.limits t = None <-> t = Tier.None_) /\
  StronglySorted (fun a b => Tier.memory_bytes a < Tier.memory_bytes b /\
                             Tier.cores a < Tier.cores b)%N (omap Tier.limits ladder) /\
  Forall (fun a => Tier.memory_bytes a < 2 ^ 64 /\ Tier.cores a < 2 ^ 32)%N
    (omap Tier.limits ladder).
Proof.
  split; [by intros []|]. split; [done|]. split; [by intros []|].
  split; cbn [omap list_omap ladder Tier.limits mbind option_bind];
    repeat match goal with |- StronglySorted _ _ => constructor | |- Forall _ _ => constructor end; repeat split; vm_compute; reflexivity.
Qed.

(** a validated pair of timeouts applies a positive timeout no larger than
    the ceiling to every request: a request within it is honoured exactly, one
    above it is clamped, an absent or zero one takes the default. *)
Theorem timeout_effective_spec d m t :
  Timeout.new d m = Ok t ->
  forall r, (0 < Timeout.effective t r <= m)%N /\
    Timeout.effective t None = d /\ Timeout.effective t (Some 0%N) = d /\
    (forall ms, (0 < ms <= m)%N -> Timeout.effective t (Some ms) = ms) /\
    (forall ms, (m <= ms)%N -> Timeout.effective t (Some ms) = m).
Proof.
  intros Hnew r. destruct (Timeout.new_Ok _ _ _ Hnew) as (Hwf & <- & <-).
  split_and!; try reflexivity; [by apply Timeout.effective_bounds..|idtac|idtac];
    destruct Hwf; intros [|p]; simpl; lia.
Qed.

Lemma timeout_effective_spec_witness :
  Timeout.new 30000 300000 = Ok Timeout.default /\
  Timeout.effective Timeout.default (Some 1800000%N) = 300000%N.
Proof.
  split; [reflexivity|].
  apply (timeout_effective_spec 30000 300000 Timeout.default eq_refl None). lia.
Defined.
