(* ===== verification/Common.v ===== *)
(** * The values every surface shares

    Models [latiq-common]'s [identity.rs], [trace.rs] (the W3C [traceparent])
    and [meta.rs] (the [_meta] envelope), [latiq-auth]'s [bearer] and the access
    record of [latiq-agent-core/src/access.rs].  A fresh UUID is an argument. *)
From S2P Require Import Prelude.
#[local] Open Scope rust_scope.
#[local] Arguments String.append !_ _ / : simpl nomatch.

(** ** Identity *)

Module Identity.
Record Identity := { agent_id : string; subject : string; issuer : string; verified : bool }.

#[export] Instance Identity_eq_dec : EqDecision Identity.
Proof. solve_decision. Defined.

(** [Some(s) if !s.is_empty()] after [trim], else the fallback. *)
Definition claimed_or (header : option string) (fallback : string) : string :=
  match trim <$> header with
  | Some s => if String.eqb s EmptyString then fallback else s
  | None => fallback
  end.

Definition claimed (header : option string) : Identity :=
  {| agent_id := claimed_or header "anonymous"; subject := EmptyString;
     issuer := EmptyString; verified := false |}.

(** The name [verified] is the field; the constructor is [from_claims] here.
    Its [debug_assert!] on the subject is compiled out of a release build. *)
Definition from_claims (subject issuer : string) (claimed_agent : option string) : Identity :=
  let subject := trim subject in
  let issuer := trim issuer in
  {| agent_id := claimed_or claimed_agent subject; subject := subject; issuer := issuer;
     verified := true |}.
End Identity.
#[export] Existing Instance Identity.Identity_eq_dec.

(** ** The bearer credential of an [Authorization] header *)

Definition bearer (header_value : string) : option string :=
  match split_once " " header_value with
  | None => None
  | Some (scheme, token) =>
      if negb (eq_ignore_ascii_case scheme "bearer") then None
      else
        let token := trim token in
        if String.eqb token EmptyString then None else Some token
  end.

(** ** Trace context *)

Module Trace.
Definition VERSION : string := "00".

Record TraceContext := { trace_id : string; span_id : string; sampled : bool }.

#[export] Instance TraceContext_eq_dec : EqDecision TraceContext.
Proof. solve_decision. Defined.

(** A UUID without its hyphens. *)
Definition hex32 (uuid : string) : string := replace_ascii "-" EmptyString uuid.

Definition span_of (uuid : string) : string := String.substring 0 16 (hex32 uuid).

Definition new (uuid uuid' : string) : TraceContext :=
  {| trace_id := hex32 uuid; span_id := span_of uuid'; sampled := true |}.

Definition lower_hex_byte (b : ascii) : bool := is_digit b || ascii_in 97 102 b.

Definition is_lower_hex (s : string) (len : nat) : bool :=
  (String.length s =? len) && all_bytes lower_hex_byte s.

Definition all_zero (s : string) : bool := all_bytes (Ascii.eqb "0") s.

(** [u8::from_str_radix(_, 16)] of two hex digits, as far as its low bit goes. *)
Definition hex_value (b : ascii) : N :=
  (if is_digit b then N_of_ascii b - 48 else N_of_ascii b - 87)%N.

Fixpoint from_hex (acc : N) (s : string) : N :=
  match s with
  | EmptyString => acc
  | String b s => from_hex (acc * 16 + hex_value b) s
  end.

Definition parse (uuid header : string) : option TraceContext :=
  match split_byte "-" (trim header) with
  | version :: trace_id :: parent_id :: flags :: rest =>
      if String.eqb version "00" && negb (bool_decide (rest = [])) then None
      else if negb (is_lower_hex version 2) || String.eqb version "ff" then None
      else if negb (is_lower_hex trace_id 32) || all_zero trace_id then None
      else if negb (is_lower_hex parent_id 16) || all_zero parent_id then None
      else if negb (is_lower_hex flags 2) then None
      else Some {| trace_id := trace_id; span_id := span_of uuid;
                   sampled := (N.land (from_hex 0 flags) 1 =? 1)%N |}
  | _ => None
  end.

(** The fresh UUIDs are the span of a parsed header, or both ids of a new one. *)
Definition inbound (uuid uuid' : string) (header : option string) : TraceContext :=
  match h ← header; parse uuid' h with
  | Some c => c
  | None => new uuid uuid'
  end.

Definition traceparent (c : TraceContext) : string :=
  let flags := if sampled c then "01" else "00" in
  VERSION +:+ "-" +:+ trace_id c +:+ "-" +:+ span_id c +:+ "-" +:+ flags.
End Trace.
#[export] Existing Instance Trace.TraceContext_eq_dec.

(** ** The [_meta] envelope *)

Module Meta.
Inductive WarningKind := Performance | Portability | SchemaHygiene | ResultHygiene.

Record Warning := { w_kind : WarningKind; w_message : string }.

Record DatasetField := { field_name : string; type_name : string }.

Record DatasetRef := {
  namespace : option string;
  name : string;
  version : option Z;
  fields : list DatasetField;
}.

Definition table (catalog schema tbl : string) : DatasetRef :=
  {| namespace := None; name := catalog +:+ "." +:+ schema +:+ "." +:+ tbl;
     version := None; fields := [] |}.

Definition external (uri : string) : DatasetRef :=
  let nn :=
    match split_once "://" uri with
    | Some (scheme, rest) =>
        if String.eqb scheme "file" then ("file", rest)
        else
          match split_once "/" rest with
          | Some (authority, path) => (scheme +:+ "://" +:+ authority, path)
          | None => (scheme +:+ "://" +:+ rest, uri)
          end
    | None => ("file", uri)
    end in
  {| namespace := Some nn.1; name := nn.2; version := None; fields := [] |}.

Record QueryMeta := {
  rows : N;
  rows_affected : N;
  snapshot_id : option Z;
  duration_ms : N;
  timeout_ms : N;
  bytes_scanned : N;
  tables_touched : list string;
  inputs : list DatasetRef;
  outputs : list DatasetRef;
  warnings : list Warning;
  hint : option string;
  served_by : string;
  trace_id : string;
  traceparent : string;
}.

Definition default : QueryMeta :=
  {| rows := 0; rows_affected := 0; snapshot_id := None; duration_ms := 0; timeout_ms := 0;
     bytes_scanned := 0; tables_touched := []; inputs := []; outputs := []; warnings := [];
     hint := None; served_by := EmptyString; trace_id := EmptyString;
     traceparent := EmptyString |}.

Definition set_datasets (m : QueryMeta) (ins outs : list DatasetRef) : QueryMeta :=
  {| rows := rows m; rows_affected := rows_affected m; snapshot_id := snapshot_id m;
     duration_ms := duration_ms m; timeout_ms := timeout_ms m; bytes_scanned := bytes_scanned m;
     tables_touched := foldl push_new [] (map name (outs ++ ins));
     inputs := ins; outputs := outs; warnings := warnings m; hint := hint m;
     served_by := served_by m; trace_id := trace_id m; traceparent := traceparent m |}.
End Meta.

(** ** The access record *)

Module Access.
Record Record_ := {
  identity : Identity.Identity;
  op : string;
  pond : string;
  trace_id : string;
  duration_ms : N;
  summary : string;
  outcome : string;
}.

Definition OK : string := "ok".
Definition ERROR : string := "error".

Definition outcome_of {T E} (res : result T E) : string := if is_ok res then OK else ERROR.

(** What [record] writes; the ambient trace id is its first argument. *)
Definition record (ambient : option string) (identity : Identity.Identity) (op : string)
    (pond summary : option string) (duration_ms : N) (outcome : string) : Record_ :=
  {| identity := identity; op := op; pond := default "-" pond;
     trace_id := default "-" ambient; duration_ms := duration_ms;
     summary := default EmptyString summary; outcome := outcome |}.
End Access.

(** ** Lemmas *)

Lemma join_split_byte a s : join (String a EmptyString) (split_byte a s) = s.
Proof.
  induction s as [|b s IH]; simpl; [done|].
  destruct (Ascii.eqb_spec a b) as [<-|_].
  - destruct (split_byte a s) as [|h t] eqn:E; [by destruct (split_byte_ne_nil a s)|].
    cbn [join]. simpl. f_equal. exact IH.
  - destruct (split_byte a s) as [|h t] eqn:E; [by destruct (split_byte_ne_nil a s)|].
    destruct t; simpl in *; by rewrite <- IH.
Qed.

Lemma all_bytes_impl (f g : ascii -> bool) s :
  (forall a, f a = true -> g a = true) -> all_bytes f s = true -> all_bytes g s = true.
Proof.
  intros Hfg. induction s as [|b s IH]; simpl; [done|].
  rewrite !andb_true_iff. intros [? ?]. auto.
Qed.

Lemma lower_hex_no_dash s n : Trace.is_lower_hex s n = true -> no_byte "-" s.
Proof.
  unfold Trace.is_lower_hex, no_byte. intros [_ H]%andb_true_iff. revert H.
  apply all_bytes_impl. intros b Hb. apply negb_true_iff, Ascii.eqb_neq. by intros <-.
Qed.

(** The ids a context of ours carries. *)
Record trace_wf (c : Trace.TraceContext) : Prop := {
  tw_trace : Trace.is_lower_hex (Trace.trace_id c) 32 = true;
  tw_trace_nz : Trace.all_zero (Trace.trace_id c) = false;
  tw_span : Trace.is_lower_hex (Trace.span_id c) 16 = true;
  tw_span_nz : Trace.all_zero (Trace.span_id c) = false;
}.

(** A trailing dash-free ASCII text is left alone by [trim]. *)
Lemma trim_no_whitespace s :
  (forall c, c ∈ chars s -> is_whitespace c = false) -> trim s = s.
Proof.
  intros Hs. unfold trim, trim_chars.
  rewrite (skip_while_id is_whitespace (chars s)).
  2: { destruct (chars s) as [|c l]; [done|]. apply Hs. by left. }
  rewrite skip_while_id; [by rewrite reverse_involutive, str_concat_chars|].
  destruct (reverse (chars s)) as [|c l] eqn:E; [done|]. apply Hs.
  apply elem_of_reverse. rewrite E. by left.
Qed.

Lemma elem_of_chars_bytes (f : ascii -> bool) s c :
  (forall a, f a = true -> is_ascii_byte a = true) ->
  all_bytes f s = true -> c ∈ chars s -> on_ascii f false c = true.
Proof.
  intros Hf Hs Hc. rewrite <- (forallb_chars f s Hf), forallb_forall in Hs.
  by apply Hs, list_elem_of_In.
Qed.

Definition header_byte (b : ascii) : bool := Ascii.eqb b "-" || Trace.lower_hex_byte b.

Lemma header_byte_ascii b : header_byte b = true -> is_ascii_byte b = true.
Proof.
  unfold header_byte, Trace.lower_hex_byte. intros [->%Ascii.eqb_eq|[H|H]%orb_true_iff]%orb_true_iff;
    [done|by apply ascii_in_is_ascii in H..].
Qed.

Lemma header_trim s : all_bytes header_byte s = true -> trim s = s.
Proof.
  intros Hs. apply trim_no_whitespace. intros c Hc.
  pose proof (elem_of_chars_bytes _ _ _ header_byte_ascii Hs Hc) as Hb.
  destruct c as [|b [|]]; [done| |done]. simpl in Hb.
  apply not_true_iff_false. unfold is_whitespace. rewrite existsb_eqb_elem_of.
  intros Hin%list_elem_of_In. clear Hs Hc. vm_compute in Hin.
  destruct_or! Hin; try (injection Hin as <-; vm_compute in Hb; discriminate);
    discriminate Hin.
Qed.

Lemma hex_header_bytes s n : Trace.is_lower_hex s n = true -> all_bytes header_byte s = true.
Proof.
  unfold Trace.is_lower_hex. intros [_ Hs]%andb_true_iff. revert Hs. apply all_bytes_impl.
  intros b Hb. unfold header_byte. by rewrite Hb, orb_true_r.
Qed.

(** Parsing what the fields of a version [00] header spell. *)
Lemma parse_fields uuid t p f :
  Trace.is_lower_hex t 32 = true -> Trace.all_zero t = false ->
  Trace.is_lower_hex p 16 = true -> Trace.all_zero p = false ->
  Trace.is_lower_hex f 2 = true ->
  Trace.parse uuid ("00-" +:+ t +:+ "-" +:+ p +:+ "-" +:+ f) =
    Some {| Trace.trace_id := t; Trace.span_id := Trace.span_of uuid;
            Trace.sampled := (N.land (Trace.from_hex 0 f) 1 =? 1)%N |}.
Proof.
  intros Ht Htz Hp Hpz Hf. unfold Trace.parse.
  rewrite header_trim.
  2: { cbn. rewrite all_bytes_app, (hex_header_bytes _ _ Ht). cbn.
       rewrite all_bytes_app, (hex_header_bytes _ _ Hp). cbn. by apply (hex_header_bytes _ 2). }
  change ("00-" +:+ t +:+ "-" +:+ p +:+ "-" +:+ f) with (join "-" ["00"; t; p; f]).
  rewrite split_byte_join; [|done|repeat constructor; try done; by eapply lower_hex_no_dash].
  cbn [String.eqb]. rewrite bool_decide_true by done. simpl.
  by rewrite Ht, Htz, Hp, Hpz, Hf.
Qed.

Lemma land_1_odd n : (N.land n 1 =? 1)%N = N.odd n.
Proof. by destruct n as [|[p|p|]]. Qed.

Lemma foldl_push_new (l acc : list string) :
  NoDup acc ->
  NoDup (foldl push_new acc l) /\
  (forall n, n ∈ foldl push_new acc l <-> n ∈ acc \/ n ∈ l) /\
  exists k, foldl push_new acc l = acc ++ k.
Proof.
  revert acc. induction l as [|x l IH]; intros acc Hacc; simpl.
  { split; [done|]. split; [set_solver|]. exists []. by rewrite app_nil_r. }
  destruct (IH (push_new acc x) (NoDup_push_new _ _ Hacc)) as (Hnd & Hin & k & Hk).
  split; [done|]. split.
  - intros n. rewrite Hin, elem_of_push_new, elem_of_cons. naive_solver.
  - rewrite Hk. unfold push_new. case_bool_decide; [by exists k|].
    exists ([x] ++ k). by rewrite app_assoc.
Qed.

(** ** Properties *)

(** a [traceparent] of ours survives a hop: the peer that parses it keeps
    the trace id and the sampling decision, and puts its own span in place of
    ours. *)
Theorem traceparent_roundtrip uuid c :
  trace_wf c ->
  Trace.parse uuid (Trace.traceparent c) =
    Some {| Trace.trace_id := Trace.trace_id c; Trace.span_id := Trace.span_of uuid;
            Trace.sampled := Trace.sampled c |}.
Proof.
  intros [Ht Htz Hp Hpz]. unfold Trace.traceparent, Trace.VERSION.
  pose proof (parse_fields uuid (Trace.trace_id c) (Trace.span_id c)
    (if Trace.sampled c then "01" else "00") Ht Htz Hp Hpz) as Hpf.
  destruct (Trace.sampled c); by apply Hpf.
Qed.

(** an inbound header is honoured only as the W3C form: hyphenated fields of
    lower-case hex of their exact widths, nonzero ids, a version other than
    [ff], and exactly four fields when the version is [00]; the id kept is the
    caller's, and the span never is. *)
Theorem trace_parse_sound uuid header :
  match Trace.parse uuid header with
  | None => True
  | Some c =>
      exists version parent flags rest,
        trim header = join "-" (version :: Trace.trace_id c :: parent :: flags :: rest) /\
        Trace.is_lower_hex version 2 = true /\ version <> "ff" /\
        (version = "00" -> rest = []) /\
        Trace.is_lower_hex (Trace.trace_id c) 32 = true /\
        Trace.all_zero (Trace.trace_id c) = false /\
        Trace.is_lower_hex parent 16 = true /\ Trace.all_zero parent = false /\
        Trace.is_lower_hex flags 2 = true /\
        Trace.sampled c = N.odd (Trace.from_hex 0 flags) /\
        Trace.span_id c = Trace.span_of uuid
  end.
Proof.
  destruct (Trace.parse uuid header) as [c|] eqn:Hp; [|done]. unfold Trace.parse in Hp.
  destruct (split_byte "-" (trim header)) as [|v [|t [|p [|f rest]]]] eqn:Es; try done.
  destruct (String.eqb_spec v "00") as [Hv|Hv]; simpl in Hp.
  1: case_bool_decide; simpl in Hp; [|done].
  all: destruct (Trace.is_lower_hex v 2) eqn:Hvh; simpl in Hp; [|done];
    destruct (String.eqb_spec v "ff"); simpl in Hp; [done|];
    destruct (Trace.is_lower_hex t 32) eqn:Ht; simpl in Hp; [|done];
    destruct (Trace.all_zero t) eqn:Htz; simpl in Hp; [done|];
    destruct (Trace.is_lower_hex p 16) eqn:Hpp; simpl in Hp; [|done];
    destruct (Trace.all_zero p) eqn:Hpz; simpl in Hp; [done|];
    destruct (Trace.is_lower_hex f 2) eqn:Hf; simpl in Hp; [|done];
    injection Hp as <-; exists v, p, f, rest; rewrite <- (join_split_byte "-" (trim header)), Es;
    cbn [Trace.trace_id Trace.span_id Trace.sampled];
    do 9 (split; [done|]); split; [apply land_1_odd|done].
Qed.

(** a credential is taken from an [Authorization] header exactly when its
    first word is the bearer scheme, in any case, and something other than
    blanks follows the first space. *)
Theorem bearer_spec h t :
  bearer h = Some t <->
  exists scheme rest, h = scheme +:+ " " +:+ rest /\ no_byte " " scheme /\
    ascii_lowercase scheme = "bearer" /\ t = trim rest /\ t <> EmptyString.
Proof.
  unfold bearer. split.
  - destruct (split_once " " h) as [[scheme rest]|] eqn:E; [|done].
    unfold eq_ignore_ascii_case. destruct (String.eqb_spec (ascii_lowercase scheme)
      (ascii_lowercase "bearer")) as [Hs|]; simpl; [|done].
    destruct (String.eqb_spec (trim rest) EmptyString); [done|]. intros [= <-].
    apply split_once_byte_Some in E as [-> ?]. by exists scheme, rest.
  - intros (scheme & rest & -> & Hn & Hs & -> & Ht).
    change (" " +:+ rest) with (String " " rest).
    rewrite (split_once_byte " " scheme rest Hn). unfold eq_ignore_ascii_case. rewrite Hs. simpl.
    by rewrite (proj2 (String.eqb_neq _ _) Ht).
Qed.

(** [tables_touched] is derived from the datasets: each name once, outputs
    before inputs, and nothing else of the envelope changes. *)
Theorem set_datasets_spec m ins outs :
  let m' := Meta.set_datasets m ins outs in
  NoDup (Meta.tables_touched m') /\
  (forall n, n ∈ Meta.tables_touched m' <-> n ∈ map Meta.name outs \/ n ∈ map Meta.name ins) /\
  (exists k, Meta.tables_touched m' = foldl push_new [] (map Meta.name outs) ++ k) /\
  Meta.inputs m' = ins /\ Meta.outputs m' = outs.
Proof.
  cbn zeta. destruct (foldl_push_new (map Meta.name (outs ++ ins)) [] NoDup_nil_2)
    as (Hnd & Hin & _).
  split; [exact Hnd|]. split.
  - intros n. cbn [Meta.set_datasets Meta.tables_touched]. rewrite Hin, map_app, elem_of_app.
    set_solver.
  - split; [|done]. cbn [Meta.set_datasets Meta.tables_touched]. rewrite map_app, foldl_app.
    apply foldl_push_new, foldl_push_new, NoDup_nil_2.
Qed.

Lemma traceparent_roundtrip_witness :
  let c := {| Trace.trace_id := "0af7651916cd43dd8448eb211c80319c";
              Trace.span_id := "b7ad6b7169203331"; Trace.sampled := true |} in
  Trace.traceparent c = "00-0af7651916cd43dd8448eb211c80319c-b7ad6b7169203331-01" /\
  Trace.parse "0190a000-0000-7000-8000-00000000000a" (Trace.traceparent c) =
    Some {| Trace.trace_id := Trace.trace_id c; Trace.span_id := "0190a00000007000";
            Trace.sampled := true |}.
Proof. split; [reflexivity|]. apply traceparent_roundtrip. by split. Defined.
