(* ===== verification/Registry.v ===== *)
(** * The control plane's system of record

    Models [latiq-control-plane/src/registry.rs] and the schema and seeds of
    [migrations.rs]: the tables, one definition per method of [Registry], and
    the statements' meaning on the tables.  The registry runs every method under
    one lock, so a history of the registry is a sequence of whole operations.

    A clock reading (microseconds), a random placement and a fresh UUID are
    arguments of the operations that consume them.  What the database engine
    leaves open (which row an unordered [LIMIT 1] returns, its texts) is the
    class [Sql].  Failures of the engine itself (a lost file, a full disk) are
    not modelled, its constraint violations are.  [ponds.state] and
    [nodes.pond_count] are columns no statement reads, and are left out. *)
From S2P Require Import Prelude Errors Extensions Policy.
#[local] Open Scope rust_scope.
#[local] Arguments String.append !_ _ / : simpl nomatch.

(** ** What the database engine provides *)

Class Sql := {
  (** [LIMIT 1] without an order: some row of the result. *)
  limit1 : forall {A}, list A -> option A;
  limit1_elem : forall A (l : list A) x, limit1 l = Some x -> x ∈ l;
  limit1_None : forall A (l : list A), limit1 l = None -> l = [];
  (** [ORDER BY random() LIMIT 1], for one outcome of the random source. *)
  random1 : forall {A}, N -> list A -> option A;
  random1_elem : forall A seed (l : list A) x, random1 seed l = Some x -> x ∈ l;
  random1_None : forall A seed (l : list A), random1 seed l = None -> l = [];
  (** The message of a PRIMARY KEY or UNIQUE violation on a table. *)
  constraint_violation : string -> string;
  (** The case folding of [ILIKE]. *)
  sql_lower : string -> string;
  (** [ts::VARCHAR]. *)
  timestamp_varchar : Z -> string;
  (** [serde_json] on a string map. *)
  params_to_json : gmap string string -> string;
  params_from_json : string -> option (gmap string string);
  params_json_roundtrip : forall m, params_from_json (params_to_json m) = Some m;
}.

(** [LIKE]: [%] is any run of characters, [_] any single one; no escape. *)
Fixpoint like_chars (fuel : nat) (pat s : list string) : bool :=
  match fuel with
  | O => false
  | S fuel =>
      match pat, s with
      | [], [] => true
      | [], _ :: _ => false
      | p :: pat', s =>
          if String.eqb p "%" then
            like_chars fuel pat' s ||
            match s with [] => false | _ :: s' => like_chars fuel pat s' end
          else
            match s with
            | [] => false
            | c :: s' => (String.eqb p "_" || String.eqb p c) && like_chars fuel pat' s'
            end
      end
  end.

Definition like (pat s : string) : bool :=
  let p := chars pat in let t := chars s in
  like_chars (S (length p + length t)) p t.

Definition ilike `{Sql} (pat s : string) : bool := like (sql_lower pat) (sql_lower s).

(** ** Tables *)

Module Tables.
Record Node := {
  mcp_endpoint : string;
  internal_endpoint : string;
  capacity : N;
  state : string;
  last_heartbeat : Z;
}.

(** The columns a later migration added are nullable: [None] is the NULL of a
    row the upgrade found. *)
Record Pond := {
  pond_id : string;
  name : string;
  owner_identity : string;
  node_id : string;
  policy_json : string;
  created_at : Z;
  tier : option string;
  extensions : option string;
  description : option string;
  lineage : option bool;
}.

Record Dataset := { d_description : string; d_created_by : string; d_created_at : Z }.

Record Catalog := {
  type_ : string;
  params_json : string;
  c_description : string;
  c_created_by : string;
  c_created_at : Z;
}.
End Tables.

(** The registry: its tables (those with one key as maps from it, [ponds] in
    table order) and the two counters its operations advance. *)
Record Registry := {
  nodes : gmap string Tables.Node;
  ponds : list Tables.Pond;
  datasets : gmap string Tables.Dataset;
  dataset_tables : gmap (string * string) (string * string);
  dataset_tags : gset (string * string);
  catalogs : gmap string Tables.Catalog;
  catalog_tags : gset (string * string);
  policy : gmap string string;
  latiq_nodes_reaped_total : N;
  latiq_pond_allocations_total : N;
}.

Definition with_nodes (r : Registry) ns : Registry :=
  {| nodes := ns; ponds := ponds r; datasets := datasets r;
     dataset_tables := dataset_tables r; dataset_tags := dataset_tags r;
     catalogs := catalogs r; catalog_tags := catalog_tags r; policy := policy r;
     latiq_nodes_reaped_total := latiq_nodes_reaped_total r;
     latiq_pond_allocations_total := latiq_pond_allocations_total r |}.

Definition with_ponds (r : Registry) ps : Registry :=
  {| nodes := nodes r; ponds := ps; datasets := datasets r;
     dataset_tables := dataset_tables r; dataset_tags := dataset_tags r;
     catalogs := catalogs r; catalog_tags := catalog_tags r; policy := policy r;
     latiq_nodes_reaped_total := latiq_nodes_reaped_total r;
     latiq_pond_allocations_total := latiq_pond_allocations_total r |}.

Definition with_datasets (r : Registry) ds tbs tgs : Registry :=
  {| nodes := nodes r; ponds := ponds r; datasets := ds;
     dataset_tables := tbs; dataset_tags := tgs;
     catalogs := catalogs r; catalog_tags := catalog_tags r; policy := policy r;
     latiq_nodes_reaped_total := latiq_nodes_reaped_total r;
     latiq_pond_allocations_total := latiq_pond_allocations_total r |}.

Definition with_catalogs (r : Registry) cs tgs : Registry :=
  {| nodes := nodes r; ponds := ponds r; datasets := datasets r;
     dataset_tables := dataset_tables r; dataset_tags := dataset_tags r;
     catalogs := cs; catalog_tags := tgs; policy := policy r;
     latiq_nodes_reaped_total := latiq_nodes_reaped_total r;
     latiq_pond_allocations_total := latiq_pond_allocations_total r |}.

Definition with_policy (r : Registry) p : Registry :=
  {| nodes := nodes r; ponds := ponds r; datasets := datasets r;
     dataset_tables := dataset_tables r; dataset_tags := dataset_tags r;
     catalogs := catalogs r; catalog_tags := catalog_tags r; policy := p;
     latiq_nodes_reaped_total := latiq_nodes_reaped_total r;
     latiq_pond_allocations_total := latiq_pond_allocations_total r |}.

Definition count_metrics (r : Registry) (reaped allocations : N) : Registry :=
  {| nodes := nodes r; ponds := ponds r; datasets := datasets r;
     dataset_tables := dataset_tables r; dataset_tags := dataset_tags r;
     catalogs := catalogs r; catalog_tags := catalog_tags r; policy := policy r;
     latiq_nodes_reaped_total := latiq_nodes_reaped_total r + reaped;
     latiq_pond_allocations_total := latiq_pond_allocations_total r + allocations |}%N.

(** ** Rows, as the methods return them *)

Module Rows.
Record NodeRow := {
  node_id : string;
  mcp_endpoint : string;
  internal_endpoint : string;
  capacity : N;
  pond_count : N;
  state : string;
  last_heartbeat : string;
  heartbeat_age_seconds : Z;
}.

Record ForgottenPond := {
  f_pond_id : string;
  f_name : string;
  f_node_id : string;
  f_node_state : string;
}.

Record PondRow := {
  p_pond_id : string;
  p_name : string;
  p_owner_identity : string;
  p_node_id : string;
  p_tier : string;
  p_extensions : list string;
  p_description : string;
  p_lineage : bool;
}.

Record DatasetTableRow := { table_name : string; source_uri : string; format : string }.

Record DatasetRow := {
  ds_name : string;
  ds_description : string;
  ds_tags : list string;
  ds_tables : list DatasetTableRow;
  ds_created_by : string;
  ds_created_at : string;
}.

Record CatalogRow := {
  ca_name : string;
  ca_type : string;
  ca_params : gmap string string;
  ca_description : string;
  ca_tags : list string;
  ca_created_by : string;
  ca_created_at : string;
}.
End Rows.

#[export] Instance DatasetTableRow_eq_dec : EqDecision Rows.DatasetTableRow.
Proof. solve_decision. Defined.
#[export] Instance PondRow_eq_dec : EqDecision Rows.PondRow.
Proof. solve_decision. Defined.

(** ** The methods *)

Definition older (p q : Tables.Pond) : Prop := (Tables.created_at p <= Tables.created_at q)%Z.
#[export] Instance older_dec : RelDecision older.
Proof. intros p q. unfold older. apply _. Defined.

Module Ops.
Section ops.
Context `{Sql}.

Definition Res (A : Type) := (result A ControlPlaneError * Registry)%type.

(** [date_diff('second', a, b)] counts the second boundaries between the two. *)
Definition date_diff_second (a b : Z) : Z := (b / 1000000 - a / 1000000)%Z.

Definition register_node (now : Z) (node_id mcp internal : string) (capacity : N)
    (r : Registry) : Res unit :=
  (Ok tt, with_nodes r
     (<[node_id := {| Tables.mcp_endpoint := mcp; Tables.internal_endpoint := internal;
                      Tables.capacity := capacity; Tables.state := "active";
                      Tables.last_heartbeat := now |}]> (nodes r))).

Definition heartbeat (now : Z) (node_id : string) (_pond_count : N) (r : Registry) :
    Res unit :=
  match nodes r !! node_id with
  | None => (Err (ControlPlaneError.NodeNotFound node_id), r)
  | Some n =>
      (Ok tt, with_nodes r
         (<[node_id := {| Tables.mcp_endpoint := Tables.mcp_endpoint n;
                          Tables.internal_endpoint := Tables.internal_endpoint n;
                          Tables.capacity := Tables.capacity n;
                          Tables.state := "active";
                          Tables.last_heartbeat := now |}]> (nodes r)))
  end.

(** The reaper's WHERE clause. *)
Definition stale (now : Z) (ttl_secs : N) (n : Tables.Node) : bool :=
  String.eqb (Tables.state n) "active" &&
  (Tables.last_heartbeat n <? now - Z.of_N ttl_secs * 1000000)%Z.

Definition down (n : Tables.Node) : Tables.Node :=
  {| Tables.mcp_endpoint := Tables.mcp_endpoint n;
     Tables.internal_endpoint := Tables.internal_endpoint n;
     Tables.capacity := Tables.capacity n; Tables.state := "down";
     Tables.last_heartbeat := Tables.last_heartbeat n |}.

Definition reap_stale_nodes (now : Z) (ttl_secs : N) (r : Registry) : Res N :=
  let n := N.of_nat (size (filter (fun kv => stale now ttl_secs kv.2 = true) (nodes r))) in
  let r' := with_nodes r
              ((fun nd => if stale now ttl_secs nd then down nd else nd) <$> nodes r) in
  (Ok n, if (0 <? n)%N then count_metrics r' n 0 else r').

(** [SELECT count( * ) FROM ponds WHERE node_id = ..], read back as a [u32]. *)
Definition pond_count (r : Registry) (node_id : string) : N :=
  (N.of_nat (length (List.filter (fun p => String.eqb (Tables.node_id p) node_id) (ponds r)))
     mod 2 ^ 32)%N.

Definition node_row (now : Z) (r : Registry) (kv : string * Tables.Node) : Rows.NodeRow :=
  {| Rows.node_id := kv.1;
     Rows.mcp_endpoint := Tables.mcp_endpoint kv.2;
     Rows.internal_endpoint := Tables.internal_endpoint kv.2;
     Rows.capacity := Tables.capacity kv.2;
     Rows.pond_count := pond_count r kv.1;
     Rows.state := Tables.state kv.2;
     Rows.last_heartbeat := timestamp_varchar (Tables.last_heartbeat kv.2);
     Rows.heartbeat_age_seconds := date_diff_second (Tables.last_heartbeat kv.2) now |}.

Definition list_nodes (now : Z) (r : Registry) : list Rows.NodeRow :=
  map (node_row now r) (btree_entries (nodes r)).

Definition describe_node (now : Z) (node_id : string) (r : Registry) :
    result Rows.NodeRow ControlPlaneError :=
  ok_or (find (fun n => String.eqb (Rows.node_id n) node_id) (list_nodes now r))
    (ControlPlaneError.NodeNotFound node_id).

(** The columns of a pond, NULLs replaced as every SELECT replaces them. *)
Definition pond_row (p : Tables.Pond) : Rows.PondRow :=
  {| Rows.p_pond_id := Tables.pond_id p;
     Rows.p_name := Tables.name p;
     Rows.p_owner_identity := Tables.owner_identity p;
     Rows.p_node_id := Tables.node_id p;
     Rows.p_tier := default "medium" (Tables.tier p);
     Rows.p_extensions :=
       Extensions.parse_csv (default EmptyString (Tables.extensions p));
     Rows.p_description := default EmptyString (Tables.description p);
     Rows.p_lineage := default false (Tables.lineage p) |}.

(** [WHERE pond_id=? OR name=?]. *)
Definition matches_ref (pond_ref : string) (p : Tables.Pond) : bool :=
  String.eqb (Tables.pond_id p) pond_ref || String.eqb (Tables.name p) pond_ref.

Definition find_pond (pond_ref : string) (r : Registry) : result Tables.Pond ControlPlaneError :=
  ok_or (limit1 (List.filter (matches_ref pond_ref) (ponds r)))
    (ControlPlaneError.PondNotFound pond_ref).

Definition active_nodes (r : Registry) : list string :=
  map fst (List.filter (fun kv => String.eqb (Tables.state kv.2) "active")
             (btree_entries (nodes r))).

(** [INSERT INTO ponds], with the two unique keys of the table. *)
Definition insert_pond (p : Tables.Pond) (r : Registry) : Res unit :=
  if existsb (fun q => String.eqb (Tables.pond_id q) (Tables.pond_id p) ||
                       String.eqb (Tables.name q) (Tables.name p)) (ponds r)
  then (Err (ControlPlaneError.Storage (constraint_violation "ponds")), r)
  else (Ok tt, with_ponds r (ponds r ++ [p])).

Definition create_pond (now : Z) (seed : N) (uuid : string)
    (name : option string) (owner_identity policy_json tier : string)
    (extensions : list string) (description : string) (lineage : bool)
    (r : Registry) : Res Rows.PondRow :=
  match Tier.parse_for_create tier with
  | Err e => (Err (ControlPlaneError.Invalid e), r)
  | Ok parsed =>
  if bool_decide (parsed = Tier.None_) then
    (Err (ControlPlaneError.Invalid
       "tier 'none' (uncapped) is operator-only: set it after creation with `latiq pond set-tier <pond> --tier none`"), r)
  else
  let tier := Tier.as_str parsed in
  match (match name with Some n => PondName.validate n | None => Ok tt end) with
  | Err e => (Err (ControlPlaneError.Invalid e), r)
  | Ok _ =>
  let pond_id := uuid in
  let name := default pond_id name in
  match random1 seed (active_nodes r) with
  | None => (Err (ControlPlaneError.NoNodeAvailable "no active node registered"), r)
  | Some node_id =>
  if existsb (fun p => String.eqb (Tables.name p) name) (ponds r) then
    (Err (ControlPlaneError.NameConflict name), r)
  else
  let ext_csv := join "," extensions in
  match insert_pond
          {| Tables.pond_id := pond_id; Tables.name := name;
             Tables.owner_identity := owner_identity; Tables.node_id := node_id;
             Tables.policy_json := policy_json; Tables.created_at := now;
             Tables.tier := Some tier; Tables.extensions := Some ext_csv;
             Tables.description := Some description; Tables.lineage := Some lineage |} r with
  | (Err e, r') => (Err e, r')
  | (Ok _, r') =>
      (Ok {| Rows.p_pond_id := pond_id; Rows.p_name := name;
             Rows.p_owner_identity := owner_identity; Rows.p_node_id := node_id;
             Rows.p_tier := tier; Rows.p_extensions := extensions;
             Rows.p_description := description; Rows.p_lineage := lineage |},
       count_metrics r' 0 1)
  end end end end.

Definition get_pond_location (pond_ref : string) (r : Registry) :
    result (string * string) ControlPlaneError :=
  ok_or (limit1 (omap (fun p => n ← nodes r !! Tables.node_id p;
                                Some (Tables.pond_id p, Tables.internal_endpoint n))
                   (List.filter (matches_ref pond_ref) (ponds r))))
    (ControlPlaneError.PondNotFound pond_ref).

(** [ORDER BY created_at]; rows of one instant keep the table's order. *)
Definition list_ponds (r : Registry) : list Rows.PondRow :=
  map pond_row (merge_sort older (ponds r)).

Definition pond_info (pond_ref : string) (r : Registry) :
    result (Rows.PondRow * string * string * option string) ControlPlaneError :=
  let? p := find_pond pond_ref r in
  Ok (pond_row p, timestamp_varchar (Tables.created_at p), Tables.policy_json p,
      Tables.internal_endpoint <$> nodes r !! Tables.node_id p).

Definition set_tier (tier : string) (p : Tables.Pond) : Tables.Pond :=
  {| Tables.pond_id := Tables.pond_id p; Tables.name := Tables.name p;
     Tables.owner_identity := Tables.owner_identity p; Tables.node_id := Tables.node_id p;
     Tables.policy_json := Tables.policy_json p; Tables.created_at := Tables.created_at p;
     Tables.tier := Some tier; Tables.extensions := Tables.extensions p;
     Tables.description := Tables.description p; Tables.lineage := Tables.lineage p |}.

Definition set_pond_tier (pond_ref tier : string) (r : Registry) : Res unit :=
  match Tier.parse tier with
  | None =>
      (Err (ControlPlaneError.Invalid
         ("unknown tier '" +:+ tier +:+ "' (expected " +:+ join ", " Tier.ALL +:+ ")")), r)
  | Some parsed =>
      let r' := with_ponds r
        (map (fun p => if matches_ref pond_ref p then set_tier (Tier.as_str parsed) p else p)
           (ponds r)) in
      if existsb (matches_ref pond_ref) (ponds r) then (Ok tt, r')
      else (Err (ControlPlaneError.PondNotFound pond_ref), r)
  end.

Definition forget_pond (pond_ref : string) (r : Registry) : Res Rows.ForgottenPond :=
  match find_pond pond_ref r with
  | Err e => (Err e, r)
  | Ok p =>
      let nd := nodes r !! Tables.node_id p in
      let state := default EmptyString (Tables.state <$> nd) in
      let endpoint := default EmptyString (Tables.internal_endpoint <$> nd) in
      if String.eqb state "active" && negb (String.eqb endpoint EmptyString) then
        (Err (ControlPlaneError.PondStillOwned (Tables.name p) (Tables.node_id p)), r)
      else
        (Ok {| Rows.f_pond_id := Tables.pond_id p; Rows.f_name := Tables.name p;
               Rows.f_node_id := Tables.node_id p;
               Rows.f_node_state :=
                 if String.eqb state EmptyString then "unregistered" else state |},
         with_ponds r
           (List.filter (fun q => negb (String.eqb (Tables.pond_id q) (Tables.pond_id p)))
              (ponds r)))
  end.

Definition drop_pond (pond_id : string) (r : Registry) : Res unit :=
  if existsb (matches_ref pond_id) (ponds r) then
    (Ok tt, with_ponds r (List.filter (fun p => negb (matches_ref pond_id p)) (ponds r)))
  else (Err (ControlPlaneError.PondNotFound pond_id), r).

(** *** Datasets *)

(** A bare SQL identifier. *)
Definition is_ident (s : string) : bool :=
  match chars s with
  | [] => false
  | c :: rest =>
      (is_ascii_alphabetic c || String.eqb c "_") &&
      forallb (fun c => is_ascii_alphanumeric c || String.eqb c "_") rest
  end.

(** [BEGIN], the body, then [COMMIT] or [ROLLBACK] to the state before. *)
Definition in_txn {A} (f : Registry -> Res A) (r : Registry) : Res A :=
  match f r with
  | (Ok a, r') => (Ok a, r')
  | (Err e, _) => (Err e, r)
  end.

(** [INSERT INTO dataset_tables] for each table: (dataset, table_name) is the key. *)
Fixpoint insert_tables (d : string) (ts : list Rows.DatasetTableRow)
    (m : gmap (string * string) (string * string)) :
    result (gmap (string * string) (string * string)) ControlPlaneError :=
  match ts with
  | [] => Ok m
  | t :: ts =>
      match m !! (d, Rows.table_name t) with
      | Some _ => Err (ControlPlaneError.Storage (constraint_violation "dataset_tables"))
      | None =>
          insert_tables d ts
            (<[(d, Rows.table_name t) := (Rows.source_uri t, Rows.format t)]> m)
      end
  end.

(** [INSERT OR IGNORE] of one owner's tags. *)
Definition insert_tags (owner : string) (tags : list string) (s : gset (string * string)) :
    gset (string * string) :=
  foldl (fun s tag => {[(owner, tag)]} ∪ s) s tags.

Definition delete_tables (d : string) (m : gmap (string * string) (string * string)) :
    gmap (string * string) (string * string) :=
  filter (fun kv => kv.1.1 <> d) m.

Definition delete_tags (owner : string) (s : gset (string * string)) : gset (string * string) :=
  filter (fun kv => kv.1 <> owner) s.

Definition add_dataset (now : Z) (d : Rows.DatasetRow) (r : Registry) : Res string :=
  if String.eqb (Rows.ds_name d) EmptyString then
    (Err (ControlPlaneError.Invalid "dataset name is required"), r)
  else if negb (is_ident (Rows.ds_name d)) then
    (Err (ControlPlaneError.Invalid
       "dataset name must be a bare identifier (letters/digits/underscore)"), r)
  else if bool_decide (Rows.ds_tables d = []) then
    (Err (ControlPlaneError.Invalid "a dataset needs at least one table"), r)
  else
    in_txn (fun r =>
      let n := Rows.ds_name d in
      let tbs := delete_tables n (dataset_tables r) in
      let tgs := delete_tags n (dataset_tags r) in
      let ds := <[n := {| Tables.d_description := Rows.ds_description d;
                          Tables.d_created_by := Rows.ds_created_by d;
                          Tables.d_created_at := now |}]> (delete n (datasets r)) in
      match insert_tables n (Rows.ds_tables d) tbs with
      | Err e => (Err e, with_datasets r ds tbs tgs)
      | Ok tbs => (Ok n, with_datasets r ds tbs (insert_tags n (Rows.ds_tags d) tgs))
      end) r.

Definition remove_dataset (name : string) (r : Registry) : Res unit :=
  match datasets r !! name with
  | None => (Err (ControlPlaneError.DatasetNotFound name), r)
  | Some _ =>
      (Ok tt, with_datasets r (delete name (datasets r))
                (delete_tables name (dataset_tables r))
                (delete_tags name (dataset_tags r)))
  end.

(** [SELECT tag .. WHERE owner=? ORDER BY tag]. *)
Definition tags_for (s : gset (string * string)) (owner : string) : list string :=
  sort_strings (map snd (List.filter (fun kv => String.eqb kv.1 owner) (elements s))).

(** The tables of one dataset, by name. *)
Definition tables_of (m : gmap (string * string) (string * string)) (d : string) :
    list Rows.DatasetTableRow :=
  omap (fun t => (fun uf => {| Rows.table_name := t; Rows.source_uri := uf.1;
                               Rows.format := uf.2 |}) <$> m !! (d, t))
    (sort_strings (map snd (List.filter (fun k => String.eqb k.1 d) (elements (dom m))))).

Definition get_dataset (name : string) (r : Registry) :
    result Rows.DatasetRow ControlPlaneError :=
  match datasets r !! name with
  | None => Err (ControlPlaneError.DatasetNotFound name)
  | Some d =>
      Ok {| Rows.ds_name := name;
            Rows.ds_description := Tables.d_description d;
            Rows.ds_tags := tags_for (dataset_tags r) name;
            Rows.ds_tables := tables_of (dataset_tables r) name;
            Rows.ds_created_by := Tables.d_created_by d;
            Rows.ds_created_at := timestamp_varchar (Tables.d_created_at d) |}
  end.

(** *** The shared name search *)

(** [table] as its names with their descriptions, [tag_table] as its rows. *)
Definition search (table : gmap string string) (tag_table : gset (string * string))
    (query : string) : list string :=
  let q := trim query in
  if String.eqb q EmptyString then btree_keys table
  else
    match strip_prefix "#" q with
    | Some tag =>
        sort_strings (map fst (List.filter (fun kv => String.eqb kv.2 tag) (elements tag_table)))
    | None =>
        if str_contains "*" q then
          List.filter (like (replace_ascii "*" "%" q)) (btree_keys table)
        else
          let pat := "%" +:+ q +:+ "%" in
          map fst (List.filter (fun kv =>
            ilike pat kv.1 || ilike pat kv.2 ||
            existsb (fun ot => String.eqb ot.1 kv.1 && ilike pat ot.2) (elements tag_table))
            (btree_entries table))
    end.

(** [names.map(get).collect()]: the first failure is the answer. *)
Fixpoint collect {A B E} (f : A -> result B E) (l : list A) : result (list B) E :=
  match l with
  | [] => Ok []
  | x :: l => let? y := f x in let? ys := collect f l in Ok (y :: ys)
  end.

Definition list_datasets (query : string) (r : Registry) :
    result (list Rows.DatasetRow) ControlPlaneError :=
  collect (fun n => get_dataset n r)
    (search (Tables.d_description <$> datasets r) (dataset_tags r) query).

(** *** External catalogs *)

Definition add_catalog (now : Z) (ca : Rows.CatalogRow) (r : Registry) : Res string :=
  if String.eqb (Rows.ca_name ca) EmptyString || String.eqb (Rows.ca_type ca) EmptyString then
    (Err (ControlPlaneError.Invalid "catalog name and type are required"), r)
  else if negb (is_ident (Rows.ca_name ca)) then
    (Err (ControlPlaneError.Invalid
       "catalog name must be a bare identifier (letters/digits/underscore)"), r)
  else
    let params_json := params_to_json (Rows.ca_params ca) in
    in_txn (fun r =>
      let n := Rows.ca_name ca in
      let tgs := delete_tags n (catalog_tags r) in
      let cs := <[n := {| Tables.type_ := Rows.ca_type ca;
                          Tables.params_json := params_json;
                          Tables.c_description := Rows.ca_description ca;
                          Tables.c_created_by := Rows.ca_created_by ca;
                          Tables.c_created_at := now |}]> (delete n (catalogs r)) in
      (Ok n, with_catalogs r cs (insert_tags n (Rows.ca_tags ca) tgs))) r.

Definition remove_catalog (name : string) (r : Registry) : Res unit :=
  match catalogs r !! name with
  | None => (Err (ControlPlaneError.CatalogNotFound name), r)
  | Some _ =>
      (Ok tt, with_catalogs r (delete name (catalogs r)) (delete_tags name (catalog_tags r)))
  end.

Definition get_catalog (name : string) (r : Registry) :
    result Rows.CatalogRow ControlPlaneError :=
  match catalogs r !! name with
  | None => Err (ControlPlaneError.CatalogNotFound name)
  | Some c =>
      Ok {| Rows.ca_name := name; Rows.ca_type := Tables.type_ c;
            Rows.ca_params := default ∅ (params_from_json (Tables.params_json c));
            Rows.ca_description := Tables.c_description c;
            Rows.ca_tags := tags_for (catalog_tags r) name;
            Rows.ca_created_by := Tables.c_created_by c;
            Rows.ca_created_at := timestamp_varchar (Tables.c_created_at c) |}
  end.

Definition list_catalogs (query : string) (r : Registry) :
    result (list Rows.CatalogRow) ControlPlaneError :=
  collect (fun n => get_catalog n r)
    (search (Tables.c_description <$> catalogs r) (catalog_tags r) query).

(** *** Policy *)

Definition policy_get (r : Registry) : list (string * string) := btree_entries (policy r).

Definition policy_set (key value : string) (r : Registry) : Res unit :=
  (Ok tt, with_policy r (<[key := value]> (policy r))).
End ops.
End Ops.

(** ** A fresh registry: the schema of [MIGRATIONS] with its seeds *)

Definition sample_datasets : list (string * string) :=
  [("startrek", "Star Trek Season 1 scripts — CSV, ~2 KB");
   ("holdings", "Example stock holdings — CSV, ~300 B");
   ("tpch", "TPC-H scale 0.01 — 8 tables, Parquet, a few MB");
   ("taxi", "NYC yellow-taxi, Apr 2019 — Parquet, ~127 MB (large)")].

Definition sample_tables : list (string * string * string) :=
  [("startrek", "startrek", "https://blobs.duckdb.org/data/Star_Trek-Season_1.csv");
   ("holdings", "holdings", "https://duckdb.org/data/holdings.csv");
   ("tpch", "lineitem", "https://shell.duckdb.org/data/tpch/0_01/parquet/lineitem.parquet");
   ("tpch", "orders", "https://shell.duckdb.org/data/tpch/0_01/parquet/orders.parquet");
   ("tpch", "customer", "https://shell.duckdb.org/data/tpch/0_01/parquet/customer.parquet");
   ("tpch", "part", "https://shell.duckdb.org/data/tpch/0_01/parquet/part.parquet");
   ("tpch", "supplier", "https://shell.duckdb.org/data/tpch/0_01/parquet/supplier.parquet");
   ("tpch", "partsupp", "https://shell.duckdb.org/data/tpch/0_01/parquet/partsupp.parquet");
   ("tpch", "nation", "https://shell.duckdb.org/data/tpch/0_01/parquet/nation.parquet");
   ("tpch", "region", "https://shell.duckdb.org/data/tpch/0_01/parquet/region.parquet");
   ("taxi", "taxi", "https://blobs.duckdb.org/data/taxi_2019_04.parquet")].

Definition sample_tags : list (string * string) :=
  [("startrek", "sample"); ("holdings", "sample"); ("tpch", "sample"); ("tpch", "tpch");
   ("taxi", "sample")].

Definition open_fresh (now : Z) : Registry :=
  {| nodes := ∅; ponds := [];
     datasets := list_to_map (map (fun nd =>
       (nd.1, {| Tables.d_description := nd.2; Tables.d_created_by := "latiq";
                 Tables.d_created_at := now |})) sample_datasets);
     dataset_tables := list_to_map (map (fun t => (t.1, (t.2, "auto"))) sample_tables);
     dataset_tags := list_to_set sample_tags;
     catalogs := ∅; catalog_tags := ∅;
     policy := list_to_map [("default_pond_lifetime_seconds", "3600");
                            ("query_timeout_seconds", "30")];
     latiq_nodes_reaped_total := 0; latiq_pond_allocations_total := 0 |}.
