(* ===== verification/RegistryInv.v ===== *)
(** * What the registry's operations preserve

    The registry as a transition system: one step is one whole method, as the
    connection's lock makes it.  The invariant [wf] says what the schema's keys,
    the validation of [create_pond] and the two transactional adds together
    guarantee of every reachable registry. *)
From S2P Require Import Prelude Errors Extensions Policy Registry.
#[local] Open Scope rust_scope.

(** ** Steps *)

Section steps.
Context `{Sql}.

Inductive step : Registry -> Registry -> Prop :=
| step_register now id mcp internal cap r :
    step r (Ops.register_node now id mcp internal cap r).2
| step_heartbeat now id n r : step r (Ops.heartbeat now id n r).2
| step_reap now ttl r : step r (Ops.reap_stale_nodes now ttl r).2
| step_create now seed uuid name owner pj tier exts desc lin r :
    PondName.legal uuid ->
    step r (Ops.create_pond now seed uuid name owner pj tier exts desc lin r).2
| step_set_tier ref tier r : step r (Ops.set_pond_tier ref tier r).2
| step_forget ref r : step r (Ops.forget_pond ref r).2
| step_drop ref r : step r (Ops.drop_pond ref r).2
| step_add_dataset now d r : step r (Ops.add_dataset now d r).2
| step_remove_dataset n r : step r (Ops.remove_dataset n r).2
| step_add_catalog now ca r : step r (Ops.add_catalog now ca r).2
| step_remove_catalog n r : step r (Ops.remove_catalog n r).2
| step_policy_set k v r : step r (Ops.policy_set k v r).2.

Definition reachable (r : Registry) : Prop := exists now, rtc step (open_fresh now) r.

(** ** The invariant *)

(** Ponds: two keys, a legal name, a registered owner, a canonical tier. *)
Definition pond_ok (ns : gmap string Tables.Node) (p : Tables.Pond) : Prop :=
  PondName.legal (Tables.name p) /\
  is_Some (ns !! Tables.node_id p) /\
  (exists t, Tables.tier p = Some (Tier.as_str t)).

Record ponds_wf (ns : gmap string Tables.Node) (ps : list Tables.Pond) : Prop := {
  wf_ids : NoDup (map Tables.pond_id ps);
  wf_names : NoDup (map Tables.name ps);
  wf_ponds : Forall (pond_ok ns) ps;
}.

Definition nodes_wf (ns : gmap string Tables.Node) : Prop :=
  forall id n, ns !! id = Some n -> Tables.state n = "active" \/ Tables.state n = "down".

(** Datasets: bare names, at least one table each, no orphaned table or tag. *)
Record datasets_wf (ds : gmap string Tables.Dataset)
    (tbs : gmap (string * string) (string * string)) (tgs : gset (string * string)) : Prop := {
  wf_ds_ident : forall n, is_Some (ds !! n) -> Ops.is_ident n = true;
  wf_ds_table : forall n, is_Some (ds !! n) <-> exists t, is_Some (tbs !! (n, t));
  wf_ds_tags : forall n t, (n, t) ∈ tgs -> is_Some (ds !! n);
}.

Record catalogs_wf (cs : gmap string Tables.Catalog) (tgs : gset (string * string)) : Prop := {
  wf_cs_ident : forall n, is_Some (cs !! n) -> Ops.is_ident n = true;
  wf_cs_params : forall n c, cs !! n = Some c ->
    is_Some (params_from_json (Tables.params_json c));
  wf_cs_tags : forall n t, (n, t) ∈ tgs -> is_Some (cs !! n);
}.

Record wf (r : Registry) : Prop := {
  wf_nodes : nodes_wf (nodes r);
  wf_ponds_ : ponds_wf (nodes r) (ponds r);
  wf_datasets : datasets_wf (datasets r) (dataset_tables r) (dataset_tags r);
  wf_catalogs : catalogs_wf (catalogs r) (catalog_tags r);
}.

(** ** Ponds *)

Lemma pond_ok_mono ns ns' p :
  (forall id, is_Some (ns !! id) -> is_Some (ns' !! id)) -> pond_ok ns p -> pond_ok ns' p.
Proof. unfold pond_ok. naive_solver. Qed.

Lemma ponds_wf_mono ns ns' ps :
  (forall id, is_Some (ns !! id) -> is_Some (ns' !! id)) -> ponds_wf ns ps -> ponds_wf ns' ps.
Proof.
  intros Hm [? ? Hp]. split; [done..|]. eapply Forall_impl; [exact Hp|].
  intros p. by apply pond_ok_mono.
Qed.

Lemma NoDup_map_filter {A B} (f : A -> B) (p : A -> bool) l :
  NoDup (map f l) -> NoDup (map f (List.filter p l)).
Proof.
  induction l as [|x l IH]; simpl; [done|]. intros [Hx Hl]%NoDup_cons.
  destruct (p x); simpl; [|by apply IH]. apply NoDup_cons. split; [|by apply IH].
  rewrite list_elem_of_In, in_map_iff. intros (y & Hy & [Hin _]%filter_In).
  apply Hx. rewrite list_elem_of_In, in_map_iff. eauto.
Qed.

Lemma ponds_wf_filter ns p ps : ponds_wf ns ps -> ponds_wf ns (List.filter p ps).
Proof.
  intros [? ? Hok]. split; [by apply NoDup_map_filter..|].
  rewrite Forall_forall in Hok |- *. intros x Hx. apply Hok.
  apply list_elem_of_In in Hx as [Hx _]%filter_In. by apply list_elem_of_In.
Qed.

Lemma ponds_wf_snoc ns ps p :
  ponds_wf ns ps -> pond_ok ns p ->
  Tables.pond_id p ∉ map Tables.pond_id ps -> Tables.name p ∉ map Tables.name ps ->
  ponds_wf ns (ps ++ [p]).
Proof.
  intros [Hi Hn Hok] Hp Hid Hname. split; rewrite ?map_app; simpl.
  1,2: apply NoDup_app; split; [done|]; split; [|apply NoDup_singleton];
    intros x Hx ->%list_elem_of_singleton; done.
  apply Forall_app. by split; [|apply Forall_singleton].
Qed.

Lemma ponds_wf_map ns (f : Tables.Pond -> Tables.Pond) ps :
  (forall p, Tables.pond_id (f p) = Tables.pond_id p /\ Tables.name (f p) = Tables.name p) ->
  (forall p, pond_ok ns p -> pond_ok ns (f p)) ->
  ponds_wf ns ps -> ponds_wf ns (map f ps).
Proof.
  intros Hf Hok [Hi Hn Hp]. split.
  - by rewrite map_map, (map_ext _ Tables.pond_id) by apply Hf.
  - by rewrite map_map, (map_ext _ Tables.name) by apply Hf.
  - apply Forall_map. eapply Forall_impl; [exact Hp|apply Hok].
Qed.

Lemma existsb_key_false {A} (f : A -> string) x l :
  existsb (fun y => String.eqb (f y) x) l = false <-> x ∉ map f l.
Proof.
  rewrite <- not_true_iff_false, existsb_exists, list_elem_of_In, in_map_iff.
  setoid_rewrite String.eqb_eq. naive_solver.
Qed.

Lemma existsb_or {A} (f g : A -> bool) l :
  existsb (fun x => f x || g x) l = existsb f l || existsb g l.
Proof. induction l as [|x l IH]; simpl; [done|]. rewrite IH. by destruct (f x), (g x), (existsb f l). Qed.

Lemma elem_of_active_nodes r id :
  id ∈ Ops.active_nodes r <->
  exists n, nodes r !! id = Some n /\ Tables.state n = "active".
Proof.
  unfold Ops.active_nodes. rewrite list_elem_of_In, in_map_iff.
  setoid_rewrite filter_In. split.
  - intros ([k n] & <- & Hin%list_elem_of_In & Hs%String.eqb_eq). exists n.
    by apply elem_of_btree_entries in Hin.
  - intros (n & Hn & Hs). exists (id, n). rewrite <- list_elem_of_In, elem_of_btree_entries.
    simpl. by rewrite Hs.
Qed.

Lemma matches_ref_iff ref p :
  Ops.matches_ref ref p = true <-> Tables.pond_id p = ref \/ Tables.name p = ref.
Proof. unfold Ops.matches_ref. by rewrite orb_true_iff, !String.eqb_eq. Qed.

Lemma find_pond_Ok ref r p :
  Ops.find_pond ref r = Ok p -> p ∈ ponds r /\ (Tables.pond_id p = ref \/ Tables.name p = ref).
Proof.
  unfold Ops.find_pond. destruct (limit1 _) as [q|] eqn:E; simpl; [|done]. intros [= ->].
  apply limit1_elem, list_elem_of_In, filter_In in E as [Hin Hm].
  by rewrite list_elem_of_In, <- matches_ref_iff.
Qed.

Lemma find_pond_Err ref r e :
  Ops.find_pond ref r = Err e ->
  e = ControlPlaneError.PondNotFound ref /\
  forall p, p ∈ ponds r -> Tables.pond_id p <> ref /\ Tables.name p <> ref.
Proof.
  unfold Ops.find_pond. destruct (limit1 _) as [q|] eqn:E; simpl; [done|]. intros [= <-].
  split; [done|]. apply limit1_None in E. intros p Hp.
  assert (Hnm : Ops.matches_ref ref p <> true).
  { intros Hm. apply list_elem_of_In in Hp.
    assert (Hin : In p (List.filter (Ops.matches_ref ref) (ponds r))) by (by apply filter_In).
    by rewrite E in Hin. }
  rewrite matches_ref_iff in Hnm. naive_solver.
Qed.


(** The whole of [create_pond] that succeeds, inverted. *)
Record created (now : Z) (uuid : string) (name : option string) (owner pj : string)
    (t : Tier.PondTier) (exts : list string) (desc : string) (lin : bool)
    (r : Registry) (row : Rows.PondRow) (r' : Registry) (p : Tables.Pond) : Prop := {
  cr_not_none : t <> Tier.None_;
  cr_name_ok : match name with Some n => PondName.validate n = Ok tt | None => True end;
  cr_active : exists n, nodes r !! Tables.node_id p = Some n /\ Tables.state n = "active";
  cr_id_free : uuid ∉ map Tables.pond_id (ponds r);
  cr_name_free : default uuid name ∉ map Tables.name (ponds r);
  cr_pond : p = {| Tables.pond_id := uuid; Tables.name := default uuid name;
                   Tables.owner_identity := owner; Tables.node_id := Tables.node_id p;
                   Tables.policy_json := pj; Tables.created_at := now;
                   Tables.tier := Some (Tier.as_str t);
                   Tables.extensions := Some (join "," exts);
                   Tables.description := Some desc; Tables.lineage := Some lin |};
  cr_row : row = {| Rows.p_pond_id := uuid; Rows.p_name := default uuid name;
                    Rows.p_owner_identity := owner; Rows.p_node_id := Tables.node_id p;
                    Rows.p_tier := Tier.as_str t; Rows.p_extensions := exts;
                    Rows.p_description := desc; Rows.p_lineage := lin |};
  cr_state : r' = count_metrics (with_ponds r (ponds r ++ [p])) 0 1;
}.

Lemma create_pond_Ok now seed uuid name owner pj tier exts desc lin r row r' :
  Ops.create_pond now seed uuid name owner pj tier exts desc lin r = (Ok row, r') ->
  exists t p, Tier.parse_for_create tier = Ok t /\
    created now uuid name owner pj t exts desc lin r row r' p.
Proof.
  unfold Ops.create_pond, Ops.insert_pond.
  destruct (Tier.parse_for_create tier) as [t|] eqn:Ht; [|done].
  case_bool_decide as Hnone; [done|].
  destruct (match name with Some n => PondName.validate n | None => Ok tt end)
    as [[]|] eqn:Hname; [|done].
  destruct (random1 seed _) as [nid|] eqn:Hnode; [|done].
  destruct (existsb _ (ponds r)) eqn:Hfree; [done|]. cbn [Tables.pond_id Tables.name].
  rewrite existsb_or, Hfree, orb_false_r.
  destruct (existsb (fun x => String.eqb (Tables.pond_id x) uuid) (ponds r)) eqn:Hid; [done|].
  intros [= <- <-].
  apply random1_elem, elem_of_active_nodes in Hnode.
  apply existsb_key_false in Hfree, Hid.
  exists t, {| Tables.pond_id := uuid; Tables.name := default uuid name;
          Tables.owner_identity := owner; Tables.node_id := nid;
          Tables.policy_json := pj; Tables.created_at := now;
          Tables.tier := Some (Tier.as_str t); Tables.extensions := Some (join "," exts);
          Tables.description := Some desc; Tables.lineage := Some lin |}.
  split; [done|]. split; try done. by destruct name.
Qed.

Lemma create_pond_Err now seed uuid name owner pj tier exts desc lin r e r' :
  Ops.create_pond now seed uuid name owner pj tier exts desc lin r = (Err e, r') -> r' = r.
Proof. unfold Ops.create_pond, Ops.insert_pond. intros H1. repeat case_match; by simplify_eq. Qed.

(** ** Preservation, component by component *)

Lemma legal_default uuid name :
  PondName.legal uuid ->
  match name with Some n => PondName.validate n = Ok tt | None => True end ->
  PondName.legal (default uuid name).
Proof. destruct name; simpl; [by intros _ ?%PondName.validate_Ok|done]. Qed.

Lemma nodes_wf_insert ns id n :
  nodes_wf ns -> Tables.state n = "active" \/ Tables.state n = "down" ->
  nodes_wf (<[id := n]> ns).
Proof.
  intros Hns Hn id' n' [[-> ->]|[_ ?]]%lookup_insert_Some; [done|by eapply Hns].
Qed.

Lemma nodes_wf_reap ns now ttl :
  nodes_wf ns ->
  nodes_wf ((fun nd => if Ops.stale now ttl nd then Ops.down nd else nd) <$> ns).
Proof.
  intros Hns id n (nd & Hn & Hid)%lookup_fmap_Some. apply Hns in Hid.
  subst n. destruct (Ops.stale now ttl nd); [by right|done].
Qed.

Lemma is_Some_insert_ne {A} (m : gmap string A) k x id :
  is_Some (m !! id) -> is_Some (<[k := x]> m !! id).
Proof. intros Hm. destruct (decide (k = id)) as [->|]; simplify_map_eq; eauto. Qed.

Lemma is_Some_fmap {A} (f : A -> A) (m : gmap string A) id :
  is_Some (m !! id) -> is_Some ((f <$> m) !! id).
Proof. intros [x Hx]. rewrite lookup_fmap, Hx. by eexists. Qed.

Lemma elem_of_delete_tags o s n t :
  (n, t) ∈ Ops.delete_tags o s <-> (n, t) ∈ s /\ n <> o.
Proof. unfold Ops.delete_tags. rewrite elem_of_filter. simpl. naive_solver. Qed.

Lemma elem_of_insert_tags o tags s n t :
  (n, t) ∈ Ops.insert_tags o tags s <-> (n, t) ∈ s \/ (n = o /\ t ∈ tags).
Proof.
  unfold Ops.insert_tags. revert s. induction tags as [|tag tags IH]; intros s; simpl.
  { rewrite elem_of_nil. naive_solver. }
  rewrite IH, elem_of_union, elem_of_singleton, elem_of_cons. naive_solver.
Qed.

Lemma lookup_delete_tables d m n t :
  Ops.delete_tables d m !! (n, t) = if decide (n = d) then None else m !! (n, t).
Proof.
  unfold Ops.delete_tables. case_decide as Hd.
  - apply map_lookup_filter_None. right. intros x _. simpl. naive_solver.
  - destruct (m !! (n, t)) as [x|] eqn:E.
    + by apply map_lookup_filter_Some.
    + apply map_lookup_filter_None. by left.
Qed.

(** The tables of a successful add: the others untouched, the given ones once. *)
Lemma insert_tables_Ok d ts m m' :
  Ops.insert_tables d ts m = Ok m' ->
  NoDup (map Rows.table_name ts) /\
  (forall n t, m' !! (n, t) = m !! (n, t) \/ (n = d /\ t ∈ map Rows.table_name ts)) /\
  (forall t, t ∈ ts ->
     m' !! (d, Rows.table_name t) = Some (Rows.source_uri t, Rows.format t) /\
  m !! (d, Rows.table_name t) = None) /\
  (forall n t, is_Some (m !! (n, t)) -> m' !! (n, t) = m !! (n, t)).
Proof.
  revert m. induction ts as [|t ts IH]; intros m; simpl.
  { intros [= ->]. split_and!; [apply NoDup_nil_2|by left|by intros ? ?%elem_of_nil|done]. }
  destruct (m !! (d, Rows.table_name t)) eqn:E; [done|].
  intros (Hnd & Hfr & Hin & Hkeep)%IH. split_and!.
  - apply NoDup_cons. split; [|done]. intros (t' & Ht' & Hin')%list_elem_of_fmap.
    apply Hin in Hin' as [_ Hn]. rewrite <- Ht' in Hn. by simplify_map_eq.
  - intros n t'. destruct (Hfr n t') as [Heq|[-> ?]].
    + destruct (decide ((d, Rows.table_name t) = (n, t'))) as [[= -> ->]|Hne].
      * right. split; [done|]. by left.
      * left. by rewrite Heq, lookup_insert_ne.
    + right. split; [done|]. by right.
  - intros t' [->|Ht']%elem_of_cons.
    + split; [|done]. rewrite Hkeep; by simplify_map_eq.
    + destruct (Hin _ Ht') as [? Hn]. split; [done|].
      by apply lookup_insert_None in Hn as [? _].
  - intros n t' Ht'. rewrite Hkeep.
    + rewrite lookup_insert_ne; [done|]. intros [= -> Hn]. rewrite <- Hn, E in Ht'. by destruct Ht'.
    + destruct (decide ((d, Rows.table_name t) = (n, t'))) as [<-|]; by simplify_map_eq.
Qed.

Lemma insert_tables_succeeds d ts m :
  NoDup (map Rows.table_name ts) ->
  (forall t, t ∈ map Rows.table_name ts -> m !! (d, t) = None) ->
  is_ok (Ops.insert_tables d ts m) = true.
Proof.
  revert m. induction ts as [|t ts IH]; intros m; simpl; [done|].
  intros [Ht Hnd]%NoDup_cons Hm. rewrite (Hm (Rows.table_name t)) by left.
  apply IH; [done|]. intros t' Ht'. rewrite lookup_insert_ne; [apply Hm; by right|].
  congruence.
Qed.

Lemma insert_tables_Err d ts m e :
  Ops.insert_tables d ts m = Err e ->
  e = ControlPlaneError.Storage (constraint_violation "dataset_tables").
Proof.
  revert m. induction ts as [|t ts IH]; intros m; simpl; [done|].
  destruct (m !! _); [by intros [= <-]|apply IH].
Qed.

(** A successful [add_dataset], inverted. *)
Lemma add_dataset_Ok now d r n r' :
  Ops.add_dataset now d r = (Ok n, r') ->
  exists tbs,
    n = Rows.ds_name d /\ Ops.is_ident n = true /\ Rows.ds_tables d <> [] /\
    Ops.insert_tables n (Rows.ds_tables d) (Ops.delete_tables n (dataset_tables r)) = Ok tbs /\
    r' = with_datasets r
      (<[n := {| Tables.d_description := Rows.ds_description d;
                 Tables.d_created_by := Rows.ds_created_by d;
                 Tables.d_created_at := now |}]> (datasets r))
      tbs (Ops.insert_tags n (Rows.ds_tags d) (Ops.delete_tags n (dataset_tags r))).
Proof.
  unfold Ops.add_dataset, Ops.in_txn.
  destruct (String.eqb _ _); [done|]. destruct (Ops.is_ident _) eqn:Hi; [|done]. simpl.
  case_bool_decide as Ht; [done|].
  destruct (Ops.insert_tables _ _ _) as [tbs|] eqn:Et; [|done]. intros [= <- <-].
  exists tbs. split_and!; try done. by rewrite insert_delete_eq.
Qed.

Lemma add_dataset_Err now d r e r' : Ops.add_dataset now d r = (Err e, r') -> r' = r.
Proof. unfold Ops.add_dataset, Ops.in_txn. intros Hadd. repeat case_match; by simplify_eq. Qed.

Lemma datasets_wf_add now d r n r' :
  datasets_wf (datasets r) (dataset_tables r) (dataset_tags r) ->
  Ops.add_dataset now d r = (Ok n, r') ->
  datasets_wf (datasets r') (dataset_tables r') (dataset_tags r').
Proof.
  intros [Hi Ht Hg] (tbs & -> & Hid & Hne & Htb & ->)%add_dataset_Ok. cbn [datasets
    dataset_tables dataset_tags with_datasets].
  destruct (insert_tables_Ok _ _ _ _ Htb) as (_ & Hfr & Hin & Hkeep).
  assert (Hother : forall n t, n <> Rows.ds_name d -> tbs !! (n, t) = dataset_tables r !! (n, t)).
  { intros n t Hn. destruct (Hfr n t) as [->|[]]; [|done].
    by rewrite lookup_delete_tables, decide_False. }
  split; intros n; destruct (decide (n = Rows.ds_name d)) as [->|Hn].
  - done.
  - rewrite lookup_insert_ne by done. apply Hi.
  - rewrite lookup_insert_eq. split; [intros _|by eexists].
    destruct (Rows.ds_tables d) as [|t ts]; [done|]. exists (Rows.table_name t).
    rewrite (proj1 (Hin t ltac:(by left))). by eexists.
  - rewrite lookup_insert_ne, Ht by done. by setoid_rewrite Hother.
  - intros t _. rewrite lookup_insert_eq. by eexists.
  - intros t. rewrite elem_of_insert_tags, elem_of_delete_tags, lookup_insert_ne by done.
    intros [[? _]|[? _]]; [by eapply Hg|done].
Qed.

Lemma datasets_wf_remove n ds tbs tgs :
  datasets_wf ds tbs tgs ->
  datasets_wf (delete n ds) (Ops.delete_tables n tbs) (Ops.delete_tags n tgs).
Proof.
  intros [Hi Ht Hg]. split; intros n'.
  - intros [? [_ ?]%lookup_delete_Some]. by eapply Hi.
  - destruct (decide (n' = n)) as [->|Hn].
    + rewrite lookup_delete_eq. split; [by intros []|intros [t [? Hx]]].
      by rewrite lookup_delete_tables, decide_True in Hx.
    + rewrite lookup_delete_ne, Ht by done.
      by setoid_rewrite lookup_delete_tables; setoid_rewrite decide_False.
  - intros t [Hin Hn]%elem_of_delete_tags. rewrite lookup_delete_ne by done. by eapply Hg.
Qed.

Lemma catalogs_wf_add now ca r n r' :
  catalogs_wf (catalogs r) (catalog_tags r) ->
  Ops.add_catalog now ca r = (Ok n, r') ->
  catalogs_wf (catalogs r') (catalog_tags r').
Proof.
  intros [Hi Hp Hg]. unfold Ops.add_catalog, Ops.in_txn.
  destruct (_ || _); [done|]. destruct (Ops.is_ident _) eqn:Hid; [|done]. simpl.
  intros [= <- <-]. cbn [catalogs catalog_tags with_catalogs]. rewrite insert_delete_eq.
  split; intros n; destruct (decide (n = Rows.ca_name ca)) as [->|Hn];
    rewrite ?lookup_insert_eq, ?lookup_insert_ne by done.
  - done.
  - apply Hi.
  - intros c [= <-]. simpl. rewrite params_json_roundtrip. by eexists.
  - apply Hp.
  - by eexists.
  - intros t. rewrite elem_of_insert_tags, elem_of_delete_tags.
    intros [[? _]|[? _]]; [by eapply Hg|done].
Qed.

Lemma catalogs_wf_remove n cs tgs :
  catalogs_wf cs tgs -> catalogs_wf (delete n cs) (Ops.delete_tags n tgs).
Proof.
  intros [Hi Hp Hg]. split; intros n'.
  - intros [? [_ ?]%lookup_delete_Some]. by eapply Hi.
  - intros c [_ ?]%lookup_delete_Some. by eapply Hp.
  - intros t [Hin Hn]%elem_of_delete_tags. rewrite lookup_delete_ne by done. by eapply Hg.
Qed.

(** ** Every step preserves the invariant *)

Lemma step_wf r r' : step r r' -> wf r -> wf r'.
Proof.
  intros Hstep [Hn Hp Hd Hc]. destruct Hstep.
  - split; simpl; try done; [by apply nodes_wf_insert; [|left]|].
    eapply ponds_wf_mono; [|done]. intros. by apply is_Some_insert_ne.
  - unfold Ops.heartbeat. destruct (nodes r !! id); [|done].
    split; simpl; try done; [by apply nodes_wf_insert; [|left]|].
    eapply ponds_wf_mono; [|done]. intros. by apply is_Some_insert_ne.
  - unfold Ops.reap_stale_nodes. split; simpl; try (by case_match).
    + case_match; simpl; by apply nodes_wf_reap.
    + eapply (ponds_wf_mono (nodes r)); [|by case_match].
      intros. case_match; simpl; by apply is_Some_fmap.
  - destruct (Ops.create_pond _ _ _ _ _ _ _ _ _ _ _) as [[row|e] r'] eqn:E; simpl.
    + apply create_pond_Ok in E as (t & p & Ht & [? ? (nd & ? & ?) ? ? Hpd ? ->]).
      split; simpl; try done. apply ponds_wf_snoc; [done| |by rewrite Hpd..].
      rewrite Hpd. split_and!; [by apply legal_default|by eexists|by eexists].
    + by apply create_pond_Err in E as ->.
  - unfold Ops.set_pond_tier. destruct (Tier.parse tier); [|done].
    destruct (existsb _ _); [|done]. split; simpl; try done.
    apply ponds_wf_map; [intros q; by case_match| |done].
    intros q (? & ? & ?). case_match; split_and!; try done. by eexists.
  - unfold Ops.forget_pond. destruct (Ops.find_pond ref r); [|done].
    case_match; [done|]. split; simpl; try done. by apply ponds_wf_filter.
  - unfold Ops.drop_pond. case_match; [|done]. split; simpl; try done.
    by apply ponds_wf_filter.
  - destruct (Ops.add_dataset now d r) as [[n|e] r'] eqn:E; simpl.
    + pose proof (datasets_wf_add _ _ _ _ _ Hd E).
      apply add_dataset_Ok in E as (? & _ & _ & _ & _ & ->). by split.
    + by apply add_dataset_Err in E as ->.
  - unfold Ops.remove_dataset. case_match; [|done]. split; simpl; try done.
    by apply datasets_wf_remove.
  - destruct (Ops.add_catalog now ca r) as [[n|e] r'] eqn:E; simpl.
    + pose proof (catalogs_wf_add _ _ _ _ _ Hc E).
      unfold Ops.add_catalog, Ops.in_txn in E. repeat case_match; simplify_eq. by split.
    + unfold Ops.add_catalog, Ops.in_txn in E. repeat case_match; by simplify_eq.
  - unfold Ops.remove_catalog. case_match; [|done]. split; simpl; try done.
    by apply catalogs_wf_remove.
  - by split.
Qed.

Lemma list_to_map_In {K A} `{Countable K} (l : list (K * A)) k :
  is_Some ((list_to_map l : gmap K A) !! k) -> In k (map fst l).
Proof.
  intros [x Hx%elem_of_list_to_map_2%list_elem_of_In].
  apply in_map_iff. by exists (k, x).
Qed.

Lemma datasets_wf_seeds now :
  datasets_wf (datasets (open_fresh now)) (dataset_tables (open_fresh now))
    (dataset_tags (open_fresh now)).
Proof.
  split.
  - intros n Hn%list_to_map_In. simpl in Hn. by destruct_or! Hn; subst.
  - intros n. split.
    + intros Hn%list_to_map_In. simpl in Hn.
      destruct_or! Hn; subst; [exists "startrek"|exists "holdings"|exists "orders"|exists "taxi"];
        eexists; vm_compute; reflexivity.
    + intros [t Hn%list_to_map_In]. simpl in Hn.
      destruct_or! Hn; simplify_eq; try done; eexists; vm_compute; reflexivity.
  - intros n t Hn%elem_of_list_to_set%list_elem_of_In. simpl in Hn.
    destruct_or! Hn; simplify_eq; try done; eexists; vm_compute; reflexivity.
Qed.

Lemma wf_open_fresh now : wf (open_fresh now).
Proof.
  split; [by intros ? ?|by split; constructor|apply datasets_wf_seeds|].
  split; intros n; [by intros [? ?]|by intros ? ?|by intros ? ?].
Qed.

Lemma reachable_wf r : reachable r -> wf r.
Proof.
  intros (now & Hr). pose proof (wf_open_fresh now) as Hwf.
  induction Hr as [|r1 r2 r3 Hs _ IH]; [done|]. by apply IH, (step_wf _ _ Hs).
Qed.
End steps.
