(* ===== verification/RegistrySpec.v ===== *)
(** * What the registry promises its callers

    The functional behaviour of the methods of [Registry] on every branch:
    placement, resolution, liveness, the recovery path, the dataset catalog and
    its search.  [plain_sql] is one engine that meets the class [Sql]. *)
From S2P Require Import Prelude Errors Extensions Policy Registry RegistryInv.
#[local] Open Scope rust_scope.
#[local] Arguments String.append !_ _ / : simpl nomatch.

(** ** One engine: the first row, texts of our own *)

Fixpoint pos_to_string (p : positive) : string :=
  match p with
  | xH => EmptyString
  | xO p => String "0" (pos_to_string p)
  | xI p => String "1" (pos_to_string p)
  end.

Fixpoint pos_of_string (s : string) : positive :=
  match s with
  | EmptyString => xH
  | String a s => (if Ascii.eqb a "0" then xO else xI) (pos_of_string s)
  end.

Lemma pos_of_to_string p : pos_of_string (pos_to_string p) = p.
Proof. induction p; simpl; by f_equal. Qed.

#[export, refine] Instance plain_sql : Sql := {
  limit1 := @head;
  random1 A seed l := head (drop (N.to_nat seed mod length l) l);
  constraint_violation t := "duplicate key in " +:+ t;
  sql_lower := to_lowercase;
  timestamp_varchar := pretty;
  params_to_json m := pos_to_string (encode m);
  params_from_json s := decode (pos_of_string s);
}.
Proof.
  - intros A [|y l] x; simpl; [done|]. intros [= ->]. by left.
  - by intros A [|y l].
  - intros A seed l x. rewrite head_lookup, lookup_drop. apply list_elem_of_lookup_2.
  - intros A seed l. rewrite head_lookup, lookup_drop. intros Hge%lookup_ge_None.
    destruct l as [|y l]; [done|]. pose proof (Nat.mod_upper_bound (N.to_nat seed) (length (y :: l))).
    simpl length in *. lia.
  - intros m. by rewrite pos_of_to_string, decode_encode.
Defined.

Section spec.
Context `{Sql}.

(** ** Lemmas *)

Lemma limit1_singleton {A} (x : A) : limit1 [x] = Some x.
Proof.
  destruct (limit1 [x]) as [y|] eqn:E; [|by apply limit1_None in E].
  apply limit1_elem, list_elem_of_singleton in E. by subst.
Qed.

Lemma filter_unique {A} (f : A -> bool) l x r :
  (forall y, y ∈ l ++ r -> f y = false) -> f x = true -> List.filter f (l ++ x :: r) = [x].
Proof.
  intros Hf Hx. rewrite List.filter_app. simpl. rewrite Hx.
  assert (Hnil : forall l', (forall y, y ∈ l' -> f y = false) -> List.filter f l' = []).
  { induction l' as [|y l' IH]; intros Hl'; simpl; [done|].
    rewrite (Hl' y) by left. apply IH. intros z Hz. apply Hl'. by right. }
  rewrite !Hnil; [done| |]; intros y Hy; apply Hf, elem_of_app; auto.
Qed.

(** The new pond is the only answer to its own id and name, unless another
    pond is named after it. *)
Lemma matches_created now uuid name owner pj t exts desc lin r row r' p ref :
  created now uuid name owner pj t exts desc lin r row r' p ->
  uuid ∉ map Tables.name (ponds r) -> default uuid name ∉ map Tables.pond_id (ponds r) ->
  ref = uuid \/ ref = default uuid name ->
  List.filter (Ops.matches_ref ref) (ponds r') = [p].
Proof.
  intros [_ _ _ Hid Hname Hp _ ->] Hid' Hname' Href. simpl.
  apply (filter_unique _ _ p []).
  - intros q. rewrite app_nil_r. intros Hq. apply not_true_iff_false.
    rewrite matches_ref_iff.
    pose proof (list_elem_of_fmap_2 Tables.pond_id _ _ Hq).
    pose proof (list_elem_of_fmap_2 Tables.name _ _ Hq).
    intros Hm. destruct Href as [-> | ->], Hm as [Hm|Hm]; rewrite <- Hm in *; contradiction.
  - apply matches_ref_iff. rewrite Hp. simpl. naive_solver.
Qed.

Lemma pond_row_created now uuid name owner pj t exts desc lin r row r' p :
  created now uuid name owner pj t exts desc lin r row r' p ->
  Extensions.parse_csv (join "," exts) = exts -> Ops.pond_row p = row.
Proof. intros [_ _ _ _ _ -> -> _] Hcsv. unfold Ops.pond_row. simpl. by rewrite Hcsv. Qed.

(** What makes a request for a pond acceptable. *)
Record creatable (uuid : string) (name : option string) (tier : string) (r : Registry) : Prop := {
  ct_tier : exists t, Tier.parse_for_create tier = Ok t /\ t <> Tier.None_;
  ct_name : forall n, name = Some n -> PondName.legal n;
  ct_node : exists id n, nodes r !! id = Some n /\ Tables.state n = "active";
  ct_free : default uuid name ∉ map Tables.name (ponds r);
  ct_uuid : uuid ∉ map Tables.pond_id (ponds r);
}.

Lemma create_pond_succeeds now seed uuid name owner pj tier exts desc lin r :
  creatable uuid name tier r ->
  is_ok (Ops.create_pond now seed uuid name owner pj tier exts desc lin r).1 = true.
Proof.
  intros [(t & Ht & Hnone) Hname (id & n & Hn & Hs) Hfree Hid].
  unfold Ops.create_pond, Ops.insert_pond. rewrite Ht, bool_decide_false by done.
  assert (Hv : match name with Some n => PondName.validate n | None => Ok tt end = Ok tt).
  { destruct name as [nm|]; [|done]. by apply PondName.validate_Ok, Hname. }
  rewrite Hv. destruct (random1 seed _) as [nid|] eqn:Hr.
  - rewrite (proj2 (existsb_key_false _ _ _) Hfree). cbn [Tables.pond_id Tables.name].
    rewrite existsb_or, (proj2 (existsb_key_false _ _ _) Hfree),
      (proj2 (existsb_key_false _ _ _) Hid). done.
  - apply random1_None in Hr. assert (Ha : id ∈ Ops.active_nodes r).
    { apply elem_of_active_nodes. eauto. }
    rewrite Hr in Ha. by apply elem_of_nil in Ha.
Qed.

Lemma created_creatable now uuid name owner pj tier t exts desc lin r row r' p :
  Tier.parse_for_create tier = Ok t ->
  created now uuid name owner pj t exts desc lin r row r' p -> creatable uuid name tier r.
Proof.
  intros Ht [Hnone Hname (n & Hn & Hs) Hid Hfree _ _ _]. split; eauto.
  intros nm ->. by apply PondName.validate_Ok.
Qed.

(** Deleting by key removes the one row that has it. *)
Lemma elem_of_filter_key {A} (f : A -> string) l x y :
  NoDup (map f l) -> x ∈ l ->
  y ∈ List.filter (fun z => negb (String.eqb (f z) (f x))) l <-> y ∈ l /\ y <> x.
Proof.
  intros Hnd Hx. rewrite list_elem_of_In, filter_In, <- list_elem_of_In, negb_true_iff,
    String.eqb_neq. split; [intros [? Hf]; split; [done|by intros ->]|].
  intros [Hy Hne]. split; [done|]. intros Heq. apply Hne.
  apply list_elem_of_lookup_1 in Hx as [i Hi], Hy as [j Hj].
  assert (i = j) as ->; [|by simplify_eq].
  eapply NoDup_lookup; [exact Hnd|by rewrite list_lookup_fmap, Hi|].
  by rewrite list_lookup_fmap, Hj, <- Heq.
Qed.

(** The outcome of the reaper on one node. *)
Lemma lookup_reaped now ttl r id :
  nodes (Ops.reap_stale_nodes now ttl r).2 !! id =
    (fun nd => if Ops.stale now ttl nd then Ops.down nd else nd) <$> nodes r !! id.
Proof.
  unfold Ops.reap_stale_nodes. cbn [fst snd].
  case_match; cbn [nodes count_metrics with_nodes]; by rewrite lookup_fmap.
Qed.

(** *** [LIKE] against its meaning *)

Inductive Like : list string -> list string -> Prop :=
| Like_nil : Like [] []
| Like_any s p t : Like p t -> Like ("%" :: p) (s ++ t)
| Like_one c p t : Like p t -> Like ("_" :: p) (c :: t)
| Like_char c p t : c <> "%" -> Like p t -> Like (c :: p) (c :: t).

Lemma Like_any_inv p t :
  Like ("%" :: p) t -> Like p t \/ exists c t', t = c :: t' /\ Like ("%" :: p) t'.
Proof.
  inversion 1 as [|[|c s] p' t' Hp| |]; subst; [by left| |done].
  right. exists c, (s ++ t'). split; [done|]. by constructor.
Qed.

Lemma like_chars_spec fuel p t :
  length p + length t < fuel -> like_chars fuel p t = true <-> Like p t.
Proof.
  revert p t. induction fuel as [|fuel IH]; intros p t Hf; [lia|]. simpl.
  destruct p as [|c p].
  { destruct t; [by split; [constructor|]|]. split; [done|inversion 1]. }
  simpl in Hf. destruct (String.eqb_spec c "%") as [->|Hc].
  - rewrite orb_true_iff, IH by lia. split.
    + intros [Hp|Hp]; [by apply (Like_any [])|]. destruct t as [|d t]; [done|].
      rewrite IH in Hp by (simpl in *; lia). inversion Hp; subst; [|done].
      by apply (Like_any (d :: s)).
    + intros [?|(d & t' & -> & ?)]%Like_any_inv; [by left|right].
      rewrite IH by (simpl in *; lia). done.
  - destruct t as [|d t]; [split; [done|inversion 1; congruence]|].
    rewrite andb_true_iff, orb_true_iff, !String.eqb_eq, IH by (simpl in *; lia). split.
    + intros [[-> | <-] Hp]; by constructor.
    + inversion 1; subst; try congruence; auto.
Qed.

Lemma like_spec p t : like p t = true <-> Like (chars p) (chars t).
Proof. unfold like. rewrite like_chars_spec; [done|lia]. Qed.

(** *** Collecting and searching *)

Lemma collect_Ok {A B E} (f : A -> result B E) l :
  (forall x, x ∈ l -> exists y, f x = Ok y) ->
  exists ys, Ops.collect f l = Ok ys /\ Forall2 (fun x y => f x = Ok y) l ys.
Proof.
  induction l as [|x l IH]; intros Hl; simpl; [by exists []|].
  destruct (Hl x ltac:(by left)) as [y Hy].
  destruct IH as (ys & Hys & HF); [intros z Hz; apply Hl; by right|].
  exists (y :: ys). rewrite Hy. simpl. rewrite Hys. by repeat constructor.
Qed.

(** When a name answers a query. *)
Definition answers (table : gmap string string) (tags : gset (string * string))
    (query n : string) : Prop :=
  let q := trim query in
  if String.eqb q EmptyString then is_Some (table !! n)
  else
    match strip_prefix "#" q with
    | Some tag => (n, tag) ∈ tags
    | None =>
        if str_contains "*" q then
          is_Some (table !! n) /\ Like (chars (replace_ascii "*" "%" q)) (chars n)
        else
          exists d, table !! n = Some d /\
            (ilike ("%" +:+ q +:+ "%") n = true \/ ilike ("%" +:+ q +:+ "%") d = true \/
             exists t, (n, t) ∈ tags /\ ilike ("%" +:+ q +:+ "%") t = true)
    end.

Lemma elem_of_search table tags query n :
  n ∈ Ops.search table tags query <-> answers table tags query n.
Proof.
  unfold Ops.search, answers. destruct (String.eqb _ EmptyString).
  { apply elem_of_btree_keys. }
  destruct (strip_prefix "#" _) as [tag|].
  { rewrite sort_strings_Permutation, list_elem_of_In, in_map_iff. setoid_rewrite filter_In.
    setoid_rewrite <- list_elem_of_In. setoid_rewrite elem_of_elements.
    setoid_rewrite String.eqb_eq. split.
    - intros ([n' t] & <- & Hin & <-). done.
    - intros Hin. by exists (n, tag). }
  destruct (str_contains "*" _).
  { rewrite list_elem_of_In, filter_In, <- list_elem_of_In, elem_of_btree_keys, like_spec. done. }
  set (pat := "%" +:+ _). rewrite list_elem_of_In, in_map_iff. setoid_rewrite filter_In.
  setoid_rewrite <- list_elem_of_In. setoid_rewrite orb_true_iff.
  setoid_rewrite existsb_exists. setoid_rewrite <- list_elem_of_In. split.
  - intros ([n' d] & <- & Hin%elem_of_btree_entries & Hm). exists d. split; [done|].
    simpl in *. destruct Hm as [[?|?]%orb_true_iff|([o t] & Ht & [Ho ?]%andb_true_iff)]; auto.
    right. right. exists t. apply String.eqb_eq in Ho. simpl in Ho. subst.
    by apply elem_of_elements in Ht.
  - intros (d & Hd & Hm). exists (n, d). simpl. rewrite elem_of_btree_entries, orb_true_iff.
    split; [done|]. split; [done|]. destruct Hm as [?|[?|(t & Ht & ?)]]; auto.
    right. exists (n, t). simpl. by rewrite elem_of_elements, String.eqb_refl.
Qed.

Lemma elem_of_snd_of (o x : string) (l : list (string * string)) :
  x ∈ map snd (List.filter (fun k => String.eqb k.1 o) l) <-> (o, x) ∈ l.
Proof.
  rewrite !list_elem_of_In, in_map_iff. setoid_rewrite filter_In.
  setoid_rewrite String.eqb_eq. split.
  - by intros ([? ?] & <- & ? & <-).
  - intros Hin. by exists (o, x).
Qed.

Lemma elem_of_tags_for tags o t : t ∈ Ops.tags_for tags o <-> (o, t) ∈ tags.
Proof.
  unfold Ops.tags_for. by rewrite sort_strings_Permutation, elem_of_snd_of, elem_of_elements.
Qed.

Lemma elem_of_tables_of m d t :
  t ∈ Ops.tables_of m d <->
  m !! (d, Rows.table_name t) = Some (Rows.source_uri t, Rows.format t).
Proof.
  unfold Ops.tables_of. rewrite list_elem_of_omap.
  setoid_rewrite sort_strings_Permutation. setoid_rewrite elem_of_snd_of.
  setoid_rewrite elem_of_elements. setoid_rewrite elem_of_dom. split.
  - intros (x & _ & Ht). destruct (m !! (d, x)) as [[u f]|] eqn:E; [|done].
    simpl in Ht. by simplify_eq.
  - intros Hm. exists (Rows.table_name t). split; [by eexists|rewrite Hm; by destruct t].
Qed.

Lemma NoDup_snd_of (d : string) (l : list (string * string)) :
  NoDup l -> NoDup (map snd (List.filter (fun k => String.eqb k.1 d) l)).
Proof.
  induction 1 as [|[o x] l Hx Hl IH]; simpl; [constructor|].
  destruct (String.eqb_spec o d) as [->|]; [|done]. simpl. apply NoDup_cons. split; [|done].
  rewrite list_elem_of_In, in_map_iff. intros ([o' x'] & Heq & [Hin Ho]%filter_In).
  simpl in *. apply String.eqb_eq in Ho. subst. by apply Hx, list_elem_of_In.
Qed.

Lemma tables_of_names m d :
  StronglySorted String.le (map Rows.table_name (Ops.tables_of m d)) /\
  NoDup (map Rows.table_name (Ops.tables_of m d)).
Proof.
  set (ks := map snd (List.filter (fun k => String.eqb k.1 d) (elements (dom m)))).
  assert (Hks : NoDup ks) by apply NoDup_snd_of, NoDup_elements.
  assert (Hn : map Rows.table_name (Ops.tables_of m d) = sort_strings ks).
  { assert (Hall : Forall (fun t => is_Some (m !! (d, t))) (sort_strings ks)).
    { apply Forall_forall. intros t. rewrite sort_strings_Permutation. unfold ks.
      by rewrite elem_of_snd_of, elem_of_elements, elem_of_dom. }
    unfold Ops.tables_of. fold ks. induction Hall as [|t l [[u f] Ht] _ IH]; simpl; [done|].
    rewrite Ht. simpl. by f_equal. }
  rewrite Hn. split; [apply sort_strings_Sorted|by rewrite sort_strings_Permutation].
Qed.

Lemma key_unique {A} (f : A -> string) l x y :
  NoDup (map f l) -> x ∈ l -> y ∈ l -> f x = f y -> x = y.
Proof.
  intros Hnd [i Hi]%list_elem_of_lookup_1 [j Hj]%list_elem_of_lookup_1 Heq.
  assert (i = j) as ->; [|by simplify_eq].
  eapply NoDup_lookup; [exact Hnd|by rewrite list_lookup_fmap, Hi|].
  by rewrite list_lookup_fmap, Hj, Heq.
Qed.

(** Sorted lists of names are determined by their elements. *)
Lemma sort_strings_ext l l' : l ≡ₚ l' -> sort_strings l = sort_strings l'.
Proof.
  intros Hp. apply (StronglySorted_unique String.le); [apply sort_strings_Sorted..|].
  by rewrite !sort_strings_Permutation.
Qed.

Lemma tags_for_other o s s' :
  (forall t, (o, t) ∈ s <-> (o, t) ∈ s') -> Ops.tags_for s o = Ops.tags_for s' o.
Proof.
  intros Hs. apply sort_strings_ext, NoDup_Permutation; [apply NoDup_snd_of, NoDup_elements..|].
  intros t. rewrite !elem_of_snd_of, !elem_of_elements. apply Hs.
Qed.

Lemma tables_of_other o m m' :
  (forall t, m !! (o, t) = m' !! (o, t)) -> Ops.tables_of m o = Ops.tables_of m' o.
Proof.
  intros Hm. unfold Ops.tables_of.
  rewrite (sort_strings_ext (map snd (List.filter _ (elements (dom m))))
             (map snd (List.filter (fun k => String.eqb k.1 o) (elements (dom m'))))).
  - generalize (sort_strings (map snd (List.filter (fun k => String.eqb k.1 o)
                                         (elements (dom m'))))).
    intros l. induction l as [|t l IH]; simpl; [done|]. rewrite Hm. destruct (m' !! (o, t)); simpl; [f_equal|]; apply IH.
  - apply NoDup_Permutation; [apply NoDup_snd_of, NoDup_elements..|].
    intros t. by rewrite !elem_of_snd_of, !elem_of_elements, !elem_of_dom, Hm.
Qed.

Lemma answers_known table tags query n :
  (forall n t, (n, t) ∈ tags -> is_Some (table !! n)) ->
  answers table tags query n -> is_Some (table !! n).
Proof.
  intros Ht. unfold answers. repeat case_match; [done|apply Ht|by intros []|].
  intros (d & -> & _). by eexists.
Qed.

Lemma StronglySorted_map_filter {A B} (R : relation B) (g : A -> B) (f : A -> bool) l :
  StronglySorted R (map g l) -> StronglySorted R (map g (List.filter f l)).
Proof.
  induction l as [|x l IH]; simpl; [done|]. inversion 1 as [|? ? Hl Hx]; subst.
  destruct (f x); simpl; [|by apply IH]. constructor; [by apply IH|].
  rewrite Forall_forall in Hx |- *. intros y Hy. apply Hx.
  apply list_elem_of_In, in_map_iff in Hy as (z & <- & [Hz _]%filter_In).
  by apply list_elem_of_In, in_map.
Qed.

Lemma search_sorted table tags query :
  StronglySorted String.le (Ops.search table tags query).
Proof.
  unfold Ops.search. repeat case_match; try apply sort_strings_Sorted.
  - rewrite <- (map_id (List.filter _ _)). apply StronglySorted_map_filter.
    rewrite map_id. apply sort_strings_Sorted.
  - apply StronglySorted_map_filter. change (map fst) with (fmap (M:=list) (@fst string string)).
    rewrite btree_entries_fst. apply sort_strings_Sorted.
Qed.

(** Which adds of a dataset the registry accepts. *)
Lemma add_dataset_succeeds now d r :
  is_ok (Ops.add_dataset now d r).1 = true <->
  Ops.is_ident (Rows.ds_name d) = true /\ Rows.ds_tables d <> [] /\
  NoDup (map Rows.table_name (Rows.ds_tables d)).
Proof.
  split.
  - destruct (Ops.add_dataset now d r) as [[n|e] r'] eqn:E; [|done]. intros _.
    apply add_dataset_Ok in E as (tbs & -> & Hi & Hne & Ht & _).
    by apply insert_tables_Ok in Ht as [? _].
  - intros (Hi & Hne & Hnd). unfold Ops.add_dataset, Ops.in_txn.
    destruct (String.eqb_spec (Rows.ds_name d) EmptyString) as [He|_]; [by rewrite He in Hi|].
    rewrite Hi, bool_decide_false by done. simpl.
    pose proof (insert_tables_succeeds (Rows.ds_name d) (Rows.ds_tables d)
      (Ops.delete_tables (Rows.ds_name d) (dataset_tables r)) Hnd) as Hok.
    destruct (Ops.insert_tables _ _ _); [done|]. apply Hok. intros t _.
    by rewrite lookup_delete_tables, decide_True.
Qed.
End spec.

(** ** A concrete history *)

Definition uuid_a : string := "0190a000-0000-7000-8000-00000000000a".
Definition uuid_b : string := "0190a000-0000-7000-8000-00000000000b".

(** One node, one pond named [sales], then one named after its id. *)
Definition with_node : Registry := (Ops.register_node 1 "n1" "m" "http://i" 10 (open_fresh 0)).2.
Definition with_sales : Registry :=
  (Ops.create_pond 2 0 uuid_a (Some "sales") "ann" "{}" "large" ["fts"] EmptyString true
     with_node).2.
Definition with_alias : Registry :=
  (Ops.create_pond 3 0 uuid_b (Some uuid_a) "bob" "{}" EmptyString [] EmptyString false
     with_sales).2.

Lemma legal_uuid_a : PondName.legal uuid_a.
Proof. apply PondName.validate_Ok. vm_compute. reflexivity. Qed.

Lemma legal_uuid_b : PondName.legal uuid_b.
Proof. apply PondName.validate_Ok. vm_compute. reflexivity. Qed.

Lemma reachable_step `{Sql} r r' : reachable r -> step r r' -> reachable r'.
Proof. intros [now Hr] Hs. exists now. by eapply rtc_r. Qed.

Lemma reachable_with_node : reachable with_node.
Proof. eapply reachable_step; [by exists 0%Z|apply step_register]. Qed.

Lemma reachable_with_sales : reachable with_sales.
Proof. eapply reachable_step; [apply reachable_with_node|apply step_create, legal_uuid_a]. Qed.

Lemma reachable_with_alias : reachable with_alias.
Proof. eapply reachable_step; [apply reachable_with_sales|apply step_create, legal_uuid_b]. Qed.

(** ** Properties *)

Section properties.
Context `{Sql}.

(** C16: in every reachable registry pond ids and names are unique, names are
    legal, tiers canonical and owners registered; datasets have bare names and
    at least one table; no table or tag is left without its owner; catalog
    params decode. *)
Theorem registry_invariant r : reachable r -> wf r.
Proof. apply reachable_wf. Qed.

(** [create_pond] succeeds exactly for a creatable tier, a legal name, some
    active node and a free name and id; it then appends one row, on a node that
    is active at that moment, and returns what the row reads back as; a refusal
    changes nothing. *)
Theorem create_pond_spec now seed uuid name owner pj tier req exts desc lin r :
  Extensions.validate req = Ok exts ->
  match Ops.create_pond now seed uuid name owner pj tier exts desc lin r with
  | (Ok row, r') =>
      creatable uuid name tier r /\
      exists p nd, r' = count_metrics (with_ponds r (ponds r ++ [p])) 0 1 /\
        Ops.pond_row p = row /\ Tables.created_at p = now /\ Tables.policy_json p = pj /\
        nodes r !! Rows.p_node_id row = Some nd /\ Tables.state nd = "active" /\
        Rows.p_pond_id row = uuid /\ Rows.p_name row = default uuid name /\
        Tier.parse_for_create tier = Tier.parse_for_create (Rows.p_tier row)
  | (Err _, r') => ~ creatable uuid name tier r /\ r' = r
  end.
Proof.
  intros Hv. pose proof (create_pond_succeeds now seed uuid name owner pj tier exts desc lin r)
    as Hok.
  destruct (Ops.create_pond _ _ _ _ _ _ _ _ _ _ _) as [[row|e] r'] eqn:E; simpl in Hok.
  - apply create_pond_Ok in E as (t & p & Ht & Hc). split; [by eapply created_creatable|].
    pose proof (pond_row_created _ _ _ _ _ _ _ _ _ _ _ _ _ Hc (parse_csv_validated _ _ Hv)).
    destruct Hc as [_ _ (nd & ? & ?) _ _ Hp Hrow ->]. exists p, nd.
    rewrite Hrow in *. split_and!; try done; [by rewrite Hp..|].
    simpl. by rewrite Ht, (Tier.parse_for_create_as_str t).
  - apply create_pond_Err in E as ->. split; [|done]. intros Hc. by specialize (Hok Hc).
Qed.

(** a pond just created is found by its id and by its name, with the row
    [create_pond] returned and its node's endpoint, provided no other pond is
    named after its id or identified by its name. *)
Theorem create_pond_resolves now seed uuid name owner pj tier req exts desc lin r row r' :
  Extensions.validate req = Ok exts ->
  Ops.create_pond now seed uuid name owner pj tier exts desc lin r = (Ok row, r') ->
  uuid ∉ map Tables.name (ponds r) -> default uuid name ∉ map Tables.pond_id (ponds r) ->
  exists nd, nodes r !! Rows.p_node_id row = Some nd /\
    forall ref, ref = uuid \/ ref = default uuid name ->
      Ops.pond_info ref r' =
        Ok (row, timestamp_varchar now, pj, Some (Tables.internal_endpoint nd)) /\
      Ops.get_pond_location ref r' = Ok (uuid, Tables.internal_endpoint nd).
Proof.
  intros Hv (t & p & Ht & Hc)%create_pond_Ok Hid Hname.
  pose proof (pond_row_created _ _ _ _ _ _ _ _ _ _ _ _ _ Hc (parse_csv_validated _ _ Hv)) as Hr.
  pose proof (fun ref => matches_created _ _ _ _ _ _ _ _ _ _ _ _ _ ref Hc Hid Hname) as Hm.
  destruct Hc as [_ _ (nd & Hnd & _) _ _ Hp Hrow ->]. exists nd.
  assert (Hn : Rows.p_node_id row = Tables.node_id p) by (by rewrite Hrow).
  rewrite Hn. split; [done|]. intros ref Href. specialize (Hm ref Href). simpl in Hm.
  unfold Ops.pond_info, Ops.find_pond, Ops.get_pond_location. cbn [ponds nodes
    count_metrics with_ponds]. rewrite Hm, limit1_singleton. cbn [omap list_omap ok_or res_bind].
  rewrite Hr, Hnd. simpl. rewrite limit1_singleton. by rewrite Hp.
Qed.

(** the reaper downs exactly the active nodes whose last beat is older than
    the ttl and counts them; a downed node hosts no new pond until it beats or
    registers again, and then it does at once. *)
Theorem reaper_liveness now ttl r :
  let (res, r') := Ops.reap_stale_nodes now ttl r in
  res = Ok (N.of_nat (size (filter (fun kv => Ops.stale now ttl kv.2 = true) (nodes r)))) /\
  (forall id, id ∈ Ops.active_nodes r' <->
     exists n, nodes r !! id = Some n /\ Tables.state n = "active" /\
       (now - Z.of_N ttl * 1000000 <= Tables.last_heartbeat n)%Z) /\
  (forall id n, nodes r' !! id = Some n ->
     id ∈ Ops.active_nodes (Ops.heartbeat now id 0 r').2 /\
     forall mcp int cap, id ∈ Ops.active_nodes (Ops.register_node now id mcp int cap r').2).
Proof.
  destruct (Ops.reap_stale_nodes now ttl r) as [res r'] eqn:E.
  assert (Hl := lookup_reaped now ttl r). rewrite E in Hl. simpl in Hl.
  split; [by injection E as <- _|]. split.
  - intros id. rewrite elem_of_active_nodes. rewrite Hl. split.
    + intros (n & (m & Hm & ->)%fmap_Some & Hs). exists m. split; [done|].
      revert Hs. unfold Ops.stale, Ops.down.
      destruct (String.eqb_spec (Tables.state m) "active"); simpl; [|intros; congruence].
      destruct (Z.ltb_spec (Tables.last_heartbeat m) (now - Z.of_N ttl * 1000000)); [done|].
      by split.
    + intros (n & Hn & Hs & Hage). exists n. rewrite Hn. simpl. unfold Ops.stale.
      rewrite Hs. simpl. rewrite (proj2 (Z.ltb_ge _ _)) by lia. done.
  - intros id n Hn. split; [|intros mcp int cap]; apply elem_of_active_nodes.
    + unfold Ops.heartbeat. rewrite Hn. simpl. rewrite lookup_insert_eq. by eexists.
    + simpl. rewrite lookup_insert_eq. by eexists.
Qed.

(** [forget_pond] never removes a pond whose owner is active with an
    endpoint, and otherwise removes that one record and no other; in a reachable
    registry the owner it names is always a registered node. *)
Theorem forget_pond_spec ref r :
  reachable r ->
  match Ops.forget_pond ref r with
  | (Ok f, r') =>
      exists p nd, p ∈ ponds r /\ (Tables.pond_id p = ref \/ Tables.name p = ref) /\
        nodes r !! Tables.node_id p = Some nd /\
        ~ (Tables.state nd = "active" /\ Tables.internal_endpoint nd <> EmptyString) /\
        f = {| Rows.f_pond_id := Tables.pond_id p; Rows.f_name := Tables.name p;
               Rows.f_node_id := Tables.node_id p; Rows.f_node_state := Tables.state nd |} /\
        (forall q, q ∈ ponds r' <-> q ∈ ponds r /\ q <> p)
  | (Err (ControlPlaneError.PondStillOwned n id), r') =>
      r' = r /\ exists p nd, p ∈ ponds r /\ Tables.name p = n /\ Tables.node_id p = id /\
        nodes r !! id = Some nd /\ Tables.state nd = "active" /\
        Tables.internal_endpoint nd <> EmptyString
  | (Err e, r') =>
      r' = r /\ e = ControlPlaneError.PondNotFound ref /\
      forall p, p ∈ ponds r -> Tables.pond_id p <> ref /\ Tables.name p <> ref
  end.
Proof.
  intros Hr%reachable_wf. destruct Hr as [Hns [Hids _ Hok] _ _]. unfold Ops.forget_pond.
  destruct (Ops.find_pond ref r) as [p|e] eqn:E.
  2: { apply find_pond_Err in E as [-> Hno]. done. }
  apply find_pond_Ok in E as [Hin Href]. rewrite Forall_forall in Hok.
  destruct (Hok p Hin) as (_ & [nd Hnd] & _). rewrite Hnd. simpl.
  pose proof (fun q => elem_of_filter_key Tables.pond_id _ _ q Hids Hin) as Hdel.
  destruct (Hns _ _ Hnd) as [Hs|Hs]; rewrite Hs; simpl.
  - destruct (String.eqb_spec (Tables.internal_endpoint nd) EmptyString) as [He|He]; simpl.
    + exists p, nd. rewrite Hs, He. split; [done|]. split; [done|]. split; [done|].
      split; [by intros []|]. by split.
    + split; [done|]. by exists p, nd.
  - exists p, nd. rewrite Hs. split; [done|]. split; [done|]. split; [done|].
    split; [by intros []|]. by split.
Qed.

(** [drop_pond] removes every pond whose id or name is the reference and
    nothing else, and fails, changing nothing, when there is none; where no pond
    is named after another's id that is one pond. *)
Theorem drop_pond_spec ref r :
  reachable r ->
  match Ops.drop_pond ref r with
  | (Ok _, r') =>
      r' = with_ponds r (ponds r') /\
      (exists p, p ∈ ponds r /\ Ops.matches_ref ref p = true) /\
      (forall q, q ∈ ponds r' <-> q ∈ ponds r /\ Ops.matches_ref ref q = false) /\
      ((forall p q, p ∈ ponds r -> q ∈ ponds r -> Tables.name p = Tables.pond_id q -> p = q) ->
       forall p q, p ∈ ponds r -> q ∈ ponds r ->
         Ops.matches_ref ref p = true -> Ops.matches_ref ref q = true -> p = q)
  | (Err e, r') =>
      r' = r /\ e = ControlPlaneError.PondNotFound ref /\
      forall p, p ∈ ponds r -> Ops.matches_ref ref p = false
  end.
Proof.
  intros [_ [Hids Hnames _] _ _]%reachable_wf. unfold Ops.drop_pond.
  destruct (existsb (Ops.matches_ref ref) (ponds r)) eqn:E.
  - split; [done|]. apply existsb_exists in E as (p & Hp%list_elem_of_In & Hm).
    split; [by exists p|]. split.
    + intros q. simpl. rewrite list_elem_of_In, filter_In, <- list_elem_of_In, negb_true_iff. done.
    + intros Hno p1 p2 H1 H2 [M1|M1]%matches_ref_iff [M2|M2]%matches_ref_iff.
      * by apply (key_unique Tables.pond_id _ _ _ Hids H1 H2); congruence.
      * symmetry. apply Hno; [done..|congruence].
      * apply Hno; [done..|congruence].
      * by apply (key_unique Tables.name _ _ _ Hnames H1 H2); congruence.
  - split; [done|]. split; [done|]. intros p Hp%list_elem_of_In.
    apply not_true_iff_false. intros Hm. apply not_true_iff_false in E. apply E.
    apply existsb_exists. eauto.
Qed.

(** a dataset is accepted exactly when its name is bare, it has a table and
    no table twice; it then reads back as it was given, tables and tags sorted,
    and a refused one changes nothing. *)
Theorem add_dataset_roundtrip now d r :
  (is_ok (Ops.add_dataset now d r).1 = true <->
     Ops.is_ident (Rows.ds_name d) = true /\ Rows.ds_tables d <> [] /\
     NoDup (map Rows.table_name (Rows.ds_tables d))) /\
  match Ops.add_dataset now d r with
  | (Err _, r') => r' = r
  | (Ok n, r') =>
      exists d', Ops.get_dataset n r' = Ok d' /\
        Rows.ds_name d' = Rows.ds_name d /\ Rows.ds_description d' = Rows.ds_description d /\
        Rows.ds_created_by d' = Rows.ds_created_by d /\
        Rows.ds_created_at d' = timestamp_varchar now /\
        (forall t, t ∈ Rows.ds_tags d' <-> t ∈ Rows.ds_tags d) /\
        (forall t, t ∈ Rows.ds_tables d' <-> t ∈ Rows.ds_tables d) /\
        StronglySorted String.le (map Rows.table_name (Rows.ds_tables d')) /\
        (forall n', n' <> n -> Ops.get_dataset n' r' = Ops.get_dataset n' r)
  end.
Proof.
  split; [apply add_dataset_succeeds|].
  destruct (Ops.add_dataset now d r) as [[n|e] r'] eqn:E; [|by apply add_dataset_Err in E].
  apply add_dataset_Ok in E as (tbs & -> & Hi & Hne & Ht & ->).
  unfold Ops.get_dataset. cbn [datasets dataset_tags dataset_tables with_datasets].
  rewrite lookup_insert_eq. eexists. split; [reflexivity|]. cbn.
  destruct (insert_tables_Ok _ _ _ _ Ht) as (_ & Hfr & Hin & _).
  do 4 (split; [done|]). split; [|split; [|split]].
  - intros t. rewrite elem_of_tags_for, elem_of_insert_tags, elem_of_delete_tags. naive_solver.
  - intros t. rewrite elem_of_tables_of. split; [|intros Hin'; by apply Hin].
    intros Htb. destruct (Hfr (Rows.ds_name d) (Rows.table_name t)) as [Hfrom|[_ Hn]].
    + by rewrite Hfrom, lookup_delete_tables, decide_True in Htb.
    + apply list_elem_of_fmap in Hn as (t' & Hn & Ht'). destruct (Hin t' Ht') as [Htb' _].
      rewrite Hn in Htb. rewrite Htb in Htb'. destruct t, t'; simpl in *. by simplify_eq.
  - apply tables_of_names.
  - intros n' Hn'. rewrite lookup_insert_ne by done. destruct (datasets r !! n'); [|done].
    rewrite (tags_for_other _ _ (dataset_tags r)), (tables_of_other _ _ (dataset_tables r)); [done| |].
    + intros t. destruct (Hfr n' t) as [->|[? _]]; [|done].
      by rewrite lookup_delete_tables, decide_False.
    + intros t. rewrite elem_of_insert_tags, elem_of_delete_tags. naive_solver.
Qed.

(** in a reachable registry a dataset search never fails, and returns the
    datasets that answer the query: all of them for a blank one, those with the
    tag for [#tag], those whose name the glob matches for one with a star, and
    those whose name, description or tag the pattern matches for any other. *)
Theorem list_datasets_spec query r :
  reachable r ->
  exists rows, Ops.list_datasets query r = Ok rows /\
    (forall d, d ∈ rows -> Ops.get_dataset (Rows.ds_name d) r = Ok d) /\
    (forall n, n ∈ map Rows.ds_name rows <->
       answers (Tables.d_description <$> datasets r) (dataset_tags r) query n) /\
    StronglySorted String.le (map Rows.ds_name rows).
Proof.
  intros [_ _ Hd _]%reachable_wf. unfold Ops.list_datasets.
  set (names := Ops.search _ _ _).
  destruct (collect_Ok (fun n => Ops.get_dataset n r) names) as (rows & Hrows & HF).
  { intros n Hn%elem_of_search%answers_known.
    - rewrite lookup_fmap in Hn. apply fmap_is_Some in Hn as [d Hn].
      unfold Ops.get_dataset. rewrite Hn. by eexists.
    - intros n' t Ht. rewrite lookup_fmap, fmap_is_Some. by eapply wf_ds_tags. }
  exists rows. split; [done|].
  assert (Hn : map Rows.ds_name rows = names).
  { clear Hrows. induction HF as [|n d l l' Hg HF IH]; simpl; [done|]. f_equal; [|done].
    unfold Ops.get_dataset in Hg. destruct (datasets r !! n); by simplify_eq. }
  split; [|split].
  - intros d Hin. apply list_elem_of_lookup_1 in Hin as [i Hi].
    destruct (Forall2_lookup_r _ _ _ _ _ HF Hi) as (n & _ & Hg).
    rewrite <- Hg. f_equal. unfold Ops.get_dataset in Hg. by destruct (datasets r !! n); simplify_eq.
  - intros n. rewrite Hn. apply elem_of_search.
  - rewrite Hn. apply search_sorted.
Qed.
End properties.

(** two ponds can answer to one reference: a pond may be named after the id
    of another, and dropping the latter by its id then removes both. *)
Theorem drop_pond_aliased :
  reachable with_alias /\
  map (fun p => (Tables.pond_id p, Tables.name p)) (ponds with_alias) =
    [(uuid_a, "sales"); (uuid_b, uuid_a)] /\
  (Ops.drop_pond uuid_a with_alias).1 = Ok tt /\
  ponds (Ops.drop_pond uuid_a with_alias).2 = [].
Proof. split; [apply reachable_with_alias|]. by vm_compute. Qed.

(** ** Witnesses *)

Lemma registry_invariant_witness : reachable with_alias /\ wf with_alias.
Proof. split; [|apply registry_invariant]; apply reachable_with_alias. Defined.

Lemma create_pond_spec_witness :
  creatable uuid_a (Some "sales") "large" with_node.
Proof.
  exact (proj1 (create_pond_spec 2 0 uuid_a (Some "sales") "ann" "{}" "large"
    [" FTS"] ["fts"] EmptyString true with_node eq_refl)).
Defined.

Definition sales_row : Rows.PondRow :=
  {| Rows.p_pond_id := uuid_a; Rows.p_name := "sales"; Rows.p_owner_identity := "ann";
     Rows.p_node_id := "n1"; Rows.p_tier := "large"; Rows.p_extensions := ["fts"];
     Rows.p_description := EmptyString; Rows.p_lineage := true |}.

Lemma create_pond_resolves_witness :
  Ops.get_pond_location "sales" with_sales = Ok (uuid_a, "http://i").
Proof.
  assert (Hc : Ops.create_pond 2 0 uuid_a (Some "sales") "ann" "{}" "large" ["fts"]
    EmptyString true with_node = (Ok sales_row, with_sales)) by (vm_compute; reflexivity).
  destruct (create_pond_resolves 2 0 uuid_a (Some "sales") "ann" "{}" "large"
    [" FTS"] ["fts"] EmptyString true with_node sales_row with_sales eq_refl Hc
    (not_elem_of_nil _) (not_elem_of_nil _)) as (nd & Hnd & Hr).
  vm_compute in Hnd. injection Hnd as <-. apply (Hr "sales"). by right.
Defined.

Definition node_downed : Registry := (Ops.reap_stale_nodes 100000000 15 with_sales).2.

Lemma reachable_node_downed : reachable node_downed.
Proof. eapply reachable_step; [apply reachable_with_sales|apply step_reap]. Qed.

Lemma forget_pond_spec_witness :
  exists p nd, p ∈ ponds node_downed /\ nodes node_downed !! Tables.node_id p = Some nd /\
    ~ (Tables.state nd = "active" /\ Tables.internal_endpoint nd <> EmptyString).
Proof.
  assert (Hok : is_ok (Ops.forget_pond "sales" node_downed).1 = true) by (vm_compute; reflexivity).
  pose proof (forget_pond_spec "sales" node_downed reachable_node_downed) as Hf.
  destruct (Ops.forget_pond "sales" node_downed) as [[f|e] r']; [|discriminate Hok].
  destruct Hf as (p & nd & Hin & _ & Hnd & Hst & _).
  exists p, nd. split; [exact Hin|split; [exact Hnd|exact Hst]].
Defined.

Lemma drop_pond_spec_witness :
  exists p, p ∈ ponds with_sales /\ Ops.matches_ref "sales" p = true.
Proof.
  assert (Hok : is_ok (Ops.drop_pond "sales" with_sales).1 = true) by (vm_compute; reflexivity).
  pose proof (drop_pond_spec "sales" with_sales reachable_with_sales) as Hd.
  destruct (Ops.drop_pond "sales" with_sales) as [[u|e] r']; [|discriminate Hok].
  apply Hd.
Defined.

Lemma list_datasets_spec_witness :
  exists rows, Ops.list_datasets "#sample" with_node = Ok rows /\
    "tpch" ∈ map Rows.ds_name rows.
Proof.
  destruct (list_datasets_spec "#sample" with_node reachable_with_node)
    as (rows & Hrows & _ & Hn & _).
  exists rows. split; [exact Hrows|]. apply Hn. vm_compute. reflexivity.
Defined.
