(* ===== verification/Inflight.v ===== *)
(** * The in-flight registry and its drop race

    Models [latiq-agent-core/src/inflight.rs].  Each method is a composition of
    the sections it runs under one mutex; [dropping] and [map] are two mutexes,
    so two methods interleave between sections.  [step] is that interleaving:
    [register] and [begin_drop] take two steps, the others one.  Tokens are the
    cancellation flags shared by clones: a token's name, and the set of the
    cancelled ones. *)
From S2P Require Import Prelude.

Module Inflight.
Record Entry := { token : N; pond_id : option string }.

Record Shared := {
  map : gmap string Entry;
  dropping : gset string;
  cancelled : gset N;
}.

Definition empty : Shared := {| map := ∅; dropping := ∅; cancelled := ∅ |}.

Definition cancel_token (t : N) (s : Shared) : Shared :=
  {| map := map s; dropping := dropping s; cancelled := {[t]} ∪ cancelled s |}.

Definition live (s : Shared) (t : N) : Prop := t ∉ cancelled s.

(** ** Critical sections *)

(** [register], under [dropping]: a tombstoned pond cancels the new token. *)
Definition check_tombstone (tok : N) (pond : option string) (s : Shared) : Shared :=
  match pond with
  | Some pid => if decide (pid ∈ dropping s) then cancel_token tok s else s
  | None => s
  end.

(** [register], under [map]. *)
Definition insert_entry (op : string) (tok : N) (pond : option string) (s : Shared) : Shared :=
  {| map := <[op := {| token := tok; pond_id := pond |}]> (map s);
     dropping := dropping s; cancelled := cancelled s |}.

Definition insert_tombstone (p : string) (s : Shared) : Shared :=
  {| map := map s; dropping := {[p]} ∪ dropping s; cancelled := cancelled s |}.

Definition tokens_of (p : string) (s : Shared) : list N :=
  omap (fun e => if decide (pond_id e = Some p) then Some (token e) else None)
    (map_to_list (map s)).*2.

(** ** The methods *)

Definition register (op : string) (tok : N) (pond : option string) (s : Shared) :
    (string * N) * Shared :=
  ((op, tok), insert_entry op tok pond (check_tombstone tok pond s)).

Definition complete (op : string) (s : Shared) : Shared :=
  {| map := delete op (map s); dropping := dropping s; cancelled := cancelled s |}.

Definition cancel (op : string) (s : Shared) : Shared :=
  match map s !! op with
  | Some e => cancel_token (token e) s
  | None => s
  end.

Definition cancel_for_pond (p : string) (s : Shared) : Shared :=
  foldr cancel_token s (tokens_of p s).

Definition begin_drop (p : string) (s : Shared) : Shared :=
  cancel_for_pond p (insert_tombstone p s).

Definition end_drop (p : string) (s : Shared) : Shared :=
  {| map := map s; dropping := dropping s ∖ {[p]}; cancelled := cancelled s |}.

Definition len (s : Shared) : nat := size (map s).

Definition is_empty (s : Shared) : bool := len s =? 0.

(** ** Interleaving *)

(** [pending] registrations are between their check and their insert, [drops]
    between their tombstone and their sweep.  [racers] is history: the tokens of
    the registrations that were pending, live, when their pond was tombstoned. *)
Record Config := {
  shared : Shared;
  pending : list (string * N * option string);
  drops : list string;
  racers : gset N;
}.

Definition init : Config := {| shared := empty; pending := []; drops := []; racers := ∅ |}.

Definition racing (p : string) (s : Shared) (l : list (string * N * option string)) : gset N :=
  list_to_set (omap (fun r : string * N * option string =>
    if decide (r.2 = Some p /\ r.1.2 ∉ cancelled s) then Some r.1.2 else None) l).

Inductive step : Config -> Config -> Prop :=
| step_check s l d g op tok pond :
    tok ∉ cancelled s ->
    step {| shared := s; pending := l; drops := d; racers := g |}
         {| shared := check_tombstone tok pond s; pending := (op, tok, pond) :: l;
            drops := d; racers := g |}
| step_insert s l1 l2 d g op tok pond :
    step {| shared := s; pending := l1 ++ (op, tok, pond) :: l2; drops := d; racers := g |}
         {| shared := insert_entry op tok pond s; pending := l1 ++ l2; drops := d; racers := g |}
| step_complete s l d g op :
    step {| shared := s; pending := l; drops := d; racers := g |}
         {| shared := complete op s; pending := l; drops := d; racers := g |}
| step_cancel s l d g op :
    step {| shared := s; pending := l; drops := d; racers := g |}
         {| shared := cancel op s; pending := l; drops := d; racers := g |}
| step_cancel_for_pond s l d g p :
    step {| shared := s; pending := l; drops := d; racers := g |}
         {| shared := cancel_for_pond p s; pending := l; drops := d; racers := g |}
| step_tombstone s l d g p :
    step {| shared := s; pending := l; drops := d; racers := g |}
         {| shared := insert_tombstone p s; pending := l; drops := p :: d;
            racers := racing p s l ∪ g |}
| step_sweep s l d1 d2 g p :
    step {| shared := s; pending := l; drops := d1 ++ p :: d2; racers := g |}
         {| shared := cancel_for_pond p s; pending := l; drops := d1 ++ d2; racers := g |}
| step_end s l d g p :
    step {| shared := s; pending := l; drops := d; racers := g |}
         {| shared := end_drop p s; pending := l; drops := d; racers := g |}.

Definition reachable (c : Config) : Prop := rtc step init c.
End Inflight.
Import Inflight.

(** ** Lemmas *)

Lemma elem_of_tokens_of p s t :
  t ∈ tokens_of p s <-> exists op e, map s !! op = Some e /\ pond_id e = Some p /\ token e = t.
Proof.
  unfold tokens_of. rewrite list_elem_of_omap. setoid_rewrite list_elem_of_fmap. split.
  - intros (e & ([op e'] & -> & Hin%elem_of_map_to_list) & Ht). simpl in Ht.
    case_decide; simplify_eq. eauto.
  - intros (op & e & Hop & Hp & <-). exists e. rewrite decide_True by done.
    split; [|done]. exists (op, e). by rewrite elem_of_map_to_list.
Qed.

Lemma cancel_for_pond_frame p s :
  map (cancel_for_pond p s) = map s /\ dropping (cancel_for_pond p s) = dropping s.
Proof. unfold cancel_for_pond. induction (tokens_of p s); simpl; naive_solver. Qed.

Lemma cancelled_cancel_for_pond p s t :
  t ∈ cancelled (cancel_for_pond p s) <-> t ∈ tokens_of p s \/ t ∈ cancelled s.
Proof.
  unfold cancel_for_pond. induction (tokens_of p s) as [|x l IH]; simpl.
  - rewrite elem_of_nil. naive_solver.
  - rewrite elem_of_union, elem_of_singleton, elem_of_cons, IH. naive_solver.
Qed.

Lemma elem_of_racing p s l t :
  t ∈ racing p s l <-> exists op, (op, t, Some p) ∈ l /\ t ∉ cancelled s.
Proof.
  unfold racing. rewrite elem_of_list_to_set, list_elem_of_omap. split.
  - intros ([[op tok] pond] & Hin & Ht). simpl in Ht. case_decide as Hd; [|done].
    destruct Hd as [-> ?]. simplify_eq. eauto.
  - intros (op & Hin & Ht). exists (op, t, Some p). by rewrite decide_True.
Qed.

(** A live operation on a tombstoned pond raced its tombstone, or the sweep is
    still to come. *)
Record inv (c : Config) : Prop := {
  inv_pending : forall op t p, (op, t, Some p) ∈ pending c -> p ∈ dropping (shared c) ->
    t ∈ cancelled (shared c) \/ t ∈ racers c;
  inv_map : forall op e p, map (shared c) !! op = Some e -> pond_id e = Some p ->
    p ∈ dropping (shared c) ->
    token e ∈ cancelled (shared c) \/ token e ∈ racers c \/ p ∈ drops c;
}.

(** Cancelling more, leaving the rest alone, keeps the invariant. *)
Lemma inv_cancel_more s s' l d g :
  map s' = map s -> dropping s' = dropping s -> cancelled s ⊆ cancelled s' ->
  inv {| shared := s; pending := l; drops := d; racers := g |} ->
  inv {| shared := s'; pending := l; drops := d; racers := g |}.
Proof.
  intros Hm Hd Hc [Hp He]. split; simpl in *; rewrite ?Hm, ?Hd; intros.
  - destruct (Hp op t p); auto.
  - destruct (He op e p) as [|[|]]; auto.
Qed.

Lemma check_tombstone_frame tok pond s :
  map (check_tombstone tok pond s) = map s /\
  dropping (check_tombstone tok pond s) = dropping s /\
  cancelled s ⊆ cancelled (check_tombstone tok pond s).
Proof. unfold check_tombstone. repeat case_match; simpl; set_solver. Qed.

Lemma cancelled_subseteq_cancel_for_pond p s :
  cancelled s ⊆ cancelled (cancel_for_pond p s).
Proof. intros t Ht. apply cancelled_cancel_for_pond. by right. Qed.

Lemma step_inv c c' : step c c' -> inv c -> inv c'.
Proof.
  intros Hs Hi. destruct Hs.
  - destruct (check_tombstone_frame tok pond s) as (Hm & Hd & Hc).
    destruct (inv_cancel_more _ _ _ _ _ Hm Hd Hc Hi) as [Hp He].
    split; [|exact He]. intros o t p. simpl. rewrite Hd.
    intros [[= -> -> <-]|Hin]%elem_of_cons Hdr; [|by eapply Hp; [done|simpl; by rewrite Hd]].
    left. unfold check_tombstone. rewrite decide_True by done. simpl. set_solver.
  - destruct Hi as [Hp He]. split; simpl in *.
    + intros o t p Hin. apply (Hp o). set_solver.
    + intros o e p [[<- <-]|[_ Hl]]%lookup_insert_Some Hpe Hd; [|by eapply He].
      simpl in *. subst. destruct (Hp op tok p) as [?|?]; [set_solver|done|auto..].
  - destruct Hi as [Hp He]. split; [exact Hp|]. simpl in *. intros o e p [_ Hl]%lookup_delete_Some.
    by apply (He o).
  - unfold cancel. destruct (map s !! op); [|done].
    refine (inv_cancel_more _ _ _ _ _ _ _ _ Hi); [done..|]. simpl. set_solver.
  - refine (inv_cancel_more _ _ _ _ _ _ _ _ Hi); [apply cancel_for_pond_frame..|].
    apply cancelled_subseteq_cancel_for_pond.
  - destruct Hi as [Hp He]. split; simpl in *.
    + intros o t q Hin Hd. rewrite elem_of_union, elem_of_racing.
      destruct (decide (t ∈ cancelled s)) as [|Hl]; [by left|]. right.
      destruct (decide (q = p)) as [->|Hq]; [left; eauto|].
      destruct (Hp o t q Hin) as [?|?]; [set_solver|done|by right].
    + intros o e q Hl Hpe Hd. destruct (decide (q = p)) as [->|Hq]; [set_solver|].
      destruct (He o e q Hl Hpe) as [?|[?|?]]; set_solver.
  - destruct Hi as [Hp He]. destruct (cancel_for_pond_frame p s) as [Hm Hd].
    split; simpl in *; rewrite ?Hm, ?Hd.
    + intros o t q Hin Hdr. destruct (Hp o t q Hin Hdr); [left|by right].
      by apply cancelled_subseteq_cancel_for_pond.
    + intros o e q Hl Hpe Hdr. rewrite cancelled_cancel_for_pond, elem_of_tokens_of.
      destruct (decide (q = p)) as [->|Hq]; [left; left; eauto|].
      destruct (He o e q Hl Hpe Hdr) as [?|[?|?]]; [auto..|]. right. right. set_solver.
  - destruct Hi as [Hp He]. split; simpl in *.
    + intros o t q Hin Hd. apply (Hp o t q Hin). set_solver.
    + intros o e q Hl Hpe Hd. apply (He o e q Hl Hpe). set_solver.
Qed.

Lemma reachable_inv c : reachable c -> inv c.
Proof.
  assert (Hi : inv init) by (split; simpl; set_solver). intros Hr.
  unfold reachable in Hr. revert Hi. generalize init Hr. clear.
  induction 1 as [|c1 c2 c3 Hs _ IH]; [done|]. intros Hi. by apply IH, (step_inv _ _ Hs).
Qed.

Lemma step_dropping_tokens c c' :
  step c c' -> cancelled (shared c) ⊆ cancelled (shared c').
Proof.
  destruct 1; simpl; try done.
  - apply check_tombstone_frame.
  - unfold cancel. case_match; simpl; set_solver.
  - apply cancelled_subseteq_cancel_for_pond.
  - apply cancelled_subseteq_cancel_for_pond.
Qed.

(** The two ops of the race: registration [op] on pond [p], dropped meanwhile. *)
Definition raced : Config :=
  {| shared := insert_entry "op" 1 (Some "p")
       (cancel_for_pond "p" (insert_tombstone "p" empty));
     pending := []; drops := [];
     racers := racing "p" empty [("op", 1%N, Some "p")] ∪ ∅ |}.

Lemma reachable_raced : reachable raced.
Proof.
  eapply rtc_l; [apply (step_check _ _ _ _ "op" 1 (Some "p")); simpl; set_solver|].
  eapply rtc_l; [apply (step_tombstone _ _ _ _ "p")|].
  eapply rtc_l; [apply (step_sweep _ _ [] [] _ "p")|].
  eapply rtc_l; [apply (step_insert _ [] [] _ _ "op" 1 (Some "p"))|]. apply rtc_refl.
Qed.

(** ** Properties *)

(** [cancel_for_pond] cancels exactly the operations registered on that pond,
    and keeps every entry and every tombstone. *)
Theorem cancel_for_pond_spec p s :
  (forall t, t ∈ cancelled (cancel_for_pond p s) <->
     t ∈ cancelled s \/
     exists op e, map s !! op = Some e /\ pond_id e = Some p /\ token e = t) /\
  map (cancel_for_pond p s) = map s /\ dropping (cancel_for_pond p s) = dropping s.
Proof.
  split; [|apply cancel_for_pond_frame]. intros t.
  rewrite cancelled_cancel_for_pond, elem_of_tokens_of. naive_solver.
Qed.

(** C28: in every interleaving, an operation still live on a pond whose drop has
    begun and swept is one whose registration looked for the tombstone before it
    was there and inserted itself afterwards; every other one is cancelled, and
    no step ever revives a cancelled one. *)
Theorem drop_cancels_all_but_racers c :
  reachable c ->
  (forall op e p, map (shared c) !! op = Some e -> pond_id e = Some p ->
     p ∈ dropping (shared c) -> p ∉ drops c -> live (shared c) (token e) ->
     token e ∈ racers c) /\
  (forall c', step c c' -> cancelled (shared c) ⊆ cancelled (shared c')).
Proof.
  intros [_ Hm]%reachable_inv. split; [|apply step_dropping_tokens].
  intros op e p Hl Hp Hd Hn Hlive. destruct (Hm op e p Hl Hp Hd) as [?|[?|?]]; done.
Qed.

(** the tombstone does not close the race it is there for: a registration
    that checked it before [begin_drop] can insert itself after the sweep, and
    then runs, uncancelled, on a pond whose drop has begun. *)
Theorem register_races_begin_drop :
  exists c op e, reachable c /\ pending c = [] /\ drops c = [] /\
    map (shared c) !! op = Some e /\ pond_id e = Some "p" /\
    "p" ∈ dropping (shared c) /\ live (shared c) (token e).
Proof.
  exists raced, "op", {| token := 1; pond_id := Some "p" |}.
  split; [apply reachable_raced|]. do 4 (split; [done|]). split; [simpl; set_solver|].
  apply (bool_decide_unpack (1%N ∉ cancelled (shared raced))). vm_compute. exact I.
Qed.

Lemma drop_cancels_all_but_racers_witness : 1%N ∈ racers raced.
Proof.
  apply (proj1 (drop_cancels_all_but_racers raced reachable_raced) "op"
    {| token := 1; pond_id := Some "p" |} "p"); [done|done|simpl; set_solver|simpl; set_solver|].
  apply (bool_decide_unpack (1%N ∉ cancelled (shared raced))). vm_compute. exact I.
Defined.
