(* ===== verification/Deadline.v ===== *)
(** * Deadlines: one watcher, two triggers

    Models [latiq-agent-core/src/deadline.rs] as a state machine: the statement's
    guard ([Deadline]), its watcher task (a [select!] of the timer and the
    caller's cancellation), the abort token both cancel, and the other parties
    that can cancel it (a drop of the pond).  The timer arm is two steps, the
    flag and then the token, because another thread can look between them;
    [select!] takes any arm that is ready, and a ready task runs when the
    scheduler gets to it. *)
From S2P Require Import Prelude Errors Policy.

Module Deadline.
(** What a caller says about one statement; [cancel] is its token, by whether
    it has been cancelled. *)
Record QueryControls := { timeout_ms : option N; cancel : option bool }.

Definition none : QueryControls := {| timeout_ms := None; cancel := None |}.

Definition timeout (t : option N) : QueryControls := {| timeout_ms := t; cancel := None |}.

Definition with_cancel (c : QueryControls) (ct : bool) : QueryControls :=
  {| timeout_ms := timeout_ms c; cancel := Some ct |}.

Inductive Watcher := Waiting | Flagged | Finished | Aborted.

Record Deadline := {
  effective_ms : N;
  max_ms : N;
  expired : bool;
  token : bool;         (* the abort token has been cancelled *)
  watcher : Watcher;
  external : option bool;
  elapsed : N;          (* milliseconds since [arm] *)
  dropped : bool;
}.

(** [token] may come cancelled already, from a registration on a dropping pond. *)
Definition arm (token : bool) (timeouts : Timeout.QueryTimeouts) (controls : QueryControls) :
    Deadline :=
  {| effective_ms := Timeout.effective timeouts (timeout_ms controls);
     max_ms := Timeout.max_ms timeouts; expired := false; token := token;
     watcher := Waiting; external := cancel controls; elapsed := 0; dropped := false |}.

Definition set_token (d : Deadline) (w : Watcher) : Deadline :=
  {| effective_ms := effective_ms d; max_ms := max_ms d; expired := expired d;
     token := true; watcher := w; external := external d; elapsed := elapsed d;
     dropped := dropped d |}.

Definition set_flag (d : Deadline) : Deadline :=
  {| effective_ms := effective_ms d; max_ms := max_ms d; expired := true;
     token := token d; watcher := Flagged; external := external d; elapsed := elapsed d;
     dropped := dropped d |}.

Definition wait (ms : N) (d : Deadline) : Deadline :=
  {| effective_ms := effective_ms d; max_ms := max_ms d; expired := expired d;
     token := token d; watcher := watcher d; external := external d;
     elapsed := elapsed d + ms; dropped := dropped d |}%N.

Definition caller_cancels (d : Deadline) : Deadline :=
  {| effective_ms := effective_ms d; max_ms := max_ms d; expired := expired d;
     token := token d; watcher := watcher d; external := (fun _ => true) <$> external d;
     elapsed := elapsed d; dropped := dropped d |}.

(** The guard's [Drop]: [abort] stops a task that is waiting; one already past
    its [select!] has no await left to stop at. *)
Definition drop (d : Deadline) : Deadline :=
  {| effective_ms := effective_ms d; max_ms := max_ms d; expired := expired d;
     token := true;
     watcher := match watcher d with Waiting => Aborted | w => w end;
     external := external d; elapsed := elapsed d; dropped := true |}.

(** The watcher's own steps. *)
Inductive wstep : Deadline -> Deadline -> Prop :=
| w_timer d : watcher d = Waiting -> (effective_ms d <= elapsed d)%N -> wstep d (set_flag d)
| w_timer_cancel d : watcher d = Flagged -> wstep d (set_token d Finished)
| w_caller d : watcher d = Waiting -> external d = Some true -> wstep d (set_token d Finished).

Inductive step : Deadline -> Deadline -> Prop :=
| step_watcher d d' : wstep d d' -> step d d'
| step_wait d ms : step d (wait ms d)
| step_caller d : step d (caller_cancels d)
| step_other d : step d (set_token d (watcher d))
| step_drop d : dropped d = false -> step d (drop d).

Definition classify (d : Deadline) (e : EngineError) : AgentError :=
  match e with
  | EngineError.Cancelled =>
      if expired d then Agent.query_timeout (effective_ms d) (max_ms d)
      else Agent.from_engine e
  | other => Agent.from_engine other
  end.

Definition reachable (t : Timeout.QueryTimeouts) (c : QueryControls) (d : Deadline) : Prop :=
  exists token, rtc step (arm token t c) d.
End Deadline.
Import Deadline.

(** ** The invariant *)

Record deadline_inv (t : Timeout.QueryTimeouts) (c : QueryControls) (d : Deadline) : Prop := {
  di_effective : effective_ms d = Timeout.effective t (timeout_ms c);
  di_max : max_ms d = Timeout.max_ms t;
  di_expired : expired d = true -> (effective_ms d <= elapsed d)%N /\
                                   (watcher d = Flagged \/ watcher d = Finished);
  di_flagged : watcher d = Flagged -> expired d = true;
  di_finished : watcher d = Finished -> token d = true /\
                  (expired d = true \/ external d = Some true);
  di_aborted : watcher d = Aborted -> dropped d = true;
  di_dropped : dropped d = true -> token d = true;
  di_external : external d = None <-> cancel c = None;
}.

Lemma step_deadline_inv t c d d' : step d d' -> deadline_inv t c d -> deadline_inv t c d'.
Proof.
  intros Hs [He Hm Hx Hf Hd Ha Hdr Hext]. destruct Hs as [d d' Hw|d ms|d|d|d Hnd].
  - destruct Hw as [d Hw Hle|d Hw|d Hw Hc]; split; simpl; try done; try naive_solver.

  - split; simpl; try done. intros Hexp. destruct (Hx Hexp). split; [lia|done].
  - split; simpl; try done; destruct (external d); naive_solver.
  - split; simpl; try done; naive_solver.
  - split; simpl; try done; destruct (watcher d); naive_solver.
Qed.

Lemma reachable_deadline_inv t c d : reachable t c d -> deadline_inv t c d.
Proof.
  intros [tok Hr]. assert (Hi : deadline_inv t c (arm tok t c)) by (by split).
  revert Hi. generalize (arm tok t c) Hr. clear.
  induction 1 as [|d1 d2 d3 Hs _ IH]; [done|]. intros Hi. by eapply IH, step_deadline_inv.
Qed.

Lemma from_engine_timeout_kind e :
  kind (Agent.from_engine e) = Kind.QueryTimeout -> e = EngineError.Timeout.
Proof. by destruct e as [| | | | |? []| | | | | | | | |]. Qed.

(** ** Properties *)

(** an interrupt is reported as a timeout exactly when the timer fired,
    which is never before the effective deadline, and the report names the
    applied deadline and the ceiling; a watcher that ended on the caller's
    cancel leaves the error a cancellation. *)
Theorem classify_spec t c d :
  reachable t c d ->
  (forall e, kind (classify d e) = Kind.QueryTimeout <->
     (e = EngineError.Cancelled /\ expired d = true) \/ e = EngineError.Timeout) /\
  (expired d = true ->
     (Timeout.effective t (timeout_ms c) <= elapsed d)%N /\
     classify d EngineError.Cancelled =
       Agent.query_timeout (Timeout.effective t (timeout_ms c)) (Timeout.max_ms t)) /\
  (watcher d = Finished -> expired d = false ->
     external d = Some true /\ kind (classify d EngineError.Cancelled) = Kind.QueryCancelled).
Proof.
  intros [He Hm Hx Hf Hd _ _ _]%reachable_deadline_inv. split; [|split].
  - intros e. split.
    + unfold classify. destruct e; try (intros Hk%from_engine_timeout_kind; by auto).
      destruct (expired d); [by auto|]. by intros Hk%from_engine_timeout_kind.
    + intros [[-> Hexp]| ->]; [|done]. unfold classify. rewrite Hexp.
      unfold Agent.query_timeout. by case_match.
  - intros Hexp. rewrite <- He, <- Hm. split; [by apply Hx|]. unfold classify. by rewrite Hexp.
  - intros Hw Hexp. destruct (Hd Hw) as [_ [?|?]]; [congruence|]. split; [done|].
    unfold classify. by rewrite Hexp.
Qed.

(** An execution at least [n] steps of which are the watcher's, the others anybody's. *)
Inductive watched : nat -> Deadline -> Deadline -> Prop :=
| watched_done d : watched 0 d d
| watched_watcher n d d' d'' : wstep d d' -> watched n d' d'' -> watched (S n) d d''
| watched_any n d d' d'' : step d d' -> watched n d' d'' -> watched n d d''.

(** How many steps the watcher has left. *)
Definition steps_left (d : Deadline) : nat :=
  match watcher d with Waiting => 2 | Flagged => 1 | Finished | Aborted => 0 end.

Lemma wstep_steps_left d d' : wstep d d' -> steps_left d' < steps_left d.
Proof. destruct 1 as [d Hw|d Hw|d Hw]; unfold steps_left; rewrite Hw; cbn; lia. Qed.

Lemma step_steps_left d d' : step d d' -> steps_left d' <= steps_left d.
Proof.
  destruct 1 as [d d' Hw| | | |]; [apply wstep_steps_left in Hw; lia|done..|].
  unfold steps_left. cbn. destruct (watcher d); lia.
Qed.

Lemma watched_left n d d' : watched n d d' -> n + steps_left d' <= steps_left d.
Proof.
  induction 1 as [d|n d d' d'' Hw _ IH|n d d' d'' Hs _ IH]; [done| |].
  - apply wstep_steps_left in Hw. lia.
  - apply step_steps_left in Hs. lia.
Qed.

Lemma watched_invariant t c n d d' : watched n d d' -> deadline_inv t c d -> deadline_inv t c d'.
Proof.
  induction 1 as [d|n d d' d'' Hw _ IH|n d d' d'' Hs _ IH]; [done|..]; intros Hi; apply IH.
  - eapply step_deadline_inv; [by apply step_watcher|done].
  - by eapply step_deadline_inv.
Qed.

Lemma watched_elapsed n d d' : watched n d d' -> (elapsed d <= elapsed d')%N.
Proof.
  assert (Hs : forall d d', step d d' -> (elapsed d <= elapsed d')%N).
  { intros x y Hs. destruct Hs as [x y Hw| | | |]; [destruct Hw|..]; cbn; lia. }
  induction 1 as [d|n d d' d'' Hw _ IH|n d d' d'' Hst _ IH]; [done|..].
  - apply step_watcher, Hs in Hw. lia.
  - apply Hs in Hst. lia.
Qed.

(** C29: no statement outlives its deadline.  From the moment it is reached, whatever
    everybody else does in between, the watcher has a step to take as long as the token
    is not cancelled, it never takes more than two, and after two the token is cancelled;
    a guard that was dropped has cancelled it already; and where the timer's step cancels,
    the flag was set before. *)
Theorem deadline_enforced t c d :
  reachable t c d -> (Timeout.effective t (timeout_ms c) <= elapsed d)%N ->
  (forall n d', watched n d d' ->
     n <= 2 /\ (n = 2 -> token d' = true) /\
     (token d' = false -> exists d'', wstep d' d'')) /\
  (dropped d = true -> token d = true) /\
  (forall d', wstep d d' -> token d = false -> token d' = true -> external d <> Some true ->
     expired d = true).
Proof.
  intros Hi%reachable_deadline_inv Hle. pose proof Hi as [He _ _ Hf _ _ Hdr _].
  split; [|split; [exact Hdr|]].
  - intros n d' Hr. pose proof (watched_left _ _ _ Hr) as Hn. pose proof (watched_elapsed _ _ _ Hr) as Ht.
    destruct (watched_invariant _ _ _ _ _ Hr Hi) as [He' _ _ _ Hd' Ha' Hdr' _].
    assert (Hdone : steps_left d' = 0 -> token d' = true).
    { unfold steps_left. destruct (watcher d'); try done; intros _; [by apply Hd'|by apply Hdr', Ha']. }
    assert (steps_left d <= 2) by (unfold steps_left; destruct (watcher d); lia).
    split_and!; [lia|intros ->; apply Hdone; lia|]. intros Htok.
    destruct (watcher d') eqn:Hw.
    + eexists. apply w_timer; [done|lia].
    + eexists. by apply w_timer_cancel.
    + by rewrite Hdone in Htok by (unfold steps_left; by rewrite Hw).
    + by rewrite Hdone in Htok by (unfold steps_left; by rewrite Hw).
  - intros d' Hw Ht Ht' Hext. destruct Hw; simpl in *; [congruence|by apply Hf|done].
Qed.

(** a cancel that lands first can still be reported as a timeout: neither a
    cancel from elsewhere nor the caller's own stops the timer arm from being
    taken later, as long as the watcher has not run in between. *)
Theorem cancel_reported_as_timeout :
  exists t c d d', Timeout.wf t /\ reachable t c d /\ rtc step d d' /\
    token d = true /\ external d = Some true /\ expired d = false /\
    (elapsed d < effective_ms d)%N /\
    kind (classify d EngineError.Cancelled) = Kind.QueryCancelled /\
    kind (classify d' EngineError.Cancelled) = Kind.QueryTimeout.
Proof.
  set (c := with_cancel none false).
  set (d := set_token (caller_cancels (arm false Timeout.default c)) Waiting).
  exists Timeout.default, c, d, (set_flag (wait 30000 d)).
  split; [by vm_compute|]. split.
  - exists false. eapply rtc_l; [apply step_caller|]. apply rtc_once.
    apply (step_other (caller_cancels (arm false Timeout.default c))).
  - split; [|by vm_compute]. eapply rtc_l; [apply step_wait|].
    apply rtc_once, step_watcher, w_timer; [done|by vm_compute].
Qed.

(** ** Witnesses *)

Definition at_deadline : Deadline := wait 30000 (arm false Timeout.default none).

Lemma reachable_at_deadline : reachable Timeout.default none at_deadline.
Proof. exists false. apply rtc_once, step_wait. Qed.

Lemma reachable_timed_out : reachable Timeout.default none (set_flag at_deadline).
Proof.
  exists false. eapply rtc_l; [apply step_wait|].
  apply rtc_once, step_watcher, w_timer; [done|by vm_compute].
Qed.

Lemma classify_spec_witness :
  classify (set_flag at_deadline) EngineError.Cancelled = Agent.query_timeout 30000 300000.
Proof.
  apply (classify_spec Timeout.default none (set_flag at_deadline) reachable_timed_out).
  reflexivity.
Defined.

Lemma deadline_enforced_witness :
  token (set_token (set_flag (wait 5 at_deadline)) Finished) = true /\
  exists d', wstep at_deadline d'.
Proof.
  destruct (deadline_enforced Timeout.default none at_deadline reachable_at_deadline
              ltac:(vm_compute; discriminate)) as [Hr _]. split.
  - assert (Hw : watched 2 at_deadline (set_token (set_flag (wait 5 at_deadline)) Finished)).
    { apply (watched_any 2 _ (wait 5 at_deadline)); [apply step_wait|].
      apply (watched_watcher 1 _ (set_flag (wait 5 at_deadline)));
        [apply w_timer; [reflexivity|vm_compute; discriminate]|].
      apply (watched_watcher 0 _ (set_token (set_flag (wait 5 at_deadline)) Finished));
        [by apply w_timer_cancel|apply watched_done]. }
    exact (proj1 (proj2 (Hr 2 _ Hw)) eq_refl).
  - exact (proj2 (proj2 (Hr 0 _ (watched_done at_deadline))) eq_refl).
Defined.
