(* ===== verification/Sql.v ===== *)
(** * Reading SQL text: routing and redaction

    Models [latiq-engine/src/sql.rs] ([classify], the read/write routing) and the
    SQL text helpers of [latiq-agent-core/src/ops.rs]: quoting, the dataset load
    statement and [redact_sql], the one redactor of the access trail and of the
    lineage records.  A scan over [chars().peekable()] is a recursion on the
    list of chars; the outer loops take the list's length as fuel. *)
From S2P Require Import Prelude.
#[local] Arguments String.append !_ _ / : simpl nomatch.

(** ** Classification *)

Module Sql.
Inductive SqlShape := Read | Write | Unrecognized.

#[export] Instance SqlShape_eq_dec : EqDecision SqlShape.
Proof. solve_decision. Defined.

Definition READ_KEYWORDS : list string :=
  ["select"; "with"; "describe"; "show"; "explain"; "pragma"; "from"; "table"; "values"].

Definition WRITE_KEYWORDS : list string :=
  [" insert "; " update "; " delete "; " create "; " drop "; " alter "; " truncate ";
   " attach "; " detach "; " copy "; " call "; " install "; " load "; " replace ";
   " analyze "; " vacuum "; " checkpoint "; " begin "; " commit "; " rollback ";
   " abort "; " start transaction "; " end transaction "].

Definition NON_READ_LEADING_KEYWORDS : list string :=
  ["insert"; "update"; "delete"; "create"; "drop"; "alter"; "truncate"; "attach";
   "detach"; "copy"; "call"; "install"; "load"; "replace"; "analyze"; "vacuum";
   "checkpoint"; "begin"; "commit"; "rollback"; "abort"; "start"; "end"; "set"; "reset";
   "use"; "comment"; "export"; "import"; "merge"; "grant"; "revoke"].

(** The first non-empty word, words ending at a blank, [(] or [;]. *)
Definition leads_with_a_non_read_keyword (lowered : string) : bool :=
  let first := default EmptyString
    (find (fun w => negb (String.eqb w EmptyString))
       (split_pred (fun c => is_whitespace c || String.eqb c "(" || String.eqb c ";") lowered)) in
  existsb (String.eqb first) NON_READ_LEADING_KEYWORDS.

(** [replace] of each of the separators by a blank. *)
Definition separator (b : ascii) : bool :=
  existsb (Ascii.eqb b) ["010"; "009"; "("; ")"; ","; ";"]%char.

Fixpoint blank_separators (s : string) : string :=
  match s with
  | EmptyString => EmptyString
  | String b s => String (if separator b then " " else b) (blank_separators s)
  end.

Definition classify (sql : string) : SqlShape :=
  let s := to_lowercase (trim_start sql) in
  let starts_read := existsb (fun k => starts_with k s) READ_KEYWORDS in
  if negb starts_read then
    if leads_with_a_non_read_keyword s then Write else Unrecognized
  else
    let normalized := " " +:+ blank_separators s +:+ " " in
    if existsb (fun w => str_contains w normalized) WRITE_KEYWORDS then Write else Read.

Definition is_read_only (sql : string) : bool := bool_decide (classify sql = Read).
End Sql.
#[export] Existing Instance Sql.SqlShape_eq_dec.

(** ** Quoting *)

Module Quote.
Definition quote_ident (name : string) : string :=
  dq +:+ replace_ascii "034" (dq +:+ dq) name +:+ dq.

Definition create_schema_sql (schema : string) : string :=
  "CREATE SCHEMA IF NOT EXISTS " +:+ quote_ident schema.

Definition reader_of (source_uri format : string) : string :=
  let f := to_lowercase (trim format) in
  if String.eqb f "csv" then "read_csv_auto"
  else if String.eqb f "json" then "read_json_auto"
  else if String.eqb f "parquet" then "read_parquet"
  else
    let u := to_lowercase source_uri in
    if ends_with ".csv" u then "read_csv_auto"
    else if ends_with ".json" u || ends_with ".ndjson" u then "read_json_auto"
    else "read_parquet".

Definition dataset_load_sql (schema table_name source_uri format : string) : string :=
  let reader := reader_of source_uri format in
  let table := quote_ident schema +:+ "." +:+ quote_ident table_name in
  let uri := replace_ascii "'" "''" source_uri in
  "CREATE OR REPLACE TABLE " +:+ table +:+ " AS SELECT * FROM " +:+ reader +:+ "('" +:+ uri +:+ "')".
End Quote.

(** ** Redaction *)

Module Redact.
Definition PARAMETERISED_TYPES : list string :=
  ["DECIMAL"; "DEC"; "NUMERIC"; "VARCHAR"; "NVARCHAR"; "CHAR"; "CHARACTER"; "VARYING";
   "BPCHAR"; "TEXT"; "STRING"; "TIMESTAMP"; "DATETIME"; "BIT"; "BITSTRING"; "FLOAT"].

Definition is_parameterised_type (word : list string) : bool :=
  existsb (eq_ignore_ascii_case (str_concat word)) PARAMETERISED_TYPES.

(** The rest after a literal whose opening quote was read; two quotes are one
    of its characters. *)
Fixpoint skip_literal (l : list string) : list string :=
  match l with
  | [] => []
  | n :: l' =>
      if String.eqb n "'" then
        match l' with
        | [] => []
        | m :: l'' => if String.eqb m "'" then skip_literal l'' else l'
        end
      else skip_literal l'
  end.

(** The same literal copied, with the rest. *)
Fixpoint copy_literal (l : list string) : list string * list string :=
  match l with
  | [] => ([], [])
  | n :: l' =>
      if String.eqb n "'" then
        match l' with
        | [] => ([n], [])
        | m :: l'' =>
            if String.eqb m "'" then
              let (c, r) := copy_literal l'' in (n :: m :: c, r)
            else ([n], l')
        end
      else let (c, r) := copy_literal l' in (n :: c, r)
  end.

(** To the end of the line, which is kept. *)
Fixpoint skip_line (l : list string) : list string :=
  match l with
  | [] => []
  | n :: l' => if String.eqb n nl then l else skip_line l'
  end.

Fixpoint skip_block (star : bool) (l : list string) : list string :=
  match l with
  | [] => []
  | n :: l' => if star && String.eqb n "/" then l' else skip_block (String.eqb n "*") l'
  end.

Definition peek (c : string) (l : list string) : bool :=
  match l with
  | n :: _ => String.eqb n c
  | [] => false
  end.

Fixpoint strip_loop (fuel : nat) (l : list string) : list string :=
  match fuel, l with
  | S fuel, c :: l' =>
      if String.eqb c "'" then
        let (lit, r) := copy_literal l' in c :: lit ++ strip_loop fuel r
      else if String.eqb c "-" && peek "-" l' then
        match skip_line l' with
        | [] => []
        | n :: r => n :: strip_loop fuel r
        end
      else if String.eqb c "/" && peek "*" l' then
        " " :: strip_loop fuel (skip_block false (tail l'))
      else c :: strip_loop fuel l'
  | _, _ => []
  end.

Definition strip_chars (l : list string) : list string := strip_loop (length l) l.

Definition strip_sql_comments (sql : string) : string := str_concat (strip_chars (chars sql)).

Record Scan := {
  prev_ident : bool;
  word : list string;
  type_word_pending : bool;
  in_type_params : bool;
}.

Definition start : Scan :=
  {| prev_ident := false; word := []; type_word_pending := false; in_type_params := false |}.

(** After a collapsed literal. *)
Definition collapsed (st : Scan) : Scan :=
  {| prev_ident := false; word := []; type_word_pending := false;
     in_type_params := in_type_params st |}.

Definition in_number (c : string) : bool := is_ascii_digit c || String.eqb c ".".

Definition is_ident_char (c : string) : bool := is_ascii_alphanumeric c || String.eqb c "_".

(** The [other] arm: what a char that is emitted does to the scan. *)
Definition emit (c : string) (st : Scan) : Scan :=
  if is_ident_char c then
    {| prev_ident := true; word := word st ++ [c];
       type_word_pending := type_word_pending st; in_type_params := in_type_params st |}
  else
    let pending := if bool_decide (word st = []) then type_word_pending st
                   else is_parameterised_type (word st) in
    if String.eqb c "(" then
      {| prev_ident := false; word := []; type_word_pending := false;
         in_type_params := pending |}
    else if String.eqb c ")" then
      {| prev_ident := false; word := []; type_word_pending := false;
         in_type_params := false |}
    else
      {| prev_ident := false; word := [];
         type_word_pending := if is_whitespace c then pending else false;
         in_type_params := in_type_params st |}.

Fixpoint redact_loop (fuel : nat) (st : Scan) (l : list string) : list string :=
  match fuel, l with
  | S fuel, c :: l' =>
      if String.eqb c "'" then "?" :: redact_loop fuel (collapsed st) (skip_literal l')
      else if is_ascii_digit c && negb (prev_ident st) && negb (in_type_params st) then
        "?" :: redact_loop fuel (collapsed st) (skip_while in_number l')
      else c :: redact_loop fuel (emit c st) l'
  | _, _ => []
  end.

Definition redact_chars (l : list string) : list string :=
  let decommented := strip_chars l in redact_loop (length decommented) start decommented.

Definition redact_sql (sql : string) : string := str_concat (redact_chars (chars sql)).
End Redact.
