(* ===== verification/SqlSpec.v ===== *)
(** * What the SQL readers guarantee

    The routing decision in terms of words, the quoting of names and URIs
    against SQL's own quoting rule, and what redaction hides. *)
From S2P Require Import Prelude Sql.
Import Sql Quote Redact.
#[local] Arguments String.append !_ _ / : simpl nomatch.

(** ** Words *)

Fixpoint prefixed (l : list string) : string :=
  match l with
  | [] => EmptyString
  | x :: l => " " +:+ x +:+ prefixed l
  end.

Lemma prefixed_app l k : prefixed (l ++ k) = prefixed l +:+ prefixed k.
Proof. induction l as [|x l IH]; simpl; [done|]. by rewrite IH, str_app_assoc. Qed.

Lemma prefixed_split s : prefixed (split_byte " " s) = " " +:+ s.
Proof.
  induction s as [|b s IH]; [done|]. cbn [split_byte].
  destruct (Ascii.eqb_spec " " b) as [<-|_]; [cbn [prefixed]; by rewrite IH|].
  destruct (split_byte " " s) as [|h t] eqn:E; [by destruct (split_byte_ne_nil " " s)|].
  simpl in *. injection IH as IH. by rewrite <- IH.
Qed.

(** A padded keyword occurs in a padded text exactly when it is one of its words. *)
Lemma contains_word kw t :
  kw <> EmptyString -> no_byte " " kw ->
  str_contains (" " +:+ kw +:+ " ") (" " +:+ t +:+ " ") = true <-> kw ∈ split_byte " " t.
Proof.
  intros Hne Hn. rewrite str_contains_spec. split.
  - intros (l & r & Heq). apply (f_equal (split_byte " ")) in Heq.
    assert (HL : split_byte " " (" " +:+ t +:+ " ") = EmptyString :: split_byte " " t ++ [EmptyString]).
    { exact (f_equal (cons EmptyString) (split_byte_app_sep " " t EmptyString)). }
    assert (HR : split_byte " " (l +:+ (" " +:+ kw +:+ " ") +:+ r) =
                 split_byte " " l ++ [kw] ++ split_byte " " r).
    { etransitivity; [exact (split_byte_app_sep " " l ((kw +:+ " ") +:+ r))|]. f_equal.
      rewrite str_app_assoc. etransitivity; [exact (split_byte_app_sep " " kw r)|].
      by rewrite (split_byte_none _ kw). }
    rewrite HL, HR in Heq.
    assert (Hin : kw ∈ EmptyString :: split_byte " " t ++ [EmptyString]).
    { rewrite Heq, !elem_of_app. right. left. by left. }
    rewrite elem_of_cons, elem_of_app, list_elem_of_singleton in Hin. naive_solver.
  - intros (a & b & Hs)%list_elem_of_split.
    assert (Ht : " " +:+ t = prefixed a +:+ " " +:+ kw +:+ prefixed b).
    { rewrite <- prefixed_split, Hs, prefixed_app. done. }
    assert (Hb : exists r, prefixed b +:+ " " = " " +:+ r).
    { destruct b as [|x b]; [by exists EmptyString|]. simpl. by eexists. }
    destruct Hb as [r Hr]. exists (prefixed a), r. rewrite <- str_app_assoc, Ht.
    rewrite !str_app_assoc, Hr. done.
Qed.

Definition words (s : string) : list string := split_byte " " (blank_separators s).

(** The keywords that are one word. *)
Definition SINGLE : list string :=
  ["insert"; "update"; "delete"; "create"; "drop"; "alter"; "truncate"; "attach"; "detach";
   "copy"; "call"; "install"; "load"; "replace"; "analyze"; "vacuum"; "checkpoint"; "begin";
   "commit"; "rollback"; "abort"].

Definition PHRASES : list string := [" start transaction "; " end transaction "].

Lemma WRITE_KEYWORDS_split :
  WRITE_KEYWORDS = map (fun k => " " +:+ k +:+ " ") SINGLE ++ PHRASES.
Proof. reflexivity. Qed.

(** ** Quoting *)

(** SQL's rule for a quoted token whose opening quote was read. *)
Fixpoint lex_quoted (q : ascii) (s : string) : option (string * string) :=
  match s with
  | EmptyString => None
  | String b s' =>
      if Ascii.eqb b q then
        match s' with
        | String c s'' =>
            if Ascii.eqb c q then
              match lex_quoted q s'' with
              | Some (t, r) => Some (String q t, r)
              | None => None
              end
            else Some (EmptyString, s')
        | EmptyString => Some (EmptyString, EmptyString)
        end
      else
        match lex_quoted q s' with
        | Some (t, r) => Some (String b t, r)
        | None => None
        end
  end.

Definition not_quote (q : ascii) (s : string) : Prop :=
  match s with String b _ => Ascii.eqb b q = false | EmptyString => True end.

Lemma lex_quoted_escaped q t rest :
  not_quote q rest ->
  lex_quoted q (replace_ascii q (String q (String q EmptyString)) t +:+ String q rest) =
    Some (t, rest).
Proof.
  intros Hr. induction t as [|b t IH]; cbn [replace_ascii].
  - simpl. rewrite Ascii.eqb_refl. destruct rest as [|c rest]; [done|]. simpl in Hr. by rewrite Hr.
  - destruct (Ascii.eqb_spec q b) as [<-|Hne].
    + simpl. rewrite !Ascii.eqb_refl. simpl in IH. by rewrite IH.
    + simpl. destruct (Ascii.eqb_spec b q); [congruence|]. by rewrite IH.
Qed.

(** ** Redaction: emitting is scanning *)

Lemma collapsed_emit st : collapsed st = emit "?" st.
Proof. reflexivity. Qed.

(** A digit may stay where the scan has it inside a name or a type. *)
Definition hidden_ok (st : Scan) (c : string) : Prop :=
  c <> "'" /\ (is_ascii_digit c = true -> prev_ident st || in_type_params st = true).

Fixpoint well_redacted (st : Scan) (out : list string) : Prop :=
  match out with
  | [] => True
  | c :: out => hidden_ok st c /\ well_redacted (emit c st) out
  end.

(** *** Fuel

    Each round of a loop reads a character, so the length of the text is enough
    fuel: any two amounts past it agree. *)

Fixpoint skip_literal_length l : length (skip_literal l) <= length l.
Proof.
  destruct l as [|n l]; [done|]. simpl. destruct (String.eqb n "'").
  - destruct l as [|m l]; [simpl; lia|]. destruct (String.eqb m "'"); [|simpl; lia].
    pose proof (skip_literal_length l). simpl. lia.
  - pose proof (skip_literal_length l). lia.
Qed.

Fixpoint copy_literal_length l : length (copy_literal l).2 <= length l.
Proof.
  destruct l as [|n l]; [done|]. simpl. destruct (String.eqb n "'").
  - destruct l as [|m l]; [simpl; lia|]. destruct (String.eqb m "'"); [|simpl; lia].
    pose proof (copy_literal_length l). destruct (copy_literal l). simpl in *. lia.
  - pose proof (copy_literal_length l). destruct (copy_literal l). simpl in *. lia.
Qed.

Lemma skip_line_length l : length (skip_line l) <= length l.
Proof. induction l as [|n l IH]; simpl; [done|]. destruct (String.eqb n nl); simpl; lia. Qed.

Lemma skip_block_length b l : length (skip_block b l) <= length l.
Proof.
  revert b. induction l as [|n l IH]; intros b; simpl; [done|].
  destruct (b && String.eqb n "/"); [lia|]. specialize (IH (String.eqb n "*")). lia.
Qed.

Lemma skip_while_length {A} (p : A -> bool) l : length (skip_while p l) <= length l.
Proof. induction l as [|x l IH]; simpl; [done|]. destruct (p x); simpl; lia. Qed.

Lemma redact_loop_fuel n m st l :
  length l <= n -> length l <= m -> redact_loop n st l = redact_loop m st l.
Proof.
  revert m st l. induction n as [|n IH]; intros [|m] st [|c l]; simpl; intros Hn Hm;
    try done; try lia.
  pose proof (skip_literal_length l). pose proof (skip_while_length in_number l).
  repeat case_match; f_equal; apply IH; lia.
Qed.

Lemma strip_loop_fuel n m l :
  length l <= n -> length l <= m -> strip_loop n l = strip_loop m l.
Proof.
  revert m l. induction n as [|n IH]; intros [|m] [|c l]; simpl; intros Hn Hm;
    try done; try lia.
  pose proof (copy_literal_length l). pose proof (skip_line_length l).
  pose proof (skip_block_length false (tail l)).
  assert (length (tail l) <= length l) by (destruct l; simpl; lia).
  destruct (copy_literal l), (skip_line l); simpl in *;
    repeat case_match; simplify_eq;
    repeat match goal with
    | |- ?x :: _ = ?x :: _ => f_equal
    | |- ?x ++ _ = ?x ++ _ => f_equal
    end; try done; apply IH; simpl in *; lia.
Qed.

Lemma redact_loop_well fuel st l : well_redacted st (redact_loop fuel st l).
Proof.
  revert st l. induction fuel as [|fuel IH]; intros st [|c l]; simpl; try done.
  destruct (String.eqb_spec c "'") as [|Hq]; [by split; [split|rewrite <- collapsed_emit]|].
  destruct (is_ascii_digit c) eqn:Hd; simpl.
  - destruct (prev_ident st) eqn:Hp, (in_type_params st) eqn:Ht; simpl;
      (split; [split; [done|]|apply IH]); rewrite ?Hp, ?Ht; done.
  - split; [split; [done|congruence]|apply IH].
Qed.

Lemma well_redacted_split st p c q :
  well_redacted st (p ++ c :: q) -> hidden_ok (foldl (fun s c => emit c s) st p) c.
Proof. revert st. induction p as [|x p IH]; intros st; simpl; [tauto|]. intros [_ ?]. by apply IH. Qed.

(** ** Redaction: text as tokens *)

Inductive Tok :=
| Lit (content : list string)
| Line (text : list string)
| Block (text : list string)
| Ch (c : string).

Definition esc (x : list string) : list string :=
  flat_map (fun c => if String.eqb c "'" then ["'"; "'"] else [c]) x.

Definition render_tok (t : Tok) : list string :=
  match t with
  | Lit x => "'" :: esc x ++ ["'"]
  | Line x => "-" :: "-" :: x ++ [nl]
  | Block x => "/" :: "*" :: x ++ ["*"; "/"]
  | Ch c => [c]
  end.

Definition render (ts : list Tok) : list string := flat_map render_tok ts.

(** A text is read as these tokens: literals are not glued, comments end where
    they are shown to, and no single char starts a literal or a comment. *)
Definition fits (t : Tok) (rest : list string) : Prop :=
  match t with
  | Lit _ => peek "'" rest = false
  | Line x => nl ∉ x
  | Block x => skip_block false (x ++ ["*"; "/"]) = []
  | Ch c => c <> "'" /\ (c = "-" -> peek "-" rest = false) /\ (c = "/" -> peek "*" rest = false)
  end.

Fixpoint tokens_wf (ts : list Tok) : Prop :=
  match ts with
  | [] => True
  | t :: ts => fits t (render ts) /\ tokens_wf ts
  end.

Definition same_shape (t u : Tok) : Prop :=
  match t, u with
  | Lit _, Lit _ | Line _, Line _ | Block _, Block _ => True
  | Ch c, Ch d => c = d
  | _, _ => False
  end.

Lemma copy_literal_esc x rest :
  peek "'" rest = false -> copy_literal (esc x ++ "'" :: rest) = (esc x ++ ["'"], rest).
Proof.
  intros Hr. induction x as [|c x IH]; simpl.
  - destruct rest as [|m rest]; [done|]. simpl in Hr. by rewrite Hr.
  - destruct (String.eqb_spec c "'") as [->|Hc]; simpl.
    + by rewrite IH.
    + rewrite (proj2 (String.eqb_neq _ _) Hc). by rewrite IH.
Qed.

Lemma skip_literal_esc x rest :
  peek "'" rest = false -> skip_literal (esc x ++ "'" :: rest) = rest.
Proof.
  intros Hr. induction x as [|c x IH]; simpl.
  - destruct rest as [|m rest]; [done|]. simpl in Hr. by rewrite Hr.
  - destruct (String.eqb_spec c "'") as [->|Hc]; simpl; [done|].
    by rewrite (proj2 (String.eqb_neq _ _) Hc).
Qed.

Lemma skip_line_text x rest : nl ∉ x -> skip_line (x ++ nl :: rest) = nl :: rest.
Proof.
  induction x as [|c x IH]; [done|]. cbn [app skip_line].
  rewrite not_elem_of_cons. intros [Hc Hx]. rewrite (proj2 (String.eqb_neq _ _)) by congruence.
  by apply IH.
Qed.

Lemma skip_block_text b x rest :
  skip_block b (x ++ ["*"; "/"]) = [] -> skip_block b (x ++ "*" :: "/" :: rest) = rest.
Proof.
  revert b. induction x as [|c x IH]; intros b; simpl.
  - destruct b; simpl; done.
  - destruct (b && String.eqb c "/"); [by destruct x|]. apply IH.
Qed.

(** What stripping leaves of a token. *)
Definition strip_tok (t : Tok) : Tok :=
  match t with
  | Line _ => Ch nl
  | Block _ => Ch " "
  | t => t
  end.

Lemma strip_loop_render fuel ts :
  length (render ts) <= fuel -> tokens_wf ts ->
  strip_loop fuel (render ts) = render (map strip_tok ts).
Proof.
  revert fuel. induction ts as [|t ts IH]; intros fuel Hf Hwf; [by destruct fuel|].
  destruct Hwf as [Hfit Hwf]. cbn [render flat_map] in Hf. rewrite length_app in Hf.
  fold (render ts) in Hf. cbn [render flat_map map]. fold (render ts).
  fold (render (map strip_tok ts)).
  destruct t as [x|x|x|c]; cbn [render_tok strip_tok app] in *; simpl length in Hf;
    (destruct fuel as [|fuel]; [lia|]); cbn [strip_loop].
  - rewrite <- app_assoc. cbn [app String.eqb Ascii.eqb Bool.eqb].
    rewrite copy_literal_esc by done. rewrite length_app in Hf. simpl in Hf.
    by rewrite IH by (done || lia).
  - cbn [String.eqb Ascii.eqb Bool.eqb andb peek skip_line]. simpl.
    rewrite <- app_assoc. cbn [app]. rewrite skip_line_text by done.
    rewrite length_app in Hf. simpl in Hf. by rewrite IH by (done || lia).
  - simpl. rewrite <- app_assoc. cbn [app]. rewrite skip_block_text by done.
    rewrite length_app in Hf. simpl in Hf. by rewrite IH by (done || lia).
  - destruct Hfit as (Hq & Hd & Hs). rewrite (proj2 (String.eqb_neq _ _) Hq).
    simpl in Hf.
    destruct (String.eqb_spec c "-") as [->|]; [rewrite Hd by done|]; simpl;
      [by rewrite IH by (done || lia)|].
    destruct (String.eqb_spec c "/") as [->|]; [rewrite Hs by done|]; simpl;
      by rewrite IH by (done || lia).
Qed.

(** Stripped text: literals and single chars. *)
Fixpoint plain (ts : list Tok) : Prop :=
  match ts with
  | [] => True
  | Lit _ :: ts => peek "'" (render ts) = false /\ plain ts
  | Ch c :: ts => c <> "'" /\ plain ts
  | _ :: _ => False
  end.

Lemma peek_strip ts : peek "'" (render (map strip_tok ts)) = peek "'" (render ts).
Proof. by destruct ts as [|[] ts]. Qed.

Lemma plain_strip ts : tokens_wf ts -> plain (map strip_tok ts).
Proof.
  induction ts as [|t ts IH]; simpl; [done|]. intros [Hf Hwf].
  destruct t; simpl in *; (split; [|by apply IH]); [by rewrite peek_strip|done|done|by apply Hf].
Qed.

Lemma same_shape_strip ts us :
  Forall2 same_shape ts us -> Forall2 same_shape (map strip_tok ts) (map strip_tok us).
Proof. induction 1 as [|[] [] ts us Hs _ IH]; simpl in *; try done; by constructor. Qed.

(** The rest of a number, token by token. *)
Fixpoint drop_number (ts : list Tok) : list Tok :=
  match ts with
  | Ch c :: ts' => if in_number c then drop_number ts' else ts
  | _ => ts
  end.

Lemma skip_number_render ts :
  plain ts -> skip_while in_number (render ts) = render (drop_number ts).
Proof.
  induction ts as [|[x|x|x|c] ts IH]; simpl; try done. intros [_ Hp].
  destruct (in_number c); [by apply IH|done].
Qed.

Lemma plain_drop_number ts : plain ts -> plain (drop_number ts).
Proof.
  induction ts as [|[x|x|x|c] ts IH]; simpl; try done. intros [Hc Hp].
  destruct (in_number c); [by apply IH|done].
Qed.

Lemma drop_number_shorter ts : length (drop_number ts) <= length ts /\
  length (render (drop_number ts)) <= length (render ts).
Proof.
  induction ts as [|[x|x|x|c] ts [IH IH']]; simpl; try (split; lia).
  destruct (in_number c); simpl; lia.
Qed.

Lemma same_shape_drop_number ts us :
  Forall2 same_shape ts us -> Forall2 same_shape (drop_number ts) (drop_number us).
Proof.
  induction 1 as [|t u ts us Hs HF IH]; [constructor|].
  destruct t, u; simpl in *; try done; try (by constructor).
  subst. destruct (in_number _); [done|by constructor].
Qed.

(** Redaction sees the shape of the text and no more. *)
Lemma redact_loop_shape n ts us st f g :
  length ts <= n -> Forall2 same_shape ts us -> plain ts -> plain us ->
  length (render ts) <= f -> length (render us) <= g ->
  redact_loop f st (render ts) = redact_loop g st (render us).
Proof.
  revert ts us st f g. induction n as [|n IH]; intros ts us st f g Hn Hs Hp Hq Hf Hg.
  { destruct ts; [|simpl in Hn; lia]. inversion Hs; subst. by destruct f, g. }
  destruct Hs as [|t u ts us Htu Hs]; [by destruct f, g|]. simpl in Hn.
  cbn [render flat_map] in *. fold (render ts) (render us) in *.
  rewrite length_app in Hf, Hg.
  destruct t as [x|x|x|c], u as [y|y|y|d]; try done; cbn [render_tok] in *; simpl length in *;
    (destruct f as [|f]; [lia|]); (destruct g as [|g]; [lia|]).
  - rewrite length_app in Hf, Hg. simpl in Hf, Hg. destruct Hp as [Hp1 Hp2], Hq as [Hq1 Hq2].
    cbn [app redact_loop]. rewrite <- !app_assoc. cbn [app].
    rewrite !skip_literal_esc by done. simpl. f_equal. apply IH; (done || lia).
  - simpl in Htu. subst d. destruct Hp as [Hc Hp], Hq as [_ Hq]. cbn [app redact_loop].
    rewrite (proj2 (String.eqb_neq _ _) Hc).
    destruct (is_ascii_digit c && _ && _); f_equal; [|apply IH; (done || lia)].
    rewrite !skip_number_render by done.
    destruct (drop_number_shorter ts), (drop_number_shorter us).
    apply IH; try lia; [by apply same_shape_drop_number|by apply plain_drop_number..].
Qed.

(** ** Properties *)

(** the reads that routing lets through are the texts that begin with a read
    keyword and have none of the writing keywords as a word, words ending at a
    blank, a newline, a tab, a parenthesis, a comma or a semicolon. *)
Theorem classify_read_spec sql :
  let s := to_lowercase (trim_start sql) in
  classify sql = Read <->
    (exists k r, k ∈ READ_KEYWORDS /\ s = k +:+ r) /\
    (forall k, k ∈ SINGLE -> k ∉ words s) /\
    (forall p, p ∈ PHRASES -> str_contains p (" " +:+ blank_separators s +:+ " ") = false).
Proof.
  cbn zeta. unfold classify. set (s := to_lowercase _). cbv zeta.
  assert (Hr : existsb (fun k => starts_with k s) READ_KEYWORDS = true <->
               exists k r, k ∈ READ_KEYWORDS /\ s = k +:+ r).
  { rewrite existsb_exists. setoid_rewrite <- list_elem_of_In. setoid_rewrite starts_with_spec.
    naive_solver. }
  destruct (existsb _ READ_KEYWORDS); cbn [negb].
  2: { split; [by case_match|]. intros [Hk _]. by apply Hr in Hk. }
  rewrite WRITE_KEYWORDS_split, existsb_app.
  assert (Hs : existsb (fun w => str_contains w (" " +:+ blank_separators s +:+ " "))
                 (map (fun k => " " +:+ k +:+ " ") SINGLE) = true <->
               exists k, k ∈ SINGLE /\ k ∈ words s).
  { rewrite existsb_exists. setoid_rewrite in_map_iff. split.
    - intros (w & (k & <- & Hk) & Hw). exists k. split; [by apply list_elem_of_In|].
      apply contains_word in Hw; [done| |]; clear Hw; simpl in Hk; destruct_or! Hk; by subst.
    - intros (k & Hk & Hw). exists (" " +:+ k +:+ " "). apply list_elem_of_In in Hk.
      split; [by exists k|].
      apply contains_word; [| |done]; clear Hw; simpl in Hk; destruct_or! Hk; by subst. }
  assert (Hp : existsb (fun w => str_contains w (" " +:+ blank_separators s +:+ " ")) PHRASES
                 = true <->
               exists p, p ∈ PHRASES /\ str_contains p (" " +:+ blank_separators s +:+ " ") = true).
  { rewrite existsb_exists. by setoid_rewrite <- list_elem_of_In. }
  destruct (existsb _ (map _ _)); cbn [orb].
  { split; [done|]. intros (_ & Hno & _). destruct (proj1 Hs eq_refl) as (k & ? & ?).
    by destruct (Hno k). }
  destruct (existsb _ PHRASES).
  { split; [done|]. intros (_ & _ & Hno). destruct (proj1 Hp eq_refl) as (p & Hin & Hc).
    by rewrite (Hno p Hin) in Hc. }
  split; [|done]. intros _. split; [by apply Hr|]. split.
  - intros k Hk Hw. by apply diff_false_true, Hs; eauto.
  - intros p Hin. apply not_true_iff_false. intros Hc. by apply diff_false_true, Hp; eauto.
Qed.

(** routing reads a carriage return and a comment as part of a word, so a
    write joined to a read by either is classified as a read. *)
Theorem classify_misses_separators :
  let cr := of_bytes [13%N] in
  classify ("SELECT 1;" +:+ cr +:+ "INSERT" +:+ cr +:+ "INTO t VALUES (1)") = Read /\
  classify "SELECT 1;/**/INSERT/**/INTO t VALUES (1)" = Read /\
  classify "SELECT 1; INSERT INTO t VALUES (1)" = Write.
Proof. by vm_compute. Qed.

(** no name and no URI breaks out of the load statement: read with SQL's own
    quoting rule, the statement is made of the schema, the table and the URI
    exactly as they were given. *)
Theorem dataset_load_sql_injection_free schema table uri format :
  exists rest1 rest2,
    dataset_load_sql schema table uri format = "CREATE OR REPLACE TABLE " +:+ dq +:+ rest1 /\
    lex_quoted "034" rest1 = Some (schema, "." +:+ dq +:+ rest2) /\
    exists rest3, lex_quoted "034" rest2 =
      Some (table, " AS SELECT * FROM " +:+ reader_of uri format +:+ "('" +:+ rest3) /\
    lex_quoted "'" rest3 = Some (uri, ")").
Proof.
  unfold dataset_load_sql, quote_ident.
  set (e := fun t => replace_ascii "034" (dq +:+ dq) t).
  set (u := replace_ascii "'" "''" uri).
  set (tail := " AS SELECT * FROM " +:+ reader_of uri format +:+ "('" +:+ u +:+ "')").
  exists (e schema +:+ dq +:+ "." +:+ dq +:+ e table +:+ dq +:+ tail), (e table +:+ dq +:+ tail).
  split; [|split; [|exists (u +:+ "')"); split]].
  - unfold e, tail. by rewrite !str_app_assoc.
  - apply lex_quoted_escaped. done.
  - apply (lex_quoted_escaped "034" table tail). done.
  - apply (lex_quoted_escaped "'" uri ")"). done.
Qed.

(** whatever the text, its redaction has no quote, and a digit only inside a
    name or a type modifier. *)
Theorem redact_leaves_no_value l p c q :
  redact_chars l = p ++ c :: q ->
  c <> "'" /\
  (is_ascii_digit c = true ->
   let st := foldl (fun s c => emit c s) start p in prev_ident st || in_type_params st = true).
Proof.
  intros Hr. pose proof (redact_loop_well (length (strip_chars l)) start (strip_chars l)) as Hw.
  unfold redact_chars in Hr. rewrite Hr in Hw. by apply (well_redacted_split _ _ _ _ Hw).
Qed.

(** C30: in a statement whose every apostrophe belongs to a string literal or to a comment,
    and whose comments are closed, the contents of literals and comments never reach the
    redacted text: two such statements that differ in nothing else redact to the same.
    (An apostrophe in a quoted identifier is the known exception,
    [redact_leaks_after_quoted_identifier].) *)
Theorem redact_hides_literals ts us :
  tokens_wf ts -> tokens_wf us -> Forall2 same_shape ts us ->
  redact_chars (render ts) = redact_chars (render us).
Proof.
  intros Ht Hu Hs. unfold redact_chars, strip_chars. rewrite !strip_loop_render by done.
  apply (redact_loop_shape (length (map strip_tok ts))); [done| |by apply plain_strip..|done|done].
  by apply same_shape_strip.
Qed.

(** a quoted identifier that holds a quote turns the scan inside out: the
    literal after it is copied to the log as it is. *)
Theorem redact_leaks_after_quoted_identifier :
  redact_sql ("SELECT " +:+ dq +:+ "o'clock" +:+ dq +:+ " FROM t WHERE k = 'hunter two'") =
    "SELECT " +:+ dq +:+ "o?hunter two?".
Proof. by vm_compute. Qed.

(** ** Witnesses *)

Lemma redact_leaves_no_value_witness :
  redact_chars (chars "a1") = ["a"] ++ "1" :: [] /\
  prev_ident (foldl (fun s c => emit c s) start ["a"]) || false = true.
Proof.
  split; [reflexivity|].
  apply (redact_leaves_no_value (chars "a1") ["a"] "1" []); reflexivity.
Defined.

Definition secret (s : string) : list Tok :=
  map Ch (chars "SELECT ") ++ [Lit (chars s); Ch " "; Line (chars s)].

Lemma redact_hides_literals_witness :
  redact_chars (render (secret "it's me")) = redact_chars (render (secret EmptyString)).
Proof.
  apply redact_hides_literals.
  - vm_compute. repeat (split || intros || discriminate). set_solver.
  - vm_compute. repeat (split || intros || discriminate). set_solver.
  - repeat constructor.
Defined.
