(* ===== verification/Interfaces.v ===== *)
(** * What the agent operations rest on

    The neutral types of [latiq-agent-core/src/types.rs], [arrow.rs] and of
    [latiq-engine]/[latiq-storage], and the four traits [AgentOps] is composed
    of, each as a class over the state its implementation keeps: [ControlPlane],
    [PondStorage], [QueryEngine] and [Forwarder].  A call is a function of that
    state; a read returns a value, anything else the next state too.  [PondIds]
    and [Values] are what the code takes from the uuid, Arrow and JSON crates. *)
From S2P Require Import Prelude Errors Policy Common.

(** ** Neutral types *)

Module Types.
Record PondInfo := {
  pond_id : string;
  name : string;
  owner : string;
  created_at : string;
  policy_json : string;
  node_id : option string;
  node_endpoint : option string;
  tier : string;
  extensions : list string;
  description : string;
  lineage : bool;
}.

Record AllocateResult := { al_pond_id : string; al_pond_name : string }.

Record DatasetTableInfo := { table_name : string; source_uri : string; format : string }.

Record DatasetInfo := {
  ds_name : string;
  ds_description : string;
  ds_tags : list string;
  ds_tables : list DatasetTableInfo;
  ds_created_by : string;
  ds_created_at : string;
}.

Record CatalogInfo := {
  ca_name : string;
  ca_type : string;
  ca_params : gmap string string;
  ca_description : string;
  ca_tags : list string;
  ca_created_by : string;
  ca_created_at : string;
}.

Record LoadDatasetResult := { ld_dataset : string; ld_schema : string; ld_tables : list string }.

Record PullResult := { pl_catalog : string; pl_query : string }.

Record TableInfo := {
  ti_name : string;
  ti_columns : list (string * string);
  ti_row_count_estimate : N;
  ti_comment : option string;
}.

Record SchemaSummary := { tables : list TableInfo }.

Record DescribeResult := { dr_pond : PondInfo; dr_schema : SchemaSummary }.

Record ScanOp := {
  so_table : string;
  so_scan_type : string;
  so_estimated_rows_scanned : N;
  so_source : string;
}.

Record ExplainResult := {
  estimated_rows : N;
  scan_operations : list ScanOp;
  ex_warnings : list string;
  suggestions : list string;
  raw_plan : string;
}.

Record PondLocation := {
  catalog_uri : string;
  data_path : string;
  catalog_name : string;
  limits : option Tier.ResourceLimits;
  loc_extensions : list string;
  loc_lineage : bool;
  lineage_dir : string;
}.

(** A peer to delegate to: who it is, and where it is dialled. *)
Record Peer := { peer_node_id : string; endpoint : string }.
End Types.
Import Types.

(** ** The crates underneath *)

Class PondIds := {
  (** [Uuid::parse_str], to the id's canonical text. *)
  uuid_parse : string -> result string string;
}.

Class Values := {
  json : Type;
  json_null : json;
  batch : Type;
  (** Arrow's JSON writer, read back: one object per row. *)
  batch_objects : batch -> result (list (gmap string json)) string;
}.

Section values.
Context `{Values}.

Record QueryResult := { columns : list string; rows : list (list json); meta : Meta.QueryMeta }.

(** A streamed read, by what its consumer gets of it: the schema's column names,
    each batch or the error that ends the stream, and the meta if one is sent. *)
Record ArrowReadStream := {
  schema : list string;
  batches : list (result batch AgentError);
  stream_meta : option Meta.QueryMeta;
  stream_served_by : string;
  stream_traceparent : string;
}.

(** One page of the lineage trail; an event is an opaque JSON value. *)
Record LineagePage := {
  pg_pond_id : string;
  pg_pond_name : string;
  pg_lineage_dir : string;
  pg_events : list json;
  pg_limit_applied : N;
  pg_truncated : bool;
  pg_malformed_lines : N;
  pg_unreadable_files : N;
}.
End values.

(** ** The four traits *)

Class ControlPlane (C : Type) := {
  cp_create_pond : option string -> string -> string -> string -> list string -> bool ->
    C -> result PondInfo AgentError * C;
  cp_resolve_pond : string -> C -> result string AgentError;
  cp_pond_info : string -> C -> result PondInfo AgentError;
  cp_list_ponds : C -> result (list PondInfo) AgentError;
  cp_drop_pond : string -> C -> result unit AgentError * C;
  cp_list_datasets : string -> C -> result (list DatasetInfo) AgentError;
  cp_get_dataset : string -> C -> result DatasetInfo AgentError;
  cp_list_catalogs : string -> C -> result (list CatalogInfo) AgentError;
  cp_get_catalog : string -> C -> result CatalogInfo AgentError;
}.

(** What the operations rely on of a control plane.  [cp_fresh]: the next id it
    draws is nobody's name. *)
Class LawfulControlPlane (C : Type) `{ControlPlane C} := {
  cp_fresh : C -> Prop;
  cp_created : forall name owner pj tier exts lin c i c',
    cp_fresh c -> cp_create_pond name owner pj tier exts lin c = (Ok i, c') ->
    cp_pond_info (pond_id i) c' = Ok i /\ Types.owner i = owner /\ lineage i = lin;
  cp_refused : forall name owner pj tier exts lin c e c',
    cp_fresh c -> cp_create_pond name owner pj tier exts lin c = (Err e, c') ->
    forall ref, cp_pond_info ref c' = cp_pond_info ref c;
  cp_dropped : forall id c c',
    cp_drop_pond id c = (Ok tt, c') ->
    exists e, cp_pond_info id c' = Err e /\ kind e = Kind.PondNotFound;
  cp_undropped : forall id c e c',
    cp_drop_pond id c = (Err e, c') -> forall ref, cp_pond_info ref c' = cp_pond_info ref c;
}.

(** Keyed by pond id; an error is its text. *)
Class PondStorage (D : Type) := {
  st_ensure_pond : string -> bool -> D -> result PondLocation string * D;
  st_pond_location : string -> D -> result PondLocation string;
  st_drop_pond : string -> D -> result unit string * D;
}.

(** A blocking engine call: the outer error is the text of a task that died. *)
Definition Join (A : Type) := result A string.

(** What one streamed read did to its sink before it returned. *)
Record Produced `{Values} := {
  sent_schema : option (list string);
  sent_batches : list batch;
}.

(** [abort] is whether the operation's token is cancelled as the call starts. *)
Class QueryEngine `{Values} (E : Type) := {
  en_init_pond : PondLocation -> E -> Join (result unit EngineError) * E;
  en_read_query : PondLocation -> string -> bool -> E -> Join (result QueryResult EngineError) * E;
  en_write_query : PondLocation -> string -> Identity.Identity -> option string -> bool ->
    E -> Join (result QueryResult EngineError) * E;
  en_read_arrow : PondLocation -> string -> bool ->
    E -> (Produced * Join (result Meta.QueryMeta EngineError)) * E;
  en_explain_query : PondLocation -> string -> E -> Join (result ExplainResult EngineError) * E;
  en_plan_datasets : PondLocation -> string -> E -> option Meta.QueryMeta * E;
  en_describe_schema : PondLocation -> E -> Join (result SchemaSummary EngineError) * E;
  en_pull_catalog : PondLocation -> string -> string -> gmap string string -> string ->
    Identity.Identity -> option string -> E -> Join (result Meta.QueryMeta EngineError) * E;
  en_describe_catalog : PondLocation -> string -> string -> gmap string string ->
    E -> Join (result (list (string * string)) EngineError) * E;
  en_forget_pond : PondLocation -> E -> E;
}.

Class Forwarder `{Values} (F : Type) := {
  fw_read : Peer -> Identity.Identity -> string -> string -> option N ->
    F -> result QueryResult AgentError * F;
  fw_read_arrow : Peer -> Identity.Identity -> string -> string -> option N ->
    F -> result ArrowReadStream AgentError * F;
  fw_write : Peer -> Identity.Identity -> string -> string -> option N ->
    F -> result QueryResult AgentError * F;
  fw_explain : Peer -> Identity.Identity -> string -> string ->
    F -> result ExplainResult AgentError * F;
  fw_describe : Peer -> Identity.Identity -> string -> F -> result DescribeResult AgentError * F;
  fw_get_lineage : Peer -> Identity.Identity -> string -> N -> option string -> option string ->
    F -> result LineagePage AgentError * F;
  fw_drop_pond : Peer -> Identity.Identity -> string -> bool -> F -> result unit AgentError * F;
  fw_materialize_pond : Peer -> Identity.Identity -> string -> F -> result unit AgentError * F;
  fw_catalog_pull : Peer -> Identity.Identity -> string -> string -> string ->
    gmap string string -> F -> result PullResult AgentError * F;
  fw_catalog_describe : Peer -> Identity.Identity -> string -> string ->
    gmap string string -> F -> result (list (string * string)) AgentError * F;
}.

(** The lineage reader on the node's disk: [latiq_lineage::read_newest]. *)
Inductive ReadError := BadTimestamp (field value : string) | Io (m : string).

Record Page `{Values} := {
  events : list json;
  truncated : bool;
  malformed_lines : N;
  unreadable_files : N;
}.

Class LineageReader `{Values} (D : Type) := {
  read_newest : string -> N -> option string -> option string -> D -> Join (result Page ReadError);
}.
