(* ===== verification/Ops.v ===== *)
(** * AgentOps: the agent operations

    Models [latiq-agent-core/src/ops.rs]: every operation of [AgentOps] with its
    audit record, its metrics, its routing to the owning node and its use of the
    control plane, the storage, the engine and the peers (see [Interfaces]).

    An operation is a function of the node's [World].  A clock reading and
    whether a statement's timer fired are drawn from the world's two oracles;
    op ids and tokens are numbered.  A streamed read is modelled to its end: what
    its producer does after the schema is done when the operation returns.  The
    lineage writer of a pond is what was recorded through it. *)
From S2P Require Import Prelude Errors Policy Common Sql Inflight Deadline Interfaces.
Import Types.
#[local] Open Scope rust_scope.
#[local] Arguments String.append !_ _ / : simpl nomatch.

Inductive DurationMeaning := Completion | Establishment.

(** ** The node's state *)

Record QueryRecord := {
  q_identity : Identity.Identity;
  q_info : PondInfo;
  q_op : string;
  q_sql : string;
  q_duration_ms : N;
  q_meaning : DurationMeaning;
  q_error : option AgentError;
  q_meta : option Meta.QueryMeta;
}.

(** What the metrics registry was told, in order. *)
Inductive Metric :=
| QueriesTotal (pond op : string)
| ErrorsTotal (pond kind : string)
| QueryDuration (pond op : string)
| ForwardedTotal (op : string)
| InflightInc (pond : string)
| InflightDec (pond : string).

#[export] Instance Metric_eq_dec : EqDecision Metric.
Proof. solve_decision. Defined.

Record AgentConfig := { inline_row_cap : N; timeouts : Timeout.QueryTimeouts }.

Definition default_config : AgentConfig :=
  {| inline_row_cap := 10000; timeouts := Timeout.default |}.

(** The fields of [AgentOps] that do not change; [forwarder] is whether there
    is one. *)
Record Node := {
  config : AgentConfig;
  self_node_id : option string;
  self_endpoint : option string;
  forwarder : bool;
}.

Definition with_forwarding (n : Node) (node_id endpoint : string) : Node :=
  {| config := config n; self_node_id := Some node_id; self_endpoint := Some endpoint;
     forwarder := true |}.

Record World {C D E F : Type} := {
  cp : C;
  disk : D;
  engine : E;
  peers : F;
  inflight : Inflight.Shared;
  trail : list Access.Record_;
  metrics : list Metric;
  lineage_writers : gmap string (list QueryRecord);
  fresh : N;
  clock : list N;
  timers : list bool;
}.
Arguments World : clear implicits.

(** ** Effects *)

Definition M (W A : Type) := W -> A * W.

Definition ret {W A} (a : A) : M W A := fun w => (a, w).

Definition bind {W A B} (m : M W A) (k : A -> M W B) : M W B :=
  fun w => let (a, w') := m w in k a w'.

(** [?] in an operation. *)
Definition try {W A B E} (m : M W (result A E)) (k : A -> M W (result B E)) :
    M W (result B E) :=
  bind m (fun r => match r with Ok a => k a | Err e => ret (Err e) end).

Notation "'let!' x := m 'in' k" := (bind m (fun x => k))
  (at level 10, x pattern, m at level 100, k at level 200,
   format "'[v' 'let!'  x  :=  m  'in' '/' k ']'") : rust_scope.
Notation "'try!' x := m 'in' k" := (try m (fun x => k))
  (at level 10, x pattern, m at level 100, k at level 200,
   format "'[v' 'try!'  x  :=  m  'in' '/' k ']'") : rust_scope.
Notation "m ';;' k" := (bind m (fun _ => k)) (at level 100, right associativity) : rust_scope.

Section world.
Context {C D E F : Type}.
Notation World := (World C D E F).

Definition get {A} (f : World -> A) : M World A := fun w => (f w, w).

Definition set_cp (c : C) (w : World) : World :=
  {| cp := c; disk := disk w; engine := engine w; peers := peers w; inflight := inflight w;
     trail := trail w; metrics := metrics w; lineage_writers := lineage_writers w;
     fresh := fresh w; clock := clock w; timers := timers w |}.

Definition set_disk (d : D) (w : World) : World :=
  {| cp := cp w; disk := d; engine := engine w; peers := peers w; inflight := inflight w;
     trail := trail w; metrics := metrics w; lineage_writers := lineage_writers w;
     fresh := fresh w; clock := clock w; timers := timers w |}.

Definition set_engine (e : E) (w : World) : World :=
  {| cp := cp w; disk := disk w; engine := e; peers := peers w; inflight := inflight w;
     trail := trail w; metrics := metrics w; lineage_writers := lineage_writers w;
     fresh := fresh w; clock := clock w; timers := timers w |}.

Definition set_peers (f : F) (w : World) : World :=
  {| cp := cp w; disk := disk w; engine := engine w; peers := f; inflight := inflight w;
     trail := trail w; metrics := metrics w; lineage_writers := lineage_writers w;
     fresh := fresh w; clock := clock w; timers := timers w |}.

Definition set_inflight (i : Inflight.Shared) (w : World) : World :=
  {| cp := cp w; disk := disk w; engine := engine w; peers := peers w; inflight := i;
     trail := trail w; metrics := metrics w; lineage_writers := lineage_writers w;
     fresh := fresh w; clock := clock w; timers := timers w |}.

Definition set_trail (t : list Access.Record_) (w : World) : World :=
  {| cp := cp w; disk := disk w; engine := engine w; peers := peers w; inflight := inflight w;
     trail := t; metrics := metrics w; lineage_writers := lineage_writers w;
     fresh := fresh w; clock := clock w; timers := timers w |}.

Definition set_metrics (m : list Metric) (w : World) : World :=
  {| cp := cp w; disk := disk w; engine := engine w; peers := peers w; inflight := inflight w;
     trail := trail w; metrics := m; lineage_writers := lineage_writers w;
     fresh := fresh w; clock := clock w; timers := timers w |}.

Definition set_writers (l : gmap string (list QueryRecord)) (w : World) : World :=
  {| cp := cp w; disk := disk w; engine := engine w; peers := peers w; inflight := inflight w;
     trail := trail w; metrics := metrics w; lineage_writers := l;
     fresh := fresh w; clock := clock w; timers := timers w |}.

Definition set_oracles (n : N) (c : list N) (t : list bool) (w : World) : World :=
  {| cp := cp w; disk := disk w; engine := engine w; peers := peers w; inflight := inflight w;
     trail := trail w; metrics := metrics w; lineage_writers := lineage_writers w;
     fresh := n; clock := c; timers := t |}.

(** A call on one of the four. *)
Definition on_cp {A} (f : C -> A * C) : M World A :=
  fun w => let (a, c) := f (cp w) in (a, set_cp c w).
Definition on_disk {A} (f : D -> A * D) : M World A :=
  fun w => let (a, d) := f (disk w) in (a, set_disk d w).
Definition on_engine {A} (f : E -> A * E) : M World A :=
  fun w => let (a, e) := f (engine w) in (a, set_engine e w).
Definition on_peers {A} (f : F -> A * F) : M World A :=
  fun w => let (a, p) := f (peers w) in (a, set_peers p w).

Definition emit_metric (m : Metric) : M World unit :=
  fun w => (tt, set_metrics (metrics w ++ [m]) w).

(** [started.elapsed().as_millis()]. *)
Definition elapsed : M World N :=
  fun w => (hd 0%N (clock w), set_oracles (fresh w) (tail (clock w)) (timers w) w).

(** Whether the timer of the deadline just armed gets to fire. *)
Definition timer_fires : M World bool :=
  fun w => (hd false (timers w), set_oracles (fresh w) (clock w) (tail (timers w)) w).

Definition fresh_id : M World N :=
  fun w => (fresh w, set_oracles (fresh w + 1) (clock w) (timers w) w).

(** [self.inflight], as a step of its methods. *)
Definition on_inflight (f : Inflight.Shared -> Inflight.Shared) : M World unit :=
  fun w => (tt, set_inflight (f (inflight w)) w).

Definition register (pond : option string) : M World (string * N) :=
  fun w =>
    let (n, w1) := fresh_id w in
    let (r, i) := Inflight.register (pretty n) n pond (inflight w1) in
    (r, set_inflight i w1).

Definition record_query (pond op : string) : M World unit := emit_metric (QueriesTotal pond op).
Definition record_error (pond : string) (e : AgentError) : M World unit :=
  emit_metric (ErrorsTotal pond (Kind.as_str (kind e))).
Definition record_query_duration (pond op : string) : M World unit :=
  emit_metric (QueryDuration pond op).
Definition record_forward (op : string) : M World unit := emit_metric (ForwardedTotal op).
End world.

(** ** Ownership *)

Inductive Placement := Local | Forward (peer : Peer) | NoOwner.

Definition non_empty (s : option string) : option string :=
  match s with
  | Some s => if String.eqb s EmptyString then None else Some s
  | None => None
  end.

Definition placement (self : Node) (info : PondInfo) : Placement :=
  match forwarder self, self_node_id self, self_endpoint self with
  | true, Some me, Some my_address =>
      match non_empty (node_id info) with
      | None => NoOwner
      | Some owner_id =>
          if String.eqb owner_id me then Local
          else
            match non_empty (node_endpoint info) with
            | None => NoOwner
            | Some owner =>
                if String.eqb owner my_address then NoOwner
                else Forward {| peer_node_id := owner_id; endpoint := owner |}
            end
      end
  | _, _, _ => Local
  end.

Definition IN_PROCESS_NODE : string := "in-process".

Definition serving_name (self : Node) : string := default IN_PROCESS_NODE (self_endpoint self).

Definition tier_limits (tier : string) : option Tier.ResourceLimits :=
  Tier.limits (default Tier.default (Tier.parse tier)).

(** The location an operation runs against: the pond's settings over the
    storage's answer. *)
Definition locate (info : PondInfo) (loc : PondLocation) : PondLocation :=
  {| catalog_uri := catalog_uri loc; data_path := data_path loc; catalog_name := name info;
     limits := tier_limits (tier info); loc_extensions := extensions info;
     loc_lineage := lineage info; lineage_dir := lineage_dir loc |}.

(** Positional rows: each column takes its key out of the row's object. *)
Definition take_columns `{Values} (cols : list string) (obj : gmap string json) : list json :=
  (foldl (fun (acc : list json * gmap string json) c =>
     (acc.1 ++ [default json_null (acc.2 !! c)], delete c acc.2)) ([], obj) cols).1.

Definition append_batch_rows `{Values} (b : batch) (cols : list string) (out : list (list json)) :
    result (list (list json)) AgentError :=
  match batch_objects b with
  | Err e => Err (Agent.internal ("arrow->json: " +:+ e))
  | Ok objs => Ok (out ++ map (take_columns cols) objs)
  end.

Module AgentOps.
Section ops.
Context {C D E F : Type} `{!PondIds} `{!Values}.
Context `{!ControlPlane C} `{!PondStorage D} `{!QueryEngine E} `{!Forwarder F} `{!LineageReader D}.
Variable self : Node.
(** The trace scope the request runs in, and the engine's version. *)
Variable ambient : option Trace.TraceContext.
Notation World := (World C D E F).
Notation MR A := (M World (result A AgentError)).

Definition current_trace_id : option string := Trace.trace_id <$> ambient.
Definition current_traceparent : option string := Trace.traceparent <$> ambient.

(** *** Attribution *)

Definition audit (identity : Identity.Identity) (op : string) (pond summary : option string)
    (duration_ms : N) (outcome : string) : M World unit :=
  fun w => (tt, set_trail (trail w ++ [Access.record current_trace_id identity op pond summary
                                         duration_ms outcome]) w).

Definition audit_err {A} (identity : Identity.Identity) (op : string)
    (pond summary : option string) (duration_ms : N) (e : AgentError) : MR A :=
  audit identity op pond summary duration_ms Access.ERROR ;; ret (Err e).

Definition pond_info_audited (identity : Identity.Identity) (op pond_ref : string) : MR PondInfo :=
  let! r := get (fun w => cp_pond_info pond_ref (cp w)) in
  match r with
  | Ok info => ret (Ok info)
  | Err e => audit_err identity op (Some pond_ref) None 0 e
  end.

Definition route (identity : Identity.Identity) (op : string) (info : PondInfo) :
    MR (option Peer) :=
  match placement self info with
  | Local => ret (Ok None)
  | Forward p => ret (Ok (Some p))
  | NoOwner =>
      audit_err identity op (Some (pond_id info)) None 0 (Agent.pond_unavailable (name info))
  end.

Definition parse_id (pond_id : string) : result string AgentError :=
  map_err (fun e => Agent.internal ("bad pond id: " +:+ e)) (uuid_parse pond_id).

(** [storage.ensure_pond(..)?] and the settings put over it. *)
Definition ensure_located (info : PondInfo) : MR PondLocation :=
  try! pid := ret (parse_id (pond_id info)) in
  let! r := on_disk (st_ensure_pond pid (lineage info)) in
  match r with
  | Ok loc => ret (Ok (locate info loc))
  | Err e => ret (Err (Agent.storage ("storage: " +:+ e)))
  end.

(** [spawn_blocking(..).await.map_err(join)??] *)
Definition joined {A} (j : Join (result A EngineError)) : result A AgentError :=
  match j with
  | Ok (Ok a) => Ok a
  | Ok (Err e) => Err (Agent.from_engine e)
  | Err t => Err (Agent.internal ("join: " +:+ t))
  end.

(** *** Lineage *)

(** This pond's writer, made on first use; [false] when it cannot be. *)
Definition lineage_writer (info : PondInfo) : M World bool :=
  fun w =>
    match lineage_writers w !! pond_id info with
    | Some _ => (true, w)
    | None =>
        match parse_id (pond_id info) with
        | Err _ => (false, w)
        | Ok pid =>
            match st_pond_location pid (disk w) with
            | Err _ => (false, w)
            | Ok _ => (true, set_writers (<[pond_id info := []]> (lineage_writers w)) w)
            end
        end
    end.

Definition emit_lineage (rec : QueryRecord) : M World unit :=
  if negb (lineage (q_info rec)) then ret tt
  else
    let! ok := lineage_writer (q_info rec) in
    if ok then
      fun w => (tt, set_writers (alter (fun l => l ++ [rec]) (pond_id (q_info rec))
                                   (lineage_writers w)) w)
    else ret tt.

Definition evict_lineage_writer (pond_id : string) : M World unit :=
  fun w => (tt, set_writers (delete pond_id (lineage_writers w)) w).

(** *** Lifecycle *)

Definition materialize_here (info : PondInfo) : MR unit :=
  try! loc := ensure_located info in
  let! j := on_engine (en_init_pond loc) in
  ret (joined j).

Definition materialize_pond (identity : Identity.Identity) (pond_ref : string) : MR unit :=
  try! info := pond_info_audited identity "materialize_pond" pond_ref in
  try! peer := route identity "materialize_pond" info in
  match peer with
  | Some p =>
      record_forward "materialize_pond" ;;
      on_peers (fw_materialize_pond p identity pond_ref)
  | None =>
      let! res := materialize_here info in
      let! ms := elapsed in
      audit identity "materialize_pond" (Some (pond_id info)) None ms (Access.outcome_of res) ;;
      ret res
  end.

Definition allocate_pond_inner (identity : Identity.Identity) (name : option string)
    (policy_json tier : string) (exts : list string) (lin : bool) : MR AllocateResult :=
  try! info := on_cp (cp_create_pond name (Identity.agent_id identity) policy_json tier exts lin) in
  ret (Ok {| al_pond_id := pond_id info; al_pond_name := Types.name info |}).

Definition allocate_pond (identity : Identity.Identity) (name : option string)
    (policy_json tier : string) (exts : list string) (lin : bool) : MR AllocateResult :=
  let! res := allocate_pond_inner identity name policy_json tier exts lin in
  let! ms := elapsed in
  audit identity "allocate_pond" (al_pond_id <$> res_ok res) None ms (Access.outcome_of res) ;;
  ret res.

Definition describe_pond_local (info : PondInfo) : MR SchemaSummary :=
  try! loc := ensure_located info in
  let! j := on_engine (en_describe_schema loc) in
  ret (joined j).

Definition describe_pond (identity : Identity.Identity) (pond_ref : string) : MR DescribeResult :=
  try! info := pond_info_audited identity "describe_pond" pond_ref in
  try! peer := route identity "describe_pond" info in
  match peer with
  | Some p =>
      record_forward "describe_pond" ;; on_peers (fw_describe p identity pond_ref)
  | None =>
      let! res := describe_pond_local info in
      let! ms := elapsed in
      audit identity "describe_pond" (Some (pond_id info)) None ms (Access.outcome_of res) ;;
      ret (map_ok (fun s => {| dr_pond := info; dr_schema := s |}) res)
  end.

Definition list_ponds (identity : Identity.Identity) : MR (list PondInfo) :=
  let! res := get (fun w => cp_list_ponds (cp w)) in
  audit identity "list_ponds" None None 0 (Access.outcome_of res) ;;
  ret res.

Definition drop_refused (pond_ref : string) : AgentError :=
  Envelope.rendered Kind.MissingArgument
    "drop_pond deletes pond '{pond}' and all its data; set confirm=true to proceed"
    (facts [("pond", Text pond_ref)]).

Definition drop_pond (identity : Identity.Identity) (pond_ref : string) (confirm : bool) :
    MR unit :=
  if negb confirm then
    audit_err identity "drop_pond" (Some pond_ref) None 0 (drop_refused pond_ref)
  else
  try! info := pond_info_audited identity "drop_pond" pond_ref in
  try! peer := route identity "drop_pond" info in
  match peer with
  | Some p =>
      record_forward "drop_pond" ;; on_peers (fw_drop_pond p identity pond_ref confirm)
  | None =>
      let id := pond_id info in
      match parse_id id with
      | Err e => audit_err identity "drop_pond" (Some id) None 0 e
      | Ok pid =>
          on_inflight (Inflight.begin_drop id) ;;
          let! dropped := on_cp (cp_drop_pond id) in
          match dropped with
          | Err e =>
              on_inflight (Inflight.end_drop id) ;;
              let! ms := elapsed in
              audit_err identity "drop_pond" (Some id) None ms e
          | Ok _ =>
              let! loc := get (fun w => st_pond_location pid (disk w)) in
              match loc with
              | Ok l => on_engine (fun e => (tt, en_forget_pond l e))
              | Err _ => ret tt
              end ;;
              evict_lineage_writer id ;;
              on_disk (st_drop_pond pid) ;;
              evict_lineage_writer id ;;
              on_inflight (Inflight.end_drop id) ;;
              let! ms := elapsed in
              audit identity "drop_pond" (Some id) None ms Access.OK ;;
              ret (Ok tt)
          end
      end
  end.

(** *** Queries *)

Definition stamp (timeout_ms : N) (q : QueryResult) : QueryResult :=
  let m := meta q in
  {| columns := columns q; rows := rows q;
     meta := {| Meta.rows := Meta.rows m; Meta.rows_affected := Meta.rows_affected m;
                Meta.snapshot_id := Meta.snapshot_id m; Meta.duration_ms := Meta.duration_ms m;
                Meta.timeout_ms := timeout_ms; Meta.bytes_scanned := Meta.bytes_scanned m;
                Meta.tables_touched := Meta.tables_touched m; Meta.inputs := Meta.inputs m;
                Meta.outputs := Meta.outputs m; Meta.warnings := Meta.warnings m;
                Meta.hint := Meta.hint m; Meta.served_by := serving_name self;
                Meta.trace_id := default EmptyString current_trace_id;
                Meta.traceparent := default EmptyString current_traceparent |} |}.

(** The guard after the statement: its timer did or did not fire. *)
Definition ran (d : Deadline.Deadline) (fired : bool) : Deadline.Deadline :=
  if fired then Deadline.set_flag d else d.

(** The result, and the plan's datasets for a write that failed. *)
Definition run_query_local (info : PondInfo) (sql : string) (identity : Identity.Identity)
    (write : bool) (controls : Deadline.QueryControls) :
    M World (result QueryResult AgentError * option Meta.QueryMeta) :=
  let op := if write then "write" else "read" in
  record_query (name info) op ;;
  emit_metric (InflightInc (name info)) ;;
  let! located := ensure_located info in
  match located with
  | Err e => ret (Err e, None)
  | Ok loc =>
      let! (op_id, token) := register (Some (pond_id info)) in
      let! aborted := get (fun w => bool_decide (token ∈ Inflight.cancelled (inflight w))) in
      let deadline := Deadline.arm aborted (timeouts (config self)) controls in
      let! j :=
        if write then on_engine (en_write_query loc sql identity current_trace_id aborted)
        else on_engine (en_read_query loc sql aborted) in
      let! from_plan :=
        match j, write with
        | Ok (Err _), true => on_engine (en_plan_datasets loc sql)
        | _, _ => ret None
        end in
      let! fired := timer_fires in
      on_inflight (Inflight.complete op_id) ;;
      emit_metric (InflightDec (name info)) ;;
      match j with
      | Err t => ret (Err (Agent.internal ("join: " +:+ t)), None)
      | Ok (Err e) =>
          let ae := Deadline.classify (ran deadline fired) e in
          record_error (name info) ae ;;
          ret (Err ae, from_plan)
      | Ok (Ok qr) =>
          let n := N.of_nat (length (rows qr)) in
          let cap := inline_row_cap (config self) in
          if negb write && (cap <? n)%N then
            let ae := Agent.result_cap_exceeded n cap in
            record_error (name info) ae ;;
            ret (Err ae, from_plan)
          else
            record_query_duration (name info) op ;;
            ret (Ok (stamp (Deadline.effective_ms deadline) qr), from_plan)
      end
  end.

Definition run_query (pond_ref sql : string) (identity : Identity.Identity) (write : bool)
    (controls : Deadline.QueryControls) : MR QueryResult :=
  let op := if write then "write_query" else "read_query" in
  try! info := pond_info_audited identity op pond_ref in
  try! peer := route identity op info in
  match peer with
  | Some p =>
      record_forward op ;;
      if write then on_peers (fw_write p identity pond_ref sql (Deadline.timeout_ms controls))
      else on_peers (fw_read p identity pond_ref sql (Deadline.timeout_ms controls))
  | None =>
      let! (res, planned) := run_query_local info sql identity write controls in
      let! ms := elapsed in
      audit identity op (Some (pond_id info)) (Some (Redact.redact_sql sql)) ms
        (Access.outcome_of res) ;;
      emit_lineage {| q_identity := identity; q_info := info; q_op := op; q_sql := sql;
                      q_duration_ms := ms; q_meaning := Completion; q_error := res_err res;
                      q_meta := match res with Ok r => Some (meta r) | Err _ => planned end |} ;;
      ret res
  end.

Definition read_query_with (identity : Identity.Identity) (pond_ref sql : string)
    (controls : Deadline.QueryControls) : MR QueryResult :=
  run_query pond_ref sql identity false controls.

Definition write_query_with (identity : Identity.Identity) (pond_ref sql : string)
    (controls : Deadline.QueryControls) : MR QueryResult :=
  run_query pond_ref sql identity true controls.

Definition read_query (identity : Identity.Identity) (pond_ref sql : string) : MR QueryResult :=
  read_query_with identity pond_ref sql Deadline.none.

Definition write_query (identity : Identity.Identity) (pond_ref sql : string) : MR QueryResult :=
  write_query_with identity pond_ref sql Deadline.none.

(** *** Datasets and catalogs *)

Definition list_datasets (query : string) : MR (list DatasetInfo) :=
  get (fun w => cp_list_datasets query (cp w)).
Definition get_dataset (name : string) : MR DatasetInfo :=
  get (fun w => cp_get_dataset name (cp w)).
Definition list_catalogs (query : string) : MR (list CatalogInfo) :=
  get (fun w => cp_list_catalogs query (cp w)).
Definition get_catalog (name : string) : MR CatalogInfo :=
  get (fun w => cp_get_catalog name (cp w)).

Fixpoint load_tables (identity : Identity.Identity) (pond_ref schema : string)
    (ts : list DatasetTableInfo) (loaded : list string) : MR (list string) :=
  match ts with
  | [] => ret (Ok loaded)
  | t :: ts =>
      try! _ := write_query identity pond_ref
                  (Quote.dataset_load_sql schema (table_name t) (source_uri t) (format t)) in
      load_tables identity pond_ref schema ts (loaded ++ [schema +:+ "." +:+ table_name t])
  end.

Definition load_dataset_inner (identity : Identity.Identity) (pond_ref dataset : string) :
    MR LoadDatasetResult :=
  try! ds := get_dataset dataset in
  let schema := ds_name ds in
  try! _ := write_query identity pond_ref (Quote.create_schema_sql schema) in
  try! loaded := load_tables identity pond_ref schema (ds_tables ds) [] in
  ret (Ok {| ld_dataset := ds_name ds; ld_schema := schema; ld_tables := loaded |}).

Definition load_dataset (identity : Identity.Identity) (pond_ref dataset : string) :
    MR LoadDatasetResult :=
  let! res := load_dataset_inner identity pond_ref dataset in
  let! ms := elapsed in
  audit identity "load_dataset" (Some pond_ref) (Some dataset) ms (Access.outcome_of res) ;;
  ret res.

(** The catalog's locator params under the caller's. *)
Definition prepare_pull (info : PondInfo) (catalog : string) (params : gmap string string) :
    MR (PondLocation * CatalogInfo * gmap string string) :=
  try! cat := get_catalog catalog in
  let merged := params ∪ ca_params cat in
  try! loc := ensure_located info in
  ret (Ok (loc, cat, merged)).

Definition catalog_pull_local (identity : Identity.Identity) (info : PondInfo)
    (catalog query : string) (params : gmap string string) : MR (PullResult * Meta.QueryMeta) :=
  try! (loc, cat, merged) := prepare_pull info catalog params in
  let! j := on_engine (en_pull_catalog loc (ca_type cat) (ca_name cat) merged query identity
                         current_trace_id) in
  ret (map_ok (fun m => ({| pl_catalog := ca_name cat; pl_query := query |}, m)) (joined j)).

Definition catalog_pull (identity : Identity.Identity) (pond_ref catalog query : string)
    (params : gmap string string) : MR PullResult :=
  try! info := pond_info_audited identity "catalog_pull" pond_ref in
  try! peer := route identity "catalog_pull" info in
  match peer with
  | Some p =>
      record_forward "catalog_pull" ;;
      on_peers (fw_catalog_pull p identity pond_ref catalog query params)
  | None =>
      let! res := catalog_pull_local identity info catalog query params in
      let! ms := elapsed in
      audit identity "catalog_pull" (Some pond_ref) (Some query) ms (Access.outcome_of res) ;;
      emit_lineage {| q_identity := identity; q_info := info; q_op := "catalog_pull";
                      q_sql := query; q_duration_ms := ms; q_meaning := Completion;
                      q_error := res_err res; q_meta := snd <$> res_ok res |} ;;
      ret (map_ok fst res)
  end.

Definition catalog_describe_local (info : PondInfo) (catalog : string)
    (params : gmap string string) : MR (list (string * string)) :=
  try! (loc, cat, merged) := prepare_pull info catalog params in
  let! j := on_engine (en_describe_catalog loc (ca_type cat) (ca_name cat) merged) in
  ret (joined j).

Definition catalog_describe (identity : Identity.Identity) (pond_ref catalog : string)
    (params : gmap string string) : MR (list (string * string)) :=
  try! info := pond_info_audited identity "catalog_describe" pond_ref in
  try! peer := route identity "catalog_describe" info in
  match peer with
  | Some p =>
      record_forward "catalog_describe" ;;
      on_peers (fw_catalog_describe p identity pond_ref catalog params)
  | None =>
      let! res := catalog_describe_local info catalog params in
      let! ms := elapsed in
      audit identity "catalog_describe" (Some (pond_id info)) (Some catalog) ms
        (Access.outcome_of res) ;;
      ret res
  end.

(** *** Streamed reads *)

(** The producer, run to the end of its stream: the batches it sent, then the
    error on whichever channel was still open, or the meta. *)
Definition read_arrow_local (info : PondInfo) (sql : string)
    (controls : Deadline.QueryControls) : MR ArrowReadStream :=
  record_query (name info) "read" ;;
  emit_metric (InflightInc (name info)) ;;
  try! loc := ensure_located info in
  let! (op_id, token) := register (Some (pond_id info)) in
  let! aborted := get (fun w => bool_decide (token ∈ Inflight.cancelled (inflight w))) in
  let deadline := Deadline.arm aborted (timeouts (config self)) controls in
  let! (sent, j) := on_engine (en_read_arrow loc sql aborted) in
  let! fired := timer_fires in
  let no_schema := Agent.internal "arrow read produced no schema" in
  let stream sch more m :=
    {| schema := sch; batches := map Ok (sent_batches sent) ++ more; stream_meta := m;
       stream_served_by := serving_name self;
       stream_traceparent := default EmptyString current_traceparent |} in
  let finish :=
    on_inflight (Inflight.complete op_id) ;;
    record_query_duration (name info) "read" ;;
    emit_metric (InflightDec (name info)) in
  match j with
  | Err _ =>
      ret match sent_schema sent with
          | Some sch => Ok (stream sch [] None)
          | None => Err no_schema
          end
  | Ok (Ok m) =>
      finish ;;
      let m := {| Meta.rows := Meta.rows m; Meta.rows_affected := Meta.rows_affected m;
                  Meta.snapshot_id := Meta.snapshot_id m; Meta.duration_ms := Meta.duration_ms m;
                  Meta.timeout_ms := Deadline.effective_ms deadline;
                  Meta.bytes_scanned := Meta.bytes_scanned m;
                  Meta.tables_touched := Meta.tables_touched m; Meta.inputs := Meta.inputs m;
                  Meta.outputs := Meta.outputs m; Meta.warnings := Meta.warnings m;
                  Meta.hint := Meta.hint m; Meta.served_by := Meta.served_by m;
                  Meta.trace_id := Meta.trace_id m; Meta.traceparent := Meta.traceparent m |} in
      ret match sent_schema sent with
          | Some sch => Ok (stream sch [] (Some m))
          | None => Err no_schema
          end
  | Ok (Err e) =>
      finish ;;
      let ae := Deadline.classify (ran deadline fired) e in
      match sent_schema sent with
      | Some sch => ret (Ok (stream sch [Err ae] None))
      | None => record_error (name info) ae ;; ret (Err ae)
      end
  end.

Definition read_arrow_with (identity : Identity.Identity) (pond_ref sql : string)
    (controls : Deadline.QueryControls) : MR ArrowReadStream :=
  try! info := pond_info_audited identity "read_arrow" pond_ref in
  try! peer := route identity "read_arrow" info in
  match peer with
  | Some p =>
      record_forward "read_arrow" ;;
      on_peers (fw_read_arrow p identity pond_ref sql (Deadline.timeout_ms controls))
  | None =>
      let! res := read_arrow_local info sql controls in
      let! ms := elapsed in
      audit identity "read_arrow" (Some (pond_id info)) (Some (Redact.redact_sql sql)) ms
        (Access.outcome_of res) ;;
      emit_lineage {| q_identity := identity; q_info := info; q_op := "read_arrow"; q_sql := sql;
                      q_duration_ms := ms; q_meaning := Establishment; q_error := res_err res;
                      q_meta := None |} ;;
      ret res
  end.

(** The collecting loop: a batch past the cap ends it. *)
Fixpoint collect_batches (cap : N) (cols : list string)
    (bs : list (result batch AgentError)) (out : list (list json)) :
    result (list (list json)) AgentError :=
  match bs with
  | [] => Ok out
  | Err e :: _ => Err e
  | Ok b :: bs =>
      match append_batch_rows b cols out with
      | Err e => Err e
      | Ok out =>
          if (cap <? N.of_nat (length out))%N then Err (Agent.result_cap_exceeded_unknown cap)
          else collect_batches cap cols bs out
      end
  end.

Definition collect_stream (st : ArrowReadStream) : result QueryResult AgentError :=
  match collect_batches (inline_row_cap (config self)) (schema st) (batches st) [] with
  | Err e => Err e
  | Ok out =>
      let m := default Meta.default (stream_meta st) in
      Ok {| columns := schema st; rows := out;
            meta := {| Meta.rows := N.of_nat (length out); Meta.rows_affected := Meta.rows_affected m;
                       Meta.snapshot_id := Meta.snapshot_id m;
                       Meta.duration_ms := Meta.duration_ms m; Meta.timeout_ms := Meta.timeout_ms m;
                       Meta.bytes_scanned := Meta.bytes_scanned m;
                       Meta.tables_touched := Meta.tables_touched m; Meta.inputs := Meta.inputs m;
                       Meta.outputs := Meta.outputs m; Meta.warnings := Meta.warnings m;
                       Meta.hint := Meta.hint m; Meta.served_by := stream_served_by st;
                       Meta.trace_id := default EmptyString current_trace_id;
                       Meta.traceparent := stream_traceparent st |} |}
  end.

Definition read_collected_with (identity : Identity.Identity) (pond_ref sql : string)
    (controls : Deadline.QueryControls) : MR QueryResult :=
  try! info := pond_info_audited identity "read_query" pond_ref in
  try! peer := route identity "read_query" info in
  match peer with
  | Some p =>
      record_forward "read_query" ;;
      try! st := on_peers (fw_read_arrow p identity pond_ref sql (Deadline.timeout_ms controls)) in
      ret (collect_stream st)
  | None =>
      let! started := read_arrow_local info sql controls in
      let res := match started with Ok st => collect_stream st | Err e => Err e end in
      let! ms := elapsed in
      audit identity "read_query" (Some (pond_id info)) (Some (Redact.redact_sql sql)) ms
        (Access.outcome_of res) ;;
      emit_lineage {| q_identity := identity; q_info := info; q_op := "read_query"; q_sql := sql;
                      q_duration_ms := ms; q_meaning := Completion; q_error := res_err res;
                      q_meta := meta <$> res_ok res |} ;;
      ret res
  end.

Definition read_arrow (identity : Identity.Identity) (pond_ref sql : string) :
    MR ArrowReadStream :=
  read_arrow_with identity pond_ref sql Deadline.none.

Definition read_collected (identity : Identity.Identity) (pond_ref sql : string) :
    MR QueryResult :=
  read_collected_with identity pond_ref sql Deadline.none.

(** *** Explain and lineage *)

Definition explain_query_local (info : PondInfo) (sql : string) : MR ExplainResult :=
  try! loc := ensure_located info in
  let! j := on_engine (en_explain_query loc sql) in
  ret (joined j).

Definition explain_query (identity : Identity.Identity) (pond_ref sql : string) :
    MR ExplainResult :=
  try! info := pond_info_audited identity "explain_query" pond_ref in
  try! peer := route identity "explain_query" info in
  match peer with
  | Some p => record_forward "explain_query" ;; on_peers (fw_explain p identity pond_ref sql)
  | None =>
      let! res := explain_query_local info sql in
      let! ms := elapsed in
      audit identity "explain_query" (Some (pond_id info)) (Some (Redact.redact_sql sql)) ms
        (Access.outcome_of res) ;;
      ret res
  end.

Definition LINEAGE_RECIPE : string := "latiq://recipes/lineage".
Definition MAX_LIMIT : N := 500.

Definition limit_refused : AgentError :=
  Envelope.rendered_with Kind.InvalidValue "`limit` must be at least 1."
    (facts [("max_limit", Number MAX_LIMIT)])
    ("Omit `limit` for the default page, or pass a positive count (clamped to {max_limit}, and the "
      +:+ "page reports the value applied as `limit_applied`).")
    LINEAGE_RECIPE.

Definition lineage_off (info : PondInfo) : AgentError :=
  Envelope.rendered_with Kind.InvalidValue
    ("Pond '{pond}' does not record lineage — it was allocated without it, and that is fixed for the "
      +:+ "pond's lifetime. No events exist for it, which is NOT the same as nothing having happened "
      +:+ "here.")
    (facts [("pond", Text (name info))])
    ("Allocate a new pond with lineage=true and do the work there; an existing pond cannot be "
      +:+ "switched on.")
    LINEAGE_RECIPE.

Definition lineage_missing (info : PondInfo) : AgentError :=
  Envelope.rendered_with Kind.Storage
    ("Pond '{pond}' has no lineage directory on the node that owns it — nothing has been recorded "
      +:+ "for it yet.")
    (facts [("pond", Text (name info))])
    "Run a query against the pond first; its events appear once something has happened in it."
    LINEAGE_RECIPE.

Definition read_error (e : ReadError) : AgentError :=
  match e with
  | BadTimestamp field value =>
      Envelope.rendered_with Kind.InvalidValue
        "`{field}` is not an RFC-3339 timestamp: '{value}'."
        (facts [("field", Text field); ("value", Text value)])
        "Pass an RFC-3339 instant, e.g. since='2026-08-14T10:00:00Z', or omit it."
        LINEAGE_RECIPE
  | Io io =>
      Envelope.for_kind Kind.Storage
        ("The pond's lineage directory could not be read: " +:+ io)
  end.

Definition get_lineage_local (info : PondInfo) (limit : N) (since before : option string) :
    MR LineagePage :=
  if negb (lineage info) then ret (Err (lineage_off info))
  else
  try! pid := ret (parse_id (pond_id info)) in
  let! located := get (fun w => st_pond_location pid (disk w)) in
  match located with
  | Err _ => ret (Err (lineage_missing info))
  | Ok loc =>
      let! j := get (fun w => read_newest (lineage_dir loc) limit since before (disk w)) in
      ret match j with
          | Err t => Err (Agent.internal ("join: " +:+ t))
          | Ok (Err e) => Err (read_error e)
          | Ok (Ok page) =>
              Ok {| pg_pond_id := pond_id info; pg_pond_name := name info;
                    pg_lineage_dir := lineage_dir loc; pg_events := events page;
                    pg_limit_applied := limit; pg_truncated := truncated page;
                    pg_malformed_lines := malformed_lines page;
                    pg_unreadable_files := unreadable_files page |}
          end
  end.

Definition get_lineage (identity : Identity.Identity) (pond_ref : string) (limit : N)
    (since before : option string) : MR LineagePage :=
  try! info := pond_info_audited identity "get_lineage" pond_ref in
  if (limit =? 0)%N then
    audit_err identity "get_lineage" (Some (pond_id info)) None 0 limit_refused
  else
  let limit := N.min limit MAX_LIMIT in
  try! peer := route identity "get_lineage" info in
  match peer with
  | Some p =>
      record_forward "get_lineage" ;;
      on_peers (fw_get_lineage p identity pond_ref limit since before)
  | None =>
      let! res := get_lineage_local info limit since before in
      let! ms := elapsed in
      audit identity "get_lineage" (Some (pond_id info)) None ms (Access.outcome_of res) ;;
      ret res
  end.
End ops.
End AgentOps.
