(* ===== verification/OpsSpec.v ===== *)
(** * What the agent operations guarantee

    Ownership, attribution and accounting, stated over every pond-scoped
    operation at once ([Call]): who may serve a pond, what an operation that is
    not served here may touch, which record it leaves, and what the node's
    gauges and registries look like afterwards. *)
From S2P Require Import Prelude Errors Policy Common Sql Inflight Deadline Interfaces Ops.
Import Types.
#[local] Open Scope rust_scope.
#[local] Arguments String.append !_ _ / : simpl nomatch.

(** ** Framing: what an effect leaves alone *)

Section frames.
Context {C D E F : Type}.
Notation World := (World C D E F).

Definition keeps {A T} (f : World -> T) (m : M World A) : Prop := forall w, f (m w).2 = f w.

Lemma keeps_ret {A T} (f : World -> T) (a : A) : keeps f (ret a).
Proof. done. Qed.

Lemma keeps_get {A T} (f : World -> T) (g : World -> A) : keeps f (get g).
Proof. done. Qed.

Lemma keeps_bind {A B T} (f : World -> T) (m : M World A) (k : A -> M World B) :
  keeps f m -> (forall a, keeps f (k a)) -> keeps f (bind m k).
Proof.
  intros Hm Hk w. unfold bind. destruct (m w) as [a w'] eqn:Em.
  rewrite (Hk a w'). pose proof (Hm w) as Hw. by rewrite Em in Hw.
Qed.

Lemma keeps_try {A B X T} (f : World -> T) (m : M World (result A X))
    (k : A -> M World (result B X)) :
  keeps f m -> (forall a, keeps f (k a)) -> keeps f (try m k).
Proof.
  intros Hm Hk. apply keeps_bind; [done|]. intros [a|e]; [apply Hk|apply keeps_ret].
Qed.

Lemma keeps_on {A T S} (f : World -> T) (proj : World -> S) (set : S -> World -> World)
    (g : S -> A * S) :
  (forall s w, f (set s w) = f w) ->
  keeps f (fun w => let (a, s) := g (proj w) in (a, set s w)).
Proof. intros Hf w. by destruct (g (proj w)); simpl. Qed.
End frames.

#[export] Hint Resolve keeps_ret keeps_get : latiq.

(** Break an operation into its effects and frame each. *)
Ltac frame_step :=
  match goal with
  | |- keeps _ (bind _ _) => apply keeps_bind; [|intros]
  | |- keeps _ (try _ _) => apply keeps_try; [|intros]
  | |- keeps _ (ret _) => apply keeps_ret
  | |- keeps _ (get _) => apply keeps_get
  | |- keeps _ (match ?x with _ => _ end) => destruct x
  | |- keeps _ (let _ := _ in _) => cbv zeta
  | |- keeps _ _ => solve [intros ?; unfold on_engine, on_disk, on_cp, on_peers; repeat case_match; simplify_eq; reflexivity]
  end.
Ltac frames := repeat frame_step.

(** ** Calls *)

Inductive Call :=
| CQuery (write : bool) (sql : string) (controls : Deadline.QueryControls)
| CArrow (sql : string) (controls : Deadline.QueryControls)
| CCollected (sql : string) (controls : Deadline.QueryControls)
| CExplain (sql : string)
| CDescribe
| CDrop (confirm : bool)
| CMaterialize
| CPull (catalog query : string) (params : gmap string string)
| CCatalog (catalog : string) (params : gmap string string)
| CLineage (limit : N) (since before : option string).

Definition call_op (c : Call) : string :=
  match c with
  | CQuery true _ _ => "write_query"
  | CQuery false _ _ | CCollected _ _ => "read_query"
  | CArrow _ _ => "read_arrow"
  | CExplain _ => "explain_query"
  | CDescribe => "describe_pond"
  | CDrop _ => "drop_pond"
  | CMaterialize => "materialize_pond"
  | CPull _ _ _ => "catalog_pull"
  | CCatalog _ _ => "catalog_describe"
  | CLineage _ _ _ => "get_lineage"
  end.

(** Refused for its arguments, before it is routed. *)
Definition invalid (c : Call) : bool :=
  match c with
  | CDrop confirm => negb confirm
  | CLineage limit _ _ => (limit =? 0)%N
  | _ => false
  end.

Section spec.
Context {C D E F : Type} `{!PondIds} `{!Values}.
Context `{!ControlPlane C} `{!PondStorage D} `{!QueryEngine E} `{!Forwarder F} `{!LineageReader D}.
Variable self : Node.
Variable ambient : option Trace.TraceContext.
Notation World := (World C D E F).
Notation MR A := (M World (result A AgentError)).

Definition ran_ok {A} (m : MR A) : M World bool := let! r := m in ret (is_ok r).

(** Whether the call succeeded, and the world after it. *)
Definition run (identity : Identity.Identity) (ref : string) (c : Call) : M World bool :=
  match c with
  | CQuery w sql ctl => ran_ok (AgentOps.run_query self ambient ref sql identity w ctl)
  | CArrow sql ctl => ran_ok (AgentOps.read_arrow_with self ambient identity ref sql ctl)
  | CCollected sql ctl => ran_ok (AgentOps.read_collected_with self ambient identity ref sql ctl)
  | CExplain sql => ran_ok (AgentOps.explain_query self ambient identity ref sql)
  | CDescribe => ran_ok (AgentOps.describe_pond self ambient identity ref)
  | CDrop b => ran_ok (AgentOps.drop_pond self ambient identity ref b)
  | CMaterialize => ran_ok (AgentOps.materialize_pond self ambient identity ref)
  | CPull cat q ps => ran_ok (AgentOps.catalog_pull self ambient identity ref cat q ps)
  | CCatalog cat ps => ran_ok (AgentOps.catalog_describe self ambient identity ref cat ps)
  | CLineage n s b => ran_ok (AgentOps.get_lineage self ambient identity ref n s b)
  end.

(** *** The shape they share *)

Definition finish {A} (identity : Identity.Identity) (op : string) (pond summary : option string)
    (res : result A AgentError) : M World unit :=
  let! ms := elapsed in
  AgentOps.audit ambient identity op pond summary ms (Access.outcome_of res).

Lemma ran_ok_run {A} (m : MR A) w : (ran_ok m w).2 = (m w).2 /\ (ran_ok m w).1 = is_ok (m w).1.
Proof. unfold ran_ok, bind. by destruct (m w). Qed.

(** What this node holds of its ponds. *)
Definition holdings (w : World) :=
  (cp w, disk w, engine w, inflight w, lineage_writers w).

(** A call that is delegated: the peer's answer, and a count. *)
Lemma delegated {A} op (f : F -> result A AgentError * F) w :
  let m := (record_forward op ;; on_peers f) in
  holdings (m w).2 = holdings w /\ trail (m w).2 = trail w /\
  metrics (m w).2 = metrics w ++ [ForwardedTotal op] /\
  (m w).1 = (f (peers w)).1 /\ peers (m w).2 = (f (peers w)).2.
Proof. unfold record_forward, emit_metric, bind, on_peers. simpl. by destruct (f (peers w)). Qed.

Lemma lookup_failed {A} identity op ref e (k : PondInfo -> MR A) w :
  cp_pond_info ref (cp w) = Err e ->
  try (AgentOps.pond_info_audited ambient identity op ref) k w =
    (Err e, set_trail (trail w ++ [Access.record (AgentOps.current_trace_id ambient) identity op
                                     (Some ref) None 0 Access.ERROR]) w).
Proof.
  intros He. unfold try, AgentOps.pond_info_audited, bind, get. by rewrite He.
Qed.

Lemma lookup_found {A} identity op ref info (k : PondInfo -> MR A) w :
  cp_pond_info ref (cp w) = Ok info ->
  try (AgentOps.pond_info_audited ambient identity op ref) k w = k info w.
Proof. intros Hi. unfold try, AgentOps.pond_info_audited, bind, get. by rewrite Hi. Qed.

Lemma route_local {A} identity op info (k : option Peer -> MR A) w :
  placement self info = Local ->
  try (AgentOps.route self ambient identity op info) k w = k None w.
Proof. intros Hp. unfold try, AgentOps.route. by rewrite Hp. Qed.

Lemma route_forward {A} identity op info p (k : option Peer -> MR A) w :
  placement self info = Forward p ->
  try (AgentOps.route self ambient identity op info) k w = k (Some p) w.
Proof. intros Hp. unfold try, AgentOps.route. by rewrite Hp. Qed.

Lemma route_no_owner {A} identity op info (k : option Peer -> MR A) w :
  placement self info = NoOwner ->
  try (AgentOps.route self ambient identity op info) k w =
    (Err (Agent.pond_unavailable (name info)),
     set_trail (trail w ++ [Access.record (AgentOps.current_trace_id ambient) identity op
                              (Some (pond_id info)) None 0 Access.ERROR]) w).
Proof. intros Hp. unfold try, AgentOps.route. by rewrite Hp. Qed.

(** *** Ownership *)

Definition clustered : Prop :=
  forwarder self = true /\ is_Some (self_node_id self) /\ is_Some (self_endpoint self).

Lemma non_empty_Some s t : non_empty s = Some t <-> s = Some t /\ t <> EmptyString.
Proof.
  destruct s as [u|]; simpl; [|naive_solver].
  destruct (String.eqb_spec u EmptyString); naive_solver.
Qed.

(** *** The access trail *)

Lemma keeps_ensure_located {T} (f : World -> T) info :
  (forall d w, f (set_disk d w) = f w) -> keeps f (AgentOps.ensure_located info).
Proof.
  intros Hf. unfold AgentOps.ensure_located. apply keeps_try; [apply keeps_ret|]. intros pid.
  apply keeps_bind; [by apply (keeps_on f disk set_disk)|]. intros []; apply keeps_ret.
Qed.

Lemma keeps_emit_lineage {T} (f : World -> T) rec :
  (forall l w, f (set_writers l w) = f w) -> keeps f (AgentOps.emit_lineage rec).
Proof.
  intros Hf. unfold AgentOps.emit_lineage. destruct (negb _); [apply keeps_ret|].
  apply keeps_bind.
  - intros w. unfold AgentOps.lineage_writer. repeat case_match; simpl; auto.
  - intros []; [intros w; simpl; auto|apply keeps_ret].
Qed.

Lemma keeps_run_query_local info sql identity write controls :
  keeps (trail : World -> _) (AgentOps.run_query_local self ambient info sql identity write controls).
Proof.
  unfold AgentOps.run_query_local, record_query, record_error, record_query_duration.
  apply keeps_bind; [done|intros _]. apply keeps_bind; [done|intros _].
  apply keeps_bind; [by apply keeps_ensure_located|intros [loc|]; [|apply keeps_ret]].
  frames.
Qed.

Lemma keeps_read_arrow_local info sql controls :
  keeps (trail : World -> _) (AgentOps.read_arrow_local self ambient info sql controls).
Proof.
  unfold AgentOps.read_arrow_local, record_query, record_error, record_query_duration.
  apply keeps_bind; [done|intros _]. apply keeps_bind; [done|intros _].
  apply keeps_try; [by apply keeps_ensure_located|intros loc]. frames.
Qed.

Definition one_record identity op (w : World) (ok : bool) (w' : World) : Prop :=
  exists pond summary ms, trail w' = trail w ++
    [Access.record (AgentOps.current_trace_id ambient) identity op pond summary ms
       (if ok then Access.OK else Access.ERROR)].

Lemma bind_run {A B} (m : M World A) (k : A -> M World B) w a w' :
  m w = (a, w') -> bind m k w = k a w'.
Proof. intros Hm. unfold bind. by rewrite Hm. Qed.

(** The end of an operation served here: its one record, and what follows it. *)
Lemma audited {X B} identity op (res : result X AgentError) (out : result B AgentError)
    pond summary (post : N -> M World unit) w0 w :
  trail w = trail w0 -> (forall ms, keeps trail (post ms)) -> is_ok out = is_ok res ->
  let m := let! ms := elapsed in
           AgentOps.audit ambient identity op pond summary ms (Access.outcome_of res) ;;
           post ms ;; ret out in
  one_record identity op w0 (is_ok (m w).1) (m w).2.
Proof.
  intros Ht Hpost Hout. unfold bind, one_record. cbn [fst snd elapsed].
  unfold AgentOps.audit. exists pond, summary, (hd 0%N (clock w)).
  pose proof (Hpost (hd 0%N (clock w))) as Hp. unfold keeps in Hp.
  match goal with |- context [post ?ms ?w2] => specialize (Hp w2); destruct (post ms w2) end.
  simpl in *. rewrite Hp, Ht, Hout. unfold Access.outcome_of. done.
Qed.

Definition relayed ref (c : Call) (w w' : World) : Prop :=
  exists info p, cp_pond_info ref (cp w) = Ok info /\ placement self info = Forward p /\
    invalid c = false /\ trail w' = trail w.

(** The common frame of every operation but [drop_pond] and [get_lineage]. *)
Lemma routed {A} identity ref c (remote : Peer -> MR A) (here : PondInfo -> MR A) w :
  invalid c = false ->
  (forall p, keeps trail (remote p)) ->
  (forall info w, one_record identity (call_op c) w (is_ok (here info w).1) (here info w).2) ->
  let m := try! info := AgentOps.pond_info_audited ambient identity (call_op c) ref in
           try! peer := AgentOps.route self ambient identity (call_op c) info in
           match peer with Some p => remote p | None => here info end in
  relayed ref c w (m w).2 \/ one_record identity (call_op c) w (is_ok (m w).1) (m w).2.
Proof.
  intros Hv Hrem Hhere. cbv zeta.
  destruct (cp_pond_info ref (cp w)) as [info|e] eqn:Hi.
  2: { rewrite (lookup_failed _ _ _ _ _ _ Hi). right. by eexists _, _, _. }
  rewrite (lookup_found _ _ _ _ _ _ Hi). destruct (placement self info) as [|p|] eqn:Hp.
  - rewrite (route_local _ _ _ _ _ Hp). right. apply Hhere.
  - rewrite (route_forward _ _ _ _ _ _ Hp). left. exists info, p. by rewrite Hrem.
  - rewrite (route_no_owner _ _ _ _ _ Hp). right. by eexists _, _, _.
Qed.

Lemma keeps_delegated {A} op (f : F -> result A AgentError * F) :
  keeps (trail : World -> _) (record_forward op ;; on_peers f).
Proof. intros w. apply (delegated op f w). Qed.

Lemma keeps_evict id : keeps (trail : World -> _) (AgentOps.evict_lineage_writer id).
Proof. done. Qed.

Lemma drop_pond_record identity ref confirm w :
  let m := AgentOps.drop_pond self ambient identity ref confirm in
  relayed ref (CDrop confirm) w (m w).2 \/
  one_record identity "drop_pond" w (is_ok (m w).1) (m w).2.
Proof.
  cbv zeta. unfold AgentOps.drop_pond. destruct confirm; simpl negb; cbv iota.
  2: { right. by eexists _, _, _. }
  apply (routed identity ref (CDrop true)); [done|intros p; apply keeps_delegated|].
  intros info w1. destruct (AgentOps.parse_id (pond_id info)) as [pid|e]; [|by eexists _, _, _].
  unfold one_record, bind, on_inflight, on_cp. cbn [fst snd].
  destruct (cp_drop_pond _ _) as [[u|e] c] eqn:Ec; [|by eexists _, _, _].
  unfold get, on_disk, on_engine. cbn [fst snd].
  destruct (st_pond_location pid _); cbn [fst snd]; simpl;
    destruct (st_drop_pond pid _); by eexists _, _, _.
Qed.

Lemma get_lineage_record identity ref limit since before w :
  let m := AgentOps.get_lineage self ambient identity ref limit since before in
  relayed ref (CLineage limit since before) w (m w).2 \/
  one_record identity "get_lineage" w (is_ok (m w).1) (m w).2.
Proof.
  cbv zeta. unfold AgentOps.get_lineage. destruct (N.eqb_spec limit 0) as [->|Hl].
  { right. destruct (cp_pond_info ref (cp w)) as [info|e] eqn:Hi.
    - rewrite (lookup_found _ _ _ _ _ _ Hi). by eexists _, _, _.
    - rewrite (lookup_failed _ _ _ _ _ _ Hi). by eexists _, _, _. }
  apply (routed identity ref (CLineage limit since before)).
  - simpl. by apply N.eqb_neq.
  - intros p. apply keeps_delegated.
  - intros info w1.
    destruct (AgentOps.get_lineage_local info (N.min limit AgentOps.MAX_LIMIT) since before w1)
      as [res w2] eqn:El.
    rewrite (bind_run _ _ _ _ _ El).
    apply (audited _ _ res res _ _ (fun _ => ret tt)); [|done..].
    replace w2 with (AgentOps.get_lineage_local info (N.min limit AgentOps.MAX_LIMIT) since before
      w1).2 by (by rewrite El). revert w1 El. clear. intros w1 _. revert w1.
    change (keeps (trail : World -> _)
      (AgentOps.get_lineage_local info (N.min limit AgentOps.MAX_LIMIT) since before)).
    unfold AgentOps.get_lineage_local. frames.
Qed.

Lemma keeps_located {A} info (k : PondLocation -> MR A) :
  (forall loc, keeps trail (k loc)) ->
  keeps (trail : World -> _) (try! loc := AgentOps.ensure_located info in k loc).
Proof. intros Hk. by apply keeps_try; [apply keeps_ensure_located|]. Qed.

Lemma keeps_explain info sql :
  keeps (trail : World -> _) (AgentOps.explain_query_local info sql).
Proof. apply keeps_located. intros loc. frames. Qed.

Lemma keeps_describe info : keeps (trail : World -> _) (AgentOps.describe_pond_local info).
Proof. apply keeps_located. intros loc. frames. Qed.

Lemma keeps_materialize info : keeps (trail : World -> _) (AgentOps.materialize_here info).
Proof. apply keeps_located. intros loc. frames. Qed.

Lemma keeps_prepare info cat ps : keeps (trail : World -> _) (AgentOps.prepare_pull info cat ps).
Proof.
  unfold AgentOps.prepare_pull, AgentOps.get_catalog. apply keeps_try; [done|intros c].
  apply keeps_located. intros loc. frames.
Qed.

Lemma keeps_pull identity info cat q ps :
  keeps (trail : World -> _) (AgentOps.catalog_pull_local ambient identity info cat q ps).
Proof.
  unfold AgentOps.catalog_pull_local. apply keeps_try; [apply keeps_prepare|].
  intros [[loc c] merged]. frames.
Qed.

Lemma keeps_catalog info cat ps :
  keeps (trail : World -> _) (AgentOps.catalog_describe_local info cat ps).
Proof.
  unfold AgentOps.catalog_describe_local. apply keeps_try; [apply keeps_prepare|].
  intros [[loc c] merged]. frames.
Qed.

(** Run the local half at the head of the goal, framed by [K]. *)
Ltac serve K :=
  match goal with
  | |- one_record _ _ ?w1 (is_ok (bind ?loc ?k ?w1).1) _ =>
      let res := fresh "res" in let w2 := fresh "w2" in let El := fresh "El" in
      let Ht := fresh "Ht" in
      pose proof (K w1) as Ht; destruct (loc w1) as [res w2] eqn:El; simpl in Ht;
      rewrite !(bind_run _ _ _ _ _ El); try (destruct res as [res planned])
  end.

(** Every call leaves its one record, or the owner does. *)
Lemma run_record identity ref c w :
  relayed ref c w (run identity ref c w).2 \/
  one_record identity (call_op c) w (run identity ref c w).1 (run identity ref c w).2.
Proof.
  destruct c as [write sql ctl|sql ctl|sql ctl|sql| |confirm| |cat q ps|cat ps|n s b];
    cbn [run]; rewrite !(proj1 (ran_ok_run _ _)), !(proj2 (ran_ok_run _ _)).
  - unfold AgentOps.run_query.
    apply (routed identity ref (CQuery write sql ctl)); [done| |].
    + intros p. destruct write; apply keeps_delegated.
    + intros info w1. serve (keeps_run_query_local info sql identity write ctl).
      destruct write; refine (audited _ _ res res _ _ (fun ms => AgentOps.emit_lineage _) _ _ Ht _ _);
        done || (intros; by apply keeps_emit_lineage).
  - unfold AgentOps.read_arrow_with.
    apply (routed identity ref (CArrow sql ctl)); [done|intros p; apply keeps_delegated|].
    intros info w1. serve (keeps_read_arrow_local info sql ctl).
    refine (audited _ _ res res _ _ (fun ms => AgentOps.emit_lineage _) _ _ Ht _ _);
      done || (intros; by apply keeps_emit_lineage).
  - unfold AgentOps.read_collected_with.
    apply (routed identity ref (CCollected sql ctl)); [done| |].
    + intros p. apply (keeps_bind trail); [done|intros _].
      apply keeps_try; [by apply (keeps_on trail peers set_peers)|intros st; apply keeps_ret].
    + intros info w1. serve (keeps_read_arrow_local info sql ctl). cbv zeta.
      refine (audited _ _ _ _ _ _ (fun ms => AgentOps.emit_lineage _) _ _ Ht _ _);
        done || (intros; by apply keeps_emit_lineage).
  - unfold AgentOps.explain_query.
    apply (routed identity ref (CExplain sql)); [done|intros p; apply keeps_delegated|].
    intros info w1. serve (keeps_explain info sql).
    by apply (audited _ _ res res _ _ (fun _ => ret tt)).
  - unfold AgentOps.describe_pond.
    apply (routed identity ref CDescribe); [done|intros p; apply keeps_delegated|].
    intros info w1. serve (keeps_describe info).
    apply (audited _ _ res _ _ _ (fun _ => ret tt)); [done..|by destruct res].
  - apply drop_pond_record.
  - unfold AgentOps.materialize_pond.
    apply (routed identity ref CMaterialize); [done|intros p; apply keeps_delegated|].
    intros info w1. serve (keeps_materialize info).
    by apply (audited _ _ res res _ _ (fun _ => ret tt)).
  - unfold AgentOps.catalog_pull.
    apply (routed identity ref (CPull cat q ps)); [done|intros p; apply keeps_delegated|].
    intros info w1. serve (keeps_pull identity info cat q ps).
    refine (audited _ _ res _ _ _ (fun ms => AgentOps.emit_lineage _) _ _ Ht _ _);
      [intros; by apply keeps_emit_lineage|by destruct res].
  - unfold AgentOps.catalog_describe.
    apply (routed identity ref (CCatalog cat ps)); [done|intros p; apply keeps_delegated|].
    intros info w1. serve (keeps_catalog info cat ps).
    by apply (audited _ _ res res _ _ (fun _ => ret tt)).
  - apply get_lineage_record.
Qed.

(** *** Calls that are not served here *)

Definition elsewhere ref (c : Call) (w w' : World) : Prop :=
  match cp_pond_info ref (cp w) with
  | Err _ => holdings w' = holdings w /\ peers w' = peers w
  | Ok info =>
      match placement self info with
      | Local => True
      | NoOwner => holdings w' = holdings w /\ peers w' = peers w
      | Forward _ =>
          holdings w' = holdings w /\
          metrics w' = metrics w ++ (if invalid c then [] else [ForwardedTotal (call_op c)])
      end
  end.

Lemma routed_elsewhere {A} identity ref c (remote : Peer -> MR A) (here : PondInfo -> MR A) w :
  invalid c = false ->
  (forall p w, holdings (remote p w).2 = holdings w /\
     metrics (remote p w).2 = metrics w ++ [ForwardedTotal (call_op c)]) ->
  let m := try! info := AgentOps.pond_info_audited ambient identity (call_op c) ref in
           try! peer := AgentOps.route self ambient identity (call_op c) info in
           match peer with Some p => remote p | None => here info end in
  elsewhere ref c w (m w).2.
Proof.
  intros Hv Hrem. cbv zeta. unfold elsewhere. rewrite Hv.
  destruct (cp_pond_info ref (cp w)) as [info|e] eqn:Hi.
  2: { by rewrite (lookup_failed _ _ _ _ _ _ Hi). }
  rewrite (lookup_found _ _ _ _ _ _ Hi). destruct (placement self info) as [|p|] eqn:Hp.
  - done.
  - rewrite (route_forward _ _ _ _ _ _ Hp). apply Hrem.
  - by rewrite (route_no_owner _ _ _ _ _ Hp).
Qed.

Lemma delegated_elsewhere {A} op (f : F -> result A AgentError * F) (w : World) :
  let m := (record_forward op ;; on_peers f) in
  holdings (m w).2 = holdings w /\ metrics (m w).2 = metrics w ++ [ForwardedTotal op].
Proof. split; apply (delegated op f w). Qed.

Lemma audited_elsewhere {A} identity op pond e ref c w :
  invalid c = true ->
  elsewhere ref c w (AgentOps.audit_err (A := A) ambient identity op pond None 0 e w).2.
Proof.
  intros Hc. unfold elsewhere. rewrite Hc, app_nil_r.
  destruct (cp_pond_info ref (cp w)); [|done]. by destruct (placement self _).
Qed.

(** *** Gauges *)

Definition gauge_step (pond : string) (m : Metric) : Z :=
  match m with
  | InflightInc p => if String.eqb p pond then 1 else 0
  | InflightDec p => if String.eqb p pond then -1 else 0
  | _ => 0
  end%Z.

(** The value of [latiq_pond_inflight_queries] for a pond. *)
Definition gauge (pond : string) (ms : list Metric) : Z :=
  foldr (fun m z => gauge_step pond m + z)%Z 0%Z ms.

Lemma gauge_app pond ms ms' : gauge pond (ms ++ ms') = (gauge pond ms + gauge pond ms')%Z.
Proof. induction ms as [|m ms IH]; simpl; [done|]. rewrite IH. lia. Qed.
End spec.

(** ** Properties *)

Section properties.
Context {C D E F : Type} `{!PondIds} `{!Values}.
Context `{!ControlPlane C} `{!PondStorage D} `{!QueryEngine E} `{!Forwarder F} `{!LineageReader D}.
Variable self : Node.
Variable ambient : option Trace.TraceContext.
Notation World := (World C D E F).

(** a node serves a pond only as its registered owner, by node id, or when it
    is not clustered at all; it delegates only to another node id at an address
    that is not its own, and refuses everything else. *)
Theorem placement_spec info :
  match placement self info with
  | Local =>
      ~ clustered self \/ (node_id info = self_node_id self /\ node_id info <> Some EmptyString)
  | Forward p =>
      clustered self /\ node_id info = Some (peer_node_id p) /\
      self_node_id self <> Some (peer_node_id p) /\
      node_endpoint info = Some (endpoint p) /\ endpoint p <> EmptyString /\
      self_endpoint self <> Some (endpoint p)
  | NoOwner =>
      clustered self /\
      (non_empty (node_id info) = None \/
       (node_id info <> self_node_id self /\
        (non_empty (node_endpoint info) = None \/ node_endpoint info = self_endpoint self)))
  end.
Proof.
  unfold placement, clustered.
  destruct (forwarder self), (self_node_id self) as [me|], (self_endpoint self) as [addr|];
    try (left; intros (? & [? ?] & [? ?]); discriminate).
  destruct (non_empty (node_id info)) as [o|] eqn:Ho; [|by eauto 6].
  apply non_empty_Some in Ho as [-> Ho].
  destruct (String.eqb_spec o me) as [->|Hme]; [right; naive_solver|].
  destruct (non_empty (node_endpoint info)) as [e|] eqn:He.
  2: { split; [by eauto|]. right. split; [congruence|by left]. }
  apply non_empty_Some in He as [He Hne]. rewrite He.
  destruct (String.eqb_spec e addr) as [->|Ha].
  - split; [by eauto|]. right. split; [congruence|by right].
  - split; [by eauto|]. simpl. split_and!; congruence.
Qed.

(** C1: every call leaves exactly one access record, on the node that ran or
    refused it: its op, its caller, its trace id, and whether it landed; a call
    relayed to the owner leaves none. *)
Theorem audited_exactly_once identity ref c (w : World) :
  let (ok, w') := run self ambient identity ref c w in
  (exists info p, cp_pond_info ref (cp w) = Ok info /\ placement self info = Forward p /\
     invalid c = false /\ trail w' = trail w) \/
  exists pond summary ms, trail w' = trail w ++
    [Access.record (AgentOps.current_trace_id ambient) identity (call_op c) pond summary ms
       (if ok then Access.OK else Access.ERROR)].
Proof.
  pose proof (run_record self ambient identity ref c w) as Hr.
  by destruct (run self ambient identity ref c w) as [ok w'].
Qed.

(** C2: a call for a pond that is not served here, because it does not resolve,
    has no owner or has another one, touches nothing this node holds: registry,
    storage, engine, in-flight operations and lineage writers; a delegated one
    is counted once, under the op the caller invoked. *)
Theorem only_the_owner_serves identity ref c (w : World) :
  elsewhere self ref c w (run self ambient identity ref c w).2.
Proof.
  destruct c as [write sql ctl|sql ctl|sql ctl|sql| |confirm| |cat q ps|cat ps|n s b];
    cbn [run]; rewrite (proj1 (ran_ok_run _ _)).
  - apply (routed_elsewhere self ambient identity ref (CQuery write sql ctl)); [done|].
    intros p w1. destruct write; apply delegated_elsewhere.
  - apply (routed_elsewhere self ambient identity ref (CArrow sql ctl)); [done|].
    intros p w1. apply delegated_elsewhere.
  - apply (routed_elsewhere self ambient identity ref (CCollected sql ctl)); [done|].
    intros p w1. pose proof (delegated_elsewhere "read_query"
      (fw_read_arrow p identity ref sql (Deadline.timeout_ms ctl)) w1) as Hd.
    unfold try, bind, record_forward, emit_metric, on_peers in *. cbn [fst snd] in *.
    destruct (fw_read_arrow _ _ _ _ _ _) as [[st|e] f]; exact Hd.
  - apply (routed_elsewhere self ambient identity ref (CExplain sql)); [done|].
    intros p w1. apply delegated_elsewhere.
  - apply (routed_elsewhere self ambient identity ref CDescribe); [done|].
    intros p w1. apply delegated_elsewhere.
  - unfold AgentOps.drop_pond. destruct confirm; [|by apply audited_elsewhere].
    apply (routed_elsewhere self ambient identity ref (CDrop true)); [done|].
    intros p w1. apply delegated_elsewhere.
  - apply (routed_elsewhere self ambient identity ref CMaterialize); [done|].
    intros p w1. apply delegated_elsewhere.
  - apply (routed_elsewhere self ambient identity ref (CPull cat q ps)); [done|].
    intros p w1. apply delegated_elsewhere.
  - apply (routed_elsewhere self ambient identity ref (CCatalog cat ps)); [done|].
    intros p w1. apply delegated_elsewhere.
  - unfold AgentOps.get_lineage. destruct (N.eqb_spec n 0) as [->|Hn].
    + unfold elsewhere. simpl invalid. cbv iota. rewrite app_nil_r.
      destruct (cp_pond_info ref (cp w)) as [info|e] eqn:Hi.
      * rewrite (lookup_found _ _ _ _ _ _ _ Hi). by destruct (placement self info).
      * by rewrite (lookup_failed _ _ _ _ _ _ _ Hi).
    + apply (routed_elsewhere self ambient identity ref (CLineage n s b)).
      * simpl. by apply N.eqb_neq.
      * intros p w1. apply delegated_elsewhere.
Qed.

(** a statement run here leaves no operation registered under the id it
    took, no pond tombstoned, and takes back what it added to the pond's in-flight gauge, unless the pond could not be located:
    then the gauge stays raised by one for good. *)
Theorem query_accounting info sql identity write controls (w : World) :
  let w' := (AgentOps.run_query_local self ambient info sql identity write controls w).2 in
  Inflight.map (inflight w') =
    (if is_ok (AgentOps.ensure_located info w).1
     then delete (pretty (fresh w)) (Inflight.map (inflight w))
     else Inflight.map (inflight w)) /\
  Inflight.dropping (inflight w') = Inflight.dropping (inflight w) /\
  (fresh w <= fresh w')%N /\
  gauge (name info) (metrics w') =
    (gauge (name info) (metrics w) +
     if is_ok (AgentOps.ensure_located info w).1 then 0 else 1)%Z.
Proof.
  cbv zeta. pattern (AgentOps.run_query_local self ambient info sql identity write controls w).2.
  match goal with |- ?P _ => set (Post := P) end.
  unfold AgentOps.run_query_local, AgentOps.ensure_located.
  unfold try, bind, ret, record_query, record_error, record_query_duration, emit_metric,
    on_disk, get. cbn [fst snd].
  destruct (AgentOps.parse_id (pond_id info)) as [pid|e] eqn:Ep; cbn [fst snd].
  2: { unfold Post, AgentOps.ensure_located, try, bind, ret. rewrite Ep. simpl.
       rewrite !gauge_app. simpl. rewrite String.eqb_refl. split_and!; [done|done|lia|lia]. }
  cbn [disk set_metrics].
  destruct (st_ensure_pond pid (lineage info) (disk w)) as [[loc|e] d] eqn:Ed; cbn [fst snd].
  2: { unfold Post, AgentOps.ensure_located, try, bind, ret, on_disk. rewrite Ep, Ed. simpl.
       rewrite !gauge_app. simpl. rewrite String.eqb_refl. split_and!; [done|done|lia|lia]. }
  assert (Hok : is_ok (AgentOps.ensure_located info w).1 = true).
  { unfold AgentOps.ensure_located, try, bind, ret, on_disk. by rewrite Ep, Ed. }
  unfold register, fresh_id, timer_fires, on_inflight, on_engine, Inflight.register.
  cbn [fst snd cp disk engine peers inflight trail metrics lineage_writers fresh clock timers
       set_oracles set_disk set_metrics set_inflight set_engine].
  destruct (check_tombstone_frame (fresh w) (Some (pond_id info)) (inflight w)) as (T1 & T2 & _).
  assert (Hend : forall op ms, gauge (name info) ms = 0%Z ->
    gauge (name info) ((((metrics w ++ [QueriesTotal (name info) op]) ++
      [InflightInc (name info)]) ++ [InflightDec (name info)]) ++ ms) =
    (gauge (name info) (metrics w) + 0)%Z).
  { intros op ms Hms. rewrite !gauge_app, Hms. simpl. rewrite String.eqb_refl. lia. }
  pose proof (fun op => Hend op [] eq_refl) as Hend'. setoid_rewrite app_nil_r in Hend'.
  assert (Hmap : Inflight.map (Inflight.complete (pretty (fresh w)) (Inflight.insert_entry
      (pretty (fresh w)) (fresh w) (Some (pond_id info))
      (Inflight.check_tombstone (fresh w) (Some (pond_id info)) (inflight w)))) =
    delete (pretty (fresh w)) (Inflight.map (inflight w))).
  { unfold Inflight.complete, Inflight.insert_entry. cbn [Inflight.map].
    rewrite T1. apply delete_insert_eq. }
  destruct write; cbn [negb andb];
    match goal with
    | |- context [en_write_query ?a ?b ?c ?d ?f ?g] => destruct (en_write_query a b c d f g) as [j e1]
    | |- context [en_read_query ?a ?b ?d ?f] => destruct (en_read_query a b d f) as [j e1]
    end; cbn [fst snd]; destruct j as [[qr|e]|t]; cbn [fst snd];
    repeat case_match; simplify_eq; cbn [fst snd]; unfold Post; rewrite Hok;
    split_and!; first [exact Hmap|exact T2|simpl; lia
                      |by apply (Hend _ [_])|apply Hend'].
Qed.
End properties.
