(* ===== verification/OpsResult.v ===== *)
(** * What the agent operations answer

    Results, over the operations of [Ops]: where an answer comes from and what is
    stamped on it, how a stream is collected, what a drop leaves behind, what a
    statement records, and what loading a dataset runs.  [Sample] is a small node
    on which the theorems with hypotheses are evaluated. *)
From S2P Require Import Prelude Errors Policy Common Sql Inflight Deadline Interfaces Ops OpsSpec.
Import Types.
#[local] Open Scope rust_scope.
#[local] Arguments String.append !_ _ / : simpl nomatch.

(** ** A node to evaluate on *)

Module Sample.
#[local] Instance ids : PondIds := {| uuid_parse := fun s => Ok s |}.

#[local] Instance values : Values :=
  {| json := string; json_null := "null"; batch := list (gmap string string);
     batch_objects := fun b => Ok b |}.

(** A registry of ponds, a disk of pond ids, an engine that answers one row, and
    no peer. *)
#[local] Instance cp : ControlPlane (list PondInfo) :=
  {| cp_create_pond := fun _ _ _ _ _ _ c => (Err (Agent.internal "full"), c);
     cp_resolve_pond := fun ref c =>
       match find (fun i => String.eqb (name i) ref) c with
       | Some i => Ok (pond_id i)
       | None => Err (Agent.internal "no such pond")
       end;
     cp_pond_info := fun ref c =>
       match find (fun i => String.eqb (name i) ref) c with
       | Some i => Ok i
       | None => Err (Agent.internal "no such pond")
       end;
     cp_list_ponds := fun c => Ok c;
     cp_drop_pond := fun id c => (Ok tt, base.filter (fun i => pond_id i <> id) c);
     cp_list_datasets := fun _ _ => Ok [];
     cp_get_dataset := fun _ _ => Err (Agent.internal "no such dataset");
     cp_list_catalogs := fun _ _ => Ok [];
     cp_get_catalog := fun _ _ => Err (Agent.internal "no such catalog") |}.

Definition location (id : string) : PondLocation :=
  {| catalog_uri := id; data_path := id; catalog_name := id; limits := None;
     loc_extensions := []; loc_lineage := false; lineage_dir := id +:+ "/lineage" |}.

#[local] Instance disk : PondStorage (list string) :=
  {| st_ensure_pond := fun id _ d => (Ok (location id), id :: d);
     st_pond_location := fun id d =>
       if bool_decide (id ∈ d) then Ok (location id) else Err "absent";
     st_drop_pond := fun id d => (Ok tt, base.filter (fun i => i <> id) d) |}.

Definition row : QueryResult :=
  {| columns := ["n"]; rows := [["1"]]; meta := Meta.default |}.

#[local] Instance engine : QueryEngine unit :=
  {| en_init_pond := fun _ e => (Ok (Ok tt), e);
     en_read_query := fun _ _ _ e => (Ok (Ok row), e);
     en_write_query := fun _ _ _ _ _ e => (Ok (Ok row), e);
     en_read_arrow := fun _ _ _ e =>
       ({| sent_schema := None; sent_batches := [] |}, Ok (Ok Meta.default), e);
     en_explain_query := fun _ _ e => (Err "none", e);
     en_plan_datasets := fun _ _ e => (None, e);
     en_describe_schema := fun _ e => (Err "none", e);
     en_pull_catalog := fun _ _ _ _ _ _ _ e => (Err "none", e);
     en_describe_catalog := fun _ _ _ _ e => (Err "none", e);
     en_forget_pond := fun _ e => e |}.

Definition unreachable {A} (f : unit) : result A AgentError * unit :=
  (Err (Agent.internal "unreachable"), f).

#[local] Instance peer : Forwarder unit :=
  {| fw_read := fun _ _ _ _ _ => unreachable; fw_read_arrow := fun _ _ _ _ _ => unreachable;
     fw_write := fun _ _ _ _ _ => unreachable; fw_explain := fun _ _ _ _ => unreachable;
     fw_describe := fun _ _ _ => unreachable; fw_get_lineage := fun _ _ _ _ _ _ => unreachable;
     fw_drop_pond := fun _ _ _ _ => unreachable; fw_materialize_pond := fun _ _ _ => unreachable;
     fw_catalog_pull := fun _ _ _ _ _ _ => unreachable;
     fw_catalog_describe := fun _ _ _ _ _ => unreachable |}.

#[local] Instance reader : LineageReader (list string) :=
  {| read_newest := fun _ _ _ _ _ => Err "none" |}.

Definition ada : Identity.Identity :=
  {| Identity.agent_id := "ada"; Identity.subject := EmptyString;
     Identity.issuer := EmptyString; Identity.verified := false |}.

Definition pond : PondInfo :=
  {| pond_id := "0190"; name := "sales"; owner := "ada"; created_at := "2026-01-01";
     policy_json := "{}"; node_id := Some "n1"; node_endpoint := Some "http://n1";
     tier := "small"; extensions := []; description := EmptyString; lineage := true |}.

Definition node : Node :=
  {| config := default_config; self_node_id := Some "n1"; self_endpoint := Some "http://n1";
     forwarder := true |}.

Definition world : World (list PondInfo) (list string) unit unit :=
  {| Ops.cp := [pond]; Ops.disk := ["0190"]; Ops.engine := tt; peers := tt;
     inflight := Inflight.insert_entry "op" 7 (Some "0190") Inflight.empty; trail := [];
     metrics := []; lineage_writers := ∅; fresh := 8; clock := [5%N]; timers := [] |}.
End Sample.

(** ** Reference definitions *)

Section reference.
Context `{!Values}.

(** All the rows of a stream, or the first error met reading it. *)
Fixpoint all_rows (cols : list string) (bs : list (Prelude.result batch AgentError)) :
    Prelude.result (list (list json)) AgentError :=
  match bs with
  | [] => Ok []
  | Err e :: _ => Err e
  | Ok b :: bs =>
      match append_batch_rows b cols [] with
      | Err e => Err e
      | Ok rs => map_ok (app rs) (all_rows cols bs)
      end
  end.

Lemma append_batch_rows_app b cols out :
  append_batch_rows b cols out = map_ok (app out) (append_batch_rows b cols []).
Proof. unfold append_batch_rows. by destruct (batch_objects b). Qed.

Lemma collect_all_rows cap cols bs out :
  (N.of_nat (length out) <= cap)%N ->
  match all_rows cols bs with
  | Ok rs =>
      AgentOps.collect_batches cap cols bs out =
        if (cap <? N.of_nat (length (out ++ rs)))%N
        then Err (Agent.result_cap_exceeded_unknown cap) else Ok (out ++ rs)
  | Err e =>
      AgentOps.collect_batches cap cols bs out = Err e \/
      AgentOps.collect_batches cap cols bs out = Err (Agent.result_cap_exceeded_unknown cap)
  end.
Proof.
  revert out. induction bs as [|[b|e] bs IH]; intros out Hout; simpl;
    [|rewrite (append_batch_rows_app b cols out)|by left].
  { rewrite app_nil_r. by rewrite (proj2 (N.ltb_ge _ _) Hout). }
  destruct (append_batch_rows b cols []) as [rs|e]; simpl; [|by left].
  destruct (N.ltb_spec cap (N.of_nat (length (out ++ rs)))) as [Hlt|Hle].
  - destruct (all_rows cols bs) as [rs'|e]; simpl; [|by right].
    rewrite (proj2 (N.ltb_lt _ _)); [done|]. rewrite !length_app in *. lia.
  - specialize (IH (out ++ rs) Hle). destruct (all_rows cols bs) as [rs'|e]; simpl; [|done].
    by rewrite IH, app_assoc.
Qed.

Lemma take_columns_foldl (cols : list string) (acc : list json) (obj : gmap string json) :
  (foldl (fun (acc : list json * gmap string json) c =>
     (acc.1 ++ [default json_null (acc.2 !! c)], delete c acc.2)) (acc, obj) cols).1 =
  acc ++ imap (fun i c => if bool_decide (c ∈ take i cols) then json_null
                          else default json_null (obj !! c)) cols.
Proof.
  revert acc obj. induction cols as [|c cols IH]; intros acc obj; simpl; [by rewrite app_nil_r|].
  rewrite IH, <- app_assoc. simpl. do 2 f_equal.
  apply imap_ext. intros i c' _. unfold compose. simpl.
  destruct (decide (c' = c)) as [->|Hne].
  - rewrite lookup_delete_eq. rewrite (bool_decide_true (c ∈ c :: _)) by set_solver.
    by case_bool_decide.
  - rewrite lookup_delete_ne by done. do 2 case_bool_decide; set_solver.
Qed.
End reference.

(** ** The local halves *)

Section local.
Context {C D E F : Type} `{!PondIds} `{!Values}.
Context `{!ControlPlane C} `{!PondStorage D} `{!QueryEngine E} `{!Forwarder F} `{!LineageReader D}.
Variable self : Node.
Variable ambient : option Trace.TraceContext.
Notation World := (World C D E F).
Notation MR A := (M World (Prelude.result A AgentError)).

(** The outcome of the call at the head of [H], and the world after it. *)
Ltac next H a w :=
  match type of H with (let (_, _) := ?t in _) = _ => destruct t as [a w] end.

Lemma run_query_local_Ok info sql identity write controls (w w' : World) q planned :
  AgentOps.run_query_local self ambient info sql identity write controls w = ((Ok q, planned), w') ->
  exists qr, q = AgentOps.stamp self ambient
                   (Timeout.effective (timeouts (config self)) (Deadline.timeout_ms controls)) qr /\
    (write = false -> N.of_nat (length (rows qr)) <= inline_row_cap (config self))%N.
Proof.
  unfold AgentOps.run_query_local, bind, ret, record_query, record_error, record_query_duration,
    emit_metric. cbn [fst snd]. intros Hr.
  destruct (AgentOps.ensure_located _ _) as [[loc|e] w1]; [|done].
  destruct (register _ _) as [[op_id token] w2]. cbn [get] in Hr.
  next Hr j w3. next Hr from_plan w4. next Hr fired w5.
  unfold on_inflight in Hr. cbn [fst snd] in Hr.
  destruct j as [[qr|e]|t]; [|done|done].
  destruct (negb write && _)%N eqn:Hcap in Hr; [done|]. simplify_eq. exists qr. split; [done|].
  intros ->. simpl in Hcap. by apply N.ltb_ge.
Qed.

(** *** Whose trace an answer carries *)

Lemma query_traced_here info ref sql identity write controls (w : World) q :
  cp_pond_info ref (cp w) = Ok info -> placement self info = Local ->
  (AgentOps.run_query self ambient ref sql identity write controls w).1 = Ok q ->
  Meta.traceparent (meta q) = default EmptyString (AgentOps.current_traceparent ambient).
Proof.
  intros Hi Hp. unfold AgentOps.run_query.
  rewrite (lookup_found _ _ _ _ _ _ _ Hi), (route_local _ _ _ _ _ _ _ Hp).
  destruct (AgentOps.run_query_local self ambient info sql identity write controls w)
    as [[res planned] w1] eqn:Eq.
  rewrite (bind_run _ _ _ _ _ Eq). unfold bind at 1, elapsed. unfold bind at 1, AgentOps.audit.
  unfold bind, ret. destruct (AgentOps.emit_lineage _ _) as [u w2]. intros Hr. cbn in Hr. subst res.
  by apply run_query_local_Ok in Eq as (qr & -> & _).
Qed.

Lemma stream_traced_here info sql controls (w w' : World) st :
  AgentOps.read_arrow_local self ambient info sql controls w = (Ok st, w') ->
  stream_traceparent st = default EmptyString (AgentOps.current_traceparent ambient).
Proof.
  unfold AgentOps.read_arrow_local, try, bind, ret, record_query, record_error, record_query_duration,
    emit_metric. cbn [fst snd]. intros Hr.
  destruct (AgentOps.ensure_located _ _) as [[loc|e] w1]; [|done].
  destruct (register _ _) as [[op_id token] w2]. cbn [get] in Hr.
  next Hr j w3. destruct j as [sent j]. next Hr fired w4.
  unfold on_inflight in Hr. cbn [fst snd] in Hr.
  destruct j as [[m|e]|t]; destruct (sent_schema sent) as [sch|]; by simplify_eq.
Qed.

Lemma collected_traced_here info ref sql identity controls (w : World) q :
  cp_pond_info ref (cp w) = Ok info -> placement self info = Local ->
  (AgentOps.read_collected_with self ambient identity ref sql controls w).1 = Ok q ->
  Meta.traceparent (meta q) = default EmptyString (AgentOps.current_traceparent ambient).
Proof.
  intros Hi Hp. unfold AgentOps.read_collected_with.
  rewrite (lookup_found _ _ _ _ _ _ _ Hi), (route_local _ _ _ _ _ _ _ Hp).
  destruct (AgentOps.read_arrow_local self ambient info sql controls w) as [[st|e] w1] eqn:Eq;
    rewrite (bind_run _ _ _ _ _ Eq); unfold bind at 1, elapsed; unfold bind at 1, AgentOps.audit;
    unfold bind, ret; destruct (AgentOps.emit_lineage _ _) as [u w2]; cbn; [|done].
  unfold AgentOps.collect_stream. destruct (AgentOps.collect_batches _ _ _ _); [|done].
  intros [= <-]. by apply (stream_traced_here _ _ _ _ _ _ Eq).
Qed.

Lemma keeps_writers_query info sql identity write controls :
  keeps (lineage_writers : World -> _)
    (AgentOps.run_query_local self ambient info sql identity write controls).
Proof.
  unfold AgentOps.run_query_local, record_query, record_error, record_query_duration.
  apply keeps_bind; [done|intros _]. apply keeps_bind; [done|intros _].
  apply keeps_bind; [by apply keeps_ensure_located|intros [loc|]; [|apply keeps_ret]].
  frames.
Qed.

Lemma begin_drop_frame p s :
  Inflight.map (Inflight.begin_drop p s) = Inflight.map s /\
  Inflight.dropping (Inflight.begin_drop p s) = {[p]} ∪ Inflight.dropping s /\
  forall t, t ∈ Inflight.cancelled (Inflight.begin_drop p s) <->
    t ∈ Inflight.tokens_of p s \/ t ∈ Inflight.cancelled s.
Proof.
  unfold Inflight.begin_drop.
  destruct (cancel_for_pond_frame p (Inflight.insert_tombstone p s)) as [-> ->].
  split_and!; [done..|]. intros t. by rewrite cancelled_cancel_for_pond.
Qed.

(** The statements a dataset load runs, in order, up to the first that fails. *)
Fixpoint run_all (identity : Identity.Identity) (ref : string) (sqls : list string) : MR unit :=
  match sqls with
  | [] => ret (Ok tt)
  | sql :: sqls =>
      try! _ := AgentOps.write_query self ambient identity ref sql in
      run_all identity ref sqls
  end.

Definition load_sql (ds : DatasetInfo) (t : DatasetTableInfo) : string :=
  Quote.dataset_load_sql (ds_name ds) (table_name t) (source_uri t) (format t).

Definition loaded_name (ds : DatasetInfo) (t : DatasetTableInfo) : string :=
  ds_name ds +:+ "." +:+ table_name t.

Lemma load_tables_run identity ref ds ts loaded (w : World) :
  AgentOps.load_tables self ambient identity ref (ds_name ds) ts loaded w =
  (try! _ := run_all identity ref (map (load_sql ds) ts) in
   ret (Ok (loaded ++ map (loaded_name ds) ts))) w.
Proof.
  revert loaded w. induction ts as [|t ts IH]; intros loaded w; simpl.
  { by rewrite app_nil_r. }
  unfold try, bind, load_sql. destruct (AgentOps.write_query _ _ _ _ _ _) as [[q|e] w1]; [|done].
  rewrite IH, <- app_assoc. done.
Qed.
End local.

(** ** Properties *)

Section properties.
Context {C D E F : Type} `{!PondIds} `{!Values}.
Context `{!ControlPlane C} `{!PondStorage D} `{!QueryEngine E} `{!Forwarder F} `{!LineageReader D}.
Variable self : Node.
Variable ambient : option Trace.TraceContext.
Notation World := (World C D E F).

(** an answer to a query is either the owner's, verbatim, asked with the
    timeout the caller requested, or this node's own: then it names this node
    and the request's trace, carries the deadline it ran under, and a read holds
    no more rows than the inline cap. *)
Theorem query_result_provenance identity ref sql write controls (w w' : World) q :
  AgentOps.run_query self ambient ref sql identity write controls w = (Ok q, w') ->
  exists info, cp_pond_info ref (cp w) = Ok info /\
    match placement self info with
    | NoOwner => False
    | Forward p =>
        ((if write then fw_write p else fw_read p) identity ref sql
           (Deadline.timeout_ms controls) (peers w)).1 = Ok q
    | Local =>
        Meta.served_by (meta q) = serving_name self /\
        Meta.trace_id (meta q) = default EmptyString (AgentOps.current_trace_id ambient) /\
        Meta.timeout_ms (meta q) =
          Timeout.effective (timeouts (config self)) (Deadline.timeout_ms controls) /\
        (write = false -> N.of_nat (length (rows q)) <= inline_row_cap (config self))%N
    end.
Proof.
  unfold AgentOps.run_query. intros Hr.
  destruct (cp_pond_info ref (cp w)) as [info|e] eqn:Hi.
  2: { rewrite (lookup_failed _ _ _ _ _ _ _ Hi) in Hr. done. }
  rewrite (lookup_found _ _ _ _ _ _ _ Hi) in Hr. exists info. split; [done|].
  destruct (placement self info) as [|p|] eqn:Hp.
  - rewrite (route_local _ _ _ _ _ _ _ Hp) in Hr.
    destruct (AgentOps.run_query_local self ambient info sql identity write controls w)
      as [[res planned] w1] eqn:Eq.
    rewrite (bind_run _ _ _ _ _ Eq) in Hr. unfold bind at 1, elapsed in Hr.
    unfold bind at 1, AgentOps.audit in Hr. unfold bind, ret in Hr.
    destruct (AgentOps.emit_lineage _ _) as [u w2]. simplify_eq.
    apply run_query_local_Ok in Eq as (qr & -> & Hcap). by split_and!.
  - rewrite (route_forward _ _ _ _ _ _ _ _ Hp) in Hr. destruct write;
      match type of Hr with bind (record_forward ?op) (fun _ => on_peers ?f) w = _ =>
        destruct (delegated op f w) as (_ & _ & _ & Ha & _) end; by rewrite <- Ha, Hr.
  - by rewrite (route_no_owner _ _ _ _ _ _ _ Hp) in Hr.
Qed.

(** a collected stream is all of its rows, in order, or an error; one error
    is the first met in the stream, and the other is that the rows before the
    end, or before that error, exceed the cap. *)
Theorem collect_batches_spec cap cols (bs : list (Prelude.result batch AgentError)) :
  match all_rows cols bs with
  | Ok rs =>
      AgentOps.collect_batches cap cols bs [] =
        if (cap <? N.of_nat (length rs))%N
        then Err (Agent.result_cap_exceeded_unknown cap) else Ok rs
  | Err e =>
      AgentOps.collect_batches cap cols bs [] = Err e \/
      AgentOps.collect_batches cap cols bs [] = Err (Agent.result_cap_exceeded_unknown cap)
  end.
Proof. apply (collect_all_rows cap cols bs []). simpl. lia. Qed.

(** a row lists, under each column, the value of the object's key of that
    name, null when there is none; a column repeated in the result gets its value
    once, and null every time after. *)
Theorem take_columns_spec cols (obj : gmap string json) :
  take_columns cols obj =
  imap (fun i c => if bool_decide (c ∈ take i cols) then json_null
                   else default json_null (obj !! c)) cols.
Proof. apply (take_columns_foldl cols [] obj). Qed.

(** a pond dropped on its owner: the registry is asked first, and its refusal
    leaves the data, the engine and the lineage writers as they were; otherwise
    the data are deleted, the engine forgets the location it had, and no lineage
    writer is left.  Either way the pond's operations were cancelled, no other
    token was, and the pond is not tombstoned after. *)
Theorem drop_pond_served identity ref info pid (w : World) :
  cp_pond_info ref (cp w) = Ok info -> placement self info = Local ->
  AgentOps.parse_id (pond_id info) = Ok pid ->
  let id := pond_id info in
  let (res, w') := AgentOps.drop_pond self ambient identity ref true w in
  let (dropped, c) := cp_drop_pond id (cp w) in
  cp w' = c /\ is_ok res = is_ok dropped /\
  Inflight.map (inflight w') = Inflight.map (inflight w) /\
  Inflight.dropping (inflight w') = Inflight.dropping (inflight w) ∖ {[id]} /\
  (forall t, t ∈ Inflight.cancelled (inflight w') <->
     t ∈ Inflight.tokens_of id (inflight w) \/ t ∈ Inflight.cancelled (inflight w)) /\
  match dropped with
  | Err e =>
      res = Err e /\ disk w' = disk w /\ engine w' = engine w /\
      lineage_writers w' = lineage_writers w
  | Ok _ =>
      disk w' = (st_drop_pond pid (disk w)).2 /\
      engine w' = match st_pond_location pid (disk w) with
                  | Ok l => en_forget_pond l (engine w)
                  | Err _ => engine w
                  end /\
      lineage_writers w' = delete id (lineage_writers w)
  end.
Proof.
  intros Hi Hp Hid. cbv zeta. unfold AgentOps.drop_pond. cbn [negb].
  rewrite (lookup_found _ _ _ _ _ _ _ Hi), (route_local _ _ _ _ _ _ _ Hp), Hid.
  destruct (begin_drop_frame (pond_id info) (inflight w)) as (Hm & Hd & Hc).
  unfold bind, on_inflight, on_cp. cbn [fst snd].
  generalize dependent (Inflight.begin_drop (pond_id info) (inflight w)). intros i Hm Hd Hc.
  simpl cp. destruct (cp_drop_pond (pond_id info) (cp w)) as [[u|e] c].
  - unfold get, on_disk, on_engine. cbn [fst snd disk set_cp set_inflight].
    destruct (st_pond_location pid (disk w)) as [l|e]; cbn [fst snd]; simpl;
      destruct (st_drop_pond pid (disk w)) as [r d]; simpl;
      rewrite Hm, Hd, delete_delete_eq; (split_and!; try done); set_solver.
  - simpl. rewrite Hm, Hd. split_and!; try done. set_solver.
Qed.

(** a statement run on its owner is audited once, with its literals
    redacted, and a pond that records lineage gets one record of it: the full
    statement, the outcome and the duration that were audited. *)
Theorem query_recorded_once identity ref info sql (write : bool) controls (w : World) :
  cp_pond_info ref (cp w) = Ok info -> placement self info = Local ->
  let op := if write then "write_query" else "read_query" in
  let id := pond_id info in
  let (res, w') := AgentOps.run_query self ambient ref sql identity write controls w in
  exists ms r,
    trail w' = trail w ++
      [Access.record (AgentOps.current_trace_id ambient) identity op (Some id)
         (Some (Redact.redact_sql sql)) ms (Access.outcome_of res)] /\
    q_info r = info /\ q_identity r = identity /\ q_op r = op /\ q_sql r = sql /\
    q_duration_ms r = ms /\ q_error r = res_err res /\
    (forall q, res = Ok q -> q_meta r = Some (meta q)) /\
    let writable :=
      match lineage_writers w !! id, AgentOps.parse_id id with
      | Some _, _ => true
      | None, Ok pid => is_ok (st_pond_location pid (disk w'))
      | None, Err _ => false
      end in
    lineage_writers w' =
      if lineage info && writable
      then <[id := default [] (lineage_writers w !! id) ++ [r]]> (lineage_writers w)
      else lineage_writers w.
Proof.
  intros Hi Hp. unfold AgentOps.run_query. cbv zeta.
  rewrite (lookup_found _ _ _ _ _ _ _ Hi), (route_local _ _ _ _ _ _ _ Hp).
  pose proof (keeps_run_query_local self ambient info sql identity write controls w) as Ht.
  pose proof (keeps_writers_query self ambient info sql identity write controls w) as Hw.
  destruct (AgentOps.run_query_local self ambient info sql identity write controls w)
    as [[res planned] w1] eqn:Eq.
  rewrite (bind_run _ _ _ _ _ Eq). simpl in Ht, Hw. unfold bind. cbn [elapsed].
  unfold AgentOps.audit. cbn [fst snd].
  match goal with |- context [AgentOps.emit_lineage ?rec] => set (r := rec) end.
  unfold AgentOps.emit_lineage, AgentOps.lineage_writer, bind. change (q_info r) with info.
  destruct (lineage info); simpl; rewrite Hw.
  2: { exists (hd 0%N (clock w1)), r. rewrite Ht. split_and!; try done. by intros q ->. }
  destruct (lineage_writers w !! pond_id info) as [l|] eqn:El; simpl.
  { exists (hd 0%N (clock w1)), r. rewrite Ht. split_and!; try done; [by intros q ->|].
    simpl. by rewrite Hw, (alter_alt_Some _ _ _ _ El). }
  destruct (AgentOps.parse_id (pond_id info)) as [pid|e]; simpl.
  2: { exists (hd 0%N (clock w1)), r. rewrite Ht. split_and!; try done. by intros q ->. }
  destruct (st_pond_location pid (disk w1)) as [l|e] eqn:Es; simpl.
  all: exists (hd 0%N (clock w1)), r; rewrite Ht, Es; split_and!; try done; try by intros q ->.
  simpl. by rewrite alter_insert_eq.
Qed.

(** loading a dataset creates its schema and then loads its tables, one
    statement each and in order, up to the first that fails; a success names
    every table, qualified; and the load leaves a record of its own after those
    of its statements. *)
Theorem load_dataset_spec identity ref dataset (w : World) :
  let (res, w') := AgentOps.load_dataset self ambient identity ref dataset w in
  exists w1 ms,
    match cp_get_dataset dataset (cp w) with
    | Err e => res = Err e /\ w1 = w
    | Ok ds =>
        run_all self ambient identity ref
          (Quote.create_schema_sql (ds_name ds) :: map (load_sql ds) (ds_tables ds)) w =
          (map_ok (fun _ => tt) res, w1) /\
        match res with
        | Ok r => r = {| ld_dataset := ds_name ds; ld_schema := ds_name ds;
                         ld_tables := map (loaded_name ds) (ds_tables ds) |}
        | Err _ => True
        end
    end /\
    trail w' = trail w1 ++
      [Access.record (AgentOps.current_trace_id ambient) identity "load_dataset" (Some ref)
         (Some dataset) ms (Access.outcome_of res)].
Proof.
  unfold AgentOps.load_dataset.
  destruct (AgentOps.load_dataset_inner self ambient identity ref dataset w) as [res w1] eqn:Er.
  rewrite (bind_run _ _ _ _ _ Er). exists w1, (hd 0%N (clock w1)). split; [|done].
  unfold AgentOps.load_dataset_inner, AgentOps.get_dataset in Er.
  unfold try at 1, bind at 1, get, ret in Er.
  destruct (cp_get_dataset dataset (cp w)) as [ds|e]; [|by simplify_eq].
  simpl run_all. unfold try, bind, ret in Er |- *. cbv zeta in Er.
  destruct (AgentOps.write_query self ambient identity ref (Quote.create_schema_sql (ds_name ds)) w)
    as [[q|e] w2]; [|by simplify_eq].
  rewrite load_tables_run in Er. unfold try, bind, ret in Er.
  destruct (run_all _ _ _ _ _ w2) as [[[]|e] w3]; by simplify_eq.
Qed.

(** a catalog pull served here is audited with the caller's query as it was
    written, not redacted as every other statement is. *)
Theorem catalog_pull_audits_raw_query identity ref info cat query params (w : World) :
  cp_pond_info ref (cp w) = Ok info -> placement self info = Local ->
  let (res, w') := AgentOps.catalog_pull self ambient identity ref cat query params w in
  exists ms, trail w' = trail w ++
    [Access.record (AgentOps.current_trace_id ambient) identity "catalog_pull" (Some ref)
       (Some query) ms (Access.outcome_of res)].
Proof.
  intros Hi Hp. unfold AgentOps.catalog_pull.
  rewrite (lookup_found _ _ _ _ _ _ _ Hi), (route_local _ _ _ _ _ _ _ Hp).
  pose proof (keeps_pull ambient identity info cat query params w) as Ht.
  destruct (AgentOps.catalog_pull_local ambient identity info cat query params w)
    as [res w1] eqn:Er.
  rewrite (bind_run _ _ _ _ _ Er). simpl in Ht. unfold bind, elapsed, AgentOps.audit.
  match goal with |- context [AgentOps.emit_lineage ?rec ?w2] =>
    pose proof (keeps_emit_lineage trail rec (fun _ _ => eq_refl) w2) as He;
    destruct (AgentOps.emit_lineage rec w2) as [u w3] end.
  exists (hd 0%N (clock w1)). simpl in *. rewrite He, Ht. by destruct res.
Qed.
End properties.

(** ** On the sample node *)

Section sample.
Import Sample.
#[local] Existing Instances ids values Sample.cp Sample.disk Sample.engine peer reader.

Lemma query_result_provenance_witness :
  match (AgentOps.run_query node None "sales" "SELECT 1" ada false Deadline.none world).1 with
  | Ok q => Meta.served_by (meta q) = "http://n1" /\ Meta.timeout_ms (meta q) = 30000%N
  | Err _ => False
  end.
Proof.
  assert (Hok : is_ok (AgentOps.run_query node None "sales" "SELECT 1" ada false
    Deadline.none world).1 = true) by (vm_compute; reflexivity).
  destruct (AgentOps.run_query node None "sales" "SELECT 1" ada false Deadline.none world)
    as [[q|e] w'] eqn:E; [|discriminate Hok].
  destruct (query_result_provenance node None ada "sales" "SELECT 1" false Deadline.none
    world w' q E) as (info & Hi & Hl).
  cbn in Hi. injection Hi as <-. destruct Hl as (Hs & _ & Ht & _).
  split; [exact Hs|exact Ht].
Defined.

Lemma drop_pond_served_witness :
  let (res, w') := AgentOps.drop_pond node None ada "sales" true world in
  Ops.cp w' = [] /\ Ops.disk w' = [] /\ 7%N ∈ Inflight.cancelled (inflight w').
Proof.
  pose proof (drop_pond_served node None ada "sales" pond "0190" world
    eq_refl eq_refl eq_refl) as Hd.
  destruct (AgentOps.drop_pond _ _ _ _ _ _) as [res w'].
  destruct Hd as (Hcp & _ & _ & _ & Hc & Hdisk & _). split; [exact Hcp|]. split; [exact Hdisk|].
  apply Hc. left. vm_compute. left.
Defined.

Lemma query_recorded_once_witness :
  exists r, lineage_writers (AgentOps.run_query node None "sales" "SELECT 'x'" ada false
                               Deadline.none world).2 = {["0190" := [r]]} /\
    q_sql r = "SELECT 'x'".
Proof.
  pose proof (query_recorded_once node None ada "sales" pond "SELECT 'x'" false
    Deadline.none world eq_refl eq_refl) as Hr.
  assert (Hd : is_ok (st_pond_location "0190" (Ops.disk (AgentOps.run_query node None "sales"
    "SELECT 'x'" ada false Deadline.none world).2)) = true) by (vm_compute; reflexivity).
  destruct (AgentOps.run_query node None "sales" "SELECT 'x'" ada false Deadline.none world)
    as [res w'].
  destruct Hr as (ms & r & _ & _ & _ & _ & Hsql & _ & _ & _ & Hw). exists r. split; [|exact Hsql].
  cbn [snd] in *. rewrite Hw. change (AgentOps.parse_id (pond_id pond)) with (@Ok string AgentError "0190").
  change (lineage_writers world !! pond_id pond) with (@None (list QueryRecord)).
  cbn iota. rewrite Hd. reflexivity.
Defined.

Lemma catalog_pull_audits_raw_query_witness :
  let (res, w') := AgentOps.catalog_pull node None ada "sales" "pg"
                     "secret = 'x'" ∅ world in
  exists r, trail w' = [r] /\ Access.summary r = "secret = 'x'".
Proof.
  pose proof (catalog_pull_audits_raw_query node None ada "sales" pond "pg"
    "secret = 'x'" ∅ world eq_refl eq_refl) as Hr.
  destruct (AgentOps.catalog_pull _ _ _ _ _ _ _ _) as [res w'].
  destruct Hr as [ms Ht]. eexists. split; [exact Ht|reflexivity].
Defined.
End sample.
