(* ===== verification/LineageRead.v ===== *)
(** * Reading a pond's lineage trail

    Models [latiq-lineage/src/reader.rs]: the newest batch files of a directory,
    the bounded tail of each, and the page cut from them.  A file is the lines
    its reader yields, [None] being the fault that ends it; [events] are JSON
    values, whose parser and fields are the JSON crate's, and timestamps are
    parsed by the time crate ([Events]).  The page and the errors are those the
    agent operations see ([Interfaces]). *)
From S2P Require Import Prelude Interfaces.

Class Events `{Values} := {
  (** [serde_json::from_str], [Value::get], [Value::as_str]. *)
  parse_json : string -> option json;
  get : json -> string -> option json;
  as_str : json -> option string;
  (** [DateTime::parse_from_rfc3339], to an instant. *)
  parse_from_rfc3339 : string -> option Z;
}.

Module Reader.
(** ** Files *)

Inductive File := Missing | Unopenable | Lines (ls : list (option string)).

(** A directory: the names its listing yields, an entry it fails on being
    [None], or why it cannot be listed; and what opening a name gives. *)
Record Dir := { listing : result (list (option string)) string; open : string -> File }.

Record PageRequest := { limit : nat; since : option string; before : option string }.

Definition MAX_LIMIT : nat := 500.
Definition MAX_BYTES : N := 256 * 1024.
Definition MAX_FILES : nat := 500.

(** Only finished batches. *)
Definition is_batch (name : string) : bool :=
  ends_with ".jsonl" name && negb (starts_with ".tmp-" name).

(** The bounded heap of the newest names, oldest first. *)
Fixpoint push (name : string) (heap : list string) : list string :=
  match heap with
  | [] => [name]
  | n :: heap' => if decide (String.le name n) then name :: heap else n :: push name heap'
  end.

Definition heap_step (acc : list string * nat) (entry : option string) : list string * nat :=
  match entry with
  | None => acc
  | Some name =>
      if is_batch name then
        let heap := push name acc.1 in
        if MAX_FILES <? length heap then (tail heap, S acc.2) else (heap, acc.2)
      else acc
  end.

Definition newest_names (d : Dir) : result (list string * nat) ReadError :=
  match listing d with
  | Err e => Err (Io e)
  | Ok entries =>
      let (heap, skipped) := foldl heap_step ([], 0) entries in Ok (reverse heap, skipped)
  end.

Section reader.
Context `{Events}.

(** ** One event *)

Definition event_time (e : json) : option string := get e "eventTime" ≫= as_str.

(** In [since, before), or of no readable time. *)
Definition selected (since before : option Z) (e : json) : bool :=
  if negb (is_Some_b since) && negb (is_Some_b before) then true
  else
    match event_time e ≫= parse_from_rfc3339 with
    | None => true
    | Some t =>
        match since with Some s => (s <=? t)%Z | None => true end &&
        match before with Some b => (t <? b)%Z | None => true end
    end.

Definition parse_bound (field : string) (raw : option string) : result (option Z) ReadError :=
  match raw with
  | None => Ok None
  | Some s =>
      match parse_from_rfc3339 s with
      | Some t => Ok (Some t)
      | None => Err (BadTimestamp field s)
      end
  end.

(** ** The tail of a file *)

Record Tail := { ring : list (json * N); newest_dropped : option (option string) }.

(** The [while] over the ring: [bytes] is what it holds. *)
Fixpoint shrink (need : nat) (bytes : N) (dropped : option (option string))
    (l : list (json * N)) : list (json * N) * N * option (option string) :=
  match l with
  | [] => (l, bytes, dropped)
  | (e, len) :: l' =>
      if (need <? length l) || ((1 <? length l) && (MAX_BYTES <? bytes)%N)
      then shrink need (bytes - len) (Some (event_time e)) l'
      else (l, bytes, dropped)
  end.

Definition malformed (p : Page) : Page :=
  {| events := events p; truncated := truncated p;
     malformed_lines := malformed_lines p + 1; unreadable_files := unreadable_files p |}.

Definition unreadable (p : Page) : Page :=
  {| events := events p; truncated := truncated p;
     malformed_lines := malformed_lines p; unreadable_files := unreadable_files p + 1 |}.

Fixpoint tail_loop (need : nat) (since before : option Z) (ls : list (option string))
    (l : list (json * N)) (bytes : N) (dropped : option (option string)) (p : Page) :
    Tail * Page :=
  match ls with
  | [] => ({| ring := l; newest_dropped := dropped |}, p)
  | None :: _ => ({| ring := l; newest_dropped := dropped |}, unreadable p)
  | Some line :: ls =>
      let line := trim line in
      if String.eqb line EmptyString then tail_loop need since before ls l bytes dropped p
      else
        match parse_json line with
        | None => tail_loop need since before ls l bytes dropped (malformed p)
        | Some e =>
            if negb (selected since before e) then tail_loop need since before ls l bytes dropped p
            else
              let len := N.of_nat (String.length line) in
              let '(l, bytes, dropped) := shrink need (bytes + len) dropped (l ++ [(e, len)]) in
              tail_loop need since before ls l bytes dropped p
        end
  end.

Definition read_tail (f : File) (need : nat) (since before : option Z) (p : Page) :
    option Tail * Page :=
  match f with
  | Missing => (None, p)
  | Unopenable => (None, unreadable p)
  | Lines ls => let (t, p) := tail_loop need since before ls [] 0 None p in (Some t, p)
  end.

(** ** The page *)

Definition with_events (evs : list json) (p : Page) : Page :=
  {| events := evs; truncated := truncated p; malformed_lines := malformed_lines p;
     unreadable_files := unreadable_files p |}.

Definition truncate (p : Page) : Page :=
  {| events := events p; truncated := true; malformed_lines := malformed_lines p;
     unreadable_files := unreadable_files p |}.

(** The loop over one ring, newest first; [Some] time is the break's. *)
Fixpoint consume (limit : nat) (l : list (json * N)) (bytes : N) (p : Page) :
    Page * N * option (option string) :=
  match l with
  | [] => (p, bytes, None)
  | (e, len) :: l =>
      if (limit <=? length (events p)) ||
         (negb (bool_decide (events p = [])) && (MAX_BYTES <? bytes + len)%N)
      then (truncate p, bytes, Some (event_time e))
      else consume limit l (bytes + len) (with_events (events p ++ [e]) p)
  end.

Fixpoint files_loop (open : string -> File) (limit : nat) (since before : option Z)
    (names : list string) (bytes : N) (p : Page) : Page * option (option string) :=
  match names with
  | [] => (p, None)
  | name :: names =>
      let (t, p) := read_tail (open name) (limit - length (events p) + 1) since before p in
      match t with
      | None => files_loop open limit since before names bytes p
      | Some t =>
          let '(p, bytes, stop) := consume limit (reverse (ring t)) bytes p in
          match stop, newest_dropped t with
          | Some time, _ => (p, Some time)
          | None, Some time => (truncate p, Some time)
          | None, None => files_loop open limit since before names bytes p
          end
      end
  end.

Definition has_time (b : string) (e : json) : bool := bool_decide (event_time e = Some b).

(** [position], or the length. *)
Fixpoint position (p : json -> bool) (l : list json) : nat :=
  match l with
  | [] => 0
  | e :: l => if p e then 0 else S (position p l)
  end.

Definition cut_on_a_timestamp_boundary (evs : list json) (boundary : option string) : list json :=
  match boundary with
  | None => evs
  | Some b => let keep := position (has_time b) evs in if 0 <? keep then take keep evs else evs
  end.

Definition clamp (n : nat) : nat := Nat.min (Nat.max n 1) MAX_LIMIT.

Definition read_newest (d : Dir) (req : PageRequest) : result Page ReadError :=
  match parse_bound "since" (since req) with
  | Err e => Err e
  | Ok s =>
  match parse_bound "before" (before req) with
  | Err e => Err e
  | Ok b =>
  match newest_names d with
  | Err e => Err e
  | Ok (names, skipped) =>
      let p := {| events := []; truncated := 0 <? skipped; malformed_lines := 0;
                  unreadable_files := 0 |} in
      let (p, excluded) := files_loop (open d) (clamp (limit req)) s b names 0 p in
      Ok match excluded with
         | None => p
         | Some boundary => with_events (cut_on_a_timestamp_boundary (events p) boundary) p
         end
  end end end.
End reader.
End Reader.
