(* ===== verification/LineageReadSpec.v ===== *)
(** * What a page of the lineage trail is

    A page is a prefix of the trail, newest first, cut where a cursor can resume;
    the trail is what the readable lines of the newest files hold.  Paging
    backwards by timestamp is exact when the trail is in timestamp order, and
    skips events when it is not, which back-dated starts make happen. *)
From S2P Require Import Prelude Interfaces LineageRead.
Import Reader.
#[local] Open Scope rust_scope.

Lemma ends_with_spec p s : ends_with p s = true <-> exists stem, s = stem +:+ p.
Proof.
  induction s as [|a s IH]; simpl; rewrite orb_true_iff, String.eqb_eq.
  - split; [intros [->|]; [by exists EmptyString|done]|]. intros [[|] Hs]; [by left|done].
  - rewrite IH. split.
    + intros [->|[stem ->]]; [by exists EmptyString|by exists (String a stem)].
    + intros [[|b stem] Hs]; [by left|]. injection Hs as -> ->. right. by exists stem.
Qed.

(** ** The newest names *)

Lemma push_Permutation x l : push x l ≡ₚ x :: l.
Proof.
  induction l as [|n l IH]; simpl; [done|]. case_decide; [done|].
  rewrite IH. constructor.
Qed.

Lemma push_Sorted x l : StronglySorted String.le l -> StronglySorted String.le (push x l).
Proof.
  induction 1 as [|n l Hl IH Hn]; simpl; [by repeat constructor|]. case_decide as Hx.
  - constructor; [by constructor|]. constructor; [done|].
    eapply Forall_impl; [exact Hn|]. intros y Hy. by etrans.
  - constructor; [done|]. rewrite push_Permutation. constructor; [|done].
    destruct (total String.le x n) as [|]; done.
Qed.

Lemma push_sort x l : push x (sort_strings l) = sort_strings (x :: l).
Proof.
  apply (StronglySorted_unique String.le).
  - apply push_Sorted, sort_strings_Sorted.
  - apply sort_strings_Sorted.
  - by rewrite push_Permutation, !sort_strings_Permutation.
Qed.

(** Keeping the greatest as they come is keeping the greatest of all. *)
Lemma push_drop x l k :
  StronglySorted String.le l -> k <= length l ->
  tail (push x (drop k l)) = drop (S k) (push x l).
Proof.
  intros Hl. revert l Hl. induction k as [|k IH]; intros l Hl Hk; [by rewrite !drop_0; destruct (push x l)|].
  destruct l as [|n l]; simpl in Hk; [lia|]. inversion Hl as [|n' l' Hl' Hn]; subst. simpl.
  case_decide as Hx.
  - change (drop (S k) (n :: l)) with (drop k l).
    destruct (drop k l) as [|m r] eqn:Ed; [by simpl; rewrite Ed|]. simpl. rewrite Ed.
    assert (Hm : String.le x m).
    { etrans; [exact Hx|]. apply (proj1 (Forall_forall _ _) Hn).
      rewrite <- (take_drop k l), Ed. set_solver. }
    by rewrite decide_True.
  - change (drop (S k) (n :: l)) with (drop k l). rewrite IH by (done || lia). done.
Qed.

Lemma StronglySorted_reverse {A} (R : relation A) l :
  StronglySorted R l -> StronglySorted (flip R) (reverse l).
Proof.
  induction 1 as [|x l Hl IH Hx]; [constructor|]. rewrite reverse_cons.
  apply StronglySorted_app. split_and!; [|done|by repeat constructor].
  intros y z Hy ->%list_elem_of_singleton. rewrite elem_of_reverse in Hy.
  exact (proj1 (Forall_forall _ _) Hx _ Hy).
Qed.

Definition batches (entries : list (option string)) : list string :=
  List.filter is_batch (omap id entries).

Lemma heap_foldl entries done_ :
  foldl heap_step (drop (length done_ - MAX_FILES) (sort_strings done_), length done_ - MAX_FILES)
    entries =
  let all := reverse (batches entries) ++ done_ in
  (drop (length all - MAX_FILES) (sort_strings all), length all - MAX_FILES).
Proof.
  cbv zeta. revert done_.
  induction entries as [|[name|] entries IH]; intros done_; [done| |apply IH].
  cbn [foldl heap_step fst snd]. change (batches (Some name :: entries)) with
    (if is_batch name then name :: batches entries else batches entries).
  destruct (is_batch name) eqn:Hb; [|apply IH].
  rewrite reverse_cons, <- app_assoc. cbn [app]. rewrite <- (IH (name :: done_)). f_equal.
  set (k := length done_ - MAX_FILES).
  assert (Hlen : length (push name (drop k (sort_strings done_))) = S (length done_ - k)).
  { rewrite push_Permutation. simpl. rewrite length_drop, sort_strings_Permutation. done. }
  assert (Hk : k <= length (sort_strings done_)).
  { rewrite sort_strings_Permutation. unfold k. lia. }
  rewrite Hlen. destruct (Nat.ltb_spec MAX_FILES (S (length done_ - k))) as [Hm|Hm].
  - rewrite push_drop, push_sort by (done || apply sort_strings_Sorted). simpl length.
    assert (S (length done_) - MAX_FILES = S k) as -> by (unfold k in *; lia). done.
  - simpl length. assert (S (length done_) - MAX_FILES = 0) as -> by (unfold k in *; lia).
    assert (k = 0) as -> by (unfold k in *; lia). by rewrite !drop_0, push_sort.
Qed.

Lemma sort_strings_proper l k : l ≡ₚ k -> sort_strings l = sort_strings k.
Proof.
  intros Hp. apply (StronglySorted_unique String.le); [apply sort_strings_Sorted..|].
  by rewrite !sort_strings_Permutation.
Qed.

Lemma newest_names_eq d :
  newest_names d =
    match listing d with
    | Err e => Err (Io e)
    | Ok es => let n := length (batches es) - MAX_FILES in
               Ok (reverse (drop n (sort_strings (batches es))), n)
    end.
Proof.
  unfold newest_names. destruct (listing d) as [es|e]; [|done].
  pose proof (heap_foldl es []) as Hh. simpl in Hh. rewrite app_nil_r in Hh.
  change (sort_strings []) with (@nil string) in Hh. rewrite Hh, length_reverse.
  by rewrite (sort_strings_proper _ _ (reverse_Permutation (batches es))).
Qed.

(** ** The trail *)

Section spec.
Context `{Events}.

Fixpoint picked (s b : option Z) (ls : list (option string)) : list (json * N) :=
  match ls with
  | Some line :: ls =>
      match (if String.eqb (trim line) EmptyString then None else parse_json (trim line)) with
      | Some e =>
          if selected s b e then (e, N.of_nat (String.length (trim line))) :: picked s b ls
          else picked s b ls
      | None => picked s b ls
      end
  | _ => []
  end.

Definition file_events (s b : option Z) (f : File) : list (json * N) :=
  match f with Lines ls => picked s b ls | _ => [] end.

(** The selected events of [names], newest first, each with its length. *)
Fixpoint history (open : string -> File) (s b : option Z) (names : list string) :
    list (json * N) :=
  match names with
  | [] => []
  | n :: names => reverse (file_events s b (open n)) ++ history open s b names
  end.

Definition time_of (x : json * N) : option string := event_time x.1.

Definition size_of (l : list (json * N)) : N := foldr (fun x n => (x.2 + n)%N) 0%N l.

Lemma size_of_app l k : size_of (l ++ k) = (size_of l + size_of k)%N.
Proof. induction l as [|x l IH]; simpl; [done|]. rewrite IH. lia. Qed.

Lemma size_of_reverse l : size_of (reverse l) = size_of l.
Proof.
  induction l as [|x l IH]; [done|]. rewrite reverse_cons, size_of_app, IH. simpl. lia.
Qed.

(** *** Rings keep a suffix *)

Definition last_time (cut : list (json * N)) (d : option (option string)) :=
  match last cut with Some x => Some (time_of x) | None => d end.

Lemma last_time_app c1 c2 d : last_time (c1 ++ c2) d = last_time c2 (last_time c1 d).
Proof. unfold last_time. rewrite last_app. by destruct (last c2). Qed.

(** What was dropped in front of [l], the last of it being the newest, did not fit: the
    ring holds as many events as are needed, or it and the event are too many bytes. *)
Definition crowded (need : nat) (cut l : list (json * N)) : Prop :=
  match last cut with
  | Some x => l <> [] /\ (need <= length l \/ (MAX_BYTES < size_of l + x.2)%N)
  | None => True
  end.

Lemma crowded_snoc need cut l x : crowded need cut l -> crowded need cut (l ++ [x]).
Proof.
  unfold crowded. destruct (last cut) as [y|]; [|done]. rewrite length_app, size_of_app. simpl.
  intros [Hne [Hn|Hn]]; (split; [by destruct l|]); [left|right]; lia.
Qed.

Lemma crowded_app need c1 c2 l :
  (c2 = [] -> crowded need c1 l) -> crowded need c2 l -> crowded need (c1 ++ c2) l.
Proof.
  unfold crowded. rewrite last_app. destruct (last c2) as [x|] eqn:E; [done|].
  apply last_None in E as ->. intros Hc _. exact (Hc eq_refl).
Qed.

Lemma shrink_spec need bytes d l :
  0 < need -> bytes = size_of l ->
  let '(r, bytes', d') := shrink need bytes d l in
  exists cut, l = cut ++ r /\ d' = last_time cut d /\ bytes' = size_of r /\ crowded need cut r.
Proof.
  intros Hneed. revert bytes d. induction l as [|[e len] l IH]; intros bytes d ->; [by exists []|].
  cbn [shrink]. destruct (_ || _) eqn:Hc; [|by exists []].
  specialize (IH (size_of ((e, len) :: l) - len)%N (Some (event_time e))).
  destruct (shrink _ _ _ _) as [[r b'] d']. destruct IH as (cut & -> & -> & -> & Hcr); [simpl; lia|].
  exists ((e, len) :: cut). split; [done|].
  change ((e, len) :: cut) with ([(e, len)] ++ cut). rewrite last_time_app.
  split_and!; try done. apply crowded_app; [|done]. intros ->. cbn [app] in Hc. unfold crowded. simpl.
  apply orb_true_iff in Hc as [Hc%Nat.ltb_lt|[Hl%Nat.ltb_lt Hb%N.ltb_lt]%andb_true_iff]; cbn [length size_of foldr snd] in *.
  - split; [destruct r; simpl in *; [lia|done]|]. left. lia.
  - split; [destruct r; simpl in *; [lia|done]|]. right. unfold size_of. lia.
Qed.

Definition same_page (p p' : Page) : Prop :=
  events p' = events p /\ truncated p' = truncated p.

Lemma tail_loop_spec need s b ls l bytes c p :
  0 < need -> bytes = size_of l -> crowded need c l ->
  let (t, p') := tail_loop need s b ls l bytes (last_time c None) p in
  same_page p p' /\
  exists cut, l ++ picked s b ls = cut ++ ring t /\ newest_dropped t = last_time (c ++ cut) None /\
    crowded need (c ++ cut) (ring t).
Proof.
  intros Hneed. revert l bytes c p. induction ls as [|[line|] ls IH]; intros l bytes c p Hb Hc; simpl.
  { split; [done|]. exists []. by rewrite !app_nil_r. }
  2: { split; [done|]. exists []. by rewrite !app_nil_r. }
  destruct (String.eqb (trim line) EmptyString); [by apply IH|].
  destruct (parse_json (trim line)) as [e|].
  2: { specialize (IH l bytes c (malformed p) Hb Hc). destruct (tail_loop _ _ _ _ _ _ _ _) as [t p'].
       exact IH. }
  destruct (selected s b e); simpl; [|by apply IH].
  set (x := (e, N.of_nat (String.length (trim line)))).
  pose proof (shrink_spec need (bytes + x.2) (last_time c None) (l ++ [x]) Hneed) as Hs.
  unfold x in Hs at 2. simpl in Hs.
  fold x in Hs. destruct (shrink _ _ _ _) as [[r bytes'] d'].
  destruct Hs as (c1 & Hl & -> & -> & Hcr); [rewrite size_of_app; simpl; lia|].
  rewrite <- last_time_app. specialize (IH r (size_of r) (c ++ c1) p eq_refl).
  destruct (tail_loop _ _ _ _ _ _ _ _) as [t p']. destruct IH as (Hp & c2 & Hr & Hd & Hcr2).
  { apply crowded_app; [|done]. intros ->. simpl in Hl. rewrite <- Hl. by apply crowded_snoc. }
  split; [done|]. exists (c1 ++ c2). rewrite <- app_assoc in Hd, Hcr2. split_and!; try done.
  by rewrite <- app_assoc, <- Hr, app_assoc, <- Hl, <- app_assoc.
Qed.

Lemma read_tail_spec f need s b p :
  0 < need ->
  let (t, p') := read_tail f need s b p in
  same_page p p' /\
  match t with
  | None => file_events s b f = []
  | Some t => exists cut, file_events s b f = cut ++ ring t /\
                newest_dropped t = last_time cut None /\ crowded need cut (ring t)
  end.
Proof.
  intros Hneed. destruct f as [| |ls]; simpl; [by split..|].
  pose proof (tail_loop_spec need s b ls [] 0 [] p Hneed eq_refl I) as Ht.
  unfold last_time at 1 in Ht. simpl in Ht.
  destruct (tail_loop _ _ _ _ _ _ _ _) as [t p']. exact Ht.
Qed.

(** *** Pages keep a prefix *)

(** Within the byte cap, or a single event. *)
Definition small (p : Page) (bytes : N) : Prop :=
  (bytes <= MAX_BYTES)%N \/ length (events p) <= 1.

(** An event that does not fit behind those shown. *)
Definition full (limit : nat) (shown : list (json * N)) (x : json * N) : Prop :=
  limit <= length shown \/ shown <> [] /\ (MAX_BYTES < size_of shown + x.2)%N.

(** What a loop that read [l] from page [p] did: it showed a prefix of [l], and
    stopped on the next event, which does not fit, or took all of it. *)
Definition reads (limit : nat) (l : list (json * N)) (bytes : N) (p p' : Page)
    (stop : option (option string)) : Prop :=
  exists taken rest, l = taken ++ rest /\ events p' = events p ++ taken.*1 /\
    length (events p') <= limit /\ small p' (bytes + size_of taken)%N /\
    match stop with
    | None => rest = [] /\ truncated p' = truncated p
    | Some t =>
        truncated p' = true /\ exists x rest', rest = x :: rest' /\ t = time_of x /\
          (limit <= length (events p') \/
           events p' <> [] /\ (MAX_BYTES < bytes + size_of taken + x.2)%N)
    end.

Lemma consume_spec limit l bytes p :
  length (events p) <= limit -> small p bytes ->
  let '(p', bytes', stop) := consume limit l bytes p in
  reads limit l bytes p p' stop /\
  (stop = None -> bytes' = (bytes + size_of l)%N /\ small p' bytes').
Proof.
  revert bytes p. induction l as [|[e len] l IH]; intros bytes p Hlim Hs; simpl.
  { split; [|by rewrite N.add_0_r]. exists [], []. simpl. by rewrite app_nil_r, N.add_0_r. }
  destruct ((limit <=? _) || _) eqn:Hc.
  { split; [|done]. exists [], ((e, len) :: l). simpl. rewrite app_nil_r, N.add_0_r.
    split_and!; try done. eexists _, _. split_and!; try done.
    apply orb_true_iff in Hc as [Hc%Nat.leb_le|[Hne Hb%N.ltb_lt]%andb_true_iff]; [by left|right].
    split; [|done]. by destruct (events p). }
  apply orb_false_iff in Hc as [Hl%Nat.leb_gt Hb].
  set (p1 := with_events (events p ++ [e]) p).
  assert (Hs1 : small p1 (bytes + len)).
  { unfold small, p1. simpl. rewrite length_app. simpl. case_bool_decide as He; simpl in Hb.
    - right. rewrite He. simpl. lia.
    - left. by apply N.ltb_ge in Hb. }
  assert (Hl1 : length (events p1) <= limit) by (simpl; rewrite length_app; simpl; lia).
  specialize (IH (bytes + len)%N p1 Hl1 Hs1). destruct (consume _ _ _ _) as [[p' bytes'] stop].
  destruct IH as ((taken & rest & -> & Hev & Hlen & Hsm & Hst) & Hn). split.
  - exists ((e, len) :: taken), rest. simpl in *. rewrite Hev, <- app_assoc.
    rewrite N.add_assoc. split_and!; try done.
    + by rewrite Hev, <- app_assoc in Hlen.
    + by rewrite Hev, <- app_assoc in Hst.
  - intros ->. destruct (Hn eq_refl) as [-> ?]. split; [simpl; lia|done].
Qed.

Lemma files_loop_spec open limit s b names bytes p :
  length (events p) <= limit -> small p bytes ->
  let (p', stop) := files_loop open limit s b names bytes p in
  reads limit (history open s b names) bytes p p' stop.
Proof.
  revert bytes p. induction names as [|n names IH]; intros bytes p Hlim Hs; simpl.
  { exists [], []. simpl. by rewrite app_nil_r, N.add_0_r. }
  pose proof (read_tail_spec (open n) (limit - length (events p) + 1) s b p ltac:(lia)) as Ht.
  destruct (read_tail _ _ _ _ _) as [t p1]. destruct Ht as [[Hev1 Htr1] Ht].
  assert (Hs1 : small p1 bytes) by (unfold small; by rewrite Hev1).
  rewrite <- Hev1 in Hlim. destruct t as [t|].
  2: { rewrite Ht. specialize (IH bytes p1 Hlim Hs1). simpl.
       destruct (files_loop _ _ _ _ _ _ _) as [p' stop]. unfold reads in *.
       by rewrite Hev1, Htr1 in IH. }
  rewrite <- Hev1 in Ht. destruct Ht as (cut & -> & -> & Hcr). rewrite reverse_app.
  pose proof (consume_spec limit (reverse (ring t)) bytes p1 Hlim Hs1) as Hc.
  destruct (consume _ _ _ _) as [[p2 bytes2] stop].
  destruct Hc as ((taken & rest & Hr & Hev2 & Hlen2 & Hsm2 & Hst) & Hn). rewrite Hr.
  destruct stop as [time|].
  { destruct Hst as (Htr & x & rest' & -> & -> & Hfull).
    exists taken, ((x :: rest') ++ reverse cut ++ history open s b names).
    rewrite Hev2, Hev1 in *. rewrite <- !app_assoc. split_and!; try done. by eexists _, _. }
  destruct Hst as [-> Htr2], (Hn eq_refl) as [-> Hs2]. rewrite app_nil_r in *. subst taken.
  unfold last_time. destruct (last cut) as [x|] eqn:El.
  - apply last_Some in El as [cut' ->]. rewrite reverse_app. simpl.
    exists (reverse (ring t)), (x :: reverse cut' ++ history open s b names).
    unfold crowded in Hcr. rewrite last_snoc in Hcr. destruct Hcr as [Hne Hcr].
    simpl. rewrite Hev2, length_app, length_fmap, length_reverse in Hlen2.
    rewrite Hev2, Hev1 in *. rewrite <- app_assoc. split_and!; try done.
    { rewrite length_app, length_fmap, length_reverse. lia. }
    eexists _, _. split_and!; try done. right. split.
    { intros [_ Hnil]%app_eq_nil. apply fmap_nil_inv in Hnil. apply Hne.
      by rewrite <- (reverse_involutive (ring t)), Hnil. }
    rewrite size_of_reverse. destruct Hcr as [Hcr|Hcr]; lia.
  - apply last_None in El as ->. simpl. rewrite app_nil_r.
    specialize (IH _ p2 Hlen2 Hs2). destruct (files_loop _ _ _ _ _ _ _) as [p' stop].
    destruct IH as (taken & rest & -> & Hev & Hlen & Hsm & Hst).
    exists (reverse (ring t) ++ taken), rest. rewrite <- app_assoc, fmap_app, size_of_app.
    rewrite Hev, Hev2, Hev1, <- app_assoc, N.add_assoc. split_and!; try done.
    + by rewrite Hev, Hev2, Hev1, <- app_assoc in Hlen.
    + destruct stop; [by rewrite Hev, Hev2, Hev1, <- app_assoc in Hst|].
      destruct Hst as [-> ->]. by rewrite Htr2, Htr1.
Qed.

(** *** The cut *)

Lemma position_spec b (evs : list json) :
  let k := position (has_time b) evs in
  Forall (fun e => event_time e <> Some b) (take k evs) /\
  match drop k evs with e :: _ => event_time e = Some b | [] => True end.
Proof.
  cbv zeta. induction evs as [|e evs [IH1 IH2]]; simpl; [done|]. unfold has_time at 1 3.
  case_bool_decide as He; simpl; [done|]. split; [by constructor|done].
Qed.

(** Where a page may end before [rest]: no event shown has the time of the first
    one left out, or the first shown already has it. *)
Definition clean (shown rest : list (json * N)) : Prop :=
  match rest with
  | [] => True
  | x :: _ =>
      match time_of x with
      | None => True
      | Some t => Forall (fun y => time_of y <> Some t) shown \/
                  exists y ys, shown = y :: ys /\ time_of y = Some t
      end
  end.

Lemma cut_clean shown x rest :
  exists kept cut, shown = kept ++ cut /\ clean kept (cut ++ x :: rest) /\
    cut_on_a_timestamp_boundary shown.*1 (time_of x) = kept.*1 /\ (kept = [] -> shown = []) /\
    Forall (fun y => time_of y = time_of x) (take 1 cut).
Proof.
  unfold cut_on_a_timestamp_boundary. destruct (time_of x) as [t|] eqn:Hx.
  2: { exists shown, []. rewrite app_nil_r. split_and!; try done. all: simpl; try (by rewrite Hx); constructor. }
  destruct (position_spec t shown.*1) as [Hk Hd]. set (k := position (has_time t) shown.*1) in *.
  destruct (Nat.ltb_spec 0 k) as [Hpos|Hz].
  - exists (take k shown), (drop k shown). rewrite take_drop, fmap_take. split_and!; try done.
    2: { destruct k; [lia|]. by destruct shown. }
    2: { rewrite <- fmap_drop in Hd. destruct (drop k shown) as [|y ys]; repeat constructor. exact Hd. }
    unfold clean. rewrite <- fmap_take, Forall_fmap in Hk. rewrite <- fmap_drop in Hd.
    destruct (drop k shown) as [|y ys]; simpl; [rewrite Hx; by left|].
    simpl in Hd. unfold time_of at 1. rewrite Hd. by left.
  - exists shown, []. rewrite app_nil_r. split_and!; try done. simpl. rewrite Hx.
    assert (k = 0) as Hk0 by lia. rewrite Hk0 in Hd. destruct shown as [|y ys]; [by left|].
    right. by exists y, ys.
Qed.

(** *** Cursors *)

Definition instant (x : json * N) : option Z := time_of x ≫= parse_from_rfc3339.

(** Before [i], or of no readable time. *)
Definition earlier (i : Z) (x : json * N) : bool :=
  match instant x with Some j => (j <? i)%Z | None => true end.

Lemma selected_before s b i e len :
  (match b with Some b => (i <= b)%Z | None => True end) ->
  selected s (Some i) e = selected s b e && earlier i (e, len).
Proof.
  intros Hb. unfold selected, earlier, instant, time_of. simpl. rewrite andb_false_r. simpl.
  destruct (event_time e ≫= parse_from_rfc3339) as [j|].
  - destruct s as [s|], b as [b|]; simpl; try done.
    + destruct (Z.leb_spec s j), (Z.ltb_spec j i), (Z.ltb_spec j b); simpl; done || lia.
    + by rewrite andb_true_r.
    + destruct (Z.ltb_spec j i), (Z.ltb_spec j b); simpl; done || lia.
  - by destruct s, b.
Qed.

Lemma picked_before s b i ls :
  (match b with Some b => (i <= b)%Z | None => True end) ->
  picked s (Some i) ls = List.filter (earlier i) (picked s b ls).
Proof.
  intros Hb. induction ls as [|[line|] ls IH]; simpl; [done| |done].
  destruct (if String.eqb (trim line) EmptyString then None else parse_json (trim line)) as [e|];
    [|done].
  rewrite (selected_before s b i e (N.of_nat (String.length (trim line))) Hb).
  destruct (selected s b e); simpl; [|done]. destruct (earlier i _); by rewrite IH.
Qed.

Lemma filter_reverse {A} (f : A -> bool) l : List.filter f (reverse l) = reverse (List.filter f l).
Proof. unfold reverse. by rewrite <- !rev_alt, List.filter_rev. Qed.

Lemma history_before open s b i names :
  (match b with Some b => (i <= b)%Z | None => True end) ->
  history open s (Some i) names = List.filter (earlier i) (history open s b names).
Proof.
  intros Hb. induction names as [|n names IH]; simpl; [done|].
  rewrite List.filter_app, <- IH, filter_reverse. f_equal. f_equal.
  destruct (open n) as [| |ls]; simpl; [done..|]. by apply picked_before.
Qed.

Lemma picked_selected s b ls : Forall (fun x => selected s b x.1 = true) (picked s b ls).
Proof.
  induction ls as [|[line|] ls IH]; simpl; [done| |done].
  destruct (if String.eqb (trim line) EmptyString then None else parse_json (trim line)) as [e|];
    [|done]. destruct (selected s b e) eqn:Hs; [by constructor|done].
Qed.

Lemma history_selected open s b names :
  Forall (fun x => selected s b x.1 = true) (history open s b names).
Proof.
  induction names as [|n names IH]; simpl; [done|]. apply Forall_app. split; [|done].
  apply Forall_reverse. destruct (open n); simpl; [done..|]. apply picked_selected.
Qed.

(** Newest first by instant, one spelling to an instant. *)
Record chronological (l : list (json * N)) : Prop := {
  ch_readable : forall x, x ∈ l -> is_Some (instant x);
  ch_sorted : StronglySorted (fun x y => forall i j, instant x = Some i -> instant y = Some j ->
                                (j <= i)%Z) l;
  ch_spelled : forall x y, x ∈ l -> y ∈ l -> instant x = instant y -> time_of x = time_of y;
}.

Lemma filter_none {A} (f : A -> bool) l : (forall x, x ∈ l -> f x = false) -> List.filter f l = [].
Proof.
  induction l as [|x l IH]; intros Hf; simpl; [done|]. rewrite Hf by set_solver.
  apply IH. set_solver.
Qed.

Lemma filter_all {A} (f : A -> bool) l : (forall x, x ∈ l -> f x = true) -> List.filter f l = l.
Proof.
  induction l as [|x l IH]; intros Hf; simpl; [done|]. rewrite Hf by set_solver.
  f_equal. apply IH. set_solver.
Qed.

(** A cursor on the last event of a clean page selects what the page left out. *)
Lemma cursor_rest shown rest z i :
  chronological (shown ++ [z] ++ rest) -> clean (shown ++ [z]) rest -> instant z = Some i ->
  rest = [] \/ (exists y, y ∈ shown /\ time_of y <> time_of z) ->
  List.filter (earlier i) (shown ++ [z] ++ rest) = rest.
Proof.
  intros [Hread Hsort Hspell] Hclean Hi Hone.
  apply StronglySorted_app in Hsort as (Hsz & Hss & Hs2).
  apply StronglySorted_app in Hs2 as (Hzr & _ & Hr).
  rewrite !List.filter_app. rewrite (filter_none _ shown), (filter_none _ [z]), (filter_all _ rest).
  - done.
  - intros x Hx. unfold earlier. destruct (instant x) as [j|] eqn:Hj; [|done].
    apply Z.ltb_lt. assert (Hle : (j <= i)%Z) by (apply (Hzr z x); set_solver).
    destruct (Z.eq_dec j i) as [->|]; [exfalso|lia].
    destruct rest as [|r rest]; [set_solver|]. destruct Hone as [|(y & Hy & Hyz)]; [done|].
    destruct (Hread r) as [jr Hjr]; [set_solver|].
    assert (Hri : jr = i).
    { assert ((jr <= i)%Z) by (apply (Hzr z r); set_solver).
      assert ((i <= jr)%Z); [|lia]. inversion Hr as [|r' rest' _ Hall]; subst.
      apply elem_of_cons in Hx as [->|Hx]; [rewrite Hj in Hjr; by simplify_eq|].
      rewrite Forall_forall in Hall. by apply (Hall x). }
    subst jr. assert (Hrz : time_of r = time_of z).
    { apply Hspell; [set_solver..|]. by rewrite Hjr, Hi. }
    unfold clean in Hclean. rewrite Hrz in Hclean. unfold instant in Hi.
    destruct (time_of z) as [t|] eqn:Ht; [|done]. destruct Hclean as [Hall|(h & hs & Hh & Hth)].
    + apply Forall_app in Hall as [_ Hz]. inversion Hz; subst. congruence.
    + apply Hyz. rewrite <- Hth.
      destruct (Hread y) as [iy Hiy]; [set_solver|].
      assert (Hhi : instant h = Some i) by (unfold instant; by rewrite Hth).
      assert (Hyi : iy = i); [|apply Hspell; [destruct shown; set_solver..|congruence]].
      assert ((i <= iy)%Z) by (apply (Hsz y z); [done|set_solver|done|by unfold instant; rewrite Ht]).
      assert ((iy <= i)%Z); [|lia].
      destruct shown as [|h' sh]; [set_solver|]. simplify_eq/=.
      apply elem_of_cons in Hy as [->|Hy]; [rewrite Hhi in Hiy; by simplify_eq|].
      inversion Hss as [|h' sh' _ Hall]; subst. rewrite Forall_forall in Hall. by apply (Hall y).
  - intros x Hx. assert (x = z) as -> by set_solver. unfold earlier. rewrite Hi.
    apply Z.ltb_ge. lia.
  - intros x Hx. unfold earlier. destruct (Hread x) as [j Hj]; [set_solver|]. rewrite Hj.
    apply Z.ltb_ge. apply (Hsz x z); [done|set_solver|done|done].
Qed.

(** ** Properties *)

(** What [read_newest] answers. *)
Lemma page_of_the_trail d req :
  match read_newest d req with
  | Err e =>
      parse_bound "since" (since req) = Err e \/ parse_bound "before" (before req) = Err e \/
      newest_names d = Err e
  | Ok p =>
      exists s b names skipped shown rest,
        parse_bound "since" (since req) = Ok s /\ parse_bound "before" (before req) = Ok b /\
        newest_names d = Ok (names, skipped) /\
        history (open d) s b names = shown ++ rest /\ events p = shown.*1 /\
        length shown <= clamp (limit req) /\
        ((size_of shown <= MAX_BYTES)%N \/ length shown <= 1) /\
        (truncated p = true <-> rest <> [] \/ 0 < skipped) /\ clean shown rest /\
        (rest = [] \/ exists cut x rest', rest = cut ++ x :: rest' /\
           full (clamp (limit req)) (shown ++ cut) x /\
           Forall (fun y => time_of y = time_of x) (take 1 cut)) /\
        (shown = [] -> rest = [])
  end.
Proof.
  unfold read_newest.
  destruct (parse_bound "since" (since req)) as [s|e] eqn:Hs; [|by left].
  destruct (parse_bound "before" (before req)) as [b|e] eqn:Hb; [|by right; left].
  destruct (newest_names d) as [[names skipped]|e] eqn:Hn; [|by right; right].
  set (p0 := {| events := []; truncated := 0 <? skipped; malformed_lines := 0;
                unreadable_files := 0 |}).
  pose proof (files_loop_spec (open d) (clamp (limit req)) s b names 0 p0) as Hf.
  destruct (files_loop _ _ _ _ _ _ _) as [p stop].
  destruct Hf as (shown & rest & Hh & Hev & Hlen & Hsm & Hst); [simpl; lia|left; done|].
  simpl in Hev. unfold small in Hsm. rewrite Hev, length_fmap in *. rewrite N.add_0_l in *.
  destruct stop as [time|].
  - destruct Hst as (Htr & x & rest' & -> & -> & Hfull).
    assert (Hne : shown <> []).
    { intros ->. destruct Hfull as [Hfull|[Hfull _]]; [unfold clamp, MAX_LIMIT in Hfull; simpl in Hfull; lia|done]. }
    destruct (cut_clean shown x rest') as (kept & cut & -> & Hclean & Hcut & Hkept & Htimes).
    exists s, b, names, skipped, kept, (cut ++ x :: rest'). rewrite <- app_assoc in Hh.
    rewrite length_app, size_of_app in *. simpl. rewrite ?Hev. split_and!; try done; try lia.
    + split; [|done]. intros _. left. by destruct cut.
    + right. exists cut, x, rest'. split_and!; [done| |done]. unfold full.
      rewrite length_app, size_of_app. destruct Hfull as [|[_ ?]]; [by left|by right].
    + intros Hk. by specialize (Hkept Hk).
  - destruct Hst as [-> Htr]. exists s, b, names, skipped, shown, [].
    split_and!; try done; [|by left]. rewrite Htr. simpl. split.
    + intros Hk%Nat.ltb_lt. by right.
    + intros [|Hk]; [done|]. by apply Nat.ltb_lt.
Qed.

(** *** What the page is of, said without the code *)

(** A finished batch: the writer's suffix, and not the prefix of a batch in progress. *)
Definition finished (name : string) : Prop :=
  (exists stem, name = stem +:+ ".jsonl") /\ ~ exists rest, name = ".tmp-" +:+ rest.

Lemma is_batch_spec name : is_batch name = true <-> finished name.
Proof.
  unfold is_batch, finished. rewrite andb_true_iff, negb_true_iff, ends_with_spec.
  rewrite <- starts_with_spec, not_true_iff_false. done.
Qed.

#[export] Instance finished_dec name : Decision (finished name).
Proof. refine (cast_if (decide (is_batch name = true))); by rewrite <- is_batch_spec. Defined.

(** The finished batches of a listing, [newest] the ones a call opens, [older] the
    others: in descending order of their names, the greatest 500 first. *)
Definition newest_first (entries : list (option string)) (newest older : list string) : Prop :=
  newest ++ older ≡ₚ filter finished (omap id entries) /\
  StronglySorted (flip String.le) (newest ++ older) /\
  length newest = Nat.min 500 (length (newest ++ older)).

(** When an event says it happened. *)
Definition instant_of (e : json) : option Z := (get e "eventTime" ≫= as_str) ≫= parse_from_rfc3339.

(** At or after [since], and before [before]; an event of no readable time is in every
    window. *)
Definition in_window (since before : option Z) (e : json) : Prop :=
  forall i, instant_of e = Some i ->
    (forall l, since = Some l -> (l <= i)%Z) /\ (forall u, before = Some u -> (i < u)%Z).

Lemma selected_spec s b e : selected s b e = true <-> in_window s b e.
Proof.
  unfold selected, in_window. change (event_time e ≫= parse_from_rfc3339) with (instant_of e).
  destruct (instant_of e) as [i|]; [|by destruct s, b; split].
  destruct s as [s|], b as [b|]; simpl; rewrite ?andb_true_iff, ?Z.leb_le, ?Z.ltb_lt;
    naive_solver.
Qed.

#[export] Instance in_window_dec s b e : Decision (in_window s b e).
Proof. refine (cast_if (decide (selected s b e = true))); by rewrite <- selected_spec. Defined.

(** The lines a reader gets of a file, up to its first fault. *)
Fixpoint readable (ls : list (option string)) : list string :=
  match ls with
  | Some line :: ls => line :: readable ls
  | _ => []
  end.

(** A line's event, and the bytes it has without the blanks around it. *)
Definition event_of (line : string) : option (json * N) :=
  if decide (trim line = EmptyString) then None
  else (fun e => (e, N.of_nat (String.length (trim line)))) <$> parse_json (trim line).

(** The events a file records, oldest first. *)
Definition recorded (f : File) : list (json * N) :=
  match f with Lines ls => omap event_of (readable ls) | _ => [] end.

(** The events of [names] in the window, newest first. *)
Definition trail (d : Dir) (s b : option Z) (names : list string) : list (json * N) :=
  concat (map (fun n => reverse (filter (fun x => in_window s b x.1) (recorded (open d n)))) names).

Lemma picked_recorded s b ls :
  picked s b ls = filter (fun x => in_window s b x.1) (omap event_of (readable ls)).
Proof.
  induction ls as [|[line|] ls IH]; [done| |done]. simpl. unfold event_of at 1.
  destruct (String.eqb_spec (trim line) EmptyString) as [He|He].
  - by rewrite decide_True.
  - rewrite decide_False by done. destruct (parse_json (trim line)) as [e|]; simpl; [|done].
    rewrite filter_cons. simpl.
    destruct (selected s b e) eqn:Hs.
    + rewrite decide_True by (by apply selected_spec). by rewrite IH.
    + rewrite decide_False; [done|]. by rewrite <- selected_spec, Hs.
Qed.

Lemma history_trail d s b names : history (open d) s b names = trail d s b names.
Proof.
  unfold trail. induction names as [|n names IH]; simpl; [done|]. rewrite IH. f_equal. f_equal.
  unfold file_events, recorded. destruct (open d n); try done. apply picked_recorded.
Qed.

Lemma batches_finished es : batches es = filter finished (omap id es).
Proof.
  unfold batches. induction (omap id es) as [|n l IH]; [done|]. simpl. rewrite filter_cons.
  destruct (is_batch n) eqn:Hb.
  - rewrite decide_True by (by apply is_batch_spec). by rewrite IH.
  - rewrite decide_False; [done|]. by rewrite <- is_batch_spec, Hb.
Qed.

Lemma newest_names_first d names skipped :
  newest_names d = Ok (names, skipped) ->
  exists es older, listing d = Ok es /\ newest_first es names older /\ length older = skipped.
Proof.
  rewrite newest_names_eq. destruct (listing d) as [es|e]; [|done]. cbv zeta. intros [= <- <-].
  set (l := sort_strings (batches es)). set (n := length (batches es) - MAX_FILES).
  assert (Hlen : length l = length (batches es)) by apply Permutation_length, sort_strings_Permutation.
  exists es, (reverse (take n l)). unfold newest_first.
  rewrite <- reverse_app, take_drop, !length_reverse, length_drop, length_take, Hlen.
  split_and!; [done| | |unfold n, MAX_FILES; lia|unfold n; lia].
  - unfold l. rewrite reverse_Permutation, sort_strings_Permutation, batches_finished. done.
  - apply StronglySorted_reverse, sort_strings_Sorted.
Qed.

(** A bound the caller gave is the instant it names. *)
Definition bounded_by (raw : option string) (o : option Z) : Prop :=
  match raw with
  | None => o = None
  | Some t => exists i, parse_from_rfc3339 t = Some i /\ o = Some i
  end.

Lemma parse_bound_spec field raw :
  match parse_bound field raw with
  | Ok o => bounded_by raw o
  | Err e => exists t, raw = Some t /\ parse_from_rfc3339 t = None /\ e = BadTimestamp field t
  end.
Proof. unfold parse_bound, bounded_by. destruct raw as [t|]; [|done]. destruct (parse_from_rfc3339 t) eqn:?; eauto. Qed.

(** C33: a page is a prefix of the trail, newest first: the events in the window, from
    [since] on and before [before], of the 500 finished batches with the greatest names
    (never one in progress), the last batch first and each from its last line on, a line
    that is no JSON passed over and a file read up to its first fault.  It holds at most the limit, which lies between 1 and 500, and, past its first event, at most
    256 KiB.  Where something is left out it is because the next event is past the limit
    or the cap of bytes, or has the time of one that is; it says it is truncated exactly
    when something is left out or there are older batches; no event it shows has the time
    of the first one left out, unless the first it shows has it; and it is only empty
    where the trail is.  It fails only on a bound that is no timestamp, or a directory
    that cannot be listed. *)
Theorem read_newest_spec d req :
  match read_newest d req with
  | Err e =>
      (exists t, since req = Some t /\ parse_from_rfc3339 t = None /\ e = BadTimestamp "since" t) \/
      (exists t, before req = Some t /\ parse_from_rfc3339 t = None /\ e = BadTimestamp "before" t) \/
      (exists x, listing d = Err x /\ e = Io x)
  | Ok p =>
      exists s b entries newest older shown rest,
        bounded_by (since req) s /\ bounded_by (before req) b /\
        listing d = Ok entries /\ newest_first entries newest older /\
        trail d s b newest = shown ++ rest /\ events p = shown.*1 /\
        let limit := Nat.min (Nat.max (limit req) 1) 500 in
        length shown <= limit /\
        ((size_of shown <= 256 * 1024)%N \/ length shown <= 1) /\
        (truncated p = true <-> rest <> [] \/ older <> []) /\ clean shown rest /\
        (rest = [] \/ exists cut x rest', rest = cut ++ x :: rest' /\
           full limit (shown ++ cut) x /\ Forall (fun y => time_of y = time_of x) (take 1 cut)) /\
        (shown = [] -> rest = [])
  end.
Proof.
  pose proof (page_of_the_trail d req) as Hp.
  destruct (read_newest d req) as [p|e].
  - destruct Hp as (s & b & names & skipped & shown & rest & Hs & Hb & Hn & Hh & Hev & Hlen & Hsz &
      Htr & Hcl & Hfull & Hne).
    destruct (newest_names_first d _ _ Hn) as (es & older & Hes & Hfirst & Hskip).
    exists s, b, es, names, older, shown, rest. rewrite <- history_trail.
    split_and!; try done.
    + pose proof (parse_bound_spec "since" (since req)) as Hsp. by rewrite Hs in Hsp.
    + pose proof (parse_bound_spec "before" (before req)) as Hsp. by rewrite Hb in Hsp.
    + cbv zeta. split_and!; try done. rewrite Htr, <- Hskip.
      destruct older; simpl; intuition (done || lia).
  - destruct Hp as [Hs|[Hb|Hn]].
    + left. pose proof (parse_bound_spec "since" (since req)) as Hsp. by rewrite Hs in Hsp.
    + right; left. pose proof (parse_bound_spec "before" (before req)) as Hsp. by rewrite Hb in Hsp.
    + right; right. rewrite newest_names_eq in Hn. destruct (listing d) as [es|x]; [done|].
      injection Hn as <-. by exists x.
Qed.

(** paging backwards is exact on a trail in timestamp order whose files were
    all listed: taking the last event's time as the next [before] selects exactly
    what the page left out, unless all it shows has that one time. *)
Theorem paging_exact d req p names s b e t i :
  read_newest d req = Ok p ->
  parse_bound "since" (since req) = Ok s -> parse_bound "before" (before req) = Ok b ->
  newest_names d = Ok (names, 0) -> chronological (history (open d) s b names) ->
  last (events p) = Some e -> event_time e = Some t -> parse_from_rfc3339 t = Some i ->
  truncated p = false \/ (exists y, y ∈ events p /\ event_time y <> Some t) ->
  exists shown, events p = shown.*1 /\
    history (open d) s b names = shown ++ history (open d) s (Some i) names.
Proof.
  intros Hp Hs Hb Hn Hch Hlast Ht Hi Hone. pose proof (page_of_the_trail d req) as Hr.
  rewrite Hp in Hr. destruct Hr as (s' & b' & names' & sk & shown & rest & Hs' & Hb' & Hn' & Hh &
    Hev & _ & _ & Htr & Hclean & _ & _).
  assert (s' = s) as -> by congruence. assert (b' = b) as -> by congruence.
  assert (names' = names) as -> by congruence. assert (sk = 0) as -> by congruence.
  exists shown. split; [done|]. rewrite Hh. f_equal.
  rewrite Hev in Hlast. destruct shown as [|z shown _] using rev_ind; [done|].
  rewrite fmap_app in Hlast. simpl in Hlast. rewrite last_snoc in Hlast. simplify_eq.
  assert (Hiz : instant z = Some i) by (unfold instant, time_of; by rewrite Ht).
  rewrite (history_before _ s b), Hh, <- app_assoc.
  - symmetry. rewrite Hh, <- app_assoc in Hch. apply (cursor_rest _ _ _ i); try done.
    destruct rest as [|r rest]; [by left|right].
    destruct Hone as [Hf|(y & Hy & Hyt)]; [rewrite Hf in Htr; destruct Htr as [_ Htr]; by discriminate Htr; left|].
    rewrite Hev in Hy. apply list_elem_of_fmap in Hy as (w & -> & Hw). exists w.
    unfold time_of. rewrite Ht. split; [|done].
    apply elem_of_app in Hw as [|Hw]; [done|]. set_solver.
  - pose proof (history_selected (open d) s b names) as Hall. rewrite Hh in Hall.
    rewrite !Forall_app in Hall. destruct Hall as [[_ Hz] _]. inversion Hz as [|z' l Hsel]; subst.
    unfold selected in Hsel. rewrite Ht in Hsel. simpl in Hsel. rewrite Hi in Hsel.
    destruct b as [b|]; [|done]. destruct s as [s|]; simpl in Hsel.
    + apply andb_true_iff in Hsel as [_ Hsel%Z.ltb_lt]. lia.
    + apply Z.ltb_lt in Hsel. lia.
Qed.
End spec.

(** ** A trail to evaluate on *)

Module Trail.
(** An event is its line; its time is its first character. *)
#[local] Instance values : Values :=
  {| json := string; json_null := EmptyString; batch := unit; batch_objects := fun _ => Ok [] |}.

#[local] Instance lines : Events :=
  {| parse_json := fun l => Some l;
     get := fun e f => if String.eqb f "eventTime" then head (chars e) else None;
     as_str := fun e => Some e;
     parse_from_rfc3339 := fun t =>
       match t with
       | String a EmptyString => Some (Z.of_N (N_of_ascii a))
       | _ => None
       end |}.

(** Each run leaves its start and its end together, when it ends; the start has
    the time it began at. *)
Definition overlapping : list (option string) :=
  [Some "4 B start"; Some "5 B complete"; Some "1 A start"; Some "9 A complete"].

Definition in_order : list (option string) :=
  [Some "1 A start"; Some "2 A complete"; Some "3 B start"; Some "4 B complete"].

Definition one_file (ls : list (option string)) : Dir :=
  {| listing := Ok [Some "0000000000001-a.jsonl"; Some ".tmp-b"]; open := fun _ => Lines ls |}.

Definition newest (n : nat) (before : option string) : PageRequest :=
  {| limit := n; since := None; before := before |}.
End Trail.

Section trail.
Import Trail.
#[local] Existing Instances values lines.

(** a run that overlaps a shorter one makes a cursor skip: the page shows the
    long run, whose start bears the oldest time, and the page before that time is
    empty and claims to be whole, so the run recorded in between is never shown. *)
Theorem paging_skips_backdated_starts :
  exists p q, read_newest (one_file overlapping) (newest 2 None) = Ok p /\
    events p = ["9 A complete"; "1 A start"] /\ truncated p = true /\
    read_newest (one_file overlapping) (newest 2 (Some "1")) = Ok q /\
    events q = [] /\ truncated q = false.
Proof. eexists _, _. vm_compute. by split_and!. Qed.

Lemma paging_exact_witness :
  exists p, read_newest (one_file in_order) (newest 2 None) = Ok p /\
    (history (fun _ => Lines in_order) None None ["0000000000001-a.jsonl"]).*1 =
      events p ++ ["2 A complete"; "1 A start"].
Proof.
  assert (Hok : is_ok (read_newest (one_file in_order) (newest 2 None)) = true)
    by (vm_compute; reflexivity).
  destruct (read_newest (one_file in_order) (newest 2 None)) as [p|e] eqn:Hp; [|discriminate Hok].
  exists p. split; [reflexivity|]. assert (Hev : events p = ["4 B complete"; "3 B start"]).
  { vm_compute in Hp. by injection Hp as <-. }
  destruct (paging_exact (one_file in_order) (newest 2 None) p ["0000000000001-a.jsonl"] None None
    "3 B start" "3" 51) as (shown & Hshown & Hh); try reflexivity; try exact Hp.
  - assert (Htrail : history (open (one_file in_order)) None None ["0000000000001-a.jsonl"] =
      [("4 B complete", 12%N); ("3 B start", 9%N); ("2 A complete", 12%N); ("1 A start", 9%N)])
      by (vm_compute; reflexivity).
    rewrite Htrail. split.
    + intros x Hx. repeat (apply elem_of_cons in Hx as [->|Hx]; [by eexists|]).
      by apply elem_of_nil in Hx.
    + repeat (apply SSorted_cons || apply Forall_cons || apply Forall_nil || apply SSorted_nil
              || split); intros i j Hi Hj; vm_compute in Hi, Hj; simplify_eq; lia.
    + intros x y Hx Hy Hxy.
      repeat (apply elem_of_cons in Hx as [->|Hx]; [|]); try (by apply elem_of_nil in Hx);
        repeat (apply elem_of_cons in Hy as [->|Hy]; [|]); try (by apply elem_of_nil in Hy);
        done || (vm_compute in Hxy; discriminate Hxy).
  - by rewrite Hev.
  - right. exists "4 B complete". rewrite Hev. split; [left|done].
  - cbn [open one_file] in Hh. rewrite Hh, fmap_app, Hshown. reflexivity.
Defined.
End trail.
