(* ===== verification/LineageWrite.v ===== *)
(** * Writing a pond's lineage trail

    Models [latiq-lineage/src/writer.rs] and the queue of [sink.rs].  The writer's
    buffer is under a mutex and its IO is not, so a flush is two sections, the one
    that takes the buffer and the one that writes or puts back; [Writer.step]
    interleaves any number of flushes with recording.  The sink's queue is pushed
    by operations and popped by one poster task that sleeps between; [Sink.step]
    interleaves them, with the permits of the two [Notify]s.  A poisoned lock,
    which disables either for good, is not modelled. *)
From S2P Require Import Prelude.
#[local] Arguments String.append !_ _ / : simpl nomatch.

Module Sink.
Definition QUEUE_CAPACITY : nat := 1024.

(** Counters are 64 bits wide in the code; they count events of one process. *)
Record Shared := {
  queue : list string;
  enqueued : N;
  posted : N;
  dropped : N;
  overflowing : bool;
}.

Definition empty : Shared :=
  {| queue := []; enqueued := 0; posted := 0; dropped := 0; overflowing := false |}.

(** [push]: the oldest events make room. *)
Definition push (event : string) (s : Shared) : Shared :=
  let q := queue s ++ [event] in
  let n := (enqueued s + 1)%N in
  if QUEUE_CAPACITY <? length q then
    let excess := length q - QUEUE_CAPACITY in
    {| queue := drop excess q; enqueued := n; posted := posted s;
       dropped := dropped s + N.of_nat excess; overflowing := true |}
  else
    {| queue := q; enqueued := n; posted := posted s; dropped := dropped s;
       overflowing := if length q <? QUEUE_CAPACITY then false else overflowing s |}.

Definition pop (s : Shared) : option string * Shared :=
  match queue s with
  | [] => (None, s)
  | e :: q => (Some e, {| queue := q; enqueued := enqueued s; posted := posted s;
                          dropped := dropped s; overflowing := overflowing s |})
  end.

Definition count_posted (s : Shared) : Shared :=
  {| queue := queue s; enqueued := enqueued s; posted := posted s + 1; dropped := dropped s;
     overflowing := overflowing s |}.

Definition settled (s : Shared) : N := (posted s + dropped s)%N.

(** What [drain] does at one look: return, or wait for progress. *)
Definition drain_done (target : N) (s : Shared) : bool := (target <=? settled s)%N.

(** ** The poster *)

(** [Idle]: about to pop; [Found_empty]: popped nothing, about to look at
    [closing]; [Asleep] on [work]. *)
Inductive Poster := Idle | Found_empty | Asleep | Posting (event : string) | Ended.

(** [notifying] calls are past their push, or their store of [closing], and short
    of [notify_one]; [permit] is the permit it stores.  [submitted], [delivered]
    and [evicted] are history. *)
Record Config := {
  shared : Shared;
  poster : Poster;
  permit : bool;
  notifying : nat;
  closing : bool;
  submitted : list string;
  delivered : list string;
  evicted : list string;
}.

Definition init : Config :=
  {| shared := empty; poster := Idle; permit := false; notifying := 0; closing := false;
     submitted := []; delivered := []; evicted := [] |}.

Inductive step : Config -> Config -> Prop :=
| step_push s p w n sub del ev e :
    step {| shared := s; poster := p; permit := w; notifying := n; closing := false;
            submitted := sub; delivered := del; evicted := ev |}
         {| shared := push e s; poster := p; permit := w; notifying := S n; closing := false;
            submitted := sub ++ [e]; delivered := del;
            evicted := ev ++ take (S (length (queue s)) - QUEUE_CAPACITY) (queue s) |}
| step_notify s p w n c sub del ev :
    step {| shared := s; poster := p; permit := w; notifying := S n; closing := c;
            submitted := sub; delivered := del; evicted := ev |}
         {| shared := s; poster := p; permit := true; notifying := n; closing := c;
            submitted := sub; delivered := del; evicted := ev |}
| step_close s p w n sub del ev :
    step {| shared := s; poster := p; permit := w; notifying := n; closing := false;
            submitted := sub; delivered := del; evicted := ev |}
         {| shared := s; poster := p; permit := w; notifying := S n; closing := true;
            submitted := sub; delivered := del; evicted := ev |}
| step_pop s w n c sub del ev :
    step {| shared := s; poster := Idle; permit := w; notifying := n; closing := c;
            submitted := sub; delivered := del; evicted := ev |}
         {| shared := (pop s).2;
            poster := match (pop s).1 with Some e => Posting e | None => Found_empty end;
            permit := w; notifying := n; closing := c;
            submitted := sub; delivered := del; evicted := ev |}
| step_look s w n c sub del ev :
    step {| shared := s; poster := Found_empty; permit := w; notifying := n; closing := c;
            submitted := sub; delivered := del; evicted := ev |}
         {| shared := s; poster := if c then Ended else Asleep; permit := w; notifying := n;
            closing := c; submitted := sub; delivered := del; evicted := ev |}
| step_wake s n c sub del ev :
    step {| shared := s; poster := Asleep; permit := true; notifying := n; closing := c;
            submitted := sub; delivered := del; evicted := ev |}
         {| shared := s; poster := Idle; permit := false; notifying := n; closing := c;
            submitted := sub; delivered := del; evicted := ev |}
| step_posted s w n c sub del ev e :
    step {| shared := s; poster := Posting e; permit := w; notifying := n; closing := c;
            submitted := sub; delivered := del; evicted := ev |}
         {| shared := count_posted s; poster := Idle; permit := w; notifying := n; closing := c;
            submitted := sub; delivered := del ++ [e]; evicted := ev |}.

Definition reachable (c : Config) : Prop := rtc step init c.
End Sink.

Module Writer.
Definition DEFAULT_BATCH_SIZE : nat := 64.
Definition DEFAULT_CAPACITY : nat := 10000.

Record Buffer := { events : list string; overflowing : bool }.

Record LineageWriter := {
  dir : option string;
  batch_size : nat;
  capacity : nat;
  buffer : Buffer;
  sink : option Sink.Shared;
}.

Definition is_absolute (p : string) : bool := starts_with "/" p.

Definition with_limits (dir : string) (batch_size capacity : nat) : LineageWriter :=
  {| dir := if String.eqb dir EmptyString || negb (is_absolute dir) then None else Some dir;
     batch_size := Nat.max batch_size 1; capacity := Nat.max capacity 1;
     buffer := {| events := []; overflowing := false |}; sink := None |}.

Definition new (dir : string) : LineageWriter :=
  with_limits dir DEFAULT_BATCH_SIZE DEFAULT_CAPACITY.

Definition with_sink (w : LineageWriter) (s : Sink.Shared) : LineageWriter :=
  {| dir := dir w; batch_size := batch_size w; capacity := capacity w; buffer := buffer w;
     sink := Some s |}.

Definition set_buffer (w : LineageWriter) (b : Buffer) : LineageWriter :=
  {| dir := dir w; batch_size := batch_size w; capacity := capacity w; buffer := b;
     sink := sink w |}.

Definition enforce_capacity (capacity : nat) (b : Buffer) : Buffer :=
  if capacity <? length (events b) then
    {| events := drop (length (events b) - capacity) (events b); overflowing := true |}
  else if length (events b) <? capacity then {| events := events b; overflowing := false |}
  else b.

(** The lines are the events as serialized; whether a batch is due. *)
Definition buffer_all (lines : list string) (w : LineageWriter) : bool * LineageWriter :=
  if bool_decide (lines = []) || (negb (is_Some_b (dir w)) && negb (is_Some_b (sink w))) then
    (false, w)
  else
    let w := match sink w with
             | Some s => with_sink w (foldl (fun s l => Sink.push l s) s lines)
             | None => w
             end in
    match dir w with
    | None => (false, w)
    | Some _ =>
        let b := enforce_capacity (capacity w)
                   {| events := events (buffer w) ++ lines; overflowing := overflowing (buffer w) |} in
        (batch_size w <=? length (events b), set_buffer w b)
    end.

(** The locked half of [flush]: the batch, and when it was taken. *)
Definition take_batch (millis : N) (w : LineageWriter) :
    option (list string * N) * LineageWriter :=
  if bool_decide (events (buffer w) = []) then (None, w)
  else (Some (events (buffer w), millis), set_buffer w {| events := []; overflowing := false |}).

(** [{millis:013}-{id}.jsonl] and [.tmp-{id}]. *)
Fixpoint zeros (n : nat) : string :=
  match n with
  | 0 => EmptyString
  | S n => String "0" (zeros n)
  end.

Definition zero_padded (width : nat) (n : N) : string :=
  zeros (width - String.length (pretty n)) +:+ pretty n.

Definition temp_name (id : string) : string := ".tmp-" +:+ id.

Definition final_name (millis : N) (id : string) : string :=
  zero_padded 13 millis +:+ "-" +:+ id +:+ ".jsonl".

Definition body (batch : list string) : string := join nl batch +:+ nl.

(** How the file system answers: every step works, the write or its sync fails,
    or the rename does.  A failure removes the temporary file. *)
Inductive Io := Works | Write_fails | Rename_fails.

(** The files of the directory, by name. *)
Notation Files := (gmap string string).

Definition write_batch (io : Io) (id : string) (batch : list string) (millis : N) (fs : Files) :
    result unit (list string) * Files :=
  match io with
  | Works => (Ok tt, <[final_name millis id := body batch]> (delete (temp_name id) fs))
  | Write_fails | Rename_fails => (Err batch, delete (temp_name id) fs)
  end.

(** The unlocked half of [flush]. *)
Definition write_or_requeue (io : Io) (id : string) (batch : list string) (millis : N)
    (w : LineageWriter) (fs : Files) : LineageWriter * Files :=
  match dir w with
  | None => (w, fs)
  | Some _ =>
      match write_batch io id batch millis fs with
      | (Ok _, fs) => (w, fs)
      | (Err batch, fs) =>
          (set_buffer w (enforce_capacity (capacity w)
             {| events := batch ++ events (buffer w); overflowing := overflowing (buffer w) |}), fs)
      end
  end.

Definition flush (io : Io) (id : string) (millis : N) (w : LineageWriter) (fs : Files) :
    LineageWriter * Files :=
  match take_batch millis w with
  | (None, w) => (w, fs)
  | (Some (batch, millis), w) => write_or_requeue io id batch millis w fs
  end.

Definition record_all (lines : list string) (io : Io) (id : string) (millis : N)
    (w : LineageWriter) (fs : Files) : LineageWriter * Files :=
  let (due, w) := buffer_all lines w in
  if due then flush io id millis w fs else (w, fs).

(** ** Interleaving *)

(** An id is fresh: no file has the name made of it.

    [taken]: the batches between the halves of their flushes.  [accepted],
    [written] and [lost] are history: the lines buffered, the batches written,
    and the lines a full buffer let go. *)
Record Config := {
  writer : LineageWriter;
  files : Files;
  taken : list (list string * N);
  accepted : list string;
  written : list (list string);
  lost : list string;
}.

Definition init (dir : string) (batch_size capacity : nat) : Config :=
  {| writer := with_limits dir batch_size capacity; files := ∅; taken := []; accepted := [];
     written := []; lost := [] |}.

(** What [enforce_capacity] lets go of [l]. *)
Definition overflow (capacity : nat) (l : list string) : list string :=
  take (length l - capacity) l.

Inductive step : Config -> Config -> Prop :=
| step_buffer w fs t acc wr lo lines d :
    dir w = Some d ->
    step {| writer := w; files := fs; taken := t; accepted := acc; written := wr; lost := lo |}
         {| writer := (buffer_all lines w).2; files := fs; taken := t; accepted := acc ++ lines;
            written := wr; lost := lo ++ overflow (capacity w) (events (buffer w) ++ lines) |}
| step_take w fs t acc wr lo millis batch w' :
    take_batch millis w = (Some batch, w') ->
    step {| writer := w; files := fs; taken := t; accepted := acc; written := wr; lost := lo |}
         {| writer := w'; files := fs; taken := batch :: t; accepted := acc; written := wr;
            lost := lo |}
| step_write w fs t1 t2 acc wr lo batch millis id fs' :
    fs !! final_name millis id = None ->
    write_or_requeue Works id batch millis w fs = (w, fs') ->
    step {| writer := w; files := fs; taken := t1 ++ (batch, millis) :: t2; accepted := acc;
            written := wr; lost := lo |}
         {| writer := w; files := fs'; taken := t1 ++ t2; accepted := acc;
            written := wr ++ [batch]; lost := lo |}
| step_requeue w fs t1 t2 acc wr lo batch millis id io w' fs' :
    io <> Works -> write_or_requeue io id batch millis w fs = (w', fs') ->
    step {| writer := w; files := fs; taken := t1 ++ (batch, millis) :: t2; accepted := acc;
            written := wr; lost := lo |}
         {| writer := w'; files := fs'; taken := t1 ++ t2; accepted := acc;
            written := wr; lost := lo ++ overflow (capacity w) (batch ++ events (buffer w)) |}.

Definition reachable (dir : string) (batch_size capacity : nat) (c : Config) : Prop :=
  rtc step (init dir batch_size capacity) c.
End Writer.
