(* ===== verification/LineageWriteSpec.v ===== *)
(** * What the writer and the sink keep

    Every line the writer accepts is written, in hand or let go by a full buffer,
    and nothing else; the names it gives sort by time; the reader gets back the
    lines it wrote.  The sink counts every event, keeps their order and its bound,
    and its poster is never asleep on work nobody will wake it for. *)
From S2P Require Import Prelude LineageRead LineageWrite.
#[local] Arguments String.append !_ _ / : simpl nomatch.
#[local] Arguments Nat.sub : simpl never.

(** ** The sink *)

Section sink.
Import Sink.

Definition in_post (p : Poster) : list string :=
  match p with Posting e => [e] | _ => [] end.

Lemma capacity_pos : 0 < QUEUE_CAPACITY.
Proof. unfold QUEUE_CAPACITY. lia. Qed.

Lemma push_queue e s :
  length (queue s) <= QUEUE_CAPACITY ->
  queue s ++ [e] = take (S (length (queue s)) - QUEUE_CAPACITY) (queue s) ++ queue (push e s).
Proof.
  pose proof capacity_pos. intros Hle. unfold push. rewrite length_app. cbn [length]. rewrite Nat.add_1_r.
  destruct (Nat.ltb_spec QUEUE_CAPACITY (S (length (queue s)))) as [Hlt|Hge]; cbn [queue].
  - rewrite drop_app_le by lia. by rewrite app_assoc, take_drop.
  - assert (S (length (queue s)) - QUEUE_CAPACITY = 0) as -> by lia. done.
Qed.

Lemma push_bound e s : length (queue (push e s)) <= QUEUE_CAPACITY.
Proof.
  unfold push. destruct (Nat.ltb_spec QUEUE_CAPACITY (length (queue s ++ [e]))); cbn [queue].
  - rewrite length_drop. lia.
  - done.
Qed.

Lemma push_counters e s :
  length (queue s) <= QUEUE_CAPACITY ->
  enqueued (push e s) = (enqueued s + 1)%N /\ posted (push e s) = posted s /\
  dropped (push e s) =
    (dropped s + N.of_nat (length (take (S (length (queue s)) - QUEUE_CAPACITY) (queue s))))%N.
Proof.
  pose proof capacity_pos. intros Hle. unfold push. rewrite length_app. cbn [length]. rewrite Nat.add_1_r, length_take.
  destruct (Nat.ltb_spec QUEUE_CAPACITY (S (length (queue s)))); cbn [enqueued posted dropped];
    split_and!; try done; f_equal; lia.
Qed.

Record sink_inv (c : Config) : Prop := {
  si_bound : length (queue (shared c)) <= QUEUE_CAPACITY;
  si_enqueued : enqueued (shared c) = N.of_nat (length (submitted c));
  si_posted : posted (shared c) = N.of_nat (length (delivered c));
  si_dropped : dropped (shared c) = N.of_nat (length (evicted c));
  (** The events settled, in hand and queued are those submitted, in order. *)
  si_order : exists l, submitted c = l ++ queue (shared c) /\
               l ≡ₚ delivered c ++ evicted c ++ in_post (poster c) /\
               delivered c ++ in_post (poster c) `sublist_of` l /\ evicted c `sublist_of` l;
  si_work : poster c = Asleep \/ poster c = Found_empty -> queue (shared c) <> [] ->
              permit c = true \/ 0 < notifying c;
  si_closing : poster c = Asleep -> closing c = true -> permit c = true \/ 0 < notifying c;
}.

Lemma step_sink_inv c c' : step c c' -> sink_inv c -> sink_inv c'.
Proof.
  destruct 1 as [s p w n sub del ev e|s p w n cl sub del ev|s p w n sub del ev
    |s w n cl sub del ev|s w n cl sub del ev|s n cl sub del ev|s w n cl sub del ev e];
    intros [Hb He Hp Hd (l & Hl & Hperm & Hdel & Hev) Ha Hc]; simpl in *.
  - destruct (push_counters e s Hb) as (E1 & E2 & E3). split; simpl.
    + apply push_bound.
    + rewrite E1, length_app, He. simpl. lia.
    + by rewrite E2.
    + rewrite E3, length_app, Hd. lia.
    + set (gone := take (S (length (queue s)) - QUEUE_CAPACITY) (queue s)).
      exists (l ++ gone). rewrite Hl, <- !app_assoc. rewrite (push_queue e s Hb). split_and!.
      * done.
      * rewrite Hperm. solve_Permutation.
      * by apply sublist_inserts_r.
      * by apply sublist_app.
    + intros _ _. right. lia.
    + done.
  - split; simpl; try done; [by exists l|intros _ _; by left|intros _ _; by left].
  - split; simpl; try done; [by exists l|intros _ _; right; lia..].
  - unfold pop. destruct (queue s) as [|e q] eqn:Eq; simpl; (split; simpl; rewrite ?Eq; try done);
      try by intros [|].
    + by exists l.
    + simpl in Hb. lia.
    + rewrite app_nil_r in Hperm, Hdel. exists (l ++ [e]). rewrite <- app_assoc.
      split_and!; [done| | |].
      * rewrite Hperm. solve_Permutation.
      * by apply sublist_app.
      * by apply sublist_inserts_r.
  - split; simpl; try done; [by exists l; destruct cl| |].
    + intros _ Hq. apply Ha; [by right|done].
    + by destruct cl.
  - split; simpl; try done; [by exists l|by intros [|]].
  - split; simpl; try done; [rewrite length_app; simpl; lia| |by intros [|]].
    exists l. rewrite !app_nil_r. split_and!; [done| |done..]. rewrite Hperm. solve_Permutation.
Qed.

Lemma reachable_sink_inv c : reachable c -> sink_inv c.
Proof.
  unfold reachable. intros Hr. assert (Hi : sink_inv init).
  { split; simpl; try done; [apply Nat.le_0_l|]. exists []. by split_and!. }
  revert Hi. induction Hr as [|c c' c'' Hs _ IH]; intros Hi; [done|].
  apply IH. by eapply step_sink_inv.
Qed.

Lemma sublist_submseteq_take {A} n (l k m : list A) :
  l ≡ₚ m -> n <= length l -> take n (l ++ k) ⊆+ m.
Proof.
  intros Hm Hn. rewrite take_app_le by done. rewrite <- Hm.
  apply sublist_submseteq, sublist_take.
Qed.
End sink.

(** ** The writer *)

Section writer.
Import Writer.

Lemma overflow_split cap l : l = overflow cap l ++ drop (length l - cap) l.
Proof. unfold overflow. by rewrite take_drop. Qed.

Lemma enforce_events cap b :
  events b = overflow cap (events b) ++ events (enforce_capacity cap b) /\
  length (events (enforce_capacity cap b)) <= cap.
Proof.
  unfold enforce_capacity. destruct (Nat.ltb_spec cap (length (events b))) as [Hlt|Hge].
  - cbn [events]. split; [apply overflow_split|]. rewrite length_drop. lia.
  - assert (Ho : overflow cap (events b) = []).
    { unfold overflow. replace (length (events b) - cap) with 0 by lia. done. }
    rewrite Ho. destruct (Nat.ltb_spec (length (events b)) cap); simpl; split; done || lia.
Qed.

Record writer_inv (c : Config) : Prop := {
  wi_lines : accepted c ≡ₚ concat (written c) ++ concat (taken c).*1 ++
               events (buffer (writer c)) ++ lost c;
  wi_bound : length (events (buffer (writer c))) <= capacity (writer c);
  wi_batches : Forall (fun b => b <> []) ((taken c).*1 ++ written c);
  wi_names : map_Forall (fun n b => exists batch m id, batch ∈ written c /\
               n = final_name m id /\ b = body batch) (files c);
  wi_written : Forall (fun batch => exists m id, files c !! final_name m id = Some (body batch))
                 (written c);
  wi_count : size (files c) = length (written c);
  wi_dir : dir (writer c) = None -> taken c = [] /\ events (buffer (writer c)) = [];
}.

Lemma buffer_all_events d lines w :
  dir w = Some d -> length (events (buffer w)) <= capacity w ->
  let w' := (buffer_all lines w).2 in
  events (buffer w) ++ lines =
    overflow (capacity w) (events (buffer w) ++ lines) ++ events (buffer w') /\
  length (events (buffer w')) <= capacity w' /\ dir w' = Some d /\ capacity w' = capacity w.
Proof.
  intros Hd Hb. unfold buffer_all. rewrite Hd. simpl. rewrite orb_false_r.
  case_bool_decide as Hl; cbn [fst snd].
  - subst lines. rewrite app_nil_r. unfold overflow.
    replace (length (events (buffer w)) - capacity w) with 0 by lia. done.
  - destruct (sink w); simpl;
      destruct (enforce_events (capacity w) {| events := events (buffer w) ++ lines;
        overflowing := overflowing (buffer w) |}) as [He Hlen]; simpl in He, Hlen;
      rewrite ?Hd; split_and!; done.
Qed.


(** *** Names sort by time *)

Fixpoint digits (w : nat) (n : N) (s : string) : string :=
  match w with
  | 0 => s
  | S w => digits w (n / 10) (String (pretty_N_char (n mod 10)) s)
  end.

Lemma digits_app w n s : digits w n s = digits w n EmptyString +:+ s.
Proof.
  revert n s. induction w as [|w IH]; intros n s; simpl; [done|].
  rewrite IH, (IH _ (String _ EmptyString)), str_app_assoc. done.
Qed.

Lemma zeros_snoc n s : zeros n +:+ String "0" s = String "0" (zeros n +:+ s).
Proof. induction n as [|n IH]; simpl; [done|]. by rewrite IH. Qed.

Lemma pretty_N_go_length n s : String.length s <= String.length (pretty_N_go n s).
Proof.
  revert s. induction (N.lt_wf_0 n) as [n _ IH]; intros s.
  destruct (decide (n = 0)%N) as [->|Hn]; [done|]. rewrite pretty_N_go_step by lia.
  etrans; [|apply IH, N.div_lt; lia]. simpl. lia.
Qed.

Lemma digits_pretty w n s :
  (n < 10 ^ N.of_nat w)%N ->
  digits w n s =
    zeros (w - (String.length (pretty_N_go n s) - String.length s)) +:+ pretty_N_go n s.
Proof.
  revert n s. induction w as [|w IH]; intros n s Hn.
  { assert (n = 0)%N as -> by (simpl in Hn; lia). by rewrite pretty_N_go_0. }
  rewrite Nat2N.inj_succ, N.pow_succ_r' in Hn. cbn [digits].
  rewrite IH by (apply N.Div0.div_lt_upper_bound; lia).
  destruct (decide (n = 0)%N) as [->|Hz].
  - rewrite !pretty_N_go_0. cbn [String.length N.modulo N.div_eucl snd pretty_N_char].
    replace (w - (S (String.length s) - S (String.length s))) with w by lia.
    replace (S w - (String.length s - String.length s)) with (S w) by lia. apply zeros_snoc.
  - rewrite (pretty_N_go_step n) by lia. do 2 f_equal.
    pose proof (pretty_N_go_length (n / 10) (String (pretty_N_char (n mod 10)) s)) as Hl.
    cbn [String.length] in *. lia.
Qed.

Lemma zero_padded_digits w n s :
  0 < w -> (n < 10 ^ N.of_nat w)%N -> zero_padded w n +:+ s = digits w n s.
Proof.
  intros Hw Hn. rewrite digits_app. f_equal. unfold zero_padded, pretty, pretty_N.
  case_decide as Hz.
  - subst n. rewrite digits_pretty, pretty_N_go_0 by lia. cbn [String.length].
    destruct w as [|w]; [lia|]. replace (S w - 1) with w by lia.
    replace (S w - (0 - 0)) with (S w) by lia. by rewrite zeros_snoc, !str_app_nil_r.
  - rewrite digits_pretty by done. cbn [String.length]. by rewrite Nat.sub_0_r.
Qed.

Lemma compare_app p s t : String.compare (p +:+ s) (p +:+ t) = String.compare s t.
Proof.
  induction p as [|a p IH]; simpl; [done|]. unfold Ascii.compare. by rewrite N.compare_refl.
Qed.

Lemma pretty_N_char_lt x y :
  (x < y)%N -> (y < 10)%N -> Ascii.compare (pretty_N_char x) (pretty_N_char y) = Lt.
Proof.
  intros Hxy Hy.
  assert (Hd : forall z, (z < 10)%N -> N_of_ascii (pretty_N_char z) = (48 + z)%N).
  { intros z Hz. assert (z = 0 \/ z = 1 \/ z = 2 \/ z = 3 \/ z = 4 \/ z = 5 \/ z = 6 \/ z = 7 \/
      z = 8 \/ z = 9)%N as Hc by lia. repeat destruct Hc as [->|Hc]; try done. by subst. }
  unfold Ascii.compare. rewrite !Hd by lia. apply N.compare_lt_iff. lia.
Qed.

Lemma digits_lt w n m s t :
  (n < m)%N -> (m < 10 ^ N.of_nat w)%N -> String.compare (digits w n s) (digits w m t) = Lt.
Proof.
  revert n m s t. induction w as [|w IH]; intros n m s t Hlt Hm; [simpl in Hm; lia|].
  rewrite Nat2N.inj_succ, N.pow_succ_r' in Hm. cbn [digits].
  destruct (N.lt_ge_cases (n / 10) (m / 10)) as [Hq|Hq].
  - apply IH; [done|]. apply N.Div0.div_lt_upper_bound. lia.
  - pose proof (N.Div0.div_le_mono n m 10) as Hmono. assert (Hqe : (n / 10 = m / 10)%N) by lia.
    rewrite Hqe, (digits_app w _ (String _ s)), (digits_app w _ (String _ t)), compare_app.
    cbn [String.compare]. rewrite pretty_N_char_lt; [done| |apply N.mod_lt; lia].
    pose proof (N.div_mod n 10). pose proof (N.div_mod m 10). lia.
Qed.

Lemma final_name_lt m1 m2 id1 id2 :
  (m1 < m2)%N -> (m2 < 10 ^ 13)%N ->
  String.compare (final_name m1 id1) (final_name m2 id2) = Lt.
Proof.
  intros Hlt Hm. unfold final_name. rewrite !zero_padded_digits by (simpl; lia).
  apply digits_lt; [done|]. exact Hm.
Qed.

(** *** A reader takes the finished names and no other *)

Lemma ends_with_app p s : ends_with p (s +:+ p) = true.
Proof.
  induction s as [|a s IH]; simpl.
  - destruct p; simpl; by rewrite ?Ascii.eqb_refl, ?String.eqb_refl.
  - rewrite IH. by destruct (String.eqb _ _).
Qed.

Lemma pretty_N_go_head n s :
  (0 < n)%N -> exists x t, (x < 10)%N /\ pretty_N_go n s = String (pretty_N_char x) t.
Proof.
  revert s. induction (N.lt_wf_0 n) as [n _ IH]; intros s Hn. rewrite pretty_N_go_step by done.
  destruct (decide (n / 10 = 0)%N) as [Hz|Hz].
  - rewrite Hz, pretty_N_go_0. eexists _, _. split; [|done]. apply N.mod_lt. lia.
  - apply IH; [apply N.div_lt; lia|by apply N.neq_0_lt_0].
Qed.

Lemma final_name_head m id : exists c t, final_name m id = String c t /\ c <> "."%char.
Proof.
  unfold final_name, zero_padded. destruct (13 - _) as [|k]; simpl; [|by eexists _, _].
  unfold pretty, pretty_N. case_decide; simpl; [by eexists _, _|].
  destruct (pretty_N_go_head m EmptyString) as (x & t & Hx & ->); [lia|]. simpl.
  eexists _, _. split; [done|]. unfold pretty_N_char. by repeat case_match.
Qed.

Lemma temp_not_final m id id' : temp_name id <> final_name m id'.
Proof. destruct (final_name_head m id') as (c & t & -> & Hc). unfold temp_name. simpl. congruence. Qed.

Lemma is_batch_final m id : Reader.is_batch (final_name m id) = true.
Proof.
  unfold Reader.is_batch. apply andb_true_iff. split.
  - unfold final_name. change ("-" +:+ id +:+ ".jsonl") with (("-" +:+ id) +:+ ".jsonl").
    rewrite <- str_app_assoc. apply ends_with_app.
  - destruct (final_name_head m id) as (c & t & -> & Hc). unfold starts_with. cbn [strip_prefix].
    by rewrite (proj2 (Ascii.eqb_neq _ _) (not_eq_sym Hc)).
Qed.

Lemma is_batch_temp id : Reader.is_batch (temp_name id) = false.
Proof. unfold Reader.is_batch. apply andb_false_r. Qed.

(** *** The invariant *)

Lemma take_batch_Some millis w batch w' :
  take_batch millis w = (Some batch, w') ->
  batch = (events (buffer w), millis) /\ events (buffer w) <> [] /\
  w' = set_buffer w {| events := []; overflowing := false |}.
Proof. unfold take_batch. case_bool_decide; naive_solver. Qed.

Lemma requeue_events io id batch millis w fs w' fs' d :
  dir w = Some d -> io <> Works -> write_or_requeue io id batch millis w fs = (w', fs') ->
  fs' = delete (temp_name id) fs /\ dir w' = Some d /\ capacity w' = capacity w /\
  batch ++ events (buffer w) =
    overflow (capacity w) (batch ++ events (buffer w)) ++ events (buffer w') /\
  length (events (buffer w')) <= capacity w.
Proof.
  intros Hd Hio. unfold write_or_requeue. rewrite Hd.
  destruct (enforce_events (capacity w) {| events := batch ++ events (buffer w);
    overflowing := overflowing (buffer w) |}) as [He Hl]. simpl in He, Hl.
  destruct io; simpl; [done|..]; intros [= <- <-]; simpl; rewrite ?Hd; by split_and!.
Qed.

Lemma delete_temp (fs : Files) id :
  map_Forall (fun n _ => exists m id', n = final_name m id') fs -> delete (temp_name id) fs = fs.
Proof.
  intros Hf. apply delete_id. destruct (fs !! temp_name id) eqn:E; [|done].
  destruct (Hf _ _ E) as (m & id' & Hn). by destruct (temp_not_final m id id').
Qed.

Lemma concat_fst_middle (t1 t2 : list (list string * N)) b m :
  concat (t1 ++ (b, m) :: t2).*1 ≡ₚ b ++ concat (t1 ++ t2).*1.
Proof. rewrite !fmap_app, !concat_app. simpl. solve_Permutation. Qed.

Lemma step_writer_inv c c' : step c c' -> writer_inv c -> writer_inv c'.
Proof.
  destruct 1 as [w fs t acc wr lo lines d Hd|w fs t acc wr lo millis batch w' Ht
    |w fs t1 t2 acc wr lo batch millis id fs' Hid Hw|w fs t1 t2 acc wr lo batch millis id io w' fs' Hio Hw];
    intros [Hl Hb Hba Hn Hwr Hc Hdir]; simpl in *.
  - destruct (buffer_all_events d lines w Hd Hb) as (He & Hlen & Hd' & _).
    split; simpl; try done.
    + rewrite Hl.
      transitivity (concat wr ++ concat t.*1 ++ (events (buffer w) ++ lines) ++ lo);
        [solve_Permutation|]. rewrite He at 1. solve_Permutation.
    + intros Hn'. congruence.
  - apply take_batch_Some in Ht as (-> & Hne & ->). split; simpl; try done.
    + rewrite Hl. solve_Permutation.
    + lia.
    + constructor; [done|exact Hba].
    + intros Hn'. by destruct (Hdir Hn').
  - assert (Hd : is_Some (dir w)).
    { destruct (dir w); [done|]. destruct (Hdir eq_refl) as [Ht _]. by destruct t1. }
    destruct Hd as [d Hd]. unfold write_or_requeue in Hw. rewrite Hd in Hw. simpl in Hw.
    rewrite delete_temp in Hw.
    2: { eapply map_Forall_impl; [exact Hn|]. intros n b (batch' & m & id' & _ & -> & _). eauto. }
    injection Hw as <-. split; simpl; try done.
    + rewrite Hl, concat_fst_middle, concat_app. simpl. solve_Permutation.
    + rewrite fmap_app in *. simpl in Hba. rewrite !Forall_app in *. rewrite Forall_cons in Hba.
      destruct Hba as [[? [? ?]] ?]. split_and!; auto.
    + apply map_Forall_insert_2; [set_solver|]. eapply map_Forall_impl; [exact Hn|].
      intros n b (batch' & m & id' & Hin & -> & ->). exists batch', m, id'. set_solver.
    + apply Forall_app. split.
      * eapply Forall_impl; [exact Hwr|]. intros batch' (m & id' & Hm). exists m, id'.
        rewrite lookup_insert_ne; [done|]. intros Heq. by rewrite <- Heq, Hid in Hm.
      * constructor; [|done]. exists millis, id. by rewrite lookup_insert_eq.
    + rewrite map_size_insert_None, length_app by done. simpl. lia.
    + congruence.
  - assert (Hd : is_Some (dir w)).
    { destruct (dir w); [done|]. destruct (Hdir eq_refl) as [Ht _]. by destruct t1. }
    destruct Hd as [d Hd].
    destruct (requeue_events _ _ _ _ _ _ _ _ _ Hd Hio Hw) as (-> & Hd' & Hcap & He & Hlen).
    assert (Hnames : map_Forall (fun n (_ : string) => exists m id', n = final_name m id') fs).
    { eapply map_Forall_impl; [exact Hn|]. intros n b (batch' & m & id' & _ & -> & _). eauto. }
    rewrite (delete_temp fs id Hnames). split; simpl; try done.
    + rewrite Hl, concat_fst_middle.
      transitivity (concat wr ++ concat (t1 ++ t2).*1 ++ (batch ++ events (buffer w)) ++ lo);
        [solve_Permutation|]. rewrite He at 1. solve_Permutation.
    + by rewrite Hcap.
    + rewrite fmap_app in *. simpl in Hba. rewrite !Forall_app in *. rewrite Forall_cons in Hba.
      destruct Hba as [[? [? ?]] ?]. split_and!; auto.
    + congruence.
Qed.

Lemma reachable_writer_inv dir bs cap c : reachable dir bs cap c -> writer_inv c.
Proof.
  intros Hr. assert (Hi : writer_inv (init dir bs cap)).
  { split; simpl; try done. apply Nat.le_0_l. }
  revert Hi. induction Hr as [|c c' c'' Hs _ IH]; intros Hi; [done|].
  apply IH. by eapply step_writer_inv.
Qed.
End writer.

(** ** What the reader gets back *)

Section lines.
Import Writer.

Definition cr : string := of_bytes [13%N].

Fixpoint strip_cr (s : string) : string :=
  match s with
  | EmptyString => EmptyString
  | String a s' => if String.eqb s cr then EmptyString else String a (strip_cr s')
  end.

Fixpoint drop_last_empty (l : list string) : list string :=
  match l with
  | [] => []
  | [x] => if String.eqb x EmptyString then [] else [x]
  | x :: l => x :: drop_last_empty l
  end.

(** [BufRead::lines] over valid UTF-8. *)
Definition lines_of (content : string) : list string :=
  map strip_cr (drop_last_empty (split_byte "010" content)).

(** A line a serializer writes: no line break in it, nor at its end. *)
Definition json_line (l : string) : Prop := no_byte "010" l /\ strip_cr l = l.

Lemma drop_last_empty_snoc l : drop_last_empty (l ++ [EmptyString]) = l.
Proof.
  induction l as [|x l IH]; simpl; [done|]. rewrite IH. by destruct l.
Qed.

Lemma lines_of_body batch :
  batch <> [] -> Forall json_line batch -> lines_of (body batch) = batch.
Proof.
  intros Hne Hall. unfold lines_of, body. change nl with (String "010" EmptyString).
  rewrite split_byte_app_sep, split_byte_join.
  - change (split_byte "010" EmptyString) with [EmptyString]. rewrite drop_last_empty_snoc.
    clear Hne. induction Hall as [|l ls [_ Hl] _ IH]; simpl; [done|]. by rewrite Hl, IH.
  - done.
  - eapply Forall_impl; [exact Hall|]. by intros l [? _].
Qed.
End lines.

(** ** Flushes one at a time *)

Section sequential.
Import Writer.

(** No flush starts while another is between its halves. *)
Definition one_flush (c c' : Config) : Prop := step c c' /\ length (taken c') <= 1.

Definition in_order (c : Config) : Prop :=
  length (taken c) <= 1 /\
  concat (written c) ++ concat (taken c).*1 ++ events (buffer (writer c)) `sublist_of` accepted c.

Lemma one_flush_in_order c c' : one_flush c c' -> writer_inv c -> in_order c -> in_order c'.
Proof.
  intros [Hs Hlen'] Hinv [Hlen Hsub]. split; [done|]. revert Hinv Hlen Hsub.
  destruct Hs as [w fs t acc wr lo lines d Hd|w fs t acc wr lo millis batch w' Ht
    |w fs t1 t2 acc wr lo batch millis id fs' Hid Hw|w fs t1 t2 acc wr lo batch millis id io w' fs' Hio Hw];
    intros [_ Hb _ _ _ _ Hdir] Hlen Hsub; simpl in *.
  - destruct (buffer_all_events d lines w Hd Hb) as (He & _).
    etrans; [|apply sublist_app; [exact Hsub|reflexivity]]. rewrite <- !app_assoc, He.
    do 2 (apply sublist_app; [done|]). by apply sublist_inserts_l.
  - apply take_batch_Some in Ht as (-> & _ & ->). destruct t as [|x t]; simpl in *; [|lia].
    by rewrite !app_nil_r in *.
  - destruct t1 as [|x t1]; simpl in *; [|rewrite length_app in Hlen; simpl in Hlen; lia].
    destruct t2 as [|x t2]; simpl in *; [|lia]. rewrite concat_app. simpl.
    by rewrite !app_nil_r, <- app_assoc in *.
  - destruct t1 as [|x t1]; simpl in *; [|rewrite length_app in Hlen; simpl in Hlen; lia].
    destruct t2 as [|x t2]; simpl in *; [|lia].
    assert (Hd : is_Some (dir w)) by (destruct (dir w); [done|]; by destruct (Hdir eq_refl)).
    destruct Hd as [d Hd].
    destruct (requeue_events _ _ _ _ _ _ _ _ _ Hd Hio Hw) as (_ & _ & _ & He & _).
    etrans; [|exact Hsub]. rewrite app_nil_r, He. apply sublist_app; [done|].
    by apply sublist_inserts_l.
Qed.

Lemma sequential_in_order dir bs cap c :
  rtc one_flush (init dir bs cap) c -> reachable dir bs cap c /\ in_order c.
Proof.
  intros Hr. assert (Hgo : forall c0, rtc one_flush c0 c -> reachable dir bs cap c0 ->
    in_order c0 -> reachable dir bs cap c /\ in_order c).
  { clear Hr. intros c0 Hr. induction Hr as [|c1 c2 c3 Hs _ IH]; intros H0 Hi; [done|].
    apply IH; [eapply rtc_r; [exact H0|apply Hs]|].
    eapply one_flush_in_order; [exact Hs| |done]. by eapply reachable_writer_inv. }
  apply (Hgo _ Hr); [apply rtc_refl|]. split; simpl; [lia|done].
Qed.
End sequential.

(** ** Properties *)

(** the writer loses a line only to a full buffer: whatever flushes and
    failures interleave, each line accepted is in exactly one of the batches
    written, the batches in hand, the buffer, or those let go; the buffer keeps
    its bound and no batch is empty; and when no flush overlaps another the lines
    written, in hand and buffered are in the order they were accepted in. *)
Theorem writer_keeps_every_line dir bs cap c :
  Writer.reachable dir bs cap c ->
  Writer.accepted c ≡ₚ concat (Writer.written c) ++ concat (Writer.taken c).*1 ++
    Writer.events (Writer.buffer (Writer.writer c)) ++ Writer.lost c /\
  length (Writer.events (Writer.buffer (Writer.writer c))) <= Writer.capacity (Writer.writer c) /\
  Forall (fun b => b <> []) ((Writer.taken c).*1 ++ Writer.written c) /\
  (rtc one_flush (Writer.init dir bs cap) c ->
   concat (Writer.written c) ++ concat (Writer.taken c).*1 ++
     Writer.events (Writer.buffer (Writer.writer c)) `sublist_of` Writer.accepted c).
Proof.
  intros Hr. destruct (reachable_writer_inv _ _ _ _ Hr). split_and!; try done.
  intros Hs. by destruct (sequential_in_order _ _ _ _ Hs) as [_ [_ ?]].
Qed.

(** what the writer wrote is what a reader finds: under names it takes for
    finished batches, one file to a batch, whose lines are the batch's. *)
Theorem trail_roundtrip dir bs cap c :
  Writer.reachable dir bs cap c -> Forall json_line (Writer.accepted c) ->
  (forall batch, batch ∈ Writer.written c ->
     exists name b, Writer.files c !! name = Some b /\ lines_of b = batch) /\
  (forall name b, Writer.files c !! name = Some b ->
     Reader.is_batch name = true /\ lines_of b ∈ Writer.written c) /\
  size (Writer.files c) = length (Writer.written c).
Proof.
  intros Hr Hj. destruct (reachable_writer_inv _ _ _ _ Hr) as [Hl _ Hne Hn Hw Hc _].
  assert (Hlines : forall batch, batch ∈ Writer.written c -> lines_of (Writer.body batch) = batch).
  { intros batch Hin. apply lines_of_body.
    - rewrite Forall_app, !Forall_forall in Hne. by apply Hne.
    - apply Forall_forall. intros l Hlin. rewrite Forall_forall in Hj. apply Hj. rewrite Hl.
      apply elem_of_app. left. apply list_elem_of_In, in_concat. exists batch.
      by rewrite <- !list_elem_of_In. }
  split_and!.
  - intros batch Hin. rewrite Forall_forall in Hw. destruct (Hw batch Hin) as (m & id & Hf).
    eexists _, _. split; [exact Hf|]. by apply Hlines.
  - intros name b Hf. destruct (Hn _ _ Hf) as (batch & m & id & Hin & -> & ->).
    split; [apply is_batch_final|]. by rewrite Hlines.
  - done.
Qed.

(** the names of two batches sort as the times they were taken at, until the
    year 2286, and a batch being written has a name no reader takes. *)
Theorem batch_names_sort_by_time m1 m2 id1 id2 :
  (m1 < m2)%N -> (m2 < 10 ^ 13)%N ->
  String.le (Writer.final_name m1 id1) (Writer.final_name m2 id2) /\
  ~ String.le (Writer.final_name m2 id2) (Writer.final_name m1 id1) /\
  Reader.is_batch (Writer.final_name m1 id1) = true /\
  Reader.is_batch (Writer.temp_name id1) = false.
Proof.
  intros Hlt Hm. pose proof (final_name_lt m1 m2 id1 id2 Hlt Hm) as Hc.
  unfold String.le, String.leb. rewrite Hc, String.compare_antisym, Hc. simpl.
  split_and!; [done|tauto|apply is_batch_final|apply is_batch_temp].
Qed.

(** the sink accounts for every event it accepted, keeps at most its bound,
    posts in the order of submission and each event at most once; its poster
    never sleeps on a queue nobody is about to wake it for; and when a drain
    returns, every event accepted before its target was posted, evicted, or is
    the one being posted. *)
Theorem sink_accounting c target :
  Sink.reachable c ->
  length (Sink.queue (Sink.shared c)) <= Sink.QUEUE_CAPACITY /\
  (Sink.enqueued (Sink.shared c) = Sink.settled (Sink.shared c) +
     N.of_nat (length (in_post (Sink.poster c)) + length (Sink.queue (Sink.shared c))))%N /\
  Sink.delivered c ++ in_post (Sink.poster c) `sublist_of` Sink.submitted c /\
  Sink.evicted c `sublist_of` Sink.submitted c /\
  (Sink.poster c = Sink.Asleep ->
   Sink.queue (Sink.shared c) <> [] \/ Sink.closing c = true ->
   Sink.permit c = true \/ 0 < Sink.notifying c) /\
  (Sink.drain_done target (Sink.shared c) = true ->
   take (N.to_nat target) (Sink.submitted c) ⊆+
     Sink.delivered c ++ Sink.evicted c ++ in_post (Sink.poster c)).
Proof.
  intros Hr. destruct (reachable_sink_inv c Hr) as [Hb He Hp Hd (l & Hl & Hperm & Hdel & Hev) Hw Hcl].
  assert (Hlen : length l = length (Sink.delivered c) + length (Sink.evicted c) +
    length (in_post (Sink.poster c))).
  { rewrite Hperm, !length_app. lia. }
  unfold Sink.settled, Sink.drain_done, Sink.settled. rewrite He, Hp, Hd, Hl, length_app, Hlen.
  split_and!.
  - done.
  - lia.
  - by apply sublist_inserts_r.
  - by apply sublist_inserts_r.
  - intros Ha [Hq|Hc]; [apply Hw; auto|by apply Hcl].
  - intros Ht%N.leb_le. apply sublist_submseteq_take; [done|]. lia.
Qed.

(** A handle dropped between the poster's empty pop and its look at [closing]
    leaves what was pushed in between unposted for good. *)
Lemma close_discards_backlog :
  exists c, Sink.reachable c /\ Sink.poster c = Sink.Ended /\
    Sink.queue (Sink.shared c) = ["e"] /\ Sink.delivered c = [] /\ Sink.evicted c = [].
Proof.
  exists {| Sink.shared := Sink.push "e" Sink.empty; Sink.poster := Sink.Ended;
            Sink.permit := false; Sink.notifying := 2; Sink.closing := true;
            Sink.submitted := ["e"]; Sink.delivered := []; Sink.evicted := [] |}.
  split; [|by vm_compute].
  eapply rtc_l; [apply Sink.step_pop|]. eapply rtc_l; [apply (Sink.step_push _ _ _ _ _ _ _ "e")|].
  eapply rtc_l; [apply Sink.step_close|]. eapply rtc_l; [apply Sink.step_look|]. apply rtc_refl.
Qed.

(** ** On a small writer *)

Section sample.
Import Writer.

(** Two lines recorded, one batch taken, its first write failing, another line
    recorded, and the retry written. *)
Definition sample_start : LineageWriter := with_limits "/pond/lineage" 2 3.

Definition sample_end : Config :=
  let (_, w) := buffer_all ["a"; "b"] sample_start in
  let (_, w) := take_batch 7 w in
  let (_, w) := buffer_all ["c"] w in
  let (w, fs) := write_or_requeue Write_fails "x" ["a"; "b"] 7 w ∅ in
  let (_, w) := take_batch 8 w in
  let (w, fs) := write_or_requeue Works "y" ["a"; "b"; "c"] 8 w fs in
  {| writer := w; files := fs; taken := []; accepted := ["a"; "b"; "c"];
     written := [["a"; "b"; "c"]]; lost := [] |}.

Lemma reachable_sample : reachable "/pond/lineage" 2 3 sample_end.
Proof.
  eapply rtc_l; [eapply (step_buffer _ _ _ _ _ _ ["a"; "b"]); reflexivity|].
  eapply rtc_l; [eapply (step_take _ _ _ _ _ _ 7); reflexivity|].
  eapply rtc_l; [eapply (step_buffer _ _ _ _ _ _ ["c"]); reflexivity|].
  eapply rtc_l; [eapply (step_requeue _ _ [] [] _ _ _ _ _ "x" Write_fails); [done|reflexivity]|].
  eapply rtc_l; [eapply (step_take _ _ _ _ _ _ 8); reflexivity|].
  eapply rtc_l; [eapply (step_write _ _ [] [] _ _ _ _ _ "y"); reflexivity|].
  apply rtc_refl.
Qed.
End sample.

Lemma writer_keeps_every_line_witness :
  Writer.reachable "/pond/lineage" 2 3 sample_end /\
  Writer.accepted sample_end ≡ₚ ["a"; "b"; "c"].
Proof.
  split; [apply reachable_sample|].
  exact (proj1 (writer_keeps_every_line _ _ _ _ reachable_sample)).
Defined.

Lemma trail_roundtrip_witness :
  exists name b, Writer.files sample_end !! name = Some b /\ lines_of b = ["a"; "b"; "c"].
Proof.
  apply (proj1 (trail_roundtrip _ _ _ _ reachable_sample ltac:(repeat constructor))). by left.
Defined.

Lemma batch_names_sort_by_time_witness :
  ~ String.le (Writer.final_name 1000 "a") (Writer.final_name 999 "b").
Proof. apply (batch_names_sort_by_time 999 1000 "b" "a"); lia. Defined.

Lemma sink_accounting_witness :
  exists c, Sink.reachable c /\ Sink.submitted c = ["e"] /\
    Sink.enqueued (Sink.shared c) =
      (Sink.settled (Sink.shared c) +
         N.of_nat (length (in_post (Sink.poster c)) + length (Sink.queue (Sink.shared c))))%N.
Proof.
  destruct close_discards_backlog as (c & Hr & Hp & Hq & Hd & He). exists c. split; [exact Hr|].
  split; [|apply (sink_accounting c 0 Hr)].
  destruct (reachable_sink_inv c Hr) as [_ _ _ _ (l & Hl & Hperm & _) _ _].
  rewrite Hd, He, Hp in Hperm. apply Permutation_nil_r in Hperm. by rewrite Hl, Hperm, Hq.
Defined.
