(* ===== verification/LineageEvent.v ===== *)
(** * The events of a run

    Models [latiq-lineage/src/event.rs] and [latiq-agent-core/src/lineage.rs]: the
    OpenLineage envelope and its facets, and the two events one operation leaves.
    A [serde_json::Value] is a [Json]; its maps are keyed and unordered, as
    compared.  Serializing a [RunEvent] follows its [serde] attributes.  Run ids
    and the two clock readings are arguments, and so are the version-5 UUID, the
    engine's version and the crate's own. *)
From S2P Require Import Prelude Errors Common Sql Interfaces Ops.
Import Types.
#[local] Open Scope rust_scope.
#[local] Arguments String.append !_ _ / : simpl nomatch.

Inductive Json :=
| Null
| Bool (b : bool)
| Number (n : Z)
| Str (s : string)
| Array (l : list Json)
| Object (m : gmap string Json).

Definition obj (l : list (string * Json)) : Json := Object (list_to_map l).

Definition or_null (s : option string) : Json :=
  match s with Some s => Str s | None => Null end.

Module Event.
Definition PRODUCER : string := "https://github.com/neonexia/latiq".
Definition SCHEMA_URL : string :=
  "https://openlineage.io/spec/2-0-2/OpenLineage.json#/$defs/RunEvent".
Definition JOB_NAMESPACE : string := "latiq".
Definition SPEC_FACETS : string := "https://openlineage.io/spec/facets".
(** [LATIQ_FACETS] with its version put in. *)
Definition latiq_facets (version : string) : string :=
  "https://raw.githubusercontent.com/neonexia/latiq/lineage-facets-" +:+ version +:+
  "/crates/latiq-lineage/spec/facets/" +:+ version.
Definition IDENTITY_FACET_VERSION : string := "1-0-0".
Definition POND_FACET_VERSION : string := "1-0-0".
Definition QUERY_FACET_VERSION : string := "1-0-0".
Definition PARENT_CLAIM_FACET_VERSION : string := "1-0-0".

Inductive EventType := Start | Running | Complete | Abort_ | Fail_ | Other.

Definition event_type_str (t : EventType) : string :=
  match t with
  | Start => "START" | Running => "RUNNING" | Complete => "COMPLETE" | Abort_ => "ABORT"
  | Fail_ => "FAIL" | Other => "OTHER"
  end.

Definition Facets := gmap string Json.

Record Facet := { key : string; facet_body : Json }.

Definition stamp (key schema_url : string) (body : gmap string Json) : Facet :=
  {| key := key;
     facet_body := Object (<["_schemaURL" := Str schema_url]> (<["_producer" := Str PRODUCER]> body)) |}.

Record Run := { run_id : string; run_facets : Facets }.
Record Job := { job_namespace : string; job_name_ : string; job_facets : Facets }.
Record Dataset := { ds_namespace : string; dataset_name : string; ds_facets : Facets }.

Definition run_with (r : Run) (f : Facet) : Run :=
  {| run_id := run_id r; run_facets := <[key f := facet_body f]> (run_facets r) |}.
Definition job_with (j : Job) (f : Facet) : Job :=
  {| job_namespace := job_namespace j; job_name_ := job_name_ j;
     job_facets := <[key f := facet_body f]> (job_facets j) |}.
Definition ds_with (d : Dataset) (f : Facet) : Dataset :=
  {| ds_namespace := ds_namespace d; dataset_name := dataset_name d;
     ds_facets := <[key f := facet_body f]> (ds_facets d) |}.

Record RunEvent := {
  event_time : string;
  producer : string;
  schema_url : string;
  event_type : EventType;
  run : Run;
  job : Job;
  inputs : list Dataset;
  outputs : list Dataset;
}.

Definition at_ (time : string) (t : EventType) (r : Run) (j : Job) : RunEvent :=
  {| event_time := time; producer := PRODUCER; schema_url := SCHEMA_URL; event_type := t;
     run := r; job := j; inputs := []; outputs := [] |}.

Definition with_inputs (e : RunEvent) (l : list Dataset) : RunEvent :=
  {| event_time := event_time e; producer := producer e; schema_url := schema_url e;
     event_type := event_type e; run := run e; job := job e; inputs := l; outputs := outputs e |}.

Definition with_outputs (e : RunEvent) (l : list Dataset) : RunEvent :=
  {| event_time := event_time e; producer := producer e; schema_url := schema_url e;
     event_type := event_type e; run := run e; job := job e; inputs := inputs e; outputs := l |}.

(** ** Serialization *)

(** [skip_serializing_if] of an empty map or list. *)
Definition facets_field (f : Facets) : list (string * Json) :=
  if bool_decide (f = ∅) then [] else [("facets", Object f)].

Definition run_json (r : Run) : Json :=
  obj (("runId", Str (run_id r)) :: facets_field (run_facets r)).
Definition job_json (j : Job) : Json :=
  obj (("namespace", Str (job_namespace j)) :: ("name", Str (job_name_ j)) ::
       facets_field (job_facets j)).
Definition dataset_json (d : Dataset) : Json :=
  obj (("namespace", Str (ds_namespace d)) :: ("name", Str (dataset_name d)) ::
       facets_field (ds_facets d)).

Definition datasets_field (k : string) (l : list Dataset) : list (string * Json) :=
  match l with [] => [] | _ => [(k, Array (map dataset_json l))] end.

Definition to_json (e : RunEvent) : Json :=
  obj ([("eventTime", Str (event_time e)); ("producer", Str (producer e));
        ("schemaURL", Str (schema_url e)); ("eventType", Str (event_type_str (event_type e)));
        ("run", run_json (run e)); ("job", job_json (job e))] ++
       datasets_field "inputs" (inputs e) ++ datasets_field "outputs" (outputs e)).

(** ** Facets *)

Inductive Outcome := Ok_ | Error_ | Cancelled_.

Definition outcome_str (o : Outcome) : string :=
  match o with Ok_ => "ok" | Error_ => "error" | Cancelled_ => "cancelled" end.

Definition meaning_str (m : DurationMeaning) : string :=
  match m with Completion => "completion" | Establishment => "establishment" end.

Definition spec_url (version name : string) : string :=
  SPEC_FACETS +:+ "/" +:+ version +:+ "/" +:+ name +:+ ".json#/$defs/" +:+ name.

Definition latiq_url (name version : string) : string :=
  latiq_facets version +:+ "/" +:+ name +:+ ".json#/$defs/" +:+ name.

Definition fields (l : list (string * Json)) : gmap string Json := list_to_map l.

Definition sql (query : string) : Facet :=
  stamp "sql" (spec_url "1-0-1" "SQLJobFacet")
    (fields [("query", Str query); ("dialect", Str "duckdb")]).

Definition dataset_version (snapshot_id : Z) : Facet :=
  stamp "version" (spec_url "1-0-1" "DatasetVersionDatasetFacet")
    (fields [("datasetVersion", Str (pretty snapshot_id))]).

Definition schema (cols : list (string * string)) : Facet :=
  stamp "schema" (spec_url "1-1-1" "SchemaDatasetFacet")
    (fields [("fields",
      Array (map (fun c => obj [("name", Str c.1); ("type", Str c.2)]) cols))]).

Definition error_message (message : string) : Facet :=
  stamp "errorMessage" (spec_url "1-0-1" "ErrorMessageRunFacet")
    (fields [("message", Str message); ("programmingLanguage", Str "RUST")]).

Definition job_type (t : string) : Facet :=
  stamp "jobType" (spec_url "2-0-3" "JobTypeJobFacet")
    (fields [("processingType", Str "BATCH"); ("integration", Str "LATIQ"); ("jobType", Str t)]).

Definition processing_engine (adapter duckdb_version : string) : Facet :=
  stamp "processing_engine" (spec_url "1-1-1" "ProcessingEngineRunFacet")
    (fields [("name", Str "duckdb"); ("version", Str duckdb_version);
             ("openlineageAdapterVersion", Str adapter)]).

Definition identity (verified : bool) (subject : string) (issuer agent_id : option string) : Facet :=
  stamp "latiq_identity" (latiq_url "LatiqIdentityFacet" IDENTITY_FACET_VERSION)
    (fields [("verified", Bool verified); ("subject", if verified then Str subject else Null);
             ("issuer", or_null issuer); ("agentId", or_null agent_id);
             ("agentIdVerified", Bool false)]).

Definition pond (pond_id pond_name node_id : string) : Facet :=
  stamp "latiq_pond" (latiq_url "LatiqPondFacet" POND_FACET_VERSION)
    (fields [("pondId", Str pond_id); ("pondName", Str pond_name); ("nodeId", Str node_id)]).

Definition query (op : string) (o : Outcome) (duration_ms : N) (m : DurationMeaning)
    (trace_id : option string) : Facet :=
  stamp "latiq_query" (latiq_url "LatiqQueryFacet" QUERY_FACET_VERSION)
    (fields [("op", Str op); ("outcome", Str (outcome_str o));
             ("durationMs", Number (Z.of_N duration_ms)); ("durationMeaning", Str (meaning_str m));
             ("traceId", or_null trace_id)]).

Record ParentClaim := { workflow_id : string; step_id : option string }.

Definition parent (parent_run_id : string -> string) (c : ParentClaim) (ns name : string) : Facet :=
  stamp "parent" (spec_url "1-0-1" "ParentRunFacet")
    (fields [("run", obj [("runId", Str (parent_run_id (workflow_id c)))]);
             ("job", obj [("namespace", Str ns); ("name", Str name)])]).

Definition parent_claim (c : ParentClaim) : Facet :=
  stamp "latiq_parent_claim" (latiq_url "LatiqParentClaimFacet" PARENT_CLAIM_FACET_VERSION)
    (fields [("workflowId", Str (workflow_id c)); ("stepId", or_null (step_id c));
             ("verified", Bool false)]).

Definition dataset_namespace (pond_id : string) : string := "ducklake://" +:+ pond_id.

Definition job_name (pond_name op : string) (target : option string) : string :=
  match target with
  | Some target =>
      let target := default target (strip_prefix pond_name target ≫= strip_prefix ".") in
      pond_name +:+ "." +:+ op +:+ "." +:+ target
  | None => pond_name +:+ "." +:+ op
  end.
End Event.

(** ** What an operation leaves *)

Module Emit.
Import Event.

Definition terminal (error : option AgentError) : EventType * Outcome :=
  match error with
  | None => (Complete, Ok_)
  | Some e =>
      match kind e with
      | Kind.QueryCancelled | Kind.QueryTimeout => (Abort_, Cancelled_)
      | _ => (Fail_, Error_)
      end
  end.

Definition non_empty (s : string) : option string :=
  if String.eqb s EmptyString then None else Some s.

Definition to_dataset (info : PondInfo) (fallback : option Z) (r : Meta.DatasetRef) : Dataset :=
  let ds := {| ds_namespace := default (dataset_namespace (pond_id info)) (Meta.namespace r);
               dataset_name := Meta.name r; ds_facets := ∅ |} in
  let ds := match (match Meta.version r with Some v => Some v | None => fallback end) with
            | Some id => ds_with ds (dataset_version id)
            | None => ds
            end in
  match Meta.fields r with
  | [] => ds
  | fs => ds_with ds (schema (map (fun f => (Meta.field_name f, Meta.type_name f)) fs))
  end.

(** The START and the terminal event, and in that order. *)
Definition record (adapter engine_version node_id uuid started now : string)
    (trace_id : option string) (rec : QueryRecord) : RunEvent * RunEvent :=
  let info := q_info rec in
  let ins := match q_meta rec with Some m => Meta.inputs m | None => [] end in
  let outs := match q_meta rec with Some m => Meta.outputs m | None => [] end in
  let produced := q_meta rec ≫= Meta.snapshot_id in
  let input_datasets := map (to_dataset info None) ins in
  let output_datasets := map (to_dataset info produced) outs in
  let target := Meta.name <$> match head outs with Some d => Some d | None => head ins end in
  let job :=
    job_with
      (job_with
        (job_with {| job_namespace := JOB_NAMESPACE;
                     job_name_ := job_name (name info) (q_op rec) target; job_facets := ∅ |}
          (sql (Redact.redact_sql (q_sql rec))))
        (job_type "QUERY"))
      (pond (pond_id info) (name info) node_id) in
  let i := q_identity rec in
  let base :=
    run_with
      (run_with {| run_id := uuid; run_facets := ∅ |}
        (identity (Identity.verified i) (Identity.subject i) (non_empty (Identity.issuer i))
           (Some (Identity.agent_id i))))
      (processing_engine adapter engine_version) in
  let start := with_inputs (at_ started Start base job) input_datasets in
  let (t, outcome) := terminal (q_error rec) in
  let run := run_with base (query (q_op rec) outcome (q_duration_ms rec) (q_meaning rec) trace_id) in
  let run := match q_error rec with
             | Some e => run_with run (error_message (message e))
             | None => run
             end in
  (start, with_outputs (with_inputs (at_ now t run job) input_datasets) output_datasets).
End Emit.
