(* ===== verification/LineageEventSpec.v ===== *)
(** * What the events of a run say

    Each facet carries what OpenLineage requires of it; the two events of an
    operation are one run; and they say of the operation what its access record
    and its envelope say, the statement redacted. *)
From S2P Require Import Prelude Errors Common Sql Interfaces Ops LineageRead LineageEvent.
Import Types Event Emit.
#[local] Open Scope rust_scope.
#[local] Arguments String.append !_ _ / : simpl nomatch.

(** ** Facets *)

(** An object with a producer and a schema. *)
Definition stamped (j : Json) : Prop :=
  exists m u, j = Object m /\ m !! "_producer" = Some (Str PRODUCER) /\
    m !! "_schemaURL" = Some (Str u).

Definition all_stamped (f : Facets) : Prop := map_Forall (fun _ j => stamped j) f.

Lemma stamped_stamp k u b : stamped (facet_body (stamp k u b)).
Proof.
  eexists _, u. split; [done|]. split; [|by rewrite lookup_insert_eq].
  rewrite lookup_insert_ne by done. by rewrite lookup_insert_eq.
Qed.

Lemma all_stamped_insert (m : Facets) f :
  stamped (facet_body f) -> all_stamped m -> all_stamped (<[key f := facet_body f]> m).
Proof. intros Hf Hm. by apply map_Forall_insert_2. Qed.

Lemma all_stamped_empty : all_stamped ∅.
Proof. apply map_Forall_empty. Qed.

(** Add the facets one by one; each is made by [stamp]. *)
Ltac stamps :=
  repeat (apply all_stamped_insert; [apply stamped_stamp|]); apply all_stamped_empty.

Lemma to_dataset_stamped info fb r : all_stamped (ds_facets (to_dataset info fb r)).
Proof.
  unfold to_dataset. destruct (Meta.version r), fb, (Meta.fields r);
    cbn [ds_with ds_facets]; stamps.
Qed.

Definition event_stamped (e : RunEvent) : Prop :=
  all_stamped (run_facets (run e)) /\ all_stamped (job_facets (job e)) /\
  Forall (fun d => all_stamped (ds_facets d)) (inputs e ++ outputs e).

Lemma datasets_stamped info fb l :
  Forall (fun d => all_stamped (ds_facets d)) (map (to_dataset info fb) l).
Proof. apply Forall_map, Forall_forall. intros r _. apply to_dataset_stamped. Qed.

(** ** The trail's reader over serialized events *)

#[local] Instance json_values : Values :=
  {| json := Json; json_null := Null; batch := unit; batch_objects := fun _ => Ok [] |}.

Section reader.
Variables (parse : string -> option Json) (rfc3339 : string -> option Z).

Definition json_events : Events :=
  {| parse_json := parse;
     get := fun e k => match e with Object m => m !! k | _ => None end;
     as_str := fun j => match j with Str s => Some s | _ => None end;
     parse_from_rfc3339 := rfc3339 |}.
End reader.

(** ** Properties *)

(** the events of an operation are one run: one id, one job, the same inputs,
    the terminal event adding to the START's facets; only the terminal one has
    outputs; and every facet of either carries its producer and its schema. *)
Theorem record_is_one_run adapter version node uuid started now trace rec :
  let (s, t) := record adapter version node uuid started now trace rec in
  event_type s = Start /\ event_type t = (terminal (q_error rec)).1 /\
  run_id (run s) = uuid /\ run_id (run t) = uuid /\ job t = job s /\
  inputs t = inputs s /\ outputs s = [] /\
  run_facets (run s) ⊆ run_facets (run t) /\
  event_time s = started /\ event_time t = now /\
  event_stamped s /\ event_stamped t.
Proof.
  unfold record. destruct (terminal (q_error rec)) as [ty oc]. cbn [fst].
  assert (Hsub : forall (m : Facets) k j, m !! k = None -> m ⊆ <[k := j]> m)
    by (intros; by apply insert_subseteq).
  assert (Hds : forall l fb l' fb', Forall (fun d => all_stamped (ds_facets d))
    (map (to_dataset (q_info rec) fb) l ++ map (to_dataset (q_info rec) fb') l')).
  { intros. apply Forall_app. split; apply datasets_stamped. }
  assert (Hdn : forall l fb, Forall (fun d => all_stamped (ds_facets d))
    (map (to_dataset (q_info rec) fb) l ++ [])).
  { intros l fb. apply (Hds l fb [] fb). }
  unfold event_stamped. destruct (q_error rec) as [e|];
    cbn [run_with job_with run_facets job_facets run job inputs outputs with_inputs with_outputs
         at_ event_type event_time run_id];
    split_and!; try done; try stamps; try apply Hds; try apply Hdn.
  - etrans; apply Hsub; reflexivity.
  - apply Hsub. reflexivity.
Qed.

Lemma terminal_spec error :
  ((terminal error).1 = Complete <-> error = None) /\
  ((terminal error).1 = Abort_ <-> exists e, error = Some e /\
     (kind e = Kind.QueryCancelled \/ kind e = Kind.QueryTimeout)).
Proof.
  destruct error as [e|]; simpl; [|by split; [|split; [|intros (? & ? & _)]]].
  destruct (kind e) eqn:Hk; simpl; (split; [done|]); (split; [try done; by eauto|]);
    intros (e' & [= <-] & [|]); congruence.
Qed.

Definition facet_field (f : Facets) (facet field : string) : option Json :=
  match f !! facet with Some (Object m) => m !! field | _ => None end.

(** the events say what happened as the other records do: the statement with
    its literals redacted, the caller's name, a subject only when it was
    verified, the op, the duration, an error's message exactly when there was
    one, and ABORT for a cancelled or timed-out statement, FAIL for any other. *)
Theorem record_is_faithful adapter version node uuid started now trace rec :
  let (s, t) := record adapter version node uuid started now trace rec in
  let rf := run_facets (run t) in
  facet_field (job_facets (job t)) "sql" "query" = Some (Str (Redact.redact_sql (q_sql rec))) /\
  facet_field (job_facets (job t)) "latiq_pond" "pondId" = Some (Str (pond_id (q_info rec))) /\
  facet_field rf "latiq_identity" "agentId" = Some (Str (Identity.agent_id (q_identity rec))) /\
  facet_field rf "latiq_identity" "subject" =
    Some (if Identity.verified (q_identity rec) then Str (Identity.subject (q_identity rec))
          else Null) /\
  facet_field rf "latiq_query" "op" = Some (Str (q_op rec)) /\
  facet_field rf "latiq_query" "durationMs" = Some (Number (Z.of_N (q_duration_ms rec))) /\
  facet_field rf "latiq_query" "traceId" = Some (or_null trace) /\
  facet_field rf "errorMessage" "message" = (fun e => Str (message e)) <$> q_error rec /\
  (event_type t = Complete <-> q_error rec = None) /\
  (event_type t = Abort_ <-> exists e, q_error rec = Some e /\
     (kind e = Kind.QueryCancelled \/ kind e = Kind.QueryTimeout)) /\
  map dataset_name (inputs t) = map Meta.name (default [] (Meta.inputs <$> q_meta rec)) /\
  map dataset_name (outputs t) = map Meta.name (default [] (Meta.outputs <$> q_meta rec)).
Proof.
  assert (Hnames : forall info fb l, map dataset_name (map (to_dataset info fb) l) = map Meta.name l).
  { intros info fb l. rewrite map_map. apply map_ext. intros r. unfold to_dataset.
    by destruct (Meta.version r), fb, (Meta.fields r). }
  pose proof (terminal_spec (q_error rec)) as [Hc Ha]. unfold record.
  destruct (terminal (q_error rec)) as [ty oc]. cbn [fst] in Hc, Ha.
  destruct (q_error rec) as [e|]; cbn -[stamp Redact.redact_sql]; rewrite !Hnames;
    split_and!; try reflexivity; try exact Hc; try exact Ha; by destruct (q_meta rec).
Qed.

Lemma strip_prefix_app p q s : strip_prefix (p +:+ q) s = strip_prefix p s ≫= strip_prefix q.
Proof.
  revert s. induction p as [|a p IH]; intros s; simpl; [by destruct s|].
  destruct s as [|b s]; [done|]. by destruct (Ascii.eqb a b).
Qed.

(** a job's name repeats nothing the engine's qualified names add: a target in
    the pond's own catalog loses that one segment, any other is kept whole. *)
Theorem job_name_spec pond op t :
  job_name pond op (Some t) =
    pond +:+ "." +:+ op +:+ "." +:+ default t (strip_prefix (pond +:+ ".") t).
Proof. unfold job_name. by rewrite strip_prefix_app. Qed.

(** the time the trail's reader selects, cuts and pages by is the time the
    event was stamped with. *)
Theorem reader_sees_event_time parse rfc3339 e :
  @Reader.event_time _ (json_events parse rfc3339) (to_json e) = Some (event_time e).
Proof. unfold Reader.event_time, to_json, obj. simpl. by rewrite lookup_insert_eq. Qed.
