(* ===== verification/ControlPlane.v ===== *)
(** * The control plane, from both sides

    [Service] models [latiq-control-plane/src/control_service.rs] with
    [dataset_convert.rs]: every handler of the Control service over a [Store],
    and the one create path of the system, which places a pond, has its owner
    materialise it, and gives the placement back when it cannot.  [InProcess]
    models [latiq-agent-core/src/registry_control.rs] and [Remote]
    [latiq-pond-node/src/grpc_control.rs]: the two implementations of
    [ControlPlane], over the registry itself and over the service.

    The registry's lock is held for one method at a time; what other calls do to
    it between two methods of a handler is the handler's [gap].  The wire form of
    an error envelope is the JSON crate's ([Codec]); a request's metadata is its
    three headers; clocks, dice and UUIDs are drawn from [Entropy]. *)
From S2P Require Import Prelude Errors Extensions Policy Common Registry Interfaces.
#[local] Open Scope rust_scope.
#[local] Arguments String.append !_ _ / : simpl nomatch.

Class Entropy := {
  now_at : N -> Z;
  dice_at : N -> N;
  uuid_at : N -> string;
  trace_uuids : N -> string * string;
}.

(** [serde_json] on an [ErrorEnvelope]. *)
Class Codec := {
  encode_envelope : ErrorEnvelope -> string;
  decode_envelope : string -> option ErrorEnvelope;
  decode_encode_envelope : forall e, decode_envelope (encode_envelope e) = Some e;
}.

(** The registry behind its handle, and how often the sources were drawn from. *)
Record Store := { registry : Registry; draws : N }.

Definition put (c : Store) (r : Registry) : Store := {| registry := r; draws := draws c |}.
Definition drawn (c : Store) (r : Registry) : Store :=
  {| registry := r; draws := draws c + 1 |}%N.

Section detail.
Context `{!Sql}.

(** What [pond_info] answers of a row. *)
Definition Detail : Type := Rows.PondRow * string * string * option string.

(** List, then look every row up: lookup [i] reads the registry as it is by then,
    and a pond that is gone by then is skipped. *)
Fixpoint details {A X} (conv : Detail -> A) (err : ControlPlaneError -> X)
    (seen : nat -> Registry) (i : nat) (rows : list Rows.PondRow) : result (list A) X :=
  match rows with
  | [] => Ok []
  | row :: rows =>
      match Ops.pond_info (Rows.p_pond_id row) (seen i) with
      | Ok d => let? out := details conv err seen (S i) rows in Ok (conv d :: out)
      | Err (ControlPlaneError.PondNotFound _) => details conv err seen (S i) rows
      | Err e => Err (err e)
      end
  end.
End detail.

(** ** The Control service *)

Module Service.
Record Metadata := {
  latiq_agent_id : option string;
  authorization : option string;
  traceparent : option string;
}.

Definition no_metadata : Metadata :=
  {| latiq_agent_id := None; authorization := None; traceparent := None |}.

Record CallerAuth := {
  agent_id : option string;
  bearer : option string;
  hop_traceparent : option string;
}.

Record Status := { code : ControlPlaneError.Code; status_message : string; status_details : string }.

Record PondInfoMsg := {
  m_pond_id : string;
  m_name : string;
  m_owner : string;
  m_created_at : string;
  m_policy_json : string;
  m_node_id : string;
  m_node_endpoint : string;
  m_tier : string;
  m_extensions : list string;
  m_description : string;
  m_lineage : bool;
}.

Record DatasetTableMsg := { t_table_name : string; t_source_uri : string; t_format : string }.

Record DatasetMsg := {
  d_name : string;
  d_description : string;
  d_tags : list string;
  d_tables : list DatasetTableMsg;
  d_created_by : string;
  d_created_at : string;
}.

Record CatalogMsg := {
  c_name : string;
  c_type : string;
  c_params : gmap string string;
  c_description : string;
  c_tags : list string;
  c_created_by : string;
  c_created_at : string;
}.

Record CreatePondAssignmentRequest := {
  name : string;
  owner_identity : string;
  policy_json : string;
  tier : string;
  extensions : list string;
  description : string;
  lineage : bool;
}.

Record CreatePondAssignmentResponse := { pond_id : string; assigned_node_endpoint : string }.

Definition dataset_to_msg (d : Rows.DatasetRow) : DatasetMsg :=
  {| d_name := Rows.ds_name d; d_description := Rows.ds_description d;
     d_tags := Rows.ds_tags d;
     d_tables := map (fun t => {| t_table_name := Rows.table_name t;
                                  t_source_uri := Rows.source_uri t;
                                  t_format := Rows.format t |}) (Rows.ds_tables d);
     d_created_by := Rows.ds_created_by d; d_created_at := Rows.ds_created_at d |}.

Definition dataset_table_from_msg (t : DatasetTableMsg) : Rows.DatasetTableRow :=
  {| Rows.table_name := t_table_name t; Rows.source_uri := t_source_uri t;
     Rows.format := if String.eqb (trim (t_format t)) EmptyString then "auto" else t_format t |}.

Definition catalog_to_msg (c : Rows.CatalogRow) : CatalogMsg :=
  {| c_name := Rows.ca_name c; c_type := Rows.ca_type c; c_params := Rows.ca_params c;
     c_description := Rows.ca_description c; c_tags := Rows.ca_tags c;
     c_created_by := Rows.ca_created_by c; c_created_at := Rows.ca_created_at c |}.

Definition pond_info_msg (d : Detail) : PondInfoMsg :=
  let '(row, created_at, policy_json, endpoint) := d in
  {| m_pond_id := Rows.p_pond_id row; m_name := Rows.p_name row;
     m_owner := Rows.p_owner_identity row; m_created_at := created_at;
     m_policy_json := policy_json; m_node_id := Rows.p_node_id row;
     m_node_endpoint := default EmptyString endpoint; m_tier := Rows.p_tier row;
     m_extensions := Rows.p_extensions row; m_description := Rows.p_description row;
     m_lineage := Rows.p_lineage row |}.

(** The call on the owning node: [NodeMaterializer], over the nodes' state. *)
Class NodeMaterializer (K : Type) := {
  materialize : string -> string -> CallerAuth -> K -> result unit string * K;
}.

Section service.
Context `{!Sql} `{!Entropy} `{!Codec} {K : Type} `{!NodeMaterializer K}.
(** Whether there is a materializer, and whether bearer tokens are replayed. *)
Variables (materializer replay_bearer : bool).

Definition to_status_traced (e : ControlPlaneError) (trace_id : option string) : Status :=
  let env := Envelope.with_trace_id (ControlPlaneError.envelope e)
               (match trace_id with
                | Some t => if String.eqb t EmptyString then None else Some t
                | None => None
                end) in
  {| code := ControlPlaneError.code e; status_message := message env;
     status_details := encode_envelope env |}.

Definition to_status (e : ControlPlaneError) : Status := to_status_traced e None.

(** The UUIDs are those of a context that has to be minted. *)
Definition caller_auth (uuids : string * string) (md : Metadata) (owner_identity : string) :
    CallerAuth :=
  {| agent_id := match latiq_agent_id md with
                 | Some a => Some a
                 | None => if String.eqb owner_identity EmptyString then None
                           else Some owner_identity
                 end;
     bearer := if replay_bearer then authorization md else None;
     hop_traceparent :=
       Some (Trace.traceparent (Trace.inbound uuids.1 uuids.2 (traceparent md))) |}.

(** The row is given back, and the error says whether it was. *)
Definition compensate (pond_id name owner cause : string) (trace_id : option string)
    (r : Registry) : Status * Registry :=
  let (res, r) := Ops.drop_pond pond_id r in
  (to_status_traced
     (ControlPlaneError.AllocationNotMaterialized name owner cause (is_ok res)) trace_id, r).

Definition register_node (node_id mcp internal : string) (capacity : N)
    (c : Store) : result unit Status * Store :=
  let (res, r) := Ops.register_node (now_at (draws c)) node_id mcp internal capacity (registry c) in
  (map_err to_status res, drawn c r).

Definition heartbeat (node_id : string) (pond_count : N) (c : Store) :
    result unit Status * Store :=
  let (res, r) := Ops.heartbeat (now_at (draws c)) node_id pond_count (registry c) in
  (map_err to_status res, drawn c r).

(** [gap 0] is what happens to the registry between the placement and its
    lookup, [gap 1] during the call on the node.  [cause_of] is [Display]. *)
Definition create_pond_assignment (cause_of : ControlPlaneError -> string)
    (gap : nat -> Registry -> Registry) (md : Metadata) (req : CreatePondAssignmentRequest)
    (s : Store * K) : result CreatePondAssignmentResponse Status * (Store * K) :=
  let (c, nodes) := s in
  let d := draws c in
  let caller := caller_auth (trace_uuids d) md (owner_identity req) in
  let trace_id := Trace.trace_id <$> (hop_traceparent caller ≫= Trace.parse (uuid_at d)) in
  let name := if String.eqb (name req) EmptyString then None else Some (name req) in
  let tier := if String.eqb (tier req) EmptyString then "medium" else tier req in
  match Ops.create_pond (now_at d) (dice_at d) (uuid_at d) name (owner_identity req)
          (policy_json req) tier (extensions req) (description req) (lineage req)
          (registry c) with
  | (Err e, r) => (Err (to_status e), (drawn c r, nodes))
  | (Ok pond, r) =>
      let r := gap 0 r in
      match Ops.get_pond_location (Rows.p_pond_id pond) r with
      | Err e =>
          let (st, r) := compensate (Rows.p_pond_id pond) (Rows.p_name pond) (Rows.p_node_id pond)
            ("the registry can no longer say where it was placed: " +:+ cause_of e) trace_id r in
          (Err st, (drawn c r, nodes))
      | Ok (_, endpoint) =>
          let ok := (Ok {| pond_id := Rows.p_pond_id pond; assigned_node_endpoint := endpoint |}) in
          if materializer then
            let (res, nodes) := materialize endpoint (Rows.p_pond_id pond) caller nodes in
            let r := gap 1 r in
            match res with
            | Err cause =>
                let (st, r) := compensate (Rows.p_pond_id pond) (Rows.p_name pond) endpoint cause
                                 trace_id r in
                (Err st, (drawn c r, nodes))
            | Ok _ => (ok, (drawn c r, nodes))
            end
          else (ok, (drawn c r, nodes))
      end
  end.

Definition get_pond_location (pond_ref : string) (c : Store) : result (string * string) Status :=
  map_err to_status (Ops.get_pond_location pond_ref (registry c)).

Definition drop_pond_assignment (pond_id : string) (c : Store) : result unit Status * Store :=
  let (res, r) := Ops.drop_pond pond_id (registry c) in (map_err to_status res, put c r).

(** [seen i] is the registry as row [i] is looked up. *)
Definition list_ponds (seen : nat -> Registry) (c : Store) : result (list PondInfoMsg) Status :=
  details pond_info_msg to_status seen 0 (Ops.list_ponds (registry c)).

(** The message is an optional field of the response. *)
Definition get_pond_info (pond_ref : string) (c : Store) : result (option PondInfoMsg) Status :=
  let? d := map_err to_status (Ops.pond_info pond_ref (registry c)) in
  Ok (Some (pond_info_msg d)).

Definition get_dataset (name : string) (c : Store) : result (option DatasetMsg) Status :=
  let? d := map_err to_status (Ops.get_dataset name (registry c)) in Ok (Some (dataset_to_msg d)).

Definition list_datasets (query : string) (c : Store) : result (list DatasetMsg) Status :=
  let? ds := map_err to_status (Ops.list_datasets query (registry c)) in
  Ok (map dataset_to_msg ds).

Definition get_catalog (name : string) (c : Store) : result (option CatalogMsg) Status :=
  let? d := map_err to_status (Ops.get_catalog name (registry c)) in Ok (Some (catalog_to_msg d)).

Definition list_catalogs (query : string) (c : Store) : result (list CatalogMsg) Status :=
  let? cs := map_err to_status (Ops.list_catalogs query (registry c)) in
  Ok (map catalog_to_msg cs).
End service.
End Service.

(** ** Neutral values *)

(** The registry's and the wire's rows, as [types.rs] has them.  An empty node id
    is no id; only the wire's empty endpoint is no endpoint. *)
Module Neutral.
Import Types.

Definition non_empty (s : string) : option string :=
  if String.eqb s EmptyString then None else Some s.

Definition to_info (d : Detail) : PondInfo :=
  let '(row, created_at, policy_json, node_endpoint) := d in
  {| pond_id := Rows.p_pond_id row; name := Rows.p_name row;
     owner := Rows.p_owner_identity row; created_at := created_at;
     policy_json := policy_json; node_id := non_empty (Rows.p_node_id row);
     node_endpoint := node_endpoint; tier := Rows.p_tier row;
     extensions := Rows.p_extensions row; description := Rows.p_description row;
     lineage := Rows.p_lineage row |}.

Definition msg_to_info (m : Service.PondInfoMsg) : PondInfo :=
  {| pond_id := Service.m_pond_id m; name := Service.m_name m; owner := Service.m_owner m;
     created_at := Service.m_created_at m; policy_json := Service.m_policy_json m;
     node_id := non_empty (Service.m_node_id m);
     node_endpoint := non_empty (Service.m_node_endpoint m); tier := Service.m_tier m;
     extensions := Service.m_extensions m; description := Service.m_description m;
     lineage := Service.m_lineage m |}.

Definition dataset_to_info (d : Rows.DatasetRow) : DatasetInfo :=
  {| ds_name := Rows.ds_name d; ds_description := Rows.ds_description d;
     ds_tags := Rows.ds_tags d;
     ds_tables := map (fun t => {| table_name := Rows.table_name t;
                                   source_uri := Rows.source_uri t;
                                   format := Rows.format t |}) (Rows.ds_tables d);
     ds_created_by := Rows.ds_created_by d; ds_created_at := Rows.ds_created_at d |}.

Definition msg_dataset_to_info (m : Service.DatasetMsg) : DatasetInfo :=
  {| ds_name := Service.d_name m; ds_description := Service.d_description m;
     ds_tags := Service.d_tags m;
     ds_tables := map (fun t => {| table_name := Service.t_table_name t;
                                   source_uri := Service.t_source_uri t;
                                   format := Service.t_format t |}) (Service.d_tables m);
     ds_created_by := Service.d_created_by m; ds_created_at := Service.d_created_at m |}.

Definition catalog_to_info (c : Rows.CatalogRow) : CatalogInfo :=
  {| ca_name := Rows.ca_name c; ca_type := Rows.ca_type c; ca_params := Rows.ca_params c;
     ca_description := Rows.ca_description c; ca_tags := Rows.ca_tags c;
     ca_created_by := Rows.ca_created_by c; ca_created_at := Rows.ca_created_at c |}.

Definition msg_catalog_to_info (m : Service.CatalogMsg) : CatalogInfo :=
  {| ca_name := Service.c_name m; ca_type := Service.c_type m; ca_params := Service.c_params m;
     ca_description := Service.c_description m; ca_tags := Service.c_tags m;
     ca_created_by := Service.c_created_by m; ca_created_at := Service.c_created_at m |}.
End Neutral.

(** ** In the same process *)

Module InProcess.
Section in_process.
Context `{!Sql} `{!Entropy}.

Definition cp_err (e : ControlPlaneError) : AgentError := ControlPlaneError.envelope e.

Definition create_pond (name : option string) (owner policy_json tier : string)
    (extensions : list string) (lineage : bool) (c : Store) :
    result Types.PondInfo AgentError * Store :=
  let d := draws c in
  match Ops.create_pond (now_at d) (dice_at d) (uuid_at d) name owner policy_json tier extensions
          EmptyString lineage (registry c) with
  | (Err e, r) => (Err (cp_err e), drawn c r)
  | (Ok row, r) =>
      (map_ok Neutral.to_info (map_err cp_err (Ops.pond_info (Rows.p_pond_id row) r)), drawn c r)
  end.

Definition resolve_pond (pond_ref : string) (c : Store) : result string AgentError :=
  let? d := map_err cp_err (Ops.pond_info pond_ref (registry c)) in
  let '(row, _, _, _) := d in Ok (Rows.p_pond_id row).

Definition list_ponds (seen : nat -> Registry) (c : Store) :
    result (list Types.PondInfo) AgentError :=
  details Neutral.to_info cp_err seen 0 (Ops.list_ponds (registry c)).

Definition pond_info (pond_ref : string) (c : Store) : result Types.PondInfo AgentError :=
  let? d := map_err cp_err (Ops.pond_info pond_ref (registry c)) in Ok (Neutral.to_info d).

Definition drop_pond (pond_id : string) (c : Store) : result unit AgentError * Store :=
  let (res, r) := Ops.drop_pond pond_id (registry c) in (map_err cp_err res, put c r).

Definition list_datasets (query : string) (c : Store) :
    result (list Types.DatasetInfo) AgentError :=
  let? ds := map_err cp_err (Ops.list_datasets query (registry c)) in
  Ok (map Neutral.dataset_to_info ds).

Definition get_dataset (name : string) (c : Store) : result Types.DatasetInfo AgentError :=
  let? d := map_err cp_err (Ops.get_dataset name (registry c)) in Ok (Neutral.dataset_to_info d).

Definition list_catalogs (query : string) (c : Store) :
    result (list Types.CatalogInfo) AgentError :=
  let? cs := map_err cp_err (Ops.list_catalogs query (registry c)) in
  Ok (map Neutral.catalog_to_info cs).

Definition get_catalog (name : string) (c : Store) : result Types.CatalogInfo AgentError :=
  let? d := map_err cp_err (Ops.get_catalog name (registry c)) in Ok (Neutral.catalog_to_info d).

(** Nothing else runs between the methods of one call. *)
#[export] Instance control_plane : ControlPlane Store :=
  {| cp_create_pond := create_pond;
     cp_resolve_pond := resolve_pond;
     cp_pond_info := pond_info;
     cp_list_ponds := fun c => list_ponds (fun _ => registry c) c;
     cp_drop_pond := drop_pond;
     cp_list_datasets := list_datasets;
     cp_get_dataset := get_dataset;
     cp_list_catalogs := list_catalogs;
     cp_get_catalog := get_catalog |}.
End in_process.
End InProcess.

(** ** Over the wire *)

Module Remote.
Section remote.
Context `{!Sql} `{!Entropy} `{!Codec} {K : Type} `{!Service.NodeMaterializer K}.
Variables (materializer replay_bearer : bool).
(** [Display] of a registry error, and what a header value may be. *)
Variable cause_of : ControlPlaneError -> string.
Variable header_ok : string -> bool.
(** The bearer token and the traceparent of the request being served. *)
Variables (current_bearer current_traceparent : option string).

Definition header (v : string) : option string := if header_ok v then Some v else None.

Definition with_caller (agent_id : string) : Service.Metadata :=
  {| Service.latiq_agent_id := header agent_id;
     Service.authorization := current_bearer ≫= fun t => header ("Bearer " +:+ t);
     Service.traceparent := current_traceparent ≫= header |}.

Definition status_err (s : Service.Status) : AgentError :=
  match decode_envelope (Service.status_details s) with
  | Some env => env
  | None =>
      match Service.code s with
      | ControlPlaneError.NotFound => Agent.pond_not_found (Service.status_message s)
      | ControlPlaneError.AlreadyExists => Agent.name_conflict (Service.status_message s)
      | ControlPlaneError.FailedPrecondition =>
          Agent.internal ("no pond node available: " +:+ Service.status_message s)
      | _ => Agent.internal (Service.status_message s)
      end
  end.

Definition create_pond (name : option string) (owner policy_json tier : string)
    (extensions : list string) (lineage : bool) (s : Store * K) :
    result Types.PondInfo AgentError * (Store * K) :=
  let req := {| Service.name := default EmptyString name; Service.owner_identity := owner;
                Service.policy_json := policy_json; Service.tier := tier;
                Service.extensions := extensions; Service.description := EmptyString;
                Service.lineage := lineage |} in
  let (res, s) := Service.create_pond_assignment materializer replay_bearer cause_of
                    (fun _ r => r) (with_caller owner) req s in
  (let? created := map_err status_err res in
   let? m := map_err status_err (Service.get_pond_info (Service.pond_id created) s.1) in
   let? m := ok_or m (Agent.internal "control plane returned no pond info") in
   Ok (Neutral.msg_to_info m), s).

Definition resolve_pond (pond_ref : string) (s : Store * K) : result string AgentError :=
  let? loc := map_err status_err (Service.get_pond_location pond_ref s.1) in Ok loc.1.

Definition list_ponds (s : Store * K) : result (list Types.PondInfo) AgentError :=
  let? ponds := map_err status_err (Service.list_ponds (fun _ => registry s.1) s.1) in
  Ok (map Neutral.msg_to_info ponds).

Definition pond_info (pond_ref : string) (s : Store * K) : result Types.PondInfo AgentError :=
  let? m := map_err status_err (Service.get_pond_info pond_ref s.1) in
  ok_or (Neutral.msg_to_info <$> m) (Agent.pond_not_found pond_ref).

Definition drop_pond (pond_id : string) (s : Store * K) : result unit AgentError * (Store * K) :=
  let (res, c) := Service.drop_pond_assignment pond_id s.1 in (map_err status_err res, (c, s.2)).

Definition list_datasets (query : string) (s : Store * K) :
    result (list Types.DatasetInfo) AgentError :=
  let? ds := map_err status_err (Service.list_datasets query s.1) in
  Ok (map Neutral.msg_dataset_to_info ds).

Definition get_dataset (name : string) (s : Store * K) : result Types.DatasetInfo AgentError :=
  let? d := map_err status_err (Service.get_dataset name s.1) in
  ok_or (Neutral.msg_dataset_to_info <$> d) (Agent.dataset_not_found name).

Definition list_catalogs (query : string) (s : Store * K) :
    result (list Types.CatalogInfo) AgentError :=
  let? cs := map_err status_err (Service.list_catalogs query s.1) in
  Ok (map Neutral.msg_catalog_to_info cs).

Definition get_catalog (name : string) (s : Store * K) : result Types.CatalogInfo AgentError :=
  let? d := map_err status_err (Service.get_catalog name s.1) in
  ok_or (Neutral.msg_catalog_to_info <$> d)
    (Agent.internal ("catalog '" +:+ name +:+ "' not found")).

#[export] Instance control_plane : ControlPlane (Store * K) :=
  {| cp_create_pond := create_pond;
     cp_resolve_pond := resolve_pond;
     cp_pond_info := pond_info;
     cp_list_ponds := list_ponds;
     cp_drop_pond := drop_pond;
     cp_list_datasets := list_datasets;
     cp_get_dataset := get_dataset;
     cp_list_catalogs := list_catalogs;
     cp_get_catalog := get_catalog |}.
End remote.
End Remote.
