(* ===== verification/ControlPlaneSpec.v ===== *)
(** * What the control plane promises

    The create path: what a success and a failure leave behind, with anything
    happening to the registry in between.  The listing, against ponds that come
    and go.  The two implementations of [ControlPlane]: that they answer alike,
    and that both keep the laws the agent operations rely on. *)
From S2P Require Import Prelude Errors Extensions Policy Common Registry RegistryInv RegistrySpec.
From S2P Require Import Interfaces ControlPlane.
#[local] Open Scope rust_scope.
#[local] Arguments String.append !_ _ / : simpl nomatch.

(** ** Lemmas *)

Section lemmas.
Context `{!Sql} `{!Entropy}.

Lemma pond_info_Ok ref r d :
  Ops.pond_info ref r = Ok d ->
  exists p, Ops.find_pond ref r = Ok p /\ p ∈ ponds r /\
    (Tables.pond_id p = ref \/ Tables.name p = ref) /\
    d = (Ops.pond_row p, timestamp_varchar (Tables.created_at p), Tables.policy_json p,
         Tables.internal_endpoint <$> nodes r !! Tables.node_id p).
Proof.
  unfold Ops.pond_info. destruct (Ops.find_pond ref r) as [p|] eqn:E; simpl; [|done].
  intros [= <-]. exists p. by destruct (find_pond_Ok _ _ _ E).
Qed.

Lemma pond_info_Err ref r e :
  Ops.pond_info ref r = Err e <->
  e = ControlPlaneError.PondNotFound ref /\
  forall p, p ∈ ponds r -> Tables.pond_id p <> ref /\ Tables.name p <> ref.
Proof.
  unfold Ops.pond_info. destruct (Ops.find_pond ref r) as [p|e'] eqn:E; simpl.
  - split; [done|]. intros [_ Hno]. apply find_pond_Ok in E as [Hin Hr]. naive_solver.
  - pose proof (find_pond_Err _ _ _ E). naive_solver.
Qed.

Lemma drop_pond_Ok id r u r' :
  Ops.drop_pond id r = (Ok u, r') ->
  forall p, p ∈ ponds r' -> Tables.pond_id p <> id /\ Tables.name p <> id.
Proof.
  unfold Ops.drop_pond. destruct (existsb _ _); [|done]. intros [= _ <-] p. simpl.
  rewrite list_elem_of_In, filter_In, negb_true_iff. intros [_ Hm].
  apply not_true_iff_false in Hm. rewrite matches_ref_iff in Hm. tauto.
Qed.

Lemma drop_pond_Err id r e r' :
  Ops.drop_pond id r = (Err e, r') ->
  r' = r /\ e = ControlPlaneError.PondNotFound id /\
  forall p, p ∈ ponds r -> Tables.pond_id p <> id /\ Tables.name p <> id.
Proof.
  unfold Ops.drop_pond. destruct (existsb _ _) eqn:E; [done|]. intros [= <- <-].
  split_and!; [done..|]. intros p Hp. split; intros Hr;
    (assert (existsb (Ops.matches_ref id) (ponds r) = true); [|congruence]);
    apply existsb_exists; exists p; rewrite <- list_elem_of_In, matches_ref_iff; auto.
Qed.

(** The pond just placed, by its id. *)
Lemma created_by_id now uuid name owner pj t exts desc lin r row r' p :
  created now uuid name owner pj t exts desc lin r row r' p ->
  uuid ∉ map Tables.name (ponds r) ->
  List.filter (Ops.matches_ref uuid) (ponds r') = [p] /\
  List.filter (fun q => negb (Ops.matches_ref uuid q)) (ponds r') = ponds r.
Proof.
  intros [_ _ _ Hid _ Hp _ ->] Hfresh. cbn [ponds count_metrics with_ponds].
  assert (Hold : forall q, q ∈ ponds r -> Ops.matches_ref uuid q = false).
  { intros q Hq. apply not_true_iff_false. rewrite matches_ref_iff.
    pose proof (list_elem_of_fmap_2 Tables.pond_id _ _ Hq).
    pose proof (list_elem_of_fmap_2 Tables.name _ _ Hq).
    intros [Hm|Hm]; rewrite <- Hm in *; contradiction. }
  assert (Hnew : Ops.matches_ref uuid p = true).
  { apply matches_ref_iff. left. by rewrite Hp. }
  split.
  - apply (filter_unique _ _ p []); [|done]. intros q. rewrite app_nil_r. apply Hold.
  - rewrite List.filter_app. simpl. rewrite Hnew. simpl. rewrite app_nil_r.
    clear Hid Hfresh. induction (ponds r) as [|q l IH]; simpl; [done|].
    rewrite Hold by left. simpl. f_equal. apply IH. intros q' Hq'. apply Hold. by right.
Qed.

Lemma created_lookup now uuid name owner pj t exts desc lin r row r' p :
  created now uuid name owner pj t exts desc lin r row r' p ->
  uuid ∉ map Tables.name (ponds r) ->
  exists nd, nodes r !! Tables.node_id p = Some nd /\ Tables.state nd = "active" /\
    Ops.pond_info uuid r' = Ok (Ops.pond_row p, timestamp_varchar now, pj,
                                Some (Tables.internal_endpoint nd)) /\
    Ops.get_pond_location uuid r' = Ok (uuid, Tables.internal_endpoint nd).
Proof.
  intros Hc Hfresh. destruct (created_by_id _ _ _ _ _ _ _ _ _ _ _ _ _ Hc Hfresh) as [Hf _].
  destruct Hc as [_ _ (nd & Hnd & Hs) _ _ Hp _ ->]. exists nd.
  unfold Ops.pond_info, Ops.find_pond, Ops.get_pond_location.
  cbn [ponds nodes count_metrics with_ponds] in *. rewrite Hf, limit1_singleton.
  cbn [omap list_omap ok_or res_bind]. rewrite Hnd. simpl. rewrite limit1_singleton.
  split_and!; try done; by rewrite Hp.
Qed.

Lemma drop_created now uuid name owner pj t exts desc lin r row r' p :
  created now uuid name owner pj t exts desc lin r row r' p ->
  uuid ∉ map Tables.name (ponds r) ->
  Ops.drop_pond uuid r' = (Ok tt, with_ponds r' (ponds r)).
Proof.
  intros Hc Hfresh. destruct (created_by_id _ _ _ _ _ _ _ _ _ _ _ _ _ Hc Hfresh) as [Hf Hg].
  unfold Ops.drop_pond. rewrite Hg.
  assert (Hex : existsb (Ops.matches_ref uuid) (ponds r') = true); [|by rewrite Hex].
  apply existsb_exists. exists p. rewrite <- filter_In, Hf. by left.
Qed.

Lemma pond_info_same_ponds ref r r' :
  ponds r' = ponds r -> nodes r' = nodes r -> Ops.pond_info ref r' = Ops.pond_info ref r.
Proof. unfold Ops.pond_info, Ops.find_pond. by intros -> ->. Qed.
End lemmas.

(** ** Listing *)

(** No pond of [r] is named after the id of another, one of [r0]. *)
Definition unaliased_in (r0 r : Registry) : Prop :=
  forall q p, q ∈ ponds r0 -> p ∈ ponds r ->
    Tables.name p = Tables.pond_id q -> Tables.pond_id p = Tables.pond_id q.

Section listing.
Context `{!Sql} `{!Entropy}.

Lemma details_imap {A X} (conv : Detail -> A) (err : ControlPlaneError -> X) seen i rows :
  details conv err seen i rows =
  Ok (omap id (imap (fun j row =>
        conv <$> res_ok (Ops.pond_info (Rows.p_pond_id row) (seen (i + j)))) rows)).
Proof.
  revert i. induction rows as [|row rows IH]; intros i; [done|].
  cbn [details imap omap list_omap]. rewrite Nat.add_0_r.
  assert (Himap : imap (fun j row => conv <$> res_ok (Ops.pond_info (Rows.p_pond_id row)
                    (seen (S i + j)))) rows =
    imap ((fun j row => conv <$> res_ok (Ops.pond_info (Rows.p_pond_id row) (seen (i + j)))) ∘ S)
      rows) by (apply imap_ext; intros j x _; simpl; by rewrite Nat.add_succ_r).
  destruct (Ops.pond_info (Rows.p_pond_id row) (seen i)) as [d|e] eqn:E; simpl.
  - rewrite IH, <- Himap. done.
  - apply pond_info_Err in E as [-> _]. rewrite IH, <- Himap. done.
Qed.

Definition known (r : Registry) (id : string) : bool :=
  existsb (fun p => String.eqb (Tables.pond_id p) id) (ponds r).

Lemma known_iff r id : known r id = true <-> id ∈ map Tables.pond_id (ponds r).
Proof.
  unfold known. rewrite existsb_exists, list_elem_of_fmap. setoid_rewrite String.eqb_eq.
  setoid_rewrite <- list_elem_of_In. naive_solver.
Qed.

Definition detail_id (d : Detail) : string := let '(row, _, _, _) := d in Rows.p_pond_id row.

Lemma pond_info_by_id r0 r id :
  unaliased_in r0 r -> id ∈ map Tables.pond_id (ponds r0) ->
  detail_id <$> res_ok (Ops.pond_info id r) = if known r id then Some id else None.
Proof.
  intros Hun Hid. destruct (Ops.pond_info id r) as [d|e] eqn:E; simpl.
  - apply pond_info_Ok in E as (q & _ & Hq & Hor & ->).
    assert (Tables.pond_id q = id) as Hqid.
    { apply list_elem_of_fmap in Hid as (p & -> & Hp). destruct Hor as [|Hn]; [done|].
      by apply (Hun p q). }
    assert (known r id = true) as ->; [|by rewrite <- Hqid].
    apply known_iff. rewrite <- Hqid. by apply list_elem_of_fmap_2.
  - apply pond_info_Err in E as [_ Hno].
    destruct (known r id) eqn:Hk; [|done]. apply known_iff, list_elem_of_fmap in Hk as (p & -> & Hp).
    by destruct (Hno p Hp).
Qed.

Lemma listed_ids c row :
  row ∈ Ops.list_ponds (registry c) ->
  Rows.p_pond_id row ∈ map Tables.pond_id (ponds (registry c)).
Proof.
  unfold Ops.list_ponds. intros (p & -> & Hp)%list_elem_of_fmap. simpl.
  apply list_elem_of_fmap_2. by rewrite <- (merge_sort_Permutation older).
Qed.

Lemma omap_imap_map {A B X} (g : B -> X) (f : nat -> A -> option B) (h : nat -> A -> option X) l :
  (forall j x, l !! j = Some x -> g <$> f j x = h j x) ->
  map g (omap id (imap f l)) = omap id (imap h l).
Proof.
  revert f h. induction l as [|x l IH]; intros f h Hfh; [done|]. cbn [imap omap list_omap].
  pose proof (Hfh 0 x eq_refl) as Hhd.
  rewrite <- (IH (f ∘ S) (h ∘ S)) by (intros j y Hy; by apply (Hfh (S j))).
  unfold id. by destruct (f 0 x), (h 0 x); simplify_eq/=.
Qed.

Lemma elem_of_omap_imap {A B} (f : nat -> A -> option B) l y :
  y ∈ omap id (imap f l) -> exists j x, l !! j = Some x /\ f j x = Some y.
Proof.
  rewrite list_elem_of_omap. intros (o & Ho & Hy). unfold id in Hy. subst o.
  apply list_elem_of_lookup_1 in Ho as [j Hj]. rewrite list_lookup_imap in Hj.
  apply fmap_Some in Hj as (x & Hx & ->). eauto.
Qed.

Lemma details_ids {A X} (conv : Detail -> A) (err : ControlPlaneError -> X) (aid : A -> string)
    seen c :
  (forall d, aid (conv d) = detail_id d) ->
  (forall j, unaliased_in (registry c) (seen j)) ->
  aid <$> omap id (imap (fun j row =>
        conv <$> res_ok (Ops.pond_info (Rows.p_pond_id row) (seen j)))
        (Ops.list_ponds (registry c))) =
  omap id (imap (fun j row => if known (seen j) (Rows.p_pond_id row)
                              then Some (Rows.p_pond_id row) else None)
             (Ops.list_ponds (registry c))).
Proof.
  intros Haid Hun. apply omap_imap_map. intros j row Hrow.
  rewrite <- (pond_info_by_id (registry c)).
  - destruct (Ops.pond_info _ _); simpl; [|done]. by rewrite Haid.
  - apply Hun.
  - apply listed_ids, list_elem_of_lookup. eauto.
Qed.

(** listing ponds never fails, whatever happens to the registry between the
    list and each lookup; every pond listed was registered, as described, when it
    was looked up; and where no pond takes the id of a listed one for its name,
    the ponds listed are, in the list's order, those still registered when their
    turn came. *)
Theorem list_ponds_tolerates_drops seen c :
  exists infos, InProcess.list_ponds seen c = Ok infos /\
    (forall info, info ∈ infos -> exists j p, p ∈ ponds (seen j) /\
       Types.pond_id info = Tables.pond_id p /\ Types.name info = Tables.name p /\
       Types.owner info = Tables.owner_identity p /\
       Types.node_endpoint info =
         Tables.internal_endpoint <$> nodes (seen j) !! Tables.node_id p) /\
    ((forall j, unaliased_in (registry c) (seen j)) ->
     map Types.pond_id infos =
       omap id (imap (fun j row => if known (seen j) (Rows.p_pond_id row)
                                   then Some (Rows.p_pond_id row) else None)
                  (Ops.list_ponds (registry c)))).
Proof.
  unfold InProcess.list_ponds. rewrite details_imap. eexists. split; [done|]. split.
  - intros info (j & row & _ & Hi)%elem_of_omap_imap. exists j. simpl in Hi.
    destruct (Ops.pond_info _ _) as [d|e] eqn:E; [|done]. simplify_eq/=.
    apply pond_info_Ok in E as (p & _ & Hp & _ & ->). by exists p.
  - intros Hun. apply (details_ids Neutral.to_info InProcess.cp_err Types.pond_id); [|done].
    by intros [[[row ?] ?] ?].
Qed.
End listing.

(** ** The create path *)

Section create.
Context `{!Sql} `{!Entropy} `{!Codec} {K : Type} `{!Service.NodeMaterializer K}.
Variables (materializer replay_bearer : bool) (cause_of : ControlPlaneError -> string).

(** The placement a request asks of the registry. *)
Definition place (req : Service.CreatePondAssignmentRequest) (c : Store) :
    result Rows.PondRow ControlPlaneError * Registry :=
  Ops.create_pond (now_at (draws c)) (dice_at (draws c)) (uuid_at (draws c))
    (if String.eqb (Service.name req) EmptyString then None else Some (Service.name req))
    (Service.owner_identity req) (Service.policy_json req)
    (if String.eqb (Service.tier req) EmptyString then "medium" else Service.tier req)
    (Service.extensions req) (Service.description req) (Service.lineage req) (registry c).

Definition caller (md : Service.Metadata) (req : Service.CreatePondAssignmentRequest) (c : Store) :=
  Service.caller_auth replay_bearer (trace_uuids (draws c)) md (Service.owner_identity req).

(** The trace id a failure carries. *)
Definition failure_trace (md : Service.Metadata) (req : Service.CreatePondAssignmentRequest)
    (c : Store) : option string :=
  Trace.trace_id <$> (Service.hop_traceparent (caller md req c) ≫= Trace.parse (uuid_at (draws c))).

Lemma compensate_spec id name owner cause tid r :
  let (st, r') := Service.compensate id name owner cause tid r in
  st = Service.to_status_traced (ControlPlaneError.AllocationNotMaterialized name owner cause
         (existsb (Ops.matches_ref id) (ponds r))) tid /\
  (forall p, p ∈ ponds r' -> Tables.pond_id p <> id /\ Tables.name p <> id) /\
  nodes r' = nodes r.
Proof.
  unfold Service.compensate. destruct (Ops.drop_pond id r) as [[u|e] r'] eqn:E.
  - pose proof (drop_pond_Ok _ _ _ _ E). unfold Ops.drop_pond in E.
    destruct (existsb _ _); [|done]. by injection E as _ <-.
  - pose proof (drop_pond_Err _ _ _ _ E) as (-> & _ & Hno). unfold Ops.drop_pond in E.
    by destruct (existsb _ _).
Qed.

Lemma place_id req c row r : place req c = (Ok row, r) -> Rows.p_pond_id row = uuid_at (draws c).
Proof. by intros (t & p & _ & [_ _ _ _ _ _ -> _])%create_pond_Ok. Qed.

(** creating a pond, whatever else happens to the registry meanwhile.  A
    refused placement changes nothing and reaches no node.  Success means the
    pond was placed and, where there is a materializer, that the node it was
    placed on, at the endpoint the registry gave for it, made it.  After any
    other failure no pond of that id is left, the error says whether this call
    removed it, and it carries the caller's trace. *)
Theorem create_pond_assignment_spec gap md req c nodes :
  let (res, s) := Service.create_pond_assignment materializer replay_bearer cause_of gap md req
                    (c, nodes) in
  let id := uuid_at (draws c) in
  match place req c with
  | (Err e, _) => res = Err (Service.to_status e) /\ s = (drawn c (registry c), nodes)
  | (Ok row, r) =>
      match res with
      | Ok a =>
          Service.pond_id a = id /\
          (exists id', Ops.get_pond_location id (gap 0 r) =
                         Ok (id', Service.assigned_node_endpoint a)) /\
          if materializer then
            Service.materialize (Service.assigned_node_endpoint a) id (caller md req c) nodes =
              (Ok tt, s.2) /\
            registry s.1 = gap 1 (gap 0 r)
          else s = (drawn c (gap 0 r), nodes)
      | Err st =>
          (exists owner cause found,
             st = Service.to_status_traced (ControlPlaneError.AllocationNotMaterialized
                    (Rows.p_name row) owner cause found) (failure_trace md req c)) /\
          (forall p, p ∈ ponds (registry s.1) -> Tables.pond_id p <> id /\ Tables.name p <> id) /\
          (s.2 = nodes \/
           exists endpoint cause, materializer = true /\
             Service.materialize endpoint id (caller md req c) nodes = (Err cause, s.2))
      end
  end.
Proof.
  unfold Service.create_pond_assignment. cbv zeta. fold (place req c).
  fold (caller md req c). fold (failure_trace md req c).
  destruct (place req c) as [[row|e] r] eqn:E.
  2: { by apply create_pond_Err in E as ->. }
  rewrite (place_id _ _ _ _ E).
  destruct (Ops.get_pond_location _ (gap 0 r)) as [[id' endpoint]|e] eqn:El.
  2: { match goal with |- context [Service.compensate ?a ?b ?c ?d ?e ?f] =>
         pose proof (compensate_spec a b c d e f) as Hc;
         destruct (Service.compensate a b c d e f) as [st r'] end.
       destruct Hc as (-> & Hno & _). split; [by eexists _, _, _|]. split; [done|by left]. }
  destruct materializer.
  2: { split; [done|]. split; [by eexists|done]. }
  destruct (Service.materialize endpoint _ _ nodes) as [[[]|cause] nodes'] eqn:Em.
  - split; [done|]. split; [by eexists|]. by split.
  - match goal with |- context [Service.compensate ?a ?b ?c ?d ?e ?f] =>
      pose proof (compensate_spec a b c d e f) as Hc;
      destruct (Service.compensate a b c d e f) as [st r'] end.
    destruct Hc as (-> & Hno & _). split; [by eexists _, _, _|]. split; [done|].
    right. by exists endpoint, cause.
Qed.

(** What an undisturbed creation leaves, where the id is fresh. *)
Lemma assignment_cases md req c nodes :
  uuid_at (draws c) ∉ map Tables.name (ponds (registry c)) ->
  let (res, s) := Service.create_pond_assignment materializer replay_bearer cause_of
                    (fun _ r => r) md req (c, nodes) in
  draws s.1 = (draws c + 1)%N /\
  match res with
  | Err _ =>
      ponds (registry s.1) = ponds (registry c) /\
      Registry.nodes (registry s.1) = Registry.nodes (registry c)
  | Ok a =>
      Service.pond_id a = uuid_at (draws c) /\
      Ops.get_pond_location (uuid_at (draws c)) (registry s.1) =
        Ok (uuid_at (draws c), Service.assigned_node_endpoint a) /\
      exists t row p,
        created (now_at (draws c)) (uuid_at (draws c))
          (if String.eqb (Service.name req) EmptyString then None else Some (Service.name req))
          (Service.owner_identity req) (Service.policy_json req) t (Service.extensions req)
          (Service.description req) (Service.lineage req) (registry c) row (registry s.1) p
  end.
Proof.
  intros Hfresh. unfold Service.create_pond_assignment. cbv zeta. fold (place req c).
  fold (caller md req c). destruct (place req c) as [[row|e] r] eqn:E.
  2: { by apply create_pond_Err in E as ->. }
  rewrite (place_id _ _ _ _ E). unfold place in E.
  apply create_pond_Ok in E as (t & p & _ & Hc).
  destruct (created_lookup _ _ _ _ _ _ _ _ _ _ _ _ _ Hc Hfresh) as (nd & _ & _ & _ & Hloc).
  rewrite Hloc.
  destruct materializer; [destruct (Service.materialize _ _ _ nodes) as [[[]|cause] nodes']|];
    [by split_and!; try done; exists t, row, p| |by split_and!; try done; exists t, row, p].
  unfold Service.compensate. rewrite (drop_created _ _ _ _ _ _ _ _ _ _ _ _ _ Hc Hfresh).
  split_and!; [done..|]. by destruct Hc as [_ _ _ _ _ _ _ ->].
Qed.

(** C18: creating a pond is all or nothing: undisturbed, and where the id drawn is
    nobody's name, a failure leaves the ponds and nodes as they were, so that the
    name is free again, and a success adds one pond, on a node that was active,
    which its id finds. *)
Theorem create_pond_assignment_atomic md req c nodes :
  uuid_at (draws c) ∉ map Tables.name (ponds (registry c)) ->
  let (res, s) := Service.create_pond_assignment materializer replay_bearer cause_of
                    (fun _ r => r) md req (c, nodes) in
  let r := registry s.1 in
  Registry.nodes r = Registry.nodes (registry c) /\ draws s.1 = (draws c + 1)%N /\
  match res with
  | Err _ => ponds r = ponds (registry c)
  | Ok a =>
      exists p nd, ponds r = ponds (registry c) ++ [p] /\ Tables.pond_id p = Service.pond_id a /\
        (Service.name req <> EmptyString -> Tables.name p = Service.name req) /\
        Tables.owner_identity p = Service.owner_identity req /\
        Registry.nodes r !! Tables.node_id p = Some nd /\ Tables.state nd = "active" /\
        Service.assigned_node_endpoint a = Tables.internal_endpoint nd /\
        Service.get_pond_location (Service.pond_id a) s.1 =
          Ok (Service.pond_id a, Service.assigned_node_endpoint a)
  end.
Proof.
  intros Hfresh. pose proof (assignment_cases md req c nodes Hfresh) as Hc.
  destruct (Service.create_pond_assignment _ _ _ _ _ _ _) as [[a|st] s]; cbv zeta in *.
  2: { by destruct Hc as (-> & -> & ->). }
  destruct Hc as (-> & Hid & Hloc & t & row & p & Hc).
  destruct (created_lookup _ _ _ _ _ _ _ _ _ _ _ _ _ Hc Hfresh) as (nd & Hnd & Hact & _ & Hl).
  destruct Hc as [_ _ _ _ _ Hp _ Hr].
  assert (Hn : Registry.nodes (registry s.1) = Registry.nodes (registry c)) by (by rewrite Hr).
  split_and!; [done..|]. exists p, nd. rewrite Hn. split_and!; try done.
  - by rewrite Hr.
  - by rewrite Hid, Hp.
  - intros Hne. rewrite Hp. simpl. by destruct (String.eqb_spec (Service.name req) EmptyString).
  - by rewrite Hp.
  - rewrite Hl in Hloc. by injection Hloc.
  - unfold Service.get_pond_location. by rewrite Hid, Hloc.
Qed.
End create.

(** ** The two implementations *)

(** Every registered node has an address. *)
Definition addressed (r : Registry) : Prop :=
  forall id n, nodes r !! id = Some n -> Tables.internal_endpoint n <> EmptyString.

Section agree.
Context `{!Sql} `{!Entropy} `{!Codec} {K : Type} `{!Service.NodeMaterializer K}.
Variables (materializer replay_bearer : bool) (cause_of : ControlPlaneError -> string).
Variables (header_ok : string -> bool) (bearer tp : option string).

Lemma status_err_to_status e : Remote.status_err (Service.to_status e) = InProcess.cp_err e.
Proof.
  unfold Remote.status_err, Service.to_status, Service.to_status_traced. simpl.
  rewrite decode_encode_envelope. by destruct e as [| | | | | | |? ? ? []| |].
Qed.

Lemma map_err_status {A} (r : result A ControlPlaneError) :
  map_err Remote.status_err (map_err Service.to_status r) = map_err InProcess.cp_err r.
Proof. destruct r; simpl; [done|]. by rewrite status_err_to_status. Qed.

Lemma msg_to_info_detail ref r d :
  addressed r -> Ops.pond_info ref r = Ok d ->
  Neutral.msg_to_info (Service.pond_info_msg d) = Neutral.to_info d.
Proof.
  intros Ha (p & _ & _ & _ & ->)%pond_info_Ok. unfold Neutral.msg_to_info, Neutral.to_info. simpl.
  f_equal. destruct (nodes r !! Tables.node_id p) as [n|] eqn:E; simpl; [|done].
  unfold Neutral.non_empty. apply Ha in E. by destruct (String.eqb_spec (Tables.internal_endpoint n) EmptyString).
Qed.

Lemma info_agrees ref s :
  addressed (registry s.1) -> Remote.pond_info ref (s : Store * K) = InProcess.pond_info ref s.1.
Proof.
  intros Ha. unfold Remote.pond_info, InProcess.pond_info, Service.get_pond_info.
  destruct (Ops.pond_info ref (registry s.1)) as [d|e] eqn:E; simpl.
  - by rewrite (msg_to_info_detail _ _ _ Ha E).
  - by rewrite status_err_to_status.
Qed.

Lemma list_agrees (s : Store * K) :
  addressed (registry s.1) ->
  Remote.list_ponds s = InProcess.list_ponds (fun _ => registry s.1) s.1.
Proof.
  intros Ha. unfold Remote.list_ponds, InProcess.list_ponds, Service.list_ponds.
  rewrite !details_imap. simpl. f_equal.
  apply omap_imap_map. intros j row _.
  destruct (Ops.pond_info _ _) as [d|e] eqn:E; simpl; [|done].
  by rewrite (msg_to_info_detail _ _ _ Ha E).
Qed.

Lemma dataset_agrees d :
  Neutral.msg_dataset_to_info (Service.dataset_to_msg d) = Neutral.dataset_to_info d.
Proof. unfold Neutral.msg_dataset_to_info, Neutral.dataset_to_info. simpl. by rewrite map_map. Qed.

(** Where at most one pond answers to [ref]. *)
Definition unambiguous (ref : string) (r : Registry) : Prop :=
  length (List.filter (Ops.matches_ref ref) (ponds r)) <= 1.

Lemma resolve_agrees ref s :
  wf (registry s.1) -> unambiguous ref (registry s.1) ->
  Remote.resolve_pond ref (s : Store * K) = InProcess.resolve_pond ref s.1.
Proof.
  intros Hwf Hone. unfold Remote.resolve_pond, InProcess.resolve_pond, Service.get_pond_location.
  unfold Ops.get_pond_location, Ops.pond_info, Ops.find_pond. unfold unambiguous in Hone.
  destruct (List.filter _ _) as [|p [|q l]] eqn:Ef; [| |simpl in Hone; lia].
  - cbn [omap list_omap].
    assert (Hnil : forall A, @limit1 _ A [] = None).
    { intros A. destruct (limit1 []) eqn:E; [|done]. by apply limit1_elem, elem_of_nil in E. }
    rewrite !Hnil. simpl. by rewrite status_err_to_status.
  - assert (Hp : p ∈ ponds (registry s.1)).
    { apply list_elem_of_In. eapply (proj1 (filter_In (Ops.matches_ref ref) p _)).
      rewrite Ef. by left. }
    destruct (proj1 (Forall_forall _ _) (wf_ponds _ _ (wf_ponds_ _ Hwf)) p Hp) as (_ & [nd Hnd] & _).
    cbn [omap list_omap]. rewrite Hnd. simpl. by rewrite !limit1_singleton.
Qed.

Lemma create_pond_tier now seed uuid name owner pj t t' exts desc lin r :
  Tier.parse_for_create t = Tier.parse_for_create t' ->
  Ops.create_pond now seed uuid name owner pj t exts desc lin r =
  Ops.create_pond now seed uuid name owner pj t' exts desc lin r.
Proof. unfold Ops.create_pond. by intros ->. Qed.

Lemma located ref r p nd :
  p ∈ ponds r -> Ops.matches_ref ref p = true -> nodes r !! Tables.node_id p = Some nd ->
  exists loc, Ops.get_pond_location ref r = Ok loc.
Proof.
  intros Hp Hm Hnd. unfold Ops.get_pond_location. destruct (limit1 _) as [x|] eqn:E; [by exists x|].
  apply limit1_None in E. exfalso.
  assert (Hin : (Tables.pond_id p, Tables.internal_endpoint nd) ∈
    omap (fun p => n ← nodes r !! Tables.node_id p;
                   Some (Tables.pond_id p, Tables.internal_endpoint n))
      (List.filter (Ops.matches_ref ref) (ponds r))).
  { apply list_elem_of_omap. exists p. rewrite Hnd. split; [|done].
    rewrite list_elem_of_In, filter_In, <- list_elem_of_In. done. }
  rewrite E in Hin. by apply elem_of_nil in Hin.
Qed.

Lemma create_agrees name owner pj tier exts lin (s : Store * K) :
  addressed (registry s.1) -> name <> Some EmptyString ->
  (forall endpoint id who, (Service.materialize endpoint id who s.2).1 = Ok tt) ->
  let x := Remote.create_pond materializer replay_bearer cause_of header_ok bearer tp
             name owner pj tier exts lin s in
  let y := InProcess.create_pond name owner pj tier exts lin s.1 in
  x.1 = y.1 /\ x.2.1 = y.2.
Proof.
  destruct s as [c nodes]. cbn [fst snd]. intros Ha Hname Hmat.
  unfold Remote.create_pond, InProcess.create_pond, Service.create_pond_assignment.
  cbn [Service.name Service.owner_identity Service.policy_json Service.tier Service.extensions
    Service.description Service.lineage].
  assert (Hn : (if String.eqb (default EmptyString name) EmptyString then None
                else Some (default EmptyString name)) = name).
  { destruct name as [n|]; simpl; [|done]. by destruct (String.eqb_spec n EmptyString) as [->|]. }
  rewrite Hn.
  rewrite (create_pond_tier _ _ _ _ _ _ (if String.eqb tier EmptyString then "medium" else tier)
             tier) by (by destruct (String.eqb_spec tier EmptyString) as [->|]).
  destruct (Ops.create_pond _ _ _ _ _ _ _ _ _ _ _) as [[row|e] r] eqn:E.
  2: { cbn. by rewrite status_err_to_status. }
  apply create_pond_Ok in E as (t & p & _ & [_ _ (nd & Hnd & _) _ _ Hp Hrow Hr]).
  assert (Hid : Rows.p_pond_id row = uuid_at (draws c)) by (by rewrite Hrow). rewrite Hid.
  destruct (located (uuid_at (draws c)) r p nd) as [[id endpoint] Hloc].
  { rewrite Hr. simpl. apply elem_of_app. right. by left. }
  { apply matches_ref_iff. left. by rewrite Hp. }
  { by rewrite Hr. }
  rewrite Hloc. assert (Har : addressed r) by (by rewrite Hr).
  assert (Hans : forall nodes' : K,
    (let? m := map_err Remote.status_err (Service.get_pond_info (uuid_at (draws c)) (drawn c r)) in
     let? m := ok_or m (Agent.internal "control plane returned no pond info") in
     Ok (Neutral.msg_to_info m)) =
    map_ok Neutral.to_info (map_err InProcess.cp_err (Ops.pond_info (uuid_at (draws c)) r))).
  { intros _. unfold Service.get_pond_info. simpl.
    destruct (Ops.pond_info _ r) as [d|e] eqn:Ei; simpl.
    - by rewrite (msg_to_info_detail _ _ _ Har Ei).
    - by rewrite status_err_to_status. }
  destruct materializer; [|split; [by apply Hans|done]].
  pose proof (Hmat endpoint (uuid_at (draws c)) (Service.caller_auth replay_bearer
    (trace_uuids (draws c)) (Remote.with_caller header_ok bearer tp owner) owner)) as Hm.
  destruct (Service.materialize _ _ _ nodes) as [res nodes']. simpl in Hm. subst res.
  split; [by apply Hans|done].
Qed.

(** C21: a node reaching its control plane over the wire and one holding the
    registry get the same answers and the same errors, for every operation, from
    a registry whose nodes have addresses; a reference is resolved alike where at
    most one pond answers to it, and a pond created alike where the request names
    it or leaves the name out and the owning node makes it. *)
Theorem remote_agrees_with_in_process (s : Store * K) :
  wf (registry s.1) -> addressed (registry s.1) ->
  let far := Remote.control_plane materializer replay_bearer cause_of header_ok bearer tp in
  let near := InProcess.control_plane in
  let same_store {A : Type} (x : A * (Store * K)) (y : A * Store) := x.1 = y.1 /\ x.2.1 = y.2 in
  (forall ref, far.(cp_pond_info) ref s = near.(cp_pond_info) ref s.1) /\
  far.(cp_list_ponds) s = near.(cp_list_ponds) s.1 /\
  (forall id, same_store (far.(cp_drop_pond) id s) (near.(cp_drop_pond) id s.1)) /\
  (forall q, far.(cp_list_datasets) q s = near.(cp_list_datasets) q s.1) /\
  (forall n, far.(cp_get_dataset) n s = near.(cp_get_dataset) n s.1) /\
  (forall q, far.(cp_list_catalogs) q s = near.(cp_list_catalogs) q s.1) /\
  (forall n, far.(cp_get_catalog) n s = near.(cp_get_catalog) n s.1) /\
  (forall ref, unambiguous ref (registry s.1) ->
     far.(cp_resolve_pond) ref s = near.(cp_resolve_pond) ref s.1) /\
  (forall name owner pj tier exts lin,
     name <> Some EmptyString ->
     (forall endpoint id who, (Service.materialize endpoint id who s.2).1 = Ok tt) ->
     same_store (far.(cp_create_pond) name owner pj tier exts lin s)
       (near.(cp_create_pond) name owner pj tier exts lin s.1)).
Proof.
  intros Hwf Ha. cbv zeta. cbn [cp_pond_info cp_list_ponds cp_drop_pond cp_list_datasets
    cp_get_dataset cp_list_catalogs cp_get_catalog cp_resolve_pond cp_create_pond
    Remote.control_plane InProcess.control_plane].
  split_and!.
  - intros ref. by apply info_agrees.
  - by apply list_agrees.
  - intros id. unfold Remote.drop_pond, InProcess.drop_pond, Service.drop_pond_assignment.
    destruct (Ops.drop_pond id (registry s.1)) as [res r]. simpl. by rewrite map_err_status.
  - intros q. unfold Remote.list_datasets, InProcess.list_datasets, Service.list_datasets.
    destruct (Ops.list_datasets q _); simpl; [|by rewrite status_err_to_status].
    rewrite map_map. f_equal. apply map_ext, dataset_agrees.
  - intros n. unfold Remote.get_dataset, InProcess.get_dataset, Service.get_dataset.
    destruct (Ops.get_dataset n _); simpl; [by rewrite dataset_agrees|].
    by rewrite status_err_to_status.
  - intros q. unfold Remote.list_catalogs, InProcess.list_catalogs, Service.list_catalogs.
    destruct (Ops.list_catalogs q _); simpl; [|by rewrite status_err_to_status].
    rewrite map_map. f_equal.
  - intros n. unfold Remote.get_catalog, InProcess.get_catalog, Service.get_catalog.
    destruct (Ops.get_catalog n _); simpl; [done|]. by rewrite status_err_to_status.
  - intros ref. by apply resolve_agrees.
  - intros name owner pj tier exts lin. by apply create_agrees.
Qed.
End agree.

(** ** The laws *)

Section laws.
Context `{!Sql} `{!Entropy} `{!Codec} {K : Type} `{!Service.NodeMaterializer K}.

(** The id the next draw gives is nobody's name. *)
Definition fresh_draw (c : Store) : Prop :=
  uuid_at (draws c) ∉ map Tables.name (ponds (registry c)).

Lemma drop_err_kind id r e r' :
  Ops.drop_pond id r = (Err e, r') -> forall ref, Ops.pond_info ref r' = Ops.pond_info ref r.
Proof. by intros (-> & _)%drop_pond_Err. Qed.

Lemma dropped_info id r u r' :
  Ops.drop_pond id r = (Ok u, r') ->
  Ops.pond_info id r' = Err (ControlPlaneError.PondNotFound id).
Proof. intros Hd. apply pond_info_Err. split; [done|]. by eapply drop_pond_Ok. Qed.

Lemma in_process_created name owner pj tier exts lin c i c' :
  fresh_draw c -> InProcess.create_pond name owner pj tier exts lin c = (Ok i, c') ->
  InProcess.pond_info (Types.pond_id i) c' = Ok i /\ Types.owner i = owner /\
  Types.lineage i = lin.
Proof.
  intros Hf. unfold InProcess.create_pond, InProcess.pond_info.
  destruct (Ops.create_pond _ _ _ _ _ _ _ _ _ _ _) as [[row|e] r] eqn:E; [|done].
  apply create_pond_Ok in E as (t & p & _ & Hc).
  destruct (created_lookup _ _ _ _ _ _ _ _ _ _ _ _ _ Hc Hf) as (nd & _ & _ & Hi & _).
  assert (Hid : Rows.p_pond_id row = uuid_at (draws c)) by (by destruct Hc as [_ _ _ _ _ _ -> _]).
  rewrite Hid, Hi. simpl. intros [= <- <-]. simpl.
  assert (Hp : Tables.pond_id p = uuid_at (draws c) /\ Tables.owner_identity p = owner /\
               Tables.lineage p = Some lin) by (by destruct Hc as [_ _ _ _ _ -> _ _]).
  destruct Hp as (Hpid & Hown & Hlin). rewrite Hpid, Hi. simpl. by rewrite Hpid, Hown, Hlin.
Qed.

Lemma in_process_refused name owner pj tier exts lin c e c' :
  fresh_draw c -> InProcess.create_pond name owner pj tier exts lin c = (Err e, c') ->
  forall ref, InProcess.pond_info ref c' = InProcess.pond_info ref c.
Proof.
  intros Hf. unfold InProcess.create_pond.
  destruct (Ops.create_pond _ _ _ _ _ _ _ _ _ _ _) as [[row|e'] r] eqn:E.
  - apply create_pond_Ok in E as (t & p & _ & Hc).
    destruct (created_lookup _ _ _ _ _ _ _ _ _ _ _ _ _ Hc Hf) as (nd & _ & _ & Hi & _).
    assert (Hid : Rows.p_pond_id row = uuid_at (draws c)) by (by destruct Hc as [_ _ _ _ _ _ -> _]).
    rewrite Hid, Hi. by intros [=].
  - apply create_pond_Err in E as ->. by intros [= _ <-] ref.
Qed.

#[export] Instance in_process_lawful :
  @LawfulControlPlane Store InProcess.control_plane.
Proof.
  refine {| cp_fresh := fresh_draw |}.
  - apply in_process_created.
  - apply in_process_refused.
  - intros id c c'. cbn. unfold InProcess.drop_pond, InProcess.pond_info.
    destruct (Ops.drop_pond id (registry c)) as [[u|e] r] eqn:E; [|done]. intros [= _ <-].
    simpl. rewrite (dropped_info _ _ _ _ E). by eexists.
  - intros id c e c'. cbn. unfold InProcess.drop_pond, InProcess.pond_info.
    destruct (Ops.drop_pond id (registry c)) as [[u|e'] r] eqn:E; [done|]. intros [= _ <-] ref.
    simpl. by rewrite (drop_err_kind _ _ _ _ E).
Defined.
End laws.

Section remote_laws.
Context `{!Sql} `{!Entropy} `{!Codec} {K : Type} `{!Service.NodeMaterializer K}.
Variables (materializer replay_bearer : bool) (cause_of : ControlPlaneError -> string).
Variables (header_ok : string -> bool) (bearer tp : option string).

Notation create :=
  (Remote.create_pond (K := K) materializer replay_bearer cause_of header_ok bearer tp).

Lemma remote_created name owner pj tier exts lin s i s' :
  fresh_draw s.1 -> create name owner pj tier exts lin s = (Ok i, s') ->
  Remote.pond_info (Types.pond_id i) s' = Ok i /\ Types.owner i = owner /\
  Types.lineage i = lin.
Proof.
  destruct s as [c nodes]. intros Hf. unfold Remote.create_pond, Remote.pond_info.
  match goal with |- context [Service.create_pond_assignment ?a ?b ?d ?g ?md ?req _] =>
    pose proof (assignment_cases a b d md req c nodes Hf) as Hc end.
  destruct (Service.create_pond_assignment _ _ _ _ _ _ _) as [[a|st] s1]; [|done].
  destruct Hc as (_ & Hid & _ & t & row & p & Hc).
  destruct (created_lookup _ _ _ _ _ _ _ _ _ _ _ _ _ Hc Hf) as (nd & _ & _ & Hi & _).
  assert (Hp : Tables.pond_id p = uuid_at (draws c) /\ Tables.owner_identity p = owner /\
               Tables.lineage p = Some lin) by (by destruct Hc as [_ _ _ _ _ -> _ _]).
  destruct Hp as (Hpid & Hown & Hlin).
  unfold Service.get_pond_info. cbn [map_err res_bind fst]. rewrite Hid, Hi.
  cbn [map_err res_bind ok_or]. intros [= <- <-].
  cbn [Neutral.msg_to_info Types.pond_id Types.owner Types.lineage Service.pond_info_msg
    Service.m_pond_id Service.m_owner Service.m_lineage Ops.pond_row Rows.p_pond_id
    Rows.p_owner_identity Rows.p_lineage].
  rewrite Hpid, Hi, Hown, Hlin. simpl. by rewrite Hpid, Hown, Hlin.
Qed.

Lemma remote_refused name owner pj tier exts lin s e s' :
  fresh_draw s.1 -> create name owner pj tier exts lin s = (Err e, s') ->
  forall ref, Remote.pond_info ref s' = Remote.pond_info ref s.
Proof.
  destruct s as [c nodes]. intros Hf. unfold Remote.create_pond.
  match goal with |- context [Service.create_pond_assignment ?a ?b ?d ?g ?md ?req _] =>
    pose proof (assignment_cases a b d md req c nodes Hf) as Hc end.
  destruct (Service.create_pond_assignment _ _ _ _ _ _ _) as [[a|st] s1].
  - destruct Hc as (_ & Hid & _ & t & row & p & Hc).
    destruct (created_lookup _ _ _ _ _ _ _ _ _ _ _ _ _ Hc Hf) as (nd & _ & _ & Hi & _).
    unfold Service.get_pond_info. cbn [map_err res_bind fst]. by rewrite Hid, Hi.
  - destruct Hc as (_ & Hps & Hns). intros [= _ <-] ref.
    unfold Remote.pond_info, Service.get_pond_info. simpl.
    by rewrite (pond_info_same_ponds ref _ _ Hps Hns).
Qed.

#[export] Instance remote_lawful :
  @LawfulControlPlane (Store * K)
    (Remote.control_plane materializer replay_bearer cause_of header_ok bearer tp).
Proof.
  refine (@Build_LawfulControlPlane _ (Remote.control_plane _ _ _ _ _ _) (fun s => fresh_draw s.1)
            remote_created remote_refused _ _).
  - intros id s s'. cbn. unfold Remote.drop_pond, Service.drop_pond_assignment, Remote.pond_info,
      Service.get_pond_info.
    destruct (Ops.drop_pond id (registry s.1)) as [[u|e] r] eqn:E; [|done]. intros [= _ <-].
    simpl. rewrite (dropped_info _ _ _ _ E). simpl. rewrite status_err_to_status. by eexists.
  - intros id s e s'. cbn. unfold Remote.drop_pond, Service.drop_pond_assignment,
      Remote.pond_info, Service.get_pond_info.
    destruct (Ops.drop_pond id (registry s.1)) as [[u|e'] r] eqn:E; [done|].
    intros [= _ <-] ref. simpl. by rewrite (drop_err_kind _ _ _ _ E).
Defined.
End remote_laws.

(** ** A system to evaluate on *)

Module Sample.
#[export] Instance entropy : Entropy :=
  {| now_at := fun n => Z.of_N n; dice_at := fun n => n;
     uuid_at := fun n => if (n =? 0)%N then uuid_a else uuid_b;
     trace_uuids := fun _ => (uuid_a, uuid_b) |}.

(** Any injective encoding will do for a codec. *)
#[local] Instance kind_countable : Countable Kind.ErrorKind.
Proof.
  refine (inj_countable Kind.as_str (fun s => find (fun k => String.eqb (Kind.as_str k) s) Kind.ALL) _).
  by intros [].
Defined.

#[local] Instance audience_countable : Countable Kind.Audience.
Proof.
  refine (inj_countable' (fun a => match a with Kind.Agent => true | Kind.Operator => false end)
            (fun b : bool => if b then Kind.Agent else Kind.Operator) _).
  by intros [].
Defined.

#[local] Instance retryable_countable : Countable Kind.Retryable.
Proof.
  refine (inj_countable'
    (fun r => match r with
              | Kind.Never => inl true | Kind.AsIs => inl false
              | Kind.AfterChange => inr true | Kind.AfterProvisioning => inr false
              end)
    (fun x : bool + bool => match x with
              | inl true => Kind.Never | inl false => Kind.AsIs
              | inr true => Kind.AfterChange | inr false => Kind.AfterProvisioning
              end) _).
  by intros [].
Defined.

#[local] Instance fact_countable : Countable Fact.
Proof.
  refine (inj_countable'
    (fun f => match f with Number n => inl n | Text s => inr (inl s) | Flag b => inr (inr b) end)
    (fun x : N + (string + bool) => match x with
       inl n => Number n | inr (inl s) => Text s | inr (inr b) => Flag b end) _).
  by intros [].
Defined.

#[local] Instance location_eq_dec : EqDecision Location.
Proof. solve_decision. Defined.

#[local] Instance location_countable : Countable Location.
Proof.
  refine (inj_countable' (fun l => (line l, column l, byte l))
            (fun '(a, b, c) => {| line := a; column := b; byte := c |}) _).
  by intros [].
Defined.

Definition fields (e : ErrorEnvelope) :=
  (kind e, message e, location e, suggest e, see e, env_audience e, env_retryable e, env_facts e,
   trace_id e, traceparent e).

#[export, refine] Instance codec : Codec := {
  encode_envelope e := pos_to_string (encode (fields e));
  decode_envelope s :=
    (fun '(k, m, l, su, se, a, r, f, t, tp) =>
       {| kind := k; message := m; location := l; suggest := su; see := se; env_audience := a;
          env_retryable := r; env_facts := f; trace_id := t; traceparent := tp |})
    <$> decode (pos_of_string s);
}.
Proof. intros e. rewrite pos_of_to_string, decode_encode. by destruct e. Defined.

(** Nodes as the addresses that answer; a materialised pond is recorded. *)
#[export] Instance nodes_up : Service.NodeMaterializer (list string * list string) :=
  {| Service.materialize := fun endpoint id _ s =>
       if existsb (String.eqb endpoint) s.1 then (Ok tt, (s.1, id :: s.2))
       else (Err "could not reach the node", s) |}.

Definition store : Store := {| registry := with_sales; draws := 1 |}.

Definition request : Service.CreatePondAssignmentRequest :=
  {| Service.name := "taxi"; Service.owner_identity := "ann"; Service.policy_json := "{}";
     Service.tier := EmptyString; Service.extensions := []; Service.description := EmptyString;
     Service.lineage := false |}.
End Sample.

Section sample.
Import Sample.

Notation create up := (Service.create_pond_assignment true false (fun _ => "gone") (fun _ r => r)
  Service.no_metadata request (store, (up, []))).

(** On a node that does not answer. *)
Lemma create_pond_assignment_atomic_witness :
  is_ok (create []).1 = false /\ ponds (registry (create []).2.1) = ponds with_sales.
Proof.
  assert (Hno : is_ok (create []).1 = false) by (vm_compute; reflexivity).
  split; [exact Hno|].
  assert (Hf : uuid_at (draws store) ∉ map Tables.name (ponds (registry store))).
  { assert (Hn : map Tables.name (ponds with_sales) = ["sales"]) by (vm_compute; reflexivity).
    cbn [registry store]. rewrite Hn. intros Hin. apply list_elem_of_singleton in Hin.
    discriminate Hin. }
  pose proof (create_pond_assignment_atomic true false (fun _ => "gone") Service.no_metadata
    request store ([], []) Hf) as Ha.
  destruct (create []) as [[a|st] s]; [discriminate Hno|]. apply Ha.
Defined.

Definition far := Remote.control_plane (K := list string * list string) true false
  (fun _ => "gone") (fun _ => true) None None.

Lemma nodes_with_sales id n :
  nodes with_sales !! id = Some n -> Tables.internal_endpoint n = "http://i".
Proof.
  assert (Hr : nodes with_sales = {["n1" := {| Tables.mcp_endpoint := "m";
      Tables.internal_endpoint := "http://i"; Tables.capacity := 10; Tables.state := "active";
      Tables.last_heartbeat := 1 |}]}) by (vm_compute; reflexivity).
  rewrite Hr. by intros [<- <-]%lookup_singleton_Some.
Qed.

Lemma remote_agrees_with_in_process_witness :
  far.(cp_pond_info) "sales" (store, (["http://i"], [])) =
    InProcess.control_plane.(cp_pond_info) "sales" store /\
  is_ok (far.(cp_pond_info) "sales" (store, (["http://i"], []))) = true.
Proof.
  assert (Hwf : wf with_sales) by (apply reachable_wf, reachable_with_sales).
  assert (Ha : addressed with_sales).
  { intros id n Hn. rewrite (nodes_with_sales id n Hn). discriminate. }
  destruct (remote_agrees_with_in_process true false (fun _ => "gone") (fun _ => true) None None
    (store, (["http://i"], [])) Hwf Ha) as [Hi _].
  split; [apply (Hi "sales")|]. vm_compute. reflexivity.
Defined.

(** The pond listed is dropped before it is looked up. *)
Lemma list_ponds_tolerates_drops_witness :
  map Rows.p_name (Ops.list_ponds with_sales) = ["sales"] /\
  InProcess.list_ponds (fun _ => with_node) store = Ok [].
Proof.
  split; [vm_compute; reflexivity|].
  destruct (list_ponds_tolerates_drops (fun _ => with_node) store) as (infos & Hi & _ & Hids).
  rewrite Hi. assert (Hnil : map Types.pond_id infos = []).
  { assert (Hp : ponds with_node = []) by (vm_compute; reflexivity).
    rewrite Hids by (intros _ q p _; rewrite Hp; intros Hin; by apply elem_of_nil in Hin).
    vm_compute. reflexivity. }
  destruct infos; [reflexivity|discriminate Hnil].
Defined.

(** The two implementations part on an empty name: over the wire it is no name at
    all, in the process it is an invalid one. *)
Lemma empty_name_differs :
  is_ok (far.(cp_create_pond) (Some EmptyString) "ann" "{}" "small" [] false
           (store, (["http://i"], []))).1 = true /\
  kind <$> res_err (InProcess.create_pond (Some EmptyString) "ann" "{}" "small" [] false store).1 =
    Some Kind.InvalidValue.
Proof. split; vm_compute; reflexivity. Qed.
End sample.
