(* ===== verification/Lifecycle.v ===== *)
(** * A pond's life, across the components

    What the agent operations make of any control plane that keeps its laws
    ([LawfulControlPlane]): a pond allocated is found, a pond dropped is gone.
    And what the registry makes of ownership: the nodes of a cluster agree on who
    serves a pond.  [Cluster] is a small system, a node over its own registry, on
    which the theorems are evaluated. *)
From S2P Require Import Prelude Errors Extensions Policy Common Sql Registry RegistryInv.
From S2P Require Import RegistrySpec Inflight Deadline Interfaces Ops OpsSpec ControlPlane ControlPlaneSpec.
Import Types.
#[local] Open Scope rust_scope.
#[local] Arguments String.append !_ _ / : simpl nomatch.

Section lifecycle.
Context {C D E F : Type} `{!PondIds} `{!Values}.
Context `{!ControlPlane C} `{!LawfulControlPlane C}.
Context `{!PondStorage D} `{!QueryEngine E} `{!Forwarder F} `{!LineageReader D}.
Variable self : Node.
Variable ambient : option Trace.TraceContext.
Notation World := (World C D E F).

Lemma allocate_pond_run identity name pj tier exts lin (w : World) :
  let (res, w') := AgentOps.allocate_pond ambient identity name pj tier exts lin w in
  exists r c, cp_create_pond name (Identity.agent_id identity) pj tier exts lin (cp w) = (r, c) /\
    cp w' = c /\
    res = map_ok (fun i => {| al_pond_id := pond_id i; al_pond_name := Types.name i |}) r /\
    exists ms, trail w' = trail w ++
      [Access.record (AgentOps.current_trace_id ambient) identity "allocate_pond"
         (al_pond_id <$> res_ok res) None ms (Access.outcome_of res)].
Proof.
  unfold AgentOps.allocate_pond, AgentOps.allocate_pond_inner, try, bind, on_cp.
  destruct (cp_create_pond _ _ _ _ _ _ _) as [[i|e] c]; simpl;
    eexists _, _; split_and!; try done; by eexists.
Qed.

(** allocating a pond, over any lawful control plane: its id then finds the
    pond, of the name answered, the caller's own, recording lineage as asked; a
    failure leaves every reference answering as before; either way there is one
    access record, naming the pond when there is one. *)
Theorem allocated_pond_is_found identity name pj tier exts lin (w : World) :
  cp_fresh (cp w) ->
  let (res, w') := AgentOps.allocate_pond ambient identity name pj tier exts lin w in
  match res with
  | Ok al =>
      exists info, cp_pond_info (al_pond_id al) (cp w') = Ok info /\
        pond_id info = al_pond_id al /\ Types.name info = al_pond_name al /\
        owner info = Identity.agent_id identity /\ lineage info = lin
  | Err _ => forall ref, cp_pond_info ref (cp w') = cp_pond_info ref (cp w)
  end /\
  exists ms, trail w' = trail w ++
    [Access.record (AgentOps.current_trace_id ambient) identity "allocate_pond"
       (al_pond_id <$> res_ok res) None ms (Access.outcome_of res)].
Proof.
  intros Hf. pose proof (allocate_pond_run identity name pj tier exts lin w) as Hrun.
  destruct (AgentOps.allocate_pond _ _ _ _ _ _ _ w) as [res w'].
  destruct Hrun as (r & c & Hc & Hw & -> & Ht). split; [|done]. rewrite Hw.
  destruct r as [i|e]; simpl.
  - destruct (cp_created _ _ _ _ _ _ _ _ _ Hf Hc) as (Hi & Ho & Hl). by exists i.
  - by apply (cp_refused _ _ _ _ _ _ _ _ _ Hf Hc).
Qed.

Lemma drop_pond_run identity ref info (w w' : World) :
  cp_pond_info ref (cp w) = Ok info -> placement self info = Local ->
  AgentOps.drop_pond self ambient identity ref true w = (Ok tt, w') ->
  cp_drop_pond (pond_id info) (cp w) = (Ok tt, cp w').
Proof.
  intros Hi Hp. unfold AgentOps.drop_pond. cbn [negb].
  rewrite (lookup_found _ _ _ _ _ _ _ Hi), (route_local _ _ _ _ _ _ _ Hp).
  destruct (AgentOps.parse_id (pond_id info)) as [pid|e]; [|done].
  unfold bind, on_inflight, on_cp. cbn [fst snd]. simpl cp.
  destruct (cp_drop_pond (pond_id info) (cp w)) as [[[]|e] c]; [|by simpl].
  unfold get, on_disk, on_engine. cbn [fst snd disk set_cp set_inflight].
  destruct (st_pond_location pid (disk w)) as [l|e]; cbn [fst snd]; simpl;
    destruct (st_drop_pond pid (disk w)) as [r d]; simpl; by intros [= <-].
Qed.

(** Every pond-scoped call begins with the lookup, but for those refused first. *)
Lemma run_not_found identity ref c e (w : World) :
  invalid c = false -> cp_pond_info ref (cp w) = Err e ->
  run self ambient identity ref c w =
    (false, set_trail (trail w ++ [Access.record (AgentOps.current_trace_id ambient) identity
                                     (call_op c) (Some ref) None 0 Access.ERROR]) w).
Proof.
  intros Hv He. destruct c as [[] sql ctl|sql ctl|sql ctl|sql| |[]| |cat q ps|cat ps|n s b];
    simpl run; simpl call_op; unfold ran_ok;
    unfold AgentOps.run_query, AgentOps.read_arrow_with, AgentOps.read_collected_with,
      AgentOps.explain_query, AgentOps.describe_pond, AgentOps.drop_pond,
      AgentOps.materialize_pond, AgentOps.catalog_pull, AgentOps.catalog_describe,
      AgentOps.get_lineage; try (simpl in Hv; rewrite Hv);
    try (erewrite bind_run; [|by apply lookup_failed]); done.
Qed.

(** a pond dropped where it is served is gone: after it, every pond-scoped
    call on its id, by anyone, fails with [pond_not_found], leaves one error
    record and touches nothing else. *)
Theorem dropped_pond_is_gone identity identity' ref info c (w w' : World) :
  cp_pond_info ref (cp w) = Ok info -> placement self info = Local ->
  AgentOps.drop_pond self ambient identity ref true w = (Ok tt, w') ->
  invalid c = false ->
  (exists e, cp_pond_info (pond_id info) (cp w') = Err e /\ kind e = Kind.PondNotFound) /\
  run self ambient identity' (pond_id info) c w' =
    (false, set_trail (trail w' ++ [Access.record (AgentOps.current_trace_id ambient) identity'
                                      (call_op c) (Some (pond_id info)) None 0 Access.ERROR]) w').
Proof.
  intros Hi Hp Hd Hv. pose proof (drop_pond_run _ _ _ _ _ Hi Hp Hd) as Hcp.
  destruct (cp_dropped _ _ _ Hcp) as (e & He & Hk). split; [by exists e|].
  by apply (run_not_found _ _ _ _ _ Hv He).
Qed.
End lifecycle.

(** ** Who serves a pond *)

(** The node registered as [id], as its process runs. *)
Definition process (cfg : AgentConfig) (id : string) (n : Tables.Node) : Node :=
  with_forwarding {| config := cfg; self_node_id := None; self_endpoint := None;
                     forwarder := false |} id (Tables.internal_endpoint n).

Section ownership.
Context `{!Sql} `{!Entropy}.

(** C15: the nodes of a cluster agree on who serves a pond: whatever reachable registry they
    ask, the pond is one registered node's, that node and no other takes it for its own,
    and every other one delegates to it at the address it registered.  Registering a node
    checks neither its id nor its address, so it is part of this what becomes of a blank or
    a shared one: another node registered at the owner's address refuses the pond, as every
    other node does where that address is blank, and a pond whose node has a blank id is
    refused by all; nobody serves it in the owner's stead. *)
Theorem one_owner cfg ref c info :
  reachable (registry c) -> InProcess.pond_info ref c = Ok info ->
  exists owner nd, nodes (registry c) !! owner = Some nd /\
    forall id n, nodes (registry c) !! id = Some n ->
      placement (process cfg id n) info =
        if String.eqb owner EmptyString then NoOwner
        else if String.eqb owner id then Local
        else if String.eqb (Tables.internal_endpoint nd) EmptyString
             || String.eqb (Tables.internal_endpoint nd) (Tables.internal_endpoint n) then NoOwner
        else Forward {| peer_node_id := owner; endpoint := Tables.internal_endpoint nd |}.
Proof.
  intros Hr Hi. unfold InProcess.pond_info in Hi.
  destruct (Ops.pond_info ref (registry c)) as [d|e] eqn:Ed; simplify_eq/=.
  apply pond_info_Ok in Ed as (p & _ & Hp & _ & ->).
  pose proof (wf_ponds _ _ (wf_ponds_ _ (reachable_wf _ Hr))) as Hok.
  destruct (proj1 (Forall_forall _ _) Hok p Hp) as (_ & [nd Hnd] & _).
  exists (Tables.node_id p), nd. split; [done|]. intros id n _.
  unfold placement, process, with_forwarding, non_empty. simpl. unfold Neutral.non_empty. rewrite Hnd.
  destruct (String.eqb_spec (Tables.node_id p) EmptyString) as [|Hne]; [done|].
  simpl. rewrite (proj2 (String.eqb_neq _ _) Hne).
  destruct (String.eqb (Tables.node_id p) id); [done|].
  by destruct (String.eqb_spec (Tables.internal_endpoint nd) EmptyString).
Qed.
End ownership.

(** ** A node over its own registry *)

Module Cluster.
#[local] Instance ids : PondIds := {| uuid_parse := fun s => Ok s |}.
#[local] Instance values : Values :=
  {| json := string; json_null := "null"; batch := unit; batch_objects := fun _ => Ok [] |}.
#[local] Instance entropy : Entropy :=
  {| now_at := fun n => Z.of_N n; dice_at := fun n => n;
     uuid_at := fun n => if (n =? 0)%N then uuid_a else uuid_b;
     trace_uuids := fun _ => (uuid_a, uuid_b) |}.

#[local] Instance disk : PondStorage (list string) :=
  {| st_ensure_pond := fun id _ d => (Err "full", d);
     st_pond_location := fun id d => Err "absent";
     st_drop_pond := fun id d => (Ok tt, d) |}.

Definition none {A S} (s : S) : Join (result A EngineError) * S := (Err "none", s).

#[local] Instance engine : QueryEngine unit :=
  {| en_init_pond := fun _ => none; en_read_query := fun _ _ _ => none;
     en_write_query := fun _ _ _ _ _ => none;
     en_read_arrow := fun _ _ _ e => ({| sent_schema := None; sent_batches := [] |}, Err "none", e);
     en_explain_query := fun _ _ => none; en_plan_datasets := fun _ _ e => (None, e);
     en_describe_schema := fun _ => none; en_pull_catalog := fun _ _ _ _ _ _ _ => none;
     en_describe_catalog := fun _ _ _ _ => none; en_forget_pond := fun _ e => e |}.

Definition unreachable {A} (f : unit) : result A AgentError * unit :=
  (Err (Agent.internal "unreachable"), f).

#[local] Instance peer : Forwarder unit :=
  {| fw_read := fun _ _ _ _ _ => unreachable; fw_read_arrow := fun _ _ _ _ _ => unreachable;
     fw_write := fun _ _ _ _ _ => unreachable; fw_explain := fun _ _ _ _ => unreachable;
     fw_describe := fun _ _ _ => unreachable; fw_get_lineage := fun _ _ _ _ _ _ => unreachable;
     fw_drop_pond := fun _ _ _ _ => unreachable; fw_materialize_pond := fun _ _ _ => unreachable;
     fw_catalog_pull := fun _ _ _ _ _ _ => unreachable;
     fw_catalog_describe := fun _ _ _ _ _ => unreachable |}.

#[local] Instance reader : LineageReader (list string) :=
  {| read_newest := fun _ _ _ _ _ => Err "none" |}.

Definition ada : Identity.Identity :=
  {| Identity.agent_id := "ada"; Identity.subject := EmptyString;
     Identity.issuer := EmptyString; Identity.verified := false |}.

Definition node : Node :=
  {| config := default_config; self_node_id := Some "n1"; self_endpoint := Some "http://i";
     forwarder := true |}.

(** One registered node, its registry at hand. *)
Definition world : World Store (list string) unit unit :=
  {| Ops.cp := {| registry := with_node; draws := 0 |}; Ops.disk := []; Ops.engine := tt;
     peers := tt; inflight := Inflight.empty; trail := []; metrics := [];
     lineage_writers := ∅; fresh := 0; clock := []; timers := [] |}.
End Cluster.

Section sample.
Import Cluster.
#[local] Existing Instances ids values entropy Cluster.disk Cluster.engine peer reader
  InProcess.control_plane.

Definition allocated :=
  AgentOps.allocate_pond None ada (Some "sales") "{}" "small" [] true world.

Lemma allocated_pond_is_found_witness :
  exists info, cp_pond_info uuid_a (cp allocated.2) = Ok info /\ owner info = "ada" /\
    lineage info = true.
Proof.
  assert (Hnil : map Tables.name (ponds with_node) = []) by (vm_compute; reflexivity).
  assert (Hf : @cp_fresh _ _ in_process_lawful (cp world)).
  { change (uuid_a ∉ map Tables.name (ponds with_node)). rewrite Hnil. apply not_elem_of_nil. }
  pose proof (allocated_pond_is_found None ada (Some "sales") "{}" "small" [] true world Hf) as Ha.
  unfold allocated.
  assert (Hok : (AgentOps.allocate_pond None ada (Some "sales") "{}" "small" [] true world).1 =
    Ok {| al_pond_id := uuid_a; al_pond_name := "sales" |}) by (vm_compute; reflexivity).
  destruct (AgentOps.allocate_pond None ada (Some "sales") "{}" "small" [] true world) as [res w'].
  simpl in Hok. subst res. destruct Ha as [(info & Hi & _ & _ & Ho & Hl) _].
  exists info. split; [exact Hi|]. split; [exact Ho|exact Hl].
Defined.

Definition dropped := AgentOps.drop_pond node None ada "sales" true allocated.2.

Lemma dropped_pond_is_gone_witness :
  (run node None ada uuid_a CDescribe dropped.2).1 = false.
Proof.
  destruct (cp_pond_info "sales" (cp allocated.2)) as [info|e] eqn:Ei;
    [|vm_compute in Ei; discriminate Ei].
  assert (Hid : pond_id info = uuid_a) by (vm_compute in Ei; injection Ei as <-; reflexivity).
  assert (Hp : placement node info = Local) by (vm_compute in Ei; injection Ei as <-; reflexivity).
  assert (Hd : AgentOps.drop_pond node None ada "sales" true allocated.2 = (Ok tt, dropped.2))
    by (vm_compute; reflexivity).
  destruct (dropped_pond_is_gone node None ada ada "sales" info CDescribe allocated.2 dropped.2
    Ei Hp Hd eq_refl) as [_ Hrun].
  rewrite Hid in Hrun. rewrite Hrun. reflexivity.
Defined.

(** Two nodes, and a pond placed on one of them. *)
Definition two_nodes : Registry :=
  (Registry.Ops.create_pond 4 0 uuid_a (Some "sales") "ann" "{}" "large" ["fts"] EmptyString true
     (Registry.Ops.register_node 3 "n2" "m2" "http://j" 10 with_node).2).2.

Lemma reachable_two_nodes : reachable two_nodes.
Proof.
  eapply reachable_step; [eapply reachable_step; [apply reachable_with_node|apply step_register]|].
  apply step_create, legal_uuid_a.
Qed.

Lemma two_nodes_rows id n :
  nodes two_nodes !! id = Some n ->
  (id = "n1" /\ Tables.internal_endpoint n = "http://i") \/
  (id = "n2" /\ Tables.internal_endpoint n = "http://j").
Proof.
  assert (Hr : map_to_list (nodes two_nodes) = map_to_list (nodes two_nodes)) by done.
  revert Hr. generalize (map_to_list (nodes two_nodes)) at 1. intros l Hl Hn.
  apply elem_of_map_to_list in Hn. rewrite <- Hl in Hn. vm_compute in Hl. subst l.
  repeat (apply elem_of_cons in Hn as [[= -> ->]|Hn]; [auto|]). by apply elem_of_nil in Hn.
Qed.

Lemma one_owner_witness :
  exists info, InProcess.pond_info "sales" {| registry := two_nodes; draws := 0 |} = Ok info /\
    forall n1 n2, nodes two_nodes !! "n1" = Some n1 -> nodes two_nodes !! "n2" = Some n2 ->
      placement (process default_config "n1" n1) info = Local /\
      placement (process default_config "n2" n2) info =
        Forward {| peer_node_id := "n1"; endpoint := "http://i" |}.
Proof.
  destruct (InProcess.pond_info "sales" {| registry := two_nodes; draws := 0 |}) as [info|e] eqn:Ei;
    [|vm_compute in Ei; discriminate Ei].
  exists info. split; [reflexivity|]. intros n1 n2 H1 H2.
  destruct (one_owner default_config "sales" {| registry := two_nodes; draws := 0 |} info
    reachable_two_nodes Ei) as (owner & nd & Hnd & Hall).
  rewrite (Hall _ _ H1), (Hall _ _ H2).
  assert (Howner : placement (process default_config "n1" n1) info = Local).
  { vm_compute in Ei. injection Ei as <-. reflexivity. }
  rewrite (Hall _ _ H1) in Howner.
  destruct (two_nodes_rows _ _ H1) as [[_ He1]|[He1 _]]; [|discriminate He1].
  destruct (two_nodes_rows _ _ H2) as [[He2 _]|[_ He2]]; [discriminate He2|].
  destruct (two_nodes_rows _ _ Hnd) as [[-> He]|[-> He]]; rewrite He, He1 in *.
  - rewrite He2. split; reflexivity.
  - discriminate Howner.
Defined.
End sample.
