(* ===== verification/Auth.v ===== *)
(** * Token verification

    Models [latiq-auth/src]: the signing-key cache of [jwks.rs], with its refetch
    floor, its single-flight guard and the interleaving of the requests on it;
    the claim checks and the configuration checks of [verify.rs]; and the
    challenge of [metadata.rs].  The JWT, base64, JSON, HTTP and URL crates are
    parameters ([Jwt], [Urls]), with what the code relies on of them as laws.
    Durations and instants are nanoseconds; counters of fetches are unbounded. *)
From S2P Require Import Prelude Common.
#[local] Open Scope rust_scope.
#[local] Arguments String.append !_ _ / : simpl nomatch.

Inductive AuthError :=
| Missing
| Malformed (m : string)
| UnknownKid (kid : string)
| Invalid (m : string)
| Jwks_ (m : string).

#[export] Instance AuthError_eq_dec : EqDecision AuthError.
Proof. solve_decision. Defined.

(** ** The crates underneath *)

Inductive Algorithm :=
| HS256 | HS384 | HS512 | ES256 | ES384 | RS256 | RS384 | RS512 | PS256 | PS384 | PS512 | EdDSA.

#[export] Instance Algorithm_eq_dec : EqDecision Algorithm.
Proof. solve_decision. Defined.

(** [{:?}]. *)
Definition alg_debug (a : Algorithm) : string :=
  match a with
  | HS256 => "HS256" | HS384 => "HS384" | HS512 => "HS512" | ES256 => "ES256"
  | ES384 => "ES384" | RS256 => "RS256" | RS384 => "RS384" | RS512 => "RS512"
  | PS256 => "PS256" | PS384 => "PS384" | PS512 => "PS512" | EdDSA => "EdDSA"
  end.

Inductive KeyAlgorithm := Signs (a : Algorithm) | Other_key_algorithm (name : string).
Inductive PublicKeyUse := Signature | Encryption | Other_use (name : string).

Record Header := { alg : Algorithm; kid : option string }.

(** [jsonwebtoken::Validation], as far as [verify] sets it and its defaults. *)
Record Validation := {
  algorithms : list Algorithm;
  leeway : N;
  validate_exp : bool;
  validate_nbf : bool;
  aud : list string;
  iss : list string;
  required_spec_claims : list string;
}.

(** The registered claims a token carries; [iss] and [aud] may each be one or several. *)
Record Payload := {
  p_iss : option (list string);
  p_aud : option (list string);
  p_exp : option N;
  p_nbf : option N;
  p_sub : option string;
}.

(** Whether a claim is there; only the registered ones can be asked for. *)
Definition carries (p : Payload) (claim : string) : bool :=
  if String.eqb claim "exp" then is_Some_b (p_exp p)
  else if String.eqb claim "nbf" then is_Some_b (p_nbf p)
  else if String.eqb claim "sub" then is_Some_b (p_sub p)
  else if String.eqb claim "iss" then is_Some_b (p_iss p)
  else if String.eqb claim "aud" then is_Some_b (p_aud p)
  else true.

Class Jwt := {
  (** A key's material as published, and imported. *)
  material : Type;
  dkey : Type;
  from_jwk : material -> option dkey;
  decode_header : string -> result Header string;
  (** [decode::<Claims>] at a time in seconds: the one claim kept is [sub]. *)
  decode : N -> string -> dkey -> Validation -> result (option string) string;
  b64url_decode : string -> result string string;
  (** [serde_json::from_slice::<UnverifiedIssuer>]. *)
  parse_iss : string -> result (option string) string;
  (** That the signature is the key's, by the algorithm. *)
  signed : string -> dkey -> Algorithm -> Prop;
  payload : string -> option Payload;
  (** What is asked for has to be there; every other check is of a claim that is there. *)
  decode_sound : forall now tok k v sub,
    decode now tok k v = Ok sub ->
    exists a p, a ∈ algorithms v /\ signed tok k a /\ payload tok = Some p /\ p_sub p = sub /\
      (forall claim, claim ∈ required_spec_claims v -> carries p claim = true) /\
      (validate_exp v = true -> forall e, p_exp p = Some e -> (now <= e + leeway v)%N) /\
      (validate_nbf v = true -> forall n, p_nbf p = Some n -> (n <= now + leeway v)%N) /\
      (forall l, p_aud p = Some l -> exists x, x ∈ l /\ x ∈ aud v) /\
      (forall l, p_iss p = Some l -> exists x, x ∈ l /\ x ∈ iss v);
}.

Inductive Host := Domain (name : string) | Ipv4 (ip : N) | Ipv6 (ip : N).

Record Url := { scheme : string; host : option Host; text : string }.

Class Urls := {
  url_parse : string -> result Url string;
  (** Serializing and parsing again is the identity. *)
  url_reparse : forall s u, url_parse s = Ok u -> url_parse (text u) = Ok u;
  (** A web URL serializes with its host, and without white space around it. *)
  url_web : forall s u, url_parse s = Ok u -> scheme u = "http" \/ scheme u = "https" ->
    exists rest, text u = scheme u +:+ "://" +:+ rest /\ starts_with "/" rest = false;
  url_trim : forall s u, url_parse s = Ok u -> trim (text u) = text u;
}.

(** ** The key cache *)

Module Jwks.
Section jwks.
Context `{!Jwt}.

Definition DURATION_MAX : N := (2 ^ 64 - 1) * 1000000000 + 999999999.
Definition SECOND : N := 1000000000.
Definition DEFAULT_MIN_REFRESH_INTERVAL : N := 60 * SECOND.
Definition DEFAULT_FAILURE_BACKOFF_BASE : N := 1 * SECOND.
Definition MAX_JWKS_BYTES : N := 256 * 1024.
Definition IDP_UNAVAILABLE : string := "identity provider JWKS endpoint unavailable".

Record Jwk := {
  key_id : option string;
  public_key_use : option PublicKeyUse;
  key_algorithm : option KeyAlgorithm;
  key_material : material;
}.

Record SigningKey := { key : dkey; key_alg : option Algorithm }.

Definition as_signing_alg (a : KeyAlgorithm) : option Algorithm :=
  match a with Signs a => Some a | Other_key_algorithm _ => None end.

(** [char::is_control]: C0, DEL and C1. *)
Definition is_control (c : string) : bool :=
  match c with
  | String a EmptyString => ascii_in 0 31 a || ascii_in 127 127 a
  | String a (String b EmptyString) => ascii_in 194 194 a && ascii_in 128 159 b
  | _ => false
  end.

Definition sanitize_kid (kid : string) : string :=
  str_concat (take 64 (List.filter (fun c => negb (is_control c)) (chars kid))).

(** [trim_end_matches('/')]. *)
Definition trim_end_slash (s : string) : string :=
  str_concat (reverse (skip_while (String.eqb "/") (reverse (chars s)))).

Definition discover_uri (issuer : string) : string :=
  trim_end_slash issuer +:+ "/protocol/openid-connect/certs".

(** *** A fetch *)

(** What the endpoint does: a body is its chunks, [None] a read that fails. *)
Inductive Http :=
| Unreachable
| Responded (success : bool) (content_length : option N) (chunks : list (option string)).

Fixpoint read_body (chunks : list (option string)) (body : string) : result string AuthError :=
  match chunks with
  | [] => Ok body
  | None :: _ => Err (Jwks_ IDP_UNAVAILABLE)
  | Some chunk :: chunks =>
      if (MAX_JWKS_BYTES <? N.of_nat (String.length body + String.length chunk))%N
      then Err (Jwks_ "jwks document too large")
      else read_body chunks (body +:+ chunk)
  end.

(** [serde_json::from_slice::<JwkSet>] is the argument. *)
Definition fetch (parse : string -> option (list Jwk)) (http : Http) : result (list Jwk) AuthError :=
  match http with
  | Unreachable => Err (Jwks_ IDP_UNAVAILABLE)
  | Responded false _ _ => Err (Jwks_ IDP_UNAVAILABLE)
  | Responded true content_length chunks =>
      if match content_length with Some n => (MAX_JWKS_BYTES <? n)%N | None => false end
      then Err (Jwks_ "jwks document too large")
      else
        let? body := read_body chunks EmptyString in
        ok_or (parse body) (Jwks_ IDP_UNAVAILABLE)
  end.

(** One key of the set, if it may be used to check signatures. *)
Definition usable (jwk : Jwk) : option (string * SigningKey) :=
  match key_id jwk with
  | None => None
  | Some kid =>
      match public_key_use jwk with
      | Some Encryption => None
      | _ =>
          match key_algorithm jwk with
          | Some (Other_key_algorithm _) => None
          | declared =>
              k ← from_jwk (key_material jwk);
              Some (kid, {| key := k; key_alg := declared ≫= as_signing_alg |})
          end
      end
  end.

(** The [fresh] map: of two keys with one id, the later. *)
Definition import_keys (set : list Jwk) : gmap string SigningKey :=
  foldl (fun fresh jwk =>
    match usable jwk with Some (kid, k) => <[kid := k]> fresh | None => fresh end) ∅ set.

(** *** The state *)

Record JwksCache := {
  keys : gmap string SigningKey;
  fetches : N;
  refreshes_completed : N;
  completed_at : option N;
  consecutive_failures : N;
  min_refresh_interval : N;
  failure_backoff_base : N;
}.

Definition with_min_refresh_interval (interval : N) : JwksCache :=
  {| keys := ∅; fetches := 0; refreshes_completed := 0; completed_at := None;
     consecutive_failures := 0; min_refresh_interval := interval;
     failure_backoff_base := DEFAULT_FAILURE_BACKOFF_BASE |}.

Definition new : JwksCache := with_min_refresh_interval DEFAULT_MIN_REFRESH_INTERVAL.

Definition with_failure_backoff_base (c : JwksCache) (base : N) : JwksCache :=
  {| keys := keys c; fetches := fetches c; refreshes_completed := refreshes_completed c;
     completed_at := completed_at c; consecutive_failures := consecutive_failures c;
     min_refresh_interval := min_refresh_interval c; failure_backoff_base := base |}.

Definition last_failed (c : JwksCache) : bool := (0 <? consecutive_failures c)%N.

Definition saturating_mul (d k : N) : N := N.min (d * k) DURATION_MAX.

Definition floor (c : JwksCache) : N :=
  if negb (last_failed c) then min_refresh_interval c
  else
    let doublings := N.min (consecutive_failures c - 1) 16 in
    N.min (saturating_mul (failure_backoff_base c) (N.shiftl 1 doublings)) (min_refresh_interval c).

Definition too_soon (now : N) (c : JwksCache) : bool :=
  match completed_at c with
  | None => false
  | Some at_ => (now - at_ <? floor c)%N
  end.

(** The pieces of [refresh], each under its own lock. *)
Definition start_fetch (c : JwksCache) : JwksCache :=
  {| keys := keys c; fetches := fetches c + 1; refreshes_completed := refreshes_completed c;
     completed_at := completed_at c; consecutive_failures := consecutive_failures c;
     min_refresh_interval := min_refresh_interval c;
     failure_backoff_base := failure_backoff_base c |}.

Definition store (set : list Jwk) (c : JwksCache) : JwksCache :=
  {| keys := import_keys set; fetches := fetches c; refreshes_completed := refreshes_completed c;
     completed_at := completed_at c; consecutive_failures := consecutive_failures c;
     min_refresh_interval := min_refresh_interval c;
     failure_backoff_base := failure_backoff_base c |}.

Definition stamp (now : N) (ok : bool) (c : JwksCache) : JwksCache :=
  {| keys := keys c; fetches := fetches c; refreshes_completed := refreshes_completed c;
     completed_at := Some now;
     consecutive_failures := if ok then 0
                             else N.min (consecutive_failures c + 1) (2 ^ 32 - 1);
     min_refresh_interval := min_refresh_interval c;
     failure_backoff_base := failure_backoff_base c |}.

Definition count_refresh (c : JwksCache) : JwksCache :=
  {| keys := keys c; fetches := fetches c; refreshes_completed := refreshes_completed c + 1;
     completed_at := completed_at c; consecutive_failures := consecutive_failures c;
     min_refresh_interval := min_refresh_interval c;
     failure_backoff_base := failure_backoff_base c |}.

(** The error owed for a key that is still missing. *)
Definition still_missing (kid : string) (c : JwksCache) : AuthError :=
  if last_failed c then Jwks_ IDP_UNAVAILABLE else UnknownKid (sanitize_kid kid).

(** *** Requests on the cache *)

(** Where a call of [key_for] is: about to read the keys; missed, about to ask
    [too_soon]; about to load the generation; queued on the guard with the one it
    loaded; holding the guard, about to look again; fetching; its fetch over, the
    keys replaced if it succeeded; the time stamped; the refresh counted; about
    to read the keys again; about to read the state; answered. *)
Inductive Phase :=
| Arrived
| Missed
| Looked
| Queued (generation : N)
| Holding (generation : N)
| Fetching
| Stored (r : result unit AuthError)
| Stamped (r : result unit AuthError)
| Counted (r : result unit AuthError)
| Rereading
| Absent
| Answered (r : result SigningKey AuthError).

(** [flight]: who holds the guard.  [published] is history: the sets fetched. *)
Record Config := {
  cache : JwksCache;
  now : N;
  flight : option nat;
  requests : gmap nat (string * Phase);
  published : list (list Jwk);
}.

Definition init (interval base : N) : Config :=
  {| cache := with_failure_backoff_base (with_min_refresh_interval interval) base; now := 0;
     flight := None; requests := ∅; published := [] |}.

Definition goto (i : nat) (kid : string) (p : Phase) (c : Config) : Config :=
  {| cache := cache c; now := now c; flight := flight c;
     requests := <[i := (kid, p)]> (requests c); published := published c |}.

Definition set_cache (k : JwksCache) (c : Config) : Config :=
  {| cache := k; now := now c; flight := flight c; requests := requests c;
     published := published c |}.

Definition set_flight (f : option nat) (c : Config) : Config :=
  {| cache := cache c; now := now c; flight := f; requests := requests c;
     published := published c |}.

Definition publish (set : list Jwk) (c : Config) : Config :=
  {| cache := cache c; now := now c; flight := flight c; requests := requests c;
     published := published c ++ [set] |}.

Definition elapse (d : N) (c : Config) : Config :=
  {| cache := cache c; now := now c + d; flight := flight c; requests := requests c;
     published := published c |}.

(** A step of the request [i], which wants [kid]. *)
Inductive internal (parse : string -> option (list Jwk)) (i : nat) (kid : string) (c : Config) :
    Config -> Prop :=
| step_hit k :
    requests c !! i = Some (kid, Arrived) -> keys (cache c) !! kid = Some k ->
    internal parse i kid c (goto i kid (Answered (Ok k)) c)
| step_miss :
    requests c !! i = Some (kid, Arrived) -> keys (cache c) !! kid = None ->
    internal parse i kid c (goto i kid Missed c)
| step_too_soon :
    requests c !! i = Some (kid, Missed) -> too_soon (now c) (cache c) = true ->
    internal parse i kid c (goto i kid Rereading c)
| step_look :
    requests c !! i = Some (kid, Missed) -> too_soon (now c) (cache c) = false ->
    internal parse i kid c (goto i kid Looked c)
| step_snapshot :
    requests c !! i = Some (kid, Looked) ->
    internal parse i kid c (goto i kid (Queued (refreshes_completed (cache c))) c)
| step_acquire g :
    requests c !! i = Some (kid, Queued g) -> flight c = None ->
    internal parse i kid c (set_flight (Some i) (goto i kid (Holding g) c))
| step_ride g :
    requests c !! i = Some (kid, Holding g) ->
    negb (refreshes_completed (cache c) =? g)%N || too_soon (now c) (cache c) = true ->
    internal parse i kid c (set_flight None (goto i kid Rereading c))
| step_fetch g :
    requests c !! i = Some (kid, Holding g) ->
    negb (refreshes_completed (cache c) =? g)%N || too_soon (now c) (cache c) = false ->
    internal parse i kid c (set_cache (start_fetch (cache c)) (goto i kid Fetching c))
| step_store http set :
    requests c !! i = Some (kid, Fetching) -> fetch parse http = Ok set ->
    internal parse i kid c
      (publish set (set_cache (store set (cache c)) (goto i kid (Stored (Ok tt)) c)))
| step_fail http e :
    requests c !! i = Some (kid, Fetching) -> fetch parse http = Err e ->
    internal parse i kid c (goto i kid (Stored (Err e)) c)
| step_stamp r :
    requests c !! i = Some (kid, Stored r) ->
    internal parse i kid c
      (set_cache (stamp (now c) (is_ok r) (cache c)) (goto i kid (Stamped r) c))
| step_count r :
    requests c !! i = Some (kid, Stamped r) ->
    internal parse i kid c (set_cache (count_refresh (cache c)) (goto i kid (Counted r) c))
| step_release r :
    requests c !! i = Some (kid, Counted r) ->
    internal parse i kid c
      (set_flight None
         (goto i kid (match r with Ok _ => Rereading | Err e => Answered (Err e) end) c))
| step_found k :
    requests c !! i = Some (kid, Rereading) -> keys (cache c) !! kid = Some k ->
    internal parse i kid c (goto i kid (Answered (Ok k)) c)
| step_absent :
    requests c !! i = Some (kid, Rereading) -> keys (cache c) !! kid = None ->
    internal parse i kid c (goto i kid Absent c)
| step_refuse :
    requests c !! i = Some (kid, Absent) ->
    internal parse i kid c (goto i kid (Answered (Err (still_missing kid (cache c)))) c).

(** A request comes, one moves, or time passes. *)
Inductive step (parse : string -> option (list Jwk)) (c : Config) : Config -> Prop :=
| step_arrive i kid : requests c !! i = None -> step parse c (goto i kid Arrived c)
| step_internal i kid c' : internal parse i kid c c' -> step parse c c'
| step_tick d : step parse c (elapse d c).

(** A caller that goes away drops its future where it is, and the guard with it. *)
Inductive abandon (c : Config) : Config -> Prop :=
| abandon_at i kid p :
    requests c !! i = Some (kid, p) ->
    abandon c {| cache := cache c; now := now c;
                 flight := if decide (flight c = Some i) then None else flight c;
                 requests := delete i (requests c); published := published c |}.

Definition reachable (parse : string -> option (list Jwk)) (interval base : N) (c : Config) : Prop :=
  rtc (step parse) (init interval base) c.

Definition abandoning (parse : string -> option (list Jwk)) (c c' : Config) : Prop :=
  step parse c c' \/ abandon c c'.
End jwks.
End Jwks.

(** ** The verifier *)

Module Verify.
Section verify.
Context `{!Jwt} `{!Urls}.

Definition ALLOWED_ALGS : list Algorithm :=
  [RS256; RS384; RS512; PS256; PS384; PS512; ES256; ES384; EdDSA].
Definition MAX_TOKEN_BYTES : nat := 8 * 1024.
Definition CLOCK_SKEW_LEEWAY_SECS : N := 30.

Record IssuerConfig := { issuer : string; jwks_uri : option string }.

Record AuthConfig := {
  audience : string;
  issuers : list IssuerConfig;
  allow_insecure_jwks : bool;
}.

(** An issuer's cache is named by the URI it fetches. *)
Record Verifier := { cfg : AuthConfig; caches : list (string * string) }.

Definition is_ipv4_loopback (ip : N) : bool := (N.shiftr ip 24 =? 127)%N.

Definition to_ipv4_mapped (ip : N) : option N :=
  if (N.shiftr ip 32 =? 65535)%N then Some (N.land ip (2 ^ 32 - 1)) else None.

Definition is_loopback (u : Url) : bool :=
  match host u with
  | Some (Domain name) => eq_ignore_ascii_case name "localhost"
  | Some (Ipv4 ip) => is_ipv4_loopback ip
  | Some (Ipv6 ip) =>
      (ip =? 1)%N ||
      match to_ipv4_mapped ip with Some v4 => is_ipv4_loopback v4 | None => false end
  | None => false
  end.

Definition empty_host (uri : string) : bool :=
  match split_once ":" uri with
  | None => false
  | Some (_, rest) =>
      match strip_prefix "//" rest with
      | Some authority => starts_with "/" authority
      | None => true
      end
  end.

Definition checked_jwks_uri (uri : string) (allow_insecure : bool) : result string AuthError :=
  if empty_host uri then
    Err (Invalid ("jwks uri '" +:+ uri +:+ "' has no host; expected scheme://host/path"))
  else
  match url_parse uri with
  | Err e => Err (Invalid ("jwks uri '" +:+ uri +:+ "' is not a valid URL: " +:+ e))
  | Ok parsed =>
      if String.eqb (scheme parsed) "https" then Ok (text parsed)
      else if String.eqb (scheme parsed) "http" then
        if is_loopback parsed || allow_insecure then Ok (text parsed)
        else
          Err (Invalid ("jwks uri '" +:+ uri +:+
            "' is plaintext http to a non-loopback host: signing keys must be fetched over https"))
      else
        Err (Invalid ("jwks uri scheme '" +:+ scheme parsed +:+ "' is not supported; use https"))
  end.

(** Where an issuer's keys are: as configured, or by convention. *)
Definition jwks_source (i : IssuerConfig) : string :=
  match trim <$> jwks_uri i with
  | Some u => if String.eqb u EmptyString then Jwks.discover_uri (trim (issuer i)) else u
  | None => Jwks.discover_uri (trim (issuer i))
  end.

(** The loop over the configured issuers. *)
Fixpoint new_issuers (allow_insecure : bool) (todo : list IssuerConfig)
    (done : list IssuerConfig) (caches : list (string * string)) :
    result (list IssuerConfig * list (string * string)) AuthError :=
  match todo with
  | [] => Ok (done, caches)
  | i :: todo =>
      let name := trim (issuer i) in
      if String.eqb name EmptyString then Err (Invalid "issuer identifier must not be empty")
      else if existsb (fun known => String.eqb known.1 name) caches then
        Err (Invalid ("issuer '" +:+ name +:+ "' is configured more than once"))
      else
        let? uri := checked_jwks_uri (jwks_source i) allow_insecure in
        new_issuers allow_insecure todo
          (done ++ [{| issuer := name; jwks_uri := Some uri |}]) (caches ++ [(name, uri)])
  end.

Definition new (c : AuthConfig) : result Verifier AuthError :=
  let audience := trim (audience c) in
  if String.eqb audience EmptyString then
    Err (Invalid ("auth audience must not be empty: without it any token minted for any service "
      +:+ "would be accepted"))
  else if bool_decide (length (issuers c) = 0) then
    Err (Invalid "auth requires at least one configured issuer")
  else
    let? l := new_issuers (allow_insecure_jwks c) (issuers c) [] [] in
    Ok {| cfg := {| audience := audience; issuers := l.1;
                    allow_insecure_jwks := allow_insecure_jwks c |};
          caches := l.2 |}.

(** The [iss] of the payload, unverified. *)
Definition unverified_issuer (token : string) : result string AuthError :=
  match split_byte "." token with
  | [_; payload; _] =>
      match b64url_decode payload with
      | Err e => Err (Malformed ("token payload is not base64url: " +:+ e))
      | Ok bytes =>
          match parse_iss bytes with
          | Err e => Err (Malformed ("token payload is not JSON claims: " +:+ e))
          | Ok None =>
              Err (Malformed "token has no 'iss' claim, so no key set can be chosen")
          | Ok (Some iss) => Ok iss
          end
      end
  | _ => Err (Malformed "token is not a three-segment JWS")
  end.

(** The policy a token is decoded against. *)
Definition validation (audience issuer : string) (a : Algorithm) : Validation :=
  {| algorithms := [a]; leeway := CLOCK_SKEW_LEEWAY_SECS; validate_exp := true;
     validate_nbf := true; aud := [audience]; iss := [issuer];
     required_spec_claims := ["exp"; "aud"; "iss"; "sub"] |}.

(** A key published for one algorithm is for that one. *)
Definition check_declared (declared : option Algorithm) (a : Algorithm) : result unit AuthError :=
  match declared with
  | Some d =>
      if bool_decide (d = a) then Ok tt
      else Err (Invalid ("token algorithm " +:+ alg_debug a +:+ " does not match the "
             +:+ alg_debug d +:+ " declared by signing key"))
  | None => Ok tt
  end.

(** [key_for] is what the cache of a URI answers for a key id. *)
Definition verify (v : Verifier)
    (key_for : string -> string -> result Jwks.SigningKey AuthError) (now : N)
    (token : string) (claimed_agent : option string) : result Identity.Identity AuthError :=
  let token := trim token in
  if String.eqb token EmptyString then Err Missing
  else if MAX_TOKEN_BYTES <? String.length token then
    Err (Malformed ("token is " +:+ pretty (String.length token) +:+ " bytes, over the "
      +:+ pretty MAX_TOKEN_BYTES +:+ "-byte limit"))
  else
  match decode_header token with
  | Err e => Err (Malformed ("unreadable token header: " +:+ e))
  | Ok header =>
  if negb (bool_decide (alg header ∈ ALLOWED_ALGS)) then
    Err (Invalid ("token algorithm " +:+ alg_debug (alg header) +:+ " is not accepted"))
  else
  match kid header with
  | None => Err (Malformed "token header has no 'kid', so no signing key can be pinned")
  | Some kid =>
  let? claimed_issuer := unverified_issuer token in
  match find (fun known => String.eqb known.1 claimed_issuer) (caches v) with
  | None => Err (Invalid "token issuer is not configured for this deployment")
  | Some (issuer, uri) =>
  let? key := key_for uri kid in
  let? _ := check_declared (Jwks.key_alg key) (alg header) in
  match decode now token (Jwks.key key) (validation (audience (cfg v)) issuer (alg header)) with
  | Err e => Err (Invalid e)
  | Ok sub =>
      let subject := trim (default EmptyString sub) in
      if String.eqb subject EmptyString then
        Err (Invalid "token 'sub' is empty, so the caller has no identity to attribute")
      else Ok (Identity.from_claims subject issuer claimed_agent)
  end
  end end end.
End verify.
End Verify.

(** ** Protected-resource metadata *)

Module Metadata.
Record ProtectedResourceMetadata := {
  resource : string;
  authorization_servers : list string;
  bearer_methods_supported : list string;
}.

Definition new (resource : string) (authorization_servers : list string) :
    ProtectedResourceMetadata :=
  {| resource := resource; authorization_servers := authorization_servers;
     bearer_methods_supported := ["header"] |}.

(** Printable, and neither of the quoted-string metacharacters. *)
Definition plain (b : ascii) : bool :=
  ascii_in 33 126 b && negb (Ascii.eqb b (ascii_of_N 34)) && negb (Ascii.eqb b (ascii_of_N 92)).

(** One digit of [{:02X}]. *)
Definition hex_digit (n : N) : ascii := ascii_of_N (if (n <? 10)%N then 48 + n else 55 + n).

Fixpoint encode_quoted (url : string) : string :=
  match url with
  | EmptyString => EmptyString
  | String b url =>
      if plain b then String b (encode_quoted url)
      else
        String "%" (String (hex_digit (N_of_ascii b / 16))
          (String (hex_digit (N_of_ascii b mod 16)) (encode_quoted url)))
  end.

Definition challenge_header (metadata_url : string) : string :=
  "Bearer resource_metadata=" +:+ dq +:+ encode_quoted metadata_url +:+ dq.
End Metadata.
