(* ===== verification/AuthSpec.v ===== *)
(** * What token verification guarantees

    The key cache under any interleaving of requests: one fetch at a time, a
    bounded rate of them, no answer that was not published, no refusal before the
    issuer was asked, and every request answered; and what an abandoned fetch does
    to the bound.  The verifier: what an accepted token is, what an accepted
    configuration is, and that the stored one is a fixed point.  The challenge. *)
From S2P Require Import Prelude Common Auth.
#[local] Open Scope rust_scope.
#[local] Arguments String.append !_ _ / : simpl nomatch.

(** ** The key cache *)

Section jwks.
Context `{!Jwt}.
Variable parse : string -> option (list Jwks.Jwk).
Import Jwks.

Definition in_flight (p : Phase) : bool :=
  match p with Holding _ | Fetching | Stored _ | Stamped _ | Counted _ => true | _ => false end.

(** A fetch fails for the endpoint's sake only. *)
Definition fetch_result (r : Prelude.result unit AuthError) : Prop :=
  forall e, r = Err e -> exists m, e = Jwks_ m.

Lemma read_body_Err chunks body e : read_body chunks body = Err e -> exists m, e = Jwks_ m.
Proof.
  revert body. induction chunks as [|[chunk|] chunks IH]; intros body; simpl; [done| |naive_solver].
  destruct (_ <? _)%N; [naive_solver|]. apply IH.
Qed.

Lemma fetch_Err http e : fetch parse http = Err e -> exists m, e = Jwks_ m.
Proof.
  destruct http as [|[] len chunks]; simpl; [naive_solver| |naive_solver].
  destruct (match len with Some _ => _ | None => _ end); [naive_solver|].
  destruct (read_body chunks EmptyString) eqn:E; simpl; [|intros [= <-]; by eapply read_body_Err].
  destruct (parse a); naive_solver.
Qed.

(** What is known of a request by where it is. *)
Definition phase_data (c : Config) (kid : string) (p : Phase) : Prop :=
  match p with
  | Queued g | Holding g => (g <= refreshes_completed (cache c))%N
  | Stored r => fetch_result r
  | Stamped r | Counted r => is_Some (completed_at (cache c)) /\ fetch_result r
  | Rereading | Absent => is_Some (completed_at (cache c))
  | Answered (Ok k) => exists set, set ∈ published c /\ import_keys set !! kid = Some k
  | _ => True
  end.

Record cache_inv (c : Config) : Prop := {
  ci_flight : forall i kid p, requests c !! i = Some (kid, p) ->
    in_flight p = true <-> flight c = Some i;
  ci_held : forall i, flight c = Some i -> is_Some (requests c !! i);
  ci_data : forall i kid p, requests c !! i = Some (kid, p) -> phase_data c kid p;
  ci_counted : (0 < refreshes_completed (cache c))%N -> is_Some (completed_at (cache c));
  ci_keys : forall kid k, keys (cache c) !! kid = Some k ->
    exists set, set ∈ published c /\ import_keys set !! kid = Some k;
}.

(** What only grows. *)
Definition grows (c c' : Config) : Prop :=
  (refreshes_completed (cache c) <= refreshes_completed (cache c'))%N /\
  (is_Some (completed_at (cache c)) -> is_Some (completed_at (cache c'))) /\
  published c ⊆ published c'.

Lemma phase_data_grows c c' kid p : grows c c' -> phase_data c kid p -> phase_data c' kid p.
Proof.
  intros (Hg & Hs & Hp). destruct p as [| | |g|g| |r|r|r| | |[k|e]]; simpl; auto; try lia.
  1-2: intros []; auto.
  intros (set & Hin & Hk). exists set. auto.
Qed.

Lemma cache_inv_move c c' i kid p0 p :
  cache_inv c -> requests c !! i = Some (kid, p0) ->
  requests c' = <[i := (kid, p)]> (requests c) -> grows c c' ->
  (forall j, j <> i -> flight c' = Some j <-> flight c = Some j) ->
  (in_flight p = true <-> flight c' = Some i) -> phase_data c' kid p ->
  ((0 < refreshes_completed (cache c'))%N -> is_Some (completed_at (cache c'))) ->
  (forall kid k, keys (cache c') !! kid = Some k ->
     exists set, set ∈ published c' /\ import_keys set !! kid = Some k) ->
  cache_inv c'.
Proof.
  intros [Hf Hh Hd _ _] Hi Hr Hg Hoth Hp Hpd Hc Hk. split; try done.
  - intros j kid' p'. rewrite Hr, lookup_insert_Some. intros [[-> [= -> ->]]|[Hne Hj]]; [done|].
    rewrite Hoth by done. by eapply Hf.
  - intros j Hj. rewrite Hr, lookup_insert_is_Some'. destruct (decide (j = i)) as [->|Hne]; [by left|].
    right. apply Hh. by apply Hoth.
  - intros j kid' p'. rewrite Hr, lookup_insert_Some. intros [[-> [= -> ->]]|[Hne Hj]]; [done|].
    eapply phase_data_grows; eauto.
Qed.

Lemma grows_refl c c' :
  refreshes_completed (cache c') = refreshes_completed (cache c) ->
  completed_at (cache c') = completed_at (cache c) -> published c' = published c -> grows c c'.
Proof. unfold grows. intros -> -> ->. done. Qed.

Lemma too_soon_completed t k : too_soon t k = true -> is_Some (completed_at k).
Proof. unfold too_soon. by destruct (completed_at k). Qed.

Lemma internal_inv i kid c c' : internal parse i kid c c' -> cache_inv c -> cache_inv c'.
Proof.
  intros Hs Hinv. pose proof Hinv as [Hf Hh Hd Hc Hk].
  destruct Hs as
    [k Hi Hkey|Hi _|Hi Hsoon|Hi _|Hi|g Hi Hfree|g Hi Hride|g Hi _|http set Hi _|http e Hi He|r Hi
    |r Hi|r Hi|k Hi Hkey|Hi _|Hi];
    pose proof (Hf _ _ _ Hi) as Hfi; pose proof (Hd _ _ _ Hi) as Hdi; simpl in Hfi, Hdi;
    (eapply cache_inv_move; [exact Hinv|exact Hi|reflexivity|..]);
    try (by apply grows_refl); try (by simpl; auto).
  - simpl. by eapply too_soon_completed.
  - simpl. intros j Hj. rewrite Hfree. naive_solver.
  - simpl. intros j Hj. destruct Hfi as [Hfi _]. rewrite Hfi by done. naive_solver.
  - simpl. apply orb_true_iff in Hride as [Hne|Hsoon]; [|by eapply too_soon_completed].
    apply Hc. apply negb_true_iff, N.eqb_neq in Hne. lia.
  - split; [simpl; lia|]. split; [done|]. simpl. set_solver.
  - simpl. intros kid' k Hkey. exists set. split; [set_solver|done].
  - simpl. intros e' [= <-]. by eapply fetch_Err.
  - split; [simpl; lia|]. by split.
  - by intros _; destruct Hdi.
  - simpl. intros j Hj. destruct Hfi as [Hfi _]. rewrite Hfi by done. naive_solver.
  - destruct r; simpl; naive_solver.
  - destruct Hdi, r; simpl; auto.
Qed.

Lemma arrive_inv i kid c : requests c !! i = None -> cache_inv c -> cache_inv (goto i kid Arrived c).
Proof.
  intros Hi [Hf Hh Hd Hc Hk]. split; simpl; try done.
  - intros j kid' p. rewrite lookup_insert_Some. intros [[-> [= -> <-]]|[_ Hj]].
    + simpl. split; [done|]. intros [x Hx]%Hh. congruence.
    + by eapply Hf.
  - intros j Hj. rewrite lookup_insert_is_Some'. right. by apply Hh.
  - intros j kid' p. rewrite lookup_insert_Some. intros [[-> [= -> <-]]|[_ Hj]]; [done|].
    eapply (phase_data_grows c); [by apply grows_refl|by eapply Hd].
Qed.

Lemma elapse_inv d c : cache_inv c -> cache_inv (elapse d c).
Proof. by intros [Hf Hh Hd Hc Hk]. Qed.

Lemma abandon_inv c c' : abandon c c' -> cache_inv c -> cache_inv c'.
Proof.
  intros [i kid p Hi] [Hf Hh Hd Hc Hk]. split; simpl; try done.
  - intros j kid' p'. rewrite lookup_delete_Some. intros [Hne Hj].
    rewrite (Hf _ _ _ Hj). case_decide; naive_solver.
  - intros j Hj. rewrite lookup_delete_is_Some. case_decide; [done|].
    split; [congruence|]. by apply Hh.
  - intros j kid' p'. rewrite lookup_delete_Some. intros [_ Hj].
    eapply (phase_data_grows c); [by apply grows_refl|by eapply Hd].
Qed.

Lemma abandoning_inv c c' : abandoning parse c c' -> cache_inv c -> cache_inv c'.
Proof.
  intros [[i kid Hi|i kid c1 Hs|d]|Ha] Hinv.
  - by apply arrive_inv.
  - by eapply internal_inv.
  - by apply elapse_inv.
  - by eapply abandon_inv.
Qed.

Lemma init_inv interval base : cache_inv (init interval base).
Proof. by split; simpl. Qed.

Lemma reachable_cache_inv interval base c :
  rtc (abandoning parse) (init interval base) c -> cache_inv c.
Proof.
  revert c. apply rtc_ind_r; [apply init_inv|].
  intros c1 c2 _ Hs. by apply abandoning_inv.
Qed.

(** *** The rate of fetches *)

(** The shortest wait any state of the cache asks for. *)
Definition quiet (c : JwksCache) : N :=
  N.min (N.min (failure_backoff_base c) DURATION_MAX) (min_refresh_interval c).

Lemma quiet_floor c : (quiet c <= floor c)%N.
Proof.
  unfold quiet, floor, saturating_mul. destruct (negb (last_failed c)); [lia|].
  assert (1 <= N.shiftl 1 (N.min (consecutive_failures c - 1) 16))%N as Hs.
  { rewrite N.shiftl_1_l. pose proof (N.pow_nonzero 2 (N.min (consecutive_failures c - 1) 16)). lia. }
  set (k := N.shiftl 1 _) in *. clearbody k. nia.
Qed.

Definition unstamped (p : Phase) : bool :=
  match p with Fetching | Stored _ => true | _ => false end.

(** A fetch under way, its end not yet stamped. *)
Definition under_way (c : Config) : Prop :=
  exists i kid p, flight c = Some i /\ requests c !! i = Some (kid, p) /\ unstamped p = true.

(** The fetches so far fit in the time up to [t]. *)
Definition fits (c : Config) (t : N) : Prop :=
  (fetches (cache c) * quiet (cache c) <= t + quiet (cache c))%N.

Definition rate_inv (c : Config) : Prop :=
  fits c (now c) /\
  (under_way c \/
   match completed_at (cache c) with
   | Some t => (t <= now c)%N /\ fits c t
   | None => fetches (cache c) = 0%N
   end).

Lemma rate_inv_frame c c' :
  cache c' = cache c -> (now c <= now c')%N -> (under_way c -> under_way c') ->
  rate_inv c -> rate_inv c'.
Proof.
  unfold rate_inv, fits. intros -> Hn Hu [Hfit Hor]. split; [lia|].
  destruct Hor as [|Hor]; [by left; auto|]. right.
  destruct (completed_at (cache c)); [|done]. lia.
Qed.

(** A request that is not fetching moves without touching the one that is. *)
Lemma under_way_goto c c' i kid p0 p :
  requests c !! i = Some (kid, p0) -> unstamped p0 = false ->
  requests c' = <[i := (kid, p)]> (requests c) -> (under_way c -> flight c' = flight c) ->
  under_way c -> under_way c'.
Proof.
  intros Hi Hp0 Hr Hf (j & kid' & p' & Hj & Hreq & Hu). exists j, kid', p'.
  rewrite Hf by (by exists j, kid', p'). rewrite Hr, lookup_insert_ne; [done|]. intros ->. congruence.
Qed.

Lemma not_under_way c i kid p :
  flight c = Some i -> requests c !! i = Some (kid, p) -> unstamped p = false -> ~ under_way c.
Proof. intros Hf Hi Hu (j & kid' & p' & Hj & Hr & Hu'). congruence. Qed.

Lemma fetch_rate c :
  ~ under_way c -> rate_inv c -> too_soon (now c) (cache c) = false ->
  (fetches (cache c) * quiet (cache c) <= now c)%N.
Proof.
  intros Hnot [_ [|Hor]] Hsoon; [done|]. unfold too_soon in Hsoon. unfold fits in Hor.
  destruct (completed_at (cache c)) as [t|]; [|rewrite Hor; lia].
  apply N.ltb_ge in Hsoon. pose proof (quiet_floor (cache c)). lia.
Qed.

Lemma internal_rate i kid c c' :
  internal parse i kid c c' -> cache_inv c -> rate_inv c -> rate_inv c'.
Proof.
  intros Hs Hinv Hrate. pose proof Hinv as [Hf _ _ _ _].
  assert (Hframe : forall p0 p c', requests c !! i = Some (kid, p0) -> unstamped p0 = false ->
    requests c' = <[i := (kid, p)]> (requests c) -> (under_way c -> flight c' = flight c) ->
    cache c' = cache c -> now c' = now c -> rate_inv c').
  { intros p0 p d Hi Hp Hr Hfl Hc Hn. apply (rate_inv_frame c); [done|lia| |done].
    by eapply under_way_goto. }
  assert (Hmine : forall p c', flight c' = flight c -> flight c = Some i ->
    requests c' = <[i := (kid, p)]> (requests c) -> unstamped p = true -> under_way c').
  { intros p d Hfl Hfi Hr Hu. exists i, kid, p. rewrite Hfl, Hr, lookup_insert_eq. done. }
  destruct Hs as
    [k Hi Hkey|Hi _|Hi Hsoon|Hi _|Hi|g Hi Hfree|g Hi Hride|g Hi Hgo|http set Hi _|http e Hi _|r Hi
    |r Hi|r Hi|k Hi Hkey|Hi _|Hi];
    pose proof (Hf _ _ _ Hi) as Hfi; simpl in Hfi;
    try (by eapply Hframe; [exact Hi|reflexivity..]);
    try (pose proof (proj1 Hfi eq_refl) as Hheld;
         pose proof (not_under_way _ _ _ _ Hheld Hi) as Hnot; simpl in Hnot).
  - eapply Hframe; [exact Hi|done..| |done|done]. intros (j & ? & ? & Hj & _). congruence.
  - eapply Hframe; [exact Hi|done..| |done|done]. intros Hu. by destruct Hnot.
  - apply orb_false_iff in Hgo as [_ Hgo]. pose proof (fetch_rate c (Hnot eq_refl) Hrate Hgo).
    split; [unfold fits; simpl; fold (quiet (cache c)); unfold quiet in *; simpl; lia|left].
    by eapply Hmine.
  - destruct Hrate as [Hfit _]. split; [exact Hfit|left]. by eapply Hmine.
  - destruct Hrate as [Hfit _]. split; [exact Hfit|left]. by eapply Hmine.
  - destruct Hrate as [Hfit _]. split; [exact Hfit|right]. simpl. split; [lia|exact Hfit].
  - destruct Hrate as [Hfit [|Hor]]; [by destruct Hnot|]. split; [exact Hfit|right]. exact Hor.
  - eapply Hframe; [exact Hi|done..| |done|done]. intros Hu. by destruct Hnot.
Qed.

Lemma reachable_rate interval base c : reachable parse interval base c -> rate_inv c.
Proof.
  revert c. apply rtc_ind_r.
  { split; [unfold fits; simpl; lia|]. by right. }
  intros c1 c2 Hr Hs Hrate.
  assert (Hinv : cache_inv c1).
  { apply (reachable_cache_inv interval base). eapply rtc_subrel; [|exact Hr]. by left. }
  destruct Hs as [i kid Hi|i kid c' Hs|d].
  - apply (rate_inv_frame c1); simpl; [done|lia| |done].
    intros (j & kid' & p' & Hj & Hreq & Hu). exists j, kid', p'. simpl.
    rewrite lookup_insert_ne; [done|]. intros ->. congruence.
  - by eapply internal_rate.
  - apply (rate_inv_frame c1); simpl; [done|lia|done|done].
Qed.

(** *** Progress *)

Definition rank (p : Phase) : nat :=
  match p with
  | Arrived => 11 | Missed => 10 | Looked => 9 | Queued _ => 8 | Holding _ => 7 | Fetching => 6
  | Stored _ => 5 | Stamped _ => 4 | Counted _ => 3 | Rereading => 2 | Absent => 1
  | Answered _ => 0
  end.

(** How many steps the requests on the cache have left, at most. *)
Definition remaining (c : Config) : nat :=
  map_fold (fun _ r n => rank r.2 + n) 0 (requests c).

Lemma remaining_insert (m : gmap nat (string * Phase)) i x :
  map_fold (fun _ r n => rank (snd r) + n) 0 (<[i := x]> m) =
  rank x.2 + map_fold (fun _ r n => rank (snd r) + n) 0 (delete i m).
Proof.
  rewrite <- insert_delete_eq. rewrite map_fold_insert_L; [done| |apply lookup_delete_eq].
  intros. lia.
Qed.

Lemma remaining_goto c c' i kid p0 p :
  requests c !! i = Some (kid, p0) -> requests c' = <[i := (kid, p)]> (requests c) ->
  rank p < rank p0 -> remaining c' < remaining c.
Proof.
  intros Hi Hr Hlt. unfold remaining. rewrite Hr, remaining_insert.
  rewrite <- (insert_id _ _ _ Hi) at 2. rewrite remaining_insert. simpl. lia.
Qed.

Lemma internal_decreases i kid c c' : internal parse i kid c c' -> remaining c' < remaining c.
Proof.
  destruct 1; (eapply remaining_goto; [eassumption|reflexivity|simpl; try lia]).
  destruct r; simpl; lia.
Qed.

(** Whoever holds the guard can move; when no one does, anyone waiting can. *)
Lemma someone_moves c i kid p :
  cache_inv c -> requests c !! i = Some (kid, p) -> rank p <> 0 ->
  exists j kid' c', internal parse j kid' c c'.
Proof.
  intros Hinv. revert i kid p.
  assert (Hfree : forall i kid p, requests c !! i = Some (kid, p) -> rank p <> 0 ->
    (forall g, p = Queued g -> flight c = None) -> exists j kid' c', internal parse j kid' c c').
  { intros i kid p Hi Hp Hq. exists i, kid. destruct p as [| | |g|g| |r|r|r| | |r]; [..|done].
    - destruct (keys (cache c) !! kid) eqn:E; eexists; [by eapply step_hit|by eapply step_miss].
    - destruct (too_soon (now c) (cache c)) eqn:E; eexists; [by eapply step_too_soon|by eapply step_look].
    - eexists. by eapply step_snapshot.
    - eexists. eapply step_acquire; eauto.
    - destruct (negb (refreshes_completed (cache c) =? g)%N || too_soon (now c) (cache c)) eqn:E;
        eexists; [by eapply step_ride|by eapply step_fetch].
    - eexists. by apply (step_fail parse i kid c Unreachable (Jwks_ IDP_UNAVAILABLE)).
    - eexists. by eapply step_stamp.
    - eexists. by eapply step_count.
    - eexists. by eapply step_release.
    - destruct (keys (cache c) !! kid) eqn:E; eexists; [by eapply step_found|by eapply step_absent].
    - eexists. by eapply step_refuse. }
  intros i kid p Hi Hp. destruct (flight c) as [j|] eqn:Ef; [|by eapply Hfree].
  destruct (ci_held _ Hinv _ Ef) as [[kid' p'] Hj].
  apply (Hfree _ _ _ Hj).
  - apply (ci_flight _ Hinv _ _ _ Hj) in Ef. by destruct p'.
  - intros g ->. by apply (ci_flight _ Hinv _ _ _ Hj) in Ef.
Qed.

Lemma constants_step c c' :
  step parse c c' ->
  min_refresh_interval (cache c') = min_refresh_interval (cache c) /\
  failure_backoff_base (cache c') = failure_backoff_base (cache c).
Proof. destruct 1 as [| ? ? ? Hs|]; [done|by destruct Hs|done]. Qed.

Lemma reachable_constants interval base c :
  reachable parse interval base c ->
  min_refresh_interval (cache c) = interval /\ failure_backoff_base (cache c) = base.
Proof.
  revert c. apply rtc_ind_r; [done|]. intros c1 c2 _ Hs [<- <-]. by apply constants_step.
Qed.

Lemma import_keys_Some set kid k :
  import_keys set !! kid = Some k -> exists jwk, jwk ∈ set /\ usable jwk = Some (kid, k).
Proof.
  unfold import_keys.
  assert (Hgen : forall acc : gmap string SigningKey, foldl (fun fresh jwk =>
      match usable jwk with Some (kid, k) => <[kid := k]> fresh | None => fresh end) acc set !! kid
      = Some k -> (exists jwk, jwk ∈ set /\ usable jwk = Some (kid, k)) \/ acc !! kid = Some k).
  { induction set as [|jwk set IH]; intros acc; simpl; [by right|].
    intros [(j & Hj & Hu)|Hacc]%IH; [left; exists j; split; [by right|done]|].
    destruct (usable jwk) as [[kid' k']|] eqn:Hu; [|by right].
    apply lookup_insert_Some in Hacc as [[-> ->]|[_ ?]]; [|by right].
    left. exists jwk. split; [by left|done]. }
  intros [Hex|Hacc]%Hgen; [done|]. by rewrite lookup_empty in Hacc.
Qed.

(** A key of a set that its issuer published for signing. *)
Definition issued (set : list Jwk) (kid : string) (k : SigningKey) : Prop :=
  exists jwk, jwk ∈ set /\ key_id jwk = Some kid /\ from_jwk (key_material jwk) = Some (key k) /\
    public_key_use jwk <> Some Encryption /\ key_algorithm jwk = Signs <$> key_alg k.

Lemma usable_issued jwk kid k set :
  jwk ∈ set -> usable jwk = Some (kid, k) -> issued set kid k.
Proof.
  intros Hin. unfold usable. destruct (key_id jwk) as [kid'|] eqn:Ek; [|done].
  assert (Hok : public_key_use jwk <> Some Encryption ->
    (match key_algorithm jwk with
     | Some (Other_key_algorithm _) => None
     | declared => k ← from_jwk (key_material jwk);
                   Some (kid', {| key := k; key_alg := declared ≫= as_signing_alg |})
     end) = Some (kid, k) -> issued set kid k).
  { intros Hu. destruct (key_algorithm jwk) as [[a|]|] eqn:Ea; [|done|];
      destruct (from_jwk (key_material jwk)) as [m|] eqn:Em; try done; simpl; intros [= <- <-];
      exists jwk; simpl; rewrite Ea; done. }
  destruct (public_key_use jwk) as [[]|] eqn:Eu; try done; by apply Hok.
Qed.
End jwks.

Section jwks_properties.
Context `{!Jwt}.
Variable parse : string -> option (list Jwks.Jwk).
Import Jwks.

(** however requests come and interleave, while none is abandoned in a fetch,
    the issuer is fetched from at a bounded rate: as many times as the shortest
    wait of the cache fits in the time elapsed, and once more. *)
Theorem jwks_fetch_rate interval base c :
  reachable parse interval base c ->
  (fetches (cache c) * N.min (N.min base DURATION_MAX) interval <=
   now c + N.min (N.min base DURATION_MAX) interval)%N.
Proof.
  intros Hr. destruct (reachable_rate _ _ _ _ Hr) as [Hfit _].
  destruct (reachable_constants _ _ _ _ Hr) as [Hi Hb].
  unfold fits, quiet in Hfit. by rewrite Hi, Hb in Hfit.
Qed.

(** C23: whatever the interleaving, abandoned requests included: one request at a
    time is in a fetch; a key answered was published for signing, under the id
    asked for, with the algorithm it was published for; and a request is told its
    key is unknown only by a cache whose last refresh succeeded, any other
    refusal being the endpoint's. *)
Theorem jwks_answers interval base c :
  rtc (abandoning parse) (init interval base) c ->
  (forall i j kid kid' p p', requests c !! i = Some (kid, p) -> requests c !! j = Some (kid', p') ->
     in_flight p = true -> in_flight p' = true -> i = j) /\
  (forall i kid k, requests c !! i = Some (kid, Answered (Ok k)) ->
     exists set, set ∈ published c /\ issued set kid k) /\
  (forall i kid p c' e, requests c !! i = Some (kid, p) -> internal parse i kid c c' ->
     requests c' !! i = Some (kid, Answered (Err e)) ->
     match e with
     | UnknownKid s =>
         s = sanitize_kid kid /\ is_Some (completed_at (cache c)) /\ last_failed (cache c) = false
     | Jwks_ _ => True
     | _ => False
     end).
Proof.
  intros Hr%reachable_cache_inv. pose proof Hr as [Hf _ Hd _ _]. split_and!.
  - intros i j kid kid' p p' Hi Hj Hp Hp'. apply (Hf _ _ _ Hi) in Hp. apply (Hf _ _ _ Hj) in Hp'.
    congruence.
  - intros i kid k Hi. destruct (Hd _ _ _ Hi) as (set & Hin & Hk). exists set. split; [done|].
    apply import_keys_Some in Hk as (jwk & Hjwk & Hu). by eapply usable_issued.
  - intros i kid p c' e Hi Hs. destruct Hs as
      [k _ _|_ _|_ _|_ _|_|g _ _|g _ _|g _ _|http set _ _|http e' _ _|r _|r _|r Hc|k _ _|_ _|Ha];
      simpl; rewrite lookup_insert_eq; intros [= He].
    + destruct r as [|e']; [done|]. injection He as ->.
      destruct (Hd _ _ _ Hc) as [_ Hres]. by destruct (Hres e eq_refl) as [m ->].
    + subst e. unfold still_missing. destruct (last_failed (cache c)) eqn:El; [done|].
      split; [done|]. split; [|done]. apply (Hd _ _ _ Ha).
Qed.

(** C24: every call of [key_for] ends: each step it takes leaves fewer to take,
    and as long as some request is unanswered one of them can take a step; so
    after at most [remaining] steps, all are answered. *)
Theorem jwks_requests_end interval base c :
  rtc (abandoning parse) (init interval base) c ->
  (forall i kid c', internal parse i kid c c' -> remaining c' < remaining c) /\
  ((exists i kid p, requests c !! i = Some (kid, p) /\ rank p <> 0) ->
   exists i kid c', internal parse i kid c c') /\
  (forall i kid p, requests c !! i = Some (kid, p) -> rank p = 0 <-> exists r, p = Answered r).
Proof.
  intros Hr%reachable_cache_inv. split_and!.
  - intros i kid c'. apply internal_decreases.
  - intros (i & kid & p & Hi & Hp). by eapply someone_moves.
  - intros i kid p _. destruct p; simpl; naive_solver.
Qed.

(** A request on a cache nothing has come to yet, up to its fetch, then gone. *)
Lemma abandoned_fetch c :
  requests c = ∅ -> flight c = None -> keys (cache c) = ∅ -> completed_at (cache c) = None ->
  rtc (abandoning parse) c
    {| cache := start_fetch (cache c); now := now c; flight := None; requests := ∅;
       published := published c |}.
Proof.
  intros Hr Hf Hk Hc. destruct c as [k t f rs pb]. simpl in *. subst rs f.
  assert (Hsoon : too_soon t k = false) by (unfold too_soon; by rewrite Hc).
  pose (at_ := fun (f : option nat) (k : JwksCache) (p : Phase) =>
    {| cache := k; now := t; flight := f;
       requests := {[0 := (EmptyString, p)]} : gmap nat (string * Phase); published := pb |}).
  assert (Hput : forall p q : Phase,
    <[0 := (EmptyString, q)]> ({[0 := (EmptyString, p)]} : gmap nat (string * Phase)) =
    {[0 := (EmptyString, q)]}) by (intros p q; apply insert_singleton_eq).
  assert (Hint : forall f k' p c', internal parse 0 EmptyString (at_ f k' p) c' ->
    abandoning parse (at_ f k' p) c') by (intros; left; by eapply step_internal).
  assert (Hget : forall f k' p, requests (at_ f k' p) !! 0 = Some (EmptyString, p))
    by (intros; apply lookup_insert_eq).
  eapply rtc_l; [left; by apply (step_arrive parse _ 0 EmptyString)|].
  change (goto 0 EmptyString Arrived _) with (at_ None k Arrived).
  eapply rtc_l; [apply Hint, step_miss; [done|by simpl; rewrite Hk]|].
  unfold goto; simpl; rewrite Hput; change (rtc (abandoning parse) (at_ None k Missed) 
    {| cache := start_fetch k; now := t; flight := None; requests := ∅; published := pb |}).
  eapply rtc_l; [apply Hint, step_look; done|].
  unfold goto; simpl; rewrite Hput; change (rtc (abandoning parse) (at_ None k Looked) 
    {| cache := start_fetch k; now := t; flight := None; requests := ∅; published := pb |}).
  eapply rtc_l; [apply Hint, step_snapshot; done|].
  unfold goto; simpl; rewrite Hput; set (g := refreshes_completed k).
  eapply rtc_l; [apply (Hint None k (Queued g)), (step_acquire _ _ _ _ g); done|].
  unfold goto, set_flight; simpl; rewrite Hput.
  eapply rtc_l; [apply (Hint (Some 0) k (Holding g)), (step_fetch _ _ _ _ g); [done|]|].
  { simpl. rewrite Hsoon. unfold g. by rewrite N.eqb_refl. }
  unfold goto, set_cache; simpl; rewrite Hput.
  eapply rtc_l; [right; apply (abandon_at _ 0 EmptyString Fetching); done|].
  simpl. rewrite delete_singleton_eq. apply rtc_refl.
Qed.

(** the bound is lost to callers that go away: a fetch whose request is
    abandoned is never stamped, so that any number of fetches can start with no
    time between them. *)
Theorem jwks_abandoned_fetches interval base n :
  exists c, rtc (abandoning parse) (init interval base) c /\ now c = 0%N /\
    fetches (cache c) = N.of_nat n.
Proof.
  assert (Hex : exists c, rtc (abandoning parse) (init interval base) c /\ now c = 0%N /\
    fetches (cache c) = N.of_nat n /\ requests c = ∅ /\ flight c = None /\
    keys (cache c) = ∅ /\ completed_at (cache c) = None); [|naive_solver].
  induction n as [|n (c & Hc & Ht & Hn & Hr & Hf & Hk & Hcomp)].
  { by exists (init interval base). }
  eexists. split; [etrans; [exact Hc|by apply abandoned_fetch]|]. simpl.
  rewrite Hn. split_and!; try done. lia.
Qed.
End jwks_properties.

(** ** The verifier *)

Section verify.
Context `{!Jwt} `{!Urls}.
Import Verify.

(** An issuer's keys are fetched over TLS, or in clear where that is let be. *)
Definition fetchable (allow_insecure : bool) (p : Url) : Prop :=
  scheme p = "https" \/ scheme p = "http" /\ (is_loopback p = true \/ allow_insecure = true).

Lemma checked_jwks_uri_Ok uri allow u :
  checked_jwks_uri uri allow = Ok u <->
  empty_host uri = false /\ exists p, url_parse uri = Ok p /\ u = text p /\ fetchable allow p.
Proof.
  unfold checked_jwks_uri, fetchable. destruct (empty_host uri).
  { split; [discriminate|]. intros [[=] _]. }
  destruct (url_parse uri) as [p|e].
  2: { split; [discriminate|]. intros (_ & p & [=] & _). }
  transitivity (u = text p /\ (scheme p = "https" \/
    scheme p = "http" /\ (is_loopback p = true \/ allow = true))).
  2: { split; [intros []; eauto|]. intros (_ & q & [= <-] & Hu & Hq). eauto. }
  destruct (String.eqb_spec (scheme p) "https") as [Hs|Hs].
  { split; [intros [= <-]; eauto|]. intros [-> _]. reflexivity. }
  destruct (String.eqb_spec (scheme p) "http") as [Hh|Hh].
  2: { split; [discriminate|]. intros [_ [|[]]]; contradiction. }
  rewrite <- orb_true_iff. destruct (is_loopback p || allow).
  - split; [intros [= <-]; eauto|]. intros [-> _]. reflexivity.
  - split; [discriminate|]. intros [_ [|[_ [=]]]]. contradiction.
Qed.

(** A stored address is accepted as it is. *)
Lemma checked_jwks_uri_fixed uri allow u :
  checked_jwks_uri uri allow = Ok u ->
  checked_jwks_uri u allow = Ok u /\ trim u = u /\ u <> EmptyString.
Proof.
  intros (_ & p & Hp & -> & Hf)%checked_jwks_uri_Ok.
  destruct (url_web uri p Hp) as (rest & Hr & Hs). { destruct Hf as [|[]]; auto. }
  assert (Hcolon : split_once ":" (text p) = Some (scheme p, "//" +:+ rest)).
  { rewrite Hr. change ("://" +:+ rest) with (String ":" ("//" +:+ rest)).
    apply split_once_byte. destruct Hf as [->|[-> _]]; reflexivity. }
  split_and!; [|by eapply url_trim|].
  - apply checked_jwks_uri_Ok. split; [|exists p; by split_and!; [eapply url_reparse|..]].
    unfold empty_host. rewrite Hcolon. simpl. exact Hs.
  - intros He. rewrite He in Hcolon. discriminate Hcolon.
Qed.

(** What a configured issuer is stored as. *)
Definition stored (allow : bool) (i : IssuerConfig) (known : string * string) : Prop :=
  known.1 = trim (issuer i) /\ known.1 <> EmptyString /\
  checked_jwks_uri (jwks_source i) allow = Ok known.2.

Definition config_of (known : string * string) : IssuerConfig :=
  {| issuer := known.1; jwks_uri := Some known.2 |}.

Lemma new_issuers_Ok allow todo done caches l cs :
  new_issuers allow todo done caches = Ok (l, cs) <->
  exists new, Forall2 (stored allow) todo new /\ l = done ++ map config_of new /\
    cs = caches ++ new /\ NoDup (map fst new) /\ (forall n, n ∈ map fst new -> n ∉ map fst caches).
Proof.
  revert done caches. induction todo as [|i todo IH]; intros done caches; simpl.
  { split.
    - intros [= <- <-]. exists []. simpl. rewrite !app_nil_r.
      split_and!; try done; [constructor|]. intros n Hn. inversion Hn.
    - intros (new & Hn%Forall2_nil_inv_l & -> & -> & _). subst new. simpl. by rewrite !app_nil_r. }
  destruct (String.eqb_spec (trim (issuer i)) EmptyString) as [He|He].
  { split; [done|]. intros (new & Hn & _). inversion_clear Hn as [|? ? ? ? (H1 & H2 & _)].
    exfalso. apply H2. by rewrite H1. }
  destruct (existsb _ caches) eqn:Hex.
  { split; [done|]. intros (new & Hn & _ & _ & _ & Hdis).
    inversion Hn as [|? known ? new' (H1 & _) Hn']; subst. exfalso.
    apply existsb_exists in Hex as (k & Hk & Heq%String.eqb_eq). apply (Hdis known.1); [by left|].
    rewrite H1, <- Heq. apply list_elem_of_In, (in_map fst _ _ Hk). }
  destruct (checked_jwks_uri (jwks_source i) allow) as [u|e] eqn:Hu; simpl.
  2: { split; [done|]. intros (new & Hn & _). inversion_clear Hn as [|? ? ? ? (_ & _ & H3)].
    rewrite Hu in H3. discriminate H3. }
  rewrite IH. clear IH. split.
  - intros (new & Hn & -> & -> & Hnd & Hdis). exists ((trim (issuer i), u) :: new).
    rewrite map_app in Hdis. simpl in Hdis. simpl.
    split_and!.
    + constructor; [by split_and!|done].
    + by rewrite <- app_assoc.
    + by rewrite <- app_assoc.
    + constructor; [|done]. intros Hin. apply (Hdis _ Hin), elem_of_app. right. by left.
    + intros n. rewrite elem_of_cons. intros [->|Hin].
      2: { intros Hk. apply (Hdis _ Hin), elem_of_app. by left. }
      intros Hk. apply list_elem_of_fmap in Hk as (k & Hk & Hin). apply not_true_iff_false in Hex.
      apply Hex, existsb_exists. exists k. rewrite <- list_elem_of_In, Hk. split; [done|].
      apply String.eqb_refl.
  - intros (new & Hn & -> & -> & Hnd & Hdis).
    inversion Hn as [|? [n u'] ? new' (H1 & H2 & H3) Hn']; subst. simpl in *. subst n.
    assert (u' = u) as -> by (rewrite Hu in H3; by injection H3). exists new'. rewrite NoDup_cons in Hnd.
    rewrite map_app. simpl. rewrite <- !app_assoc. split_and!; try done; try tauto.
    intros n Hin. rewrite elem_of_app, list_elem_of_singleton. intros [Hc| ->]; [|tauto].
    by apply (Hdis n); [right|].
Qed.

Lemma stored_functional allow l k1 k2 :
  Forall2 (stored allow) l k1 -> Forall2 (stored allow) l k2 -> k1 = k2.
Proof.
  intros H1. revert k2. induction H1 as [|i [n u] l k (Hn & _ & Hu) _ IH]; intros k2 H2;
    inversion H2 as [|? [n2 u2] ? ? (Hn2 & _ & Hu2)]; subst; [done|]. simpl in *.
  f_equal; [congruence|by apply IH].
Qed.

Lemma stored_names allow l ks :
  Forall2 (stored allow) l ks -> map fst ks = map (fun i => trim (issuer i)) l.
Proof. induction 1 as [|i k l ks (Hn & _) _ IH]; simpl; [done|]. by rewrite Hn, IH. Qed.

Lemma stored_exists allow l :
  Forall (fun i => trim (issuer i) <> EmptyString /\ empty_host (jwks_source i) = false /\
    exists p, url_parse (jwks_source i) = Ok p /\ fetchable allow p) l ->
  exists ks, Forall2 (stored allow) l ks.
Proof.
  induction 1 as [|i l (Hn & He & p & Hp & Hf) _ [ks IH]]; [by exists []|].
  exists ((trim (issuer i), text p) :: ks). constructor; [|done].
  split_and!; [done|done|]. apply checked_jwks_uri_Ok. eauto.
Qed.

(** What is stored is stored as it is. *)
Lemma stored_fixed allow i known : stored allow i known -> stored allow (config_of known) known.
Proof.
  intros (Hn & Hne & Hu). apply checked_jwks_uri_fixed in Hu as (Hu & Ht & Hnu).
  split_and!; simpl; [by rewrite Hn, trim_idem|done|].
  unfold jwks_source. simpl. rewrite Ht. by destruct (String.eqb_spec known.2 EmptyString).
Qed.

Lemma allowed_asymmetric a : a ∈ ALLOWED_ALGS -> a ∉ [HS256; HS384; HS512].
Proof.
  unfold ALLOWED_ALGS. rewrite !elem_of_cons, !elem_of_nil. destruct a; naive_solver.
Qed.

Lemma Forall2_elem_r {A B} (P : A -> B -> Prop) l k y :
  Forall2 P l k -> y ∈ k -> exists x, x ∈ l /\ P x y.
Proof.
  intros Hf [n Hy]%list_elem_of_lookup. destruct (Forall2_lookup_r _ _ _ _ _ Hf Hy) as (x & Hx & Hp).
  exists x. split; [by eapply list_elem_of_lookup_2|done].
Qed.

Lemma verifier_new_Ok c v :
  new c = Ok v <->
  trim (audience c) <> EmptyString /\ issuers c <> [] /\
  Forall2 (stored (allow_insecure_jwks c)) (issuers c) (caches v) /\ NoDup (map fst (caches v)) /\
  cfg v = {| audience := trim (audience c); issuers := map config_of (caches v);
             allow_insecure_jwks := allow_insecure_jwks c |}.
Proof.
  unfold new. destruct (String.eqb_spec (trim (audience c)) EmptyString) as [He|He]; [naive_solver|].
  case_bool_decide as Hl.
  { apply nil_length_inv in Hl. naive_solver. }
  destruct (new_issuers _ _ _ _) as [[l cs]|e] eqn:E; simpl.
  - apply new_issuers_Ok in E as (new & Hf & -> & -> & Hnd & _). simpl. split.
    + intros [= <-]. simpl. split_and!; try done. intros Hn. by rewrite Hn in Hl.
    + intros (_ & _ & Hf' & _ & Hc). destruct v as [cf cs]. simpl in *. subst cf.
      assert (cs = new) as ->; [|done].
      by eapply stored_functional.
  - split; [done|]. intros (_ & _ & Hf & Hnd & _). exfalso.
    assert (new_issuers (allow_insecure_jwks c) (issuers c) [] [] =
      Ok (map config_of (caches v), caches v)); [|congruence].
    apply new_issuers_Ok. exists (caches v). split_and!; try done. intros n _ Hn. inversion Hn.
Qed.

(** a configuration is accepted exactly when it names an audience, at least
    one issuer, none twice and none blank, each with keys at a URL that names its
    host and is either TLS or plaintext to loopback, or that was allowed; and the
    stored configuration is the trimmed one, in the order given, and is accepted
    again as it is. *)
Theorem verifier_config_spec c :
  ((exists v, new c = Ok v) <->
   trim (audience c) <> EmptyString /\ issuers c <> [] /\
   NoDup (map (fun i => trim (issuer i)) (issuers c)) /\
   Forall (fun i => trim (issuer i) <> EmptyString /\ empty_host (jwks_source i) = false /\
     exists p, url_parse (jwks_source i) = Ok p /\ fetchable (allow_insecure_jwks c) p) (issuers c)) /\
  (forall v, new c = Ok v ->
   audience (cfg v) = trim (audience c) /\
   map issuer (issuers (cfg v)) = map (fun i => trim (issuer i)) (issuers c) /\
   Forall (fun known => exists p, url_parse known.2 = Ok p /\ text p = known.2 /\
     fetchable (allow_insecure_jwks c) p) (caches v) /\
   new (cfg v) = Ok v).
Proof.
  split.
  - split.
    + intros [v (Ha & Hi & Hf & Hnd & _)%verifier_new_Ok]. split_and!; try done.
      * by rewrite <- (stored_names _ _ _ Hf).
      * eapply Forall2_Forall_l; [exact Hf|]. apply Forall_true.
        intros known i (Hn & Hne & (He & p & Hp & _ & Hfp)%checked_jwks_uri_Ok).
        split_and!; [by rewrite <- Hn|done|by exists p].
    + intros (Ha & Hi & Hnd & Hall). apply (stored_exists (allow_insecure_jwks c)) in Hall as [ks Hf].
      exists {| cfg := {| audience := trim (audience c); issuers := map config_of ks;
        allow_insecure_jwks := allow_insecure_jwks c |}; caches := ks |}.
      apply verifier_new_Ok. simpl. split_and!; try done. by rewrite (stored_names _ _ _ Hf).
  - intros v Hv. pose proof Hv as (Ha & Hi & Hf & Hnd & Hc)%verifier_new_Ok.
    assert (Hf' : Forall2 (stored (allow_insecure_jwks c)) (map config_of (caches v)) (caches v)).
    { apply Forall2_fmap_l, Forall_Forall2_diag. eapply Forall2_Forall_r; [exact Hf|].
      apply Forall_true. intros i known. apply stored_fixed. }
    rewrite Hc. simpl. split_and!; [done| | |].
    + rewrite map_map. simpl. by apply (stored_names _ _ _ Hf).
    + eapply Forall2_Forall_r; [exact Hf'|]. apply Forall_true.
      intros i known (_ & _ & Hu). apply checked_jwks_uri_Ok in Hu as (_ & p & Hp & Ht & Hfp).
      exists p. rewrite Ht. split_and!; [by eapply url_reparse|done|done].
    + apply verifier_new_Ok. simpl. rewrite trim_idem. split_and!; try done.
      intros Hn. apply Hi. apply Forall2_length in Hf.
      apply map_eq_nil in Hn. rewrite Hn in Hf. by apply nil_length_inv.
Qed.

(** C22: a token is accepted only from a configured issuer, the one it names itself, for this
    audience, which it has to name, within a validity it has to state and the allowed skew,
    signed under an asymmetric algorithm by the key published at that issuer's address
    under the id the token names, for that algorithm if for one; and the caller is who the
    token says, in the issuer's name, whatever agent it claims to be. *)
Theorem verify_sound c v key_for now token claimed id :
  new c = Ok v -> verify v key_for now token claimed = Ok id ->
  let tok := trim token in
  0 < String.length tok <= MAX_TOKEN_BYTES /\
  exists a kid i uri key p sub,
    decode_header tok = Ok {| alg := a; Auth.kid := Some kid |} /\
    a ∉ [HS256; HS384; HS512] /\
    i ∈ issuers c /\ checked_jwks_uri (jwks_source i) (allow_insecure_jwks c) = Ok uri /\
    key_for uri kid = Ok key /\ (forall d, Jwks.key_alg key = Some d -> d = a) /\
    signed tok (Jwks.key key) a /\ payload tok = Some p /\
    unverified_issuer tok = Ok (trim (issuer i)) /\
    (exists l, p_iss p = Some l /\ trim (issuer i) ∈ l) /\
    (exists l, p_aud p = Some l /\ trim (audience c) ∈ l) /\
    (exists e, p_exp p = Some e /\ (now <= e + CLOCK_SKEW_LEEWAY_SECS)%N) /\
    (forall n, p_nbf p = Some n -> (n <= now + CLOCK_SKEW_LEEWAY_SECS)%N) /\
    p_sub p = Some sub /\ trim sub <> EmptyString /\
    id = {| Identity.agent_id := Identity.claimed_or claimed (trim sub);
            Identity.subject := trim sub; Identity.issuer := trim (issuer i);
            Identity.verified := true |}.
Proof.
  intros (_ & _ & Hf & _ & Hc)%verifier_new_Ok Hv tok. unfold verify in Hv. fold tok in Hv.
  destruct (String.eqb_spec tok EmptyString) as [He|He]; [discriminate Hv|].
  destruct (Nat.ltb_spec MAX_TOKEN_BYTES (String.length tok)) as [Hlt|Hlen]; [discriminate Hv|].
  split. { destruct tok; [contradiction|]. split; [apply Nat.lt_0_succ|exact Hlen]. }
  destruct (decode_header tok) as [[a [kid|]]|e]; simpl in Hv; [| |discriminate Hv].
  2: { destruct (negb _); discriminate Hv. }
  case_bool_decide as Ha; simpl in Hv; [|discriminate Hv].
  destruct (unverified_issuer tok) as [ci|e]; simpl in Hv; [|discriminate Hv].
  destruct (find _ (caches v)) as [[name uri]|] eqn:Efind; [|discriminate Hv].
  destruct (key_for uri kid) as [key|e] eqn:Ek; simpl in Hv; [|discriminate Hv].
  destruct (check_declared (Jwks.key_alg key) a) as [[]|e] eqn:Ed; simpl in Hv; [|discriminate Hv].
  destruct (decode now tok _ _) as [sub|e] eqn:Edec; simpl in Hv; [|discriminate Hv].
  apply find_some in Efind as [Hin Hci%String.eqb_eq]. apply list_elem_of_In in Hin. cbn in Hci. subst ci.
  destruct (Forall2_elem_r _ _ _ _ Hf Hin) as (i & Hi & Hn & _ & Hu). simpl in Hn, Hu. subst name.
  apply decode_sound in Edec as (a' & p & Ha' & Hsig & Hp & Hsub & Hreq & Hle & Hnb & Haud & Hiss).
  simpl in Ha', Hreq, Hle, Hnb, Haud, Hiss. apply list_elem_of_singleton in Ha' as ->.
  pose proof (Hreq "exp" ltac:(by repeat constructor)) as [e He']%is_Some_b_true.
  pose proof (Hreq "aud" ltac:(by repeat constructor)) as [la Hla]%is_Some_b_true.
  pose proof (Hreq "iss" ltac:(by repeat constructor)) as [li Hli]%is_Some_b_true.
  pose proof (Hreq "sub" ltac:(by repeat constructor)) as [sub' Hsub']%is_Some_b_true.
  rewrite <- Hsub, Hsub' in Hv. change (default EmptyString (Some sub')) with sub' in Hv.
  destruct (String.eqb_spec (trim sub') EmptyString) as [Hsn|Hsn]; [discriminate Hv|].
  injection Hv as <-. exists a, kid, i, uri, key, p, sub'.
  destruct (Haud _ Hla) as (x & Hx & ->%list_elem_of_singleton).
  destruct (Hiss _ Hli) as (y & Hy & ->%list_elem_of_singleton).
  rewrite Hc in Hx. unfold Identity.from_claims. rewrite !trim_idem.
  split_and!; eauto.
  - by apply allowed_asymmetric.
  - intros d Hd. unfold check_declared in Ed. rewrite Hd in Ed.
    case_bool_decide; [done|discriminate Ed].
Qed.
End verify.

(** ** The challenge *)

Section challenge.
Import Metadata.

Definition hex_value (a : ascii) : option N :=
  let n := N_of_ascii a in
  if ((48 <=? n) && (n <=? 57))%N then Some (n - 48)%N
  else if ((65 <=? n) && (n <=? 70))%N then Some (n - 55)%N
  else if ((97 <=? n) && (n <=? 102))%N then Some (n - 87)%N
  else None.

(** What a URL's reader makes of its escapes. *)
Fixpoint percent_decode (s : string) : string :=
  match s with
  | String a ((String h (String l rest)) as s) =>
      match Ascii.eqb a "%", hex_value h, hex_value l with
      | true, Some x, Some y => String (ascii_of_N (16 * x + y)) (percent_decode rest)
      | _, _, _ => String a (percent_decode s)
      end
  | String a s => String a (percent_decode s)
  | EmptyString => EmptyString
  end.

Lemma percent_decode_other a s :
  a <> "%"%char -> percent_decode (String a s) = String a (percent_decode s).
Proof. intros Ha%Ascii.eqb_neq. destruct s as [|h [|l s]]; cbn; by rewrite ?Ha. Qed.

Lemma encoded_byte b s :
  plain b = false ->
  percent_decode (String "%" (String (hex_digit (N_of_ascii b / 16))
    (String (hex_digit (N_of_ascii b mod 16)) s))) = String b (percent_decode s).
Proof. by destruct b as [[] [] [] [] [] [] [] []]. Qed.

Lemma plain_hex a x : hex_value a = Some x -> plain a = true.
Proof. by destruct a as [[] [] [] [] [] [] [] []]. Qed.

Lemma plain_digits b :
  plain (hex_digit (N_of_ascii b / 16)) && plain (hex_digit (N_of_ascii b mod 16)) = true.
Proof. by destruct b as [[] [] [] [] [] [] [] []]. Qed.

Lemma not_plain b : plain b = false -> b <> "%"%char.
Proof. by intros H ->. Qed.

(** The first byte of an escape is no hexadecimal digit. *)
Lemma encode_quoted_head h s :
  hex_value h = None -> exists h' s', encode_quoted (String h s) = String h' s' /\ hex_value h' = None.
Proof. intros Hh. simpl. destruct (plain h); eauto. Qed.

Lemma percent_decode_bare s :
  (forall h l r x y, s = String h (String l r) -> hex_value h = Some x -> hex_value l = Some y -> False) ->
  percent_decode (String "%" s) = String "%" (percent_decode s).
Proof.
  intros Hs. destruct s as [|h [|l r]]; [done|done|]. cbn [percent_decode].
  destruct (hex_value h) as [x|] eqn:Ex, (hex_value l) as [y|] eqn:Ey; try done.
  destruct (Hs h l r x y eq_refl Ex Ey).
Qed.

Lemma encode_quoted_plain s : all_bytes plain (encode_quoted s) = true.
Proof.
  induction s as [|b s IH]; [done|]. simpl. destruct (plain b) eqn:E; simpl; [by rewrite E|].
  pose proof (plain_digits b) as [H1 H2]%andb_true_iff. by rewrite H1, H2.
Qed.

Lemma encode_quoted_id s : all_bytes plain s = true -> encode_quoted s = s.
Proof.
  induction s as [|b s IH]; [done|]. simpl. intros [Hb Hs]%andb_true_iff. by rewrite Hb, IH.
Qed.

(** Escaping changes nothing a URL's reader sees. *)
Lemma percent_decode_encode s : percent_decode (encode_quoted s) = percent_decode s.
Proof.
  remember (String.length s) as n eqn:Hn. assert (Hle : String.length s <= n) by lia. clear Hn.
  revert s Hle. induction n as [|n IH]; intros [|a s] Hle; simpl in Hle; try done; [lia|].
  simpl encode_quoted. destruct (plain a) eqn:Ea.
  2: { rewrite encoded_byte by done. rewrite percent_decode_other by by apply not_plain.
       by rewrite IH by lia. }
  destruct (decide (a = "%"%char)) as [->|Ha].
  2: { rewrite !percent_decode_other by done. by rewrite IH by lia. }
  destruct s as [|h s]; [done|]. destruct (hex_value h) as [x|] eqn:Ex.
  2: { destruct (encode_quoted_head h s Ex) as (h' & s' & He & Ex').
       rewrite !percent_decode_bare; [by rewrite IH by (simpl in *; lia)|..]; [congruence|].
       rewrite He. congruence. }
  simpl encode_quoted. rewrite (plain_hex _ _ Ex).
  destruct s as [|l s]; [done|]. destruct (hex_value l) as [y|] eqn:Ey.
  2: { destruct (encode_quoted_head l s Ey) as (l' & s' & He & Ey').
       rewrite (percent_decode_bare (String h (String l s))) by congruence.
       rewrite (percent_decode_bare (String h _)) by (rewrite He; congruence).
       replace (String h (encode_quoted (String l s))) with (encode_quoted (String h (String l s)))
         by (simpl; by rewrite (plain_hex _ _ Ex)).
       by rewrite IH by (simpl in *; lia). }
  simpl encode_quoted. rewrite (plain_hex _ _ Ey). cbn. rewrite Ex, Ey. rewrite IH; [done|].
  simpl in Hle. lia.
Qed.

(** the challenge is one header value with one quoted string, which no byte of
    the URL it was built from ends or escapes, and which names the same URL: a
    URL with nothing to escape is there as it is. *)
Theorem challenge_header_spec url :
  exists quoted,
    challenge_header url = "Bearer resource_metadata=" +:+ dq +:+ quoted +:+ dq /\
    all_bytes plain quoted = true /\ split_once dq (quoted +:+ dq) = Some (quoted, EmptyString) /\
    percent_decode quoted = percent_decode url /\ encode_quoted quoted = quoted /\
    (all_bytes plain url = true -> quoted = url).
Proof.
  exists (encode_quoted url). split_and!; [done|apply encode_quoted_plain| | | |].
  - apply split_once_byte. unfold no_byte. generalize (encode_quoted_plain url).
    apply all_bytes_impl. intros b Hb. apply negb_true_iff, Ascii.eqb_neq. by intros <-.
  - apply percent_decode_encode.
  - apply encode_quoted_id, encode_quoted_plain.
  - apply encode_quoted_id.
Qed.
End challenge.

(** ** A concrete issuer *)

Module Sample.
Definition idp : string := "https://idp.example/realms/latiq".
Definition token : string := "aGVhZA.cGF5bG9hZA.c2ln".
Definition claims : Payload :=
  {| p_iss := Some [idp]; p_aud := Some ["latiq"]; p_exp := Some 1000%N; p_nbf := Some 100%N;
     p_sub := Some "alice" |}.

(** What decoding asks of the one token there is. *)
Definition accepts (now : N) (tok k : string) (v : Validation) : bool :=
  String.eqb tok token && String.eqb k "KEY" && bool_decide (RS256 ∈ algorithms v) &&
  (now <=? 1000 + leeway v)%N && (100 <=? now + leeway v)%N &&
  bool_decide ("latiq" ∈ aud v) && bool_decide (idp ∈ iss v).

#[export] Program Instance jwt : Jwt := {|
  material := string;
  dkey := string;
  from_jwk := fun m => if String.eqb m EmptyString then None else Some m;
  decode_header := fun tok =>
    if String.eqb tok token then Ok {| alg := RS256; kid := Some "k1" |} else Err "InvalidToken";
  decode := fun now tok k v =>
    if accepts now tok k v then Ok (Some "alice") else Err "InvalidToken";
  b64url_decode := Ok;
  parse_iss := fun p => Ok (if String.eqb p "cGF5bG9hZA" then Some idp else None);
  signed := fun tok k a => tok = token /\ k = "KEY" /\ a = RS256;
  payload := fun tok => if String.eqb tok token then Some claims else None;
|}.
Next Obligation.
  simpl. intros now tok k v sub. unfold accepts. destruct (_ && _) eqn:E; [|done]. intros [= <-].
  rewrite !andb_true_iff, !bool_decide_eq_true, !N.leb_le, !String.eqb_eq in E.
  destruct E as ((((((-> & ->) & Ha) & He) & Hn) & Hau) & Hi). exists RS256, claims.
  split_and!; try done.
  - intros claim _. unfold carries. by repeat case_match.
  - by intros _ e [= <-].
  - by intros _ n [= <-].
  - intros l [= <-]. exists "latiq". split; [by left|done].
  - intros l [= <-]. exists idp. split; [by left|done].
Defined.

(** The addresses there are: keys over TLS, and a development server's. *)
Definition urls_known : list Url :=
  [{| scheme := "https"; host := Some (Domain "idp.example");
      text := "https://idp.example/realms/latiq/protocol/openid-connect/certs" |};
   {| scheme := "http"; host := Some (Ipv4 2130706433); text := "http://127.0.0.1:8080/certs" |};
   {| scheme := "http"; host := Some (Domain "keycloak"); text := "http://keycloak:8080/certs" |}].

Definition lookup_url (s : string) : result Url string :=
  ok_or (find (fun u => String.eqb (text u) s) urls_known) "relative URL without a base".

Lemma lookup_url_Ok s u : lookup_url s = Ok u -> text u = s /\ u ∈ urls_known.
Proof.
  unfold lookup_url. destruct (find _ _) as [x|] eqn:E; [|done]. intros [= <-].
  apply find_some in E as [Hin Ht%String.eqb_eq]. by rewrite list_elem_of_In.
Defined.

#[export] Program Instance urls : Urls := {| url_parse := lookup_url |}.
Next Obligation. intros s u Hu. by destruct (lookup_url_Ok _ _ Hu) as [-> _]. Defined.
Next Obligation.
  intros s u [_ Hu]%lookup_url_Ok _. unfold urls_known in Hu. rewrite !elem_of_cons, elem_of_nil in Hu.
  destruct Hu as [->|[->|[->|[]]]]; eexists; split; reflexivity.
Defined.
Next Obligation.
  intros s u [_ Hu]%lookup_url_Ok. unfold urls_known in Hu. rewrite !elem_of_cons, elem_of_nil in Hu.
  destruct Hu as [->|[->|[->|[]]]]; vm_compute; reflexivity.
Defined.

Definition config : Verify.AuthConfig :=
  {| Verify.audience := " latiq ";
     Verify.issuers :=
       [{| Verify.issuer := idp +:+ " "; Verify.jwks_uri := None |};
        {| Verify.issuer := "dev"; Verify.jwks_uri := Some "http://127.0.0.1:8080/certs" |}];
     Verify.allow_insecure_jwks := false |}.

Definition signing_key : Jwks.SigningKey := {| Jwks.key := "KEY"; Jwks.key_alg := Some RS256 |}.

Definition key_for (uri kid : string) : result Jwks.SigningKey AuthError :=
  if String.eqb kid "k1" then Ok signing_key else Err (UnknownKid kid).

Definition parse (body : string) : option (list Jwks.Jwk) :=
  if String.eqb body "{keys}" then
    Some [{| Jwks.key_id := Some "k1"; Jwks.public_key_use := Some Signature;
             Jwks.key_algorithm := Some (Signs RS256); Jwks.key_material := "KEY" |}]
  else None.

Definition http : Jwks.Http := Jwks.Responded true (Some 6%N) [Some "{ke"; Some "ys}"].

(** One request on a new cache, to its answer. *)
Lemma one_request :
  exists c, Jwks.reachable parse Jwks.DEFAULT_MIN_REFRESH_INTERVAL Jwks.SECOND c /\
    Jwks.requests c !! 0 = Some ("k1", Jwks.Answered (Ok signing_key)) /\
    Jwks.fetches (Jwks.cache c) = 1%N.
Proof.
  unfold Jwks.reachable. eexists. split.
  - eapply rtc_l; [apply (Jwks.step_arrive _ _ 0 "k1"); reflexivity|].
    eapply rtc_l; [eapply (Jwks.step_internal _ _ 0 "k1"), Jwks.step_miss; reflexivity|].
    eapply rtc_l; [eapply (Jwks.step_internal _ _ 0 "k1"), Jwks.step_look; reflexivity|].
    eapply rtc_l; [eapply (Jwks.step_internal _ _ 0 "k1"), Jwks.step_snapshot; reflexivity|].
    eapply rtc_l; [eapply (Jwks.step_internal _ _ 0 "k1"), Jwks.step_acquire; reflexivity|].
    eapply rtc_l; [eapply (Jwks.step_internal _ _ 0 "k1"), Jwks.step_fetch; reflexivity|].
    eapply rtc_l; [eapply (Jwks.step_internal _ _ 0 "k1"), (Jwks.step_store _ _ _ _ http); reflexivity|].
    eapply rtc_l; [eapply (Jwks.step_internal _ _ 0 "k1"), Jwks.step_stamp; reflexivity|].
    eapply rtc_l; [eapply (Jwks.step_internal _ _ 0 "k1"), Jwks.step_count; reflexivity|].
    eapply rtc_l; [eapply (Jwks.step_internal _ _ 0 "k1"), Jwks.step_release; reflexivity|].
    eapply rtc_l; [eapply (Jwks.step_internal _ _ 0 "k1"), Jwks.step_found; reflexivity|].
    apply rtc_refl.
  - split; reflexivity.
Defined.

Lemma jwks_fetch_rate_witness :
  exists c, Jwks.fetches (Jwks.cache c) = 1%N /\
    (1 * Jwks.SECOND <= Jwks.now c + Jwks.SECOND)%N.
Proof.
  destruct one_request as (c & Hc & _ & Hf). exists c. split; [exact Hf|].
  pose proof (jwks_fetch_rate parse _ _ _ Hc) as Hr. rewrite Hf in Hr. exact Hr.
Defined.

Lemma one_request_abandoning :
  exists c, rtc (Jwks.abandoning parse)
      (Jwks.init Jwks.DEFAULT_MIN_REFRESH_INTERVAL Jwks.SECOND) c /\
    Jwks.requests c !! 0 = Some ("k1", Jwks.Answered (Ok signing_key)).
Proof.
  destruct one_request as (c & Hc & Hr & _). exists c. split; [|exact Hr].
  eapply rtc_subrel; [|exact Hc]. by left.
Defined.

Lemma jwks_answers_witness :
  exists c set, set ∈ Jwks.published c /\ issued set "k1" signing_key.
Proof.
  destruct one_request_abandoning as (c & Hc & Hr).
  destruct (proj1 (proj2 (jwks_answers parse _ _ _ Hc)) _ _ _ Hr) as (set & Hs).
  exists c, set. exact Hs.
Defined.

Lemma jwks_requests_end_witness :
  exists c r, Jwks.requests c !! 0 = Some ("k1", Jwks.Answered r).
Proof.
  destruct one_request_abandoning as (c & Hc & Hr).
  destruct (proj1 (proj2 (proj2 (jwks_requests_end parse _ _ _ Hc)) _ _ _ Hr) eq_refl)
    as [r Hres].
  exists c, r. rewrite Hr. by rewrite <- Hres.
Defined.

Definition verifier : Verify.Verifier :=
  match Verify.new config with Ok v => v | Err _ => {| Verify.cfg := config; Verify.caches := [] |} end.

(** The token is accepted thirty seconds past its end, and not a second later. *)
Lemma verify_sound_witness :
  Verify.verify verifier key_for 1030 token None =
    Ok {| Identity.agent_id := "alice"; Identity.subject := "alice"; Identity.issuer := idp;
          Identity.verified := true |} /\
  is_ok (Verify.verify verifier key_for 1031 token None) = false /\
  (String.length token <= Verify.MAX_TOKEN_BYTES).
Proof.
  split; [vm_compute; reflexivity|]. split; [vm_compute; reflexivity|].
  assert (Hid : is_ok (Verify.verify verifier key_for 1030 token None) = true)
    by (vm_compute; reflexivity).
  destruct (Verify.verify verifier key_for 1030 token None) as [id|] eqn:E; [|discriminate Hid].
  assert (Hnew : Verify.new config = Ok verifier) by (vm_compute; reflexivity).
  exact (proj2 (proj1 (verify_sound config verifier key_for 1030 token None id Hnew E))).
Defined.
End Sample.
