(* ===== verification/DuckText.v ===== *)
(** * The text the DuckDB adapter reads and writes

    Models [latiq-engine-duckdb/src/errclass.rs] (a DuckDB message to an
    [EngineError]), [attachers.rs] (the statements that mount an external catalog
    and take it away again) and, of [instance.rs], the extension lists, the warm
    report and the error of a missing extension. *)
From S2P Require Import Prelude Errors Extensions Sql.
#[local] Open Scope rust_scope.
#[local] Arguments String.append !_ _ / : simpl nomatch.

(** ** errclass.rs *)

Module ErrClass.
Definition PARSER : string := "Parser Error".
Definition SYNTAX : string := "Syntax Error".
Definition CATALOG : string := "Catalog Error".
Definition BINDER : string := "Binder Error".
Definition CONVERSION : string := "Conversion Error".
Definition CONSTRAINT : string := "Constraint Error".
Definition IO : string := "IO Error".
Definition HTTP : string := "HTTP Error".
Definition NOT_IMPLEMENTED : string := "Not implemented Error".
Definition INVALID_INPUT : string := "Invalid Input Error".
Definition OUT_OF_RANGE : string := "Out of Range Error".
Definition TRANSACTION : string := "TransactionContext Error".

Definition CLASSES : list string :=
  [PARSER; SYNTAX; CATALOG; BINDER; CONVERSION; CONSTRAINT; IO; HTTP; NOT_IMPLEMENTED;
   INVALID_INPUT; OUT_OF_RANGE; TRANSACTION].

(** [&msg[..n]] and [&msg[n..]] where [n] bytes are a prefix of whole chars. *)
Definition is_char_boundary (msg : string) (n : nat) : bool :=
  match String.get n msg with
  | Some b => negb (ascii_in 128 191 b)
  | None => bool_decide (n = String.length msg)
  end.

Definition before (n : nat) (msg : string) : string := String.substring 0 n msg.
Definition from (n : nat) (msg : string) : string := String.substring n (String.length msg - n) msg.

Definition is_class_prefix (msg class : string) : bool :=
  (String.length class <? String.length msg) &&
  is_char_boundary msg (String.length class) &&
  eq_ignore_ascii_case (before (String.length class) msg) class &&
  starts_with ":" (from (String.length class) msg).

Definition class_of (msg : string) : option string := find (is_class_prefix msg) CLASSES.

(** [trim_end_matches] of a set of ASCII characters. *)
Definition trim_end_matches (p : string -> bool) (s : string) : string :=
  str_concat (reverse (skip_while p (reverse (chars s)))).

Definition strip_cr (s : string) : string :=
  match reverse (chars s) with
  | c :: r => if String.eqb c (of_bytes [13%N]) then str_concat (reverse r) else s
  | [] => s
  end.

(** [str::lines]: a line feed ends a line, and takes one carriage return with it. *)
Fixpoint lines_of (l : list string) : list string :=
  match l with
  | [] => []
  | [last] => if String.eqb last EmptyString then [] else [last]
  | x :: l => strip_cr x :: lines_of l
  end.

Definition lines (s : string) : list string := lines_of (split_byte "010" s).

Definition trim_feature (s : string) : option string :=
  let s := trim (trim_end_matches (fun c => String.eqb c "." || String.eqb c "!") (trim s)) in
  if String.eqb s EmptyString then None else Some s.

Definition unsupported_feature (line : string) : option string :=
  let detail := match split_once ":" line with Some (_, rest) => trim rest | None => line end in
  match split_once " does not support " detail with
  | Some (_, feature) => trim_feature feature
  | None =>
      match split_once " are not supported" detail with
      | Some (feature, _) => trim_feature feature
      | None =>
          match split_once " is not supported" detail with
          | Some (feature, _) => trim_feature feature
          | None => None
          end
      end
  end.

(** The line the class is read off: the first that leads with one. *)
Definition class_line (m : string) : string :=
  match find (fun l => is_Some_b (class_of (trim l))) (lines m) with
  | Some l => trim l
  | None => m
  end.

Definition classify_message (msg : string) : EngineError :=
  let m := trim msg in
  let line := class_line m in
  match class_of line with
  | Some c =>
      if String.eqb c PARSER || String.eqb c SYNTAX then EngineError.Parse m
      else if String.eqb c CATALOG || String.eqb c BINDER then EngineError.Catalog m
      else if String.eqb c CONVERSION then EngineError.Conversion m
      else if String.eqb c CONSTRAINT then EngineError.Constraint_ m
      else if String.eqb c IO || String.eqb c HTTP then EngineError.SourceIo m
      else if String.eqb c NOT_IMPLEMENTED then
        EngineError.Unsupported m (unsupported_feature line)
      else if String.eqb c INVALID_INPUT || String.eqb c OUT_OF_RANGE then
        EngineError.InvalidInput m
      else if String.eqb c TRANSACTION then EngineError.TransactionControl m
      else EngineError.Engine m
  | None => EngineError.Engine m
  end.
End ErrClass.

(** ** The extensions of a node's cache *)

Module Warm.
Definition STANDARD_LOAD : list string := ["ducklake"; "httpfs"; "icu"].

Definition warmable_extensions : list string :=
  foldl push_new STANDARD_LOAD (Extensions.OPTIONAL ++ Extensions.CATALOG_DRIVEN).

Record WarmReport := { attempted : list string; failed : list (string * string) }.

Definition is_complete (r : WarmReport) : bool :=
  negb (bool_decide (length (attempted r) = 0)) && bool_decide (length (failed r) = 0).

Definition failure_summary (r : WarmReport) : string :=
  if bool_decide (length (attempted r) = 0) then
    "warmed 0 extensions: there was nothing to warm, which cannot be right — "
    +:+ "a node with an empty extension cache cannot open a pond"
  else
    let what := join "; " (map (fun f => f.1 +:+ " (" +:+ f.2 +:+ ")") (failed r)) in
    pretty (length (failed r)) +:+ " of " +:+ pretty (length (attempted r))
    +:+ " DuckDB extensions are not usable offline on this node: " +:+ what
    +:+ ". Every LOAD site runs with autoinstall off, so these will fail the pond or the "
    +:+ "catalog attach that needs them rather than downloading. Re-run "
    +:+ "`latiq warm-extensions` with network access (the container image bakes the same "
    +:+ "step in at build time).".

Definition extension_not_cached (extension context err : string) : EngineError :=
  EngineError.CapabilityUnavailable
    ("The DuckDB extension '" +:+ extension +:+ "' (" +:+ context
     +:+ ") is not cached on this node, and "
     +:+ "nothing the caller sends changes this — extension downloads are disabled while "
     +:+ "serving requests. An operator restores it by running `latiq warm-extensions` on the "
     +:+ "node with network access (the container image bakes the same step in at build time), "
     +:+ "then restarting the node. Underlying error: " +:+ err)
    extension.
End Warm.

(** ** attachers.rs *)

Module Attach.
Record AttachPlan := {
  alias : string;
  namespace : string;
  load : list (string * string);
  secrets : list (string * string);
  attach : string;
}.

Definition teardown (p : AttachPlan) : list string :=
  ("DETACH " +:+ Quote.quote_ident (alias p)) ::
  map (fun s => "DROP SECRET IF EXISTS " +:+ s.1) (secrets p).

Definition esc (v : string) : string := replace_ascii "'" "''" v.

(** [params.get(k).filter(|s| !s.is_empty())]. *)
Definition param (params : gmap string string) (k : string) : option string :=
  match params !! k with
  | Some v => if String.eqb v EmptyString then None else Some v
  | None => None
  end.

(** The [ENDPOINT] of an S3 secret: its scheme is in [USE_SSL]. *)
Definition s3_host (ep : string) : string * string :=
  match strip_prefix "http://" ep with
  | Some rest => (rest, "false")
  | None =>
      match strip_prefix "https://" ep with
      | Some rest => (rest, "true")
      | None => (ep, "true")
      end
  end.

Definition s3_secret_line (alias : string) (params : gmap string string) :
    option (string * string) :=
  k ← param params "s3_access_key";
  s ← param params "s3_secret_key";
  let name := "_latiq_" +:+ alias +:+ "_s3" in
  let lines := ["TYPE s3"; "KEY_ID '" +:+ esc k +:+ "'"; "SECRET '" +:+ esc s +:+ "'";
                "URL_STYLE 'path'"] in
  let lines :=
    match param params "s3_region" with
    | Some region => lines ++ ["REGION '" +:+ esc region +:+ "'"]
    | None => lines
    end in
  let lines :=
    match param params "s3_endpoint" with
    | Some ep =>
        let (host, ssl) := s3_host ep in
        lines ++ ["ENDPOINT '" +:+ esc host +:+ "'"; "USE_SSL " +:+ ssl]
    | None => lines
    end in
  Some (name, "CREATE OR REPLACE SECRET " +:+ name +:+ " (" +:+ join ", " lines +:+ ")").

Definition s3_secrets (alias : string) (params : gmap string string) : list (string * string) :=
  match s3_secret_line alias params with Some l => [l] | None => [] end.

Definition ducklake (alias : string) (params : gmap string string)
    (load : list (string * string)) : result AttachPlan EngineError :=
  let? metadata := ok_or (param params "metadata_path")
    (EngineError.MissingParameter "ducklake catalog requires --set metadata_path=<catalog-db>") in
  let? data_path := ok_or (param params "data_path")
    (EngineError.MissingParameter
       "ducklake catalog requires --set data_path=<data-dir-or-s3-uri>") in
  Ok {| alias := alias; namespace := "ducklake:" +:+ metadata; load := load;
        secrets := s3_secrets alias params;
        attach := "ATTACH 'ducklake:" +:+ esc metadata +:+ "' AS " +:+ Quote.quote_ident alias
          +:+ " (DATA_PATH '" +:+ esc data_path +:+ "', READ_ONLY)" |}.

(** [trim_end_matches('/')]. *)
Definition trim_end_slash (s : string) : string := ErrClass.trim_end_matches (String.eqb "/") s.

Definition iceberg (alias : string) (params : gmap string string)
    (load : list (string * string)) : result AttachPlan EngineError :=
  let? endpoint := ok_or (param params "endpoint")
    (EngineError.MissingParameter "iceberg catalog requires --set endpoint=<rest-url>") in
  let warehouse := default "warehouse" (param params "warehouse") in
  let name := "_latiq_" +:+ alias +:+ "_iceberg" in
  let token := param params "token" in
  let bearer :=
    match token with
    | Some tok =>
        [(name, "CREATE OR REPLACE SECRET " +:+ name +:+ " (TYPE iceberg, TOKEN '" +:+ esc tok
          +:+ "')")]
    | None => []
    end in
  let secret_clause :=
    match token with Some _ => ", SECRET " +:+ name | None => ", AUTHORIZATION_TYPE none" end in
  Ok {| alias := alias; namespace := trim_end_slash endpoint +:+ "/" +:+ warehouse; load := load;
        secrets := bearer ++ s3_secrets alias params;
        attach := "ATTACH '" +:+ esc warehouse +:+ "' AS " +:+ Quote.quote_ident alias
          +:+ " (TYPE iceberg, ENDPOINT '" +:+ esc endpoint +:+ "'" +:+ secret_clause +:+ ")" |}.

Definition loads (type_ : string) : list (string * string) :=
  match Catalog.lookup type_ with
  | Some s => map (fun e => (e, "LOAD " +:+ e +:+ ";")) (Catalog.required_extensions s)
  | None => []
  end.

Definition plan (type_ alias : string) (params : gmap string string) :
    result AttachPlan EngineError :=
  let load := loads type_ in
  if String.eqb type_ "iceberg" then iceberg alias params load
  else if String.eqb type_ "ducklake" then ducklake alias params load
  else
    Err (EngineError.UnsupportedParameter
      ("unsupported catalog type '" +:+ type_ +:+ "' (supported: iceberg, ducklake)")).
End Attach.
