(* ===== verification/DuckTextSpec.v ===== *)
(** * What the adapter's text guarantees

    A DuckDB message is classified by the class that leads a line of it, and by
    nothing else in it; every extension a pond or a catalog can load is one the
    node warms; and a caller's catalog parameters reach DuckDB as the contents of
    string literals only. *)
From S2P Require Import Prelude Errors Extensions Registry Sql SqlSpec DuckText.
#[local] Open Scope rust_scope.
#[local] Arguments String.append !_ _ / : simpl nomatch.
#[local] Arguments Ascii.eqb : simpl never.
#[local] Arguments Quote.quote_ident : simpl never.
#[local] Arguments Attach.esc : simpl never.

(** ** Classification *)

Section classification.
Import ErrClass.

(** A line that begins with the class's name, in any case, and a colon. *)
Definition leads (line class : string) : Prop :=
  exists head rest, line = head +:+ String ":" rest /\ ascii_lowercase head = ascii_lowercase class.

Lemma ascii_lowercase_length s : String.length (ascii_lowercase s) = String.length s.
Proof. induction s as [|a s IH]; simpl; [done|]. by rewrite IH. Qed.

Lemma before_app h t : before (String.length h) (h +:+ t) = h.
Proof.
  unfold before. induction h as [|a h IH]; simpl; [by destruct t|]. by rewrite IH.
Qed.

Lemma substring_all t : String.substring 0 (String.length t) t = t.
Proof. induction t as [|a t IH]; simpl; [done|]. by rewrite IH. Qed.

Lemma from_app h t : from (String.length h) (h +:+ t) = t.
Proof.
  unfold from. rewrite str_length_app, Nat.add_sub_swap, Nat.sub_diag by lia. simpl.
  induction h as [|a h IH]; simpl; [apply substring_all|exact IH].
Qed.

Lemma get_app h t : String.get (String.length h) (h +:+ t) = String.get 0 t.
Proof. induction h as [|a h IH]; simpl; [done|exact IH]. Qed.

Lemma before_from n s : n <= String.length s -> s = before n s +:+ from n s.
Proof.
  unfold before, from. revert s. induction n as [|n IH]; intros s Hn.
  - rewrite Nat.sub_0_r. destruct s as [|a s]; [done|]. simpl. by rewrite substring_all.
  - destruct s as [|a s]; simpl in *; [lia|]. f_equal. apply IH. lia.
Qed.

Lemma before_length n s : n <= String.length s -> String.length (before n s) = n.
Proof.
  unfold before. revert s. induction n as [|n IH]; intros s Hn; [by destruct s|].
  destruct s as [|a s]; simpl in *; [lia|]. f_equal. apply IH. lia.
Qed.

Lemma is_class_prefix_leads line class : is_class_prefix line class = true <-> leads line class.
Proof.
  unfold is_class_prefix. rewrite !andb_true_iff, Nat.ltb_lt. unfold eq_ignore_ascii_case.
  rewrite String.eqb_eq. split.
  - intros [[[Hlen _] Heq] Hcolon]. apply starts_with_spec in Hcolon as [rest Hrest].
    exists (before (String.length class) line), rest. split; [|done].
    rewrite (before_from (String.length class) line) at 1 by lia. by rewrite Hrest.
  - intros (head & rest & -> & Heq).
    assert (Hl : String.length class = String.length head)
      by (by rewrite <- ascii_lowercase_length, <- Heq, ascii_lowercase_length).
    rewrite Hl, before_app, from_app. unfold is_char_boundary. rewrite get_app.
    split_and!; [|done|done|done]. rewrite str_length_app. simpl. lia.
Qed.

Lemma lowercase_colon s : no_byte ":" (ascii_lowercase s) -> no_byte ":" s.
Proof.
  unfold no_byte. induction s as [|a s IH]; cbn [ascii_lowercase all_bytes]; [done|].
  rewrite !andb_true_iff. intros [Ha Hs]. split; [|by apply IH].
  destruct (Ascii.eqb_spec ":" a) as [<-|]; [discriminate Ha|reflexivity].
Qed.

Lemma class_no_colon c : c ∈ CLASSES -> no_byte ":" (ascii_lowercase c).
Proof.
  intros Hc. assert (Hall : Forall (fun c => no_byte ":" (ascii_lowercase c)) CLASSES)
    by (repeat constructor).
  by eapply Forall_forall in Hall.
Qed.

(** No line leads with two classes. *)
Lemma leads_unique line c c' :
  c ∈ CLASSES -> c' ∈ CLASSES -> leads line c -> leads line c' -> c = c'.
Proof.
  intros Hc Hc' (h & r & -> & Hh) (h' & r' & Hl & Hh').
  assert (Hn : no_byte ":" h) by (apply lowercase_colon; rewrite Hh; by apply class_no_colon).
  assert (Hn' : no_byte ":" h') by (apply lowercase_colon; rewrite Hh'; by apply class_no_colon).
  assert (h = h') as <-.
  { pose proof (split_once_byte ":" h r Hn) as H1. rewrite Hl in H1.
    rewrite (split_once_byte ":" h' r' Hn') in H1. congruence. }
  assert (Heq : ascii_lowercase c = ascii_lowercase c') by congruence.
  apply (list_elem_of_fmap_2 (fun x => (ascii_lowercase x, x))) in Hc, Hc'.
  revert Hc Hc' Heq. clear. generalize (ascii_lowercase c), (ascii_lowercase c').
  unfold CLASSES. intros a b. simpl. rewrite !elem_of_cons, !elem_of_nil. intros H1 H2 ->.
  naive_solver.
Qed.

Lemma class_of_Some line c : class_of line = Some c <-> c ∈ CLASSES /\ leads line c.
Proof.
  unfold class_of. split.
  - intros [Hc Hp]%find_some. by rewrite list_elem_of_In, <- is_class_prefix_leads.
  - intros [Hc Hl]. destruct (find (is_class_prefix line) CLASSES) as [c'|] eqn:E.
    + apply find_some in E as [Hc' Hp]. f_equal. apply (leads_unique line); [|done| |done].
      * by apply list_elem_of_In.
      * by apply is_class_prefix_leads.
    + apply list_elem_of_In in Hc. apply is_class_prefix_leads in Hl.
      pose proof (find_none _ _ E _ Hc) as Hn. congruence.
Qed.

(** *** The class of a message leads a line of it *)

Lemma lowercase_ascii s : is_ascii (ascii_lowercase s) = is_ascii s.
Proof.
  unfold is_ascii. induction s as [|a s IH]; cbn [ascii_lowercase all_bytes]; [done|].
  rewrite IH. f_equal. by destruct a as [[] [] [] [] [] [] [] []].
Qed.

Lemma lowercase_no_feed s : no_byte "010" (ascii_lowercase s) -> no_byte "010" s.
Proof.
  unfold no_byte. induction s as [|a s IH]; cbn [ascii_lowercase all_bytes]; [done|].
  rewrite !andb_true_iff. intros [Ha Hs]. split; [|by apply IH].
  destruct (Ascii.eqb_spec "010" a) as [<-|]; [discriminate Ha|reflexivity].
Qed.

(** What is before the colon, then: ASCII, on one line, and not blank first. *)
Lemma leads_head line c :
  c ∈ CLASSES -> leads line c ->
  exists a h rest, line = String a h +:+ String ":" rest /\
    ascii_lowercase (String a h) = ascii_lowercase c /\ is_ascii (String a h) = true /\
    no_byte "010" (String a h) /\ is_whitespace (String a EmptyString) = false.
Proof.
  intros Hc (head & rest & -> & Hh).
  assert (Hall : Forall (fun c => is_ascii (ascii_lowercase c) = true /\
    no_byte "010" (ascii_lowercase c) /\
    exists b t, ascii_lowercase c = String b t /\ is_lower b = true) CLASSES).
  { repeat constructor; try (by eexists _, _). }
  eapply Forall_forall in Hall as (Ha & Hf & b & t & Hb & Hlow); [|exact Hc].
  rewrite <- Hh in Ha, Hf, Hb. destruct head as [|a h]; [discriminate Hb|].
  exists a, h, rest. split; [done|]. split; [done|].
  split; [by rewrite <- lowercase_ascii|]. split; [by apply lowercase_no_feed|].
  injection Hb as Hb _. revert Hlow. rewrite <- Hb.
  by destruct a as [[] [] [] [] [] [] [] []].
Qed.

Lemma trim_chars_keep y k x r :
  is_whitespace y = false -> is_whitespace x = false ->
  exists r', trim_chars ((y :: k) ++ x :: r) = (y :: k) ++ x :: r'.
Proof.
  intros Hy Hx. unfold trim_chars. rewrite (skip_while_id _ ((y :: k) ++ x :: r)) by done.
  rewrite reverse_app, reverse_cons, <- app_assoc.
  destruct (skip_while_suffix is_whitespace (reverse r)) as (w & Hw & Hall).
  rewrite Hw, <- app_assoc, skip_while_app_false by done.
  set (m := skip_while is_whitespace (reverse r)) in *.
  exists (reverse m). rewrite skip_while_id.
  - by rewrite !reverse_app, reverse_singleton, reverse_involutive, <- app_assoc.
  - destruct m as [|z m'] eqn:Em; [done|]. simpl. by eapply skip_while_head.
Qed.

Lemma chars_ascii_cons a s :
  is_ascii_byte a = true -> chars (String a s) = String a EmptyString :: chars s.
Proof. by destruct a as [b0 b1 b2 b3 b4 b5 b6 [|]]. Qed.

(** Trimming a line that leads with a class leaves it leading with it. *)
Lemma leads_trim line c : c ∈ CLASSES -> leads line c -> leads (trim line) c.
Proof.
  intros Hc Hl. destruct (leads_head _ _ Hc Hl) as (a & h & rest & -> & Hh & Ha & _ & Hw).
  unfold trim. rewrite chars_ascii_app by done.
  change (chars (String ":" rest)) with (":" :: chars rest).
  assert (Hch : chars (String a h) = String a EmptyString :: chars h).
  { apply chars_ascii_cons. unfold is_ascii in Ha. cbn [all_bytes] in Ha.
    by apply andb_true_iff in Ha as [? _]. }
  rewrite Hch. destruct (trim_chars_keep (String a EmptyString) (chars h) ":" (chars rest)) as [r Hr];
    [done|done|]. rewrite Hr, <- Hch, str_concat_app, str_concat_chars.
  by exists (String a h), (str_concat r).
Qed.

Lemma split_byte_head a x y :
  no_byte a x -> exists h t, split_byte a y = h :: t /\ split_byte a (x +:+ y) = (x +:+ h) :: t.
Proof.
  intros Hx. destruct (split_byte a y) as [|h t] eqn:E; [by destruct (split_byte_ne_nil a y)|].
  exists h, t. split; [done|]. revert Hx. unfold no_byte.
  induction x as [|b x IH]; cbn [all_bytes]; [done|]. intros [Hb Hx]%andb_true_iff.
  apply negb_true_iff in Hb. simpl. rewrite Hb, IH by done. done.
Qed.

Lemma leads_strip_cr line c : c ∈ CLASSES -> leads line c -> leads (strip_cr line) c.
Proof.
  intros Hc Hl. destruct (leads_head _ _ Hc Hl) as (a & h & rest & -> & Hh & Ha & _ & _).
  unfold strip_cr. rewrite chars_ascii_app by done.
  change (chars (String ":" rest)) with ([":"] ++ chars rest).
  pose proof (str_concat_chars (String a h)) as Hcat. set (k := chars (String a h)) in *.
  clearbody k. assert (Hlead : forall t, leads (String a h +:+ String ":" t) c)
    by (intros t; by exists (String a h), t).
  destruct (chars rest) as [|x r] eqn:Er using rev_ind; rewrite !reverse_app.
  - change (reverse [] ++ reverse [":"]) with [":"]. cbn [app].
    change (String.eqb ":" (of_bytes [13%N])) with false. apply Hlead.
  - change (reverse [x]) with [x]. cbn [app].
    destruct (String.eqb x (of_bytes [13%N])); [|apply Hlead].
    rewrite !reverse_app, !reverse_involutive, str_concat_app, Hcat. apply Hlead.
Qed.

Lemma leads_some_line m c :
  c ∈ CLASSES -> leads m c -> exists l, l ∈ lines m /\ leads (trim l) c.
Proof.
  intros Hc Hl. destruct (leads_head _ _ Hc Hl) as (a & h & rest & -> & Hh & _ & Hf & _).
  destruct (split_byte_head "010" (String a h) (String ":" rest) Hf) as (p & ps & Hp & Hs).
  assert (Hp' : exists p', p = String ":" p').
  { simpl in Hp. destruct (split_byte "010" rest); injection Hp as <- <-; eauto. }
  destruct Hp' as [p' ->]. unfold lines. rewrite Hs.
  assert (Hlead : leads (String a h +:+ String ":" p') c) by (by exists (String a h), p').
  destruct ps as [|q ps]; cbn [lines_of].
  - exists (String a h +:+ String ":" p'). split; [by left|]. by apply leads_trim.
  - exists (strip_cr (String a h +:+ String ":" p')). split; [by left|].
    apply leads_trim, leads_strip_cr; done.
Qed.

(** What an error of a class is. *)
Definition of_class (c line m : string) : EngineError :=
  if bool_decide (c ∈ [PARSER; SYNTAX]) then EngineError.Parse m
  else if bool_decide (c ∈ [CATALOG; BINDER]) then EngineError.Catalog m
  else if bool_decide (c = CONVERSION) then EngineError.Conversion m
  else if bool_decide (c = CONSTRAINT) then EngineError.Constraint_ m
  else if bool_decide (c ∈ [IO; HTTP]) then EngineError.SourceIo m
  else if bool_decide (c = NOT_IMPLEMENTED) then EngineError.Unsupported m (unsupported_feature line)
  else if bool_decide (c ∈ [INVALID_INPUT; OUT_OF_RANGE]) then EngineError.InvalidInput m
  else EngineError.TransactionControl m.

Definition no_class (line : string) : Prop := forall c, c ∈ CLASSES -> ~ leads (trim line) c.

Lemma classify_message_class msg c :
  class_of (class_line (trim msg)) = Some c ->
  classify_message msg = of_class c (class_line (trim msg)) (trim msg).
Proof.
  intros Hc. unfold classify_message. rewrite Hc. apply class_of_Some in Hc as [Hc _].
  revert Hc. unfold CLASSES. rewrite !elem_of_cons, !elem_of_nil.
  intros Hc; destruct_or! Hc; try done; subst c; reflexivity.
Qed.

(** A list of lines either leads nowhere or has a first that does. *)
Lemma not_exists_class ls :
  (forall l1 l l2 c, ls = l1 ++ l :: l2 -> Forall no_class l1 -> c ∈ CLASSES -> leads (trim l) c ->
     False) -> Forall no_class ls.
Proof.
  induction ls as [|x ls IH]; intros Hf; [constructor|].
  assert (Hx : no_class x) by (intros c Hc Hl; by apply (Hf [] x ls c)).
  constructor; [done|]. apply IH. intros l1 l l2 c -> Hno Hc Hl.
  apply (Hf (x :: l1) l l2 c); [done|by constructor|done|done].
Qed.

(** a message is of the class that leads the first of its lines that leads with
    one, whatever else it says, and is carried whole; and an agent is told that the
    fault is the engine's own exactly when no line leads with a class. *)
Theorem classify_message_spec msg :
  (forall l1 l l2 c, lines (trim msg) = l1 ++ l :: l2 -> Forall no_class l1 -> c ∈ CLASSES ->
     leads (trim l) c -> classify_message msg = of_class c (trim l) (trim msg)) /\
  (Forall no_class (lines (trim msg)) -> classify_message msg = EngineError.Engine (trim msg)) /\
  (kind (Agent.from_engine (classify_message msg)) = Kind.Internal <->
     Forall no_class (lines (trim msg))).
Proof.
  assert (Hfirst : forall l1 l l2 c, lines (trim msg) = l1 ++ l :: l2 -> Forall no_class l1 ->
    c ∈ CLASSES -> leads (trim l) c -> classify_message msg = of_class c (trim l) (trim msg)).
  { intros l1 l l2 c Hl Hno Hc Hlead. assert (Hline : class_line (trim msg) = trim l).
    { unfold class_line. rewrite Hl. clear Hl. induction Hno as [|x l1 Hx _ IH]; simpl.
      - assert (class_of (trim l) = Some c) as -> by (by apply class_of_Some). done.
      - destruct (class_of (trim x)) as [d|] eqn:Ed; [|exact IH].
        apply class_of_Some in Ed as [Hd Hld]. by destruct (Hx d Hd). }
    rewrite <- Hline. apply classify_message_class. rewrite Hline. by apply class_of_Some. }
  assert (Hnone : Forall no_class (lines (trim msg)) ->
    classify_message msg = EngineError.Engine (trim msg)).
  { intros Hno. unfold classify_message. assert (Hline : class_line (trim msg) = trim msg).
    { unfold class_line. destruct (find _ _) as [l|] eqn:E; [|done].
      apply find_some in E as [Hl Hc]. apply list_elem_of_In in Hl.
      destruct (class_of (trim l)) as [c|] eqn:Ec; [|done]. apply class_of_Some in Ec as [Hcc Hlead].
      eapply Forall_forall in Hno; [|exact Hl]. by destruct (Hno c Hcc). }
    rewrite Hline. destruct (class_of (trim msg)) as [c|] eqn:Ec; [|done].
    apply class_of_Some in Ec as [Hc Hlead].
    destruct (leads_some_line _ _ Hc Hlead) as (l & Hl & Hll).
    eapply Forall_forall in Hno; [|exact Hl]. by destruct (Hno c Hc). }
  split; [exact Hfirst|]. split; [exact Hnone|]. split; [|by intros ->%Hnone].
  intros Hk. apply not_exists_class. intros l1 l l2 c Hl Hno Hc Hlead.
  rewrite (Hfirst _ _ _ _ Hl Hno Hc Hlead) in Hk. revert Hk. unfold of_class.
  repeat case_bool_decide; cbn [Agent.from_engine]; repeat case_match; discriminate.
Qed.
End classification.

(** ** The extensions a node may be asked to load *)

Lemma elem_of_foldl_push_new {A} `{EqDecision A} (l acc : list A) x :
  x ∈ foldl push_new acc l <-> x ∈ acc \/ x ∈ l.
Proof.
  revert acc. induction l as [|y l IH]; intros acc; simpl; [by rewrite elem_of_nil; naive_solver|].
  rewrite IH, elem_of_push_new, elem_of_cons. naive_solver.
Qed.

(** whatever a pond asked for and was granted, and whatever catalog is mounted
    on it, each extension loaded for it is one the node's warm delivers, by the
    statement [LOAD] alone; and a warm that proved nothing is not a complete one. *)
Theorem load_sites_are_warmed :
  (forall e, e ∈ Warm.STANDARD_LOAD -> e ∈ Warm.warmable_extensions) /\
  (forall requested granted e, Extensions.validate requested = Ok granted -> e ∈ granted ->
     e ∈ Warm.warmable_extensions) /\
  (forall type_ ext sql, (ext, sql) ∈ Attach.loads type_ ->
     ext ∈ Warm.warmable_extensions /\ sql = "LOAD " +:+ ext +:+ ";") /\
  (forall r, Warm.is_complete r = true <->
     Warm.attempted r <> [] /\ Warm.failed r = []).
Proof.
  assert (Hstd : forall e, e ∈ Warm.STANDARD_LOAD -> e ∈ Warm.warmable_extensions).
  { intros e He. unfold Warm.warmable_extensions. apply elem_of_foldl_push_new. by left. }
  split; [exact Hstd|]. split; [|split].
  - intros requested granted e Hv He. apply elem_of_foldl_push_new. right.
    apply (validate_loop_Ok _ _ _ Hv NoDup_nil_2) in He as [?%elem_of_nil|[Ho _]]; [done|].
    apply elem_of_app. by left.
  - intros type_ ext sql. unfold Attach.loads. destruct (Catalog.lookup type_) as [s|] eqn:E; [|by intros ?%elem_of_nil].
    apply find_some in E as [Hs _]. intros (x & [= -> ->] & Hx)%list_elem_of_fmap. split; [|done].
    revert Hx. destruct Hs as [<-|[<-|[]]]; cbn [Catalog.required_extensions];
      rewrite !elem_of_cons, elem_of_nil; intros Hx; destruct_or! Hx; subst x;
      refine (bool_decide_unpack _ _); by vm_compute.
  - intros [at_ fl]. unfold Warm.is_complete. simpl.
    rewrite andb_true_iff, negb_true_iff, bool_decide_eq_false, bool_decide_eq_true, !length_zero_iff_nil.
    done.
Qed.

(** ** Catalog parameters inside statements *)

Inductive Pos := Code | Literal | Closing.

(** SQL's rule for single quotes: a doubled one inside a literal stands for itself.
    [skeleton] is a statement with its literals emptied, [literals] what was in
    them. *)
Fixpoint skeleton (p : Pos) (s : string) : string :=
  match s with
  | EmptyString => match p with Closing => "'" | _ => EmptyString end
  | String b s =>
      match p, Ascii.eqb b "'" with
      | Code, true => String "'" (skeleton Literal s)
      | Code, false => String b (skeleton Code s)
      | Literal, true => skeleton Closing s
      | Literal, false => skeleton Literal s
      | Closing, true => skeleton Literal s
      | Closing, false => String "'" (String b (skeleton Code s))
      end
  end.

Fixpoint literals (p : Pos) (acc s : string) : list string :=
  match s with
  | EmptyString => match p with Closing => [acc] | _ => [] end
  | String b s =>
      match p, Ascii.eqb b "'" with
      | Code, true => literals Literal EmptyString s
      | Code, false => literals Code EmptyString s
      | Literal, true => literals Closing acc s
      | Literal, false => literals Literal (acc +:+ String b EmptyString) s
      | Closing, true => literals Literal (acc +:+ "'") s
      | Closing, false => acc :: literals Code EmptyString s
      end
  end.

Definition ident_byte (b : ascii) : bool := is_alphanumeric b || Ascii.eqb b "_".

Lemma ident_bytes s : Ops.is_ident s = true -> all_bytes ident_byte s = true.
Proof.
  unfold Ops.is_ident. rewrite <- (str_concat_chars s) at 2.
  assert (Hone : forall c, is_ascii_alphanumeric c || String.eqb c "_" = true ->
    all_bytes ident_byte c = true).
  { intros [|b [|b' c]]; [done| |].
    2: { unfold is_ascii_alphanumeric, on_ascii. cbn [orb String.eqb].
         destruct (Ascii.eqb b "_"); discriminate. }
    unfold ident_byte, is_ascii_alphanumeric, on_ascii. cbn [all_bytes].
    rewrite andb_true_r, !orb_true_iff.
    intros [H|H%String.eqb_eq]; [by left|right]. by injection H as ->. }
  destruct (chars s) as [|c rest]; [done|]. intros [Hc Hr]%andb_true_iff.
  cbn [str_concat]. rewrite all_bytes_app. apply andb_true_iff. split.
  - apply Hone. apply orb_true_iff in Hc as [H| ->]; [|by rewrite orb_true_r].
    apply orb_true_iff. left. destruct c as [|b [|b' c]]; [done| |done].
    cbn in *. unfold is_alphanumeric. by rewrite H.
  - induction rest as [|d rest IH]; [done|]. cbn [forallb str_concat] in *.
    apply andb_true_iff in Hr as [Hd Hr]. rewrite all_bytes_app.
    apply andb_true_iff. auto.
Qed.

Lemma ident_no_byte a s : ident_byte a = false -> all_bytes ident_byte s = true -> no_byte a s.
Proof.
  intros Ha. unfold no_byte. induction s as [|b s IH]; cbn [all_bytes]; [done|].
  intros [Hb Hs]%andb_true_iff. rewrite IH by done. rewrite andb_true_r.
  destruct (Ascii.eqb_spec a b) as [<-|]; [congruence|done].
Qed.

Lemma replace_ascii_id a t s : no_byte a s -> replace_ascii a t s = s.
Proof.
  unfold no_byte. induction s as [|b s IH]; cbn [all_bytes replace_ascii]; [done|].
  intros [Hb Hs]%andb_true_iff. apply negb_true_iff in Hb. by rewrite Hb, IH.
Qed.

Lemma skeleton_code c rest : no_byte "'" c -> skeleton Code (c +:+ rest) = c +:+ skeleton Code rest.
Proof.
  unfold no_byte. induction c as [|b c IH]; cbn [all_bytes]; [done|].
  intros [Hb Hc]%andb_true_iff. apply negb_true_iff in Hb. simpl skeleton.
  rewrite Ascii.eqb_sym, Hb, IH by done. done.
Qed.

Lemma literals_code acc c rest :
  no_byte "'" c -> literals Code acc (c +:+ rest) = literals Code (match c with EmptyString => acc | _ => EmptyString end) rest.
Proof.
  unfold no_byte. revert acc. induction c as [|b c IH]; intros acc; cbn [all_bytes]; [done|].
  intros [Hb Hc]%andb_true_iff. apply negb_true_iff in Hb. simpl literals.
  rewrite Ascii.eqb_sym, Hb, IH by done. by destruct c.
Qed.

(** A quoted value is one literal, whatever it is. *)
Lemma skeleton_literal v rest :
  not_quote "'" rest ->
  skeleton Literal (Attach.esc v +:+ String "'" rest) = String "'" (skeleton Code rest).
Proof.
  intros Hr. unfold Attach.esc. induction v as [|b v IH]; cbn [replace_ascii].
  - simpl. destruct rest as [|c rest]; [done|]. simpl in Hr. cbn [skeleton]. by rewrite Hr.
  - rewrite Ascii.eqb_sym. destruct (Ascii.eqb b "'") eqn:Hb; cbn [skeleton String.append].
    + exact IH.
    + rewrite Hb. exact IH.
Qed.

Lemma literals_literal acc v rest :
  not_quote "'" rest ->
  literals Literal acc (Attach.esc v +:+ String "'" rest) =
    (acc +:+ v) :: literals Code EmptyString rest.
Proof.
  intros Hr. unfold Attach.esc. revert acc. induction v as [|b v IH]; intros acc; cbn [replace_ascii].
  - rewrite str_app_nil_r. simpl. destruct rest as [|c rest]; [done|]. simpl in Hr.
    cbn [literals]. by rewrite Hr.
  - rewrite Ascii.eqb_sym. destruct (Ascii.eqb_spec b "'") as [->|Hb].
    + cbn [literals String.append]. change (Ascii.eqb "'" "'") with true. cbv iota.
      rewrite IH, str_app_assoc. done.
    + cbn [literals String.append]. apply Ascii.eqb_neq in Hb. rewrite Hb, IH, str_app_assoc. done.
Qed.

(** A statement is pieces of code and quoted values. *)
Inductive Piece := Text (s : string) | Value (v : string).

Fixpoint assemble (l : list Piece) : string :=
  match l with
  | [] => EmptyString
  | Text s :: l => s +:+ assemble l
  | Value v :: l => "'" +:+ Attach.esc v +:+ String "'" (assemble l)
  end.

Fixpoint shape (l : list Piece) : string :=
  match l with
  | [] => EmptyString
  | Text s :: l => s +:+ shape l
  | Value _ :: l => "''" +:+ shape l
  end.

Definition values (l : list Piece) : list string :=
  omap (fun p => match p with Value v => Some v | Text _ => None end) l.

(** Code has no quote of its own, and a value is followed by code. *)
Fixpoint separated (l : list Piece) : Prop :=
  match l with
  | [] => True
  | Text s :: l => no_byte "'" s /\ separated l
  | Value _ :: l =>
      match l with Text (String _ _) :: _ => separated l | [] => True | _ => False end
  end.

Lemma assemble_not_quote v l : separated (Value v :: l) -> not_quote "'" (assemble l).
Proof.
  destruct l as [|[[|b s]|] l]; simpl; try done. unfold no_byte. cbn [all_bytes].
  intros [[Hb _]%andb_true_iff _]. apply negb_true_iff in Hb. by rewrite Ascii.eqb_sym.
Qed.

Lemma separated_tail p l : separated (p :: l) -> separated l.
Proof. destruct p as [s|v]; simpl; [by intros []|]. by destruct l as [|[[|]|]]. Qed.

Lemma skeleton_assemble l : separated l -> skeleton Code (assemble l) = shape l.
Proof.
  induction l as [|p l IH]; intros Hs; [done|]. pose proof (IH (separated_tail _ _ Hs)) as Hl.
  destruct p as [s|v]; cbn [assemble shape].
  - rewrite skeleton_code by apply Hs. by rewrite Hl.
  - cbn. rewrite skeleton_literal by (by eapply assemble_not_quote). by rewrite Hl.
Qed.

Lemma literals_assemble l acc : separated l -> literals Code acc (assemble l) = values l.
Proof.
  revert acc. induction l as [|p l IH]; intros acc Hs; [done|].
  pose proof (fun acc => IH acc (separated_tail _ _ Hs)) as Hl.
  destruct p as [s|v]; cbn [assemble].
  - rewrite literals_code by apply Hs. apply Hl.
  - cbn. rewrite literals_literal by (by eapply assemble_not_quote). by rewrite Hl.
Qed.

Section attach.
Import Attach.
Variable alias : string.
Hypothesis Halias : Ops.is_ident alias = true.

Lemma alias_no_quote : no_byte "'" alias.
Proof. apply ident_no_byte; [done|by apply ident_bytes]. Qed.

Lemma quoted_alias : Quote.quote_ident alias = dq +:+ alias +:+ dq.
Proof.
  unfold Quote.quote_ident. rewrite replace_ascii_id; [done|].
  apply ident_no_byte; [done|by apply ident_bytes].
Qed.

Lemma no_byte_both a s t : no_byte a s -> no_byte a t -> no_byte a (s +:+ t).
Proof. intros Hs Ht. by apply no_byte_app. Qed.

Lemma quoted_no_quote : no_byte "'" (Quote.quote_ident alias).
Proof. rewrite quoted_alias. repeat apply no_byte_both; [done|apply alias_no_quote|done]. Qed.

Lemma no_byte_cons a b s : Ascii.eqb a b = false -> no_byte a s -> no_byte a (String b s).
Proof. unfold no_byte. cbn [all_bytes]. by intros -> ->. Qed.

Definition s3_name : string := "_latiq_" +:+ alias +:+ "_s3".
Definition bearer_name : string := "_latiq_" +:+ alias +:+ "_iceberg".

Definition s3_pieces (k s : string) (region : option string) (ep : option (string * string)) :
    list Piece :=
  [Text ("CREATE OR REPLACE SECRET " +:+ s3_name +:+ " (TYPE s3, KEY_ID "); Value k;
   Text ", SECRET "; Value s; Text ", URL_STYLE "; Value "path"] ++
  match region with Some r => [Text ", REGION "; Value r] | None => [] end ++
  match ep with
  | Some (host, ssl) => [Text ", ENDPOINT "; Value host; Text (", USE_SSL " +:+ ssl +:+ ")")]
  | None => [Text ")"]
  end.

Lemma s3_secret_line_pieces params :
  s3_secret_line alias params =
  (k ← param params "s3_access_key"; s ← param params "s3_secret_key";
   Some (s3_name, assemble (s3_pieces k s (param params "s3_region")
     (s3_host <$> param params "s3_endpoint")))).
Proof.
  unfold s3_secret_line. destruct (param params "s3_access_key") as [k|]; simpl; [|done].
  destruct (param params "s3_secret_key") as [s|]; simpl; [|done].
  unfold s3_pieces, s3_name. do 2 f_equal.
  destruct (param params "s3_region") as [r|], (param params "s3_endpoint") as [ep|];
    simpl; try destruct (s3_host ep) as [host ssl]; cbn [app join assemble];
    repeat (rewrite ?str_app_assoc; simpl); rewrite ?str_app_nil_r; reflexivity.
Qed.

Definition bearer_pieces (tok : string) : list Piece :=
  [Text ("CREATE OR REPLACE SECRET " +:+ bearer_name +:+ " (TYPE iceberg, TOKEN "); Value tok;
   Text ")"].

Definition iceberg_pieces (warehouse endpoint clause : string) : list Piece :=
  [Text "ATTACH "; Value warehouse;
   Text (" AS " +:+ Quote.quote_ident alias +:+ " (TYPE iceberg, ENDPOINT "); Value endpoint;
   Text (clause +:+ ")")].

Definition ducklake_pieces (metadata data_path : string) : list Piece :=
  [Text "ATTACH "; Value ("ducklake:" +:+ metadata);
   Text (" AS " +:+ Quote.quote_ident alias +:+ " (DATA_PATH "); Value data_path; Text ", READ_ONLY)"].

Definition clauses : list string := [", SECRET " +:+ bearer_name; ", AUTHORIZATION_TYPE none"].
Definition endpoints : list (option (string * string)) :=
  [None; Some ("h", "true"); Some ("h", "false")].

(** Every statement there can be, with its values taken out. *)
Definition templates : list string :=
  map shape
    (map (iceberg_pieces EmptyString EmptyString) clauses ++
     [ducklake_pieces EmptyString EmptyString; bearer_pieces EmptyString] ++
     (r ← [None; Some EmptyString]; ep ← endpoints; [s3_pieces EmptyString EmptyString r ep])).

(** What a literal may hold: a parameter as given, less the scheme that is said
    elsewhere, or a word of the code's own. *)
Definition given (params : gmap string string) (v : string) : Prop :=
  v ∈ ["path"; "warehouse"] \/
  exists k x, params !! k = Some x /\
    (v = x \/ v = "ducklake:" +:+ x \/ x = "http://" +:+ v \/ x = "https://" +:+ v).

Record safe (params : gmap string string) (l : list Piece) : Prop := {
  safe_separated : separated l;
  safe_shape : shape l ∈ templates;
  safe_values : Forall (given params) (values l);
}.

Lemma param_given params k v : param params k = Some v -> given params v.
Proof.
  unfold param. destruct (params !! k) as [x|] eqn:E; [|done].
  destruct (String.eqb x EmptyString); intros [= <-]. right. eauto.
Qed.

Lemma s3_host_given params ep host ssl :
  param params "s3_endpoint" = Some ep -> s3_host ep = (host, ssl) ->
  given params host /\ (ssl = "true" \/ ssl = "false").
Proof.
  intros Hp. unfold param in Hp. destruct (params !! "s3_endpoint") as [x|] eqn:E; [|done].
  destruct (String.eqb x EmptyString); [discriminate Hp|injection Hp as ->]. unfold s3_host.
  destruct (strip_prefix "http://" ep) as [r|] eqn:E1.
  { apply strip_prefix_Some in E1. intros [= <- <-]. split; [right; eauto 7|by right]. }
  destruct (strip_prefix "https://" ep) as [r|] eqn:E2.
  { apply strip_prefix_Some in E2. intros [= <- <-]. split; [right; eauto 8|by left]. }
  intros [= <- <-]. split; [right; eauto|by left].
Qed.

Ltac no_quotes :=
  repeat match goal with
  | |- no_byte _ (_ +:+ _) => apply no_byte_both
  | |- no_byte _ alias => apply alias_no_quote
  | |- no_byte _ (Quote.quote_ident alias) => apply quoted_no_quote
  | |- no_byte _ _ => reflexivity
  | |- no_byte _ (String _ _) => apply no_byte_cons; [reflexivity|]
  | |- _ /\ _ => split
  | |- True => exact I
  end.

Ltac in_list := first [by left | right; in_list].

Lemma shape_s3 k s r ep :
  (forall e, ep = Some e -> e.2 = "true" \/ e.2 = "false") -> shape (s3_pieces k s r ep) ∈ templates.
Proof.
  intros Hep. unfold templates, clauses, endpoints. cbn [map app mbind list_bind].
  destruct r as [r|], ep as [[host ssl]|];
    try (destruct (Hep _ eq_refl) as [Hssl|Hssl]; simpl in Hssl; subst ssl);
    cbn [s3_pieces app shape]; in_list.
Qed.

Lemma safe_s3 params k s :
  given params k -> given params s ->
  safe params (s3_pieces k s (param params "s3_region") (s3_host <$> param params "s3_endpoint")).
Proof.
  intros Hk Hs. assert (Hpath : given params "path") by (left; left).
  destruct (param params "s3_region") as [r|] eqn:Er; [apply param_given in Er|];
    (destruct (param params "s3_endpoint") as [ep|] eqn:Ep; cbn [fmap option_fmap option_map];
     [destruct (s3_host ep) as [host ssl] eqn:Eh;
      destruct (s3_host_given _ _ _ _ Ep Eh) as [Hhost Hssl]|]);
    (split; [|apply shape_s3; by intros e [= <-]|]);
    cbn [s3_pieces separated values app omap list_omap]; unfold s3_name;
    try (by no_quotes); rewrite ?Forall_cons, ?Forall_nil; try (by split_and!).
  all: destruct Hssl as [-> | ->]; by no_quotes.
Qed.

Lemma safe_bearer params tok : given params tok -> safe params (bearer_pieces tok).
Proof.
  intros Ht. split; cbn [bearer_pieces separated values omap list_omap].
  - unfold bearer_name. by no_quotes.
  - unfold templates, clauses. cbn [map app]. in_list.
  - by rewrite Forall_cons, Forall_nil.
Qed.

Lemma safe_iceberg params w e clause :
  given params w -> given params e -> clause ∈ clauses -> safe params (iceberg_pieces w e clause).
Proof.
  intros Hw He Hc. unfold clauses in Hc. rewrite !elem_of_cons, elem_of_nil in Hc.
  split; cbn [iceberg_pieces separated values omap list_omap];
    [| |by rewrite !Forall_cons, Forall_nil].
  - destruct Hc as [-> |[-> |[]]]; unfold bearer_name; cbn [separated String.append]; by no_quotes.
  - unfold templates, clauses. cbn [map app]. destruct Hc as [-> |[-> |[]]]; in_list.
Qed.

Lemma safe_ducklake params m d x :
  params !! "metadata_path" = Some m -> given params d -> x = ducklake_pieces m d -> safe params x.
Proof.
  intros Hm Hd ->. split; cbn [ducklake_pieces separated values omap list_omap].
  - cbn [String.append]. by no_quotes.
  - unfold templates, clauses. cbn [map app]. in_list.
  - rewrite !Forall_cons, Forall_nil. split_and!; [right; eauto 6|done|done].
Qed.

Ltac same_text := repeat (rewrite ?str_app_assoc; simpl); rewrite ?str_app_nil_r; reflexivity.

Lemma plan_pieces type_ params p :
  plan type_ alias params = Ok p ->
  exists l ls, attach p = assemble l /\ map snd (secrets p) = map assemble ls /\
    Forall (safe params) (l :: ls) /\ Attach.alias p = alias /\ load p = loads type_.
Proof.
  assert (Hs3 : exists ls, map snd (s3_secrets alias params) = map assemble ls /\
    Forall (safe params) ls).
  { unfold s3_secrets. rewrite s3_secret_line_pieces.
    destruct (param params "s3_access_key") as [k|] eqn:Ek; [|by exists []].
    destruct (param params "s3_secret_key") as [s|] eqn:Es; [|by exists []].
    exists [s3_pieces k s (param params "s3_region") (s3_host <$> param params "s3_endpoint")].
    split; [reflexivity|]. rewrite Forall_singleton.
    apply safe_s3; by eapply param_given. }
  destruct Hs3 as (ls & Hls & Hsafe). unfold plan.
  destruct (String.eqb_spec type_ "iceberg") as [->|_];
    [|destruct (String.eqb_spec type_ "ducklake") as [->|_]; [|discriminate]].
  - unfold iceberg. destruct (param params "endpoint") as [e|] eqn:Ee; cbn [ok_or res_bind]; [|discriminate].
    apply param_given in Ee. assert (Hw : given params (default "warehouse" (param params "warehouse"))).
    { destruct (param params "warehouse") as [w|] eqn:Ew; simpl; [by eapply param_given|].
      left. by right; left. }
    set (w := default _ _) in *. clearbody w.
    destruct (param params "token") as [tok|] eqn:Et; intros [= <-]; cbn [attach secrets].
    + apply param_given in Et.
      exists (iceberg_pieces w e (", SECRET " +:+ bearer_name)), (bearer_pieces tok :: ls).
      split_and!; try done.
      * same_text.
      * simpl. rewrite Hls. f_equal. same_text.
      * rewrite !Forall_cons. split_and!; [|by apply safe_bearer|done].
        apply safe_iceberg; [done|done|by left].
    + exists (iceberg_pieces w e ", AUTHORIZATION_TYPE none"), ls. split_and!; try done.
      * same_text.
      * rewrite Forall_cons. split; [|done]. apply safe_iceberg; [done|done|by right; left].
  - unfold ducklake. destruct (param params "metadata_path") as [m|] eqn:Em; cbn [ok_or res_bind]; [|discriminate].
    destruct (param params "data_path") as [d|] eqn:Ed; cbn [ok_or res_bind]; [|discriminate].
    apply param_given in Ed. intros [= <-]. cbn [attach secrets].
    exists (ducklake_pieces m d), ls. split_and!; try done.
    + same_text.
    + rewrite Forall_cons. split; [|done]. eapply safe_ducklake; [|exact Ed|reflexivity].
      revert Em. unfold param. destruct (params !! "metadata_path") as [x|]; [|done].
      destruct (String.eqb x EmptyString); [done|]. by intros [= ->].
Qed.

(** on a catalog whose name is an identifier, as registration requires, no
    parameter reaches DuckDB but as the contents of a string literal: with its
    literals taken out, each statement is one of a fixed list; what is in them is a
    parameter as given; and what is taken away again is the alias mounted and every
    secret created. *)
Theorem attach_plan_injection_free type_ params p :
  plan type_ alias params = Ok p ->
  (forall s, s ∈ attach p :: map snd (secrets p) ->
     skeleton Code s ∈ templates /\ Forall (given params) (literals Code EmptyString s)) /\
  load p = loads type_ /\
  teardown p = ("DETACH " +:+ dq +:+ alias +:+ dq) ::
    map (fun n => "DROP SECRET IF EXISTS " +:+ n) (map fst (secrets p)).
Proof.
  intros (l & ls & Ha & Hs & Hsafe & Hal & Hl)%plan_pieces. split_and!; [|done|].
  - intros s Hin. assert (Hin' : s ∈ map assemble (l :: ls)) by (simpl; by rewrite <- Ha, <- Hs).
    apply list_elem_of_fmap in Hin' as (x & -> & Hx).
    eapply Forall_forall in Hsafe as [Hsep Hshape Hvals]; [|exact Hx].
    by rewrite skeleton_assemble, literals_assemble.
  - unfold teardown. by rewrite Hal, quoted_alias, map_map.
Qed.
End attach.

Lemma attach_plan_injection_free_witness :
  let params : gmap string string :=
    {["endpoint" := "https://x.example/"; "token" := "a'); DROP TABLE t; --"]} in
  match Attach.plan "iceberg" "ext" params with
  | Ok p => Attach.load p = Attach.loads "iceberg" /\
      map (skeleton Code) (map snd (Attach.secrets p)) =
        ["CREATE OR REPLACE SECRET _latiq_ext_iceberg (TYPE iceberg, TOKEN '')"]
  | Err _ => False
  end.
Proof.
  cbv zeta. destruct (Attach.plan "iceberg" "ext" _) as [p|e] eqn:E; [|discriminate E].
  pose proof (attach_plan_injection_free "ext" eq_refl "iceberg" _ p E) as (_ & Hl & _).
  split; [exact Hl|]. revert E. vm_compute. by intros [= <-].
Defined.
