(* ===== verification/Plan.v ===== *)
(** * What the engine reads off plans, and writes into cells

    Models [latiq-engine-duckdb/src/explain.rs] (the estimates of an [EXPLAIN]
    plan) and, of [exec.rs], the datasets of a bound plan, their columns, and the
    conversion of a DuckDB value to JSON.  A [serde_json::Value] is a [Json]: an
    object is its entries in the order the map iterates them.  Parsing and
    printing JSON is the serde_json crate's ([Serde]); an [f64] is opaque, and a
    [f32] is the double it widens to. *)
From S2P Require Import Prelude Common Sql Interfaces.
#[local] Open Scope rust_scope.
#[local] Arguments String.append !_ _ / : simpl nomatch.

Class Floats := {
  f64 : Type;
  is_finite : f64 -> bool;
}.

Section json.
Context `{!Floats}.

Inductive Json :=
| Null
| Bool (b : bool)
| Int (z : Z)
| Float (f : f64)
| Str (s : string)
| Array (l : list Json)
| Object (l : list (string * Json)).

Fixpoint lookup_key (k : string) (l : list (string * Json)) : option Json :=
  match l with
  | [] => None
  | (k', v) :: l => if String.eqb k' k then Some v else lookup_key k l
  end.

(** [Value::get] with a string. *)
Definition get (v : Json) (k : string) : option Json :=
  match v with Object l => lookup_key k l | _ => None end.

Definition as_str (v : Json) : option string := match v with Str s => Some s | _ => None end.
Definition as_array (v : Json) : option (list Json) := match v with Array l => Some l | _ => None end.
Definition as_object (v : Json) : option (list (string * Json)) :=
  match v with Object l => Some l | _ => None end.
Definition as_bool (v : Json) : option bool := match v with Bool b => Some b | _ => None end.

Definition U64_MAX : N := 2 ^ 64 - 1.

Definition as_u64 (v : Json) : option N :=
  match v with
  | Int z => if (0 <=? z)%Z && (Z.to_N z <=? U64_MAX)%N then Some (Z.to_N z) else None
  | _ => None
  end.

Definition as_i64 (v : Json) : option Z :=
  match v with
  | Int z => if (- 2 ^ 63 <=? z)%Z && (z <? 2 ^ 63)%Z then Some z else None
  | _ => None
  end.
End json.

Class Serde `{!Floats} := {
  from_str : string -> result Json string;
  to_string : Json -> string;
}.

(** ** explain.rs *)

Module Explain.
Section explain.
Context `{!Floats} `{!Serde}.

Definition NAME : string := "name".
Definition CHILDREN : string := "children".
Definition EXTRA_INFO : string := "extra_info".
Definition CARDINALITY : string := "Estimated Cardinality".
Definition TABLE : string := "Table".
Definition FILTERS : string := "Filters".
Definition DUCKLAKE_SCAN : string := "DUCKLAKE_SCAN".
Definition FULL_SCAN_WARN_ROWS : N := 100000.
Definition FULL_SCAN : string := "full_scan".
Definition FILTERED_SCAN : string := "filtered_scan".

Record Estimates := {
  estimated_rows : N;
  scan_operations : list Types.ScanOp;
  warnings : list string;
  suggestions : list string;
}.

Definition no_estimates : Estimates :=
  {| estimated_rows := 0; scan_operations := []; warnings := []; suggestions := [] |}.

Inductive PlanUnreadable := NotJson (e : string) | NotAPlanTree | NoOperatorName.

Definition node_name (node : Json) : option string := v ← get node NAME; as_str v.

Definition extra (node : Json) (key : string) : option Json :=
  e ← get node EXTRA_INFO; get e key.

(** [str::parse::<u64>]: an optional plus sign, then digits. *)
Definition digit (b : ascii) : option N :=
  if is_digit b then Some (N_of_ascii b - 48)%N else None.

Fixpoint parse_digits (acc : N) (s : string) : option N :=
  match s with
  | EmptyString => Some acc
  | String b s =>
      d ← digit b;
      let acc := (acc * 10 + d)%N in
      if (acc <=? U64_MAX)%N then parse_digits acc s else None
  end.

Definition parse_u64 (s : string) : option N :=
  let s := match strip_prefix "+" s with Some s => s | None => s end in
  match s with
  | EmptyString => None
  | _ => parse_digits 0 s
  end.

Definition cardinality (node : Json) : option N :=
  v ← extra node CARDINALITY;
  match as_u64 v with
  | Some n => Some n
  | None => s ← as_str v; parse_u64 (trim s)
  end.

Definition is_dynamic (filter : string) : bool := starts_with "optional:" (trim_start filter).

Definition filter_text (node : Json) : option string :=
  v ← extra node FILTERS;
  joined ← match v with
           | Str s => Some s
           | Array a => Some (join " AND " (List.filter (fun s => negb (is_dynamic s)) (omap as_str a)))
           | _ => None
           end;
  let joined := trim joined in
  if String.eqb joined EmptyString || is_dynamic joined then None else Some joined.

Definition scan_op (node : Json) : option Types.ScanOp :=
  t ← extra node TABLE;
  table ← as_str t;
  Some {| Types.so_table := replace_ascii "034" EmptyString table;
          Types.so_scan_type := match filter_text node with
                                | Some _ => FILTERED_SCAN | None => FULL_SCAN end;
          Types.so_estimated_rows_scanned := default 0%N (cardinality node);
          Types.so_source := if bool_decide (node_name node = Some DUCKLAKE_SCAN)
                             then "pond" else "attached" |}.

(** Pre-order: the node, then what is below it. *)
Fixpoint collect (node : Json) : list Json :=
  node ::
  match node with
  | Object l =>
      (fix children (l : list (string * Json)) : list Json :=
         match l with
         | [] => []
         | (k, v) :: l =>
             if String.eqb k CHILDREN then
               match v with Array a => flat_map collect a | _ => [] end
             else children l
         end) l
  | _ => []
  end.

Definition warns (s : Types.ScanOp) : bool :=
  String.eqb (Types.so_scan_type s) FULL_SCAN &&
  (FULL_SCAN_WARN_ROWS <=? Types.so_estimated_rows_scanned s)%N.

Definition warning (s : Types.ScanOp) : string :=
  "full scan of `" +:+ Types.so_table s +:+ "`: an estimated "
  +:+ pretty (Types.so_estimated_rows_scanned s) +:+ " rows are read with no filter".

Definition suggestion (s : Types.ScanOp) : string :=
  "add a WHERE on a selective column of `" +:+ Types.so_table s
  +:+ "` (or a LIMIT, or aggregate with GROUP BY) "
  +:+ "— this scan reads ~" +:+ pretty (Types.so_estimated_rows_scanned s) +:+ " rows unfiltered".

(** [find_map]. *)
Fixpoint find_map {A B} (f : A -> option B) (l : list A) : option B :=
  match l with
  | [] => None
  | x :: l => match f x with Some y => Some y | None => find_map f l end
  end.

Definition parse (plan_json : string) : result Estimates PlanUnreadable :=
  let? value := map_err NotJson (from_str plan_json) in
  let? root :=
    match value with
    | Array a => ok_or (head a) NotAPlanTree
    | Object _ => Ok value
    | _ => Err NotAPlanTree
    end in
  match node_name root with
  | None => Err NoOperatorName
  | Some _ =>
      let nodes := collect root in
      let scans := omap scan_op nodes in
      Ok {| estimated_rows := default 0%N (find_map cardinality nodes);
            scan_operations := scans;
            warnings := map warning (List.filter warns scans);
            suggestions := map suggestion (List.filter warns scans) |}
  end.

(** [exec.rs]: the result of an [EXPLAIN], from its text cells. *)
Definition explain_result (cells : list string) (is_json : bool) : Types.ExplainResult :=
  let estimates :=
    match last cells with
    | Some j =>
        if is_json then match parse j with Ok e => e | Err _ => no_estimates end else no_estimates
    | None => no_estimates
    end in
  {| Types.estimated_rows := estimated_rows estimates;
     Types.scan_operations := scan_operations estimates;
     Types.ex_warnings := warnings estimates;
     Types.suggestions := suggestions estimates;
     Types.raw_plan := join nl cells |}.
End explain.
End Explain.

(** ** exec.rs: what a bound plan reads and writes *)

Module Provenance.
Section provenance.
Context `{!Floats} `{!Serde}.
Import Meta.

Definition MAX_PLAN_JSON_BYTES : N := 512 * 1024.

Definition text (l : list (string * Json)) (k : string) : option string :=
  v ← lookup_key k l; as_str v.

Definition with_version (d : DatasetRef) (v : option Z) : DatasetRef :=
  {| namespace := namespace d; name := name d; version := v; fields := fields d |}.

Definition with_fields (d : DatasetRef) (f : list DatasetField) : DatasetRef :=
  {| namespace := namespace d; name := name d; version := version d; fields := f |}.

Definition scan_datasets (obj : list (string * Json)) : list DatasetRef :=
  match lookup_key "function_data" obj ≫= as_object with
  | None => []
  | Some fd =>
      match text fd "catalog_name", text fd "schema_name", text fd "table_name" with
      | Some c, Some s, Some t =>
          [with_version (table c s t)
             (sn ← lookup_key "snapshot" fd; id ← get sn "snapshot_id"; as_i64 id)]
      | _, _, _ =>
          match text fd "catalog", text fd "schema", text fd "table" with
          | Some c, Some s, Some t => [table c s t]
          | _, _, _ =>
              match lookup_key "files" fd ≫= as_array with
              | Some files => map external (omap as_str files)
              | None => []
              end
          end
      end
  end.

Definition entry_dataset (entry : Json) : option DatasetRef :=
  obj ← as_object entry;
  n ← match text obj "table" with
      | Some n => Some n
      | None => match text obj "view_name" with Some n => Some n | None => text obj "name" end
      end;
  c ← text obj "catalog";
  s ← text obj "schema";
  Some (table c s n).

(** What one operator of the plan contributes: inputs, outputs. *)
Definition operator (obj : list (string * Json)) : list DatasetRef * list DatasetRef :=
  match text obj "type" with
  | None => ([], [])
  | Some ty =>
      if String.eqb ty "LOGICAL_GET" then (scan_datasets obj, [])
      else if existsb (String.eqb ty) ["LOGICAL_INSERT"; "LOGICAL_UPDATE"; "LOGICAL_DELETE"] then
        ([], option_list (lookup_key "table_info" obj ≫= entry_dataset))
      else if existsb (String.eqb ty)
                ["LOGICAL_CREATE_TABLE"; "LOGICAL_CREATE_VIEW"; "LOGICAL_DROP"] then
        ([], option_list (lookup_key "info" obj ≫= entry_dataset))
      else if String.eqb ty "LOGICAL_COPY_TO_FILE" then
        ([], option_list (external <$> text obj "file_path"))
      else ([], [])
  end.

(** Inputs and outputs in the order they are pushed. *)
Fixpoint walk_plan (node : Json) : list DatasetRef * list DatasetRef :=
  match node with
  | Object obj =>
      let below :=
        (fix values (l : list (string * Json)) : list DatasetRef * list DatasetRef :=
           match l with
           | [] => ([], [])
           | (_, v) :: l =>
               ((walk_plan v).1 ++ (values l).1, (walk_plan v).2 ++ (values l).2)
           end) obj in
      ((operator obj).1 ++ below.1, (operator obj).2 ++ below.2)
  | Array items =>
      (fix items_ (l : list Json) : list DatasetRef * list DatasetRef :=
         match l with
         | [] => ([], [])
         | v :: l => ((walk_plan v).1 ++ (items_ l).1, (walk_plan v).2 ++ (items_ l).2)
         end) items
  | _ => ([], [])
  end.

Definition identity (d : DatasetRef) : option string * string * option Z :=
  (namespace d, name d, version d).

(** [retain] with a set of the identities seen. *)
Fixpoint dedup_from (seen : list (option string * string * option Z)) (l : list DatasetRef) :
    list DatasetRef :=
  match l with
  | [] => []
  | d :: l =>
      if bool_decide (identity d ∈ seen) then dedup_from seen l
      else d :: dedup_from (identity d :: seen) l
  end.

Definition dedup (l : list DatasetRef) : list DatasetRef := dedup_from [] l.

Inductive PlanSkip := OverCap | NotPlanned (kind : string) | Unavailable | Unreadable.

(** The answer of the extraction query: it did not run; no plan under the cap; a
    plan. *)
Definition serialized_plan (answer : result (option string) string) : result Json PlanSkip :=
  let? json := map_err (fun _ => Unavailable) answer in
  let? json := ok_or json OverCap in
  let? value := map_err (fun _ => Unreadable) (from_str json) in
  if bool_decide ((get value "error" ≫= as_bool) = Some true) then
    Err (NotPlanned (from_option id "unknown" (get value "error_type" ≫= as_str)))
  else Ok value.

Definition referenced_tables (answer : result (option string) string) :
    list DatasetRef * list DatasetRef :=
  match serialized_plan answer with
  | Ok plan => (dedup (walk_plan plan).1, dedup (walk_plan plan).2)
  | Err _ => ([], [])
  end.

(** *** Columns *)

(** The schema and the table of a dataset of the pond's own. *)
Definition qualified (catalog : string) (d : DatasetRef) : option (string * string) :=
  match namespace d with
  | Some _ => None
  | None =>
      rest ← strip_prefix catalog (name d);
      rest ← strip_prefix "." rest;
      st ← split_once "." rest;
      if str_contains "." st.2 then None else Some st
  end.

(** A [BTreeSet] of pairs lists them in order. *)
Definition pair_leb (a b : string * string) : bool :=
  match String.compare a.1 b.1 with
  | Lt => true
  | Eq => match String.compare a.2 b.2 with Gt => false | _ => true end
  | Gt => false
  end.

Definition pair_le (a b : string * string) : Prop := pair_leb a b = true.

#[local] Instance pair_le_dec : RelDecision pair_le.
Proof. intros a b. unfold pair_le. apply _. Defined.

Definition wanted (catalog : string) (inputs outputs : list DatasetRef) : list (string * string) :=
  merge_sort pair_le
    (remove_dups (omap (qualified catalog) (inputs ++ outputs))).

Definition lit (s : string) : string := "'" +:+ replace_ascii "'" "''" s +:+ "'".

Definition schema_query (catalog : string) (pairs : list (string * string)) : string :=
  "SELECT table_schema, table_name, column_name, data_type "
  +:+ "FROM information_schema.columns "
  +:+ "WHERE table_catalog = " +:+ lit catalog +:+ " AND (table_schema, table_name) IN ("
  +:+ join ", " (map (fun st => "(" +:+ lit st.1 +:+ ", " +:+ lit st.2 +:+ ")") pairs) +:+ ") "
  +:+ "ORDER BY table_schema, table_name, ordinal_position".

(** A column: its schema, its table, its name, its type. *)
Record Column := { c_schema : string; c_table : string; c_name : string; c_type : string }.

Definition by_table (cols : list Column) : gmap (string * string) (list DatasetField) :=
  foldl (fun m c =>
    let k := (c_schema c, c_table c) in
    <[k := from_option id [] (m !! k) ++ [{| field_name := c_name c; type_name := c_type c |}]]> m) ∅ cols.

Definition annotate_one (catalog : string) (m : gmap (string * string) (list DatasetField))
    (d : DatasetRef) : DatasetRef :=
  match qualified catalog d ≫= (fun k => m !! k) with
  | Some f => with_fields d f
  | None => d
  end.

(** [answer] is what the catalog says to [schema_query], asked if anything is. *)
Definition annotate_schemas (catalog : string) (answer : string -> result (list Column) string)
    (inputs outputs : list DatasetRef) : list DatasetRef * list DatasetRef :=
  match wanted catalog inputs outputs with
  | [] => (inputs, outputs)
  | pairs =>
      match answer (schema_query catalog pairs) with
      | Err _ => (inputs, outputs)
      | Ok cols =>
          (map (annotate_one catalog (by_table cols)) inputs,
           map (annotate_one catalog (by_table cols)) outputs)
      end
  end.

(** [duck_engine.rs]: a dataset under a mounted alias, in its source's name. *)
Definition externalize (alias ns : string) (d : DatasetRef) : DatasetRef :=
  match strip_prefix (alias +:+ ".") (name d) with
  | Some rest =>
      {| namespace := Some ns; name := rest; version := version d; fields := fields d |}
  | None => d
  end.
End provenance.
End Provenance.

(** ** exec.rs: a cell as JSON *)

Module Cell.
Section cell.
Context `{!Floats} `{!Serde}.

Inductive TimeUnit := Second | Millisecond | Microsecond | Nanosecond.

(** [duckdb::types::Value]; the machine integers are held in their ranges. *)
Inductive DuckValue :=
| VNull
| VBoolean (b : bool)
| VTinyInt (i : Z) | VSmallInt (i : Z) | VInt (i : Z) | VBigInt (i : Z)
| VUTinyInt (i : Z) | VUSmallInt (i : Z) | VUInt (i : Z) | VUBigInt (i : Z)
| VHugeInt (i : Z)
| VFloat (f : f64) | VDouble (f : f64)
| VDecimal (printed : string)
| VText (s : string)
| VEnum (s : string)
| VDate32 (days : Z)
| VTimestamp (unit : TimeUnit) (t : Z)
| VTime64 (unit : TimeUnit) (t : Z)
| VInterval (months days nanos : Z)
| VBlob (bytes : string)
| VList (items : list DuckValue)
| VArray (items : list DuckValue)
| VStruct (fields : list (string * DuckValue))
| VMap (entries : list (DuckValue * DuckValue))
| VUnion (inner : DuckValue).

(** Whole seconds and the fraction in microseconds. *)
Definition split_unit_since_epoch (unit : TimeUnit) (v : Z) : Z * Z :=
  match unit with
  | Second => (v, 0)
  | Millisecond => (v / 1000, (v mod 1000) * 1000)
  | Microsecond => (v / 1000000, v mod 1000000)
  | Nanosecond => (v / 1000000000, (v mod 1000000000) / 1000)
  end%Z.

(** Hinnant's algorithm; [/] on [i64] is [Z.quot]. *)
Definition civil_from_days (z : Z) : Z * Z * Z :=
  (let z := z + 719468 in
   let era := Z.quot (if 0 <=? z then z else z - 146096) 146097 in
   let doe := z - era * 146097 in
   let yoe := Z.quot (doe - Z.quot doe 1460 + Z.quot doe 36524 - Z.quot doe 146096) 365 in
   let y := yoe + era * 400 in
   let doy := doe - (365 * yoe + Z.quot yoe 4 - Z.quot yoe 100) in
   let mp := Z.quot (5 * doy + 2) 153 in
   let d := doy - Z.quot (153 * mp + 2) 5 + 1 in
   let m := if mp <? 10 then mp + 3 else mp - 9 in
   (y + (if m <=? 2 then 1 else 0), m, d))%Z.

(** [{:0w}]: zeros between the sign and the digits. *)
Fixpoint zeros (n : nat) : string :=
  match n with O => EmptyString | S n => String "0" (zeros n) end.

Definition padded (w : nat) (z : Z) : string :=
  let digits := pretty (Z.to_N (Z.abs z)) in
  if (z <? 0)%Z then "-" +:+ zeros (w - 1 - String.length digits) +:+ digits
  else zeros (w - String.length digits) +:+ digits.

Definition date_text (ymd : Z * Z * Z) : string :=
  let '(y, m, d) := ymd in padded 4 y +:+ "-" +:+ padded 2 m +:+ "-" +:+ padded 2 d.

Definition time_text (secs frac_us : Z) : string :=
  (let h := Z.quot secs 3600 in
   let mi := Z.quot (Z.rem secs 3600) 60 in
   let s := Z.rem secs 60 in
   padded 2 h +:+ ":" +:+ padded 2 mi +:+ ":" +:+ padded 2 s +:+
   if 0 <? frac_us then "." +:+ padded 6 frac_us else EmptyString)%Z.

Definition hex_digit (n : N) : ascii := ascii_of_N (if (n <? 10)%N then 48 + n else 87 + n).

Fixpoint hex (bytes : string) : string :=
  match bytes with
  | EmptyString => EmptyString
  | String b bytes =>
      String (hex_digit (N_of_ascii b / 16)) (String (hex_digit (N_of_ascii b mod 16)) (hex bytes))
  end.

(** Collecting pairs into a JSON map: the last of two with one key, in key order. *)
Definition object (l : list (string * Json)) : Json :=
  Object (btree_entries (foldl (fun m kv => <[kv.1 := kv.2]> m) ∅ l : gmap string Json)).

Definition fits_i64 (z : Z) : bool := ((- 2 ^ 63 <=? z) && (z <? 2 ^ 63))%Z.

Definition float (f : f64) : Json := if is_finite f then Float f else Null.

Fixpoint value_to_json (v : DuckValue) : Json :=
  let map_key k :=
    match k with
    | VText s | VEnum s => s
    | other => to_string (value_to_json other)
    end in
  match v with
  | VNull => Null
  | VBoolean b => Bool b
  | VTinyInt i | VSmallInt i | VInt i | VBigInt i => Int i
  | VUTinyInt i | VUSmallInt i | VUInt i | VUBigInt i => Int i
  | VHugeInt i => if fits_i64 i then Int i else Str (pretty i)
  | VFloat f | VDouble f => float f
  | VDecimal d => Str d
  | VText s | VEnum s => Str s
  | VDate32 days => Str (date_text (civil_from_days days))
  | VTimestamp unit t =>
      let (secs, frac_us) := split_unit_since_epoch unit t in
      Str (date_text (civil_from_days (secs / 86400)) +:+ " " +:+
           time_text (secs mod 86400) frac_us)
  | VTime64 unit t =>
      let (secs, frac_us) := split_unit_since_epoch unit t in Str (time_text secs frac_us)
  | VInterval months days nanos =>
      object [("months", Int months); ("days", Int days); ("nanos", Int nanos)]
  | VBlob b => Str (hex b)
  | VList items | VArray items => Array (map value_to_json items)
  | VStruct fields => object (map (fun f => (f.1, value_to_json f.2)) fields)
  | VMap entries => object (map (fun e => (map_key e.1, value_to_json e.2)) entries)
  | VUnion inner => value_to_json inner
  end.
End cell.
End Cell.

(** ** Arrow *)

Class Arrow `{!Floats} := {
  record_batch : Type;
  num_rows : record_batch -> N;
  batch_json : record_batch -> result (list (gmap string Json)) string;
}.

#[export] Instance arrow_values `{!Floats} `{!Arrow} : Values :=
  {| json := Json; json_null := Null; batch := record_batch; batch_objects := batch_json |}.
