(* ===== verification/PlanSpec.v ===== *)
(** * What plans and cells are read as

    Dates: the days since the epoch and the calendar correspond one to one.  A
    plan's datasets are those of all its operators, at any depth, each once; the
    columns filled in are the catalog's own, for the pond's own tables only; and
    the estimates of an explained plan warn exactly of its large unfiltered
    scans. *)
From S2P Require Import Prelude Common Interfaces Plan.
#[local] Open Scope rust_scope.
#[local] Arguments String.append !_ _ / : simpl nomatch.

(** ** The calendar *)

Section calendar.
Import Cell.
#[local] Open Scope Z_scope.
Implicit Types y m d z : Z.

Definition leap y : bool := (y mod 4 =? 0) && negb (y mod 100 =? 0) || (y mod 400 =? 0).

Definition month_length y m : Z :=
  if m =? 2 then (if leap y then 29 else 28)
  else if (m =? 4) || (m =? 6) || (m =? 9) || (m =? 11) then 30
  else 31.

(** Days before the month, in a year that is not a leap year. *)
Definition days_before m : Z :=
  match m with
  | 2 => 31 | 3 => 59 | 4 => 90 | 5 => 120 | 6 => 151 | 7 => 181 | 8 => 212 | 9 => 243
  | 10 => 273 | 11 => 304 | 12 => 334 | _ => 0
  end.

Definition valid_date y m d : Prop := 1 <= m <= 12 /\ 1 <= d <= month_length y m.

(** The days from 1970-01-01: of whole years, with their leap days, of whole
    months, and within the month. *)
Definition date_number y m d : Z :=
  365 * (y - 1970) + ((y - 1) / 4 - (y - 1) / 100 + (y - 1) / 400 - 477)
  + days_before m + (if (2 <? m) && leap y then 1 else 0) + (d - 1).

(** The table is the sum of the months' lengths. *)
Lemma days_before_next y m :
  1 <= m < 12 ->
  days_before (m + 1) + (if (2 <? m + 1) && leap y then 1 else 0) =
  days_before m + (if (2 <? m) && leap y then 1 else 0) + month_length y m.
Proof.
  intros Hm. unfold month_length.
  assert (m = 1 \/ m = 2 \/ m = 3 \/ m = 4 \/ m = 5 \/ m = 6 \/ m = 7 \/ m = 8 \/ m = 9 \/ m = 10 \/
    m = 11) as Hc by lia.
  destruct_or! Hc; subst m; destruct (leap y); reflexivity.
Qed.

(** A year that starts in March. *)
Definition march_year y m : Z := if m <=? 2 then y - 1 else y.
Definition march_day m d : Z := (153 * (if m <=? 2 then m + 9 else m - 3) + 2) / 5 + d - 1.

Lemma date_number_march y m d :
  1 <= m <= 12 ->
  date_number y m d =
    365 * march_year y m + march_year y m / 4 - march_year y m / 100 + march_year y m / 400
    + march_day m d - 719468.
Proof.
  intros Hm. unfold date_number, march_year, march_day, leap.
  assert (m = 1 \/ m = 2 \/ m = 3 \/ m = 4 \/ m = 5 \/ m = 6 \/ m = 7 \/ m = 8 \/ m = 9 \/ m = 10 \/
    m = 11 \/ m = 12) as Hc by lia.
  destruct_or! Hc; subst m; cbn -[Z.mul Z.add Z.sub Z.div Z.modulo];
    repeat match goal with |- context [?a =? ?b] => destruct (Z.eqb_spec a b) end; simpl;
    Z.to_euclidean_division_equations; lia.
Qed.

Lemma era_spec z : Z.quot (if 0 <=? z then z else z - 146096) 146097 = z / 146097.
Proof.
  destruct (Z.leb_spec 0 z) as [Hz|Hz]; [by apply Z.quot_div_nonneg|].
  Z.to_euclidean_division_equations; lia.
Qed.

(** The year of a 400-year cycle a day is in, and its day there. *)
Lemma year_of_era doe :
  0 <= doe < 146097 ->
  let yoe := (doe - doe / 1460 + doe / 36524 - doe / 146096) / 365 in
  let doy := doe - (365 * yoe + yoe / 4 - yoe / 100) in
  0 <= yoe < 400 /\ 0 <= doy <= 365 /\
  (doy = 365 -> (yoe + 1) mod 4 = 0 /\ ((yoe + 1) mod 100 <> 0 \/ yoe = 399)).
Proof.
  intros Hd. cbv zeta. assert (doe / 146096 = 0 \/ doe = 146096) as [H0| ->].
  3: { split_and!; try (by vm_compute). intros _. split; [by vm_compute|]. right. by vm_compute. }
  { Z.to_euclidean_division_equations; lia. }
  assert (doe / 36524 = 0 \/ doe / 36524 = 1 \/ doe / 36524 = 2 \/ doe / 36524 = 3) as H1.
  { Z.to_euclidean_division_equations; lia. }
  rewrite H0. destruct_or! H1; rewrite H1; Z.to_euclidean_division_equations; lia.
Qed.

Lemma month_of_year doy :
  0 <= doy <= 365 ->
  let mp := (5 * doy + 2) / 153 in
  let d := doy - (153 * mp + 2) / 5 + 1 in
  0 <= mp <= 11 /\ 1 <= d <= 31 /\
  (mp = 11 -> d <= 29 /\ (d = 29 -> doy = 365)) /\
  (mp = 1 \/ mp = 3 \/ mp = 6 \/ mp = 8 -> d <= 30).
Proof. intros Hd. cbv zeta. Z.to_euclidean_division_equations; lia. Qed.

(** [civil_from_days] with floor division, and its parts named. *)
Lemma civil_unfold z :
  let n := z + 719468 in
  let doe := n mod 146097 in
  let yoe := (doe - doe / 1460 + doe / 36524 - doe / 146096) / 365 in
  let doy := doe - (365 * yoe + yoe / 4 - yoe / 100) in
  let mp := (5 * doy + 2) / 153 in
  let m := if mp <? 10 then mp + 3 else mp - 9 in
  civil_from_days z =
    (yoe + n / 146097 * 400 + (if m <=? 2 then 1 else 0), m, doy - (153 * mp + 2) / 5 + 1).
Proof.
  cbv zeta. unfold civil_from_days. rewrite era_spec. set (n := z + 719468).
  replace (n - n / 146097 * 146097) with (n mod 146097) by (rewrite Z.mod_eq; lia).
  pose proof (Z.mod_pos_bound n 146097 ltac:(lia)) as Hb. set (doe := n mod 146097) in *. clearbody doe.
  pose proof (year_of_era doe Hb) as (Hy & Hd & _).
  rewrite !(Z.quot_div_nonneg doe) by lia.
  assert (Hq : Z.quot (doe - doe / 1460 + doe / 36524 - doe / 146096) 365 =
    (doe - doe / 1460 + doe / 36524 - doe / 146096) / 365).
  { apply Z.quot_div_nonneg; [|lia]. Z.to_euclidean_division_equations; lia. }
  rewrite Hq. set (yoe := (doe - _ + _ - _) / 365) in *. clearbody yoe. clear Hq.
  rewrite !(Z.quot_div_nonneg yoe) by lia.
  set (doy := doe - (365 * yoe + yoe / 4 - yoe / 100)) in *. clearbody doy.
  rewrite (Z.quot_div_nonneg (5 * doy + 2)) by lia.
  pose proof (month_of_year doy Hd) as (Hm & _). set (mp := (5 * doy + 2) / 153) in *. clearbody mp.
  by rewrite (Z.quot_div_nonneg (153 * mp + 2)) by lia.
Qed.

Lemma leap_march yoe era :
  0 <= yoe < 400 ->
  (yoe + 1) mod 4 = 0 -> (yoe + 1) mod 100 <> 0 \/ yoe = 399 ->
  leap (yoe + era * 400 + 1) = true.
Proof.
  intros Hy H4 Hor. unfold leap. apply orb_true_iff.
  destruct (Z.eq_dec yoe 399) as [->|Hne].
  - right. apply Z.eqb_eq. Z.to_euclidean_division_equations; lia.
  - left. rewrite andb_true_iff, negb_true_iff, Z.eqb_eq, Z.eqb_neq.
    destruct Hor as [Hor|]; [|contradiction]. split; Z.to_euclidean_division_equations; lia.
Qed.

Lemma civil_from_days_sound z :
  let '(y, m, d) := civil_from_days z in valid_date y m d /\ date_number y m d = z.
Proof.
  rewrite civil_unfold. cbv zeta. set (n := z + 719468).
  pose proof (Z.mod_pos_bound n 146097 ltac:(lia)) as Hb.
  assert (Hz : z = n / 146097 * 146097 + n mod 146097 - 719468) by (rewrite Z.mod_eq; lia).
  set (doe := n mod 146097) in *. set (era := n / 146097) in *. clearbody doe era. clear n.
  pose proof (year_of_era doe Hb) as (Hy & Hd & Hleap).
  set (yoe := (doe - _ + _ - _) / 365) in *.
  assert (Hdoe : doe = 365 * yoe + yoe / 4 - yoe / 100 + (doe - (365 * yoe + yoe / 4 - yoe / 100)))
    by lia.
  set (doy := doe - (365 * yoe + yoe / 4 - yoe / 100)) in *. clearbody doy yoe.
  pose proof (month_of_year doy Hd) as (Hm & Hd1 & Hfeb & H30).
  set (mp := (5 * doy + 2) / 153) in *. clearbody mp.
  set (d := doy - (153 * mp + 2) / 5 + 1) in *.
  assert (Hdoy : doy = (153 * mp + 2) / 5 + d - 1) by (unfold d; lia). clearbody d.
  assert (Hmonth : mp < 10 /\ (mp <? 10) = true \/ 10 <= mp /\ (mp <? 10) = false).
  { destruct (Z.ltb_spec mp 10); lia. }
  set (m := if mp <? 10 then mp + 3 else mp - 9).
  assert (Hm' : 1 <= m <= 12) by (unfold m; destruct Hmonth as [[? ->]|[? ->]]; lia).
  assert (Hback : (if m <=? 2 then m + 9 else m - 3) = mp).
  { unfold m. destruct Hmonth as [[? ->]|[? ->]].
    - destruct (Z.leb_spec (mp + 3) 2); lia.
    - destruct (Z.leb_spec (mp - 9) 2); lia. }
  clearbody m. split.
  - split; [done|]. split; [lia|]. unfold month_length.
    destruct (Z.eqb_spec m 2) as [H2|H2].
    { assert (mp = 11) as Hmp by (rewrite <- Hback, H2; done). destruct (Hfeb Hmp) as [H29 H365].
      rewrite H2. destruct (Z.eq_dec d 29) as [Hd29|]; [|destruct (leap _); lia].
      destruct (Hleap (H365 Hd29)) as [H4 Hor].
      replace (yoe + era * 400 + (if 2 <=? 2 then 1 else 0)) with (yoe + era * 400 + 1) by (simpl; lia).
      rewrite leap_march by done. lia. }
    destruct (Z.eqb_spec m 4), (Z.eqb_spec m 6), (Z.eqb_spec m 9), (Z.eqb_spec m 11); simpl;
      try lia; apply H30; clear -Hback e; subst m; simpl in Hback; lia.
  - rewrite date_number_march by done. unfold march_year, march_day. rewrite Hback.
    replace (if m <=? 2 then yoe + era * 400 + (if m <=? 2 then 1 else 0) - 1
             else yoe + era * 400 + (if m <=? 2 then 1 else 0)) with (yoe + era * 400)
      by (destruct (m <=? 2); lia).
    rewrite Hz, Hdoe, Hdoy. clear -Hy. Z.to_euclidean_division_equations; lia.
Qed.

(** A date is before the dates of later months and of later years. *)
Lemma date_number_month y m d m' d' :
  valid_date y m d -> valid_date y m' d' -> m < m' -> date_number y m d < date_number y m' d'.
Proof.
  intros [Hm Hd] [Hm' Hd'] Hlt. unfold date_number.
  enough (days_before m + (if (2 <? m) && leap y then 1 else 0) + month_length y m <=
    days_before m' + (if (2 <? m') && leap y then 1 else 0)) by lia.
  clear Hd Hd'. assert (Hpos : forall k, 1 <= k -> 28 <= month_length y k).
  { intros k _. unfold month_length. repeat case_match; lia. }
  assert (Hk : exists k : nat, m' = m + 1 + Z.of_nat k)
    by (exists (Z.to_nat (m' - m - 1)); rewrite Z2Nat.id; lia).
  destruct Hk as [k ->]. clear Hlt. induction k as [|k IH].
  - rewrite Z.add_0_r, days_before_next by lia. lia.
  - replace (m + 1 + Z.of_nat (S k)) with ((m + 1 + Z.of_nat k) + 1) in * by lia.
    rewrite days_before_next by lia. specialize (IH ltac:(lia)).
    specialize (Hpos (m + 1 + Z.of_nat k) ltac:(lia)). lia.
Qed.

Lemma date_number_year y m d y' m' d' :
  valid_date y m d -> valid_date y' m' d' -> y < y' -> date_number y m d < date_number y' m' d'.
Proof.
  intros Hv [Hm' Hd'] Hlt.
  assert (Hdec : date_number y m d <= date_number y 12 31).
  { destruct (Z.eq_dec m 12) as [->|Hne].
    - destruct Hv as [_ [_ Hd]]. change (month_length y 12) with 31 in Hd. unfold date_number. lia.
    - enough (date_number y m d < date_number y 12 31) by lia. destruct Hv as [Hm Hd].
      apply date_number_month; [done|by split; [|change (month_length y 12) with 31]|lia]. }
  assert (Hjan : date_number y' 1 1 <= date_number y' m' d').
  { unfold date_number. change (days_before 1) with 0. simpl.
    assert (0 <= days_before m') by (unfold days_before; repeat case_match; lia).
    destruct ((2 <? m') && leap y'); lia. }
  enough (date_number y 12 31 < date_number y' 1 1) by lia.
  unfold date_number, leap. change (days_before 12) with 334. change (days_before 1) with 0. simpl.
  repeat match goal with |- context [?a =? ?b] => destruct (Z.eqb_spec a b) end; simpl;
    Z.to_euclidean_division_equations; lia.
Qed.

Lemma date_number_inj y m d y' m' d' :
  valid_date y m d -> valid_date y' m' d' -> date_number y m d = date_number y' m' d' ->
  (y, m, d) = (y', m', d').
Proof.
  intros Hv Hv' He.
  destruct (Z.lt_trichotomy y y') as [Hy|[<-|Hy]].
  - pose proof (date_number_year _ _ _ _ _ _ Hv Hv' Hy). lia.
  - destruct (Z.lt_trichotomy m m') as [Hm|[<-|Hm]].
    + pose proof (date_number_month _ _ _ _ _ Hv Hv' Hm). lia.
    + unfold date_number in He. repeat f_equal. lia.
    + pose proof (date_number_month _ _ _ _ _ Hv' Hv Hm). lia.
  - pose proof (date_number_year _ _ _ _ _ _ Hv' Hv Hy). lia.
Qed.

(** [civil_from_days] is the calendar: every day number is a date that exists,
    and the one whose leap years, months and days add up to it; and the day number
    of a date that exists leads back to it.  So a [DATE] cell is read as its date. *)
Theorem civil_from_days_spec :
  (forall z, let '(y, m, d) := civil_from_days z in valid_date y m d /\ date_number y m d = z) /\
  (forall y m d, valid_date y m d -> civil_from_days (date_number y m d) = (y, m, d)).
Proof.
  split; [apply civil_from_days_sound|]. intros y m d Hv.
  pose proof (civil_from_days_sound (date_number y m d)) as Hs.
  destruct (civil_from_days (date_number y m d)) as [[y' m'] d']. destruct Hs as [Hv' He].
  by apply date_number_inj.
Qed.

(** a timestamp's parts are the instant, to the microsecond: the date and the
    time of day it is rendered by, with hours, minutes, seconds and fraction in
    range, add up to its microseconds since the epoch, rounded down. *)
Theorem timestamp_parts unit t :
  let per := match unit with
             | Second => 1 | Millisecond => 1000 | Microsecond => 1000000 | Nanosecond => 1000000000
             end in
  let (secs, frac) := split_unit_since_epoch unit t in
  let '(y, m, d) := civil_from_days (secs / 86400) in
  let tod := secs mod 86400 in
  valid_date y m d /\ 0 <= Z.quot tod 3600 < 24 /\ 0 <= Z.quot (Z.rem tod 3600) 60 < 60 /\
  0 <= Z.rem tod 60 < 60 /\ 0 <= frac < 1000000 /\
  (((date_number y m d * 24 + Z.quot tod 3600) * 60 + Z.quot (Z.rem tod 3600) 60) * 60
     + Z.rem tod 60) * 1000000 + frac = t * 1000000 / per.
Proof.
  cbv zeta. destruct (split_unit_since_epoch unit t) as [secs frac] eqn:Es.
  assert (Hs : 0 <= frac < 1000000 /\ secs * 1000000 + frac = t * 1000000 /
    match unit with
    | Second => 1 | Millisecond => 1000 | Microsecond => 1000000 | Nanosecond => 1000000000 end).
  { destruct unit; simpl in Es; injection Es as <- <-; Z.to_euclidean_division_equations; lia. }
  pose proof (civil_from_days_sound (secs / 86400)) as Hc.
  destruct (civil_from_days (secs / 86400)) as [[y m] d]. destruct Hc as [Hv Hn].
  split; [done|]. rewrite Hn, <- (proj2 Hs). clear Hn Hv Es.
  pose proof (Z.mod_pos_bound secs 86400 ltac:(lia)) as Hb.
  assert (Hsecs : secs = secs / 86400 * 86400 + secs mod 86400) by (rewrite Z.mod_eq; lia).
  set (tod := secs mod 86400) in *. clearbody tod. set (day := secs / 86400) in *. clearbody day.
  rewrite Hsecs. split_and!; try tauto; Z.to_euclidean_division_equations; lia.
Qed.
End calendar.

(** ** Documents *)

Section json.
Context `{!Floats}.

Lemma Json_ind' (P : Json -> Prop) :
  P Null -> (forall b, P (Bool b)) -> (forall z, P (Int z)) -> (forall f, P (Float f)) ->
  (forall s, P (Str s)) -> (forall l, Forall P l -> P (Array l)) ->
  (forall l, Forall (fun kv => P kv.2) l -> P (Object l)) ->
  forall v, P v.
Proof.
  intros Hn Hb Hi Hf Hs Ha Ho. fix IH 1.
  intros [|b|z|f|s|l|l]; [exact Hn|apply Hb|apply Hi|apply Hf|apply Hs| |].
  - apply Ha. induction l as [|x l IHl]; constructor; [apply IH|exact IHl].
  - apply Ho. induction l as [|[k x] l IHl]; constructor; [apply IH|exact IHl].
Qed.

(** A value is in a document, at any depth. *)
Inductive within (v : Json) : Json -> Prop :=
| within_here : within v v
| within_array x l : x ∈ l -> within v x -> within v (Array l)
| within_object k x l : (k, x) ∈ l -> within v x -> within v (Object l).
End json.

(** ** The datasets of a plan *)

Section provenance.
Context `{!Floats} `{!Serde}.
Import Meta Provenance.

Lemma within_Array v l : within v (Array l) <-> v = Array l \/ exists x, x ∈ l /\ within v x.
Proof.
  split; [intros Hw; inversion Hw; eauto|]. intros [->|(x & Hx & Hw)]; [constructor|].
  by eapply within_array.
Qed.

Lemma within_Object v l : within v (Object l) <-> v = Object l \/ exists k x, (k, x) ∈ l /\ within v x.
Proof.
  split; [intros Hw; inversion Hw; eauto|]. intros [->|(k & x & Hx & Hw)]; [constructor|].
  by eapply within_object.
Qed.

Lemma walk_plan_spec plan d :
  (d ∈ (walk_plan plan).1 <-> exists obj, within (Object obj) plan /\ d ∈ (operator obj).1) /\
  (d ∈ (walk_plan plan).2 <-> exists obj, within (Object obj) plan /\ d ∈ (operator obj).2).
Proof.
  assert (Hleaf : forall v, (forall l, v <> Array l) -> (forall l, v <> Object l) ->
    walk_plan v = ([], []) -> (d ∈ (walk_plan v).1 <-> exists obj, within (Object obj) v /\ d ∈ (operator obj).1) /\
    (d ∈ (walk_plan v).2 <-> exists obj, within (Object obj) v /\ d ∈ (operator obj).2)).
  { intros v Ha Ho ->. simpl. setoid_rewrite elem_of_nil.
    assert (forall obj, ~ within (Object obj) v) by (intros obj Hw; inversion Hw; subst; naive_solver).
    naive_solver. }
  revert plan. apply Json_ind'; try (intros; by apply Hleaf).
  - intros l Hl. setoid_rewrite within_Array.
    assert (Hobj : forall P : list (string * Json) -> Prop,
      (exists obj, (Object obj = Array l \/ (exists x, x ∈ l /\ within (Object obj) x)) /\ P obj) <->
      exists x obj, x ∈ l /\ within (Object obj) x /\ P obj) by naive_solver.
    rewrite !Hobj. clear Hobj. cbn [walk_plan]. induction Hl as [|x l [Hx1 Hx2] Hl [IH1 IH2]].
    { simpl. setoid_rewrite elem_of_nil. naive_solver. }
    cbn [fst snd]. setoid_rewrite elem_of_app. rewrite IH1, IH2, Hx1, Hx2. setoid_rewrite elem_of_cons.
    naive_solver.
  - intros l Hl. setoid_rewrite within_Object.
    assert (Hobj : forall P : list (string * Json) -> Prop,
      (exists obj, (Object obj = Object l \/ (exists k x, (k, x) ∈ l /\ within (Object obj) x)) /\ P obj) <->
      P l \/ exists k x obj, (k, x) ∈ l /\ within (Object obj) x /\ P obj) by naive_solver.
    rewrite !Hobj. clear Hobj. cbn [walk_plan fst snd]. setoid_rewrite elem_of_app.
    set (own := operator l). clearbody own.
    assert (Hbelow : forall (R : Prop) (A B : Prop), (A <-> B) -> (R \/ A <-> R \/ B)) by tauto.
    split; apply Hbelow; clear own Hbelow.
    + induction Hl as [|[k x] l [Hx1 Hx2] Hl IH]; [simpl; setoid_rewrite elem_of_nil; naive_solver|].
      cbn [fst snd] in *. rewrite elem_of_app, IH, Hx1. setoid_rewrite elem_of_cons. naive_solver.
    + induction Hl as [|[k x] l [Hx1 Hx2] Hl IH]; [simpl; setoid_rewrite elem_of_nil; naive_solver|].
      cbn [fst snd] in *. rewrite elem_of_app, IH, Hx2. setoid_rewrite elem_of_cons. naive_solver.
Qed.

Lemma dedup_from_spec seen l :
  NoDup (map identity (dedup_from seen l)) /\ dedup_from seen l `sublist_of` l /\
  forall x, x ∈ map identity (dedup_from seen l) <-> x ∈ map identity l /\ x ∉ seen.
Proof.
  revert seen. induction l as [|d l IH]; intros seen; cbn [dedup_from map].
  { split_and!; [constructor|done|]. intros x. rewrite elem_of_nil. tauto. }
  case_bool_decide as Hd.
  - destruct (IH seen) as (Hnd & Hsub & Hin). split_and!; [done|by apply sublist_cons|].
    intros x. rewrite Hin, elem_of_cons. naive_solver.
  - destruct (IH (identity d :: seen)) as (Hnd & Hsub & Hin). split_and!.
    + cbn [map]. constructor; [|done]. rewrite Hin, elem_of_cons. tauto.
    + by apply sublist_skip.
    + intros x. cbn [map]. rewrite !elem_of_cons, Hin, not_elem_of_cons.
      destruct (decide (x = identity d)) as [->|]; tauto.
Qed.

Lemma dedup_spec l :
  NoDup (map identity (dedup l)) /\ dedup l `sublist_of` l /\
  forall x, x ∈ map identity (dedup l) <-> x ∈ map identity l.
Proof.
  destruct (dedup_from_spec [] l) as (Hnd & Hsub & Hin). split_and!; [done|done|].
  intros x. unfold dedup. rewrite Hin, elem_of_nil. tauto.
Qed.

(** the datasets of a statement are those of its plan's operators, of all of
    them, however deep and under whatever key; each is there once, a table read at
    two versions being two; and of a plan that was not got, was too big, reports an
    error or is not JSON there are none. *)
Theorem referenced_tables_spec answer :
  let (inputs, outputs) := referenced_tables answer in
  NoDup (map identity inputs) /\ NoDup (map identity outputs) /\
  match serialized_plan answer with
  | Ok plan =>
      (forall i, i ∈ map identity inputs <->
         exists obj d, within (Object obj) plan /\ d ∈ (operator obj).1 /\ i = identity d) /\
      (forall o, o ∈ map identity outputs <->
         exists obj d, within (Object obj) plan /\ d ∈ (operator obj).2 /\ o = identity d)
  | Err _ => inputs = [] /\ outputs = []
  end /\
  (forall plan, serialized_plan answer = Ok plan <->
     exists j, answer = Ok (Some j) /\ from_str j = Ok plan /\
       (get plan "error" ≫= as_bool) <> Some true).
Proof.
  destruct (referenced_tables answer) as [inputs outputs] eqn:E. unfold referenced_tables in E.
  assert (Hiff : forall plan, serialized_plan answer = Ok plan <->
     exists j, answer = Ok (Some j) /\ from_str j = Ok plan /\
       (get plan "error" ≫= as_bool) <> Some true).
  { intros plan. unfold serialized_plan. destruct answer as [[j|]|e]; cbn [map_err ok_or res_bind].
    2-3: split; [discriminate|intros (j & [=] & _)].
    destruct (from_str j) as [v|e] eqn:Ej; cbn [map_err res_bind].
    2: { split; [discriminate|]. intros (j' & [= <-] & Hf & _). rewrite Ej in Hf. discriminate Hf. }
    case_bool_decide as Herr.
    - split; [discriminate|]. intros (j' & [= <-] & Hf & Hn). rewrite Ej in Hf. injection Hf as <-. by destruct (Hn Herr).
    - split; [intros [= <-]; eauto|]. intros (j' & [= <-] & Hf & _). rewrite Ej in Hf. by injection Hf as ->. }
  destruct (serialized_plan answer) as [plan|e]; injection E as <- <-.
  2: { split_and!; [constructor|constructor|done|done|done]. }
  destruct (dedup_spec (walk_plan plan).1) as (Hnd1 & _ & Hin1).
  destruct (dedup_spec (walk_plan plan).2) as (Hnd2 & _ & Hin2).
  split_and!; try done.
  - intros i. rewrite Hin1, list_elem_of_fmap. split.
    + intros (d & -> & (obj & Hw & Hd)%walk_plan_spec). by exists obj, d.
    + intros (obj & d & Hw & Hd & ->). exists d. split; [done|]. apply walk_plan_spec. eauto.
  - intros o. rewrite Hin2, list_elem_of_fmap. split.
    + intros (d & -> & (obj & Hw & Hd)%walk_plan_spec). by exists obj, d.
    + intros (obj & d & Hw & Hd & ->). exists d. split; [done|]. apply walk_plan_spec. eauto.
Qed.

(** *** Columns *)

Lemma by_table_lookup cols k :
  by_table cols !! k =
    match List.filter (fun c => bool_decide ((c_schema c, c_table c) = k)) cols with
    | [] => None
    | cs => Some (map (fun c => {| field_name := c_name c; type_name := c_type c |}) cs)
    end.
Proof.
  unfold by_table. induction cols as [|c cols IH] using rev_ind; [done|].
  rewrite foldl_app. cbn [foldl]. rewrite List.filter_app. cbn [List.filter].
  set (m := foldl _ _ _) in *. clearbody m. case_bool_decide as Hk.
  - subst k. rewrite lookup_insert_eq, IH.
    destruct (List.filter _ cols) as [|c' cs]; simpl; [done|]. by rewrite map_app.
  - rewrite lookup_insert_ne, IH by done. by rewrite app_nil_r.
Qed.

(** filling in columns touches nothing but the columns of the pond's own
    tables: every other dataset, and every dataset when the catalog's answer is an
    error, is as it was; a table the answer knows gets the answer's columns of it,
    in its order; the catalog is asked only if the pond has a table among them. *)
Theorem annotate_schemas_spec catalog answer inputs outputs :
  let r := annotate_schemas catalog answer inputs outputs in
  let q := wanted catalog inputs outputs in
  let after (d : DatasetRef) :=
    match qualified catalog d, answer (schema_query catalog q) with
    | Some k, Ok cols =>
        match List.filter (fun c => bool_decide ((c_schema c, c_table c) = k)) cols with
        | [] => d
        | cs => with_fields d (map (fun c => {| field_name := c_name c; type_name := c_type c |}) cs)
        end
    | _, _ => d
    end in
  r.1 = map after inputs /\ r.2 = map after outputs /\
  (forall k, k ∈ q <-> exists d, (d ∈ inputs \/ d ∈ outputs) /\ qualified catalog d = Some k) /\
  (q = [] -> forall answer', annotate_schemas catalog answer' inputs outputs = (inputs, outputs)).
Proof.
  cbv zeta. assert (Hq : forall k, k ∈ wanted catalog inputs outputs <->
    exists d, (d ∈ inputs \/ d ∈ outputs) /\ qualified catalog d = Some k).
  { intros k. unfold wanted. rewrite merge_sort_Permutation, elem_of_remove_dups, list_elem_of_omap.
    setoid_rewrite elem_of_app. done. }
  set (after := fun d => _). 
  assert (Hid : forall l : list DatasetRef, (forall d, d ∈ l -> after d = d) -> l = map after l).
  { intros l Hl. induction l as [|d l IH]; [done|]. simpl. rewrite Hl by (by left). f_equal.
    apply IH. intros d' Hd'. apply Hl. by right. }
  unfold annotate_schemas. destruct (wanted catalog inputs outputs) as [|p pairs] eqn:Ew.
  - assert (Hnone : forall d, d ∈ inputs \/ d ∈ outputs -> after d = d).
    { intros d Hd. unfold after. destruct (qualified catalog d) as [k|] eqn:Ek; [|done].
      assert (k ∈ []) as []%elem_of_nil by (apply Hq; eauto). }
    split_and!; [apply Hid; auto|apply Hid; auto|done|done].
  - assert (Hans : forall d, after d = match answer (schema_query catalog (p :: pairs)) with
      | Ok cols => annotate_one catalog (by_table cols) d | Err _ => d end).
    { intros d. unfold after, annotate_one. destruct (qualified catalog d) as [k|]; simpl; [|by case_match].
      destruct (answer _) as [cols|e]; [|done]. rewrite by_table_lookup. by destruct (List.filter _ cols). }
    destruct (answer (schema_query catalog (p :: pairs))) as [cols|e]; simpl.
    + split_and!; [by apply map_ext|by apply map_ext|done|done].
    + split_and!; [by apply Hid|by apply Hid|done|done].
Qed.
End provenance.

(** ** The estimates of a plan *)

Section explain.
Context `{!Floats} `{!Serde}.
Import Explain.

(** The operators of a plan: its root, and the operators of its children. *)
Inductive operator_of (n : Json) : Json -> Prop :=
| operator_root : operator_of n n
| operator_child root l c :
    get root CHILDREN = Some (Array l) -> c ∈ l -> operator_of n c -> operator_of n root.

Lemma collect_unfold root :
  collect root = root :: match get root CHILDREN with Some (Array a) => flat_map collect a | _ => [] end.
Proof.
  destruct root as [| | | | |l|l]; try done. cbn [collect get]. f_equal.
  induction l as [|[k v] l IH]; [done|]. cbn [lookup_key]. destruct (String.eqb k CHILDREN); [done|].
  exact IH.
Qed.

Lemma lookup_key_elem k l v : lookup_key k l = Some v -> exists k', (k', v) ∈ l.
Proof.
  induction l as [|[k' v'] l IH]; simpl; [done|]. destruct (String.eqb k' k).
  - intros [= ->]. exists k'. by left.
  - intros (k2 & Hk2)%IH. exists k2. by right.
Qed.

Lemma elem_of_collect n root : n ∈ collect root <-> operator_of n root.
Proof.
  split.
  - assert (Hall : (forall n, n ∈ collect root -> operator_of n root) /\
      match root with Array a => Forall (fun c => forall n, n ∈ collect c -> operator_of n c) a | _ => True end);
      [|by apply Hall].
    clear n. revert root. apply Json_ind'; try (intros; split; [|done]; intros n;
      rewrite collect_unfold; simpl; intros ->%list_elem_of_singleton; constructor).
    + intros l Hl. split.
      * intros n. rewrite collect_unfold. simpl. intros ->%list_elem_of_singleton. constructor.
      * eapply Forall_impl; [exact Hl|]. by intros x [Hx _].
    + intros l Hl. split; [|done]. intros n. rewrite collect_unfold, elem_of_cons.
      intros [->|Hn]; [constructor|]. cbn [get] in Hn.
      destruct (lookup_key CHILDREN l) as [v|] eqn:Ek; [|by apply elem_of_nil in Hn].
      destruct (lookup_key_elem _ _ _ Ek) as [k Hk].
      eapply Forall_forall in Hl; [|exact Hk]. simpl in Hl. destruct Hl as [_ Hl].
      destruct v as [| | | | |a|]; try by apply elem_of_nil in Hn.
      apply list_elem_of_In, in_flat_map in Hn as (c & Hc & Hn).
      rewrite <- list_elem_of_In in Hc, Hn. eapply Forall_forall in Hl; [|exact Hc].
      eapply operator_child; [exact Ek|exact Hc|by apply Hl].
  - induction 1 as [|root l c Hg Hc _ IH]; rewrite collect_unfold; [by left|].
    right. rewrite Hg. apply list_elem_of_In, in_flat_map. exists c.
    by rewrite <- !list_elem_of_In.
Qed.

(** *** Numbers *)

Lemma digit_char r : (r < 10)%N -> digit (pretty_N_char r) = Some r.
Proof.
  intros Hr. assert (r = 0 \/ r = 1 \/ r = 2 \/ r = 3 \/ r = 4 \/ r = 5 \/ r = 6 \/ r = 7 \/ r = 8 \/
    r = 9)%N as Hc by lia. by destruct_or! Hc; subst r.
Qed.

Lemma parse_digits_go n s :
  (n <= U64_MAX)%N -> parse_digits 0 (pretty_N_go n s) = parse_digits n s.
Proof.
  revert s. induction (N.lt_wf_0 n) as [n _ IH]. intros s Hn.
  destruct (decide (n = 0)%N) as [->|Hne]; [by rewrite pretty_N_go_0|].
  rewrite pretty_N_go_step by lia. rewrite IH.
  - cbn [parse_digits]. rewrite digit_char by (apply N.mod_lt; lia). cbn [mbind option_bind].
    replace (n / 10 * 10 + n mod 10)%N with n by (rewrite (N.div_mod n 10) at 1; lia).
    by rewrite (proj2 (N.leb_le n U64_MAX)).
  - apply N.div_lt; lia.
  - transitivity n; [|done]. apply N.Div0.div_le_upper_bound. lia.
Qed.

Lemma pretty_go_bytes n s : all_bytes is_digit s = true -> all_bytes is_digit (pretty_N_go n s) = true.
Proof.
  revert s. induction (N.lt_wf_0 n) as [n _ IH]. intros s Hs.
  destruct (decide (n = 0)%N) as [->|Hne]; [by rewrite pretty_N_go_0|].
  rewrite pretty_N_go_step by lia. apply IH; [apply N.div_lt; lia|]. cbn [all_bytes].
  rewrite Hs, andb_true_r. pose proof (digit_char (n mod 10) ltac:(apply N.mod_lt; lia)) as Hd.
  unfold digit in Hd. by destruct (is_digit _).
Qed.

Lemma chars_digit b s : is_digit b = true -> chars (String b s) = String b EmptyString :: chars s.
Proof. by destruct b as [[] [] [] [] [] [] [] []]. Qed.

Lemma trim_digits s : all_bytes is_digit s = true -> trim s = s.
Proof.
  intros Hs. assert (Hch : Forall (fun c => is_whitespace c = false) (chars s)).
  { induction s as [|b s IH]; [constructor|]. cbn [all_bytes] in Hs.
    apply andb_true_iff in Hs as [Hb Hs]. rewrite chars_digit by done.
    constructor; [|by apply IH]. revert Hb. by destruct b as [[] [] [] [] [] [] [] []]. }
  unfold trim, trim_chars. rewrite (skip_while_id _ (chars s)) by (by destruct Hch).
  rewrite (skip_while_id _ (reverse (chars s))); [by rewrite reverse_involutive, str_concat_chars|].
  apply Forall_reverse in Hch. by destruct Hch.
Qed.

Lemma parse_u64_pretty n : (n <= U64_MAX)%N -> parse_u64 (trim (pretty n)) = Some n.
Proof.
  intros Hn. unfold pretty, pretty_N. destruct (decide (n = 0)%N) as [->|Hne]; [done|].
  rewrite trim_digits by (by apply pretty_go_bytes). unfold parse_u64.
  pose proof (parse_digits_go n EmptyString Hn) as Hgo. cbn [parse_digits] in Hgo.
  pose proof (pretty_go_bytes n EmptyString eq_refl) as Hb.
  destruct (pretty_N_go n EmptyString) as [|b s] eqn:Eg.
  - cbn in Hgo. congruence.
  - cbn [all_bytes] in Hb. apply andb_true_iff in Hb as [Hb _].
    assert (strip_prefix "+" (String b s) = None) as ->; [|done].
    cbn [strip_prefix]. revert Hb. by destruct b as [[] [] [] [] [] [] [] []].
Qed.

Lemma parse_digits_max acc s n :
  (acc <= U64_MAX)%N -> parse_digits acc s = Some n -> (n <= U64_MAX)%N.
Proof.
  revert acc. induction s as [|b s IH]; intros acc Ha; cbn [parse_digits]; [by intros [= <-]|].
  destruct (digit b) as [d|]; cbn [mbind option_bind]; [|done].
  destruct (N.leb_spec (acc * 10 + d) U64_MAX); [|done]. by apply IH.
Qed.

(** a cardinality is read back whichever way it was written, as a number or as
    the digits of one, up to the largest [u64]; and nothing larger is ever read. *)
Theorem cardinality_roundtrip node n :
  ((n <= U64_MAX)%N ->
   extra node CARDINALITY = Some (Str (pretty n)) \/ extra node CARDINALITY = Some (Int (Z.of_N n)) ->
   cardinality node = Some n) /\
  (cardinality node = Some n -> (n <= U64_MAX)%N).
Proof.
  unfold cardinality. split.
  - intros Hn [-> | ->]; cbn [mbind option_bind as_u64 as_str].
    + by apply parse_u64_pretty.
    + rewrite N2Z.id. by rewrite (proj2 (Z.leb_le 0 (Z.of_N n)) (N2Z.is_nonneg n)),
        (proj2 (N.leb_le n U64_MAX) Hn).
  - destruct (extra node CARDINALITY) as [v|]; cbn [mbind option_bind]; [|done].
    destruct (as_u64 v) as [k|] eqn:Eu.
    + intros [= <-]. destruct v; try discriminate Eu. cbn [as_u64] in Eu.
      destruct (_ && _) eqn:Eb; [|done]. injection Eu as <-.
      apply andb_true_iff in Eb as [_ Hle]. by apply N.leb_le.
    + destruct (as_str v) as [s|]; cbn [mbind option_bind]; [|done]. unfold parse_u64.
      destruct (match strip_prefix "+" (trim s) with Some _ => _ | None => _ end); [done|].
      by apply parse_digits_max.
Qed.

(** The root operator of a plan's text, if that is what it is. *)
Definition plan_root (j : string) (root : Json) : Prop :=
  (exists rest, from_str j = Ok (Array (root :: rest))) \/
  (exists l, root = Object l /\ from_str j = Ok root).

Definition estimates_of (root : Json) : Estimates :=
  let scans := omap scan_op (collect root) in
  {| estimated_rows := from_option id 0%N (find_map cardinality (collect root));
     scan_operations := scans;
     warnings := map warning (List.filter warns scans);
     suggestions := map suggestion (List.filter warns scans) |}.

Lemma parse_Ok j e :
  parse j = Ok e <->
  exists root name, plan_root j root /\ node_name root = Some name /\ e = estimates_of root.
Proof.
  unfold parse, plan_root. destruct (from_str j) as [v|m]; cbn [map_err res_bind].
  2: { split; [discriminate|]. intros (root & name & [[rest [=]]|(l & _ & [=])] & _). }
  assert (Hroot : forall root, (match v with
      | Array a => ok_or (head a) NotAPlanTree | Object _ => Ok v | _ => Err NotAPlanTree end) = Ok root <->
    (exists rest, Ok v = (Ok (Array (root :: rest)) : result Json string)) \/
    (exists l, root = Object l /\ Ok v = (Ok root : result Json string))).
  { intros root. destruct v as [| | | | |[|x a]|l]; cbn [head ok_or]; split;
      try discriminate; try (by intros [[rest [=]]|(l' & -> & [=])]).
    - intros [= ->]. left. by exists a.
    - intros [[rest [= -> ->]]|(l' & -> & [=])]. done.
    - intros [= <-]. right. by exists l.
    - intros [[rest [=]]|(l' & -> & [= <-])]. done. }
  destruct (match v with Array a => ok_or (head a) NotAPlanTree | Object _ => Ok v
    | _ => Err NotAPlanTree end) as [root|err]; cbn [res_bind].
  - pose proof (proj1 (Hroot root) eq_refl) as Hr.
    destruct (node_name root) as [name|] eqn:En.
    + split; [intros [= <-]; by exists root, name|]. intros (root' & name' & Hr' & _ & ->).
      apply Hroot in Hr'. by injection Hr' as ->.
    + split; [discriminate|]. intros (root' & name' & Hr' & Hn & _).
      apply Hroot in Hr'. injection Hr' as ->. by rewrite En in Hn.
  - split; [discriminate|]. intros (root & name & Hr & _). apply Hroot in Hr. discriminate Hr.
Qed.

Lemma find_map_spec {A B} (f : A -> option B) l :
  match find_map f l with
  | Some y => exists l1 x l2, l = l1 ++ x :: l2 /\ f x = Some y /\ Forall (fun x => f x = None) l1
  | None => Forall (fun x => f x = None) l
  end.
Proof.
  induction l as [|x l IH]; cbn [find_map]; [constructor|]. destruct (f x) as [y|] eqn:Ef.
  - by exists [], x, l.
  - destruct (find_map f l) as [y|]; [|by constructor].
    destruct IH as (l1 & x' & l2 & -> & Hx & Hl). exists (x :: l1), x', l2. split_and!; [done|done|by constructor].
Qed.

(** a plan is refused only when it is not JSON, is no operator tree or its root
    has no name; read, its scans are those of all its operators; a warning and a
    suggestion are given for each scan without a filter of the agent's that reads
    the threshold or more, and for no other; the size of the result is the root's
    estimate, or another operator's if it has none, and zero if none has; and the
    explanation carries the plan's text whatever was made of it. *)
Theorem explain_parse_spec j :
  (is_ok (parse j) = true <-> exists root name, plan_root j root /\ node_name root = Some name) /\
  (forall e root, parse j = Ok e -> plan_root j root ->
     (forall s, s ∈ scan_operations e <-> exists n, operator_of n root /\ scan_op n = Some s) /\
     warnings e = map warning (List.filter warns (scan_operations e)) /\
     suggestions e = map suggestion (List.filter warns (scan_operations e)) /\
     (forall n, cardinality root = Some n -> estimated_rows e = n) /\
     ((exists n, operator_of n root /\ cardinality n = Some (estimated_rows e)) \/
      (forall n, operator_of n root -> cardinality n = None) /\ estimated_rows e = 0%N)) /\
  (forall cells is_json, Types.raw_plan (explain_result cells is_json) = join nl cells) /\
  (forall n s, scan_op n = Some s ->
     (warns s = true <-> filter_text n = None /\
        (FULL_SCAN_WARN_ROWS <= from_option id 0 (cardinality n))%N)).
Proof.
  split; [|split; [|split]].
  - split.
    + destruct (parse j) as [e|] eqn:E; [|discriminate]. apply parse_Ok in E as (r & n & ? & ? & _). eauto.
    + intros (r & n & Hr & Hn). assert (parse j = Ok (estimates_of r)) as ->; [|done].
      apply parse_Ok. eauto.
  - intros e root (r & name & Hr & _ & ->)%parse_Ok Hroot.
    assert (r = root) as ->.
    { destruct Hr as [[rest Hr]|(l & -> & Hr)], Hroot as [[rest' Hr']|(l' & -> & Hr')];
        rewrite Hr in Hr'; (discriminate Hr' || (injection Hr'; intros; by subst)). }
    cbn [estimates_of scan_operations warnings suggestions estimated_rows]. split_and!; try done.
    + intros s. rewrite list_elem_of_omap. by setoid_rewrite elem_of_collect.
    + intros n Hn. rewrite collect_unfold. cbn [find_map]. by rewrite Hn.
    + pose proof (find_map_spec cardinality (collect root)) as Hf.
      destruct (find_map cardinality (collect root)) as [k|]; simpl.
      * destruct Hf as (l1 & x & l2 & Hl & Hx & _). left. exists x. split; [|done].
        apply elem_of_collect. rewrite Hl, elem_of_app, elem_of_cons. auto.
      * right. split; [|done]. intros n Hn%elem_of_collect. by eapply Forall_forall in Hf.
  - done.
  - intros n s Hs. unfold scan_op in Hs. destruct (extra n TABLE) as [t|]; cbn [mbind option_bind] in Hs; [|done].
    destruct (as_str t); cbn [mbind option_bind] in Hs; [|done]. injection Hs as <-.
    unfold warns. cbn [Types.so_scan_type Types.so_estimated_rows_scanned].
    rewrite andb_true_iff, N.leb_le. destruct (filter_text n); split; try naive_solver.
Qed.
End explain.
