(* ===== verification/ReadPool.v ===== *)
(** * The pool of read connections

    Models [ReadPool], [ReadGuard] and [Pond::checkout_read] of
    [latiq-engine-duckdb/src/duck_engine.rs] under interleaved readers: each
    section of the pool's mutex is one step, a wait on its condition variable puts
    the reader to sleep until a notification picks it, and cloning a connection
    happens outside the mutex. *)
From S2P Require Import Prelude.

Module ReadPool.
(** Where a reader is: about to look at the pool; cloning a connection it has
    counted; reading on one; asleep; its connection given back, about to notify;
    gone. *)
Inductive Phase :=
| Looking
| Cloning
| Reading (conn : nat)
| Asleep
| Notifying
| Gone (ok : bool).

(** [fresh]: the next connection's name. *)
Record Pool := {
  idle : list nat;
  created : nat;
  max : nat;
  fresh : nat;
  readers : gmap nat Phase;
}.

(** [(cores * 2).clamp(4, 32)]. *)
Definition max_of (cores : nat) : nat := Nat.max 4 (Nat.min (cores * 2) 32).

Definition init (cores : nat) : Pool :=
  {| idle := []; created := 0; max := max_of cores; fresh := 0; readers := ∅ |}.

Definition at_ (i : nat) (p : Phase) (s : Pool) : Pool :=
  {| idle := idle s; created := created s; max := max s; fresh := fresh s;
     readers := <[i := p]> (readers s) |}.

Definition set_idle (l : list nat) (s : Pool) : Pool :=
  {| idle := l; created := created s; max := max s; fresh := fresh s; readers := readers s |}.

Definition set_created (n : nat) (s : Pool) : Pool :=
  {| idle := idle s; created := n; max := max s; fresh := fresh s; readers := readers s |}.

Definition take_fresh (s : Pool) : Pool :=
  {| idle := idle s; created := created s; max := max s; fresh := S (fresh s);
     readers := readers s |}.

(** [clones]: whether cloning can fail. *)
Inductive step (clones_fail : bool) (s : Pool) : Pool -> Prop :=
| arrive i : readers s !! i = None -> step clones_fail s (at_ i Looking s)
| pop i c rest :
    readers s !! i = Some Looking -> idle s = rest ++ [c] ->
    step clones_fail s (at_ i (Reading c) (set_idle rest s))
| grow i :
    readers s !! i = Some Looking -> idle s = [] -> created s < max s ->
    step clones_fail s (at_ i Cloning (set_created (S (created s)) s))
| wait i :
    readers s !! i = Some Looking -> idle s = [] -> max s <= created s ->
    step clones_fail s (at_ i Asleep s)
| cloned i :
    readers s !! i = Some Cloning -> step clones_fail s (at_ i (Reading (fresh s)) (take_fresh s))
| clone_failed i :
    readers s !! i = Some Cloning -> clones_fail = true ->
    step clones_fail s (at_ i (Gone false) (set_created (created s - 1) s))
| give_back i c :
    readers s !! i = Some (Reading c) ->
    step clones_fail s (at_ i Notifying (set_idle (idle s ++ [c]) s))
| discard i c :
    readers s !! i = Some (Reading c) ->
    step clones_fail s (at_ i Notifying (set_created (created s - 1) s))
| notify_one i j :
    readers s !! i = Some Notifying -> readers s !! j = Some Asleep ->
    step clones_fail s (at_ i (Gone true) (at_ j Looking s))
| notify_none i :
    readers s !! i = Some Notifying -> (forall j, readers s !! j <> Some Asleep) ->
    step clones_fail s (at_ i (Gone true) s)
| spurious j : readers s !! j = Some Asleep -> step clones_fail s (at_ j Looking s).

Definition reachable (clones_fail : bool) (cores : nat) (s : Pool) : Prop :=
  rtc (step clones_fail) (init cores) s.
End ReadPool.

(** ** Counting readers *)

Definition total {A} (f : A -> nat) (m : gmap nat A) : nat := map_fold (fun _ p n => f p + n) 0 m.

Lemma total_insert_delete {A} (f : A -> nat) (m : gmap nat A) i x :
  total f (<[i := x]> m) = f x + total f (delete i m).
Proof.
  unfold total. rewrite <- insert_delete_eq. rewrite map_fold_insert_L; [done| |apply lookup_delete_eq].
  intros. lia.
Qed.

Lemma total_move {A} (f : A -> nat) (m : gmap nat A) i x y :
  m !! i = Some x -> total f (<[i := y]> m) + f x = total f m + f y.
Proof.
  intros Hi. rewrite total_insert_delete. rewrite <- (insert_id _ _ _ Hi) at 2.
  rewrite total_insert_delete. lia.
Qed.

Lemma total_add {A} (f : A -> nat) (m : gmap nat A) i y :
  m !! i = None -> total f (<[i := y]> m) = total f m + f y.
Proof. intros Hi. rewrite total_insert_delete, delete_id by done. lia. Qed.

Lemma total_in {A} (f : A -> nat) (m : gmap nat A) i x : m !! i = Some x -> f x <= total f m.
Proof. intros Hi. rewrite <- (insert_id _ _ _ Hi), total_insert_delete. lia. Qed.

Lemma total_pos {A} (f : A -> nat) (m : gmap nat A) :
  0 < total f m -> exists i x, m !! i = Some x /\ 0 < f x.
Proof.
  unfold total. induction m as [|i x m Hi IH] using map_ind; [rewrite map_fold_empty; lia|].
  rewrite map_fold_insert_L; [|intros; lia|done]. intros Hpos.
  destruct (decide (f x = 0)) as [Hz|Hz].
  - destruct IH as (j & y & Hj & Hy); [lia|]. exists j, y. split; [|done].
    rewrite lookup_insert_ne; [done|]. intros ->. congruence.
  - exists i, x. rewrite lookup_insert_eq. split; [done|lia].
Qed.

Section pool.
Import ReadPool.

Definition holds (p : Phase) : nat := match p with Cloning | Reading _ => 1 | _ => 0 end.
Definition stirs (p : Phase) : nat := match p with Looking | Notifying => 1 | _ => 0 end.
Definition sleeps (p : Phase) : nat := match p with Asleep => 1 | _ => 0 end.

Record pool_inv (s : Pool) : Prop := {
  pi_counted : created s = length (idle s) + total holds (readers s);
  pi_bounded : created s <= max s;
  pi_idle : NoDup (idle s);
  pi_fresh_idle : forall c, c ∈ idle s -> c < fresh s;
  pi_reading : forall i c, readers s !! i = Some (Reading c) -> c < fresh s /\ c ∉ idle s;
  pi_exclusive : forall i j c, readers s !! i = Some (Reading c) ->
    readers s !! j = Some (Reading c) -> i = j;
}.

(** No reader sleeps over a connection, or room for one, that no one is on its way
    to: the wake-ups still to come are as many as what there is to take. *)
Definition no_lost_wakeup (s : Pool) : Prop :=
  0 < total sleeps (readers s) ->
  length (idle s) + (max s - created s) <= total stirs (readers s).

(** One reader moves, and the pool with it. *)
Lemma inv_move s s' i p0 p :
  pool_inv s -> readers s !! i = Some p0 -> readers s' = <[i := p]> (readers s) ->
  created s' + holds p0 + length (idle s) = created s + holds p + length (idle s') ->
  created s' <= max s' -> NoDup (idle s') -> (forall c, c ∈ idle s' -> c < fresh s') ->
  fresh s <= fresh s' ->
  (forall c, p = Reading c -> c < fresh s' /\
     (forall j, j <> i -> readers s !! j <> Some (Reading c))) ->
  (forall c j, c ∈ idle s' -> j <> i -> readers s !! j = Some (Reading c) -> c ∈ idle s) ->
  (forall c, p = Reading c -> c ∉ idle s') -> pool_inv s'.
Proof.
  intros [Hc Hb Hi Hf Hr Hx] Hp Hs Hcount Hmax Hnd Hfr Hle Hnew Hidle Hout. split; try done.
  - rewrite Hs. pose proof (total_move holds _ _ _ p Hp). lia.
  - intros j c. rewrite Hs, lookup_insert_Some. intros [[<- ->]|[Hne Hj]].
    + split; [by apply Hnew|by apply Hout].
    + destruct (Hr _ _ Hj) as [Hlt Hn]. split; [lia|]. intros Hin. by apply Hn, (Hidle c j).
  - intros j k c. rewrite Hs, !lookup_insert_Some. intros [[<- ->]|[Hne Hj]] [[<- Heq]|[Hne' Hk]].
    + done.
    + destruct (Hnew c eq_refl) as [_ Hno]. by destruct (Hno k).
    + destruct (Hnew c Heq) as [_ Hno]. by destruct (Hno j).
    + by eapply Hx.
Qed.

Lemma inv_quiet s s' i p0 p :
  pool_inv s -> readers s !! i = Some p0 -> holds p0 = holds p -> (forall c, p <> Reading c) ->
  readers s' = <[i := p]> (readers s) -> created s' = created s -> max s' = max s ->
  idle s' = idle s -> fresh s' = fresh s -> pool_inv s'.
Proof.
  intros Hinv Hp Hh Hn Hr Hc Hm Hi Hf. pose proof Hinv as [_ Hb Hnd Hfr _ _].
  eapply (inv_move s s'); try done; rewrite ?Hc, ?Hm, ?Hi, ?Hf; try done; try lia; intros c He;
    by destruct (Hn c).
Qed.

Lemma pool_step_inv b s s' : step b s s' -> pool_inv s -> pool_inv s'.
Proof.
  intros Hs Hinv. pose proof Hinv as [Hc Hb Hnd Hfr Hr Hx].
  destruct Hs as [i Hi|i c rest Hi Hidle|i Hi Hidle Hlt|i Hi Hidle Hge|i Hi|i Hi _|i c Hi|i c Hi
    |i j Hi Hj|i Hi Hno|j Hj].
  - split; simpl; try done.
    + rewrite total_add by done. simpl. lia.
    + intros j c. rewrite lookup_insert_Some. intros [[_ [=]]|[_ Hj]]. by apply Hr in Hj.
    + intros j k c. rewrite !lookup_insert_Some. intros [[_ [=]]|[_ Hj]] [[_ [=]]|[_ Hk]].
      by eapply Hx.
  - rewrite Hidle in *. apply NoDup_app in Hnd as (Hnd & Hdis & _).
    assert (Hcr : c ∉ rest) by (intros Hin; by apply (Hdis c Hin); left).
    eapply (inv_move s _ i _ (Reading c)); try done; simpl.
    + rewrite Hidle, length_app. simpl. lia.
    + intros d Hd. apply Hfr, elem_of_app. by left.
    + intros d [= <-]. split; [apply Hfr, elem_of_app; right; by left|].
      intros j _ Hj. apply Hr in Hj as [_ Hj]. apply Hj, elem_of_app.
      right. by left.
    + intros d j Hd _ _. rewrite Hidle. apply elem_of_app. by left.
    + by intros d [= <-].
  - eapply (inv_move s _ i _ Cloning); try done; simpl; lia.
  - by eapply (inv_quiet s _ i Looking Asleep).
  - eapply (inv_move s _ i _ (Reading (fresh s))); try done; simpl; try lia.
    + intros c Hin. specialize (Hfr c Hin). lia.
    + intros c [= <-]. split; [lia|]. intros j _ Hj. apply Hr in Hj as [Hlt _]. lia.
    + intros c [= <-] Hin. specialize (Hfr _ Hin). lia.
  - pose proof (total_in holds _ _ _ Hi) as Hpos. simpl in Hpos.
    eapply (inv_move s _ i _ (Gone false)); try done; simpl; lia.
  - destruct (Hr _ _ Hi) as [Hlt Hout].
    eapply (inv_move s _ i _ Notifying); try done; simpl.
    + rewrite length_app. simpl. lia.
    + apply NoDup_app. split_and!; [done| |apply NoDup_singleton].
      intros x Hx' ->%list_elem_of_singleton. done.
    + intros x [Hin| ->%list_elem_of_singleton]%elem_of_app; [by apply Hfr|done].
    + intros x k [Hin| ->%list_elem_of_singleton]%elem_of_app Hne Hk; [done|].
      by destruct Hne, (Hx k i c).
  - pose proof (total_in holds _ _ _ Hi) as Hpos. simpl in Hpos.
    eapply (inv_move s _ i _ Notifying); try done; simpl; lia.
  - assert (Hmid : pool_inv (at_ j Looking s)) by (by eapply (inv_quiet s _ j Asleep Looking)).
    eapply (inv_quiet (at_ j Looking s) _ i Notifying (Gone true)); try done. simpl.
    rewrite lookup_insert_ne; [done|]. intros ->. congruence.
  - by eapply (inv_quiet s _ i Notifying (Gone true)).
  - by eapply (inv_quiet s _ j Asleep Looking).
Qed.

Lemma init_pool_inv cores : pool_inv (init cores).
Proof. split; simpl; try done; [lia|constructor|by intros c ?%elem_of_nil]. Qed.

Lemma reachable_pool_inv b cores s : reachable b cores s -> pool_inv s /\ max s = max_of cores.
Proof.
  revert s. apply rtc_ind_r; [split; [apply init_pool_inv|done]|].
  intros s1 s2 _ Hs [Hinv Hm]. split; [by eapply pool_step_inv|]. rewrite <- Hm. by destruct Hs.
Qed.

(** whatever the readers do, and whether or not connections can be cloned: no
    more connections are open than the pond's cores allow, at least four and at most
    thirty-two; those open are the idle ones, those being read on and those being
    made; and no connection is read on by two readers, or while it is idle. *)
Theorem pool_bounded b cores s :
  reachable b cores s ->
  created s = length (idle s) + total holds (readers s) /\
  created s <= max_of cores /\ 4 <= max_of cores <= 32 /\
  NoDup (idle s) /\
  (forall i c, readers s !! i = Some (Reading c) -> c ∉ idle s) /\
  (forall i j c, readers s !! i = Some (Reading c) -> readers s !! j = Some (Reading c) -> i = j).
Proof.
  intros [[Hc Hb Hnd _ Hr Hx] Hm]%reachable_pool_inv. rewrite <- Hm. split_and!; try done.
  - rewrite Hm. unfold max_of. lia.
  - rewrite Hm. unfold max_of. lia.
  - intros i c Hi. by apply Hr in Hi as [_ ?].
Qed.

(** *** Waking up *)

Ltac count Hi :=
  let go f y := pose proof (total_move f _ _ _ y Hi) in
  repeat match goal with
  | |- context [total ?f (<[_ := ?y]> _)] => progress go f y
  end.

Lemma step_wakeup s s' :
  step false s s' -> pool_inv s -> no_lost_wakeup s -> no_lost_wakeup s'.
Proof.
  intros Hs [Hc Hb _ _ _ _] Hw. unfold no_lost_wakeup in *.
  destruct Hs as [i Hi|i c rest Hi Hidle|i Hi Hidle Hlt|i Hi Hidle Hge|i Hi|i Hi Hf|i c Hi|i c Hi
    |i j Hi Hj|i Hi Hno|j Hj]; simpl.
  - rewrite !total_add by done. simpl. lia.
  - pose proof (total_move sleeps _ _ _ (Reading c) Hi) as H1.
    pose proof (total_move stirs _ _ _ (Reading c) Hi) as H2. rewrite Hidle, length_app in Hw.
    simpl in *. lia.
  - pose proof (total_move sleeps _ _ _ Cloning Hi) as H1.
    pose proof (total_move stirs _ _ _ Cloning Hi) as H2. rewrite Hidle in *. simpl in *. lia.
  - rewrite Hidle. simpl. lia.
  - pose proof (total_move sleeps _ _ _ (Reading (fresh s)) Hi) as H1.
    pose proof (total_move stirs _ _ _ (Reading (fresh s)) Hi) as H2. simpl in *. lia.
  - done.
  - pose proof (total_move sleeps _ _ _ Notifying Hi) as H1.
    pose proof (total_move stirs _ _ _ Notifying Hi) as H2. rewrite length_app. simpl in *. lia.
  - pose proof (total_move sleeps _ _ _ Notifying Hi) as H1.
    pose proof (total_move stirs _ _ _ Notifying Hi) as H2. simpl in *. lia.
  - assert (Hi' : <[j := Looking]> (readers s) !! i = Some Notifying)
      by (rewrite lookup_insert_ne; [done|]; intros ->; congruence).
    pose proof (total_move sleeps _ _ _ Looking Hj) as H1.
    pose proof (total_move stirs _ _ _ Looking Hj) as H2.
    pose proof (total_move sleeps _ _ _ (Gone true) Hi') as H3.
    pose proof (total_move stirs _ _ _ (Gone true) Hi') as H4. simpl in *. lia.
  - intros Hpos. exfalso. pose proof (total_move sleeps _ _ _ (Gone true) Hi) as H1. simpl in H1.
    destruct (total_pos sleeps (readers s)) as (j & p & Hj & Hp); [lia|].
    destruct p; simpl in Hp; try lia. by apply (Hno j).
  - pose proof (total_move sleeps _ _ _ Looking Hj) as H1.
    pose proof (total_move stirs _ _ _ Looking Hj) as H2. simpl in *. lia.
Qed.

Lemma reachable_wakeup cores s : reachable false cores s -> no_lost_wakeup s.
Proof.
  revert s. apply rtc_ind_r.
  { intros Hpos. by apply total_pos in Hpos as (i & x & Hi & _). }
  intros s1 s2 Hr Hs. apply step_wakeup; [done|]. by apply (reachable_pool_inv false cores).
Qed.

(** C36: as long as cloning a connection does not fail, no reader is left asleep:
    while one sleeps another reader is reading, looking, making a connection or
    about to notify, and if there is a connection to take, or room to make one,
    someone is on the way to it. *)
Theorem pool_no_lost_wakeup cores s i :
  reachable false cores s -> readers s !! i = Some Asleep ->
  (exists j p, readers s !! j = Some p /\ p <> Asleep /\ (forall ok, p <> Gone ok)) /\
  (idle s <> [] \/ created s < max_of cores ->
   exists j p, readers s !! j = Some p /\ (p = Looking \/ p = Notifying)).
Proof.
  intros Hr Hi. pose proof (reachable_pool_inv _ _ _ Hr) as [[Hc Hb _ _ _ _] Hm].
  pose proof (reachable_wakeup _ _ Hr) as Hw. pose proof (total_in sleeps _ _ _ Hi) as Hs.
  simpl in Hs. specialize (Hw ltac:(lia)).
  assert (Hstir : 0 < total stirs (readers s) ->
    exists j p, readers s !! j = Some p /\ (p = Looking \/ p = Notifying)).
  { intros (j & p & Hj & Hp)%total_pos. exists j, p. destruct p; simpl in Hp; try lia; auto. }
  split.
  - destruct (decide (0 < total stirs (readers s))) as [Hpos|Hz].
    + destruct (Hstir Hpos) as (j & p & Hj & Hp). exists j, p. by destruct Hp as [-> | ->].
    + destruct (total_pos holds (readers s)) as (j & p & Hj & Hp).
      { assert (4 <= max s) by (rewrite Hm; unfold max_of; lia). lia. }
      exists j, p. by destruct p; simpl in Hp; try lia.
  - intros Hor. apply Hstir. destruct Hor as [Hne|Hlt]; [|lia].
    destruct (idle s); [done|]. simpl in Hw. lia.
Qed.

(** Four readers, on the smallest pond, fail to get a connection while a fifth
    waits for one of theirs. *)
Definition asleep_forever : Pool :=
  {| idle := []; created := 0; max := 4; fresh := 0;
     readers := {[0 := Gone false; 1 := Gone false; 2 := Gone false; 3 := Gone false;
                  4 := Asleep]} |}.

Lemma asleep_forever_readers i p :
  readers asleep_forever !! i = Some p -> p = Gone false \/ (p = Asleep /\ i = 4).
Proof.
  unfold asleep_forever. cbn [readers]. rewrite !lookup_insert_Some, lookup_singleton_Some.
  naive_solver.
Qed.

(** when cloning fails the slot is given up without a notification, so a reader
    can be left asleep with no connection open and no one else there: nothing but a
    later reader, or a wake-up out of nowhere, can end its wait. *)
Theorem pool_lost_wakeup :
  reachable true 1 asleep_forever /\
  (forall s', step true asleep_forever s' ->
     (exists i, readers asleep_forever !! i = None /\ s' = at_ i Looking asleep_forever) \/
     s' = at_ 4 Looking asleep_forever).
Proof.
  split.
  - unfold reachable.
    eapply rtc_l; [by apply (arrive _ _ 0)|]. eapply rtc_l; [apply (grow _ _ 0); [reflexivity|reflexivity|vm_compute; lia]|].
    eapply rtc_l; [by apply (arrive _ _ 1)|]. eapply rtc_l; [apply (grow _ _ 1); [reflexivity|reflexivity|vm_compute; lia]|].
    eapply rtc_l; [by apply (arrive _ _ 2)|]. eapply rtc_l; [apply (grow _ _ 2); [reflexivity|reflexivity|vm_compute; lia]|].
    eapply rtc_l; [by apply (arrive _ _ 3)|]. eapply rtc_l; [apply (grow _ _ 3); [reflexivity|reflexivity|vm_compute; lia]|].
    eapply rtc_l; [by apply (arrive _ _ 4)|]. eapply rtc_l; [apply (wait _ _ 4); [reflexivity|reflexivity|vm_compute; lia]|].
    eapply rtc_l; [by apply (clone_failed _ _ 0)|]. eapply rtc_l; [by apply (clone_failed _ _ 1)|].
    eapply rtc_l; [by apply (clone_failed _ _ 2)|]. eapply rtc_l; [by apply (clone_failed _ _ 3)|].
    apply rtc_refl.
  - intros s' Hs. assert (Hno : forall i p, readers asleep_forever !! i = Some p ->
      p <> Asleep -> p <> Gone false -> False).
    { intros i p [->|[-> _]]%asleep_forever_readers; done. }
    destruct Hs as [i Hi|i c rest Hi _|i Hi _ _|i Hi _ _|i Hi|i Hi _|i c Hi|i c Hi|i j Hi _|i Hi _|j Hj];
      try (by destruct (Hno _ _ Hi)).
    + left. by exists i.
    + right. by apply asleep_forever_readers in Hj as [?|[_ ->]].
Qed.
End pool.

Lemma pool_bounded_witness :
  length (ReadPool.idle asleep_forever) = 0 /\ ReadPool.created asleep_forever <= ReadPool.max_of 1.
Proof.
  split; [reflexivity|].
  assert (Hr : ReadPool.reachable true 1 (ReadPool.init 1)) by apply rtc_refl.
  exact (proj1 (proj2 (pool_bounded true 1 (ReadPool.init 1) Hr))).
Defined.

(** Four readers at work and a fifth asleep. *)
Lemma pool_no_lost_wakeup_witness :
  exists s, ReadPool.readers s !! 4 = Some ReadPool.Asleep /\
    exists j p, ReadPool.readers s !! j = Some p /\ p <> ReadPool.Asleep /\
      (forall ok, p <> ReadPool.Gone ok).
Proof.
  assert (Hrun : exists s, ReadPool.reachable false 1 s /\
    ReadPool.readers s !! 4 = Some ReadPool.Asleep).
  { eexists. split.
    - unfold ReadPool.reachable.
      eapply rtc_l; [by apply (ReadPool.arrive _ _ 0)|].
      eapply rtc_l; [apply (ReadPool.grow _ _ 0); [reflexivity|reflexivity|vm_compute; lia]|].
      eapply rtc_l; [by apply (ReadPool.arrive _ _ 1)|].
      eapply rtc_l; [apply (ReadPool.grow _ _ 1); [reflexivity|reflexivity|vm_compute; lia]|].
      eapply rtc_l; [by apply (ReadPool.arrive _ _ 2)|].
      eapply rtc_l; [apply (ReadPool.grow _ _ 2); [reflexivity|reflexivity|vm_compute; lia]|].
      eapply rtc_l; [by apply (ReadPool.arrive _ _ 3)|].
      eapply rtc_l; [apply (ReadPool.grow _ _ 3); [reflexivity|reflexivity|vm_compute; lia]|].
      eapply rtc_l; [by apply (ReadPool.arrive _ _ 4)|].
      eapply rtc_l; [apply (ReadPool.wait _ _ 4); [reflexivity|reflexivity|vm_compute; lia]|].
      apply rtc_refl.
    - reflexivity. }
  destruct Hrun as (s & Hr & Hs). exists s. split; [exact Hs|].
  exact (proj1 (pool_no_lost_wakeup 1 s 4 Hr Hs)).
Defined.
