(* ===== verification/Watcher.v ===== *)
(** * The interrupt watcher

    Models [latiq-engine-duckdb/src/abort.rs] as it is used by [run_with_abort] and
    [write_query] of [duck_engine.rs]: the thread that runs an operation's
    statements, disarms its watcher and may then roll back, beside the watcher and
    whoever cancels the token.  An interrupt is edge-triggered: it reaches the
    statement that runs when it is fired, and none that starts later. *)
From S2P Require Import Prelude.

Module AbortWatcher.
(** The operation's thread: between two statements; in one, hit by an interrupt or
    not; the flag raised, waiting for the watcher to end; past [disarm]; in a
    recovery statement; done with it. *)
Inductive Phase :=
| Between
| Running (hit : bool)
| Joining
| Disarmed
| Recovering (hit : bool)
| Finished (hit : bool).

(** The watcher: at the head of its loop; the flag seen down; about to fire; parked;
    ended. *)
Inductive Watch := Head | Unflagged | Firing | Parked | Ended.

Record State := {
  phase : Phase;
  watch : Watch;
  done_ : bool;
  cancelled : bool;
}.

Definition armed (cancelled : bool) : State :=
  {| phase := Between; watch := Head; done_ := false; cancelled := cancelled |}.

Definition go (p : Phase) (s : State) : State :=
  {| phase := p; watch := watch s; done_ := done_ s; cancelled := cancelled s |}.

Definition look (w : Watch) (s : State) : State :=
  {| phase := phase s; watch := w; done_ := done_ s; cancelled := cancelled s |}.

(** [interrupt()]. *)
Definition interrupt (s : State) : State :=
  match phase s with
  | Running _ => go (Running true) s
  | Recovering _ => go (Recovering true) s
  | _ => s
  end.

(** One turn of the watcher, which is never blocked. *)
Definition watcher (s : State) : State :=
  match watch s with
  | Head => look (if done_ s then Ended else Unflagged) s
  | Unflagged => look (if cancelled s then Firing else Parked) s
  | Firing => look Parked (interrupt s)
  | Parked => look Head s
  | Ended => s
  end.

Definition raise_done (s : State) : State :=
  {| phase := Joining; watch := watch s; done_ := true; cancelled := cancelled s |}.

Definition cancel (s : State) : State :=
  {| phase := phase s; watch := watch s; done_ := done_ s; cancelled := true |}.

Inductive step (s : State) : State -> Prop :=
| step_watch : step s (watcher s)
| step_cancel : step s (cancel s)
| step_begin : phase s = Between -> step s (go (Running false) s)
| step_end hit : phase s = Running hit -> step s (go Between s)
| step_disarm : phase s = Between -> step s (raise_done s)
| step_join : phase s = Joining -> watch s = Ended -> step s (go Disarmed s)
| step_recover : phase s = Disarmed -> step s (go (Recovering false) s)
| step_recovered hit : phase s = Recovering hit -> step s (go (Finished hit) s).

Definition reachable (s : State) : Prop := exists c, rtc step (armed c) s.
End AbortWatcher.

Section abort.
Import AbortWatcher.

Record abort_inv (s : State) : Prop := {
  ai_flag : done_ s = match phase s with Between | Running _ => false | _ => true end;
  ai_ended : watch s = Ended -> done_ s = true;
  ai_joined : match phase s with
              | Disarmed => watch s = Ended
              | Recovering hit | Finished hit => watch s = Ended /\ hit = false
              | _ => True
              end;
}.

Lemma step_abort_inv s s' : step s s' -> abort_inv s -> abort_inv s'.
Proof.
  intros Hs [Hf He Hj].
  destruct Hs as [| |Hp|hit Hp|Hp|Hp Hw|Hp|hit Hp]; destruct s as [p w d c]; cbn in *; subst.
  - destruct w, p as [|h| | |h|h], c; cbn in *; split; cbn; try done; try (by intros [=]);
      try (by destruct Hj); try (by specialize (He eq_refl)).
  - by split.
  - by split.
  - by split.
  - split; cbn; try done.
  - by split.
  - by split.
  - by split.
Qed.

Lemma reachable_abort_inv s : reachable s -> abort_inv s.
Proof.
  intros [c Hr]. revert s Hr. apply rtc_ind_r; [by split|].
  intros s1 s2 _ Hs. by apply step_abort_inv.
Qed.

(** once [disarm] has returned the watcher is over, so the recovery statement is
    never interrupted; and [disarm] does return, within four turns of the watcher. *)
Theorem disarm_is_final s :
  reachable s ->
  (forall hit, phase s = Recovering hit \/ phase s = Finished hit -> hit = false) /\
  (phase s = Disarmed -> watch s = Ended) /\
  (phase s = Joining -> watch (Nat.iter 4 watcher s) = Ended /\
     phase (Nat.iter 4 watcher s) = Joining).
Proof.
  intros [Hf He Hj]%reachable_abort_inv. destruct s as [p w d c]. cbn in *. split_and!.
  - intros hit [-> | ->]; by destruct Hj.
  - by intros ->.
  - intros ->. subst d. by destruct w, c.
Qed.

(** a cancelled statement is interrupted even when it started after the cancel:
    left to run, the watcher hits it within four turns, wherever it was. *)
Theorem cancel_reaches_statement s hit :
  reachable s -> phase s = Running hit -> cancelled s = true ->
  exists n, n <= 4 /\ phase (Nat.iter n watcher s) = Running true.
Proof.
  intros [Hf He Hj]%reachable_abort_inv Hp Hc. destruct s as [p w d c]. cbn in *. subst p c d.
  destruct w.
  - by exists 3; split; [lia|].
  - by exists 2; split; [lia|].
  - by exists 1; split; [lia|].
  - by exists 4; split; [lia|].
  - by specialize (He eq_refl).
Qed.
End abort.

Lemma disarm_is_final_witness :
  AbortWatcher.watch (Nat.iter 4 AbortWatcher.watcher (AbortWatcher.raise_done (AbortWatcher.armed true))) = AbortWatcher.Ended.
Proof.
  assert (Hr : AbortWatcher.reachable (AbortWatcher.raise_done (AbortWatcher.armed true))).
  { exists true. apply rtc_once. by apply AbortWatcher.step_disarm. }
  exact (proj1 (proj2 (proj2 (disarm_is_final _ Hr)) eq_refl)).
Defined.

(** Cancelled before it begins. *)
Lemma cancel_reaches_statement_witness :
  exists n, n <= 4 /\
    AbortWatcher.phase (Nat.iter n AbortWatcher.watcher (AbortWatcher.go (AbortWatcher.Running false) (AbortWatcher.armed true))) =
      AbortWatcher.Running true.
Proof.
  apply (cancel_reaches_statement _ false).
  - exists true. apply rtc_once. by apply AbortWatcher.step_begin.
  - reflexivity.
  - reflexivity.
Defined.
