(* ===== verification/DuckEngine.v ===== *)
(** * The DuckDB engine

    Models [latiq-engine-duckdb/src/duck_engine.rs], the transactions and runs of
    [exec.rs] and the instances of [instance.rs]: the ponds a node keeps open, the
    connections of each, and every statement the adapter sends on them.  DuckDB is
    a third-party library: [DuckDb] is what the adapter asks of it, over a state of
    its own.  Operations run one at a time here; [ReadPool] and [Watcher] are the
    interleavings of the read pool and of the interrupt watcher. *)
From S2P Require Import Prelude Errors Extensions Policy Common Sql Interfaces Ops DuckText Plan ReadPool.
#[local] Open Scope rust_scope.

(** ** DuckDB *)

(** A connection by its number; an error by its text.  [rows_of] and [arrow_of]
    prepare a statement, run it and fetch all of it. *)
Class DuckDb `{!Floats} `{!Arrow} (D : Type) := {
  open_in_memory : D -> result nat string * D;
  try_clone : nat -> D -> result nat string * D;
  close : nat -> D -> D;
  execute_batch : nat -> string -> D -> result unit string * D;
  rows_of : nat -> string ->
    D -> result (list string * list (list Cell.DuckValue)) string * D;
  arrow_of : nat -> string -> D -> result (list string * list record_batch) string * D;
  i64_of : nat -> string -> D -> result (option Z) string * D;
  text_of : nat -> string -> list string -> D -> result (option string) string * D;
  columns_of : nat -> string -> D -> result (list Provenance.Column) string * D;
  (** The interrupt watcher of a connection; whether its token is cancelled. *)
  arm : nat -> bool -> D -> D;
  disarm : nat -> D -> D;
  elapsed_ms : D -> N * D;
}.

(** ** State *)

Module Duck.
#[export] Instance limits_eq_dec : EqDecision Tier.ResourceLimits.
Proof. solve_decision. Defined.

Record PondInstance := { conn : nat; alias : string }.

Record Pond := {
  limits : option Tier.ResourceLimits;
  writer : PondInstance;
  source : PondInstance;
  idle : list PondInstance;
  created : nat;
  max : nat;
}.

(** What was asked of DuckDB, in order; the flag is whether it succeeded. *)
Inductive Event :=
| Opened (c : nat)
| Cloned (c : nat)
| Closed (c : nat)
| Ran (c : nat) (sql : string) (ok : bool)
| Queried (c : nat) (sql : string) (ok : bool)
| Armed (c : nat)
| Disarmed (c : nat).

Section state.
Context `{!Floats} `{!Arrow}.

(** What a sink is given. *)
Inductive Delivery :=
| GotSchema (cols : list string)
| GotBatch (b : record_batch).

(** [ArrowSink]: whether it breaks off, by all it was given. *)
Definition ArrowSink : Type := list Delivery -> bool.

(** [standard_ready] is the process's memo and [version_] the engine's; [delivered]
    is what the sink of the running stream holds. *)
Record Engine (D : Type) := {
  db : D;
  log : list Event;
  standard_ready : option (result unit string);
  ponds : gmap string Pond;
  version_ : option string;
  delivered : list Delivery;
}.
End state.
Arguments db {_ _ D}.
Arguments log {_ _ D}.
Arguments standard_ready {_ _ D}.
Arguments ponds {_ _ D}.
Arguments version_ {_ _ D}.
Arguments delivered {_ _ D}.

Section engine.
Context `{!Floats} `{!Serde} `{!Arrow} {D : Type} `{!DuckDb D}.
(** The cores of the host, if it says. *)
Variable available_parallelism : option N.
Notation M := (M (Engine D)).
Notation MR A := (M (result A EngineError)).

Definition fresh (d : D) : Engine D :=
  {| db := d; log := []; standard_ready := None; ponds := ∅; version_ := None;
     delivered := [] |}.

Definition ask {A} (f : Engine D -> A) : M A := fun e => (f e, e).

Definition update (f : Engine D -> Engine D) : M unit := fun e => (tt, f e).

Definition record (d : D) (ev : list Event) (e : Engine D) : Engine D :=
  {| db := d; log := log e ++ ev; standard_ready := standard_ready e; ponds := ponds e;
     version_ := version_ e; delivered := delivered e |}.

Definition effect {A} (f : D -> A * D) (ev : A -> list Event) : M A :=
  fun e => let (a, d) := f (db e) in (a, record d (ev a) e).

Definition set_ponds (f : gmap string Pond -> gmap string Pond) : M unit :=
  update (fun e =>
    {| db := db e; log := log e; standard_ready := standard_ready e; ponds := f (ponds e);
       version_ := version_ e; delivered := delivered e |}).

Definition set_ready (r : result unit string) : M unit :=
  update (fun e =>
    {| db := db e; log := log e; standard_ready := Some r; ponds := ponds e;
       version_ := version_ e; delivered := delivered e |}).

Definition set_version (v : string) : M unit :=
  update (fun e =>
    {| db := db e; log := log e; standard_ready := standard_ready e; ponds := ponds e;
       version_ := Some v; delivered := delivered e |}).

Definition set_delivered (l : list Delivery) : M unit :=
  update (fun e =>
    {| db := db e; log := log e; standard_ready := standard_ready e; ponds := ponds e;
       version_ := version_ e; delivered := l |}).

Definition opened (r : result nat string) : list Event :=
  match r with Ok c => [Opened c] | Err _ => [] end.
Definition cloned (r : result nat string) : list Event :=
  match r with Ok c => [Cloned c] | Err _ => [] end.

Definition open_ : M (result nat string) := effect open_in_memory opened.
Definition clone_ (c : nat) : M (result nat string) := effect (try_clone c) cloned.
Definition close_ (c : nat) : M unit := effect (fun d => (tt, close c d)) (fun _ => [Closed c]).
Definition batch_ (c : nat) (sql : string) : M (result unit string) :=
  effect (execute_batch c sql) (fun r => [Ran c sql (is_ok r)]).
Definition arm_ (c : nat) (cancelled : bool) : M unit :=
  effect (fun d => (tt, arm c cancelled d)) (fun _ => [Armed c]).
Definition disarm_ (c : nat) : M unit :=
  effect (fun d => (tt, disarm c d)) (fun _ => [Disarmed c]).
Definition query_ {A} (f : nat -> string -> D -> result A string * D) (c : nat) (sql : string) :
    M (result A string) :=
  effect (f c sql) (fun r => [Queried c sql (is_ok r)]).
Definition elapsed_ : M N := effect elapsed_ms (fun _ => []).

(** Calls one sink method. *)
Definition deliver (sink : ArrowSink) (x : Delivery) : M bool :=
  let! l := ask delivered in
  let l := l ++ [x] in
  set_delivered l ;; ret (sink l).

(** A connection dropped when what it was opened for fails. *)
Definition closing {A E} (c : nat) (m : M (result A E)) : M (result A E) :=
  let! r := m in
  match r with
  | Ok a => ret (Ok a)
  | Err x => close_ c ;; ret (Err x)
  end.

(** ** instance.rs *)

Definition engine_error (context m : string) : EngineError := EngineError.Engine (context +:+ m).

(** A statement of the adapter's own: its failure is the adapter's. *)
Definition own (c : nat) (context sql : string) : MR unit :=
  let! r := batch_ c sql in
  ret (map_err (engine_error context) r).

Fixpoint install_all (c : nat) (exts : list string) : M (result unit string) :=
  match exts with
  | [] => ret (Ok tt)
  | ext :: exts =>
      let! r := batch_ c ("INSTALL " +:+ ext +:+ "; LOAD " +:+ ext +:+ ";") in
      match r with
      | Ok _ => install_all c exts
      | Err e => ret (Err ("required extension '" +:+ ext +:+ "': " +:+ e))
      end
  end.

Definition bootstrap : M (result unit string) :=
  try! c := open_ in
  let! r := install_all c Warm.STANDARD_LOAD in
  close_ c ;; ret r.

Definition ensure_standard_extensions : MR unit :=
  let! ready := ask standard_ready in
  match ready with
  | Some r => ret (map_err EngineError.Engine r)
  | None =>
      let! r := bootstrap in
      set_ready r ;; ret (map_err EngineError.Engine r)
  end.

Fixpoint load_all (c : nat) (context : string) (exts : list string) : MR unit :=
  match exts with
  | [] => ret (Ok tt)
  | ext :: exts =>
      let! r := batch_ c ("LOAD " +:+ ext +:+ ";") in
      match r with
      | Ok _ => load_all c context exts
      | Err e => ret (Err (Warm.extension_not_cached ext context e))
      end
  end.

Definition AUTOINSTALL_OFF : string := "SET autoinstall_known_extensions=false;".
Definition TIMEZONE : string := "SET TimeZone='UTC';".
Definition FORCE_DOWNLOAD : string := "SET force_download=true;".
Definition READ_SETTINGS : string := "SET TimeZone='UTC'; SET force_download=true;".

Definition limits_sql (l : Tier.ResourceLimits) : string :=
  "SET memory_limit='" +:+ pretty (Tier.memory_bytes l / (1024 * 1024))%N
  +:+ "MiB'; SET threads=" +:+ pretty (N.max (Tier.cores l) 1) +:+ ";".

Definition attach_sql (loc : Types.PondLocation) : string :=
  "ATTACH '" +:+ Types.catalog_uri loc +:+ "' AS "
  +:+ Quote.quote_ident (Types.catalog_name loc)
  +:+ " (DATA_PATH '" +:+ Types.data_path loc +:+ "');".

Definition use_sql (alias : string) : string := "USE " +:+ alias +:+ ";".

Definition set_limits (c : nat) (l : option Tier.ResourceLimits) : MR unit :=
  match l with
  | Some l => own c "set resource limits: " (limits_sql l)
  | None => ret (Ok tt)
  end.

Definition open_instance (loc : Types.PondLocation) : MR PondInstance :=
  let! r := open_ in
  match r with
  | Err e => ret (Err (EngineError.Engine e))
  | Ok c =>
      closing c
        (try! _ := set_limits c (Types.limits loc) in
         try! _ := own c "disable extension autoinstall: " AUTOINSTALL_OFF in
         try! _ := ensure_standard_extensions in
         try! _ := load_all c "required by every pond on this node" Warm.STANDARD_LOAD in
         try! _ := own c "set timezone: " TIMEZONE in
         try! _ := own c "set force_download: " FORCE_DOWNLOAD in
         try! _ := load_all c "requested by this pond at allocation"
                     (Types.loc_extensions loc) in
         try! _ := own c "attach: " (attach_sql loc) in
         let alias := Quote.quote_ident (Types.catalog_name loc) in
         batch_ c (use_sql alias) ;;
         ret (Ok {| conn := c; alias := alias |}))
  end.

Definition clone_for_read (i : PondInstance) : MR PondInstance :=
  let! r := clone_ (conn i) in
  match r with
  | Err e => ret (Err (engine_error "clone read connection: " e))
  | Ok c =>
      closing c
        (try! _ := own c "read connection settings: " READ_SETTINGS in
         try! _ := own c "read connection USE: " (use_sql (alias i)) in
         ret (Ok {| conn := c; alias := alias i |}))
  end.

(** ** exec.rs: transactions *)

Definition classified {A} (r : result A string) : result A EngineError :=
  map_err ErrClass.classify_message r.

Definition ask_i64 (c : nat) (sql : string) : M (result (option Z) string) := query_ i64_of c sql.

Definition snapshots_sql (cat : string) : string :=
  "SELECT max(snapshot_id) FROM " +:+ cat +:+ ".snapshots()".

Definition max_snapshot (i : PondInstance) (cat : string) : M (option Z) :=
  let! r := ask_i64 (conn i) (snapshots_sql cat) in
  ret (match r with Ok s => s | Err _ => None end).

Definition BEGIN_READ : string := "BEGIN TRANSACTION READ ONLY".
Definition BEGIN : string := "BEGIN".
Definition COMMIT : string := "COMMIT".
Definition ROLLBACK : string := "ROLLBACK".

Definition rollback (i : PondInstance) : M unit := batch_ (conn i) ROLLBACK ;; ret tt.

(** [ReadTxn]: rolled back when dropped, unless the commit succeeded. *)
Definition in_read_txn {A} (i : PondInstance) (f : MR A) : MR A :=
  try! _ := own (conn i) EmptyString BEGIN_READ in
  let! out := f in
  match out with
  | Err e => rollback i ;; ret (Err e)
  | Ok a =>
      let! r := own (conn i) EmptyString COMMIT in
      match r with
      | Ok _ => ret (Ok a)
      | Err e => rollback i ;; ret (Err e)
      end
  end.

(** [Option]'s order: nothing is below a number. *)
Definition advanced (before after : option Z) : option Z :=
  match before, after with
  | Some b, Some a => if (b <? a)%Z then Some a else None
  | None, Some a => Some a
  | _, None => None
  end.

Definition extra_info (identity : Identity.Identity) (trace_id : option string) : Json :=
  Cell.object
    ([("agent_id", Str (Identity.agent_id identity));
      ("issuer", Str (Identity.issuer identity));
      ("verified", Bool (Identity.verified identity))] ++
     match trace_id with Some t => [("trace_id", Str t)] | None => [] end).

Definition author (identity : Identity.Identity) : string :=
  if Identity.verified identity then Identity.subject identity else Identity.agent_id identity.

Definition commit_message (cat op : string) (identity : Identity.Identity)
    (trace_id : option string) : string :=
  "CALL " +:+ cat +:+ ".set_commit_message('" +:+ Attach.esc (author identity) +:+ "', '"
  +:+ Attach.esc op +:+ "', extra_info => '"
  +:+ Attach.esc (to_string (extra_info identity trace_id)) +:+ "')".

Definition in_write_txn {A} (i : PondInstance) (identity : Identity.Identity)
    (trace_id : option string) (catalog op : string) (body : MR A) : MR (A * option Z) :=
  let cat := Quote.quote_ident catalog in
  let! before := max_snapshot i cat in
  try! _ := own (conn i) EmptyString BEGIN in
  let! out := body in
  match out with
  | Err e => rollback i ;; ret (Err e)
  | Ok a =>
      let! called := own (conn i) EmptyString (commit_message cat op identity trace_id) in
      match called with
      | Err e => rollback i ;; ret (Err e)
      | Ok _ =>
          let! committed := own (conn i) EmptyString COMMIT in
          match committed with
          | Err e => rollback i ;; ret (Err e)
          | Ok _ =>
              let! after := max_snapshot i cat in
              ret (Ok (a, advanced before after))
          end
      end
  end.

(** ** exec.rs: runs *)

Definition EMPTY_STATEMENT : EngineError :=
  EngineError.Parse "The statement is empty — there is nothing to run.".

Definition prepared {A} (sql : string) (m : M (result A string)) : MR A :=
  if String.eqb (trim sql) EmptyString then ret (Err EMPTY_STATEMENT)
  else let! r := m in ret (classified r).

Definition to_json (t : list string * list (list Cell.DuckValue)) : list string * list (list Json) :=
  (t.1, map (map Cell.value_to_json) t.2).

Definition materialize (i : PondInstance) (sql : string) :
    MR (list string * list (list Json)) :=
  try! t := prepared sql (query_ rows_of (conn i) sql) in
  ret (Ok (to_json t)).

Definition meta_of (rows ms : N) (snapshot : option Z) : Meta.QueryMeta :=
  {| Meta.rows := rows; Meta.rows_affected := 0; Meta.snapshot_id := snapshot;
     Meta.duration_ms := ms; Meta.timeout_ms := 0; Meta.bytes_scanned := 0;
     Meta.tables_touched := []; Meta.inputs := []; Meta.outputs := []; Meta.warnings := [];
     Meta.hint := None; Meta.served_by := EmptyString; Meta.trace_id := EmptyString;
     Meta.traceparent := EmptyString |}.

Definition run_read (i : PondInstance) (sql : string) : MR QueryResult :=
  if bool_decide (Sql.classify sql = Sql.Write) then ret (Err EngineError.ReadOnlyViolation)
  else
    try! t := materialize i sql in
    let! ms := elapsed_ in
    ret (Ok {| columns := t.1; rows := t.2;
               meta := meta_of (N.of_nat (length t.2)) ms None |}).

(** The batches into the sink; [looks] is what each look at the token saw, none left
    for not cancelled.  The rows counted, or a cancel. *)
Fixpoint feed (sink : ArrowSink) (looks : list bool) (batches : list record_batch) (n : N) :
    MR N :=
  match batches with
  | [] => ret (Ok n)
  | b :: batches =>
      if match looks with look :: _ => look | [] => false end then ret (Err EngineError.Cancelled)
      else
        let n := (n + num_rows b)%N in
        let! stop := deliver sink (GotBatch b) in
        if stop : bool then ret (Ok n) else feed sink (tail looks) batches n
  end.

Definition run_read_arrow (i : PondInstance) (sql : string) (looks : list bool)
    (sink : ArrowSink) : MR Meta.QueryMeta :=
  if bool_decide (Sql.classify sql = Sql.Write) then ret (Err EngineError.ReadOnlyViolation)
  else
    try! t := prepared sql (query_ arrow_of (conn i) sql) in
    let! stop := deliver sink (GotSchema t.1) in
    try! n := (if stop : bool then ret (Ok 0%N) else feed sink looks t.2 0) in
    let! ms := elapsed_ in
    ret (Ok (meta_of n ms None)).

Definition run_write (i : PondInstance) (sql : string) (identity : Identity.Identity)
    (trace_id : option string) (catalog : string) : MR QueryResult :=
  try! t := in_write_txn i identity trace_id catalog "write_query" (materialize i sql) in
  let! ms := elapsed_ in
  match t.2 with
  | Some id => ret (Ok {| columns := []; rows := []; meta := meta_of 0 ms (Some id) |})
  | None =>
      ret (Ok {| columns := t.1.1; rows := t.1.2;
                 meta := meta_of (N.of_nat (length t.1.2)) ms None |})
  end.

Definition plan_sql : string :=
  "SELECT CASE WHEN strlen(p) <= " +:+ pretty Provenance.MAX_PLAN_JSON_BYTES +:+ " THEN p END "
  +:+ "FROM (SELECT json_serialize_plan(?::VARCHAR)::VARCHAR AS p)".

(** The statement is a parameter of the extraction, not part of it. *)
Definition referenced_tables (i : PondInstance) (sql : string) :
    M (list Meta.DatasetRef * list Meta.DatasetRef) :=
  let! r := query_ (fun c q => text_of c q [sql]) (conn i) plan_sql in
  ret (Provenance.referenced_tables r).

Definition annotate_schemas (i : PondInstance) (catalog : string)
    (ds : list Meta.DatasetRef * list Meta.DatasetRef) :
    M (list Meta.DatasetRef * list Meta.DatasetRef) :=
  match Provenance.wanted catalog ds.1 ds.2 with
  | [] => ret ds
  | pairs =>
      let! r := query_ columns_of (conn i) (Provenance.schema_query catalog pairs) in
      ret (Provenance.annotate_schemas catalog (fun _ => r) ds.1 ds.2)
  end.

Definition text_cell (v : Cell.DuckValue) : option string :=
  match v with Cell.VText s => Some s | _ => None end.

Definition explain_cells (i : PondInstance) (sql : string) : MR (list string) :=
  let! r := query_ rows_of (conn i) sql in
  ret (classified (map_ok (fun t => omap text_cell (concat t.2)) r)).

Definition ANALYZE_REFUSED : EngineError :=
  EngineError.Parse
    "EXPLAIN ANALYZE executes the statement; use read_query/write_query to run it".

Definition run_explain (i : PondInstance) (sql : string) : MR Types.ExplainResult :=
  if starts_with "analyze" (to_lowercase (trim_start sql)) then ret (Err ANALYZE_REFUSED)
  else
    let! r := explain_cells i ("EXPLAIN (FORMAT JSON) " +:+ sql) in
    match r with
    | Ok cells => ret (Ok (Explain.explain_result cells true))
    | Err _ =>
        try! cells := explain_cells i ("EXPLAIN " +:+ sql) in
        ret (Ok (Explain.explain_result cells false))
    end.

(** ** duck_engine.rs: ponds and their connections *)

Definition cores_of (l : option Tier.ResourceLimits) : N :=
  match l with
  | Some l => Tier.cores l
  | None => match available_parallelism with Some n => n | None => 4 end
  end.

Definition open_pond (loc : Types.PondLocation) : MR Pond :=
  try! writer := open_instance loc in
  try! source := closing (conn writer) (clone_for_read writer) in
  ret (Ok {| limits := Types.limits loc; writer := writer; source := source; idle := [];
             created := 0; max := ReadPool.max_of (N.to_nat (cores_of (Types.limits loc))) |}).

Fixpoint close_all (l : list PondInstance) : M unit :=
  match l with
  | [] => ret tt
  | i :: l => close_ (conn i) ;; close_all l
  end.

Definition handles (p : Pond) : list PondInstance := writer p :: source p :: idle p.

Definition evict (uri : string) (p : Pond) : M unit :=
  set_ponds (delete uri) ;; close_all (handles p).

Definition open_and_cache (loc : Types.PondLocation) : MR Pond :=
  try! p := open_pond loc in
  set_ponds <[Types.catalog_uri loc := p]> ;; ret (Ok p).

Definition pond (loc : Types.PondLocation) : MR Pond :=
  let! cached := ask (fun e => ponds e !! Types.catalog_uri loc) in
  match cached with
  | Some p =>
      if bool_decide (limits p = Types.limits loc) then ret (Ok p)
      else evict (Types.catalog_uri loc) p ;; open_and_cache loc
  | None => open_and_cache loc
  end.

(** The pool's idle connections and its count. *)
Definition pool (f : list PondInstance -> list PondInstance) (g : nat -> nat) (p : Pond) : Pond :=
  {| limits := limits p; writer := writer p; source := source p; idle := f (idle p);
     created := g (created p); max := max p |}.

Definition on_pool (uri : string) f g : M unit := set_ponds (alter (pool f g) uri).

(** [None]: no connection is idle and no more may be made, so the reader waits. *)
Definition checkout_read (uri : string) (p : Pond) : M (option (result PondInstance EngineError)) :=
  match idle p with
  | i :: _ => on_pool uri (@tail _) id ;; ret (Some (Ok i))
  | [] =>
      if (created p <? max p)%nat then
        on_pool uri id S ;;
        let! r := clone_for_read (source p) in
        match r with
        | Ok i => ret (Some (Ok i))
        | Err e => on_pool uri id Nat.pred ;; ret (Some (Err e))
        end
      else ret None
  end.

Definition give_back (uri : string) (i : PondInstance) (reusable : bool) : M unit :=
  if reusable then on_pool uri (cons i) id
  else on_pool uri id Nat.pred ;; close_ (conn i).

Definition with_read {A} (loc : Types.PondLocation) (f : PondInstance -> MR A) :
    M (option (result A EngineError)) :=
  let! r := pond loc in
  match r with
  | Err e => ret (Some (Err e))
  | Ok p =>
      let! g := checkout_read (Types.catalog_uri loc) p in
      match g with
      | None => ret None
      | Some (Err e) => ret (Some (Err e))
      | Some (Ok i) =>
          let! out := f i in
          give_back (Types.catalog_uri loc) i (is_ok out) ;; ret (Some out)
      end
  end.

(** The writer's lock, by what each look found: the lock free, and if not, the token
    cancelled.  [None]: still queued. *)
Fixpoint lock_writer (polls : list (bool * bool)) : option (result unit EngineError) :=
  match polls with
  | [] => None
  | (true, _) :: _ => Some (Ok tt)
  | (false, true) :: _ => Some (Err EngineError.Cancelled)
  | (false, false) :: polls => lock_writer polls
  end.

(** Uppercase, where it makes an ASCII letter. *)
Definition upper_char (c : string) : string :=
  match list_find (fun p => String.eqb p.1 c)
          [("ß", "SS"); ("ı", "I"); ("ŉ", "ʼN"); ("ſ", "S"); ("ǰ", "J̌"); ("ẖ", "H̱"); ("ẗ", "T̈");
           ("ẘ", "W̊"); ("ẙ", "Y̊"); ("ẚ", "Aʾ"); ("ﬀ", "FF"); ("ﬁ", "FI"); ("ﬂ", "FL");
           ("ﬃ", "FFI"); ("ﬄ", "FFL"); ("ﬅ", "ST"); ("ﬆ", "ST")] with
  | Some (_, (_, u)) => u
  | None =>
      match c with
      | String a EmptyString =>
          if is_lower a then String (ascii_of_N (N_of_ascii a - 32)) EmptyString else c
      | _ => c
      end
  end.

Definition to_uppercase (s : string) : string := str_concat (map upper_char (chars s)).

Definition normalized {A} (r : result A EngineError) : result A EngineError :=
  match r with
  | Err (EngineError.Engine m) =>
      if str_contains "INTERRUPT" (to_uppercase m) then Err EngineError.Cancelled else r
  | _ => r
  end.

Definition run_with_abort {A} (i : PondInstance) (cancelled : bool) (f : MR A) : MR A :=
  arm_ (conn i) cancelled ;;
  let! result := f in
  disarm_ (conn i) ;;
  ret (normalized result).

(** ** duck_engine.rs: the operations *)

Definition Datasets : Type := option (list Meta.DatasetRef * list Meta.DatasetRef).

Definition plan_datasets_of (loc : Types.PondLocation) (i : PondInstance) (sql : string) :
    M Datasets :=
  if Types.loc_lineage loc then let! ds := referenced_tables i sql in ret (Some ds)
  else ret None.

Definition annotate (loc : Types.PondLocation) (i : PondInstance) (ds : Datasets) : M Datasets :=
  match ds with
  | Some ds => let! ds := annotate_schemas i (Types.catalog_name loc) ds in ret (Some ds)
  | None => ret None
  end.

Definition apply_datasets (m : Meta.QueryMeta) (ds : Datasets) : Meta.QueryMeta :=
  match ds with
  | Some (inputs, outputs) => Meta.set_datasets m inputs outputs
  | None => m
  end.

Definition with_meta (f : Meta.QueryMeta -> Meta.QueryMeta) (r : QueryResult) : QueryResult :=
  {| columns := columns r; rows := rows r; meta := f (meta r) |}.

Definition version : M string :=
  let! v := ask version_ in
  match v with
  | Some v => ret v
  | None =>
      let! c := open_ in
      let! v :=
        match c with
        | Err _ => ret EmptyString
        | Ok c =>
            let! r := query_ (fun c q => text_of c q []) c "SELECT version()" in
            close_ c ;; ret (match r with Ok (Some v) => v | _ => EmptyString end)
        end in
      set_version v ;; ret v
  end.

Definition init_pond (loc : Types.PondLocation) : MR unit :=
  try! _ := pond loc in ret (Ok tt).

(** A read of either kind: its datasets and the read itself under one transaction
    and one watcher. *)
Definition bracketed_read {A} (loc : Types.PondLocation) (sql : string) (cancelled : bool)
    (run : PondInstance -> MR A) (apply : Datasets -> A -> A) :
    M (option (result A EngineError)) :=
  if bool_decide (Sql.classify sql = Sql.Write) then
    ret (Some (Err EngineError.ReadOnlyViolation))
  else
    with_read loc (fun i =>
      run_with_abort i cancelled
        (in_read_txn i
           (let! ds := plan_datasets_of loc i sql in
            let! ds := annotate loc i ds in
            try! a := run i in
            ret (Ok (apply ds a))))).

Definition read_query (loc : Types.PondLocation) (sql : string) (cancelled : bool) :
    M (option (result QueryResult EngineError)) :=
  bracketed_read loc sql cancelled (fun i => run_read i sql)
    (fun ds => with_meta (fun m => apply_datasets m ds)).

Definition read_arrow (loc : Types.PondLocation) (sql : string) (cancelled : bool)
    (looks : list bool) (sink : ArrowSink) : M (option (result Meta.QueryMeta EngineError)) :=
  set_delivered [] ;;
  bracketed_read loc sql cancelled (fun i => run_read_arrow i sql looks sink)
    (fun ds m => apply_datasets m ds).

Definition write_query (loc : Types.PondLocation) (sql : string) (identity : Identity.Identity)
    (trace_id : option string) (cancelled : bool) (polls : list (bool * bool)) :
    M (option (result QueryResult EngineError)) :=
  let! r := pond loc in
  match r with
  | Err e => ret (Some (Err e))
  | Ok p =>
      match lock_writer polls with
      | None => ret None
      | Some (Err e) => ret (Some (Err e))
      | Some (Ok _) =>
          let i := writer p in
          let! out :=
            run_with_abort i cancelled
              (let! ds := plan_datasets_of loc i sql in
               try! res := run_write i sql identity trace_id (Types.catalog_name loc) in
               let! ds := annotate loc i ds in
               ret (Ok (with_meta (fun m => apply_datasets m ds) res))) in
          match out with
          | Ok _ => ret (Some out)
          | Err _ => rollback i ;; ret (Some out)
          end
      end
  end.

Definition explain_query (loc : Types.PondLocation) (sql : string) :
    M (option (result Types.ExplainResult EngineError)) :=
  with_read loc (fun i => run_explain i sql).

Definition plan_datasets (loc : Types.PondLocation) (sql : string) :
    M (option (option Meta.QueryMeta)) :=
  if negb (Types.loc_lineage loc) then ret (Some None)
  else
    let! r := with_read loc (fun i => let! ds := referenced_tables i sql in ret (Ok ds)) in
    ret (match r with
         | None => None
         | Some (Err _) => Some None
         | Some (Ok ([], [])) => Some None
         | Some (Ok (inputs, outputs)) => Some (Some (Meta.set_datasets Meta.default inputs outputs))
         end).

Definition open_pond_count : M nat := ask (fun e => size (ponds e)).

Definition forget_pond (loc : Types.PondLocation) : M unit :=
  let! cached := ask (fun e => ponds e !! Types.catalog_uri loc) in
  match cached with
  | Some p => evict (Types.catalog_uri loc) p
  | None => ret tt
  end.

(** A row's cell as a string; its absence, or another type, as none of it. *)
Definition cell_text (r : list Json) (i : nat) : string :=
  from_option id EmptyString (r !! i ≫= as_str).

Definition columns_by_table (cols : list (list Json)) : gmap string (list (string * string)) :=
  foldl (fun m r =>
    let k := cell_text r 0 in
    <[k := from_option id [] (m !! k) ++ [(cell_text r 1, cell_text r 2)]]> m) ∅ cols.

(** A table's columns are taken out of the map by the first row that names it. *)
Fixpoint table_infos (by_table : gmap string (list (string * string)))
    (l : list (list Json)) : list Types.TableInfo :=
  match l with
  | [] => []
  | r :: l =>
      let name := cell_text r 0 in
      {| Types.ti_name := name;
         Types.ti_columns := from_option id [] (by_table !! name);
         Types.ti_row_count_estimate := from_option id 0%N (r !! 1 ≫= as_u64);
         Types.ti_comment := r !! 2 ≫= as_str |} ::
      table_infos (delete name by_table) l
  end.

Definition tables_sql (cat : string) : string :=
  "SELECT table_name AS name, estimated_size AS row_count, comment "
  +:+ "FROM duckdb_tables() WHERE database_name = '" +:+ cat +:+ "'".

Definition columns_sql (cat : string) : string :=
  "SELECT table_name, column_name, data_type FROM duckdb_columns() "
  +:+ "WHERE database_name = '" +:+ cat +:+ "' ORDER BY table_name, column_index".

Definition describe_schema (loc : Types.PondLocation) :
    M (option (result Types.SchemaSummary EngineError)) :=
  let cat := Attach.esc (Types.catalog_name loc) in
  let! r :=
    with_read loc (fun i =>
      try! tables := run_read i (tables_sql cat) in
      try! cols := run_read i (columns_sql cat) in
      ret (Ok (tables, cols))) in
  ret (option_map (map_ok (fun '(res, cols) =>
         {| Types.tables := table_infos (columns_by_table (rows cols)) (rows res) |})) r).

(** *** External catalogs *)

Fixpoint load_plan (c : nat) (l : list (string * string)) : MR unit :=
  match l with
  | [] => ret (Ok tt)
  | (ext, sql) :: l =>
      let! r := batch_ c sql in
      match r with
      | Ok _ => load_plan c l
      | Err e =>
          ret (Err (Warm.extension_not_cached ext
            "required by this catalog type, for the transient attach behind pull_catalog" e))
      end
  end.

(** A statement built from the caller's parameters. *)
Definition callers (c : nat) (sql : string) : MR unit :=
  let! r := batch_ c sql in ret (classified r).

Fixpoint create_secrets (c : nat) (l : list (string * string)) : MR unit :=
  match l with
  | [] => ret (Ok tt)
  | (_, sql) :: l => try! _ := callers c sql in create_secrets c l
  end.

Definition attach_catalog_inner (c : nat) (p : Attach.AttachPlan) : MR unit :=
  try! _ := own c "disable extension autoinstall: " AUTOINSTALL_OFF in
  try! _ := load_plan c (Attach.load p) in
  try! _ := create_secrets c (Attach.secrets p) in
  callers c (Attach.attach p).

Fixpoint run_all (c : nat) (l : list string) : M unit :=
  match l with
  | [] => ret tt
  | s :: l => batch_ c s ;; run_all c l
  end.

Definition teardown_catalog (c : nat) (p : Attach.AttachPlan) : M unit :=
  run_all c (Attach.teardown p).

Definition attach_catalog (c : nat) (p : Attach.AttachPlan) : MR unit :=
  let! r := attach_catalog_inner c p in
  match r with
  | Ok _ => ret (Ok tt)
  | Err e => teardown_catalog c p ;; ret (Err e)
  end.

Definition externalized (p : Attach.AttachPlan) (ds : Datasets) : Datasets :=
  let f := map (Provenance.externalize (Attach.alias p) (Attach.namespace p)) in
  option_map (fun ds => (f ds.1, f ds.2)) ds.

Definition pull_catalog (loc : Types.PondLocation) (catalog_type alias : string)
    (params : gmap string string) (query : string) (identity : Identity.Identity)
    (trace_id : option string) : MR Meta.QueryMeta :=
  try! p := pond loc in
  let i := writer p in
  try! plan := ret (Attach.plan catalog_type alias params) in
  try! _ := attach_catalog (conn i) plan in
  let! ds := plan_datasets_of loc i query in
  let! ran := in_write_txn i identity trace_id (Types.catalog_name loc) "pull_catalog"
                (callers (conn i) query) in
  teardown_catalog (conn i) plan ;;
  match ran with
  | Err e => ret (Err e)
  | Ok (_, snapshot_id) =>
      let! ds := annotate loc i ds in
      ret (Ok (apply_datasets (meta_of 0 0 snapshot_id) (externalized plan ds)))
  end.

Definition catalog_tables_sql (cat : string) : string :=
  "SELECT table_schema, table_name FROM information_schema.tables "
  +:+ "WHERE table_catalog = '" +:+ cat +:+ "' ORDER BY table_schema, table_name".

Definition describe_catalog (loc : Types.PondLocation) (catalog_type alias : string)
    (params : gmap string string) : MR (list (string * string)) :=
  try! p := pond loc in
  let i := writer p in
  try! plan := ret (Attach.plan catalog_type alias params) in
  try! _ := attach_catalog (conn i) plan in
  let! listed := run_read i (catalog_tables_sql (Attach.esc alias)) in
  teardown_catalog (conn i) plan ;;
  ret (map_ok (fun res => map (fun r => (cell_text r 0, cell_text r 1)) (rows res)) listed).

(** ** instance.rs: warming the cache *)

Definition open_warm (dir : option string) (autoinstall : bool) : M (result nat string) :=
  try! c := open_ in
  closing c
    (try! _ := match dir with
               | Some d => batch_ c ("SET extension_directory='" +:+ Attach.esc d +:+ "';")
               | None => ret (Ok tt)
               end in
     try! _ := if autoinstall then ret (Ok tt) else batch_ c AUTOINSTALL_OFF in
     ret (Ok c)).

Fixpoint install_each (c : nat) (exts : list string) (failed : list (string * string)) :
    M (list (string * string)) :=
  match exts with
  | [] => ret failed
  | ext :: exts =>
      let! r := batch_ c ("INSTALL " +:+ ext +:+ ";") in
      install_each c exts
        (match r with Ok _ => failed | Err e => failed ++ [(ext, "INSTALL failed: " +:+ e)] end)
  end.

Fixpoint verify_each (c : nat) (exts : list string) (failed : list (string * string)) :
    M (list (string * string)) :=
  match exts with
  | [] => ret failed
  | ext :: exts =>
      if existsb (fun f => String.eqb f.1 ext) failed then verify_each c exts failed
      else
        let! r := batch_ c ("LOAD " +:+ ext +:+ ";") in
        verify_each c exts
          (match r with
           | Ok _ => failed
           | Err e => failed ++ [(ext, "installed, but will not LOAD offline: " +:+ e)]
           end)
  end.

Definition warm_extension_cache (dir : option string) : M Warm.WarmReport :=
  let attempted := Warm.warmable_extensions in
  let! installer := open_warm dir true in
  match installer with
  | Err e =>
      ret {| Warm.attempted := attempted; Warm.failed := map (fun ext => (ext, e)) attempted |}
  | Ok c =>
      let! failed := install_each c attempted [] in
      let! verifier := open_warm dir false in
      let! failed :=
        match verifier with
        | Ok v =>
            let! failed := verify_each v attempted failed in
            close_ v ;; ret failed
        | Err e => ret (failed ++ [("<verify>", "could not open a verify connection: " +:+ e)])
        end in
      close_ c ;;
      ret {| Warm.attempted := attempted; Warm.failed := failed |}
  end.

(** ** The engine behind the trait *)

(** A call that would wait has no answer; none waits when calls come one at a time. *)
Definition served {A} (r : option A) : Join A :=
  match r with Some a => Ok a | None => Err "waiting for a connection" end.

Definition produced (l : list Delivery) : Produced :=
  {| sent_schema := head (omap (fun x => match x with GotSchema s => Some s | _ => None end) l);
     sent_batches := omap (fun x => match x with GotBatch b => Some b | _ => None end) l |}.

(** The sink takes all it is given, the writer's lock is free, and the token is as it
    was when the call started. *)
#[export] Instance duck_engine : QueryEngine (Engine D) := {|
  en_init_pond loc e := let (r, e) := init_pond loc e in (Ok r, e);
  en_read_query loc sql cancelled e :=
    let (r, e) := read_query loc sql cancelled e in (served r, e);
  en_write_query loc sql identity trace cancelled e :=
    let (r, e) := write_query loc sql identity trace cancelled [(true, cancelled)] e in
    (served r, e);
  en_read_arrow loc sql cancelled e :=
    let (r, e) := read_arrow loc sql cancelled [cancelled] (fun _ => false) e in
    ((produced (delivered e), served r), e);
  en_explain_query loc sql e := let (r, e) := explain_query loc sql e in (served r, e);
  en_plan_datasets loc sql e := let (r, e) := plan_datasets loc sql e in (from_option id None r, e);
  en_describe_schema loc e := let (r, e) := describe_schema loc e in (served r, e);
  en_pull_catalog loc ty alias params query identity trace e :=
    let (r, e) := pull_catalog loc ty alias params query identity trace e in (Ok r, e);
  en_describe_catalog loc ty alias params e :=
    let (r, e) := describe_catalog loc ty alias params e in (Ok r, e);
  en_forget_pond loc e := (forget_pond loc e).2;
|}.
End engine.
End Duck.
