(* ===== verification/DuckEngineLaws.v ===== *)
(** * Reasoning about the engine's runs

    What is relied on of DuckDB ([DuckLaws]), and how a property of single calls
    carries over to the adapter's compound ones: [rel R m] says that every run of
    [m] is a step of the preorder [R], [OnConn] and [Lib] that the calls are. *)
From S2P Require Import Prelude Errors Extensions Policy Common Registry Sql Interfaces Ops DuckText Plan ReadPool DuckEngine.
Import Duck.
#[local] Open Scope rust_scope.
#[local] Arguments String.append !_ _ / : simpl nomatch.

Create HintDb engine discriminated.

(** ** Relations over runs *)

Section rel.
Context {W : Type} (R : W -> W -> Prop) `{!PreOrder R}.

(** Every run of [m] is a step of [R]. *)
Definition rel {A} (m : Ops.M W A) : Prop := forall e, R e (m e).2.

Lemma rel_ret {A} (a : A) : rel (ret a).
Proof. intros e. simpl. reflexivity. Qed.

Lemma rel_bind {A B} (m : Ops.M W A) (k : A -> Ops.M W B) :
  rel m -> (forall a, rel (k a)) -> rel (bind m k).
Proof.
  intros Hm Hk e. unfold bind. specialize (Hm e). destruct (m e) as [a e'].
  etrans; [exact Hm|apply Hk].
Qed.

Lemma rel_try {A B E} (m : Ops.M W (result A E)) (k : A -> Ops.M W (result B E)) :
  rel m -> (forall a, rel (k a)) -> rel (try m k).
Proof. intros Hm Hk. apply rel_bind; [done|]. intros [a|x]; [apply Hk|apply rel_ret]. Qed.
End rel.

#[export] Hint Resolve rel_ret rel_bind rel_try : engine.

(** An invariant, as a relation. *)
Definition pres {W} (I : W -> Prop) (e e' : W) : Prop := I e -> I e'.

#[export] Instance pres_preorder {W} (I : W -> Prop) : PreOrder (pres I).
Proof. split; unfold pres; [by intros e|]. intros e1 e2 e3 H1 H2 HI. by apply H2, H1. Qed.

(** From [P], [m] answers and leaves what [Q] says. *)
Definition hoare {W A} (P : W -> Prop) (m : Ops.M W A) (Q : A -> W -> Prop) : Prop :=
  forall e, P e -> Q (m e).1 (m e).2.

Lemma hoare_ret {W A} (P : W -> Prop) (a : A) (Q : A -> W -> Prop) :
  (forall e, P e -> Q a e) -> hoare P (ret a) Q.
Proof. intros Hq e He. by apply Hq. Qed.

Lemma hoare_bind {W A B} (P : W -> Prop) (m : Ops.M W A) (k : A -> Ops.M W B) Q S :
  hoare P m Q -> (forall a, hoare (Q a) (k a) S) -> hoare P (bind m k) S.
Proof.
  intros Hm Hk e He. specialize (Hm e He). unfold bind. destruct (m e) as [a e'].
  by apply Hk.
Qed.

Lemma hoare_try {W A B E} (P : W -> Prop) (m : Ops.M W (result A E))
    (k : A -> Ops.M W (result B E)) Q S :
  hoare P m Q -> (forall a, hoare (Q (Ok a)) (k a) S) ->
  (forall x e, Q (Err x) e -> S (Err x) e) -> hoare P (try m k) S.
Proof.
  intros Hm Hk Hx. apply (hoare_bind _ _ _ Q); [done|].
  intros [a|x]; [apply Hk|apply hoare_ret, Hx].
Qed.

Lemma hoare_conseq {W A} (P P' : W -> Prop) (m : Ops.M W A) (Q Q' : A -> W -> Prop) :
  hoare P' m Q' -> (forall e, P e -> P' e) -> (forall a e, Q' a e -> Q a e) -> hoare P m Q.
Proof. intros Hm Hp Hq e He. by apply Hq, Hm, Hp. Qed.

Lemma hoare_rel {W A} (I : W -> Prop) (m : Ops.M W A) :
  rel (pres I) m -> hoare I m (fun _ => I).
Proof. intros Hm e He. by apply (Hm e). Qed.

Section engine.
Context `{!Floats} `{!Serde} `{!Arrow} {D : Type} `{!DuckDb D}.
Context (available_parallelism : option N).
Notation Engine := (Engine D).

Lemma hoare_ask {A B} (P : Engine -> Prop) (f : Engine -> A) (k : A -> Ops.M Engine B) S :
  (forall a, hoare (fun e => P e /\ f e = a) (k a) S) -> hoare P (bind (ask f) k) S.
Proof. intros Hk e He. unfold bind, ask. by apply Hk. Qed.

(** ** Runs on a connection *)

(** [R] holds over every statement of [ok] on [c]: those executed, those queried. *)
Class OnBatch (R : Engine -> Engine -> Prop) (ok : string -> Prop) (c : nat) : Prop := {
  on_batch s : ok s -> rel R (batch_ c s);
}.

Class OnQuery (R : Engine -> Engine -> Prop) (ok : string -> Prop) (c : nat) : Prop := {
  on_rows s : ok s -> rel R (query_ rows_of c s);
  on_arrow s : ok s -> rel R (query_ arrow_of c s);
  on_i64 s : ok s -> rel R (query_ i64_of c s);
  on_text s p : ok s -> rel R (query_ (fun c q => text_of c q p) c s);
  on_columns s : ok s -> rel R (query_ columns_of c s);
  on_elapsed : rel R elapsed_;
  on_deliver sink x : rel R (deliver sink x);
}.

Class OnConn (R : Engine -> Engine -> Prop) (ok : string -> Prop) (c : nat) : Prop := {
  on_conn_batch :: OnBatch R ok c;
  on_conn_query :: OnQuery R ok c;
}.

Section onconn.
Context (R : Engine -> Engine -> Prop) `{!PreOrder R} (ok : string -> Prop) (i : PondInstance).
Context `{!OnBatch R ok (conn i)} `{!OnQuery R ok (conn i)}.

Lemma rel_own context s : ok s -> rel R (own (conn i) context s).
Proof. intros Hs. apply rel_bind; [done|by apply (on_batch (ok := ok))|]. auto with engine. Qed.

Lemma rel_callers s : ok s -> rel R (callers (conn i) s).
Proof. intros Hs. apply rel_bind; [done|by apply (on_batch (ok := ok))|]. auto with engine. Qed.

Lemma rel_rollback : ok ROLLBACK -> rel R (rollback i).
Proof. intros Hs. apply rel_bind; [done|by apply (on_batch (ok := ok))|]. auto with engine. Qed.

Lemma rel_in_read_txn {A} (f : Ops.M Engine (result A EngineError)) :
  ok BEGIN_READ -> ok COMMIT -> ok ROLLBACK -> rel R f -> rel R (in_read_txn i f).
Proof.
  intros Hb Hc Hr Hf. apply rel_try; [done|by apply rel_own|]. intros _.
  apply rel_bind; [done|done|]. intros [a|e].
  - apply rel_bind; [done|by apply rel_own|].
    intros [u|e]; [by auto with engine|].
    apply rel_bind; [done|by apply rel_rollback|]. by auto with engine.
  - apply rel_bind; [done|by apply rel_rollback|]. by auto with engine.
Qed.

Lemma rel_max_snapshot cat : ok (snapshots_sql cat) -> rel R (max_snapshot i cat).
Proof. intros Hs. apply rel_bind; [done|by apply (on_i64 (ok := ok))|]. by auto with engine. Qed.

Lemma rel_in_write_txn {A} identity trace catalog op (body : Ops.M Engine (result A EngineError)) :
  ok (snapshots_sql (Quote.quote_ident catalog)) -> ok BEGIN -> ok COMMIT -> ok ROLLBACK ->
  ok (commit_message (Quote.quote_ident catalog) op identity trace) -> rel R body ->
  rel R (in_write_txn i identity trace catalog op body).
Proof.
  intros Hs Hb Hc Hr Hm Hf.
  assert (Hroll : forall e, rel R (rollback i ;; ret (Err e : result (A * option Z) EngineError))).
  { intros e. apply rel_bind; [done|by apply rel_rollback|]. by auto with engine. }
  apply rel_bind; [done|by apply rel_max_snapshot|]. intros before.
  apply rel_try; [done|by apply rel_own|]. intros _.
  apply rel_bind; [done|done|]. intros [a|e]; [|apply Hroll].
  apply rel_bind; [done|by apply rel_own|]. intros [u|e]; [|apply Hroll].
  apply rel_bind; [done|by apply rel_own|]. intros [u'|e]; [|apply Hroll].
  apply rel_bind; [done|by apply rel_max_snapshot|]. by auto with engine.
Qed.

Lemma rel_materialize sql : ok sql -> rel R (materialize i sql).
Proof.
  intros Hs. apply rel_try; [done| |by auto with engine]. unfold prepared.
  destruct (String.eqb _ _); [by apply rel_ret|].
  apply rel_bind; [done|by apply (on_rows (ok := ok))|]. by auto with engine.
Qed.

Lemma rel_run_read sql : ok sql -> rel R (run_read i sql).
Proof.
  intros Hs. unfold run_read. destruct (bool_decide _); [by apply rel_ret|].
  apply rel_try; [done|by apply rel_materialize|]. intros t.
  apply rel_bind; [done|apply (on_elapsed (ok := ok) (c := conn i))|]. by auto with engine.
Qed.

Lemma rel_feed sink looks l n : rel R (feed sink looks l n).
Proof.
  revert looks n. induction l as [|b l IH]; intros looks n; simpl; [by apply rel_ret|].
  destruct (match looks with [] => _ | _ => _ end); [by apply rel_ret|].
  apply rel_bind; [done|apply (on_deliver (ok := ok) (c := conn i))|].
  intros [|]; [by apply rel_ret|apply IH].
Qed.

Lemma rel_run_read_arrow sql looks sink : ok sql -> rel R (run_read_arrow i sql looks sink).
Proof.
  intros Hs. unfold run_read_arrow. destruct (bool_decide _); [by apply rel_ret|].
  apply rel_try; [done| |].
  - unfold prepared. destruct (String.eqb _ _); [by apply rel_ret|].
    apply rel_bind; [done|by apply (on_arrow (ok := ok))|]. by auto with engine.
  - intros t. apply rel_bind; [done|apply (on_deliver (ok := ok) (c := conn i))|]. intros stop.
    apply rel_try; [done|by destruct stop; [apply rel_ret|apply rel_feed]|]. intros n.
    apply rel_bind; [done|apply (on_elapsed (ok := ok) (c := conn i))|]. by auto with engine.
Qed.

Lemma rel_run_write sql identity trace catalog :
  ok (snapshots_sql (Quote.quote_ident catalog)) -> ok BEGIN -> ok COMMIT -> ok ROLLBACK ->
  ok (commit_message (Quote.quote_ident catalog) "write_query" identity trace) -> ok sql ->
  rel R (run_write i sql identity trace catalog).
Proof.
  intros Hs Hb Hc Hr Hm Hq.
  apply rel_try; [done|by apply rel_in_write_txn; [..|apply rel_materialize]|]. intros t.
  apply rel_bind; [done|apply (on_elapsed (ok := ok) (c := conn i))|].
  intros ms. destruct t.2; by apply rel_ret.
Qed.

Lemma rel_plan_datasets_of loc sql : ok plan_sql -> rel R (plan_datasets_of loc i sql).
Proof.
  intros Hs. unfold plan_datasets_of. destruct (Types.loc_lineage loc); [|by apply rel_ret].
  apply rel_bind; [done| |by auto with engine]. unfold referenced_tables.
  apply rel_bind; [done|by apply (on_text (ok := ok))|]. by auto with engine.
Qed.

Lemma rel_annotate loc ds :
  (forall pairs, ok (Provenance.schema_query (Types.catalog_name loc) pairs)) ->
  rel R (annotate loc i ds).
Proof.
  intros Hs. unfold annotate. destruct ds as [ds|]; [|by apply rel_ret].
  apply rel_bind; [done| |by auto with engine]. unfold annotate_schemas.
  destruct (Provenance.wanted _ _ _); [by apply rel_ret|].
  apply rel_bind; [done|by apply (on_columns (ok := ok))|]. by auto with engine.
Qed.

Lemma rel_explain_cells sql : ok sql -> rel R (explain_cells i sql).
Proof.
  intros Hs. apply rel_bind; [done|by apply (on_rows (ok := ok))|]. by auto with engine.
Qed.

Lemma rel_run_explain sql :
  ok ("EXPLAIN (FORMAT JSON) " +:+ sql) -> ok ("EXPLAIN " +:+ sql) -> rel R (run_explain i sql).
Proof.
  intros Hj Ht. unfold run_explain. destruct (starts_with _ _); [by apply rel_ret|].
  apply rel_bind; [done|by apply rel_explain_cells|]. intros [cells|e]; [by apply rel_ret|].
  apply rel_try; [done|by apply rel_explain_cells|]. by auto with engine.
Qed.

Lemma rel_run_all l : Forall ok l -> rel R (run_all (conn i) l).
Proof.
  induction 1 as [|s l Hs _ IH]; simpl; [by apply rel_ret|].
  apply rel_bind; [done|by apply (on_batch (ok := ok))|done].
Qed.

Lemma rel_attach_catalog p :
  ok AUTOINSTALL_OFF -> Forall ok (map snd (Attach.load p)) ->
  Forall ok (map snd (Attach.secrets p)) -> ok (Attach.attach p) -> Forall ok (Attach.teardown p) ->
  rel R (attach_catalog (conn i) p).
Proof.
  intros Hoff Hl Hs Ha Ht. apply rel_bind; [done| |].
  - apply rel_try; [done|by apply rel_own|]. intros _. apply rel_try; [done| |].
    + induction (Attach.load p) as [|[ext s] l IH]; [by apply rel_ret|].
      inversion_clear Hl. apply rel_bind; [done|by apply (on_batch (ok := ok))|].
      intros [u|e]; [by apply IH|by apply rel_ret].
    + intros _. apply rel_try; [done| |by intros _; apply rel_callers].
      induction (Attach.secrets p) as [|[n s] l IH]; [by apply rel_ret|].
      inversion_clear Hs. apply rel_try; [done|by apply rel_callers|]. intros _. by apply IH.
  - intros [u|e]; [by apply rel_ret|].
    apply rel_bind; [done|by apply rel_run_all|]. by auto with engine.
Qed.
End onconn.

(** ** Runs that open and close connections *)

(** [R] holds over every statement of [ok], and over the life of connections. *)
Class Lib (R : Engine -> Engine -> Prop) (ok : string -> Prop) : Prop := {
  lib_batch c :: OnBatch R ok c;
  lib_open : rel R open_;
  lib_clone c : rel R (clone_ c);
  lib_close c : rel R (close_ c);
  lib_ready r : rel R (set_ready r);
}.

Section lib.
Context (R : Engine -> Engine -> Prop) `{!PreOrder R} (ok : string -> Prop) `{!Lib R ok}.

Lemma rel_closing {A E} c (m : Ops.M Engine (result A E)) : rel R m -> rel R (closing c m).
Proof.
  intros Hm. apply rel_bind; [done|done|]. intros [a|e]; [by apply rel_ret|].
  apply rel_bind; [done|apply (lib_close (ok := ok))|]. by auto with engine.
Qed.

Lemma rel_own_c c context s : ok s -> rel R (own c context s).
Proof. intros Hs. by apply (rel_own R ok {| conn := c; alias := EmptyString |}). Qed.

Lemma rel_ensure :
  Forall (fun x => ok ("INSTALL " +:+ x +:+ "; LOAD " +:+ x +:+ ";")) Warm.STANDARD_LOAD ->
  rel R ensure_standard_extensions.
Proof.
  intros Hall. unfold ensure_standard_extensions.
  apply rel_bind; [done|by intros e|]. intros [r|]; [by apply rel_ret|].
  apply rel_bind; [done| |].
  - apply rel_try; [done|apply (lib_open (ok := ok))|]. intros c.
    apply rel_bind; [done| |].
    + induction Hall as [|x l Hx _ IH]; simpl; [by apply rel_ret|].
      apply rel_bind; [done|by apply (on_batch (ok := ok))|].
      intros [u|e]; [apply IH|by apply rel_ret].
    + intros r. apply rel_bind; [done|apply (lib_close (ok := ok))|]. by auto with engine.
  - intros r. apply rel_bind; [done|apply (lib_ready (ok := ok))|]. by auto with engine.
Qed.

Lemma rel_load_all c context exts :
  Forall (fun x => ok ("LOAD " +:+ x +:+ ";")) exts -> rel R (load_all c context exts).
Proof.
  induction 1 as [|x l Hx _ IH]; simpl; [by apply rel_ret|].
  apply rel_bind; [done|by apply (on_batch (ok := ok))|]. intros [u|e]; [apply IH|by apply rel_ret].
Qed.

(** What [open_instance] and [clone_for_read] send on their own connection. *)
Record opens (loc : Types.PondLocation) : Prop := {
  opens_limits l : Types.limits loc = Some l -> ok (limits_sql l);
  opens_off : ok AUTOINSTALL_OFF;
  opens_standard : Forall (fun x => ok ("LOAD " +:+ x +:+ ";")) Warm.STANDARD_LOAD;
  opens_timezone : ok TIMEZONE;
  opens_download : ok FORCE_DOWNLOAD;
  opens_extensions : Forall (fun x => ok ("LOAD " +:+ x +:+ ";")) (Types.loc_extensions loc);
  opens_attach : ok (attach_sql loc);
  opens_use : ok (use_sql (Quote.quote_ident (Types.catalog_name loc)));
  opens_settings : ok READ_SETTINGS;
}.

Lemma rel_open_instance loc :
  rel R ensure_standard_extensions -> opens loc -> rel R (open_instance loc).
Proof.
  intros He [? ? ? ? ? ? ? ? ?]. apply rel_bind; [done|apply (lib_open (ok := ok))|].
  intros [c|e]; [|by apply rel_ret]. apply rel_closing.
  repeat first
    [ apply rel_try; [done| |intros _]
    | by apply rel_own_c | by apply rel_load_all | done ].
  - destruct (Types.limits loc) as [l|]; simpl; [apply rel_own_c; eauto|by apply rel_ret].
  - apply rel_bind; [done|by apply (on_batch (ok := ok))|]. by auto with engine.
Qed.

Lemma rel_clone_for_read i :
  ok READ_SETTINGS -> ok (use_sql (alias i)) -> rel R (clone_for_read i).
Proof.
  intros Hs Hu. apply rel_bind; [done|apply (lib_clone (ok := ok))|].
  intros [c|e]; [|by apply rel_ret]. apply rel_closing.
  apply rel_try; [done|by apply rel_own_c|]. intros _.
  apply rel_try; [done|by apply rel_own_c|]. by auto with engine.
Qed.

Lemma rel_close_all l : rel R (close_all l).
Proof.
  induction l as [|i l IH]; simpl; [by apply rel_ret|].
  apply rel_bind; [done|apply (lib_close (ok := ok))|done].
Qed.

(** *** Ponds and their connections *)

Context (Hponds : forall f, rel R (set_ponds f)) (Huse : forall a, ok (use_sql a)).
Context (Hready : rel R ensure_standard_extensions).

Lemma rel_open_and_cache loc : opens loc -> rel R (open_and_cache available_parallelism loc).
Proof.
  intros Hloc. apply rel_try; [done| |].
  - apply rel_try; [done|by apply rel_open_instance|]. intros w.
    apply rel_try; [done|apply rel_closing, rel_clone_for_read; [apply Hloc|apply Huse]|].
    intros s. by apply rel_ret.
  - intros p. apply rel_bind; [done|apply Hponds|]. intros u. by apply rel_ret.
Qed.

Lemma rel_pond loc : opens loc -> rel R (pond available_parallelism loc).
Proof.
  intros Hloc. apply rel_bind; [done|by intros e|].
  intros [p|]; [|by apply rel_open_and_cache].
  destruct (bool_decide _); [by apply rel_ret|].
  apply rel_bind; [done| |intros u; by apply rel_open_and_cache].
  apply rel_bind; [done|apply Hponds|]. intros u. apply rel_close_all.
Qed.

Lemma rel_checkout uri p : ok READ_SETTINGS -> rel R (checkout_read uri p).
Proof.
  intros Hs. unfold checkout_read. destruct (idle p) as [|i l].
  - destruct (_ <? _)%nat; [|by apply rel_ret].
    apply rel_bind; [done|apply Hponds|]. intros u.
    apply rel_bind; [done|by apply rel_clone_for_read|].
    intros [i|x]; [by apply rel_ret|].
    apply rel_bind; [done|apply Hponds|]. intros u'. by apply rel_ret.
  - apply rel_bind; [done|apply Hponds|]. intros u'. by apply rel_ret.
Qed.

Lemma rel_with_read {A} loc (f : PondInstance -> Ops.M Engine (result A EngineError)) :
  opens loc -> (forall i, rel R (f i)) -> rel R (with_read available_parallelism loc f).
Proof.
  intros Hloc Hf. apply rel_bind; [done|by apply rel_pond|]. intros [p|x]; [|by apply rel_ret].
  apply rel_bind; [done|apply rel_checkout, Hloc|].
  intros [[i|x]|]; [|by apply rel_ret..].
  apply rel_bind; [done|apply Hf|]. intros out. apply rel_bind; [done| |intros u; by apply rel_ret].
  unfold give_back. destruct (is_ok out); [apply Hponds|].
  apply rel_bind; [done|apply Hponds|]. intros u. apply (lib_close (ok := ok)).
Qed.
End lib.
End engine.

(** ** What is relied on of DuckDB *)

(** The adapter's own statements that neither begin nor end a transaction. *)
Inductive Framing : string -> Prop :=
| framing_setting s : s ∈ [AUTOINSTALL_OFF; TIMEZONE; FORCE_DOWNLOAD; READ_SETTINGS] -> Framing s
| framing_limits l : Framing (limits_sql l)
| framing_install x : x ∈ Warm.STANDARD_LOAD ->
    Framing ("INSTALL " +:+ x +:+ "; LOAD " +:+ x +:+ ";")
| framing_load x : Ops.is_ident x = true -> Framing ("LOAD " +:+ x +:+ ";")
| framing_use n : Framing (use_sql (Quote.quote_ident n))
| framing_attach loc :
    no_byte "'" (Types.catalog_uri loc) -> no_byte "'" (Types.data_path loc) ->
    Framing (attach_sql loc)
| framing_catalog ty alias params p s :
    Ops.is_ident alias = true -> Attach.plan ty alias params = Ok p ->
    s ∈ Attach.attach p :: Attach.teardown p ++ map snd (Attach.secrets p) -> Framing s
| framing_snapshots n : Framing (snapshots_sql (Quote.quote_ident n))
| framing_plan : Framing plan_sql
| framing_schema cat pairs : Framing (Provenance.schema_query cat pairs)
| framing_tables n : Framing (tables_sql (Attach.esc n))
| framing_columns n : Framing (columns_sql (Attach.esc n))
| framing_catalog_tables n : Framing (catalog_tables_sql (Attach.esc n))
| framing_version : Framing "SELECT version()"
| framing_explain sql : no_byte ";" sql -> Framing ("EXPLAIN (FORMAT JSON) " +:+ sql)
| framing_explain_text sql : no_byte ";" sql -> Framing ("EXPLAIN " +:+ sql).

(** Whether a connection has a transaction open, and an armed watcher. *)
Class Observed (D : Type) := {
  in_txn : nat -> D -> bool;
  watched : nat -> D -> bool;
}.

Section observed.
Context {D : Type} `{!Observed D}.

Definition unmoved (d d' : D) : Prop :=
  forall c, in_txn c d' = in_txn c d /\ watched c d' = watched c d.
Definition others (c : nat) (d d' : D) : Prop :=
  forall c', c' <> c -> in_txn c' d' = in_txn c' d /\ watched c' d' = watched c' d.
(** A statement's effect: on its own connection's transaction only. *)
Definition touch (c : nat) (d d' : D) : Prop := others c d d' /\ watched c d' = watched c d.
Definition reset (c : nat) (d d' : D) : Prop :=
  others c d d' /\ in_txn c d' = false /\ watched c d' = false.

(** No connection is in a transaction or watched; none but [c]. *)
Definition quiet (d : D) : Prop := forall c, in_txn c d = false /\ watched c d = false.
Definition busy (c : nat) (d : D) : Prop :=
  forall c', c' <> c -> in_txn c' d = false /\ watched c' d = false.
End observed.

Class DuckLaws `{!Floats} `{!Arrow} (D : Type) `{!DuckDb D} := {
  law_observed :: Observed D;
  law_batch c s d : touch c d (execute_batch c s d).2;
  law_rows c s d : touch c d (rows_of c s d).2;
  law_arrow c s d : touch c d (arrow_of c s d).2;
  law_i64 c s d : touch c d (i64_of c s d).2;
  law_text c s p d : touch c d (text_of c s p d).2;
  law_columns c s d : touch c d (columns_of c s d).2;
  law_framing_batch c s d : Framing s -> unmoved d (execute_batch c s d).2;
  law_framing_rows c s d : Framing s -> unmoved d (rows_of c s d).2;
  law_framing_arrow c s d : Framing s -> unmoved d (arrow_of c s d).2;
  law_framing_i64 c s d : Framing s -> unmoved d (i64_of c s d).2;
  law_framing_text c s p d : Framing s -> unmoved d (text_of c s p d).2;
  law_framing_columns c s d : Framing s -> unmoved d (columns_of c s d).2;
  law_begin c s d : s ∈ [BEGIN; BEGIN_READ] ->
    is_ok (execute_batch c s d).1 = false -> unmoved d (execute_batch c s d).2;
  law_commit c d : is_ok (execute_batch c COMMIT d).1 = true ->
    in_txn c (execute_batch c COMMIT d).2 = false;
  law_rollback c d : watched c d = false -> in_txn c (execute_batch c ROLLBACK d).2 = false;
  law_open d :
    match (open_in_memory d).1 with
    | Ok c => reset c d (open_in_memory d).2
    | Err _ => unmoved d (open_in_memory d).2
    end;
  law_clone i d :
    match (try_clone i d).1 with
    | Ok c => reset c d (try_clone i d).2
    | Err _ => unmoved d (try_clone i d).2
    end;
  law_close c d : reset c d (close c d);
  law_arm c b d : others c d (arm c b d) /\ in_txn c (arm c b d) = in_txn c d;
  law_disarm c d : others c d (disarm c d) /\ in_txn c (disarm c d) = in_txn c d /\
    watched c (disarm c d) = false;
  law_elapsed d : unmoved d (elapsed_ms d).2;
}.

Section laws.
Context `{!Floats} `{!Serde} `{!Arrow} {D : Type} `{!DuckDb D} `{!DuckLaws D}.
Context (available_parallelism : option N).
Notation Engine := (Engine D).
Notation MR A := (M Engine (result A EngineError)).

#[export] Instance unmoved_preorder : PreOrder (unmoved (D := D)).
Proof.
  split; [by intros d c|]. intros d1 d2 d3 Ha Hb c.
  destruct (Hb c) as [-> ->]. apply Ha.
Qed.

#[export] Instance touch_preorder c : PreOrder (touch (D := D) c).
Proof.
  split; [by split; [intros c'|]|]. intros d1 d2 d3 [Ha Hwa] [Hb Hwb]. split; [|congruence].
  intros c' Hc. destruct (Hb c' Hc) as [-> ->]. by apply Ha.
Qed.

Lemma unmoved_touch c (d d' : D) : unmoved d d' -> touch c d d'.
Proof. intros Hu. split; [intros c' _|]; apply Hu. Qed.

Lemma touch_busy c (d d' : D) : touch c d d' -> busy c d -> busy c d'.
Proof. intros [Ho _] Hb c' Hc. destruct (Ho c' Hc) as [-> ->]. by apply Hb. Qed.

Lemma others_busy c (d d' : D) : others c d d' -> busy c d -> busy c d'.
Proof. intros Ho Hb c' Hc. destruct (Ho c' Hc) as [-> ->]. by apply Hb. Qed.

Lemma quiet_busy c (d : D) : quiet d -> busy c d.
Proof. intros Hq c' _. apply Hq. Qed.

Lemma busy_quiet c (d : D) : busy c d -> in_txn c d = false -> watched c d = false -> quiet d.
Proof. intros Hb Hi Hw c'. destruct (decide (c' = c)) as [->|]; [done|by apply Hb]. Qed.

Lemma reset_quiet c (d d' : D) : reset c d d' -> busy c d -> quiet d'.
Proof. intros (Ho & Hi & Hw) Hb. by apply (busy_quiet c); [eapply others_busy|..]. Qed.

Lemma unmoved_quiet (d d' : D) : unmoved d d' -> quiet d -> quiet d'.
Proof. intros Hu Hq c. destruct (Hu c) as [-> ->]. apply Hq. Qed.

(** The relations, on engines. *)
Definition at_db (R : D -> D -> Prop) (e e' : Engine) : Prop := R (db e) (db e').
#[export] Instance at_db_preorder R `{!PreOrder R} : PreOrder (at_db R).
Proof. split; unfold at_db; [by intros e|]. intros a b c Ha Hb. by etrans. Qed.

Lemma rel_effect (R : D -> D -> Prop) {A} (f : D -> A * D) ev :
  (forall d, R d (f d).2) -> rel (at_db R) (effect f ev).
Proof. intros Hf e. unfold effect, at_db. specialize (Hf (db e)). by destruct (f (db e)). Qed.

#[export] Instance touch_on c : OnConn (at_db (touch c)) (fun _ => True) c.
Proof.
  split; split; intros; try apply rel_effect; intros;
    [apply law_batch|apply law_rows|apply law_arrow|apply law_i64|apply law_text
    |apply law_columns|apply unmoved_touch, law_elapsed|].
  intros e. unfold at_db. simpl. reflexivity.
Qed.

#[export] Instance unmoved_on c : OnConn (at_db unmoved) Framing c.
Proof.
  split; split; intros; try apply rel_effect; intros;
    [by apply law_framing_batch|by apply law_framing_rows|by apply law_framing_arrow
    |by apply law_framing_i64|by apply law_framing_text|by apply law_framing_columns
    |apply law_elapsed|].
  intros e. unfold at_db. simpl. reflexivity.
Qed.

Lemma unmoved_pres {A} (m : M Engine A) :
  rel (at_db unmoved) m -> rel (pres (fun e : Engine => quiet (db e))) m.
Proof. intros Hm e Hq. by eapply unmoved_quiet; [apply (Hm e)|]. Qed.

#[export] Instance quiet_query c : OnQuery (pres (fun e : Engine => quiet (db e))) Framing c.
Proof.
  split; intros; apply unmoved_pres.
  - by apply (on_rows (ok := Framing)).
  - by apply (on_arrow (ok := Framing)).
  - by apply (on_i64 (ok := Framing)).
  - by apply (on_text (ok := Framing)).
  - by apply (on_columns (ok := Framing)).
  - apply (on_elapsed (ok := Framing) (c := c)).
  - apply (on_deliver (ok := Framing) (c := c)).
Qed.

#[export] Instance quiet_lib : Lib (pres (fun e : Engine => quiet (db e))) Framing.
Proof.
  split.
  - intros c. split. intros s Hs. by apply unmoved_pres, (on_batch (ok := Framing)).
  - intros e Hq. unfold open_, effect. pose proof (law_open (db e)) as Hl.
    destruct (open_in_memory (db e)) as [[c|x] d]; simpl in *;
      [by eapply reset_quiet, quiet_busy|by eapply unmoved_quiet].
  - intros i e Hq. unfold clone_, effect. pose proof (law_clone i (db e)) as Hl.
    destruct (try_clone i (db e)) as [[c|x] d]; simpl in *;
      [by eapply reset_quiet, quiet_busy|by eapply unmoved_quiet].
  - intros c e Hq. simpl. eapply reset_quiet; [apply law_close|by apply quiet_busy].
  - intros r e Hq. done.
Qed.

(** ** Transactions are closed by the time their bracket ends *)

Lemma in_read_txn_closes {A} (i : PondInstance) (f : MR A) e :
  is_ok (in_read_txn i f e).1 = true -> in_txn (conn i) (db (in_read_txn i f e).2) = false.
Proof.
  unfold in_read_txn, try, own, bind, batch_, effect, ret.
  destruct (execute_batch (conn i) BEGIN_READ (db e)) as [[u|x] d]; simpl; [|done].
  destruct (f _) as [[a|x] e1]; simpl.
  - pose proof (law_commit (conn i) (db e1)) as Hc.
    destruct (execute_batch (conn i) COMMIT (db e1)) as [[u'|x] d1]; simpl in *; [by intros _; apply Hc|].
    unfold rollback, bind, batch_, effect. by destruct (execute_batch _ ROLLBACK _).
  - unfold rollback, bind, batch_, effect. by destruct (execute_batch _ ROLLBACK _).
Qed.

Lemma max_snapshot_unmoved i n :
  rel (at_db unmoved) (max_snapshot i (Quote.quote_ident n)).
Proof. apply (rel_max_snapshot (at_db unmoved) Framing i). apply framing_snapshots. Qed.

(** [c] in no transaction and not watched. *)
Definition still (c : nat) (e : Engine) : Prop :=
  in_txn c (db e) = false /\ watched c (db e) = false.

Lemma unmoved_still c {A} (m : M Engine A) : rel (at_db unmoved) m -> rel (pres (still c)) m.
Proof. intros Hm e [Hi Hw]. destruct (Hm e c) as [Hi' Hw']. unfold still. by rewrite Hi', Hw'. Qed.

Lemma touch_unwatched c {A} (m : M Engine A) :
  rel (at_db (touch c)) m -> rel (pres (fun e => watched c (db e) = false)) m.
Proof. intros Hm e Hw. destruct (Hm e) as [_ ->]. done. Qed.

Lemma own_unwatched c context s :
  rel (pres (fun e : Engine => watched c (db e) = false)) (own c context s).
Proof.
  apply touch_unwatched.
  by apply (rel_own (at_db (touch c)) (fun _ => True) {| conn := c; alias := EmptyString |}).
Qed.

Lemma rollback_stills i {A} (r : A) :
  hoare (fun e : Engine => watched (conn i) (db e) = false) (rollback i ;; ret r)
    (fun _ => still (conn i)).
Proof.
  apply (hoare_bind _ _ _ (fun _ => still (conn i))); [|intros u; by apply hoare_ret].
  apply (hoare_bind _ _ _ (fun _ => still (conn i))); [|intros u; by apply hoare_ret].
  intros e Hw. unfold batch_, effect, still.
  pose proof (law_rollback (conn i) (db e) Hw) as Hr.
  pose proof (law_batch (conn i) ROLLBACK (db e)) as [_ Hw'].
  destruct (execute_batch (conn i) ROLLBACK (db e)) as [r' d]. simpl in *. by rewrite Hw'.
Qed.

Lemma begin_stills i s :
  s ∈ [BEGIN; BEGIN_READ] ->
  hoare (still (conn i)) (own (conn i) EmptyString s)
    (fun r e => watched (conn i) (db e) = false /\ (is_ok r = false -> still (conn i) e)).
Proof.
  intros Hs e [Hi Hw]. unfold own, bind, batch_, effect, still.
  pose proof (law_begin (conn i) s (db e) Hs) as Hb.
  pose proof (law_batch (conn i) s (db e)) as [_ Hw'].
  destruct (execute_batch (conn i) s (db e)) as [[u|x] d]; simpl in *; rewrite Hw', Hw.
  - done.
  - split; [done|]. intros _. destruct (Hb eq_refl (conn i)) as [-> _]. done.
Qed.

Lemma commit_stills i :
  hoare (fun e : Engine => watched (conn i) (db e) = false) (own (conn i) EmptyString COMMIT)
    (fun r e => watched (conn i) (db e) = false /\ (is_ok r = true -> still (conn i) e)).
Proof.
  intros e Hw. unfold own, bind, batch_, effect, still.
  pose proof (law_commit (conn i) (db e)) as Hc.
  pose proof (law_batch (conn i) COMMIT (db e)) as [_ Hw'].
  destruct (execute_batch (conn i) COMMIT (db e)) as [[u|x] d]; simpl in *; rewrite Hw', Hw; [|done].
  split; [done|]. intros _. by rewrite Hc.
Qed.

(** With no watcher to interrupt it, the write bracket ends its transaction. *)
Lemma in_write_txn_stills {A} (i : PondInstance) identity trace catalog op (body : MR A) :
  rel (at_db (touch (conn i))) body ->
  hoare (still (conn i)) (in_write_txn i identity trace catalog op body)
    (fun _ => still (conn i)).
Proof.
  intros Hbody. set (unwatched := fun e : Engine => watched (conn i) (db e) = false).
  apply (hoare_bind _ _ _ (fun _ => still (conn i)));
    [apply hoare_rel, unmoved_still, max_snapshot_unmoved|]. intros before.
  eapply hoare_try; [apply begin_stills; by left| |by intros x e [_ Hx]; apply Hx].
  intros u0. apply (hoare_bind _ _ _ (fun _ => unwatched)).
  { eapply hoare_conseq; [by apply hoare_rel, touch_unwatched|by intros e [Hw _]|done]. }
  intros [a|x]; [|apply rollback_stills].
  apply (hoare_bind _ _ _ (fun _ => unwatched)); [apply hoare_rel, own_unwatched|].
  intros [u|x]; [|apply rollback_stills].
  eapply hoare_bind; [apply commit_stills|]. intros [u'|x].
  - apply (hoare_bind _ _ _ (fun _ => still (conn i))); [|intros after; by apply hoare_ret].
    eapply hoare_conseq; [apply (hoare_rel (still (conn i))), unmoved_still, max_snapshot_unmoved| |done].
    intros e [_ He]. by apply He.
  - eapply hoare_conseq; [apply rollback_stills|by intros e [Hw _]|done].
Qed.

Lemma commit_closes i :
  hoare (fun _ : Engine => True) (own (conn i) EmptyString COMMIT)
    (fun r e => is_ok r = true -> in_txn (conn i) (db e) = false).
Proof.
  intros e _. unfold own, bind, batch_, effect.
  pose proof (law_commit (conn i) (db e)) as Hc.
  destruct (execute_batch (conn i) COMMIT (db e)) as [[u|x] d]; simpl in *; [|done].
  intros _. by apply Hc.
Qed.

Lemma unmoved_closed c {A} (m : M Engine A) :
  rel (at_db unmoved) m -> rel (pres (fun e => in_txn c (db e) = false)) m.
Proof. intros Hm e Hi. destruct (Hm e c) as [-> _]. done. Qed.

(** Watched or not, a write that succeeded has committed. *)
Lemma in_write_txn_commits {A} (i : PondInstance) identity trace catalog op (body : MR A) e :
  is_ok (in_write_txn i identity trace catalog op body e).1 = true ->
  in_txn (conn i) (db (in_write_txn i identity trace catalog op body e).2) = false.
Proof.
  set (closed := fun e : Engine => in_txn (conn i) (db e) = false).
  assert (Hfail : forall P x, hoare P (rollback i ;; ret (Err x : result (A * option Z) EngineError))
            (fun r e => is_ok r = true -> closed e)).
  { intros P x e' _. unfold bind. by destruct (rollback i e'). }
  revert e. cut (hoare (fun _ => True) (in_write_txn i identity trace catalog op body)
                   (fun r e => is_ok r = true -> closed e)); [intros Hh e; by apply (Hh e)|].
  apply (hoare_bind _ _ _ (fun _ _ => True)); [done|]. intros before.
  apply (hoare_try _ _ _ (fun _ _ => True)); [done| |by intros].
  intros u0. apply (hoare_bind _ _ _ (fun _ _ => True)); [done|]. intros [a|x]; [|apply Hfail].
  apply (hoare_bind _ _ _ (fun _ _ => True)); [done|]. intros [u|x]; [|apply Hfail].
  eapply hoare_bind; [apply commit_closes|]. intros [u'|x]; [|apply Hfail].
  apply (hoare_bind _ _ _ (fun _ => closed)); [|intros after; by apply hoare_ret].
  eapply hoare_conseq; [apply (hoare_rel closed), unmoved_closed, max_snapshot_unmoved| |done].
  intros e He. by apply He.
Qed.
End laws.

Lemma plan_load ty alias params p : Attach.plan ty alias params = Ok p -> Attach.load p = Attach.loads ty.
Proof.
  unfold Attach.plan, Attach.iceberg, Attach.ducklake.
  destruct (String.eqb ty "iceberg"); [|destruct (String.eqb ty "ducklake"); [|done]].
  - by destruct (Attach.param params "endpoint"); [intros [= <-]|].
  - destruct (Attach.param params "metadata_path"); [|done].
    by destruct (Attach.param params "data_path"); [intros [= <-]|].
Qed.

(** How the statements of an attach plan begin. *)
Lemma plan_heads ty alias params p s :
  Attach.plan ty alias params = Ok p ->
  s ∈ Attach.attach p :: Attach.teardown p ++ map snd (Attach.secrets p) ->
  (exists t, s = "ATTACH " +:+ t) \/ (exists t, s = "DETACH " +:+ t) \/
  (exists t, s = "DROP SECRET IF EXISTS " +:+ t) \/ (exists t, s = "CREATE OR REPLACE SECRET " +:+ t).
Proof.
  intros Hp.
  assert (Hmk : (exists t, Attach.attach p = "ATTACH " +:+ t) /\
    Forall (fun x => exists t, x.2 = "CREATE OR REPLACE SECRET " +:+ t) (Attach.secrets p)).
  { assert (Hs3 : Forall (fun x => exists t, x.2 = "CREATE OR REPLACE SECRET " +:+ t)
                    (Attach.s3_secrets alias params)).
    { unfold Attach.s3_secrets, Attach.s3_secret_line.
      destruct (Attach.param params "s3_access_key"); simpl; [|done].
      destruct (Attach.param params "s3_secret_key"); simpl; [|done].
      repeat constructor. eexists. simpl. done. }
    revert Hp. unfold Attach.plan, Attach.iceberg, Attach.ducklake.
    destruct (String.eqb ty "iceberg"); [|destruct (String.eqb ty "ducklake"); [|done]].
    - destruct (Attach.param params "endpoint"); [|done]. cbn [ok_or res_bind].
      intros [= <-]. simpl. split; [by eexists|].
      apply Forall_app. split; [|done]. destruct (Attach.param params "token"); repeat constructor.
      by eexists.
    - destruct (Attach.param params "metadata_path"); [|done].
      destruct (Attach.param params "data_path"); [|done]. cbn [ok_or res_bind].
      intros [= <-]. simpl. split; [by eexists|done]. }
  destruct Hmk as [[t Ht] Hs]. intros [->|Hin]%elem_of_cons; [left; by exists t|].
  apply elem_of_app in Hin as [Hin|Hin].
  - unfold Attach.teardown in Hin. apply elem_of_cons in Hin as [->|Hin]; [right; left; by eexists|].
    apply list_elem_of_fmap in Hin as (x & -> & _). right; right; left. by eexists.
  - apply list_elem_of_fmap in Hin as (x & -> & Hx). do 3 right.
    rewrite Forall_forall in Hs. by apply Hs.
Qed.

(** Carries a relation over the adapter's code down to the statements it sends. *)
Ltac rel_auto ok :=
  repeat first
    [ done
    | by apply Forall_true
    | typeclasses eauto
    | apply rel_ret
    | apply (rel_plan_datasets_of _ ok) | apply (rel_annotate _ ok)
    | apply (rel_run_read _ ok) | apply (rel_run_read_arrow _ ok) | apply (rel_run_write _ ok)
    | apply (rel_run_explain _ ok) | apply (rel_in_read_txn _ ok) | apply (rel_in_write_txn _ ok)
    | apply (rel_callers _ ok) | apply (rel_rollback _ ok) | apply (rel_attach_catalog _ ok)
    | apply (rel_materialize _ ok) | apply (rel_run_all _ ok) | apply (on_text (ok := ok))
    | apply rel_try; [ | |intros ?]
    | apply rel_bind; [ | |intros ?]
    | match goal with |- rel _ (match ?x with _ => _ end) => destruct x end ].
