(* ===== verification/DuckEngineSpec.v ===== *)
(** * What the DuckDB engine guarantees

    The adapter's operations over any DuckDB that keeps the laws of [DuckLaws]: no
    transaction outlives the operation that began it, no reader waits for a
    connection that is not coming back, a write is attributed or rolled back, a
    mounted catalog is taken away with its secrets, and nothing is downloaded once
    the process is ready. *)
From S2P Require Import Prelude Errors Extensions Policy Common Registry Sql Interfaces Ops DuckText Plan ReadPool DuckEngine DuckEngineLaws.
Import Duck.
#[local] Open Scope rust_scope.
#[local] Arguments String.append !_ _ / : simpl nomatch.

(** ** The pond map is touched by nothing below it *)

Section frame.
Context `{!Floats} `{!Serde} `{!Arrow} {D : Type} `{!DuckDb D}.

Definition same_ponds (e e' : Engine D) : Prop := ponds e' = ponds e.

#[export] Instance same_ponds_preorder : PreOrder same_ponds.
Proof. split; unfold same_ponds; [by intros e|]. intros a b c Hb Hc. congruence. Qed.

Lemma same_ponds_effect {A} (f : D -> A * D) ev : rel same_ponds (effect f ev).
Proof. intros e. unfold effect, same_ponds. by destruct (f (db e)). Qed.

#[export] Instance same_ponds_query c : OnQuery same_ponds (fun _ => True) c.
Proof. split; intros; try apply same_ponds_effect; by intros e. Qed.

#[export] Instance same_ponds_lib : Lib same_ponds (fun _ => True).
Proof. split; [intros c; split| | | |]; intros; try apply same_ponds_effect; by intros e. Qed.
End frame.

(** ** Nothing is left open *)

Section rest.
Context `{!Floats} `{!Serde} `{!Arrow} {D : Type} `{!DuckDb D} `{!DuckLaws D}.
Context (available_parallelism : option N).
Notation Engine := (Engine D).
Notation MR A := (M Engine (result A EngineError)).

(** Between operations every connection of a pool is idle, and there is room for
    one reader at least. *)
Record pond_ok (p : Pond) : Prop := {
  pk_created : created p = length (idle p);
  pk_max : created p <= max p;
  pk_bounds : 4 <= max p <= 32;
  pk_alias : exists n, alias (source p) = Quote.quote_ident n;
}.

Record at_rest (e : Engine) : Prop := {
  rest_quiet : quiet (db e);
  rest_ponds : map_Forall (fun _ p => pond_ok p) (ponds e);
}.

(** A location as storage makes it: no quote in its paths, checked extensions. *)
Record loc_ok (loc : Types.PondLocation) : Prop := {
  ok_uri : no_byte "'" (Types.catalog_uri loc);
  ok_data : no_byte "'" (Types.data_path loc);
  ok_exts : Forall (fun x => Ops.is_ident x = true) (Types.loc_extensions loc);
}.

Lemma standard_idents : Forall (fun x => Ops.is_ident x = true) Warm.STANDARD_LOAD.
Proof. by repeat constructor. Qed.

Lemma loc_opens loc : loc_ok loc -> opens Framing loc.
Proof.
  intros [Hu Hd He].
  assert (Hload : forall l, Forall (fun x => Ops.is_ident x = true) l ->
            Forall (fun x => Framing ("LOAD " +:+ x +:+ ";")) l).
  { intros l Hl. eapply Forall_impl; [exact Hl|]. apply framing_load. }
  split.
  - intros l _. apply framing_limits.
  - apply framing_setting. by left.
  - apply Hload, standard_idents.
  - apply framing_setting. by right; left.
  - apply framing_setting. by do 2 right; left.
  - by apply Hload.
  - by apply framing_attach.
  - apply framing_use.
  - apply framing_setting. by do 3 right; left.
Qed.

Lemma ensure_quiet : rel (pres (fun e : Engine => quiet (db e))) ensure_standard_extensions.
Proof.
  apply (rel_ensure _ Framing). apply Forall_forall. intros x Hx.
  by apply framing_install.
Qed.

Lemma open_instance_alias loc (e : Engine) i :
  (open_instance loc e).1 = Ok i -> alias i = Quote.quote_ident (Types.catalog_name loc).
Proof.
  intros Hi. revert e Hi.
  cut (hoare (fun _ => True) (open_instance loc)
         (fun r (_ : Engine) => forall i, r = Ok i ->
            alias i = Quote.quote_ident (Types.catalog_name loc))).
  { intros Hh e Hi. by apply (Hh e I). }
  apply (hoare_bind _ _ _ (fun _ _ => True)); [done|]. intros [c|x]; [|by apply hoare_ret].
  eapply (hoare_bind _ _ _ (fun r (_ : Engine) => forall i, r = Ok i ->
            alias i = Quote.quote_ident (Types.catalog_name loc))).
  2: { intros [j|x]; [by apply hoare_ret|].
       apply (hoare_bind _ _ _ (fun _ _ => True)); [done|]. intros u. by apply hoare_ret. }
  repeat (apply (hoare_try _ _ _ (fun _ _ => True)); [done|intros u|done]; clear u).
  apply (hoare_bind _ _ _ (fun _ _ => True)); [done|]. intros u.
  apply hoare_ret. by intros e _ j [= <-].
Qed.

Lemma clone_quiet i n :
  alias i = Quote.quote_ident n -> rel (pres (fun e : Engine => quiet (db e))) (clone_for_read i).
Proof.
  intros Hn. apply (rel_clone_for_read _ Framing).
  - apply framing_setting. by do 3 right; left.
  - rewrite Hn. apply framing_use.
Qed.

Lemma closing_fst {A E} c (m : M Engine (result A E)) e : (closing c m e).1 = (m e).1.
Proof. unfold closing, bind. destruct (m e) as [[a|x] e']; [done|]. by destruct (close_ c e'). Qed.

Lemma clone_alias i (e : Engine) j : (clone_for_read i e).1 = Ok j -> alias j = alias i.
Proof.
  unfold clone_for_read, bind. destruct (clone_ _ e) as [[c|x] e']; [|done].
  rewrite closing_fst. unfold try, bind.
  destruct (own c _ READ_SETTINGS e') as [[u|x] e1]; [|done].
  destruct (own c _ (use_sql _) e1) as [[u'|x] e2]; [|done]. by intros [= <-].
Qed.

(** A run that keeps the ponds and the quiet keeps the rest. *)
Lemma rest_rel {A} (m : M Engine A) :
  rel same_ponds m -> rel (pres (fun e : Engine => quiet (db e))) m -> rel (pres at_rest) m.
Proof. intros Hs Hq e [He Hp]. split; [by apply Hq|]. by rewrite (Hs e). Qed.

Lemma max_of_bounds n : 4 <= ReadPool.max_of n <= 32.
Proof. unfold ReadPool.max_of. lia. Qed.

Lemma open_pond_rest loc :
  loc_ok loc ->
  hoare at_rest (open_pond available_parallelism loc)
    (fun r e => at_rest e /\ forall p, r = Ok p -> pond_ok p /\ limits p = Types.limits loc).
Proof.
  intros Hloc. set (named := fun (r : result PondInstance EngineError) (e : Engine) =>
    at_rest e /\ forall i, r = Ok i -> alias i = Quote.quote_ident (Types.catalog_name loc)).
  assert (Hany : forall l : list string, Forall (fun _ => True) l) by (intros; by apply Forall_true).
  apply (hoare_try _ _ _ named); [| |by intros x e [He _]].
  - intros e He. split; [|intros i; apply open_instance_alias].
    revert e He. apply rest_rel.
    + apply (rel_open_instance _ (fun _ => True)); [by apply (rel_ensure _ (fun _ => True))|].
      by split.
    + by apply (rel_open_instance _ Framing), loc_opens; [apply ensure_quiet|].
  - intros w. apply (hoare_try _ _ _ named); [| |by intros x e [He _]].
    + intros e [He Ha]. specialize (Ha w eq_refl). split.
      * revert e He. apply rest_rel.
        -- apply (rel_closing _ (fun _ => True)). by apply (rel_clone_for_read _ (fun _ => True)).
        -- apply (rel_closing _ Framing). by eapply clone_quiet.
      * intros j. rewrite closing_fst. intros Hj%clone_alias. by rewrite Hj.
    + intros s. apply hoare_ret. intros e [He Ha]. split; [done|]. intros p [= <-].
      split; [|done]. split; simpl; [done|lia|apply max_of_bounds|eauto].
Qed.

Lemma set_ponds_rest f :
  (forall m, map_Forall (fun _ p => pond_ok p) m -> map_Forall (fun _ p => pond_ok p) (f m)) ->
  rel (pres (fun e : Engine => at_rest e)) (set_ponds f).
Proof. intros Hf e [Hq Hp]. split; [done|]. by apply Hf. Qed.

Lemma close_all_rest l : rel (pres (fun e : Engine => at_rest e)) (close_all l).
Proof. apply rest_rel; [apply (rel_close_all _ (fun _ => True))|apply (rel_close_all _ Framing)]. Qed.

Lemma evict_rest uri p : rel (pres (fun e : Engine => at_rest e)) (evict uri p).
Proof.
  apply rel_bind; [apply _| |intros u; apply close_all_rest].
  apply set_ponds_rest. intros m Hm. by apply map_Forall_delete.
Qed.

Lemma open_and_cache_rest loc :
  loc_ok loc ->
  hoare at_rest (open_and_cache available_parallelism loc)
    (fun r e => at_rest e /\ forall p, r = Ok p ->
       ponds e !! Types.catalog_uri loc = Some p /\ limits p = Types.limits loc).
Proof.
  intros Hloc. eapply hoare_try; [by apply open_pond_rest| |by intros x e [He _]].
  intros p e [[Hq Hp] Hok]. destruct (Hok p eq_refl) as [Hpk Hl]. simpl. split.
  - split; [done|]. simpl. by apply map_Forall_insert_2.
  - intros p' [= <-]. by rewrite lookup_insert_eq.
Qed.

Lemma pond_rest loc :
  loc_ok loc ->
  hoare at_rest (pond available_parallelism loc)
    (fun r e => at_rest e /\ forall p, r = Ok p ->
       ponds e !! Types.catalog_uri loc = Some p /\ limits p = Types.limits loc).
Proof.
  intros Hloc. apply hoare_ask. intros [p|].
  - destruct (bool_decide_reflect (limits p = Types.limits loc)) as [Hl|Hl].
    + apply hoare_ret. intros e [He Hp]. split; [done|]. by intros p' [= <-].
    + apply (hoare_bind _ _ _ (fun _ => at_rest)); [|intros u; by apply open_and_cache_rest].
      eapply hoare_conseq; [apply (hoare_rel at_rest), evict_rest|by intros e [He _]|done].
  - eapply hoare_conseq; [by apply open_and_cache_rest|by intros e [He _]|done].
Qed.

(** *** A read on a pooled connection *)

(** What [with_read] needs of what it runs: the pond map is left alone, connection
    [i] alone may be left open, and is not by a success. *)
Definition reads_on {A} (f : PondInstance -> MR A) : Prop :=
  forall i, rel same_ponds (f i) /\
    hoare (fun e => quiet (db e)) (f i)
      (fun r e => busy (conn i) (db e) /\ (is_ok r = true -> quiet (db e))).

Lemma reads_quiet {A} (f : PondInstance -> MR A) :
  (forall i, rel same_ponds (f i) /\ rel (pres (fun e : Engine => quiet (db e))) (f i)) ->
  reads_on f.
Proof.
  intros Hf i. destruct (Hf i) as [Hs Hq]. split; [done|]. intros e He.
  split; [apply quiet_busy|intros _]; by apply (Hq e).
Qed.

(** The pool while a reader holds one of its connections. *)
Record held (uri : string) (e : Engine) : Prop := {
  held_pond p : ponds e !! uri = Some p ->
    created p = S (length (idle p)) /\ created p <= max p /\ 4 <= max p <= 32 /\
    exists n, alias (source p) = Quote.quote_ident n;
  held_rest : map_Forall (fun _ p => pond_ok p) (delete uri (ponds e));
}.

Lemma alter_rest (m : gmap string Pond) uri f p :
  m !! uri = Some p -> map_Forall (fun _ p => pond_ok p) (delete uri m) -> pond_ok (f p) ->
  map_Forall (fun _ p => pond_ok p) (alter f uri m).
Proof.
  intros Hp Hm Hf uri' p'. destruct (decide (uri' = uri)) as [->|Hne].
  - rewrite lookup_alter_eq, Hp. by intros [= <-].
  - rewrite lookup_alter_ne by done. intros Hp'. apply (Hm uri'). by rewrite lookup_delete_ne.
Qed.

Lemma delete_alter_held (m : gmap string Pond) uri f :
  map_Forall (fun _ p => pond_ok p) m ->
  map_Forall (fun _ p => pond_ok p) (delete uri (alter f uri m)).
Proof.
  intros Hm uri' p' Hp'. apply lookup_delete_Some in Hp' as [Hne Hp'].
  rewrite lookup_alter_ne in Hp' by done. by apply (Hm uri').
Qed.

(** A connection in hand, or an error; never a wait. *)
Definition checked_out (uri : string) (r : option (result PondInstance EngineError))
    (e : Engine) : Prop :=
  match r with
  | None => False
  | Some (Err _) => at_rest e
  | Some (Ok i) => quiet (db e) /\ held uri e /\ is_Some (ponds e !! uri)
  end.

Lemma checkout_rest uri p :
  hoare (fun e => at_rest e /\ ponds e !! uri = Some p) (checkout_read uri p) (checked_out uri).
Proof.
  set (out := fun e => quiet (db e) /\ held uri e /\ is_Some (ponds e !! uri)).
  intros e [[Hq Hm] Hp]. pose proof (Hm _ _ Hp) as [Hc Hle Hb [n Ha]]. unfold checkout_read.
  destruct (idle p) as [|i l] eqn:Hi; simpl in Hc.
  - rewrite Hc. destruct (Nat.ltb_spec 0 (max p)) as [_|]; [|lia].
    refine (hoare_bind (fun e' => e' = e) _ _ (fun _ => out) (checked_out uri) _ _ e eq_refl).
    { intros e' ->. unfold out. simpl. split; [done|]. rewrite lookup_alter_eq, Hp.
      split; [split|by eexists]; simpl; [|by apply delete_alter_held].
      intros p'. rewrite lookup_alter_eq, Hp. intros [= <-]. simpl. rewrite Hi, Hc. simpl.
      split_and!; [done|lia|lia|lia|by eexists]. }
    intros u. apply (hoare_bind _ _ _ (fun _ => out)).
    { intros e' (Hq' & Hh & Hs). unfold out.
      assert (Hsame : same_ponds e' (clone_for_read (source p) e').2)
        by (apply (rel_clone_for_read _ (fun _ => True)); done).
      split; [by apply (clone_quiet _ _ Ha e')|]. rewrite Hsame.
      split; [|done]. destruct Hh as [Hh Hr]. split; rewrite Hsame; done. }
    intros [i|x]; [by apply hoare_ret|].
    apply (hoare_bind _ _ _ (fun _ => at_rest)); [|intros u'; by apply hoare_ret].
    intros e' (Hq' & [Hh Hrest] & [p' Hp']). destruct (Hh p' Hp') as (Hc' & Hle' & Hb' & Ha').
    split; [done|]. simpl. eapply alter_rest; [done|done|].
    split; simpl; [by rewrite Hc'|lia|lia|done].
  - simpl. split; [done|]. rewrite lookup_alter_eq, Hp. split; [|by eexists]. split; simpl.
    + intros p'. rewrite lookup_alter_eq, Hp. intros [= <-]. simpl. rewrite Hi. simpl.
      split_and!; [done|lia|lia|lia|by eexists].
    + by apply delete_alter_held.
Qed.

Lemma give_back_rest uri i ok :
  hoare (fun e => busy (conn i) (db e) /\ (ok = true -> quiet (db e)) /\ held uri e /\
           is_Some (ponds e !! uri))
    (give_back uri i ok) (fun _ => at_rest).
Proof.
  intros e (Hb & Hq & [Hh Hrest] & [p Hp]). destruct (Hh p Hp) as (Hc & Hle & Hbd & Ha).
  destruct ok; simpl.
  - split; [by apply Hq|]. simpl. eapply alter_rest; [done|done|].
    split; simpl; [by rewrite Hc|done|lia|done].
  - split; [by eapply reset_quiet; [apply law_close|]|]. simpl.
    eapply alter_rest; [done|done|]. split; simpl; [by rewrite Hc|lia|lia|done].
Qed.

Lemma with_read_rest {A} loc (f : PondInstance -> MR A) :
  loc_ok loc -> reads_on f ->
  hoare at_rest (with_read available_parallelism loc f) (fun r e => at_rest e /\ r <> None).
Proof.
  intros Hloc Hf. eapply hoare_bind; [by apply pond_rest|]. intros [p|x].
  2: { apply hoare_ret. by intros e [He _]. }
  eapply hoare_bind.
  { eapply hoare_conseq; [apply checkout_rest| |by intros a e He; exact He].
    intros e [He Hp]. split; [done|]. by destruct (Hp p eq_refl). }
  intros [[i|x]|]; [|apply hoare_ret; by intros e He|by intros e []].
  destruct (Hf i) as [Hs Hq].
  apply (hoare_bind _ _ _ (fun r e => busy (conn i) (db e) /\ (is_ok r = true -> quiet (db e)) /\
    held (Types.catalog_uri loc) e /\ is_Some (ponds e !! Types.catalog_uri loc))).
  - intros e (Hqe & [Hh Hr] & Hsome). destruct (Hq e Hqe) as [Hb Hok].
    split_and!; [done|done| |by rewrite (Hs e)]. split; by rewrite (Hs e).
  - intros out. eapply hoare_bind; [apply give_back_rest|].
    intros u. by apply hoare_ret.
Qed.

(** *** The operations *)

Lemma is_ok_normalized {A} (r : result A EngineError) : is_ok (normalized r) = is_ok r.
Proof. destruct r as [a|[]]; try done. simpl. by destruct (str_contains _ _). Qed.

Lemma arm_busy c b (e : Engine) : quiet (db e) -> busy c (db (arm_ c b e).2).
Proof. intros Hq. simpl. by eapply others_busy; [apply law_arm|apply quiet_busy]. Qed.

Lemma same_ponds_bracket {A} i cancelled (m : MR A) :
  rel same_ponds m -> rel same_ponds (run_with_abort i cancelled m).
Proof.
  intros Hm. apply rel_bind; [apply _|apply same_ponds_effect|]. intros u.
  apply rel_bind; [apply _|done|]. intros r.
  apply rel_bind; [apply _|apply same_ponds_effect|]. intros u'. by apply rel_ret; apply _.
Qed.

(** Under the watcher only [i]'s connection moves, and what succeeds ends quiet. *)
Lemma run_with_abort_quiet {A} i cancelled (m : MR A) :
  rel (at_db (touch (conn i))) m ->
  (forall e, is_ok (m e).1 = true -> in_txn (conn i) (db (m e).2) = false) ->
  hoare (fun e => quiet (db e)) (run_with_abort i cancelled m)
    (fun r e => busy (conn i) (db e) /\ watched (conn i) (db e) = false /\
       (is_ok r = true -> quiet (db e))).
Proof.
  intros Hm Hc e Hq. unfold run_with_abort, bind. destruct (arm_ (conn i) cancelled e) as [u e0] eqn:Ea.
  pose proof (arm_busy (conn i) cancelled e Hq) as Hb. rewrite Ea in Hb. simpl in Hb.
  specialize (Hm e0). specialize (Hc e0). destruct (m e0) as [r e1]. simpl in *.
  pose proof (touch_busy _ _ _ Hm Hb) as Hb1.
  destruct (law_disarm (conn i) (db e1)) as (Ho & Hi & Hw).
  pose proof (others_busy _ _ _ Ho Hb1) as Hb2. split_and!; [done|done|].
  rewrite is_ok_normalized. intros Hok. eapply busy_quiet; [done| |done]. rewrite Hi. by apply Hc.
Qed.

Lemma bracketed_read_rest {A} loc sql cancelled (run : PondInstance -> MR A) apply_ :
  loc_ok loc ->
  (forall i, rel same_ponds (run i) /\ rel (at_db (touch (conn i))) (run i)) ->
  hoare at_rest (bracketed_read available_parallelism loc sql cancelled run apply_)
    (fun r e => at_rest e /\ r <> None).
Proof.
  intros Hloc Hrun. unfold bracketed_read.
  destruct (bool_decide _); [by apply hoare_ret|]. apply with_read_rest; [done|]. intros i.
  destruct (Hrun i) as [Hs Ht]. split.
  - apply same_ponds_bracket. rel_auto (fun _ : string => True).
  - eapply hoare_conseq; [apply run_with_abort_quiet| |by intros r e (Hb & _ & Hq)];
      [|intros e; apply in_read_txn_closes|done].
    rel_auto (fun _ : string => True).
Qed.

Lemma read_query_rest loc sql cancelled :
  loc_ok loc ->
  hoare at_rest (read_query available_parallelism loc sql cancelled)
    (fun r e => at_rest e /\ r <> None).
Proof.
  intros Hloc. apply bracketed_read_rest; [done|]. intros i. split; rel_auto (fun _ : string => True).
Qed.

Lemma read_arrow_rest loc sql cancelled looks sink :
  loc_ok loc ->
  hoare at_rest (read_arrow available_parallelism loc sql cancelled looks sink)
    (fun r e => at_rest e /\ r <> None).
Proof.
  intros Hloc. apply (hoare_bind _ _ _ (fun _ => at_rest)); [by intros e [He Hp]|]. intros u.
  apply bracketed_read_rest; [done|]. intros i. split; rel_auto (fun _ : string => True).
Qed.

Lemma explain_query_rest loc sql :
  loc_ok loc -> no_byte ";" sql ->
  hoare at_rest (explain_query available_parallelism loc sql) (fun r e => at_rest e /\ r <> None).
Proof.
  intros Hloc Hsql. apply with_read_rest; [done|]. apply reads_quiet. intros i. split.
  - rel_auto (fun _ : string => True).
  - by rel_auto Framing; [apply framing_explain|apply framing_explain_text].
Qed.

Lemma describe_schema_rest loc :
  loc_ok loc ->
  hoare at_rest (describe_schema available_parallelism loc) (fun r e => at_rest e /\ r <> None).
Proof.
  intros Hloc. eapply hoare_bind.
  - apply with_read_rest; [done|]. apply reads_quiet. intros i. split.
    + rel_auto (fun _ : string => True).
    + rel_auto Framing; [apply framing_tables|apply framing_columns].
  - intros r. apply hoare_ret. intros e [He Hr]. split; [done|]. by destruct r.
Qed.

Lemma plan_datasets_rest loc sql :
  loc_ok loc ->
  hoare at_rest (plan_datasets available_parallelism loc sql) (fun r e => at_rest e /\ r <> None).
Proof.
  intros Hloc. unfold plan_datasets. destruct (negb _); [by apply hoare_ret|].
  eapply hoare_bind.
  - apply with_read_rest; [done|]. apply reads_quiet. intros i. unfold referenced_tables.
    split; [rel_auto (fun _ : string => True)|rel_auto Framing; apply framing_plan].
  - intros r. apply hoare_ret. intros e [He Hr]. split; [done|].
    by destruct r as [[[[|] [|]]|]|].
Qed.

Lemma loads_framing ty : Forall Framing (map snd (Attach.loads ty)).
Proof.
  unfold Attach.loads, Catalog.lookup.
  destruct (find _ Catalog.TYPES) as [t|] eqn:Hf; [|constructor].
  apply find_some in Hf as [Hin _]. rewrite map_map. apply Forall_fmap, Forall_forall.
  intros x Hx. apply framing_load. destruct Hin as [<-|[<-|[]]]; simpl in Hx;
    repeat (apply elem_of_cons in Hx as [->|Hx]; [reflexivity|]); by apply not_elem_of_nil in Hx.
Qed.

Lemma write_commits i sql identity trace loc :
  hoare (fun _ : Engine => True)
    (let! ds := plan_datasets_of loc i sql in
     try! res := run_write i sql identity trace (Types.catalog_name loc) in
     let! ds := annotate loc i ds in
     ret (Ok (with_meta (fun m => apply_datasets m ds) res)))
    (fun r e => is_ok r = true -> in_txn (conn i) (db e) = false).
Proof.
  set (closed := fun e : Engine => in_txn (conn i) (db e) = false).
  apply (hoare_bind _ _ _ (fun _ _ => True)); [done|]. intros ds.
  apply (hoare_try _ _ _ (fun r e => is_ok r = true -> closed e)); [| |by intros].
  - apply (hoare_try _ _ _ (fun r e => is_ok r = true -> closed e)); [|intros t|by intros].
    + intros e _. apply in_write_txn_commits.
    + apply (hoare_bind _ _ _ (fun _ => closed)); [|intros ms; by destruct t.2; apply hoare_ret].
      eapply hoare_conseq; [apply (hoare_rel closed), unmoved_closed| |done].
      * apply (on_elapsed (ok := Framing) (c := conn i)).
      * intros e He. by apply He.
  - intros res. apply (hoare_bind _ _ _ (fun _ => closed)); [|intros ds'; by apply hoare_ret].
    eapply hoare_conseq; [apply (hoare_rel closed), unmoved_closed| |done].
    + rel_auto Framing. apply framing_schema.
    + intros e He. by apply He.
Qed.

Lemma write_query_rest loc sql identity trace cancelled polls :
  loc_ok loc ->
  hoare at_rest (write_query available_parallelism loc sql identity trace cancelled polls)
    (fun r e => at_rest e /\ (lock_writer polls <> None -> r <> None)).
Proof.
  intros Hloc. eapply hoare_bind; [by apply pond_rest|]. intros [p|x].
  2: { apply hoare_ret. by intros e [He _]. }
  destruct (lock_writer polls) as [[u|x]|]; [|by apply hoare_ret; intros e [He _]..].
  set (i := writer p).
  apply (hoare_bind _ _ _ (fun r e => (busy (conn i) (db e) /\ watched (conn i) (db e) = false /\
    (is_ok r = true -> quiet (db e))) /\ map_Forall (fun _ p => pond_ok p) (ponds e))).
  - intros e [[Hq Hp] _]. split.
    + revert e Hq Hp. intros e Hq _. apply run_with_abort_quiet; [| |done].
      * rel_auto (fun _ : string => True).
      * intros e'. by apply write_commits.
    + assert (Hs : forall m : MR QueryResult, rel same_ponds m -> ponds (m e).2 = ponds e)
        by (intros m Hm; apply (Hm e)).
      rewrite Hs; [done|]. apply same_ponds_bracket. rel_auto (fun _ : string => True).
  - intros [a|x].
    + apply hoare_ret. intros e [(_ & _ & Hq) Hp]. split; [|done]. split; [by apply Hq|done].
    + intros e [(Hb & Hw & _) Hp].
      destruct (rollback_stills i (Some (Err x : result QueryResult EngineError)) e Hw) as [Hi Hw'].
      assert (Ht : rel (at_db (touch (conn i))) (rollback i))
        by rel_auto (fun _ : string => True).
      assert (Hs : rel same_ponds (rollback i)) by rel_auto (fun _ : string => True).
      specialize (Ht e). specialize (Hs e). unfold bind in *.
      destruct (rollback i e) as [u' e']. simpl in *. split; [|done]. split.
      * eapply busy_quiet; [by eapply touch_busy|done|done].
      * by rewrite Hs.
Qed.

Lemma in_write_txn_quiet {A} i identity trace catalog op (body : MR A) :
  rel (at_db (touch (conn i))) body ->
  rel (pres (fun e : Engine => quiet (db e))) (in_write_txn i identity trace catalog op body).
Proof.
  intros Hb e Hq. destruct (in_write_txn_stills i identity trace catalog op body Hb e (Hq _)) as [Hi Hw].
  assert (Ht : rel (at_db (touch (conn i))) (in_write_txn i identity trace catalog op body))
    by rel_auto (fun _ : string => True).
  eapply busy_quiet; [|exact Hi|exact Hw]. eapply touch_busy; [apply Ht|by apply quiet_busy].
Qed.

Lemma attach_quiet c ty alias params p :
  Ops.is_ident alias = true -> Attach.plan ty alias params = Ok p ->
  rel (pres (fun e : Engine => quiet (db e))) (attach_catalog c p) /\
  rel (pres (fun e : Engine => quiet (db e))) (teardown_catalog c p).
Proof.
  intros Ha Hp. assert (Hf : forall s, s ∈ Attach.attach p :: Attach.teardown p ++ map snd (Attach.secrets p) ->
    Framing s) by (intros s; by apply (framing_catalog ty alias params p)).
  assert (Ht : Forall Framing (Attach.teardown p)).
  { apply Forall_forall. intros s Hs. apply Hf. right. apply elem_of_app. by left. }
  split.
  - apply (rel_attach_catalog _ Framing {| conn := c; alias := EmptyString |}).
    + apply framing_setting. by left.
    + rewrite (plan_load _ _ _ _ Hp). apply loads_framing.
    + apply Forall_forall. intros s Hs. apply Hf. right. apply elem_of_app. by right.
    + apply Hf. by left.
    + done.
  - by apply (rel_run_all _ Framing {| conn := c; alias := EmptyString |}).
Qed.

Lemma on_plan_rest {A} loc ty alias params (k : Pond -> Attach.AttachPlan -> MR A) :
  loc_ok loc ->
  (forall p plan, Attach.plan ty alias params = Ok plan -> rel (pres at_rest) (k p plan)) ->
  hoare at_rest
    (try! p := pond available_parallelism loc in
     try! plan := ret (Attach.plan ty alias params) in k p plan)
    (fun _ => at_rest).
Proof.
  intros Hloc Hk. eapply hoare_try; [by apply pond_rest| |by intros x e [He _]].
  intros p. destruct (Attach.plan ty alias params) as [plan|x] eqn:Hp.
  - intros e [He _]. by apply (Hk p plan eq_refl e).
  - by intros e [He _].
Qed.

Lemma pull_catalog_rest loc ty alias params query identity trace :
  loc_ok loc -> Ops.is_ident alias = true ->
  hoare at_rest (pull_catalog available_parallelism loc ty alias params query identity trace)
    (fun _ => at_rest).
Proof.
  intros Hloc Ha. eapply on_plan_rest; [done|]. intros p plan Hp. cbv zeta.
  set (i := writer p).
  destruct (attach_quiet (conn i) _ _ _ _ Ha Hp) as [Hat Htd].
  apply rest_rel; [unfold teardown_catalog; rel_auto (fun _ : string => True)|].
  apply rel_try; [apply _|done|]. intros u.
  apply rel_bind; [apply _|rel_auto Framing; apply framing_plan|]. intros ds.
  apply rel_bind; [apply _|apply in_write_txn_quiet; rel_auto (fun _ : string => True)|].
  intros ran. apply rel_bind; [apply _|done|]. intros u'.
  rel_auto Framing. apply framing_schema.
Qed.

Lemma describe_catalog_rest loc ty alias params :
  loc_ok loc -> Ops.is_ident alias = true ->
  hoare at_rest (describe_catalog available_parallelism loc ty alias params) (fun _ => at_rest).
Proof.
  intros Hloc Ha. eapply on_plan_rest; [done|]. intros p plan Hp. cbv zeta.
  set (i := writer p).
  destruct (attach_quiet (conn i) _ _ _ _ Ha Hp) as [Hat Htd].
  apply rest_rel; [unfold teardown_catalog; rel_auto (fun _ : string => True)|].
  apply rel_try; [apply _|done|]. intros u.
  apply rel_bind; [apply _|rel_auto Framing; apply framing_catalog_tables|]. intros listed.
  apply rel_bind; [apply _|done|]. intros u'. by apply rel_ret; apply _.
Qed.

Lemma forget_pond_rest loc : rel (pres at_rest) (forget_pond loc).
Proof.
  apply rel_bind; [apply _|by intros e|]. intros [p|]; [apply evict_rest|by apply rel_ret; apply _].
Qed.

Lemma version_rest : rel (pres at_rest) version.
Proof.
  apply rel_bind; [apply _|by intros e|]. intros [v|]; [by apply rel_ret; apply _|].
  apply rel_bind; [apply _|apply rest_rel; apply lib_open|]. intros r.
  apply rel_bind; [apply _| |intros v; apply rel_bind; [apply _|by intros e []|by rel_auto Framing]].
  destruct r as [c|x]; [|by apply rel_ret; apply _].
  apply rest_rel; (apply rel_bind; [apply _| |intros r; apply rel_bind; [apply _|apply lib_close|]]).
  all: try by intros u; apply rel_ret; apply _.
  - by apply (on_text (ok := fun _ => True)).
  - apply (on_text (ok := Framing)), framing_version.
Qed.

Lemma init_pond_rest loc :
  loc_ok loc -> hoare at_rest (init_pond available_parallelism loc) (fun _ => at_rest).
Proof.
  intros Hloc. eapply hoare_try; [by apply pond_rest| |by intros x e [He _]].
  intros p. by apply hoare_ret; intros e [He _].
Qed.

(** One call of the trait.  A plan is asked of one statement. *)
Inductive step (e : Engine) : Engine -> Prop :=
| step_init loc : loc_ok loc -> step e (init_pond available_parallelism loc e).2
| step_read loc sql cancelled :
    loc_ok loc -> step e (read_query available_parallelism loc sql cancelled e).2
| step_read_arrow loc sql cancelled looks sink :
    loc_ok loc -> step e (read_arrow available_parallelism loc sql cancelled looks sink e).2
| step_write loc sql identity trace cancelled polls :
    loc_ok loc ->
    step e (write_query available_parallelism loc sql identity trace cancelled polls e).2
| step_explain loc sql :
    loc_ok loc -> no_byte ";" sql -> step e (explain_query available_parallelism loc sql e).2
| step_plan loc sql : loc_ok loc -> step e (plan_datasets available_parallelism loc sql e).2
| step_describe loc : loc_ok loc -> step e (describe_schema available_parallelism loc e).2
| step_pull loc ty alias params query identity trace :
    loc_ok loc -> Ops.is_ident alias = true ->
    step e (pull_catalog available_parallelism loc ty alias params query identity trace e).2
| step_describe_catalog loc ty alias params :
    loc_ok loc -> Ops.is_ident alias = true ->
    step e (describe_catalog available_parallelism loc ty alias params e).2
| step_forget loc : step e (forget_pond loc e).2
| step_version : step e (version e).2.

Definition reachable (d : D) (e : Engine) : Prop := rtc step (fresh d) e.

Lemma step_rest e e' : step e e' -> at_rest e -> at_rest e'.
Proof.
  intros [] He.
  - by eapply init_pond_rest.
  - by eapply read_query_rest.
  - by eapply read_arrow_rest.
  - by eapply write_query_rest.
  - by eapply explain_query_rest.
  - by eapply plan_datasets_rest.
  - by eapply describe_schema_rest.
  - by eapply pull_catalog_rest.
  - by eapply describe_catalog_rest.
  - by eapply forget_pond_rest.
  - by apply version_rest.
Qed.

Lemma reachable_rest d e : quiet d -> reachable d e -> at_rest e.
Proof.
  intros Hq. unfold reachable. cut (at_rest (fresh d)).
  - intros Hr Hs. revert Hr. induction Hs as [|a b c Hab _ IH]; [done|].
    intros Ha. by eapply IH, step_rest.
  - by split.
Qed.

(** C25: whatever the calls, the statements of reads, writes and pulls, the timing of
    their cancels and their failures, once a call has returned no connection of any pond
    is inside a transaction or watched by an interrupt, every read connection that exists
    is idle in its pool, and a pool holds no more of them than its bound, which lies
    between 4 and 32.  The calls are those on a location whose paths hold no apostrophe
    (the adapter puts them between quotes as they are), on catalogs whose alias is an
    identifier (as registering one requires), and plans of a text without a semicolon: the
    adapter does not check that last one, and explaining a text such as "SELECT 1; BEGIN"
    is outside this theorem. *)
Theorem nothing_left_open d e :
  quiet d -> reachable d e ->
  (forall c, in_txn c (db e) = false /\ watched c (db e) = false) /\
  forall uri p, ponds e !! uri = Some p ->
    created p = length (idle p) /\ length (idle p) <= max p /\ 4 <= max p <= 32.
Proof.
  intros Hq Hr. destruct (reachable_rest d e Hq Hr) as [He Hp]. split; [done|].
  intros uri p Hu. destruct (Hp _ _ Hu) as [Hc Hm Hb _]. rewrite <- Hc. done.
Qed.

(** in an engine reached by whole calls no read waits for a connection, and a
    write waits only while its looks at the writer's lock find it taken and its token
    alive. *)
Theorem reads_never_wait d e loc :
  quiet d -> reachable d e -> loc_ok loc ->
  (forall sql cancelled, (read_query available_parallelism loc sql cancelled e).1 <> None) /\
  (forall sql cancelled looks sink,
     (read_arrow available_parallelism loc sql cancelled looks sink e).1 <> None) /\
  (forall sql, no_byte ";" sql -> (explain_query available_parallelism loc sql e).1 <> None) /\
  (describe_schema available_parallelism loc e).1 <> None /\
  (forall sql, (plan_datasets available_parallelism loc sql e).1 <> None) /\
  (forall sql identity trace cancelled polls,
     (write_query available_parallelism loc sql identity trace cancelled polls e).1 = None ->
     Forall (eq (false, false)) polls).
Proof.
  intros Hq Hr Hloc. pose proof (reachable_rest d e Hq Hr) as He. split_and!; intros.
  - by apply (read_query_rest loc sql cancelled).
  - by apply (read_arrow_rest loc sql cancelled looks sink).
  - by apply (explain_query_rest loc sql).
  - by apply (describe_schema_rest loc).
  - by apply (plan_datasets_rest loc sql).
  - destruct (write_query_rest loc sql identity trace cancelled polls Hloc e He) as [_ Hn].
    destruct (lock_writer polls) as [o|] eqn:Hl; [by destruct (Hn ltac:(done))|].
    clear - Hl. induction polls as [|[[] []] polls IH]; simpl in Hl; try done; constructor; auto.
Qed.
End rest.

(** ** A DuckDB that keeps the laws *)

Module Sample.
#[local] Arguments String.eqb : simpl never.
#[export] Instance floats : Floats := {| f64 := Z; is_finite := fun _ => true |}.
#[export] Instance serde : Serde :=
  {| from_str := fun s => Err ("not read: " +:+ s); to_string := fun _ => "{}" |}.
#[export] Instance arrow : Arrow :=
  {| record_batch := N; num_rows := fun b => b; batch_json := fun _ => Ok [] |}.

(** The next connection, those in a transaction, those watched, the statements
    that are refused, and the snapshot. *)
Record Toy := {
  next : nat;
  begun : list nat;
  eyed : list nat;
  refused : list string;
  snapshot : option Z;
}.

Definition made (d : Toy) : Toy :=
  {| next := S (next d); begun := begun d; eyed := eyed d; refused := refused d;
     snapshot := snapshot d |}.
Definition set_begun (l : list nat) (d : Toy) : Toy :=
  {| next := next d; begun := l; eyed := eyed d; refused := refused d; snapshot := snapshot d |}.
Definition set_eyed (l : list nat) (d : Toy) : Toy :=
  {| next := next d; begun := begun d; eyed := l; refused := refused d; snapshot := snapshot d |}.
Definition set_snapshot (z : option Z) (d : Toy) : Toy :=
  {| next := next d; begun := begun d; eyed := eyed d; refused := refused d; snapshot := z |}.

Definition without (c : nat) (l : list nat) : list nat := List.filter (fun x => negb (x =? c)) l.

Definition drop_conn (c : nat) (d : Toy) : Toy :=
  set_begun (without c (begun d)) (set_eyed (without c (eyed d)) d).

Definition opens_txn (s : string) : bool := String.eqb s BEGIN || String.eqb s BEGIN_READ.
Definition ends_txn (s : string) : bool := String.eqb s COMMIT || String.eqb s ROLLBACK.

(** A rollback is refused under a watcher only. *)
Definition refuses (c : nat) (s : string) (d : Toy) : bool :=
  existsb (String.eqb s) (refused d) &&
  (negb (String.eqb s ROLLBACK) || existsb (Nat.eqb c) (eyed d)).

Definition run (c : nat) (s : string) (d : Toy) : result unit string * Toy :=
  if refuses c s d then (Err ("Catalog Error: refused"), d)
  else if opens_txn s then (Ok tt, set_begun (c :: without c (begun d)) d)
  else if ends_txn s then (Ok tt, set_begun (without c (begun d)) d)
  else (Ok tt, d).

(** A new connection comes with nothing of an old one's. *)
Definition new_conn (d : Toy) : result nat string * Toy :=
  (Ok (next d), drop_conn (next d) (made d)).

(** Rows: a write adds a snapshot. *)
Definition ask_rows (s : string) (d : Toy) :
    result (list string * list (list Cell.DuckValue)) string * Toy :=
  if existsb (String.eqb s) (refused d) then (Err "Catalog Error: refused", d)
  else if bool_decide (Sql.classify s = Sql.Write) then
    (Ok (["Count"], []), set_snapshot (Some (from_option Z.succ 0%Z (snapshot d))) d)
  else (Ok (["a"], [[Cell.VInt 1]]), d).

#[export] Instance toy : DuckDb Toy := {|
  open_in_memory := new_conn;
  try_clone := fun _ => new_conn;
  close := drop_conn;
  execute_batch := run;
  rows_of := fun _ => ask_rows;
  arrow_of := fun _ s d => (Ok (["a"], [2%N]), d);
  i64_of := fun _ s d => (Ok (snapshot d), d);
  text_of := fun _ s p d => (Ok (Some "v1"), d);
  columns_of := fun _ s d => (Ok [], d);
  arm := fun c _ d => set_eyed (c :: without c (eyed d)) d;
  disarm := fun c d => set_eyed (without c (eyed d)) d;
  elapsed_ms := fun d => (3%N, d);
|}.

#[export] Instance toy_observed : Observed Toy := {|
  in_txn := fun c d => existsb (Nat.eqb c) (begun d);
  watched := fun c d => existsb (Nat.eqb c) (eyed d);
|}.

Lemma without_other c c' l : c' <> c -> existsb (Nat.eqb c') (without c l) = existsb (Nat.eqb c') l.
Proof.
  intros Hne. unfold without. induction l as [|x l IH]; simpl; [done|].
  destruct (Nat.eqb_spec x c) as [->|]; simpl; rewrite IH; [|done].
  by rewrite (proj2 (Nat.eqb_neq c' c) Hne).
Qed.

Lemma without_gone c l : existsb (Nat.eqb c) (without c l) = false.
Proof.
  unfold without. induction l as [|x l IH]; simpl; [done|].
  destruct (Nat.eqb_spec x c) as [->|]; simpl; [done|]. rewrite IH.
  by rewrite (proj2 (Nat.eqb_neq c x)) by done.
Qed.

Lemma cons_other c c' l : c' <> c -> existsb (Nat.eqb c') (c :: without c l) = existsb (Nat.eqb c') l.
Proof. intros Hne. simpl. by rewrite (proj2 (Nat.eqb_neq c' c) Hne), without_other. Qed.

Lemma framing_is_plain s : Framing s -> opens_txn s = false /\ ends_txn s = false.
Proof.
  assert (Hn : forall s, s <> BEGIN -> s <> BEGIN_READ -> s <> COMMIT -> s <> ROLLBACK ->
            opens_txn s = false /\ ends_txn s = false).
  { intros t Hb Hr Hc Hk. unfold opens_txn, ends_txn.
    by rewrite !(proj2 (String.eqb_neq _ _)) by done. }
  intros Hf. destruct Hf as [s Hs| | | | | |ty alias params p s Ha Hp Hs| | | | | | | | |];
    try by apply Hn; discriminate.
  - repeat (apply elem_of_cons in Hs as [->|Hs]; [by apply Hn; discriminate|]).
    by apply not_elem_of_nil in Hs.
  - destruct (plan_heads _ _ _ _ _ Hp Hs) as [(t & ->)|[(t & ->)|[(t & ->)|(t & ->)]]];
      by apply Hn; discriminate.
Qed.

#[export] Instance toy_laws : DuckLaws Toy.
Proof.
  assert (Hrun : forall c s d, touch c d (run c s d).2).
  { intros c s d. unfold run. destruct (refuses c s d); [by repeat split|].
    destruct (opens_txn s); [|destruct (ends_txn s)]; split; try done; intros c' Hc; split; try done.
    - by apply cons_other.
    - by apply without_other. }
  assert (Hask : forall s d, begun (ask_rows s d).2 = begun d /\ eyed (ask_rows s d).2 = eyed d).
  { intros s d. unfold ask_rows. destruct (existsb _ _); [done|]. by destruct (bool_decide _). }
  assert (Hrows : forall s d, unmoved d (ask_rows s d).2).
  { intros s d c. destruct (Hask s d) as [Hb He]. simpl. by rewrite Hb, He. }
  assert (Hdrop : forall c d, reset c d (drop_conn c d)).
  { intros c d. split; [intros c' Hc; simpl; by rewrite !without_other|].
    simpl. by rewrite !without_gone. }
  refine {| law_observed := toy_observed |}; try by repeat split; done.
  - exact Hrun.
  - intros c s d. split; [intros c' _|]; apply Hrows.
  - intros c s d Hf%framing_is_plain. simpl. unfold run. destruct (refuses _ _ _); [done|].
    destruct Hf as [-> ->]. done.
  - intros c s d _. apply Hrows.
  - intros c s d _. simpl. unfold run. destruct (refuses _ _ _); [done|].
    destruct (opens_txn s); [done|]. by destruct (ends_txn s).
  - intros c d. simpl. unfold run. destruct (refuses _ _ _); [done|]. intros _. apply without_gone.
  - intros c d Hw. simpl in *. unfold run, refuses. rewrite Hw, andb_false_r.
    apply without_gone.
  - intros d. exact (Hdrop (next d) (made d)).
  - intros i d. exact (Hdrop (next d) (made d)).
  - intros c d. apply Hdrop.
  - intros c b d. split; [|done]. intros c' Hc. simpl. split; [done|by apply cons_other].
  - intros c d. split_and!; [|done|apply without_gone]. intros c' Hc. simpl.
    split; [done|by apply without_other].
Defined.

Definition start : Toy :=
  {| next := 0; begun := []; eyed := []; refused := ["DROP TABLE missing"; ROLLBACK];
     snapshot := None |}.

Definition loc : Types.PondLocation :=
  {| Types.catalog_uri := "ducklake:duckdb:/data/p1/catalog.db"; Types.data_path := "/data/p1/files";
     Types.catalog_name := "sales"; Types.limits := None; Types.loc_extensions := ["spatial"];
     Types.loc_lineage := false; Types.lineage_dir := "/data/p1/lineage" |}.

Definition who : Identity.Identity :=
  {| Identity.agent_id := "agent"; Identity.subject := EmptyString;
     Identity.issuer := EmptyString; Identity.verified := false |}.

(** A read, then a write that is refused, and whose rollback is refused too while
    the watcher is armed. *)
Definition after_read : Engine Toy := (read_query None loc "SELECT 1" false (fresh start)).2.
Definition after_write : Engine Toy :=
  (write_query None loc "DROP TABLE missing" who None true [(false, false); (true, true)]
     after_read).2.

Lemma loc_is_ok : loc_ok loc.
Proof. split; [reflexivity|reflexivity|repeat constructor]. Qed.

Lemma start_quiet : @quiet Toy law_observed start.
Proof. done. Qed.

Lemma reached : reachable None start after_write.
Proof.
  eapply rtc_l; [apply (step_read None (fresh start) loc "SELECT 1" false loc_is_ok)|].
  eapply rtc_l; [|apply rtc_refl]. apply step_write, loc_is_ok.
Qed.

Definition rollbacks (l : list Event) : list (nat * bool) :=
  omap (fun ev => match ev with
                  | Ran c s ok => if String.eqb s ROLLBACK then Some (c, ok) else None
                  | _ => None
                  end) l.

Lemma nothing_left_open_witness :
  @quiet Toy law_observed start /\ reachable None start after_write /\
  rollbacks (log after_write) = [(0, false); (0, true)] /\
  in_txn 0 (db after_write) = false /\ size (ponds after_write) = 1.
Proof.
  split; [exact start_quiet|]. split; [exact reached|].
  destruct (nothing_left_open None start after_write start_quiet reached) as [Hq _].
  split; [vm_compute; reflexivity|]. split; [exact (proj1 (Hq 0))|vm_compute; reflexivity].
Defined.

Lemma reads_never_wait_witness :
  @quiet Toy law_observed start /\ reachable None start after_write /\ loc_ok loc /\
  (read_query None loc "SELECT 2" false after_write).1 <> None.
Proof.
  split; [exact start_quiet|]. split; [exact reached|]. split; [exact loc_is_ok|].
  exact (proj1 (reads_never_wait None start after_write loc start_quiet reached loc_is_ok)
           "SELECT 2" false).
Defined.
End Sample.
