(* ===== verification/DuckTrail.v ===== *)
(** * What the DuckDB engine sends

    The statements of each operation, in order: a caller's read runs between the
    begin and the end of a read-only transaction; a write that succeeds was
    committed right after its attribution, and one that fails is rolled back last; a
    catalog that was mounted is taken away with its secrets before anything else
    happens; nothing is installed once the process is ready.  These hold over any
    DuckDB. *)
From S2P Require Import Prelude Errors Extensions Policy Common Sql Interfaces Ops DuckText Plan ReadPool DuckEngine DuckEngineLaws DuckEngineSpec.
Import Duck.
#[local] Open Scope rust_scope.
#[local] Arguments String.append !_ _ / : simpl nomatch.

Section trail.
Context `{!Floats} `{!Serde} `{!Arrow} {D : Type} `{!DuckDb D}.
Context (available_parallelism : option N).
Notation Engine := (Engine D).
Notation MR A := (M Engine (result A EngineError)).

(** ** Runs that add to the log *)

(** [m] answers [a] and adds [l] to the log, where [Q a l]. *)
Definition emits {A} (m : M Engine A) (Q : A -> list Event -> Prop) : Prop :=
  forall e, exists l, log (m e).2 = log e ++ l /\ Q (m e).1 l.

Lemma emits_conseq {A} (m : M Engine A) (Q Q' : A -> list Event -> Prop) :
  emits m Q -> (forall a l, Q a l -> Q' a l) -> emits m Q'.
Proof. intros Hm HQ e. destruct (Hm e) as (l & Hl & Hq). eauto. Qed.

Lemma emits_ret {A} (a : A) (Q : A -> list Event -> Prop) : Q a [] -> emits (ret a) Q.
Proof. intros Hq e. exists []. by rewrite app_nil_r. Qed.

Lemma emits_bind {A B} (m : M Engine A) (k : A -> M Engine B) Q S :
  emits m Q -> (forall a l, Q a l -> emits (k a) (fun b l' => S b (l ++ l'))) ->
  emits (bind m k) S.
Proof.
  intros Hm Hk e. unfold bind. destruct (Hm e) as (l & Hl & Hq). destruct (m e) as [a e'].
  simpl in *. destruct (Hk a l Hq e') as (l' & Hl' & Hs). exists (l ++ l').
  by rewrite Hl', Hl, app_assoc.
Qed.

Lemma emits_try {A B E} (m : M Engine (result A E)) (k : A -> M Engine (result B E)) Q S :
  emits m Q -> (forall a l, Q (Ok a) l -> emits (k a) (fun b l' => S b (l ++ l'))) ->
  (forall x l, Q (Err x) l -> S (Err x) l) -> emits (try m k) S.
Proof.
  intros Hm Hk Hx. eapply emits_bind; [exact Hm|]. intros [a|x] l Hq; [by apply Hk|].
  apply emits_ret. rewrite app_nil_r. by apply Hx.
Qed.

Lemma bind_eq {A B} (m : M Engine A) (k : A -> M Engine B) a e e' :
  m e = (a, e') -> bind m k e = k a e'.
Proof. intros Hm. unfold bind. by rewrite Hm. Qed.

Lemma try_eq {A B E} (m : M Engine (result A E)) (k : A -> M Engine (result B E)) r e e' :
  m e = (r, e') -> try m k e = match r with Ok a => k a e' | Err x => (Err x, e') end.
Proof. intros Hm. unfold try. rewrite (bind_eq _ _ _ _ _ Hm). by destruct r. Qed.

Lemma emits_effect {A} (f : D -> A * D) ev : emits (effect f ev) (fun a l => l = ev a).
Proof. intros e. unfold effect. destruct (f (db e)) as [a d]. simpl. eauto. Qed.

Lemma emits_batch c s : emits (batch_ c s) (fun r l => l = [Ran c s (is_ok r)]).
Proof. apply emits_effect. Qed.

Lemma emits_own c context s : emits (own c context s) (fun r l => l = [Ran c s (is_ok r)]).
Proof.
  eapply emits_bind; [apply emits_batch|]. intros r l ->. apply emits_ret.
  rewrite app_nil_r. by destruct r.
Qed.

Lemma emits_callers c s : emits (callers c s) (fun r l => l = [Ran c s (is_ok r)]).
Proof.
  eapply emits_bind; [apply emits_batch|]. intros r l ->. apply emits_ret.
  rewrite app_nil_r. by destruct r.
Qed.

Lemma emits_rollback i : emits (rollback i) (fun _ l => exists b, l = [Ran (conn i) ROLLBACK b]).
Proof.
  eapply emits_bind; [apply emits_batch|]. intros r l ->. apply emits_ret.
  rewrite app_nil_r. by eexists.
Qed.

(** *** Logs whose every event satisfies a predicate *)

Definition logs (P : Event -> Prop) (e e' : Engine) : Prop :=
  exists l, log e' = log e ++ l /\ Forall P l.

#[export] Instance logs_preorder P : PreOrder (logs P).
Proof.
  split.
  - intros e. exists []. by rewrite app_nil_r.
  - intros a b c (l & Hl & Hp) (l' & Hl' & Hp'). exists (l ++ l').
    rewrite Hl', Hl, app_assoc. split; [done|]. by apply Forall_app.
Qed.

Lemma emits_logs P {A} (m : M Engine A) : rel (logs P) m -> emits m (fun _ l => Forall P l).
Proof. intros Hm e. destruct (Hm e) as (l & Hl & Hp). eauto. Qed.

Lemma logs_effect P {A} (f : D -> A * D) ev : (forall a, Forall P (ev a)) -> rel (logs P) (effect f ev).
Proof. intros Hp e. destruct (emits_effect f ev e) as (l & Hl & ->). eexists. eauto. Qed.

(** A query on [c]. *)
Definition asked (c : nat) (ev : Event) : Prop := exists s b, ev = Queried c s b.

(** A statement on [c], or a query of [c], whose text is in [ok]. *)
Definition sent (ok : string -> Prop) (c : nat) (ev : Event) : Prop :=
  exists s b, ok s /\ (ev = Ran c s b \/ ev = Queried c s b).

#[export] Instance sent_on ok c : OnConn (logs (sent ok c)) ok c.
Proof.
  split; split; intros; try apply logs_effect; intros; repeat constructor.
  all: try (by exists s; eexists; split; [done|]; eauto).
  intros e. exists []. split; [|constructor]. simpl. by rewrite app_nil_r.
Qed.

#[export] Instance asked_on c : OnQuery (logs (asked c)) (fun _ => True) c.
Proof.
  split; intros; try apply logs_effect; intros; repeat constructor; try by do 2 eexists.
  intros e. exists []. split; [|constructor]. simpl. by rewrite app_nil_r.
Qed.

(** Anything but a query. *)
Definition unasked (ev : Event) : Prop := match ev with Queried _ _ _ => False | _ => True end.

#[export] Instance unasked_lib : Lib (logs unasked) (fun _ => True).
Proof.
  split; [intros c; split| | | |]; intros; try apply logs_effect; intros; repeat constructor.
  - by destruct a; repeat constructor.
  - by destruct a; repeat constructor.
  - intros e. exists []. split; [|constructor]. simpl. by rewrite app_nil_r.
Qed.

Lemma logs_update P f : (forall e : Engine, log (f e) = log e) -> rel (logs P) (update f).
Proof. intros Hf e. exists []. split; [|constructor]. simpl. by rewrite Hf, app_nil_r. Qed.

Lemma logs_set_ponds P f : rel (logs P) (set_ponds f : M Engine unit).
Proof. by apply logs_update. Qed.

Lemma unasked_ready : rel (logs unasked) ensure_standard_extensions.
Proof. by apply (rel_ensure _ (fun _ => True)), Forall_true. Qed.

Lemma unasked_opens loc : opens (fun _ => True) loc.
Proof. split; intros; try done; by apply Forall_true. Qed.

Lemma unasked_pond loc : rel (logs unasked) (pond available_parallelism loc).
Proof.
  apply (rel_pond _ _ (fun _ => True)); [apply logs_set_ponds|done|apply unasked_ready|].
  apply unasked_opens.
Qed.

Lemma unasked_checkout uri p : rel (logs unasked) (checkout_read uri p).
Proof. by apply (rel_checkout _ (fun _ => True)); [apply logs_set_ponds|..]. Qed.

(** ** Reads *)

(** A read-only transaction on [c] around queries of [c]: committed, or not. *)
Definition read_events (c : nat) (ok : bool) (l : list Event) : Prop :=
  (ok = false /\ l = [Ran c BEGIN_READ false]) \/
  exists q, Forall (asked c) q /\
    ((ok = true /\ l = Ran c BEGIN_READ true :: q ++ [Ran c COMMIT true]) \/
     (ok = false /\ exists b,
        l = Ran c BEGIN_READ true :: q ++ [Ran c ROLLBACK b] \/
        l = Ran c BEGIN_READ true :: q ++ [Ran c COMMIT false; Ran c ROLLBACK b])).

Lemma emits_in_read_txn {A} i (f : MR A) :
  rel (logs (asked (conn i))) f ->
  emits (in_read_txn i f) (fun r l => read_events (conn i) (is_ok r) l).
Proof.
  intros Hf. eapply emits_try; [apply emits_own| |].
  2: { intros x l ->. by left. }
  intros u l ->. eapply emits_bind; [by apply emits_logs|]. intros [a|x] q Hq.
  - eapply emits_bind; [apply emits_own|]. intros [u'|x] l ->.
    + apply emits_ret. rewrite ?app_nil_r. right. exists q. split; [done|]. by left.
    + eapply emits_bind; [apply emits_rollback|]. intros u' l [b ->]. apply emits_ret.
      right. exists q. split; [done|]. right. split; [done|]. exists b. right. simpl.
      by rewrite ?app_nil_r.
  - eapply emits_bind; [apply emits_rollback|]. intros u' l [b ->]. apply emits_ret.
    right. exists q. split; [done|]. right. split; [done|]. exists b. left. simpl.
    by rewrite ?app_nil_r.
Qed.

Lemma emits_run_with_abort {A} i cancelled (m : MR A) Q :
  emits m (fun r l => Q (is_ok r) l) ->
  emits (run_with_abort i cancelled m) (fun r l => exists l',
    l = Armed (conn i) :: l' ++ [Disarmed (conn i)] /\ Q (is_ok r) l').
Proof.
  intros Hm. eapply emits_bind; [apply emits_effect|]. intros u l ->.
  eapply emits_bind; [exact Hm|]. intros r l Hq.
  eapply emits_bind; [apply emits_effect|]. intros u' l' ->. apply emits_ret.
  exists l. simpl. rewrite ?app_nil_r. split; [done|]. by destruct r as [a|[]]; try done; simpl;
    destruct (str_contains _ _).
Qed.

Definition answered {A} (r : option (result A EngineError)) : bool :=
  match r with Some r => is_ok r | None => false end.

(** What [with_read] sends around what it runs. *)
Lemma emits_with_read {A} loc (f : PondInstance -> MR A) Q :
  (forall i, emits (f i) (fun r l => Q (conn i) (is_ok r) l)) ->
  emits (with_read available_parallelism loc f) (fun r l => exists pre, Forall unasked pre /\
    ((answered r = false /\ l = pre) \/
     exists c l', Q c (answered r) l' /\ l = pre ++ l' ++ (if answered r then [] else [Closed c]))).
Proof.
  intros Hf. eapply emits_bind; [apply emits_logs, unasked_pond|]. intros [p|x] pre Hpre.
  2: { apply emits_ret. exists pre. rewrite ?app_nil_r. split; [done|]. by left. }
  eapply emits_bind; [apply emits_logs, unasked_checkout|]. intros g pre' Hpre'.
  assert (Hboth : Forall unasked (pre ++ pre')) by (by apply Forall_app).
  destruct g as [[i|x]|].
  2,3: by apply emits_ret; exists (pre ++ pre'); rewrite ?app_nil_r; split; [done|left].
  eapply emits_bind; [apply Hf|]. intros out l Hq.
  eapply (emits_bind _ _ (fun _ l' => l' = if is_ok out then [] else [Closed (conn i)])).
  - intros e. destruct out as [a|x]; simpl; [exists []|eexists]; [by rewrite ?app_nil_r|done].
  - intros u l' ->. apply emits_ret. exists (pre ++ pre'). split; [done|]. right.
    exists (conn i), l. split; [done|]. simpl. by rewrite ?app_nil_r, app_assoc.
Qed.

(** What a read sends: nothing that is a query but inside its own read-only
    transaction, on a connection that is closed unless the read succeeded. *)
Definition bracketed (sql : string) {A} (r : option (result A EngineError)) (l : list Event) : Prop :=
  if bool_decide (Sql.classify sql = Sql.Write) then
    r = Some (Err EngineError.ReadOnlyViolation) /\ l = []
  else
    exists pre, Forall unasked pre /\
      ((answered r = false /\ l = pre) \/
       exists c l', read_events c (answered r) l' /\
         l = pre ++ Armed c :: l' ++ Disarmed c :: (if answered r then [] else [Closed c])).

Lemma emits_bracketed_read {A} loc sql cancelled (run : PondInstance -> MR A) apply_ :
  (forall i, rel (logs (asked (conn i))) (run i)) ->
  emits (bracketed_read available_parallelism loc sql cancelled run apply_) (bracketed sql).
Proof.
  intros Hrun. unfold bracketed_read, bracketed.
  destruct (bool_decide _); [by apply emits_ret|].
  eapply emits_conseq.
  - apply (emits_with_read _ _ (fun c ok l => exists l', l = Armed c :: l' ++ [Disarmed c] /\
      read_events c ok l')). intros i.
    apply (emits_run_with_abort i cancelled _ (read_events (conn i))).
    apply emits_in_read_txn. rel_auto (fun _ : string => True).
  - intros r l (pre & Hpre & Hcase). exists pre. split; [done|].
    destruct Hcase as [Hl|(c & l' & (l'' & -> & Hr) & ->)]; [by left|]. right. exists c, l''.
    split; [done|]. simpl. by rewrite <- app_assoc.
Qed.

(** a statement classified as a write is refused on the read paths before
    anything is asked of DuckDB; any other is run inside one read-only transaction, with
    what is asked about its datasets, and nothing else is queried outside it; the
    transaction is committed when the read succeeds, and when it does not the connection
    is closed, after a rollback of what was begun. *)
Theorem reads_are_bracketed loc sql cancelled looks sink e :
  (exists l, log (read_query available_parallelism loc sql cancelled e).2 = log e ++ l /\
     bracketed sql (read_query available_parallelism loc sql cancelled e).1 l) /\
  (exists l, log (read_arrow available_parallelism loc sql cancelled looks sink e).2 = log e ++ l /\
     bracketed sql (read_arrow available_parallelism loc sql cancelled looks sink e).1 l).
Proof.
  split.
  - apply emits_bracketed_read. intros i. rel_auto (fun _ : string => True).
  - revert e. eapply (emits_bind _ _ (fun _ l => l = [])).
    + intros e. exists []. simpl. by rewrite app_nil_r.
    + intros u l ->. apply emits_bracketed_read. intros i. rel_auto (fun _ : string => True).
Qed.

(** ** Writes *)

(** The bracket of a write on [c]: what its body sends is between the begin and the
    attribution, and the commit comes right after that, which is a success of a body
    that succeeded; or the last thing is a rollback, unless the transaction was not even
    begun. *)
Definition write_events (c : nat) (snapshots message : string)
    (body : bool -> list Event -> Prop) (ok : bool) (l : list Event) : Prop :=
  exists b0,
    (ok = true /\ exists q b1, body true q /\
       l = Queried c snapshots b0 :: Ran c BEGIN true :: q ++
           [Ran c message true; Ran c COMMIT true; Queried c snapshots b1]) \/
    (ok = false /\ l = [Queried c snapshots b0; Ran c BEGIN false]) \/
    (ok = false /\ exists q rest b,
       ((body false q /\ rest = []) \/
        (body true q /\ rest ∈ [[Ran c message false]; [Ran c message true; Ran c COMMIT false]])) /\
       l = Queried c snapshots b0 :: Ran c BEGIN true :: q ++ rest ++ [Ran c ROLLBACK b]).

Lemma emits_max_snapshot i cat :
  emits (max_snapshot i cat) (fun _ l => exists b, l = [Queried (conn i) (snapshots_sql cat) b]).
Proof.
  eapply emits_bind; [apply emits_effect|]. intros r l ->. apply emits_ret.
  rewrite ?app_nil_r. by eexists.
Qed.

Lemma emits_in_write_txn {A} i identity trace catalog op (body : MR A)
    (Q : bool -> list Event -> Prop) :
  emits body (fun r => Q (is_ok r)) ->
  let cat := Quote.quote_ident catalog in
  emits (in_write_txn i identity trace catalog op body)
    (fun r l => write_events (conn i) (snapshots_sql cat) (commit_message cat op identity trace)
                  Q (is_ok r) l).
Proof.
  intros Hbody cat. set (msg := commit_message cat op identity trace).
  assert (Hroll : forall b0 q rest x,
    ((Q false q /\ rest = []) \/ (Q true q /\
       rest ∈ [[Ran (conn i) msg false]; [Ran (conn i) msg true; Ran (conn i) COMMIT false]])) ->
    emits (rollback i ;; ret (Err x : result (A * option Z) EngineError)) (fun r l =>
      write_events (conn i) (snapshots_sql cat) msg Q (is_ok r)
        (Queried (conn i) (snapshots_sql cat) b0 :: Ran (conn i) BEGIN true :: q ++ rest ++ l))).
  { intros b0 q rest x Hq. eapply emits_bind; [apply emits_rollback|]. intros u l [b ->].
    apply emits_ret. exists b0. right; right. split; [done|]. by exists q, rest, b. }
  eapply emits_bind; [apply emits_max_snapshot|]. intros before l [b0 ->].
  eapply emits_try; [apply emits_own| |].
  2: { intros x l ->. exists b0. right; left. done. }
  intros u l ->. eapply emits_bind; [exact Hbody|]. intros [a|x] q Hq; simpl app.
  2: { eapply emits_conseq; [by apply (Hroll b0 q [] x); left|done]. }
  eapply emits_bind; [apply emits_own|]. intros [u1|x] l ->; simpl app.
  2: { eapply emits_conseq; [apply (Hroll b0 q [Ran (conn i) msg false] x)|done].
       right. split; [done|left]. }
  eapply emits_bind; [apply emits_own|]. intros [u2|x] l ->; simpl app.
  2: { eapply emits_conseq;
         [apply (Hroll b0 q [Ran (conn i) msg true; Ran (conn i) COMMIT false] x)|done].
       right. split; [done|right; left]. }
  eapply emits_bind; [apply emits_max_snapshot|]. intros after l [b1 ->]. apply emits_ret.
  exists b0. left. split; [done|]. by exists q, b1.
Qed.

(** The statement, once, with its outcome; or nothing, when there is none. *)
Definition queried_once (c : nat) (sql : string) (ok : bool) (q : list Event) : Prop :=
  q = [Queried c sql ok] \/ (ok = false /\ trim sql = EmptyString /\ q = []).

Lemma emits_materialize i sql :
  emits (materialize i sql) (fun r => queried_once (conn i) sql (is_ok r)).
Proof.
  apply (emits_try _ _ (fun r => queried_once (conn i) sql (is_ok r)));
    [|intros t l Hl; apply emits_ret; by rewrite app_nil_r|done].
  unfold prepared. destruct (String.eqb_spec (trim sql) EmptyString).
  - apply emits_ret. by right.
  - eapply emits_bind; [apply emits_effect|]. intros r l ->. apply emits_ret. left.
    by destruct r.
Qed.





(** The pond of [loc] is opened or already open, which asks nothing of DuckDB, and what
    follows is [k] of it; when it cannot be opened, nothing follows. *)
Definition on_pond (loc : Types.PondLocation) (e : Engine) {A} (out : A * Engine)
    (refused : EngineError -> A) (k : Pond -> Engine -> Prop) : Prop :=
  let opening := pond available_parallelism loc e in
  (exists pre, log opening.2 = log e ++ pre /\ Forall unasked pre) /\
  match opening.1 with
  | Err x => out = (refused x, opening.2)
  | Ok p => k p opening.2
  end.

Lemma on_pond_opening {A} loc e (out : A * Engine) refused k :
  (forall x e', pond available_parallelism loc e = (Err x, e') -> out = (refused x, e')) ->
  (forall p e', pond available_parallelism loc e = (Ok p, e') -> k p e') ->
  on_pond loc e out refused k.
Proof.
  intros Hx Hk. split.
  - destruct (emits_logs _ _ (unasked_pond loc) e) as (pre & ? & ?). by exists pre.
  - destruct (pond available_parallelism loc e) as [[p|x] e'] eqn:Hp; [by apply Hk|by apply Hx].
Qed.


(** ** External catalogs *)

(** The statements of [l] one after the other, up to the first that fails. *)
Definition in_order (c : nat) (l : list string) (ok : bool) (evs : list Event) : Prop :=
  (ok = true /\ evs = map (fun s => Ran c s true) l) \/
  (ok = false /\ exists before s after,
     l = before ++ s :: after /\ evs = map (fun s => Ran c s true) before ++ [Ran c s false]).

Lemma in_order_nil c : in_order c [] true [].
Proof. by left. Qed.

Lemma in_order_cons c s l ok evs :
  in_order c l ok evs -> in_order c (s :: l) ok (Ran c s true :: evs).
Proof.
  intros [[-> ->]|[-> (b & x & a & -> & ->)]]; [by left|]. right. split; [done|].
  by exists (s :: b), x, a.
Qed.

Lemma in_order_fail c s l : in_order c (s :: l) false [Ran c s false].
Proof. right. split; [done|]. by exists [], s, l. Qed.

Lemma in_order_app c l1 l2 ok a b :
  in_order c l1 true a -> in_order c l2 ok b -> in_order c (l1 ++ l2) ok (a ++ b).
Proof.
  intros [[_ ->]|[? _]] Hb; [|done]. induction l1 as [|s l1 IH]; [done|]. by apply in_order_cons.
Qed.

Lemma in_order_stop c l1 l2 a : in_order c l1 false a -> in_order c (l1 ++ l2) false a.
Proof.
  intros [[? _]|[_ (b & x & r & -> & ->)]]; [done|]. right. split; [done|].
  exists b, x, (r ++ l2). by rewrite <- app_assoc.
Qed.

Lemma emits_load_plan c l :
  emits (load_plan c l) (fun r evs => in_order c (map snd l) (is_ok r) evs).
Proof.
  induction l as [|[x s] l IH]; simpl; [apply emits_ret, in_order_nil|].
  eapply emits_bind; [apply emits_batch|]. intros [u|e] evs ->.
  - eapply emits_conseq; [exact IH|]. intros r evs. apply in_order_cons.
  - apply emits_ret, in_order_fail.
Qed.

Lemma emits_create_secrets c l :
  emits (create_secrets c l) (fun r evs => in_order c (map snd l) (is_ok r) evs).
Proof.
  induction l as [|[x s] l IH]; simpl; [apply emits_ret, in_order_nil|].
  eapply emits_try; [apply emits_callers| |].
  - intros u evs ->. eapply emits_conseq; [exact IH|]. intros r evs. apply in_order_cons.
  - intros e evs ->. apply in_order_fail.
Qed.

(** The statements that mount a catalog, in order. *)
Definition mounts (p : Attach.AttachPlan) : list string :=
  AUTOINSTALL_OFF :: map snd (Attach.load p) ++ map snd (Attach.secrets p) ++ [Attach.attach p].

Lemma emits_attach_inner c p :
  emits (attach_catalog_inner c p) (fun r evs => in_order c (mounts p) (is_ok r) evs).
Proof.
  eapply emits_try; [apply emits_own| |by intros x evs ->; apply in_order_fail].
  intros u evs ->. unfold mounts. eapply emits_try; [apply emits_load_plan| |].
  - intros u1 evs1 Hl. eapply emits_try; [apply emits_create_secrets| |].
    + intros u2 evs2 Hs. eapply emits_conseq; [apply emits_callers|].
      intros r evs ->. apply in_order_cons, in_order_app, in_order_app; [done|done|].
      destruct r; [apply in_order_cons, in_order_nil|apply in_order_fail].
    + intros x evs2 Hs. apply in_order_cons, in_order_app; [done|]. by apply in_order_stop.
  - intros x evs1 Hl. by apply in_order_cons, in_order_stop.
Qed.

(** Each statement once, whatever its outcome. *)
Definition each (c : nat) (l : list string) (evs : list Event) : Prop :=
  exists oks, length oks = length l /\ evs = zip_with (Ran c) l oks.

Lemma emits_run_all c l : emits (run_all c l) (fun _ evs => each c l evs).
Proof.
  induction l as [|s l IH]; simpl; [apply emits_ret; by exists []|].
  eapply emits_bind; [apply emits_batch|]. intros r evs ->.
  eapply emits_conseq; [exact IH|]. intros u evs (oks & Hl & ->).
  exists (is_ok r :: oks). split; simpl; [by rewrite Hl|done].
Qed.

(** A mount that failed is taken away at once; one that did not is used by [mid], whose
    outcome is the whole's, and taken away whatever that was; nothing but queries
    follows. *)
Definition taken_away (c : nat) (p : Attach.AttachPlan) (mid : bool -> list Event -> Prop)
    (ok : bool) (evs : list Event) : Prop :=
  exists mount away, each c (Attach.teardown p) away /\
    ((ok = false /\ in_order c (mounts p) false mount /\ evs = mount ++ away) \/
     exists used post, in_order c (mounts p) true mount /\ mid ok used /\ Forall (asked c) post /\
       evs = mount ++ used ++ away ++ post).

Lemma emits_mounted {A B} i p (use : M Engine A) (after : A -> MR B) (oka : A -> bool) mid :
  emits use (fun a evs => mid (oka a) evs) ->
  (forall a, emits (after a) (fun r evs => Forall (asked (conn i)) evs /\ is_ok r = oka a)) ->
  emits (try! _ := attach_catalog (conn i) p in
         let! a := use in
         teardown_catalog (conn i) p ;; after a)
    (fun r evs => taken_away (conn i) p mid (is_ok r) evs).
Proof.
  intros Huse Hafter.
  eapply (emits_try _ _ (fun r evs =>
    (is_ok r = true /\ in_order (conn i) (mounts p) true evs) \/
    (is_ok r = false /\ exists mount away, each (conn i) (Attach.teardown p) away /\
       in_order (conn i) (mounts p) false mount /\ evs = mount ++ away))).
  - eapply emits_bind; [apply emits_attach_inner|]. intros [u|x] mount Hm.
    + apply emits_ret. left. by rewrite app_nil_r.
    + eapply emits_bind; [apply emits_run_all|]. intros u away Ha. apply emits_ret. right.
      split; [done|]. exists mount, away. by rewrite app_nil_r.
  - intros u mount [[_ Hm]|[? _]]; [|done].
    eapply emits_bind; [exact Huse|]. intros a used Hu.
    eapply emits_bind; [apply emits_run_all|]. intros u' away Ha.
    eapply emits_conseq; [apply Hafter|]. intros r post [Hp ->].
    exists mount, away. split; [done|]. right. by exists used, post.
  - intros x evs [[? _]|[_ (mount & away & Ha & Hm & ->)]]; [done|].
    exists mount, away. split; [done|]. by left.
Qed.

Lemma emits_ext {A} (m m' : M Engine A) Q : (forall e, m e = m' e) -> emits m Q -> emits m' Q.
Proof. intros Heq Hm e. rewrite <- Heq. apply Hm. Qed.

(** What a pull does with the mounted catalog: its plan is asked for, then its query
    runs once in the write bracket, attributed to [pull_catalog]. *)
Definition pulled (c : nat) (cat query message : string) (ok : bool) (evs : list Event) : Prop :=
  exists q w, Forall (asked c) q /\
    write_events c (snapshots_sql cat) message (fun ok q => q = [Ran c query ok]) ok w /\
    evs = q ++ w.

Lemma emits_pull loc plan query identity trace i :
  let cat := Quote.quote_ident (Types.catalog_name loc) in
  emits
    (try! _ := attach_catalog (conn i) plan in
     let! ds := plan_datasets_of loc i query in
     let! ran := in_write_txn i identity trace (Types.catalog_name loc) "pull_catalog"
                   (callers (conn i) query) in
     teardown_catalog (conn i) plan ;;
     match ran with
     | Err e => ret (Err e)
     | Ok (_, snapshot_id) =>
         let! ds := annotate loc i ds in
         ret (Ok (apply_datasets (meta_of 0 0 snapshot_id) (externalized plan ds)))
     end)
    (fun r l => taken_away (conn i) plan
       (pulled (conn i) cat query (commit_message cat "pull_catalog" identity trace)) (is_ok r) l).
Proof.
  intros cat. set (msg := commit_message cat "pull_catalog" identity trace).
  eapply emits_ext; [|apply (emits_mounted i plan
    (let! ds := plan_datasets_of loc i query in
     let! ran := in_write_txn i identity trace (Types.catalog_name loc) "pull_catalog"
                   (callers (conn i) query) in
     ret (ds, ran))
    (fun dr => match dr.2 with
     | Err e => ret (Err e)
     | Ok (_, snapshot_id) =>
         let! ds := annotate loc i dr.1 in
         ret (Ok (apply_datasets (meta_of 0 0 snapshot_id) (externalized plan ds)))
     end) (fun dr => is_ok dr.2) (pulled (conn i) cat query msg))].
  - intros e. unfold try, bind, ret.
    destruct (attach_catalog (conn i) plan e) as [[u|x] e1]; [|reflexivity].
    destruct (plan_datasets_of loc i query e1) as [ds e2].
    destruct (in_write_txn i identity trace _ _ _ e2) as [ran e3].
    destruct (teardown_catalog (conn i) plan e3) as [u' e4]. reflexivity.
  - eapply emits_bind.
    { apply (emits_logs (asked (conn i))). rel_auto (fun _ : string => True). }
    intros ds q Hq. eapply emits_bind.
    { apply (emits_in_write_txn i identity trace _ _ _
        (fun ok q => q = [Ran (conn i) query ok])), emits_callers. }
    intros ran w Hw. apply emits_ret. exists q, w. by rewrite app_nil_r.
  - intros [ds [[u snap]|x]]; [|by apply emits_ret].
    eapply emits_bind.
    { apply (emits_logs (asked (conn i))). rel_auto (fun _ : string => True). }
    intros ds' q Hq. apply emits_ret. by rewrite app_nil_r.
Qed.

(** What a description does with the mounted catalog: its tables are asked for, once. *)
Definition described (c : nat) (alias : string) (ok : bool) (q : list Event) : Prop :=
  q = [Queried c (catalog_tables_sql (Attach.esc alias)) ok] \/ (ok = false /\ q = []).

Lemma emits_describe alias plan i :
  emits
    (try! _ := attach_catalog (conn i) plan in
     let! listed := run_read i (catalog_tables_sql (Attach.esc alias)) in
     teardown_catalog (conn i) plan ;;
     ret (map_ok (fun res => map (fun r => (cell_text r 0, cell_text r 1)) (rows res)) listed))
    (fun r l => taken_away (conn i) plan
       (described (conn i) alias) (is_ok r) l).
Proof.
  apply (emits_mounted i plan _ _ is_ok).
  - unfold run_read. destruct (bool_decide _); [apply emits_ret; by right|].
    eapply (emits_try _ _ (fun r => described (conn i) alias (is_ok r))).
    + eapply emits_conseq; [apply emits_materialize|].
      intros r l [->|(Hr & _ & ->)]; [by left|by right].
    + intros t l Hl. eapply emits_bind; [apply emits_effect|]. intros ms l' ->.
      apply emits_ret. by rewrite app_nil_r.
    + done.
  - intros [res|x]; by apply emits_ret.
Qed.

(** C27: on the connection of its pond's writer a catalog's mount is followed, whatever
    fails in between, by its detach and the drop of every secret of its plan, and after
    that by nothing but queries; a pull runs its query once in the attributed write bracket,
    inside the mount, and succeeds when that committed; a description only asks for the
    catalog's tables there. *)
Theorem catalogs_are_taken_away loc ty alias params query identity trace e :
  let cat := Quote.quote_ident (Types.catalog_name loc) in
  let pull := pull_catalog available_parallelism loc ty alias params query identity trace e in
  let describe := describe_catalog available_parallelism loc ty alias params e in
  on_pond loc e pull Err (fun p e' =>
    match Attach.plan ty alias params with
    | Err x => pull = (Err x, e')
    | Ok plan =>
        exists l, log pull.2 = log e' ++ l /\
          taken_away (conn (writer p)) plan
            (pulled (conn (writer p)) cat query (commit_message cat "pull_catalog" identity trace))
            (is_ok pull.1) l
    end) /\
  on_pond loc e describe Err (fun p e' =>
    match Attach.plan ty alias params with
    | Err x => describe = (Err x, e')
    | Ok plan =>
        exists l, log describe.2 = log e' ++ l /\
          taken_away (conn (writer p)) plan
            (described (conn (writer p)) alias) (is_ok describe.1) l
    end).
Proof.
  cbv zeta. split; apply on_pond_opening; intros p e' Hp;
    unfold pull_catalog, describe_catalog; rewrite !(try_eq _ _ _ _ _ Hp); try done.
  all: destruct (Attach.plan ty alias params) as [plan|x]; [|done].
  - apply (emits_pull loc plan query identity trace (writer p) e').
  - apply (emits_describe alias plan (writer p) e').
Qed.

(** ** Downloads *)

Definition is_install (ev : Event) : bool :=
  match ev with Ran _ s _ => starts_with "INSTALL " s | _ => false end.

Definition installs (l : list Event) : list Event := List.filter is_install l.

(** Once the process has bootstrapped, it stays so and installs nothing. *)
Definition cached_only (e e' : Engine) : Prop :=
  is_Some (standard_ready e) -> is_Some (standard_ready e') /\ installs (log e') = installs (log e).

Definition no_install (s : string) : Prop := starts_with "INSTALL " s = false.

#[export] Instance cached_only_preorder : PreOrder cached_only.
Proof.
  split; [by intros e|]. intros a b c Hab Hbc Ha. destruct (Hab Ha) as [Hb <-]. by apply Hbc.
Qed.

Lemma cached_effect {A} (f : D -> A * D) ev :
  (forall a, installs (ev a) = []) -> rel cached_only (effect f ev).
Proof.
  intros Hev e Hr. unfold effect. destruct (f (db e)) as [a d]. simpl. split; [done|].
  unfold installs in *. by rewrite List.filter_app, Hev, app_nil_r.
Qed.

#[export] Instance cached_query ok c : OnQuery cached_only ok c.
Proof. split; intros; try by apply cached_effect. by intros e. Qed.

#[export] Instance cached_lib : Lib cached_only no_install.
Proof.
  split.
  - intros c. split. intros s Hs. apply cached_effect. intros r. simpl. by rewrite Hs.
  - apply cached_effect. by intros [].
  - intros c. apply cached_effect. by intros [].
  - intros c. by apply cached_effect.
  - intros r e Hr. done.
Qed.

Lemma cached_ready : rel cached_only ensure_standard_extensions.
Proof. intros e [r Hr]. unfold ensure_standard_extensions, bind, ask. by rewrite Hr. Qed.

Lemma cached_opens loc : opens no_install loc.
Proof. split; intros; try done; by apply Forall_true. Qed.

Lemma cached_ponds f : rel cached_only (set_ponds f : M Engine unit).
Proof. by intros e. Qed.

Lemma cached_pond loc : rel cached_only (pond available_parallelism loc).
Proof.
  apply (rel_pond _ _ no_install); [apply cached_ponds|done|apply cached_ready|apply cached_opens].
Qed.

Lemma cached_with_read {A} loc (f : PondInstance -> MR A) :
  (forall i, rel cached_only (f i)) -> rel cached_only (with_read available_parallelism loc f).
Proof.
  apply (rel_with_read _ _ no_install);
    [apply cached_ponds|done|apply cached_ready|apply cached_opens].
Qed.

Lemma cached_abort {A} i cancelled (m : MR A) :
  rel cached_only m -> rel cached_only (run_with_abort i cancelled m).
Proof.
  intros Hm. apply rel_bind; [apply _|by apply cached_effect|]. intros u.
  apply rel_bind; [apply _|done|]. intros r. apply rel_bind; [apply _|by apply cached_effect|].
  intros u'. by apply rel_ret; apply _.
Qed.

Lemma cached_attach c ty alias params p :
  Attach.plan ty alias params = Ok p ->
  rel cached_only (attach_catalog c p) /\ rel cached_only (teardown_catalog c p).
Proof.
  intros Hp.
  assert (Hf : Forall no_install (Attach.attach p :: Attach.teardown p ++ map snd (Attach.secrets p))).
  { apply Forall_forall. intros s Hs.
    by destruct (plan_heads _ _ _ _ _ Hp Hs) as [(t & ->)|[(t & ->)|[(t & ->)|(t & ->)]]]. }
  apply Forall_cons in Hf as [Ha [Ht Hs]%Forall_app].
  split; [|by apply (rel_run_all _ no_install {| conn := c; alias := EmptyString |})].
  apply (rel_attach_catalog _ no_install {| conn := c; alias := EmptyString |}); try done.
  rewrite (plan_load _ _ _ _ Hp). unfold Attach.loads. destruct (Catalog.lookup ty); [|done].
  rewrite map_map. apply Forall_fmap. by apply Forall_true.
Qed.

(** once the standard extensions were seen to, no operation installs one: a pond
    is opened, a catalog mounted and a statement run from what the node's cache holds,
    unless a pull's own query is an INSTALL. *)
Theorem nothing_installed_while_serving e :
  is_Some (standard_ready e) ->
  let same {A} (m : M Engine A) := installs (log (m e).2) = installs (log e) in
  (forall loc, same (init_pond available_parallelism loc)) /\
  (forall loc sql cancelled, same (read_query available_parallelism loc sql cancelled)) /\
  (forall loc sql cancelled looks sink,
     same (read_arrow available_parallelism loc sql cancelled looks sink)) /\
  (forall loc sql identity trace cancelled polls,
     same (write_query available_parallelism loc sql identity trace cancelled polls)) /\
  (forall loc sql, same (explain_query available_parallelism loc sql)) /\
  (forall loc, same (describe_schema available_parallelism loc)) /\
  (forall loc ty alias params, same (describe_catalog available_parallelism loc ty alias params)) /\
  (forall loc ty alias params query identity trace, starts_with "INSTALL " query = false ->
     same (pull_catalog available_parallelism loc ty alias params query identity trace)).
Proof.
  intros He same.
  assert (Hrel : forall A (m : M Engine A), rel cached_only m -> same A m).
  { intros A m Hm. by apply (Hm e). }
  assert (Hread : forall A loc sql cancelled (run : PondInstance -> MR A) apply_,
    (forall i, rel cached_only (run i)) ->
    rel cached_only (bracketed_read available_parallelism loc sql cancelled run apply_)).
  { intros A loc sql cancelled run apply_ Hrun. unfold bracketed_read.
    destruct (bool_decide _); [by apply rel_ret; apply _|].
    apply cached_with_read. intros i. apply cached_abort, (rel_in_read_txn _ no_install);
      try done; rel_auto (fun _ : string => True). }
  assert (Hplan : forall A loc ty alias params (k : Pond -> Attach.AttachPlan -> MR A),
    (forall p plan, rel cached_only (attach_catalog (conn (writer p)) plan) ->
       rel cached_only (teardown_catalog (conn (writer p)) plan) -> rel cached_only (k p plan)) ->
    rel cached_only (try! p := pond available_parallelism loc in
                     try! plan := ret (Attach.plan ty alias params) in k p plan)).
  { intros A loc ty alias params k Hk. apply rel_try; [apply _|apply cached_pond|]. intros p.
    destruct (Attach.plan ty alias params) as [plan|x] eqn:Hp; [|by apply (rel_ret cached_only (Err x))].
    destruct (cached_attach (conn (writer p)) _ _ _ _ Hp) as [Ha Ht]. by apply (Hk p plan). }
  split_and!; intros; apply Hrel.
  - apply rel_try; [apply _|apply cached_pond|]. intros p. by apply rel_ret; apply _.
  - apply Hread. intros i. rel_auto (fun _ : string => True).
  - apply rel_bind; [apply _|by intros e'|]. intros u. apply Hread. intros i.
    rel_auto (fun _ : string => True).
  - apply rel_bind; [apply _|apply cached_pond|]. intros [p|x]; [|by apply rel_ret; apply _].
    destruct (lock_writer polls) as [[u|x]|]; [|by apply rel_ret; apply _..].
    apply rel_bind; [apply _| |intros [a|x]; rel_auto no_install]. apply cached_abort.
    apply rel_bind; [apply _|rel_auto (fun _ : string => True)|]. intros ds.
    apply rel_try; [apply _| |intros res; rel_auto (fun _ : string => True)].
    apply rel_try; [apply _| |intros t; rel_auto (fun _ : string => True)].
    + apply (rel_in_write_txn _ no_install); try done; rel_auto (fun _ : string => True).
    + by apply cached_effect.
  - apply cached_with_read. intros i. rel_auto (fun _ : string => True).
  - apply rel_bind; [apply _| |intros r; by apply rel_ret; apply _].
    apply cached_with_read. intros i. rel_auto (fun _ : string => True).
  - apply Hplan. intros p plan Ha Ht. rel_auto (fun _ : string => True).
  - apply Hplan. intros p plan Ha Ht. cbv zeta.
    apply rel_try; [apply _|done|]. intros u.
    apply rel_bind; [apply _|rel_auto (fun _ : string => True)|]. intros ds.
    apply rel_bind; [apply _|rel_auto no_install|]. intros ran.
    apply rel_bind; [apply _|done|]. intros u'. rel_auto (fun _ : string => True).
Qed.

(** ** Answers *)

Lemma advanced_Some before after id :
  advanced before after = Some id -> after = Some id /\ from_option (fun b => (b < id)%Z) True before.
Proof.
  unfold advanced. destruct before as [b|], after as [a|]; try done.
  destruct (Z.ltb_spec b a); [|done]. by intros [= <-].
Qed.

Lemma in_write_txn_answer {A} i identity trace catalog op (body : MR A) e a snap :
  (in_write_txn i identity trace catalog op body e).1 = Ok (a, snap) ->
  exists after, snap = advanced (max_snapshot i (Quote.quote_ident catalog) e).1 after.
Proof.
  unfold in_write_txn, try, bind, ret. set (cat := Quote.quote_ident catalog).
  destruct (max_snapshot i cat e) as [before e0]. simpl.
  destruct (own (conn i) EmptyString BEGIN e0) as [[u|x] e1]; [|done].
  destruct (body e1) as [[b|x] e2]; [|by destruct (rollback i e2)].
  destruct (own (conn i) EmptyString _ e2) as [[u1|x] e3]; [|by destruct (rollback i e3)].
  destruct (own (conn i) EmptyString COMMIT e3) as [[u2|x] e4]; [|by destruct (rollback i e4)].
  destruct (max_snapshot i cat e4) as [after e5]. simpl. intros [= <- <-]. by eexists.
Qed.

(** a write that succeeds answers with the snapshot it published and no rows, a
    snapshot later than any before it; or, when it published none, with the rows it
    returned, counted in its meta. *)
Theorem write_answer_spec i sql identity trace catalog e res :
  (run_write i sql identity trace catalog e).1 = Ok res ->
  match Meta.snapshot_id (meta res) with
  | Some id =>
      columns res = [] /\ rows res = [] /\ Meta.rows (meta res) = 0%N /\
      from_option (fun b => (b < id)%Z) True (max_snapshot i (Quote.quote_ident catalog) e).1
  | None => Meta.rows (meta res) = N.of_nat (length (rows res))
  end.
Proof.
  unfold run_write, try, bind at 1.
  destruct (in_write_txn i identity trace catalog "write_query" (materialize i sql) e)
    as [[[t snap]|x] e1] eqn:Hin; [|done].
  destruct (in_write_txn_answer i identity trace catalog "write_query" (materialize i sql) e t snap)
    as [after Hsnap]; [by rewrite Hin|].
  unfold bind, ret. destruct (elapsed_ e1) as [ms e2]. simpl.
  destruct snap as [id|]; intros [= <-]; simpl; [|done].
  symmetry in Hsnap. by apply advanced_Some in Hsnap as [_ ?].
Qed.

(** ** Where the code does something else than it says *)

(** The guard against [EXPLAIN ANALYZE] looks at the first word only: behind a
    comment the statement goes out as it is, and when its JSON form is refused it goes
    out again as [EXPLAIN /* */ ANALYZE DELETE FROM t], which runs it. *)
Theorem explain_guard_misses_comments i e :
  exists b l, log (run_explain i "/* */ ANALYZE DELETE FROM t" e).2 =
    log e ++ Queried (conn i) "EXPLAIN (FORMAT JSON) /* */ ANALYZE DELETE FROM t" b :: l /\
    (b = false ->
       exists b', l = [Queried (conn i) "EXPLAIN /* */ ANALYZE DELETE FROM t" b']).
Proof.
  set (sql := "/* */ ANALYZE DELETE FROM t").
  assert (Hcells : forall s, emits (explain_cells i s) (fun r l => l = [Queried (conn i) s (is_ok r)])).
  { intros s. eapply emits_bind; [apply emits_effect|]. intros r l ->. apply emits_ret.
    rewrite app_nil_r. by destruct r. }
  cut (emits (run_explain i sql) (fun _ l => exists b l',
    l = Queried (conn i) ("EXPLAIN (FORMAT JSON) " +:+ sql) b :: l' /\
    (b = false -> exists b', l' = [Queried (conn i) ("EXPLAIN " +:+ sql) b']))).
  { intros Hc. destruct (Hc e) as (l & Hl & b & l' & -> & Hb). by exists b, l'. }
  unfold run_explain. change (starts_with "analyze" (to_lowercase (trim_start sql))) with false.
  cbv iota. eapply emits_bind; [apply Hcells|]. intros [cells|x] l ->.
  - apply emits_ret. exists true, []. by split.
  - apply (emits_conseq _ (fun _ l => exists b', l = [Queried (conn i) ("EXPLAIN " +:+ sql) b'])).
    + eapply emits_try; [apply Hcells| |by intros x' l ->; eexists].
      intros c l ->. apply emits_ret. rewrite app_nil_r. by eexists.
    + intros r l [b' ->]. exists false, [Queried (conn i) ("EXPLAIN " +:+ sql) b'].
      split; [done|]. intros _. by exists b'.
Qed.

(** An error of no known class that mentions the word in passing is reported as a
    cancel, though nothing was cancelled. *)
Theorem interrupt_is_matched_anywhere :
  normalized (Err (ErrClass.classify_message
    "Out of Memory Error: could not allocate block for table interrupts") : result unit EngineError)
  = Err EngineError.Cancelled.
Proof. reflexivity. Qed.
End trail.

(** ** Witnesses *)

Module TrailSample.
Import DuckEngineSpec.Sample.

Lemma nothing_installed_while_serving_witness :
  is_Some (standard_ready after_write) /\ length (installs (log after_write)) = 3 /\
  installs (log (init_pond None loc after_write).2) = installs (log after_write).
Proof.
  assert (Hr : is_Some (standard_ready after_write)) by (vm_compute; eexists; reflexivity).
  split; [exact Hr|]. split; [vm_compute; reflexivity|].
  exact (proj1 (nothing_installed_while_serving None after_write Hr) loc).
Defined.

Definition session : PondInstance := {| conn := 0; alias := "sales" |}.

Lemma write_answer_spec_witness :
  exists res, (run_write session "CREATE TABLE t(a INT)" who None "sales" after_write).1 = Ok res /\
    Meta.snapshot_id (meta res) = Some 0%Z /\ rows res = [].
Proof.
  destruct (run_write session "CREATE TABLE t(a INT)" who None "sales" after_write).1
    as [res|x] eqn:Hres; [|vm_compute in Hres; discriminate Hres].
  exists res. split; [reflexivity|].
  pose proof (write_answer_spec session "CREATE TABLE t(a INT)" who None "sales" after_write res Hres)
    as Hspec.
  assert (Hid : Meta.snapshot_id (meta res) = Some 0%Z).
  { vm_compute in Hres. injection Hres as <-. reflexivity. }
  rewrite Hid in Hspec. destruct Hspec as (_ & Hrows & _). by split.
Defined.
End TrailSample.
