(* ===== verification/Admin.v ===== *)
(** * The operators' service

    Models [latiq-control-plane/src/admin_service.rs] with [trace_meta.rs]: every
    handler of the Admin service over the registry, who it takes the caller to be,
    and the access record it leaves.  The messages are the protocol's; the registry's
    JSON view of the policy is the JSON crate's.  Durations are drawn from the
    [Entropy] of the control plane. *)
From S2P Require Import Prelude Errors Extensions Policy Common Registry Interfaces ControlPlane Auth Ops.
Import Registry.
#[local] Open Scope rust_scope.
#[local] Arguments String.append !_ _ / : simpl nomatch.

Module Admin.
Import Service.

(** A refusal: an error of the registry with its details, or one of the service's
    own; a caller turned away is told where tokens come from. *)
Inductive Status :=
| Traced (s : Service.Status)
| InvalidArgument (m : string)
| Unauthenticated (m : string) (www_authenticate : option string).

Record NodeInfo := {
  n_node_id : string;
  n_mcp_endpoint : string;
  n_state : string;
  n_pond_count : N;
  n_last_heartbeat : string;
  n_heartbeat_age_seconds : N;
}.

Record PondSummary := {
  s_pond_id : string;
  s_name : string;
  s_owner : string;
  s_created_at : string;
  s_node_id : string;
  s_tier : string;
  s_description : string;
  s_lineage : bool;
}.

(** The service's methods with their messages; a message may be absent. *)
Inductive Request :=
| ListNodes
| DescribeNode (node_id : string)
| PolicyGet
| PolicySet (key value : string)
| PondList
| PondSetTier (pond tier : string)
| PondForget (pond : string) (confirm : bool)
| DatasetAdd (dataset : option DatasetMsg)
| DatasetRemove (name : string)
| DatasetList (query : string)
| CatalogAdd (catalog : option CatalogMsg)
| CatalogRemove (name : string)
| CatalogList (query : string).

Inductive Response :=
| Nodes (nodes : list NodeInfo)
| Node (node : option NodeInfo)
| PolicyJson (policy_json : string)
| Done
| Ponds (ponds : list PondSummary)
| Tiered (pond tier : string)
| Forgotten (pond_id name node_id node_state : string)
| DatasetName (name : string)
| Datasets (datasets : list DatasetMsg)
| CatalogName (name : string) (dropped_params : list string)
| Catalogs (catalogs : list CatalogMsg).

Definition op_of (r : Request) : string :=
  match r with
  | ListNodes => "list_nodes"
  | DescribeNode _ => "describe_node"
  | PolicyGet => "policy_get"
  | PolicySet _ _ => "policy_set"
  | PondList => "pond_list"
  | PondSetTier _ _ => "pond_set_tier"
  | PondForget _ _ => "pond_forget"
  | DatasetAdd _ => "dataset_add"
  | DatasetRemove _ => "dataset_remove"
  | DatasetList _ => "dataset_list"
  | CatalogAdd _ => "catalog_add"
  | CatalogRemove _ => "catalog_remove"
  | CatalogList _ => "catalog_list"
  end.

Definition node_info (n : Rows.NodeRow) : NodeInfo :=
  {| n_node_id := Rows.node_id n; n_mcp_endpoint := Rows.mcp_endpoint n;
     n_state := Rows.state n; n_pond_count := Rows.pond_count n;
     n_last_heartbeat := Rows.last_heartbeat n;
     n_heartbeat_age_seconds := Z.to_N (Z.max (Rows.heartbeat_age_seconds n) 0) |}.

Definition pond_summary (d : Detail) : PondSummary :=
  let '(row, created_at, _, _) := d in
  {| s_pond_id := Rows.p_pond_id row; s_name := Rows.p_name row;
     s_owner := Rows.p_owner_identity row; s_created_at := created_at;
     s_node_id := Rows.p_node_id row; s_tier := Rows.p_tier row;
     s_description := Rows.p_description row; s_lineage := Rows.p_lineage row |}.

(** The policy as [serde_json] prints it. *)
Class PolicyText := { policy_json : list (string * string) -> string }.

(** The registry's handle and the access trail. *)
Record Desk := { store : Store; trail : list Access.Record_ }.

Section admin.
Context `{!Sql} `{!Entropy} `{!Codec} `{!PolicyText} `{!Jwt} `{!Urls}.

Notation MR A := (M Desk (result A Status)).

(** ** Who is calling *)

Record AdminService := { verifier : option Verify.Verifier; challenge : option string }.

Definition new : AdminService := {| verifier := None; challenge := None |}.
Definition with_verifier (v : option Verify.Verifier) (s : AdminService) : AdminService :=
  {| verifier := v; challenge := challenge s |}.
Definition with_metadata_url (url : option string) (s : AdminService) : AdminService :=
  {| verifier := verifier s; challenge := Metadata.challenge_header <$> url |}.

Variable service : AdminService.

(** What the metadata crate takes for a header's value. *)
Variable header_ok : string -> bool.

Definition unauthenticated (message : string) : Status :=
  Unauthenticated message
    (match challenge service with
     | Some c => if header_ok c then Some c else None
     | None => None
     end).

(** One call: its headers, a UUID for the span of a parsed context, what the key
    caches answer, the verifier's clock, and how long the call has taken when its
    record is written. *)
Record Call := {
  md : Metadata;
  uuid : string;
  key_for : string -> string -> result Jwks.SigningKey AuthError;
  clock : N;
  elapsed : N;
}.

Variable call : Call.

Definition trace_id_of : string :=
  default EmptyString (Trace.trace_id <$> (traceparent (md call) ≫= Trace.parse (uuid call))).

Definition audit (identity : Identity.Identity) (op : string) (pond : option string)
    (summary outcome trace : string) : M Desk unit :=
  fun d => (tt, {| store := store d;
                   trail := trail d ++
                     [Access.record (if String.eqb trace EmptyString then None else Some trace)
                        identity op pond (Some summary) (elapsed call) outcome] |}).

Definition identity_of (op : string) : MR (Identity.Identity * string) :=
  let trace := trace_id_of in
  let claimed := latiq_agent_id (md call) in
  match verifier service with
  | None => ret (Ok (Identity.claimed claimed, trace))
  | Some v =>
      match authorization (md call) ≫= Common.bearer with
      | None =>
          audit (Identity.claimed claimed) op None "rejected: no token" Access.ERROR trace ;;
          ret (Err (unauthenticated "a bearer token is required"))
      | Some token =>
          match Verify.verify v (key_for call) (clock call) token claimed with
          | Err _ =>
              audit (Identity.claimed claimed) op None "rejected: invalid token" Access.ERROR
                trace ;;
              ret (Err (unauthenticated "the bearer token was rejected"))
          | Ok verified => ret (Ok (verified, trace))
          end
      end
  end.

(** What is persisted as a row's creator. *)
Definition created_by (identity : Identity.Identity) (claimed : string) : string :=
  if Identity.verified identity && negb (String.eqb (Identity.subject identity) EmptyString)
  then Identity.subject identity
  else if String.eqb (trim claimed) EmptyString then "anonymous" else claimed.

(** ** The handlers *)

(** One method of the registry under its lock, whatever it answers. *)
Definition at_registry {A} (trace : string)
    (f : Store -> result A ControlPlaneError * Registry) : MR A :=
  fun d =>
    let (res, r) := f (store d) in
    (map_err (fun e => Traced (to_status_traced e (Some trace))) res,
     {| store := drawn (store d) r; trail := trail d |}).

Definition reading {A} (f : Store -> result A ControlPlaneError) (c : Store) :
    result A ControlPlaneError * Registry := (f c, registry c).

Definition list_nodes : MR Response :=
  try! (identity, trace) := identity_of "list_nodes" in
  let! res := at_registry trace
                (reading (fun c => Ok (Ops.list_nodes (now_at (draws c)) (registry c)))) in
  audit identity "list_nodes" None EmptyString (Access.outcome_of res) trace ;;
  ret (let? rows := res in Ok (Nodes (map node_info rows))).

Definition describe_node (node_id : string) : MR Response :=
  try! (identity, trace) := identity_of "describe_node" in
  let! res := at_registry trace
                (reading (fun c => Ops.describe_node (now_at (draws c)) node_id (registry c))) in
  audit identity "describe_node" None ("node=" +:+ node_id) (Access.outcome_of res) trace ;;
  ret (let? row := res in Ok (Node (Some (node_info row)))).

Definition policy_get : MR Response :=
  try! (identity, trace) := identity_of "policy_get" in
  let! res := at_registry trace (reading (fun c => Ok (Ops.policy_get (registry c)))) in
  audit identity "policy_get" None EmptyString (Access.outcome_of res) trace ;;
  ret (let? p := res in Ok (PolicyJson (policy_json p))).

Definition policy_set (key value : string) : MR Response :=
  try! (identity, trace) := identity_of "policy_set" in
  let! res := at_registry trace (fun c => Ops.policy_set key value (registry c)) in
  audit identity "policy_set" None ("key=" +:+ key +:+ " value=" +:+ value)
    (Access.outcome_of res) trace ;;
  ret (let? _ := res in Ok Done).

(** [seen i] is the registry as row [i] is looked up. *)
Definition pond_list (seen : nat -> Registry) : MR Response :=
  try! (identity, trace) := identity_of "pond_list" in
  let! listed := at_registry trace (reading (fun c => Ok (Ops.list_ponds (registry c)))) in
  audit identity "pond_list" None EmptyString (Access.outcome_of listed) trace ;;
  ret (let? rows := listed in
       let? ponds := details pond_summary
                       (fun e => Traced (to_status_traced e (Some trace))) seen 0 rows in
       Ok (Ponds ponds)).

Definition rejected {A} (identity : Identity.Identity) (op : string) (pond : option string)
    (summary trace message : string) : MR A :=
  audit identity op pond ("rejected: " +:+ summary) Access.ERROR trace ;;
  ret (Err (InvalidArgument message)).

Definition pond_set_tier (pond tier : string) : MR Response :=
  try! (identity, trace) := identity_of "pond_set_tier" in
  if String.eqb (trim pond) EmptyString then
    rejected identity "pond_set_tier" None "pond is required" trace "pond is required"
  else
    let! res := at_registry trace (fun c => Ops.set_pond_tier pond tier (registry c)) in
    audit identity "pond_set_tier" (Some pond) ("tier=" +:+ tier) (Access.outcome_of res) trace ;;
    ret (let? _ := res in Ok (Tiered pond tier)).

Definition forget_confirm (pond : string) : string :=
  "pond_forget removes the registry record for pond '" +:+ pond
  +:+ "' (its data on the departed node is NOT deleted, only orphaned); set confirm=true to proceed".

Definition forget_summary (res : result Rows.ForgottenPond Status) : string :=
  match res with
  | Ok f => "forgot record; data orphaned on node=" +:+ Rows.f_node_id f
  | Err _ => "refused"
  end.

Definition pond_forget (pond : string) (confirm : bool) : MR Response :=
  try! (identity, trace) := identity_of "pond_forget" in
  if String.eqb (trim pond) EmptyString then
    rejected identity "pond_forget" None "pond is required" trace "pond is required"
  else if negb confirm then
    rejected identity "pond_forget" (Some pond) "confirm is required" trace (forget_confirm pond)
  else
    let! res := at_registry trace (fun c => Ops.forget_pond pond (registry c)) in
    audit identity "pond_forget" (Some pond) (forget_summary res) (Access.outcome_of res) trace ;;
    ret (let? f := res in
         Ok (Forgotten (Rows.f_pond_id f) (Rows.f_name f) (Rows.f_node_id f)
               (Rows.f_node_state f))).

Definition dataset_row (identity : Identity.Identity) (d : DatasetMsg) : Rows.DatasetRow :=
  {| Rows.ds_name := d_name d; Rows.ds_description := d_description d; Rows.ds_tags := d_tags d;
     Rows.ds_tables := map dataset_table_from_msg (d_tables d);
     Rows.ds_created_by := created_by identity (d_created_by d);
     Rows.ds_created_at := EmptyString |}.

Definition dataset_add (dataset : option DatasetMsg) : MR Response :=
  try! (identity, trace) := identity_of "dataset_add" in
  match dataset with
  | None => rejected identity "dataset_add" None "dataset is required" trace "dataset is required"
  | Some d =>
      let row := dataset_row identity d in
      let! res := at_registry trace
                    (fun c => Ops.add_dataset (now_at (draws c)) row (registry c)) in
      audit identity "dataset_add" None ("dataset=" +:+ Rows.ds_name row)
        (Access.outcome_of res) trace ;;
      ret (let? name := res in Ok (DatasetName name))
  end.

Definition dataset_remove (name : string) : MR Response :=
  try! (identity, trace) := identity_of "dataset_remove" in
  let! res := at_registry trace (fun c => Ops.remove_dataset name (registry c)) in
  audit identity "dataset_remove" None ("dataset=" +:+ name) (Access.outcome_of res) trace ;;
  ret (let? _ := res in Ok Done).

Definition dataset_list (query : string) : MR Response :=
  try! (identity, trace) := identity_of "dataset_list" in
  let! res := at_registry trace (reading (fun c => Ops.list_datasets query (registry c))) in
  audit identity "dataset_list" None ("query=" +:+ query) (Access.outcome_of res) trace ;;
  ret (let? ds := res in Ok (Datasets (map dataset_to_msg ds))).

(** What is stored of a catalog's parameters are those its type allows. *)
Definition catalog_row (identity : Identity.Identity) (c : CatalogMsg) : Rows.CatalogRow :=
  {| Rows.ca_name := c_name c; Rows.ca_type := c_type c;
     Rows.ca_params := (Catalog.filter_params (c_type c) (c_params c)).1;
     Rows.ca_description := c_description c; Rows.ca_tags := c_tags c;
     Rows.ca_created_by := created_by identity (c_created_by c);
     Rows.ca_created_at := EmptyString |}.

Definition catalog_add (catalog : option CatalogMsg) : MR Response :=
  try! (identity, trace) := identity_of "catalog_add" in
  match catalog with
  | None => rejected identity "catalog_add" None "catalog is required" trace "catalog is required"
  | Some c =>
      if negb (Catalog.is_known_type (c_type c)) then
        rejected identity "catalog_add" None ("unknown catalog type " +:+ c_type c) trace
          ("unknown catalog type '" +:+ c_type c +:+ "' (supported: iceberg)")
      else
        let dropped := (Catalog.filter_params (c_type c) (c_params c)).2 in
        let row := catalog_row identity c in
        let! res := at_registry trace
                      (fun s => Ops.add_catalog (now_at (draws s)) row (registry s)) in
        audit identity "catalog_add" None
          ("catalog=" +:+ Rows.ca_name row +:+ " type=" +:+ Rows.ca_type row)
          (Access.outcome_of res) trace ;;
        ret (let? name := res in Ok (CatalogName name dropped))
  end.

Definition catalog_remove (name : string) : MR Response :=
  try! (identity, trace) := identity_of "catalog_remove" in
  let! res := at_registry trace (fun c => Ops.remove_catalog name (registry c)) in
  audit identity "catalog_remove" None ("catalog=" +:+ name) (Access.outcome_of res) trace ;;
  ret (let? _ := res in Ok Done).

Definition catalog_list (query : string) : MR Response :=
  try! (identity, trace) := identity_of "catalog_list" in
  let! res := at_registry trace (reading (fun c => Ops.list_catalogs query (registry c))) in
  audit identity "catalog_list" None ("query=" +:+ query) (Access.outcome_of res) trace ;;
  ret (let? cs := res in Ok (Catalogs (map catalog_to_msg cs))).

(** The service as the server dispatches to it. *)
Definition handle (seen : nat -> Registry) (r : Request) : MR Response :=
  match r with
  | ListNodes => list_nodes
  | DescribeNode node_id => describe_node node_id
  | PolicyGet => policy_get
  | PolicySet key value => policy_set key value
  | PondList => pond_list seen
  | PondSetTier pond tier => pond_set_tier pond tier
  | PondForget pond confirm => pond_forget pond confirm
  | DatasetAdd dataset => dataset_add dataset
  | DatasetRemove name => dataset_remove name
  | DatasetList query => dataset_list query
  | CatalogAdd catalog => catalog_add catalog
  | CatalogRemove name => catalog_remove name
  | CatalogList query => catalog_list query
  end.
End admin.
End Admin.
