(* ===== verification/AdminSpec.v ===== *)
(** * What the operators' service promises

    Every call leaves one access record that says what became of it, the calls
    turned away at the door included; where tokens are required nothing reaches the
    registry without a verified one; the registry keeps its invariant; and what is
    stored of a dataset or a catalog names its verified creator and no credential. *)
From S2P Require Import Prelude Errors Extensions Policy Common Registry RegistryInv RegistrySpec Interfaces ControlPlane ControlPlaneSpec Auth AuthSpec Ops Admin.
Import Registry.
Import Admin.
#[local] Open Scope rust_scope.
#[local] Arguments String.append !_ _ / : simpl nomatch.

(** ** One call *)

Section calls.
Context `{!Sql} `{!Entropy} `{!Codec} `{!PolicyText} `{!Jwt} `{!Urls}.
Variables (service : AdminService) (header_ok : string -> bool) (call : Call).

(** The verified caller, or the claimed one where nothing is verified. *)
Definition admitted : option Identity.Identity :=
  let claimed := Service.latiq_agent_id (md call) in
  match verifier service with
  | None => Some (Identity.claimed claimed)
  | Some v =>
      match Service.authorization (md call) ≫= Common.bearer with
      | None => None
      | Some token => res_ok (Verify.verify v (key_for call) (clock call) token claimed)
      end
  end.

Definition entry (identity : Identity.Identity) (op : string) (pond : option string)
    (summary outcome : string) : Access.Record_ :=
  let trace := trace_id_of call in
  Access.record (if String.eqb trace EmptyString then None else Some trace) identity op pond
    (Some summary) (elapsed call) outcome.

Definition noted (d : Desk) (r : Access.Record_) : Desk :=
  {| store := store d; trail := trail d ++ [r] |}.

(** Why a caller is turned away. *)
Definition refusal : string * string :=
  match Service.authorization (md call) ≫= Common.bearer with
  | None => ("rejected: no token", "a bearer token is required")
  | Some _ => ("rejected: invalid token", "the bearer token was rejected")
  end.

Lemma try_identity {A} op (k : Identity.Identity * string -> M Desk (result A Admin.Status)) d :
  Ops.try (identity_of service header_ok call op) k d =
  match admitted with
  | Some id => k (id, trace_id_of call) d
  | None =>
      (Err (unauthenticated service header_ok refusal.2),
       noted d (entry (Identity.claimed (Service.latiq_agent_id (md call))) op None refusal.1
                  Access.ERROR))
  end.
Proof.
  unfold try, identity_of, admitted, refusal, bind, ret, audit.
  destruct (verifier service); [|done].
  destruct (Service.authorization (md call) ≫= Common.bearer); [|done].
  by destruct (Verify.verify _ _ _ _ _).
Qed.

(** The methods that may write. *)
Definition writes (r : Request) : bool :=
  match r with
  | PolicySet _ _ | PondSetTier _ _ | PondForget _ _ | DatasetAdd _ | DatasetRemove _
  | CatalogAdd _ | CatalogRemove _ => true
  | _ => false
  end.

(** What an admitted call may do: at most one method of the registry, whose effect
    stands only when the call is answered. *)
Definition one_method (r : Request) (answered : bool) (before after : Registry) : Prop :=
  after = before \/ (answered = true /\ writes r = true /\ step before after).

End calls.

Section handlers.
Context `{!Sql} `{!Entropy} `{!Codec} `{!PolicyText} `{!Jwt}.
Variables (service : AdminService) (header_ok : string -> bool) (call : Call).

(** An admitted call that is over: its record, and what became of the registry. *)
Definition settled (id : Identity.Identity) (r : Request) (d : Desk)
    (out : result Response Admin.Status * Desk) : Prop :=
  (exists pond summary,
     trail out.2 = trail d ++ [entry call id (op_of r) pond summary (Access.outcome_of out.1)]) /\
  one_method r (is_ok out.1) (registry (store d)) (registry (store out.2)).

Lemma rejected_settled id r pond summary message d :
  settled id r d (rejected call id (op_of r) pond summary (trace_id_of call) message d).
Proof. split; [by exists pond, ("rejected: " +:+ summary)|by left]. Qed.

Lemma locked_settled {A} id r pond (summary : result A Admin.Status -> string) f
    (k : result A Admin.Status -> result Response Admin.Status) d :
  (forall res, is_ok (k res) = is_ok res) ->
  one_method r (is_ok (f (store d)).1) (registry (store d)) (f (store d)).2 ->
  settled id r d
    (Ops.bind (at_registry (trace_id_of call) f) (fun res =>
       Ops.bind (audit call id (op_of r) pond (summary res) (Access.outcome_of res)
                   (trace_id_of call)) (fun _ => Ops.ret (k res))) d).
Proof.
  intros Hk Hm. unfold Ops.bind, at_registry, audit, Ops.ret, settled.
  destruct (f (store d)) as [res reg]. cbn in Hm |- *. split.
  - eexists pond, _. unfold Access.outcome_of. by rewrite Hk.
  - rewrite Hk. by destruct res.
Qed.

Lemma reading_one_method {A} r (f : Store -> result A ControlPlaneError) c :
  one_method r (is_ok (reading f c).1) (registry c) (reading f c).2.
Proof. by left. Qed.

Lemma step_one_method {A} r (m : Ops.Res A) before :
  writes r = true -> step before m.2 -> (forall e, m.1 = Err e -> m.2 = before) ->
  one_method r (is_ok m.1) before m.2.
Proof. intros Hw Hs He. destruct m as [[a|e] r']; [by right|]. left. by eapply He. Qed.

Lemma handle_settled seen r d id :
  admitted service call = Some id -> settled id r d (handle service header_ok call seen r d).
Proof.
  intros Ha.
  destruct r; cbn [handle];
    unfold list_nodes, describe_node, policy_get, policy_set, pond_list, pond_set_tier,
      pond_forget, dataset_add, dataset_remove, dataset_list, catalog_add, catalog_remove,
      catalog_list;
    rewrite try_identity, Ha; cbv beta iota zeta;
    repeat case_match; try apply (rejected_settled id);
    apply (locked_settled id);
    try (intros []; unfold res_bind; rewrite ?details_imap; reflexivity);
    try apply reading_one_method;
    (apply step_one_method; [reflexivity|constructor|intros e]);
    unfold Ops.policy_set, Ops.set_pond_tier, Ops.forget_pond, Ops.remove_dataset,
      Ops.add_catalog, Ops.in_txn, Ops.remove_catalog;
    try (repeat case_match; done).
  destruct (Ops.add_dataset _ _ _) eqn:E. cbn. intros ->. by eapply add_dataset_Err.
Qed.

Lemma handle_turned_away seen r d :
  admitted service call = None ->
  handle service header_ok call seen r d =
  (Err (unauthenticated service header_ok (refusal call).2),
   noted d (entry call (Identity.claimed (Service.latiq_agent_id (md call))) (op_of r) None
              (refusal call).1 Access.ERROR)).
Proof.
  intros Ha.
  destruct r; cbn [handle op_of];
    unfold list_nodes, describe_node, policy_get, policy_set, pond_list, pond_set_tier,
      pond_forget, dataset_add, dataset_remove, dataset_list, catalog_add, catalog_remove,
      catalog_list;
    by rewrite try_identity, Ha.
Qed.
End handlers.

(** ** Properties *)

Section properties.
Context `{!Sql} `{!Entropy} `{!Codec} `{!PolicyText} `{!Jwt}.
Variables (service : AdminService) (header_ok : string -> bool) (call : Call).
Notation handle := (handle service header_ok call).

Lemma admitted_verified v id :
  verifier service = Some v -> admitted service call = Some id ->
  exists token, Service.authorization (md call) ≫= Common.bearer = Some token /\
    Verify.verify v (key_for call) (clock call) token (Service.latiq_agent_id (md call)) = Ok id.
Proof.
  unfold admitted. intros ->. destruct (_ ≫= _) as [token|]; [|done]. intros Hid.
  exists token. split; [done|]. destruct (Verify.verify _ _ _ _ _); naive_solver.
Qed.

Lemma turned_away_token v token id :
  verifier service = Some v -> admitted service call = None ->
  Service.authorization (md call) ≫= Common.bearer = Some token ->
  Verify.verify v (key_for call) (clock call) token (Service.latiq_agent_id (md call)) <> Ok id.
Proof.
  unfold admitted. intros Hv Ha Ht. rewrite Hv, Ht in Ha.
  by destruct (Verify.verify _ _ _ _ _).
Qed.

Lemma verify_verified v kf now token claimed id :
  Verify.verify v kf now token claimed = Ok id ->
  Identity.verified id = true /\ Identity.subject id <> EmptyString.
Proof.
  unfold Verify.verify. intros Hv.
  repeat (case_match || (unfold res_bind in Hv)); try discriminate Hv.
  injection Hv as <-. split; [done|]. simpl. rewrite trim_idem. by apply String.eqb_neq.
Qed.

Lemma challenge_visible url :
  all_bytes (ascii_in 32 126) (Metadata.challenge_header url) = true.
Proof.
  unfold Metadata.challenge_header. rewrite all_bytes_app. apply andb_true_iff. split; [done|].
  rewrite all_bytes_app. apply andb_true_iff. split; [done|]. rewrite all_bytes_app.
  apply andb_true_iff. split; [|done]. generalize (encode_quoted_plain url).
  apply all_bytes_impl. unfold Metadata.plain, ascii_in. intros b. rewrite !andb_true_iff, !N.leb_le.
  lia.
Qed.

(** whatever an operator asks and whatever becomes of it, the call leaves one
    access record: the method's name, whether it was answered, the caller's trace
    where it sent one, and who it was taken for: a verified subject, or the agent it
    claims to be. *)
Theorem operator_calls_audited seen r d :
  let '(res, d') := handle seen r d in
  exists rec, trail d' = trail d ++ [rec] /\
    Access.op rec = op_of r /\ Access.outcome rec = Access.outcome_of res /\
    Access.duration_ms rec = elapsed call /\
    Access.trace_id rec =
      (if String.eqb (trace_id_of call) EmptyString then "-" else trace_id_of call) /\
    Access.identity rec =
      default (Identity.claimed (Service.latiq_agent_id (md call))) (admitted service call).
Proof.
  destruct (admitted service call) as [id|] eqn:Ha.
  - destruct (handle_settled service header_ok call seen r d id Ha) as [(pond & summary & Ht) _].
    destruct (handle seen r d) as [res d']. eexists. split; [exact Ht|].
    unfold entry. cbn. by destruct (String.eqb _ _).
  - rewrite (handle_turned_away service header_ok call seen r d Ha).
    eexists. split; [reflexivity|]. unfold entry. cbn. by destruct (String.eqb _ _).
Qed.

(** C40: where tokens are required, a call either carries one the verifier accepts, and is
    recorded under the identity it proves, or it is refused with the address of the
    metadata that says where tokens come from: the registry is not so much as read,
    and the record says it failed and claims no verified subject. *)
Theorem only_verified_operators_act v url seen r d :
  verifier service = Some v -> challenge service = Some (Metadata.challenge_header url) ->
  (forall s, all_bytes (ascii_in 32 126) s = true -> header_ok s = true) ->
  let '(res, d') := handle seen r d in
  let token := Service.authorization (md call) ≫= Common.bearer in
  let verify t := Verify.verify v (key_for call) (clock call) t (Service.latiq_agent_id (md call)) in
  exists rec, trail d' = trail d ++ [rec] /\
    ((exists t id, token = Some t /\ verify t = Ok id /\ Identity.verified id = true /\
        Identity.subject id <> EmptyString /\ Access.identity rec = id) \/
     ((forall t id, token = Some t -> verify t <> Ok id) /\ store d' = store d /\
      (exists m, res = Err (Unauthenticated m (Some (Metadata.challenge_header url)))) /\
      Access.outcome rec = Access.ERROR /\ Identity.verified (Access.identity rec) = false)).
Proof.
  intros Hv Hc Hok. destruct (admitted service call) as [id|] eqn:Ha.
  - destruct (handle_settled service header_ok call seen r d id Ha) as [(pond & summary & Ht) _].
    destruct (handle seen r d) as [res d']. eexists. split; [exact Ht|]. left.
    destruct (admitted_verified v id Hv Ha) as (token & Htok & Hver). exists token, id.
    destruct (verify_verified _ _ _ _ _ _ Hver). done.
  - rewrite (handle_turned_away service header_ok call seen r d Ha).
    eexists. split; [reflexivity|]. right. split; [intros t id; by apply turned_away_token|].
    split; [done|]. split; [|done]. eexists. unfold unauthenticated.
    by rewrite Hc, (Hok _ (challenge_visible url)).
Qed.

(** every method of the operators' service is at most one method of the registry:
    a reachable registry stays one, and a call that only reads or is not answered
    leaves the registry as it is. *)
Theorem operators_keep_the_registry seen r d :
  let '(res, d') := handle seen r d in
  (RegistryInv.reachable (registry (store d)) ->
   RegistryInv.reachable (registry (store d')) /\ RegistryInv.wf (registry (store d'))) /\
  (writes r = false \/ is_ok res = false -> registry (store d') = registry (store d)).
Proof.
  assert (Hm : one_method r (is_ok (handle seen r d).1) (registry (store d))
                 (registry (store (handle seen r d).2))).
  { destruct (admitted service call) as [id|] eqn:Ha.
    - by apply (handle_settled service header_ok call seen r d id Ha).
    - rewrite (handle_turned_away service header_ok call seen r d Ha). by left. }
  destruct (handle seen r d) as [res d']. cbn in Hm. split.
  - intros Hr. enough (RegistryInv.reachable (registry (store d'))) as Hr'.
    { split; [done|by apply reachable_wf]. }
    destruct Hm as [->|(_ & _ & Hs)]; [done|]. destruct Hr as [now Hr]. exists now.
    by eapply rtc_r.
  - destruct Hm as [->|(Ho & Hw & _)]; [done|]. rewrite Ho, Hw. by intros [].
Qed.

Lemma created_by_verified id claimed :
  Identity.verified id = true -> Identity.subject id <> EmptyString ->
  created_by id claimed = Identity.subject id.
Proof. unfold created_by. intros -> Hs%String.eqb_neq. by rewrite Hs. Qed.

(** An answered call, from the one method it is. *)
Lemma answered {A} identity op pond (summary : result A Admin.Status -> string) f
    (k : A -> Response) d a d' :
  Ops.bind (at_registry (trace_id_of call) f) (fun res =>
    Ops.bind (audit call identity op pond (summary res) (Access.outcome_of res)
                (trace_id_of call))
      (fun _ => Ops.ret (res_bind res (fun x => Ok (k x))))) d = (Ok a, d') ->
  exists x, f (store d) = (Ok x, registry (store d')) /\ a = k x /\
    trail d' = trail d ++ [entry call identity op pond (summary (Ok x)) Access.OK].
Proof.
  unfold Ops.bind, at_registry, audit, Ops.ret. destruct (f (store d)) as [[x|e] r]; [|done].
  cbn. intros [= <- <-]. by exists x.
Qed.

(** what an answered registration stores is what the catalog's type allows of the
    parameters sent and nothing else, every key it leaves out is reported, sorted and
    once, and the row names its verified creator whatever the message claims. *)
Theorem catalog_keeps_no_credentials seen c name dropped d d' :
  handle seen (CatalogAdd (Some c)) d = (Ok (CatalogName name dropped), d') ->
  exists spec row id,
    Catalog.lookup (Service.c_type c) = Some spec /\ admitted service call = Some id /\
    Ops.get_catalog name (registry (store d')) = Ok row /\
    name = Service.c_name c /\ Rows.ca_type row = Service.c_type c /\
    (forall k, Rows.ca_params row !! k =
       if decide (k ∈ Catalog.allowed_params spec) then Service.c_params c !! k else None) /\
    (forall k, k ∈ dropped <->
       is_Some (Service.c_params c !! k) /\ k ∉ Catalog.allowed_params spec) /\
    StronglySorted String.le dropped /\ NoDup dropped /\
    (Identity.verified id = true -> Identity.subject id <> EmptyString ->
     Rows.ca_created_by row = Identity.subject id).
Proof.
  cbn [Admin.handle]. unfold catalog_add. rewrite try_identity.
  destruct (admitted service call) as [id|]; [|done]. cbv beta iota zeta.
  destruct (negb (Catalog.is_known_type _)) eqn:Hk; [done|]. apply negb_false_iff in Hk.
  unfold Catalog.is_known_type in Hk.
  destruct (Catalog.lookup (Service.c_type c)) as [spec|] eqn:Hl; [clear Hk|done].
  intros Hd. apply (answered id _ _ _ _ (fun x => CatalogName x _)) in Hd
    as (x & Hadd & [= <- ->] & _).
  destruct (filter_params_partitions _ _ (Service.c_params c) Hl) as (Hkept & Hdrop & Hs & Hn).
  unfold Ops.add_catalog, Ops.in_txn in Hadd. destruct (_ || _); [done|].
  destruct (negb _); [done|]. injection Hadd as <- <-.
  eexists spec, _, id. split; [done|]. split; [done|]. unfold Ops.get_catalog.
  cbn [catalogs with_catalogs]. rewrite lookup_insert_eq. split; [reflexivity|]. cbn.
  rewrite params_json_roundtrip. split_and!; try done. apply created_by_verified.
Qed.

(** a pond's record is forgotten only when its operator said so, where no active
    node with an address owns it; the others stay, and the access record says on which
    node the data was left. *)
Theorem forget_leaves_served_ponds seen pond confirm id name node node_state d d' :
  RegistryInv.reachable (registry (store d)) ->
  handle seen (PondForget pond confirm) d = (Ok (Forgotten id name node node_state), d') ->
  confirm = true /\
  (exists nd, nodes (registry (store d)) !! node = Some nd /\ Tables.state nd = node_state /\
     ~ (Tables.state nd = "active" /\ Tables.internal_endpoint nd <> EmptyString)) /\
  (exists p, p ∈ ponds (registry (store d)) /\
     (Tables.pond_id p = pond \/ Tables.name p = pond) /\
     Tables.pond_id p = id /\ Tables.name p = name /\ Tables.node_id p = node /\
     forall q, q ∈ ponds (registry (store d')) <-> q ∈ ponds (registry (store d)) /\ q <> p) /\
  exists rec, trail d' = trail d ++ [rec] /\ Access.pond rec = pond /\
    Access.summary rec = "forgot record; data orphaned on node=" +:+ node.
Proof.
  intros Hr. cbn [Admin.handle]. unfold pond_forget. rewrite try_identity.
  destruct (admitted service call) as [who|]; [|done]. cbv beta iota zeta.
  destruct (String.eqb _ _); [done|]. destruct confirm; [|done]. cbn [negb].
  intros Hd. apply (answered who _ _ forget_summary _ (fun f => Forgotten (Rows.f_pond_id f)
    (Rows.f_name f) (Rows.f_node_id f) (Rows.f_node_state f))) in Hd as (f & Hf & [= -> -> -> ->] & Ht).
  pose proof (forget_pond_spec pond _ Hr) as Hs. rewrite Hf in Hs.
  destruct Hs as (p & nd & Hin & Href & Hnd & Hlive & -> & Hq). split; [done|].
  split; [by exists nd|]. split; [by exists p|]. eexists. split; [exact Ht|]. done.
Qed.
End properties.

(** ** A concrete service *)

Module AdminSample.
Export ControlPlaneSpec.Sample AuthSpec.Sample.

#[export] Instance policy_text : PolicyText :=
  {| policy_json := fun p => join "," (map (fun kv => kv.1 +:+ "=" +:+ kv.2) p) |}.

Definition url : string := "https://latiq.example/.well-known/oauth-protected-resource".
Definition guarded : AdminService :=
  with_metadata_url (Some url) (with_verifier (Some AuthSpec.Sample.verifier) Admin.new).
Definition visible (s : string) : bool := all_bytes (ascii_in 32 126) s.

Definition call (authorization : option string) : Call :=
  {| md := {| Service.latiq_agent_id := Some "cli"; Service.authorization := authorization;
              Service.traceparent := None |};
     uuid := uuid_a; Admin.key_for := AuthSpec.Sample.key_for; clock := 500; elapsed := 3 |}.
Definition bearing : Call := call (Some ("Bearer " +:+ token)).

Definition desk (r : Registry) : Desk :=
  {| Admin.store := {| registry := r; draws := 1 |}; trail := [] |}.

Definition lake : Service.CatalogMsg :=
  {| Service.c_name := "lake"; Service.c_type := "iceberg";
     Service.c_params := <["token" := "t0p"]> {["warehouse" := "w"]};
     Service.c_description := EmptyString; Service.c_tags := []; Service.c_created_by := "mallory";
     Service.c_created_at := EmptyString |}.
Definition seen (_ : nat) : Registry := with_sales.

Definition added := handle guarded visible bearing seen (CatalogAdd (Some lake)) (desk with_sales).
Definition no_token := handle guarded visible (call None) seen (CatalogAdd (Some lake)) (desk with_sales).
Definition forgotten :=
  handle guarded visible bearing seen (PondForget "sales" true) (desk node_downed).

Lemma only_verified_operators_act_witness :
  is_ok no_token.1 = false /\ Admin.store no_token.2 = Admin.store (desk with_sales).
Proof.
  split; [vm_compute; reflexivity|].
  pose proof (only_verified_operators_act guarded visible (call None) AuthSpec.Sample.verifier url
    seen (CatalogAdd (Some lake)) (desk with_sales) eq_refl eq_refl (fun _ p => p)) as Hp.
  fold no_token in Hp. destruct no_token as [res d'].
  destruct Hp as (rec & _ & [(t & id & Ht & _)|(_ & Hs & _)]); [discriminate Ht|exact Hs].
Defined.

Lemma operators_keep_the_registry_witness :
  is_ok added.1 = true /\ RegistryInv.wf (registry (Admin.store added.2)).
Proof.
  split; [vm_compute; reflexivity|].
  pose proof (operators_keep_the_registry guarded visible bearing seen (CatalogAdd (Some lake))
    (desk with_sales)) as Hp.
  fold added in Hp. destruct added as [res d'].
  exact (proj2 (proj1 Hp reachable_with_sales)).
Defined.

Lemma catalog_keeps_no_credentials_witness :
  exists row, Ops.get_catalog "lake" (registry (Admin.store added.2)) = Ok row /\
    Rows.ca_params row !! "token" = None /\ Rows.ca_params row !! "warehouse" = Some "w" /\
    Rows.ca_created_by row = "alice".
Proof.
  assert (Ha : added.1 = Ok (CatalogName "lake" ["token"])) by (vm_compute; reflexivity).
  assert (Had : admitted guarded bearing = Some
    {| Identity.agent_id := "cli"; Identity.subject := "alice"; Identity.issuer := idp;
       Identity.verified := true |}) by (vm_compute; reflexivity).
  destruct added as [res d'] eqn:E. cbn in Ha. subst res. unfold added in E.
  destruct (catalog_keeps_no_credentials guarded visible bearing seen lake "lake" ["token"]
    (desk with_sales) d' E) as (spec & row & id & Hl & Hid & Hg & _ & _ & Hp & _ & _ & _ & Hby).
  injection Hl as <-. rewrite Had in Hid. injection Hid as <-.
  exists row. split; [exact Hg|]. rewrite !Hp. split; [reflexivity|]. split; [reflexivity|].
  exact (Hby eq_refl ltac:(discriminate)).
Defined.

Lemma forget_leaves_served_ponds_witness :
  is_ok forgotten.1 = true /\ exists nd, nodes node_downed !! "n1" = Some nd /\
    ~ (Tables.state nd = "active" /\ Tables.internal_endpoint nd <> EmptyString).
Proof.
  assert (Hf : forgotten.1 = Ok (Forgotten uuid_a "sales" "n1" "down"))
    by (vm_compute; reflexivity).
  split; [rewrite Hf; reflexivity|]. destruct forgotten as [res d'] eqn:E. cbn in Hf. subst res.
  unfold forgotten in E.
  destruct (forget_leaves_served_ponds guarded visible bearing seen "sales" true uuid_a "sales"
    "n1" "down" (desk node_downed) d' reachable_node_downed E) as (_ & (nd & Hn & _ & Hl) & _).
  exists nd. split; [exact Hn|exact Hl].
Defined.
End AdminSample.
