(* ===== verification/Wire.v ===== *)
(** * JSON bodies between nodes

    The canonical JSON of a result on the Data wire
    ([latiq-pond-node/src/wire.rs]) and the [serde] derives of the types it
    carries: each derived reader and writer is the struct's attributes, field by
    field, over a [Json].  The texts serde gives its errors are a parameter.
    Integers keep the width of their Rust type when they are read. *)
From S2P Require Import Prelude Errors Common Interfaces Plan.
#[local] Open Scope rust_scope.
#[local] Arguments String.append !_ _ / : simpl nomatch.

(** ** serde *)

(** What serde says of a value it cannot read. *)
Class SerdeTexts `{!Floats} := {
  missing_field : string -> string;
  invalid_length : nat -> string -> string;
  invalid_type : Json -> string -> string;
  unknown_variant : string -> string -> string;
}.

Module Derive.
Section derive.
Context `{!Floats} `{!SerdeTexts}.

(** *** Writing *)

(** A struct's fields in order; a field that is skipped has no value. *)
Definition members (l : list (string * option Json)) : Json :=
  Cell.object (omap (fun e => pair e.1 <$> e.2) l).

Fixpoint member (k : string) (l : list (string * option Json)) : option Json :=
  match l with
  | [] => None
  | (k', v) :: l => if String.eqb k' k then v else member k l
  end.

Definition skip_if {A} (skip : A -> bool) (to : A -> Json) (a : A) : option Json :=
  if skip a then None else Some (to a).
Definition skip_none {A} (to : A -> Json) (a : option A) : option Json := to <$> a.
Definition or_null {A} (to : A -> Json) (a : option A) : Json :=
  match a with Some a => to a | None => Null end.

Definition of_N (n : N) : Json := Int (Z.of_N n).
Definition of_list {A} (to : A -> Json) (l : list A) : Json := Array (map to l).
Definition of_pair (p : string * string) : Json := Array [Str p.1; Str p.2].
Definition is_empty {A} (l : list A) : bool := match l with [] => true | _ => false end.
Definition is_zero (n : N) : bool := (n =? 0)%N.
Definition no_text (s : string) : bool := String.eqb s EmptyString.

(** *** Reading *)

Definition Read (A : Type) := Json -> result A string.

Definition expecting {A} (what : string) (view : Json -> option A) : Read A :=
  fun v => ok_or (view v) (invalid_type v what).

Definition to_str : Read string := expecting "a string" as_str.
Definition to_bool : Read bool := expecting "a boolean" as_bool.
Definition to_u64 : Read N := expecting "u64" as_u64.
Definition to_i64 : Read Z := expecting "i64" as_i64.

Fixpoint read_all {A} (from : Read A) (l : list Json) : result (list A) string :=
  match l with
  | [] => Ok []
  | v :: l => let? a := from v in let? l := read_all from l in Ok (a :: l)
  end.

Definition to_list {A} (from : Read A) : Read (list A) :=
  fun v => let? l := expecting "a sequence" as_array v in read_all from l.

Definition to_option {A} (from : Read A) : Read (option A) :=
  fun v => match v with Null => Ok None | _ => let? a := from v in Ok (Some a) end.

Definition to_pair : Read (string * string) :=
  fun v =>
    let? l := expecting "a tuple of size 2" as_array v in
    match l with
    | [a; b] => let? a := to_str a in let? b := to_str b in Ok (a, b)
    | _ => Err (invalid_length (length l) "a tuple of size 2")
    end.

(** A unit variant, by its name or as the one key of a map. *)
Definition to_variant {A} (expected : string) (of_name : string -> option A) : Read A :=
  fun v =>
    match v with
    | Str s | Object [(s, Null)] => ok_or (of_name s) (unknown_variant s expected)
    | _ => Err (invalid_type v expected)
    end.

(** A struct is read by field name from a map, or in field order from a sequence. *)
Inductive Source := Fields (m : list (string * Json)) | Elements (i : nat) (l : list Json).
Definition Reader (A : Type) := Source -> result (A * Source) string.

(** [by_name] is what an absent key of a map stands for, [by_place] a sequence that
    has ended. *)
Definition field {A} (k : string) (from : Read A) (by_name by_place : option A) : Reader A :=
  fun src =>
    match src with
    | Fields m =>
        match lookup_key k m with
        | Some v => let? a := from v in Ok (a, src)
        | None => let? a := ok_or by_name (missing_field k) in Ok (a, src)
        end
    | Elements i [] => let? a := ok_or by_place (invalid_length i k) in Ok (a, src)
    | Elements i (v :: l) => let? a := from v in Ok (a, Elements (S i) l)
    end.

Definition required {A} (k : string) (from : Read A) : Reader A := field k from None None.
Definition defaulted {A} (k : string) (from : Read A) (d : A) : Reader A :=
  field k from (Some d) (Some d).
Definition optional {A} (k : string) (from : Read A) : Reader (option A) :=
  field k (to_option from) (Some None) None.

Definition to_struct {A} (expected : string) (r : Reader A) : Read A :=
  fun v =>
    match v with
    | Object m => let? a := r (Fields m) in Ok a.1
    | Array l =>
        let? a := r (Elements 0 l) in
        match a.2 with
        | Elements _ (_ :: _) => Err (invalid_length (length l) expected)
        | _ => Ok a.1
        end
    | _ => Err (invalid_type v expected)
    end.

Definition done {A} (a : A) : Reader A := fun src => Ok (a, src).
Definition andThen {A B} (r : Reader A) (k : A -> Reader B) : Reader B :=
  fun src => let? a := r src in k a.1 a.2.
End derive.

Notation "'read!' x := r 'in' k" := (andThen r (fun x => k))
  (at level 10, x name, r at level 100, k at level 200,
   format "'[v' 'read!'  x  :=  r  'in' '/' k ']'") : rust_scope.
End Derive.

(** ** The derived types *)

Module Bodies.
Import Derive Types.
Section bodies.
Context `{!Floats} `{!Arrow} `{!SerdeTexts}.

(** *** [latiq-common/src/meta.rs] *)

Definition kind_name (k : Meta.WarningKind) : string :=
  match k with
  | Meta.Performance => "performance"
  | Meta.Portability => "portability"
  | Meta.SchemaHygiene => "schema_hygiene"
  | Meta.ResultHygiene => "result_hygiene"
  end.

Definition kind_named (s : string) : option Meta.WarningKind :=
  find (fun k => String.eqb (kind_name k) s)
    [Meta.Performance; Meta.Portability; Meta.SchemaHygiene; Meta.ResultHygiene].

Definition warning_to (w : Meta.Warning) : Json :=
  members [("kind", Some (Str (kind_name (Meta.w_kind w))));
           ("message", Some (Str (Meta.w_message w)))].

Definition warning_from : Read Meta.Warning :=
  to_struct "struct Warning with 2 elements"
    (read! k := required "kind" (to_variant "enum WarningKind" kind_named) in
     read! m := required "message" to_str in
     done {| Meta.w_kind := k; Meta.w_message := m |}).

(** The columns are not on the wire. *)
Definition dataset_to (d : Meta.DatasetRef) : Json :=
  members [("namespace", skip_none Str (Meta.namespace d)); ("name", Some (Str (Meta.name d)));
           ("version", skip_none Int (Meta.version d))].

Definition dataset_from : Read Meta.DatasetRef :=
  to_struct "struct DatasetRef with 3 elements"
    (read! ns := defaulted "namespace" (to_option to_str) None in
     read! n := required "name" to_str in
     read! v := defaulted "version" (to_option to_i64) None in
     done {| Meta.namespace := ns; Meta.name := n; Meta.version := v; Meta.fields := [] |}).

Definition meta_to (m : Meta.QueryMeta) : Json :=
  members [("rows", Some (of_N (Meta.rows m)));
           ("rows_affected", Some (of_N (Meta.rows_affected m)));
           ("snapshot_id", skip_none Int (Meta.snapshot_id m));
           ("duration_ms", Some (of_N (Meta.duration_ms m)));
           ("timeout_ms", skip_if is_zero of_N (Meta.timeout_ms m));
           ("bytes_scanned", Some (of_N (Meta.bytes_scanned m)));
           ("tables_touched", skip_if is_empty (of_list Str) (Meta.tables_touched m));
           ("inputs", skip_if is_empty (of_list dataset_to) (Meta.inputs m));
           ("outputs", skip_if is_empty (of_list dataset_to) (Meta.outputs m));
           ("warnings", skip_if is_empty (of_list warning_to) (Meta.warnings m));
           ("hint", skip_none Str (Meta.hint m));
           ("served_by", skip_if no_text Str (Meta.served_by m));
           ("trace_id", skip_if no_text Str (Meta.trace_id m));
           ("traceparent", skip_if no_text Str (Meta.traceparent m))].

Definition meta_from : Read Meta.QueryMeta :=
  to_struct "struct QueryMeta with 14 elements"
    (read! rows := required "rows" to_u64 in
     read! affected := required "rows_affected" to_u64 in
     read! snapshot := optional "snapshot_id" to_i64 in
     read! duration := required "duration_ms" to_u64 in
     read! timeout := defaulted "timeout_ms" to_u64 0%N in
     read! bytes := required "bytes_scanned" to_u64 in
     read! touched := defaulted "tables_touched" (to_list to_str) [] in
     read! ins := defaulted "inputs" (to_list dataset_from) [] in
     read! outs := defaulted "outputs" (to_list dataset_from) [] in
     read! warns := defaulted "warnings" (to_list warning_from) [] in
     read! hint := optional "hint" to_str in
     read! served_by := defaulted "served_by" to_str EmptyString in
     read! trace := defaulted "trace_id" to_str EmptyString in
     read! parent := defaulted "traceparent" to_str EmptyString in
     done {| Meta.rows := rows; Meta.rows_affected := affected; Meta.snapshot_id := snapshot;
             Meta.duration_ms := duration; Meta.timeout_ms := timeout;
             Meta.bytes_scanned := bytes; Meta.tables_touched := touched; Meta.inputs := ins;
             Meta.outputs := outs; Meta.warnings := warns; Meta.hint := hint;
             Meta.served_by := served_by; Meta.trace_id := trace; Meta.traceparent := parent |}).

(** *** [latiq-engine/src/result.rs] *)

Definition scan_to (s : ScanOp) : Json :=
  members [("table", Some (Str (so_table s))); ("scan_type", Some (Str (so_scan_type s)));
           ("estimated_rows_scanned", Some (of_N (so_estimated_rows_scanned s)));
           ("source", Some (Str (so_source s)))].

Definition scan_from : Read ScanOp :=
  to_struct "struct ScanOp with 4 elements"
    (read! t := required "table" to_str in
     read! k := required "scan_type" to_str in
     read! n := required "estimated_rows_scanned" to_u64 in
     read! s := required "source" to_str in
     done {| so_table := t; so_scan_type := k; so_estimated_rows_scanned := n; so_source := s |}).

Definition explain_to (e : ExplainResult) : Json :=
  members [("estimated_rows", Some (of_N (estimated_rows e)));
           ("scan_operations", Some (of_list scan_to (scan_operations e)));
           ("warnings", Some (of_list Str (ex_warnings e)));
           ("suggestions", Some (of_list Str (suggestions e)));
           ("raw_plan", Some (Str (raw_plan e)))].

Definition explain_from : Read ExplainResult :=
  to_struct "struct ExplainResult with 5 elements"
    (read! n := required "estimated_rows" to_u64 in
     read! ops := defaulted "scan_operations" (to_list scan_from) [] in
     read! w := defaulted "warnings" (to_list to_str) [] in
     read! s := defaulted "suggestions" (to_list to_str) [] in
     read! p := required "raw_plan" to_str in
     done {| estimated_rows := n; scan_operations := ops; ex_warnings := w; suggestions := s;
             raw_plan := p |}).

Definition table_to (t : TableInfo) : Json :=
  members [("name", Some (Str (ti_name t))); ("columns", Some (of_list of_pair (ti_columns t)));
           ("row_count_estimate", Some (of_N (ti_row_count_estimate t)));
           ("comment", skip_none Str (ti_comment t))].

Definition table_from : Read TableInfo :=
  to_struct "struct TableInfo with 4 elements"
    (read! n := required "name" to_str in
     read! c := required "columns" (to_list to_pair) in
     read! r := required "row_count_estimate" to_u64 in
     read! m := optional "comment" to_str in
     done {| ti_name := n; ti_columns := c; ti_row_count_estimate := r; ti_comment := m |}).

Definition schema_to (s : SchemaSummary) : Json :=
  members [("tables", Some (of_list table_to (tables s)))].

Definition schema_from : Read SchemaSummary :=
  to_struct "struct SchemaSummary with 1 element"
    (read! l := required "tables" (to_list table_from) in done {| tables := l |}).

(** *** [latiq-agent-core/src/types.rs] *)

Definition pond_to (p : PondInfo) : Json :=
  members [("pond_id", Some (Str (pond_id p))); ("name", Some (Str (name p)));
           ("owner", Some (Str (owner p))); ("created_at", Some (Str (created_at p)));
           ("policy_json", Some (Str (policy_json p)));
           ("node_id", Some (or_null Str (node_id p)));
           ("node_endpoint", Some (or_null Str (node_endpoint p)));
           ("tier", Some (Str (tier p))); ("extensions", Some (of_list Str (extensions p)));
           ("description", Some (Str (description p))); ("lineage", Some (Bool (lineage p)))].

Definition pond_from : Read PondInfo :=
  to_struct "struct PondInfo with 11 elements"
    (read! id := required "pond_id" to_str in
     read! n := required "name" to_str in
     read! o := required "owner" to_str in
     read! c := required "created_at" to_str in
     read! pj := required "policy_json" to_str in
     read! nid := defaulted "node_id" (to_option to_str) None in
     read! ep := defaulted "node_endpoint" (to_option to_str) None in
     read! t := defaulted "tier" to_str EmptyString in
     read! exts := defaulted "extensions" (to_list to_str) [] in
     read! d := defaulted "description" to_str EmptyString in
     read! l := defaulted "lineage" to_bool false in
     done {| pond_id := id; name := n; owner := o; created_at := c; policy_json := pj;
             node_id := nid; node_endpoint := ep; tier := t; extensions := exts;
             description := d; lineage := l |}).

Definition load_to (l : LoadDatasetResult) : Json :=
  members [("dataset", Some (Str (ld_dataset l))); ("schema", Some (Str (ld_schema l)));
           ("tables", Some (of_list Str (ld_tables l)))].

Definition pull_to (p : PullResult) : Json :=
  members [("catalog", Some (Str (pl_catalog p))); ("query", Some (Str (pl_query p)))].

Definition pull_from : Read PullResult :=
  to_struct "struct PullResult with 2 elements"
    (read! c := required "catalog" to_str in
     read! q := required "query" to_str in
     done {| pl_catalog := c; pl_query := q |}).

Definition page_to (p : LineagePage) : Json :=
  members [("pond_id", Some (Str (pg_pond_id p))); ("pond_name", Some (Str (pg_pond_name p)));
           ("lineage_dir", Some (Str (pg_lineage_dir p)));
           ("events", Some (Array (pg_events p)));
           ("limit_applied", Some (of_N (pg_limit_applied p)));
           ("truncated", Some (Bool (pg_truncated p)));
           ("malformed_lines", Some (of_N (pg_malformed_lines p)));
           ("unreadable_files", Some (of_N (pg_unreadable_files p)))].

Definition page_from : Read LineagePage :=
  to_struct "struct LineagePage with 8 elements"
    (read! id := required "pond_id" to_str in
     read! n := required "pond_name" to_str in
     read! d := required "lineage_dir" to_str in
     read! ev := required "events" (to_list Ok) in
     read! lim := defaulted "limit_applied" to_u64 0%N in
     read! tr := required "truncated" to_bool in
     read! bad := required "malformed_lines" to_u64 in
     read! un := defaulted "unreadable_files" to_u64 0%N in
     done {| pg_pond_id := id; pg_pond_name := n; pg_lineage_dir := d; pg_events := ev;
             pg_limit_applied := lim; pg_truncated := tr; pg_malformed_lines := bad;
             pg_unreadable_files := un |}).

Definition describe_to (d : DescribeResult) : Json :=
  members [("pond", Some (pond_to (dr_pond d))); ("schema", Some (schema_to (dr_schema d)))].

Definition describe_from : Read DescribeResult :=
  to_struct "struct DescribeResult with 2 elements"
    (read! p := required "pond" pond_from in
     read! s := required "schema" schema_from in
     done {| dr_pond := p; dr_schema := s |}).

(** *** wire.rs *)

Definition query_value (qr : QueryResult) : Json :=
  members [("columns", Some (of_list Str (columns qr)));
           ("rows", Some (Array (map Array (rows qr))));
           ("statement", Some (Str (match Meta.snapshot_id (meta qr) with
                                    | Some _ => "write_query"
                                    | None => "read_query"
                                    end)));
           ("status", Some (Str "ok")); ("_meta", Some (meta_to (meta qr)))].

Definition take (v : Json) (name : string) : Json := default Null (get v name).

Definition bad {A} (name : string) (r : result A string) : result A AgentError :=
  map_err (fun e => Agent.internal ("forward decode " +:+ name +:+ ": " +:+ e)) r.

Definition query_result_from_json (v : Json) : result QueryResult AgentError :=
  let? c := bad "columns" (to_list to_str (take v "columns")) in
  let? r := bad "rows" (to_list (to_list Ok) (take v "rows")) in
  let? m := bad "_meta" (meta_from (take v "_meta")) in
  Ok {| columns := c; rows := r; meta := m |}.
End bodies.
End Bodies.
