(* ===== verification/WireSpec.v ===== *)
(** * What a JSON body keeps

    Every derived reader gives back what its writer wrote, whatever its fields
    skip, but for what the wire leaves out on purpose: the columns of a dataset.
    A number is within its Rust type. *)
From S2P Require Import Prelude Errors Common Interfaces Plan Wire.
Import Derive Types Bodies.
#[local] Open Scope rust_scope.
#[local] Arguments String.append !_ _ / : simpl nomatch.

(** ** Structs *)

Section structs.
Context `{!Floats} `{!SerdeTexts}.

Lemma lookup_key_lookup k (l : list (string * Json)) :
  lookup_key k l = (list_to_map l : gmap string Json) !! k.
Proof.
  induction l as [|[k' v] l IH]; simpl; [done|]. destruct (String.eqb_spec k' k) as [->|Hk].
  - by rewrite lookup_insert_eq.
  - by rewrite lookup_insert_ne.
Qed.

Lemma foldl_insert_lookup (l : list (string * Json)) (m : gmap string Json) k :
  NoDup (map fst l) ->
  foldl (fun (m : gmap string Json) kv => <[kv.1 := kv.2]> m) m l !! k =
  match lookup_key k l with Some v => Some v | None => m !! k end.
Proof.
  revert m. induction l as [|[k' v] l IH]; intros m; simpl; [done|]. rewrite NoDup_cons.
  intros [Hk' Hl]. rewrite IH by done. destruct (String.eqb_spec k' k) as [->|Hk].
  - rewrite lookup_insert_eq, lookup_key_lookup, not_elem_of_list_to_map_1; [done|exact Hk'].
  - by rewrite lookup_insert_ne.
Qed.

Definition written (l : list (string * option Json)) : list (string * Json) :=
  omap (fun e => pair e.1 <$> e.2) l.

Lemma elem_of_written k l : k ∈ map fst (written l) -> k ∈ map fst l.
Proof.
  unfold written. induction l as [|[k' [v|]] l IH]; simpl; [done| |];
    rewrite ?elem_of_cons; naive_solver.
Qed.

Lemma NoDup_written l : NoDup (map fst l) -> NoDup (map fst (written l)).
Proof.
  unfold written. induction l as [|[k [v|]] l IH]; simpl; [done| |]; rewrite ?NoDup_cons;
    intros [Hk Hl]; [|by apply IH].
  split; [|by apply IH]. intros Hin. by apply Hk, elem_of_written.
Qed.

Lemma member_None k l : k ∉ map fst l -> member k l = None.
Proof.
  induction l as [|[k' o] l IH]; simpl; [done|]. rewrite not_elem_of_cons. intros [Hk Hl].
  destruct (String.eqb_spec k' k); [congruence|by apply IH].
Qed.

Lemma written_cons k o l :
  written ((k, o) :: l) = match o with Some v => (k, v) :: written l | None => written l end.
Proof. by destruct o. Qed.

Lemma lookup_written k l : NoDup (map fst l) -> lookup_key k (written l) = member k l.
Proof.
  induction l as [|[k' o] l IH]; [done|]. cbn [map fst member]. rewrite NoDup_cons, written_cons.
  intros [Hk Hl]. specialize (IH Hl).
  destruct o as [v|]; cbn [lookup_key]; destruct (String.eqb_spec k' k) as [->|Hne]; try done.
  rewrite IH. by apply member_None.
Qed.

(** What a struct's writer leaves under a key. *)
Lemma members_spec l :
  NoDup (map fst l) ->
  exists m, members l = Object m /\ forall k, lookup_key k m = member k l.
Proof.
  intros Hl. eexists. split; [reflexivity|]. intros k.
  rewrite lookup_key_lookup, list_to_map_btree_entries, foldl_insert_lookup.
  - rewrite <- lookup_written by done. fold (written l). by destruct (lookup_key k (written l)).
  - by apply NoDup_written.
Qed.

Lemma get_member l k : NoDup (map fst l) -> Plan.get (members l) k = member k l.
Proof. intros Hl. destruct (members_spec l Hl) as (m & -> & Hk). exact (Hk k). Qed.

(** *** Reading fields back *)

Lemma andThen_ok {A B} (r : Reader A) (k : A -> Reader B) src a b :
  r src = Ok (a, src) -> k a src = Ok (b, src) -> andThen r k src = Ok (b, src).
Proof. unfold andThen. by intros ->. Qed.

Lemma required_ok {A} k (from : Read A) m v a :
  lookup_key k m = Some v -> from v = Ok a -> required k from (Fields m) = Ok (a, Fields m).
Proof. unfold required, field. by intros -> ->. Qed.

Lemma defaulted_ok {A} k (from : Read A) d m a :
  match lookup_key k m with Some v => from v = Ok a | None => a = d end ->
  defaulted k from d (Fields m) = Ok (a, Fields m).
Proof. unfold defaulted, field. destruct (lookup_key k m); [by intros ->|by intros ->]. Qed.

Lemma optional_ok {A} k (from : Read A) m a :
  match lookup_key k m with Some v => to_option from v = Ok a | None => a = None end ->
  optional k from (Fields m) = Ok (a, Fields m).
Proof. unfold optional, field. destruct (lookup_key k m); by intros ->. Qed.

Lemma to_struct_ok {A} expected (r : Reader A) l a :
  NoDup (map fst l) ->
  (forall m, (forall k, lookup_key k m = member k l) -> r (Fields m) = Ok (a, Fields m)) ->
  to_struct expected r (members l) = Ok a.
Proof.
  intros Hl Hr. destruct (members_spec l Hl) as (m & -> & Hm). unfold to_struct.
  by rewrite (Hr m Hm).
Qed.

(** *** Reading values back *)

Lemma to_str_ok s : to_str (Str s) = Ok s.
Proof. done. Qed.

Lemma to_u64_ok n : (n <= U64_MAX)%N -> to_u64 (of_N n) = Ok n.
Proof.
  intros Hn. unfold to_u64, expecting, of_N, as_u64. rewrite N2Z.id.
  rewrite (proj2 (Z.leb_le _ _) (N2Z.is_nonneg n)), (proj2 (N.leb_le _ _) Hn). done.
Qed.

Definition i64 (z : Z) : Prop := (- 2 ^ 63 <= z < 2 ^ 63)%Z.

Lemma to_i64_ok z : i64 z -> to_i64 (Int z) = Ok z.
Proof.
  intros [Hl Hu]. unfold to_i64, expecting, as_i64.
  by rewrite (proj2 (Z.leb_le _ _) Hl), (proj2 (Z.ltb_lt _ _) Hu).
Qed.

Lemma read_all_ok {A} (from : Read A) (to : A -> Json) (wire : A -> A) l :
  Forall (fun a => from (to a) = Ok (wire a)) l -> read_all from (map to l) = Ok (map wire l).
Proof. induction 1 as [|a l Ha _ IH]; simpl; [done|]. by rewrite Ha, IH. Qed.

Lemma to_list_ok {A} (from : Read A) (to : A -> Json) (wire : A -> A) l :
  Forall (fun a => from (to a) = Ok (wire a)) l ->
  to_list from (of_list to l) = Ok (map wire l).
Proof. apply read_all_ok. Qed.

Lemma to_list_id {A} (from : Read A) (to : A -> Json) l :
  Forall (fun a => from (to a) = Ok a) l -> to_list from (of_list to l) = Ok l.
Proof. intros Hl. rewrite <- (map_id l) at 2. by apply (to_list_ok from to (fun a => a)). Qed.

Lemma to_strs_ok l : to_list to_str (of_list Str l) = Ok l.
Proof. by apply to_list_id, Forall_true. Qed.

Lemma to_pairs_ok l : to_list to_pair (of_list of_pair l) = Ok l.
Proof. apply to_list_id, Forall_true. by intros []. Qed.

Lemma to_values_ok (l : list Json) : to_list Ok (Array l) = Ok l.
Proof. rewrite <- (map_id l) at 1. by apply to_list_id, Forall_true. Qed.

Lemma to_option_ok {A} (from : Read A) (to : A -> Json) a :
  to a <> Null -> from (to a) = Ok a -> to_option from (to a) = Ok (Some a).
Proof. intros Hn Ha. unfold to_option. rewrite Ha. by destruct (to a). Qed.

Lemma to_variant_ok {A} expected (named : string -> option A) s a :
  named s = Some a -> to_variant expected named (Str s) = Ok a.
Proof. unfold to_variant. by intros ->. Qed.

Definition option_ok {A} (from : Read A) (to : A -> Json) (a : option A) : Prop :=
  forall x, a = Some x -> to x <> Null /\ from (to x) = Ok x.

Lemma defaulted_skip_none {A} k (from : Read A) (to : A -> Json) m a :
  lookup_key k m = skip_none to a -> option_ok from to a ->
  defaulted k (to_option from) None (Fields m) = Ok (a, Fields m).
Proof.
  intros Hm Ha. apply defaulted_ok. rewrite Hm. destruct a as [x|]; simpl; [|done].
  by destruct (Ha x eq_refl); apply to_option_ok.
Qed.

Lemma optional_skip_none {A} k (from : Read A) (to : A -> Json) m a :
  lookup_key k m = skip_none to a -> option_ok from to a ->
  optional k from (Fields m) = Ok (a, Fields m).
Proof.
  intros Hm Ha. apply optional_ok. rewrite Hm. destruct a as [x|]; simpl; [|done].
  by destruct (Ha x eq_refl); apply to_option_ok.
Qed.

Lemma defaulted_or_null {A} k (from : Read A) (to : A -> Json) m a :
  lookup_key k m = Some (or_null to a) -> option_ok from to a ->
  defaulted k (to_option from) None (Fields m) = Ok (a, Fields m).
Proof.
  intros Hm Ha. apply defaulted_ok. rewrite Hm. destruct a as [x|]; simpl; [|done].
  by destruct (Ha x eq_refl); apply to_option_ok.
Qed.

Lemma defaulted_skip_if {A} k (from : Read A) (to : A -> Json) (skip : A -> bool) d m a a' :
  lookup_key k m = skip_if skip to a -> from (to a) = Ok a' -> (skip a = true -> a' = d) ->
  defaulted k from d (Fields m) = Ok (a', Fields m).
Proof.
  intros Hm Ha Hs. apply defaulted_ok. rewrite Hm. unfold skip_if.
  destruct (skip a); [by apply Hs|done].
Qed.

Lemma defaulted_some {A} k (from : Read A) d m v a :
  lookup_key k m = Some v -> from v = Ok a -> defaulted k from d (Fields m) = Ok (a, Fields m).
Proof. intros Hm Ha. apply defaulted_ok. by rewrite Hm. Qed.

Lemma option_str_ok a : option_ok to_str Str a.
Proof. by intros x _. Qed.

Lemma option_i64_ok a : (forall z, a = Some z -> i64 z) -> option_ok to_i64 Int a.
Proof. intros Ha z Hz. split; [done|]. by apply to_i64_ok, Ha. Qed.

Lemma zero_default n : is_zero n = true -> n = 0%N.
Proof. by intros ?%N.eqb_eq. Qed.

Lemma text_default s : no_text s = true -> s = EmptyString.
Proof. apply String.eqb_eq. Qed.

Lemma list_default {A} (l : list A) : is_empty l = true -> l = [].
Proof. by destruct l. Qed.

Lemma map_default {A B} (f : A -> B) l : is_empty l = true -> map f l = [].
Proof. by destruct l. Qed.
End structs.

#[export] Hint Resolve to_str_ok to_u64_ok to_i64_ok to_strs_ok to_pairs_ok to_values_ok
  option_str_ok option_i64_ok zero_default text_default list_default map_default : wire.

(** Field by field through a struct's reader; what is left are its values. *)
Ltac read_fields :=
  apply to_struct_ok; [apply (bool_decide_unpack _); vm_compute; exact I|];
  let m := fresh "m" in let Hm := fresh "Hm" in intros m Hm; unfold done;
  repeat first
    [ lazymatch goal with |- Ok _ = Ok _ => reflexivity end
    | eapply andThen_ok
    | eapply required_ok; [rewrite Hm; reflexivity|]
    | eapply defaulted_skip_none; [rewrite Hm; reflexivity|]
    | eapply optional_skip_none; [rewrite Hm; reflexivity|]
    | eapply defaulted_or_null; [rewrite Hm; reflexivity|]
    | eapply defaulted_skip_if; [rewrite Hm; reflexivity| |]
    | eapply defaulted_some; [rewrite Hm; reflexivity|] ];
  eauto with wire.

(** ** The derived types *)

Section bodies.
Context `{!Floats} `{!Arrow} `{!SerdeTexts}.

Lemma warning_round w : warning_from (warning_to w) = Ok w.
Proof. destruct w as [k t]. unfold warning_from, warning_to. read_fields. by destruct k. Qed.

Definition dataset_fits (d : Meta.DatasetRef) : Prop :=
  forall v, Meta.version d = Some v -> i64 v.

Definition without_columns (d : Meta.DatasetRef) : Meta.DatasetRef :=
  {| Meta.namespace := Meta.namespace d; Meta.name := Meta.name d;
     Meta.version := Meta.version d; Meta.fields := [] |}.

Lemma dataset_round d : dataset_fits d -> dataset_from (dataset_to d) = Ok (without_columns d).
Proof. unfold dataset_fits, dataset_from, dataset_to, without_columns. intros Hv. read_fields. Qed.

Lemma datasets_round l :
  Forall dataset_fits l ->
  to_list dataset_from (of_list dataset_to l) = Ok (map without_columns l).
Proof.
  intros Hl. apply to_list_ok. eapply Forall_impl; [exact Hl|]. intros d. apply dataset_round.
Qed.

Lemma warnings_round l : to_list warning_from (of_list warning_to l) = Ok l.
Proof. apply to_list_id, Forall_true. apply warning_round. Qed.

(** The numbers are within their Rust types. *)
Record meta_fits (m : Meta.QueryMeta) : Prop := {
  mf_rows : (Meta.rows m <= U64_MAX)%N;
  mf_affected : (Meta.rows_affected m <= U64_MAX)%N;
  mf_snapshot : forall z, Meta.snapshot_id m = Some z -> i64 z;
  mf_duration : (Meta.duration_ms m <= U64_MAX)%N;
  mf_timeout : (Meta.timeout_ms m <= U64_MAX)%N;
  mf_bytes : (Meta.bytes_scanned m <= U64_MAX)%N;
  mf_inputs : Forall dataset_fits (Meta.inputs m);
  mf_outputs : Forall dataset_fits (Meta.outputs m);
}.

Definition meta_on_wire (m : Meta.QueryMeta) : Meta.QueryMeta :=
  {| Meta.rows := Meta.rows m; Meta.rows_affected := Meta.rows_affected m;
     Meta.snapshot_id := Meta.snapshot_id m; Meta.duration_ms := Meta.duration_ms m;
     Meta.timeout_ms := Meta.timeout_ms m; Meta.bytes_scanned := Meta.bytes_scanned m;
     Meta.tables_touched := Meta.tables_touched m;
     Meta.inputs := map without_columns (Meta.inputs m);
     Meta.outputs := map without_columns (Meta.outputs m); Meta.warnings := Meta.warnings m;
     Meta.hint := Meta.hint m; Meta.served_by := Meta.served_by m;
     Meta.trace_id := Meta.trace_id m; Meta.traceparent := Meta.traceparent m |}.

#[local] Hint Resolve datasets_round warnings_round : wire.

Lemma meta_round m : meta_fits m -> meta_from (meta_to m) = Ok (meta_on_wire m).
Proof.
  intros []. unfold meta_from, meta_to, meta_on_wire.
  read_fields.
Qed.

Definition scan_fits (s : ScanOp) : Prop := (so_estimated_rows_scanned s <= U64_MAX)%N.

Lemma scan_round s : scan_fits s -> scan_from (scan_to s) = Ok s.
Proof. unfold scan_fits. destruct s. intros Hn. unfold scan_from, scan_to. read_fields. Qed.

Definition explain_fits (e : ExplainResult) : Prop :=
  (estimated_rows e <= U64_MAX)%N /\ Forall scan_fits (scan_operations e).

Lemma scans_round l : Forall scan_fits l -> to_list scan_from (of_list scan_to l) = Ok l.
Proof. intros Hl. apply to_list_id. eapply Forall_impl; [exact Hl|]. apply scan_round. Qed.
#[local] Hint Resolve scans_round : wire.

Lemma explain_round e : explain_fits e -> explain_from (explain_to e) = Ok e.
Proof. destruct e. intros []. unfold explain_from, explain_to. read_fields. Qed.

Definition table_fits (t : TableInfo) : Prop := (ti_row_count_estimate t <= U64_MAX)%N.

Lemma table_round t : table_fits t -> table_from (table_to t) = Ok t.
Proof. unfold table_fits. destruct t. intros Hn. unfold table_from, table_to. read_fields. Qed.

Lemma tables_round l : Forall table_fits l -> to_list table_from (of_list table_to l) = Ok l.
Proof. intros Hl. apply to_list_id. eapply Forall_impl; [exact Hl|]. apply table_round. Qed.
#[local] Hint Resolve tables_round : wire.

Lemma schema_round s : Forall table_fits (tables s) -> schema_from (schema_to s) = Ok s.
Proof. destruct s. intros Hl. unfold schema_from, schema_to. read_fields. Qed.

Lemma pond_round p : pond_from (pond_to p) = Ok p.
Proof. destruct p. unfold pond_from, pond_to. read_fields. Qed.
#[local] Hint Resolve schema_round pond_round : wire.

Lemma pull_round p : pull_from (pull_to p) = Ok p.
Proof. destruct p. unfold pull_from, pull_to. read_fields. Qed.

Lemma describe_round d :
  Forall table_fits (tables (dr_schema d)) -> describe_from (describe_to d) = Ok d.
Proof. destruct d. intros Hl. unfold describe_from, describe_to. read_fields. Qed.

(** A page's counts are within a [usize]. *)
Record page_fits (p : LineagePage) : Prop := {
  pf_limit : (pg_limit_applied p <= U64_MAX)%N;
  pf_malformed : (pg_malformed_lines p <= U64_MAX)%N;
  pf_unreadable : (pg_unreadable_files p <= U64_MAX)%N;
}.

Lemma page_round p : page_fits p -> page_from (page_to p) = Ok p.
Proof. destruct p. intros []. unfold page_from, page_to. read_fields. Qed.

Lemma rows_round (l : list (list Json)) : to_list (to_list Ok) (Array (map Array l)) = Ok l.
Proof.
  change (to_list (to_list Ok) (of_list Array l) = Ok l). apply to_list_id, Forall_true.
  apply to_values_ok.
Qed.

Lemma query_round q :
  meta_fits (meta q) ->
  query_result_from_json (query_value q) =
    Ok {| columns := columns q; rows := rows q; meta := meta_on_wire (meta q) |}.
Proof.
  intros Hm. unfold query_result_from_json, query_value, take, get.
  edestruct members_spec as (m & -> & Hk).
  { apply (bool_decide_unpack _). vm_compute. exact I. }
  rewrite !Hk.
  change ((let? c := bad "columns" (to_list to_str (of_list Str (columns q))) in
          let? r := bad "rows" (to_list (to_list Ok) (Array (map Array (rows q)))) in
          let? m := bad "_meta" (meta_from (meta_to (meta q))) in
          Ok {| columns := c; rows := r; meta := m |}) =
    Ok {| columns := columns q; rows := rows q; meta := meta_on_wire (meta q) |}).
  by rewrite to_strs_ok, rows_round, meta_round.
Qed.
End bodies.

(** ** The text of a body *)

Section canonical.
Context `{!Floats}.
(** The floats whose digits read back as the same float. *)
Variable exact : f64 -> Prop.

(** What JSON text can hold as it is: integers of 64 bits, objects in key order. *)
Fixpoint canonical (v : Json) : Prop :=
  match v with
  | Null | Bool _ | Str _ => True
  | Int z => (- 2 ^ 63 <= z < 2 ^ 64)%Z
  | Float f => exact f
  | Array l => (fix all (l : list Json) := match l with [] => True | v :: l => canonical v /\ all l end) l
  | Object l =>
      l = btree_entries (list_to_map l : gmap string Json) /\
      (fix all (l : list (string * Json)) :=
         match l with [] => True | kv :: l => canonical kv.2 /\ all l end) l
  end.

Lemma canonical_array l : canonical (Array l) <-> Forall canonical l.
Proof.
  induction l as [|v l IH]; [by split|]. rewrite Forall_cons, <- IH. done.
Qed.

Lemma canonical_object l :
  canonical (Object l) <->
  l = btree_entries (list_to_map l : gmap string Json) /\ Forall (fun kv => canonical kv.2) l.
Proof.
  cbn [canonical]. generalize (btree_entries (list_to_map l : gmap string Json)) as entries.
  induction l as [|v l IH]; intros entries.
  - split; intros [? _]; split; constructor || done.
  - rewrite Forall_cons. split; intros (Ha & Hb & Hc); split_and!; try done; by apply (IH l).
Qed.
End canonical.

(** serde_json, on what it prints. *)
Class SerdeLaws `{!Floats} `{!Serde} := {
  exact : f64 -> Prop;
  from_str_to_string : forall v, canonical exact v -> from_str (to_string v) = Ok v;
}.

Section canonical_bodies.
Context `{!Floats} `{!Arrow} `{!SerdeTexts}.
Variable exact : f64 -> Prop.
Notation canonical := (canonical exact).

Lemma canonical_members l :
  Forall (fun e => match e.2 with Some v => canonical v | None => True end) l ->
  canonical (members l).
Proof.
  intros Hl. unfold members, Cell.object. apply canonical_object. split.
  { by rewrite list_to_map_btree_entries. }
  rewrite Forall_forall. intros [k v] Hin%elem_of_btree_entries. simpl.
  assert (Hf : forall l (m : gmap string Json),
    Forall (fun kv => canonical kv.2) l -> map_Forall (fun _ v => canonical v) m ->
    map_Forall (fun _ v => canonical v) (foldl (fun m kv => <[kv.1 := kv.2]> m) m l)).
  { clear. induction l as [|[k v] l IH]; intros m Hl Hm; simpl; [done|].
    apply Forall_cons in Hl as [Hv Hl]. apply IH; [done|]. by apply map_Forall_insert_2. }
  eapply (Hf _ ∅); [|apply map_Forall_empty|exact Hin].
  clear -Hl. induction Hl as [|[k [v|]] l Hv _ IH]; simpl; [constructor| |done]. by constructor.
Qed.

Lemma canonical_of_N n : (n <= U64_MAX)%N -> canonical (of_N n).
Proof. unfold U64_MAX, of_N. simpl. lia. Qed.

Lemma canonical_i64 z : i64 z -> canonical (Int z).
Proof. unfold i64. simpl. lia. Qed.

Lemma canonical_of_list {A} (to : A -> Json) l :
  Forall (fun a => canonical (to a)) l -> canonical (of_list to l).
Proof. intros Hl. by apply canonical_array, Forall_map. Qed.

Lemma canonical_strs l : canonical (of_list Str l).
Proof. by apply canonical_of_list, Forall_true. Qed.

Lemma canonical_pairs l : canonical (of_list of_pair l).
Proof. apply canonical_of_list, Forall_true. intros []. simpl. tauto. Qed.

Definition canon_field (v : option Json) : Prop :=
  match v with Some v => canonical v | None => True end.

Lemma canon_skip_none {A} (to : A -> Json) a :
  (forall x, a = Some x -> canonical (to x)) -> canon_field (skip_none to a).
Proof. destruct a; simpl; auto. Qed.

Lemma canon_skip_if {A} (skip : A -> bool) (to : A -> Json) a :
  canonical (to a) -> canon_field (skip_if skip to a).
Proof. unfold skip_if. by destruct (skip a). Qed.

Lemma canon_or_null {A} (to : A -> Json) a :
  (forall x, a = Some x -> canonical (to x)) -> canon_field (Some (or_null to a)).
Proof. destruct a; simpl; auto. Qed.

Lemma canon_some v : canonical v -> canon_field (Some v).
Proof. done. Qed.

Lemma canonical_members' l : Forall (fun e => canon_field e.2) l -> canonical (members l).
Proof. apply canonical_members. Qed.

#[local] Hint Resolve canonical_of_N canonical_i64 canonical_strs canonical_pairs canon_some canon_skip_none
  canon_skip_if canon_or_null : canon.
#[local] Hint Extern 1 (canonical (Str _)) => exact I : canon.
#[local] Hint Extern 1 (canonical (Bool _)) => exact I : canon.

Ltac canon :=
  apply canonical_members'; repeat first [apply Forall_nil_2 | apply Forall_cons_2]; cbn [snd];
  eauto with canon.

Lemma canonical_dataset d : dataset_fits d -> canonical (dataset_to d).
Proof. unfold dataset_fits. intros Hv. unfold dataset_to. canon. Qed.

Lemma canonical_warning w : canonical (warning_to w).
Proof. unfold warning_to. canon. Qed.

Lemma canonical_datasets l : Forall dataset_fits l -> canonical (of_list dataset_to l).
Proof. intros Hl. apply canonical_of_list. eapply Forall_impl; [exact Hl|]. apply canonical_dataset. Qed.

Lemma canonical_warnings l : canonical (of_list warning_to l).
Proof. apply canonical_of_list, Forall_true, canonical_warning. Qed.
#[local] Hint Resolve canonical_datasets canonical_warnings : canon.

Lemma canonical_meta m : meta_fits m -> canonical (meta_to m).
Proof.
  intros []. unfold meta_to.
  canon.
Qed.
#[local] Hint Resolve canonical_meta : canon.

Lemma canonical_scan x : scan_fits x -> canonical (scan_to x).
Proof. unfold scan_fits. intros Hn. unfold scan_to. canon. Qed.

Lemma canonical_scans l : Forall scan_fits l -> canonical (of_list scan_to l).
Proof. intros Hl. apply canonical_of_list. eapply Forall_impl; [exact Hl|]. apply canonical_scan. Qed.
#[local] Hint Resolve canonical_scans : canon.

Lemma canonical_explain e : explain_fits e -> canonical (explain_to e).
Proof. intros []. unfold explain_to. canon. Qed.

Lemma canonical_table t : table_fits t -> canonical (table_to t).
Proof. unfold table_fits. intros Hn. unfold table_to. canon. Qed.

Lemma canonical_tables l : Forall table_fits l -> canonical (of_list table_to l).
Proof. intros Hl. apply canonical_of_list. eapply Forall_impl; [exact Hl|]. apply canonical_table. Qed.
#[local] Hint Resolve canonical_tables : canon.

Lemma canonical_describe d : Forall table_fits (tables (dr_schema d)) -> canonical (describe_to d).
Proof.
  intros Hl. assert (canonical (pond_to (dr_pond d))) by (unfold pond_to; canon).
  assert (canonical (schema_to (dr_schema d))) by (unfold schema_to; canon).
  unfold describe_to. canon.
Qed.

Lemma canonical_pull p : canonical (pull_to p).
Proof. unfold pull_to. canon. Qed.

Lemma canonical_page p :
  page_fits p -> Forall canonical (pg_events p) -> canonical (page_to p).
Proof.
  intros [] Hev. assert (canonical (Array (pg_events p))) by by apply canonical_array.
  unfold page_to. canon.
Qed.

Lemma canonical_query q :
  meta_fits (meta q) -> Forall (Forall canonical) (rows q) -> canonical (query_value q).
Proof.
  intros Hm Hr. assert (canonical (Array (map Array (rows q)))).
  { apply canonical_array, Forall_map. eapply Forall_impl; [exact Hr|].
    intros l Hl. by apply canonical_array. }
  unfold query_value. canon.
Qed.
End canonical_bodies.
