(* ===== verification/DataService.v ===== *)
(** * A pond node's gRPC surfaces

    Models [latiq-pond-node/src/data_service.rs] and [stream_service.rs]: who a call
    is taken to be, the scope its handler runs in, every handler of the Data service
    over the node's [AgentOps], the status an error becomes, and the Arrow stream a
    read becomes.  The bodies are [Wire]'s; IPC framing is the Arrow crate's ([Ipc]).
    A handler runs in the trace and bearer scope of its call, which is what the
    node's forwarder reads them from. *)
From S2P Require Import Prelude Errors Policy Common Inflight Deadline Plan Interfaces Auth Wire.
From S2P Require Import ControlPlane.
From S2P Require Import Ops.
Import Types.
#[local] Open Scope rust_scope.
#[local] Arguments String.append !_ _ / : simpl nomatch.

(** ** The wire *)

Module Rpc.
(** The status codes of gRPC this code names. *)
Inductive Code :=
| NotFound | AlreadyExists | DeadlineExceeded | Cancelled | Unauthenticated
| FailedPrecondition | InvalidArgument | Internal | Unavailable | Other (n : N).

#[export] Instance Code_eq_dec : EqDecision Code.
Proof. solve_decision. Defined.

Record Status := {
  code : Code;
  message : string;
  details : string;
  www_authenticate : option string;
}.

(** The Data service's methods with their messages. *)
Inductive Request :=
| AllocatePond (name policy_json tier : string) (lineage : bool)
| MaterializePond (pond : string)
| DropPond (pond : string) (confirm : bool)
| DescribePond (pond : string)
| ReadQuery (pond sql : string) (timeout_ms : N)
| WriteQuery (pond sql : string) (timeout_ms : N)
| ExplainQuery (pond sql : string) (timeout_ms : N)
| LoadDataset (pond dataset : string)
| CatalogPull (pond catalog query : string) (params : gmap string string)
| GetLineage (pond : string) (limit : N) (since before : string)
| CatalogDescribe (pond catalog : string) (params : gmap string string).

Inductive Response :=
| Allocated (pond_id pond_name : string)
| Done
| JsonResponse (json : string).

Definition op_of (r : Request) : string :=
  match r with
  | AllocatePond _ _ _ _ => "allocate_pond"
  | MaterializePond _ => "materialize_pond"
  | DropPond _ _ => "drop_pond"
  | DescribePond _ => "describe_pond"
  | ReadQuery _ _ _ => "read_query"
  | WriteQuery _ _ _ => "write_query"
  | ExplainQuery _ _ _ => "explain_query"
  | LoadDataset _ _ => "load_dataset"
  | CatalogPull _ _ _ _ => "catalog_pull"
  | GetLineage _ _ _ _ => "get_lineage"
  | CatalogDescribe _ _ _ => "catalog_describe"
  end.

Record ArrowChunk := { ipc : string; chunk_served_by : string; chunk_traceparent : string }.
End Rpc.
Import Rpc.

(** [StreamWriter] and [StreamDecoder]: what each appends to its buffer, and what each
    takes from a buffer.  A batch takes at least one byte. *)
Class Ipc `{!Values} := {
  writer : Type;
  decoder : Type;
  try_new : list string -> result (writer * string) string;
  write : batch -> writer -> result (writer * string) string;
  finish : writer -> result string string;
  decoder_new : decoder;
  decode : string -> decoder -> (result (option batch) string * string) * decoder;
  decoded_schema : decoder -> option (list string);
  decode_consumes : forall buf d b rest d',
    decode buf d = ((Ok (Some b), rest), d') -> String.length rest < String.length buf;
}.

(** ** The surfaces *)

(** What both surfaces are configured with. *)
Record Surface := { verifier : option Verify.Verifier; challenge : option string }.

(** What a call meets: UUIDs for its trace context, the key caches' answers and the
    verifier's clock. *)
Record Env `{!Jwt} := {
  uuids : string * string;
  key_for : string -> string -> result Jwks.SigningKey AuthError;
  clock_now : N;
}.

Module DataService.
Section service.
Context {C D E F : Type} `{!PondIds} `{!Floats} `{!Arrow}.
Context `{!ControlPlane C} `{!PondStorage D} `{!QueryEngine E} `{!LineageReader D}.
Context `{!Codec} `{!SerdeTexts} `{!Serde} `{!Jwt}.
(** The forwarder, in the bearer and trace scope of a call. *)
Variable forwarder_in : option string -> option string -> Forwarder F.
Variable self : Node.
Variable surface : Surface.
Variable header_ok : string -> bool.
Notation World := (World C D E F).
Notation MR A := (Ops.M World (result A Status)).

Definition challenge_of (metadata_url : option string) : option string :=
  Metadata.challenge_header <$> metadata_url.

Definition with_metadata_url (v : option Verify.Verifier) (url : option string) : Surface :=
  {| verifier := v; challenge := challenge_of url |}.

Definition unauthenticated (message : string) : Status :=
  {| code := Unauthenticated; message := message; details := EmptyString;
     www_authenticate :=
       match challenge surface with
       | Some c => if header_ok c then Some c else None
       | None => None
       end |}.

Definition bearer_of (md : Service.Metadata) : option string :=
  match Service.authorization md with Some raw => Common.bearer raw | None => None end.

(** At the door there is no trace scope yet. *)
Definition record_rejection (claimed : option string) (op summary : string) : M World unit :=
  AgentOps.audit None (Identity.claimed claimed) op None (Some summary) 0 Access.ERROR.

(** The caller, and the token to replay on a hop. *)
Definition identity_of (env : Env) (md : Service.Metadata) (op : string) :
    MR (Identity.Identity * option string) :=
  let claimed := Service.latiq_agent_id md in
  match verifier surface with
  | None => ret (Ok (Identity.claimed claimed, None))
  | Some v =>
      match bearer_of md with
      | None =>
          record_rejection claimed op "rejected: no bearer token" ;;
          ret (Err (unauthenticated "a bearer token is required"))
      | Some token =>
          match Verify.verify v (key_for env) (clock_now env) token claimed with
          | Err _ =>
              record_rejection claimed op "rejected: invalid token" ;;
              ret (Err (unauthenticated "the bearer token was rejected"))
          | Ok identity => ret (Ok (identity, Some token))
          end
      end
  end.

Definition code_of (k : Kind.ErrorKind) : Code :=
  match k with
  | Kind.PondNotFound => NotFound
  | Kind.NameConflict => AlreadyExists
  | Kind.QueryTimeout => DeadlineExceeded
  | Kind.QueryCancelled => Cancelled
  | Kind.Unauthenticated => Unauthenticated
  | Kind.PondUnavailable => FailedPrecondition
  | Kind.CapabilityUnavailable => FailedPrecondition
  | Kind.CatalogError => InvalidArgument
  | Kind.SourceUnavailable => FailedPrecondition
  | Kind.Storage | Kind.Internal => Internal
  | _ => InvalidArgument
  end.

(** An error at the edge of its call's scope. *)
Definition stamped (ambient : option Trace.TraceContext) (e : AgentError) : ErrorEnvelope :=
  Envelope.with_traceparent (Envelope.with_trace_id e (AgentOps.current_trace_id ambient))
    (AgentOps.current_traceparent ambient).

Definition to_status (ambient : option Trace.TraceContext) (e : AgentError) : Status :=
  let env := stamped ambient e in
  {| code := code_of (Errors.kind env); message := Errors.message env;
     details := encode_envelope env; www_authenticate := None |}.

Definition controls_of (timeout_ms : N) : Deadline.QueryControls :=
  Deadline.timeout (Some timeout_ms).

Definition json_resp (value : Json) : Response := JsonResponse (to_string value).

Definition trace_of (env : Env) (md : Service.Metadata) : Trace.TraceContext :=
  Trace.inbound (uuids env).1 (uuids env).2 (Service.traceparent md).

Definition non_empty (s : string) : option string :=
  if String.eqb s EmptyString then None else Some s.

Definition or_text (s default : string) : string :=
  if String.eqb s EmptyString then default else s.

(** One operation in the scope of its call, and its answer's message. *)
Section scope.
Variables (ctx : Trace.TraceContext) (tok : option string).

Definition scoped : Forwarder F := forwarder_in tok (Some (Trace.traceparent ctx)).

Definition answered {A} (op : M World (result A AgentError)) (resp : A -> Response) : MR Response :=
  let! res := op in
  ret (match res with Ok a => Ok (resp a) | Err e => Err (to_status (Some ctx) e) end).

Definition tables_value (catalog : string) (tables : list (string * string)) : Json :=
  Derive.members
    [("catalog", Some (Str catalog));
     ("tables", Some (Array (map (fun t =>
        Derive.members [("schema", Some (Str t.1)); ("table", Some (Str t.2))]) tables)))].

Definition run (id : Identity.Identity) (r : Request) : MR Response :=
  let fw := scoped in
  let ambient := Some ctx in
  match r with
  | AllocatePond name policy tier lin =>
      answered (AgentOps.allocate_pond ambient id (non_empty name) (or_text policy "{}")
                  (or_text tier "medium") [] lin)
        (fun res => Allocated (al_pond_id res) (al_pond_name res))
  | MaterializePond pond =>
      answered (AgentOps.materialize_pond self ambient id pond) (fun _ => Done)
  | DropPond pond confirm =>
      answered (AgentOps.drop_pond self ambient id pond confirm) (fun _ => Done)
  | DescribePond pond =>
      answered (AgentOps.describe_pond self ambient id pond)
        (fun d => json_resp (Bodies.describe_to d))
  | ReadQuery pond sql t =>
      answered (AgentOps.read_collected_with self ambient id pond sql (controls_of t))
        (fun q => json_resp (Bodies.query_value q))
  | WriteQuery pond sql t =>
      answered (AgentOps.write_query_with self ambient id pond sql (controls_of t))
        (fun q => json_resp (Bodies.query_value q))
  | ExplainQuery pond sql _ =>
      answered (AgentOps.explain_query self ambient id pond sql)
        (fun e => json_resp (Bodies.explain_to e))
  | LoadDataset pond dataset =>
      answered (AgentOps.load_dataset self ambient id pond dataset)
        (fun l => json_resp (Bodies.load_to l))
  | CatalogPull pond catalog query params =>
      answered (AgentOps.catalog_pull self ambient id pond catalog query params)
        (fun p => json_resp (Bodies.pull_to p))
  | GetLineage pond limit since before =>
      answered (AgentOps.get_lineage self ambient id pond limit (non_empty since)
                  (non_empty before))
        (fun p => json_resp (Bodies.page_to p))
  | CatalogDescribe pond catalog params =>
      answered (AgentOps.catalog_describe self ambient id pond catalog params)
        (fun ts => json_resp (tables_value catalog ts))
  end.
End scope.

(** A call of the Data service. *)
Definition handle (env : Env) (md : Service.Metadata) (r : Request) : MR Response :=
  try! (id, tok) := identity_of env md (op_of r) in
  run (trace_of env md) tok id r.
End service.
End DataService.

(** ** stream_service.rs *)

Module StreamService.
Section stream.
Context {C D E F : Type} `{!PondIds} `{!Floats} `{!Arrow} `{!Ipc}.
Context `{!ControlPlane C} `{!PondStorage D} `{!QueryEngine E} `{!LineageReader D}.
Context `{!Codec} `{!Jwt}.
Variable forwarder_in : option string -> option string -> Forwarder F.
Variable self : Node.
Variable surface : Surface.
Variable header_ok : string -> bool.
Notation World := (World C D E F).
Notation MR A := (Ops.M World (result A Status)).

Definition ipc_status (e : string) : Status :=
  {| code := Internal; message := "arrow ipc encode: " +:+ e; details := EmptyString;
     www_authenticate := None |}.

Definition chunk (ipc : string) : ArrowChunk :=
  {| ipc := ipc; chunk_served_by := EmptyString; chunk_traceparent := EmptyString |}.

Fixpoint encode_batches (ctx : Trace.TraceContext) (w : writer)
    (batches : list (result batch AgentError)) : list (result ArrowChunk Status) :=
  match batches with
  | [] =>
      match finish w with
      | Ok tail => if String.eqb tail EmptyString then [] else [Ok (chunk tail)]
      | Err _ => []
      end
  | Err ae :: _ => [Err (DataService.to_status (Some ctx) ae)]
  | Ok b :: batches =>
      match write b w with
      | Err e => [Err (ipc_status e)]
      | Ok (w, bytes) => Ok (chunk bytes) :: encode_batches ctx w batches
      end
  end.

(** What a consumer that reads to the end receives. *)
Definition encode_to_chunks (ctx : Trace.TraceContext) (read : ArrowReadStream) :
    list (result ArrowChunk Status) :=
  match try_new (schema read) with
  | Err e => [Err (ipc_status e)]
  | Ok (w, bytes) =>
      Ok {| ipc := bytes; chunk_served_by := stream_served_by read;
            chunk_traceparent := stream_traceparent read |}
      :: encode_batches ctx w (batches read)
  end.

Definition read_arrow (env : Env) (md : Service.Metadata) (pond sql : string) (timeout_ms : N) :
    MR (list (result ArrowChunk Status)) :=
  try! (id, tok) := DataService.identity_of surface header_ok env md "read_arrow" in
  let ctx := DataService.trace_of env md in
  let fw := DataService.scoped forwarder_in ctx tok in
  let! res := AgentOps.read_arrow_with self (Some ctx) id pond sql
                (DataService.controls_of timeout_ms) in
  ret (match res with
       | Ok read => Ok (encode_to_chunks ctx read)
       | Err e => Err (DataService.to_status (Some ctx) e)
       end).
End stream.
End StreamService.
