(* ===== verification/Forward.v ===== *)
(** * Forwarding to the owner

    Models [latiq-pond-node/src/forward_client.rs] and
    [latiq-control-plane/src/node_client.rs]: the two clients of a node's Data and
    Stream surfaces, with the connections they keep.  The transport is a [Network]:
    whether an address answers, and what a call on it returns.  A message arrives as
    the type its method declares. *)
From S2P Require Import Prelude Errors Policy Common Deadline Plan Interfaces Auth Wire ControlPlane.
From S2P Require Import Ops DataService.
Import Types Rpc.
#[local] Open Scope rust_scope.
#[local] Arguments String.append !_ _ / : simpl nomatch.

Class Network (P : Type) := {
  (** Whether an address is one at all. *)
  from_shared : string -> result unit string;
  connect : string -> P -> result unit string;
  call : string -> Service.Metadata -> Request -> P -> result Response Status * P;
  call_stream : string -> Service.Metadata -> string -> string -> N ->
    P -> result (list (result ArrowChunk Status)) Status * P;
}.

(** ** forward_client.rs *)

Module GrpcForwarder.
(** A channel is its peer's endpoint. *)
Record Links {P : Type} := { clients : gset string; stream_clients : gset string; net : P }.
Arguments Links : clear implicits.

Record Served := { s_schema : list string; s_served_by : string; s_traceparent : string }.

Section forwarder.
Context {P : Type} `{!Network P} `{!Floats} `{!Arrow} `{!Ipc} `{!Codec} `{!SerdeTexts} `{!Serde}.
Variable header_ok : string -> bool.
(** The scope of the request being forwarded. *)
Variables (current_bearer current_traceparent : option string).
Notation Links := (Links P).

Definition new (p : P) : Links := {| clients := ∅; stream_clients := ∅; net := p |}.

Definition unreachable_owner (peer : Peer) (pond detail : string) : AgentError :=
  Envelope.rendered Kind.PondUnavailable
    ("Pond '{pond}' is owned by node '{node_id}', which is not answering at {node_endpoint} "
      +:+ "({detail}). The pond's data is on that node; no other node can serve it.")
    (facts [("pond", Text pond); ("node_id", Text (peer_node_id peer));
            ("node_endpoint", Text (endpoint peer)); ("detail", Text (trim detail))]).

Definition client (peer : Peer) (pond : string) (f : Links) : result unit AgentError * Links :=
  if bool_decide (endpoint peer ∈ clients f) then (Ok tt, f)
  else
    match connect (endpoint peer) (net f) with
    | Err e => (Err (unreachable_owner peer pond e), f)
    | Ok _ =>
        (Ok tt, {| clients := {[endpoint peer]} ∪ clients f; stream_clients := stream_clients f;
                   net := net f |})
    end.

Definition stream_client (peer : Peer) (pond : string) (f : Links) :
    result unit AgentError * Links :=
  if bool_decide (endpoint peer ∈ stream_clients f) then (Ok tt, f)
  else
    match connect (endpoint peer) (net f) with
    | Err e => (Err (unreachable_owner peer pond e), f)
    | Ok _ =>
        (Ok tt, {| clients := clients f; stream_clients := {[endpoint peer]} ∪ stream_clients f;
                   net := net f |})
    end.

Definition header (v : string) : option string := if header_ok v then Some v else None.

Definition with_identity (id : Identity.Identity) : Service.Metadata :=
  {| Service.latiq_agent_id := header (Identity.agent_id id);
     Service.authorization :=
       match current_bearer with Some t => header ("Bearer " +:+ t) | None => None end;
     Service.traceparent :=
       match current_traceparent with Some tp => header tp | None => None end |}.

Definition status_to_error (peer : Peer) (pond : string) (s : Status) : AgentError :=
  let by_code :=
    match code s with
    | NotFound => Agent.pond_not_found (message s)
    | AlreadyExists => Agent.name_conflict (message s)
    | Unauthenticated => Envelope.for_kind Kind.Unauthenticated (message s)
    | Unavailable => unreachable_owner peer pond (message s)
    | _ => Agent.internal (message s)
    end in
  if String.eqb (details s) EmptyString then by_code
  else match decode_envelope (details s) with Some env => env | None => by_code end.

Definition parse_json (json : string) : result Json AgentError :=
  map_err (fun e => Agent.internal ("forward decode json: " +:+ e)) (from_str json).

Definition set_net (p : P) (f : Links) : Links :=
  {| clients := clients f; stream_clients := stream_clients f; net := p |}.

(** One call on the peer's Data surface, on its kept connection. *)
Definition invoke (peer : Peer) (id : Identity.Identity) (pond : string) (r : Request)
    (f : Links) : result Response AgentError * Links :=
  match client peer pond f with
  | (Err e, f) => (Err e, f)
  | (Ok _, f) =>
      let (res, p) := call (endpoint peer) (with_identity id) r (net f) in
      (map_err (status_to_error peer pond) res, set_net p f)
  end.

Definition body (r : Response) : string :=
  match r with JsonResponse json => json | _ => EmptyString end.

(** The answer's body, read back. *)
Definition decoded {A} (from : Json -> result A AgentError)
    (out : result Response AgentError * Links) : result A AgentError * Links :=
  ((let? resp := out.1 in let? v := parse_json (body resp) in from v), out.2).

Definition from_value {A} (what : string) (from : Derive.Read A) (v : Json) :
    result A AgentError :=
  map_err (fun e => Agent.internal ("forward decode " +:+ what +:+ ": " +:+ e)) (from v).

Definition wire_timeout (t : option N) : N := default 0%N t.

Definition read (peer : Peer) (id : Identity.Identity) (pond sql : string) (t : option N)
    (f : Links) : result QueryResult AgentError * Links :=
  decoded Bodies.query_result_from_json
    (invoke peer id pond (ReadQuery pond sql (wire_timeout t)) f).

Definition write (peer : Peer) (id : Identity.Identity) (pond sql : string) (t : option N)
    (f : Links) : result QueryResult AgentError * Links :=
  decoded Bodies.query_result_from_json
    (invoke peer id pond (WriteQuery pond sql (wire_timeout t)) f).

Definition explain (peer : Peer) (id : Identity.Identity) (pond sql : string) (f : Links) :
    result ExplainResult AgentError * Links :=
  decoded (from_value "explain" Bodies.explain_from)
    (invoke peer id pond (ExplainQuery pond sql (wire_timeout None)) f).

Definition describe (peer : Peer) (id : Identity.Identity) (pond : string) (f : Links) :
    result DescribeResult AgentError * Links :=
  decoded (from_value "describe" Bodies.describe_from) (invoke peer id pond (DescribePond pond) f).

Definition drop_pond (peer : Peer) (id : Identity.Identity) (pond : string) (confirm : bool)
    (f : Links) : result unit AgentError * Links :=
  let out := invoke peer id pond (DropPond pond confirm) f in
  (map_ok (fun _ => tt) out.1, out.2).

Definition materialize_pond (peer : Peer) (id : Identity.Identity) (pond : string) (f : Links) :
    result unit AgentError * Links :=
  let out := invoke peer id pond (MaterializePond pond) f in
  (map_ok (fun _ => tt) out.1, out.2).

Definition U32_MAX : N := 2 ^ 32 - 1.

Definition get_lineage (peer : Peer) (id : Identity.Identity) (pond : string) (limit : N)
    (since before : option string) (f : Links) : result LineagePage AgentError * Links :=
  decoded (from_value "get_lineage" Bodies.page_from)
    (invoke peer id pond
       (GetLineage pond (N.min limit U32_MAX) (default EmptyString since)
          (default EmptyString before)) f).

Definition catalog_pull (peer : Peer) (id : Identity.Identity) (pond catalog query : string)
    (params : gmap string string) (f : Links) : result PullResult AgentError * Links :=
  decoded (from_value "catalog_pull" Bodies.pull_from)
    (invoke peer id pond (CatalogPull pond catalog query params) f).

Definition table_pair (t : Json) : option (string * string) :=
  schema ← Plan.get t "schema"; schema ← as_str schema;
  table ← Plan.get t "table"; table ← as_str table;
  Some (schema, table).

Definition tables_from (v : Json) : result (list (string * string)) AgentError :=
  let? tables := ok_or (Plan.get v "tables" ≫= as_array)
                   (Agent.internal "forward decode catalog_describe: no tables") in
  Ok (omap table_pair tables).

Definition catalog_describe (peer : Peer) (id : Identity.Identity) (pond catalog : string)
    (params : gmap string string) (f : Links) :
    result (list (string * string)) AgentError * Links :=
  decoded tables_from (invoke peer id pond (CatalogDescribe pond catalog params) f).

(** *** Streamed reads *)

(** The decoding task: what it has delivered of the schema, what the peer last said
    of who serves the read and under which span, and the batches it has sent. *)
Record Decoding := {
  dec : decoder;
  delivered : option (result Served AgentError);
  said_served_by : string;
  said_traceparent : string;
  out : list (result batch AgentError);
}.

Definition deliver (r : result Served AgentError) (d : Decoding) : Decoding :=
  {| dec := dec d; delivered := Some r; said_served_by := said_served_by d;
     said_traceparent := said_traceparent d; out := out d |}.

Definition push (r : result batch AgentError) (d : Decoding) : Decoding :=
  {| dec := dec d; delivered := delivered d; said_served_by := said_served_by d;
     said_traceparent := said_traceparent d; out := out d ++ [r] |}.

Definition served (d : Decoding) (sc : list string) : Served :=
  {| s_schema := sc; s_served_by := said_served_by d; s_traceparent := said_traceparent d |}.

Definition deliver_schema (d : Decoding) : Decoding :=
  match delivered d, decoded_schema (dec d) with
  | None, Some sc => deliver (Ok (served d sc)) d
  | _, _ => d
  end.

(** An error goes where the consumer is waiting: for the schema, or for a batch. *)
Definition fail (ae : AgentError) (d : Decoding) : Decoding :=
  match delivered d with
  | None => deliver (Err ae) d
  | Some _ => push (Err ae) d
  end.

(** The decoder over one chunk's bytes; [true] when the task is over. *)
Fixpoint decode_chunk (fuel : nat) (buf : string) (d : Decoding) : Decoding * bool :=
  match fuel with
  | O => (d, false)
  | S fuel =>
      let '((r, rest), dec') := decode buf (dec d) in
      let d := {| dec := dec'; delivered := delivered d; said_served_by := said_served_by d;
                  said_traceparent := said_traceparent d; out := out d |} in
      match r with
      | Ok (Some b) =>
          let d := push (Ok b) (deliver_schema d) in
          if String.eqb rest EmptyString then (d, false) else decode_chunk fuel rest d
      | Ok None => (d, false)
      | Err e => (fail (Agent.internal ("forward arrow decode: " +:+ e)) d, true)
      end
  end.

Definition hear (c : ArrowChunk) (d : Decoding) : Decoding :=
  {| dec := dec d; delivered := delivered d;
     said_served_by :=
       if String.eqb (chunk_served_by c) EmptyString then said_served_by d else chunk_served_by c;
     said_traceparent :=
       if String.eqb (chunk_traceparent c) EmptyString then said_traceparent d
       else chunk_traceparent c;
     out := out d |}.

Fixpoint decode_arrow_stream (peer : Peer) (pond : string)
    (messages : list (result ArrowChunk Status)) (d : Decoding) : Decoding :=
  match messages with
  | [] =>
      match delivered d with
      | Some _ => d
      | None =>
          deliver (match decoded_schema (dec d) with
                   | Some sc => Ok (served d sc)
                   | None => Err (Agent.internal "forward arrow: no schema")
                   end) d
      end
  | Err status :: _ => fail (status_to_error peer pond status) d
  | Ok chunk :: messages =>
      let (d, over) := decode_chunk (S (String.length (ipc chunk))) (ipc chunk) (hear chunk d) in
      if over then d else decode_arrow_stream peer pond messages (deliver_schema d)
  end.

Definition decoding_new : Decoding :=
  {| dec := decoder_new; delivered := None; said_served_by := EmptyString;
     said_traceparent := EmptyString; out := [] |}.

Definition read_arrow (peer : Peer) (id : Identity.Identity) (pond sql : string) (t : option N)
    (f : Links) : result ArrowReadStream AgentError * Links :=
  match stream_client peer pond f with
  | (Err e, f) => (Err e, f)
  | (Ok _, f) =>
      let (res, p) := call_stream (endpoint peer) (with_identity id) pond sql (wire_timeout t)
                        (net f) in
      (let? messages := map_err (status_to_error peer pond) res in
       let d := decode_arrow_stream peer pond messages decoding_new in
       let? s := default (Err (Agent.internal "forward arrow: stream closed before schema"))
                   (delivered d) in
       Ok {| schema := s_schema s; batches := out d; stream_meta := None;
             stream_served_by := s_served_by s; stream_traceparent := s_traceparent s |},
       set_net p f)
  end.

#[export] Instance grpc_forwarder : Forwarder Links :=
  {| fw_read := read; fw_read_arrow := read_arrow; fw_write := write; fw_explain := explain;
     fw_describe := describe; fw_get_lineage := get_lineage; fw_drop_pond := drop_pond;
     fw_materialize_pond := materialize_pond; fw_catalog_pull := catalog_pull;
     fw_catalog_describe := catalog_describe |}.
End forwarder.
End GrpcForwarder.

(** ** node_client.rs *)

Module NodeClient.
Record Channels {P : Type} := { channels : gset string; net : P }.
Arguments Channels : clear implicits.

Section client.
Context {P : Type} `{!Network P}.
Variable header_ok : string -> bool.
Notation Channels := (Channels P).

Definition client (endpoint : string) (c : Channels) : result unit string * Channels :=
  if bool_decide (endpoint ∈ channels c) then (Ok tt, c)
  else
    match from_shared endpoint with
    | Err e =>
        (Err ("the registry holds an unusable endpoint '" +:+ endpoint +:+ "': " +:+ e), c)
    | Ok _ =>
        match connect endpoint (net c) with
        | Err e => (Err ("could not reach the node at " +:+ endpoint +:+ ": " +:+ e), c)
        | Ok _ => (Ok tt, {| channels := {[endpoint]} ∪ channels c; net := net c |})
        end
    end.

Definition header (v : option string) : option string :=
  match v with Some v => if header_ok v then Some v else None | None => None end.

Definition metadata (caller : Service.CallerAuth) : Service.Metadata :=
  {| Service.latiq_agent_id := header (Service.agent_id caller);
     Service.authorization := header (Service.bearer caller);
     Service.traceparent := header (Service.hop_traceparent caller) |}.

(** A node that went away loses its channel, and the next create reconnects. *)
Definition materialize (endpoint pond_id : string) (caller : Service.CallerAuth) (c : Channels) :
    result unit string * Channels :=
  match client endpoint c with
  | (Err e, c) => (Err e, c)
  | (Ok _, c) =>
      let (res, p) := call endpoint (metadata caller) (MaterializePond pond_id) (net c) in
      match res with
      | Ok _ => (Ok tt, {| channels := channels c; net := p |})
      | Err status =>
          (Err (message status),
           {| channels := if bool_decide (code status = Unavailable)
                          then channels c ∖ {[endpoint]} else channels c;
              net := p |})
      end
  end.

#[export] Instance node_materializer : Service.NodeMaterializer Channels :=
  {| Service.materialize := materialize |}.
End client.
End NodeClient.

(** ** The nodes of a cluster *)

Module Cluster.
Section cluster.
Context {C D E F : Type} `{!PondIds} `{!Floats} `{!Arrow} `{!Ipc}.
Context `{!ControlPlane C} `{!PondStorage D} `{!QueryEngine E} `{!LineageReader D}.
Context `{!Codec} `{!SerdeTexts} `{!Serde} `{!Jwt}.
Variable forwarder_in : option string -> option string -> Forwarder F.
Variable header_ok : string -> bool.
Variable refused : string -> string.
Variable valid_uri : string -> result unit string.

(** A node as its peers meet it, with what each call on it will meet. *)
Record Peer := {
  node : Node;
  surface : Surface;
  arrivals : N -> Env;
  arrived : N;
  world : World C D E F;
}.

Definition Peers : Type := gmap string Peer.

Definition moved (p : Peer) (w : World C D E F) : Peer :=
  {| node := node p; surface := surface p; arrivals := arrivals p; arrived := arrived p + 1;
     world := w |}%N.

(** Nothing answers at an address no node has. *)
Definition no_answer (endpoint : string) : Status :=
  {| code := Unavailable; message := refused endpoint; details := EmptyString;
     www_authenticate := None |}.

Definition on_node {A} (endpoint : string) (f : Peer -> result A Status * World C D E F)
    (ps : Peers) : result A Status * Peers :=
  match ps !! endpoint with
  | None => (Err (no_answer endpoint), ps)
  | Some p => let (res, w) := f p in (res, <[endpoint := moved p w]> ps)
  end.

#[export] Instance network : Network Peers := {
  from_shared := valid_uri;
  connect endpoint ps := match ps !! endpoint with Some _ => Ok tt | None => Err (refused endpoint) end;
  call endpoint md r :=
    on_node endpoint (fun p =>
      DataService.handle forwarder_in (node p) (surface p) header_ok (arrivals p (arrived p)) md r
        (world p));
  call_stream endpoint md pond sql t :=
    on_node endpoint (fun p =>
      StreamService.read_arrow forwarder_in (node p) (surface p) header_ok
        (arrivals p (arrived p)) md pond sql t (world p));
}.
End cluster.
End Cluster.
