(* ===== verification/ForwardSpec.v ===== *)
(** * A forwarded operation is its owner's

    What a node's clients do against the surfaces of another node, both modelled in
    full: the answer is the owner's, but for what the wire leaves out; the caller is
    the same on both sides of the hop; a streamed read arrives whole; and the cluster
    records each operation once, under one trace. *)
From S2P Require Import Prelude Errors Policy Common Deadline Plan Interfaces Auth AuthSpec Wire WireSpec ControlPlane.
From S2P Require Import Ops OpsSpec DataService Forward.
Import Types Rpc.
#[local] Open Scope rust_scope.
#[local] Arguments String.append !_ _ / : simpl nomatch.

Lemma omap_map_id {A B} (f : A -> B) (g : B -> option A) l :
  (forall a, g (f a) = Some a) -> omap g (map f l) = l.
Proof.
  intros Hg. induction l as [|a l IH]; [done|]. change (omap g (map f (a :: l)) = a :: l).
  cbn [map]. unfold omap in *. cbn [list_omap]. by rewrite Hg, IH.
Qed.

(** ** Arrow's framing *)

(** A decoder that has been fed what a writer wrote is in step with it, and gives back
    what the writer was given. *)
Class IpcLaws `{!Values} `{!Ipc} := {
  in_step : list string -> writer -> decoder -> Prop;
  opens : forall sc w bytes, try_new sc = Ok (w, bytes) ->
    exists d, decode bytes decoder_new = ((Ok None, EmptyString), d) /\
      decoded_schema d = Some sc /\ in_step sc w d;
  carries : forall sc w d b w' bytes, in_step sc w d -> write b w = Ok (w', bytes) ->
    exists d', decode bytes d = ((Ok (Some b), EmptyString), d') /\
      decoded_schema d' = Some sc /\ in_step sc w' d';
  closes : forall sc w d bytes, in_step sc w d -> finish w = Ok bytes ->
    exists d', decode bytes d = ((Ok None, EmptyString), d');
}.

Section framing.
Context `{!Values} `{!Ipc}.
Variable stamp : AgentError -> AgentError.

(** The batches that reach the far side: as far as an error of the read, or of the
    writer. *)
Fixpoint received (w : writer) (batches : list (result batch AgentError)) :
    list (result batch AgentError) :=
  match batches with
  | [] => []
  | Err e :: _ => [Err (stamp e)]
  | Ok b :: batches =>
      match write b w with
      | Err e => [Err (Agent.internal ("arrow ipc encode: " +:+ e))]
      | Ok (w, _) => Ok b :: received w batches
      end
  end.

(** A read without errors through a writer without errors arrives as it is. *)
Lemma received_all w bs :
  (forall b w, is_ok (write b w) = true) -> received w (map Ok bs) = map Ok bs.
Proof.
  intros Hw. revert w. induction bs as [|b bs IH]; intros w; simpl; [done|].
  specialize (Hw b w). destruct (write b w) as [[w' bytes]|e]; [|done]. by rewrite IH.
Qed.
End framing.

(** ** One call on a peer *)

Section hop.
Context {C D E F : Type} `{!PondIds} `{!Floats} `{!Arrow} `{!Ipc}.
Context `{!ControlPlane C} `{!PondStorage D} `{!QueryEngine E} `{!LineageReader D}.
Context `{!Codec} `{!SerdeTexts} `{!Serde} `{!SerdeLaws} `{!Jwt}.
Variable forwarder_in : option string -> option string -> Forwarder F.
Variable header_ok : string -> bool.
Variable refused : string -> string.
Variable valid_uri : string -> result unit string.
(** The scope of the request on the node that forwards it. *)
Variables (current_bearer current_traceparent : option string).
(** The empty text is no envelope. *)
Hypothesis no_empty_envelope : decode_envelope EmptyString = None.

Notation Peer := (Cluster.Peer (C := C) (D := D) (E := E) (F := F)).
Notation Peers := (Cluster.Peers (C := C) (D := D) (E := E) (F := F)).
Notation Links := (GrpcForwarder.Links Peers).
Notation World := (World C D E F).
#[local] Instance net_ : Network Peers := Cluster.network forwarder_in header_ok refused valid_uri.
Notation metadata id := (GrpcForwarder.with_identity header_ok current_bearer current_traceparent id).

(** *** At the door *)

(** Who a call is, where it is let in, and the token it may replay. *)
Definition admitted (s : Surface) (env : Env) (md : Service.Metadata) :
    option (Identity.Identity * option string) :=
  match verifier s with
  | None => Some (Identity.claimed (Service.latiq_agent_id md), None)
  | Some v =>
      match DataService.bearer_of md with
      | None => None
      | Some token =>
          match Verify.verify v (key_for env) (clock_now env) token (Service.latiq_agent_id md) with
          | Ok id => Some (id, Some token)
          | Err _ => None
          end
      end
  end.

Lemma try_admitted {A} s env md op id tok
    (k : Identity.Identity * option string -> Ops.M World (result A Status)) w :
  admitted s env md = Some (id, tok) ->
  Ops.try (DataService.identity_of s header_ok env md op) k w = k (id, tok) w.
Proof.
  unfold admitted, DataService.identity_of, Ops.try, Ops.bind, ret. intros Ha.
  destruct (verifier s); [|by simplify_eq]. destruct (DataService.bearer_of md); [|done].
  destruct (Verify.verify _ _ _ _ _); by simplify_eq.
Qed.

(** *** The error on the way back *)

Lemma status_round peer pond ctx e :
  GrpcForwarder.status_to_error peer pond (DataService.to_status ctx e) =
  DataService.stamped ctx e.
Proof.
  unfold GrpcForwarder.status_to_error, DataService.to_status. cbn [details].
  destruct (String.eqb_spec (encode_envelope (DataService.stamped ctx e)) EmptyString) as [He|_].
  - pose proof (decode_encode_envelope (DataService.stamped ctx e)) as Hd.
    rewrite He, no_empty_envelope in Hd. discriminate Hd.
  - by rewrite decode_encode_envelope.
Qed.

(** *** The connection *)

Lemma client_ok peer pond (f : Links) owner :
  GrpcForwarder.net f !! endpoint peer = Some owner ->
  exists f', GrpcForwarder.client peer pond f = (Ok tt, f') /\
    GrpcForwarder.net f' = GrpcForwarder.net f.
Proof.
  intros Ho. unfold GrpcForwarder.client. case_bool_decide; [by eexists|].
  cbn [connect net_ Cluster.network]. rewrite Ho. by eexists.
Qed.

Lemma stream_client_ok peer pond (f : Links) owner :
  GrpcForwarder.net f !! endpoint peer = Some owner ->
  exists f', GrpcForwarder.stream_client peer pond f = (Ok tt, f') /\
    GrpcForwarder.net f' = GrpcForwarder.net f.
Proof.
  intros Ho. unfold GrpcForwarder.stream_client. case_bool_decide; [by eexists|].
  cbn [connect net_ Cluster.network]. rewrite Ho. by eexists.
Qed.

Notation env_of owner := (Cluster.arrivals owner (Cluster.arrived owner)).

(** What the owner makes of a forwarded operation, in the scope of its call. *)
Definition serve (owner : Peer) (id : Identity.Identity) (tok : option string)
    (md : Service.Metadata) {A}
    (op : Forwarder F -> option Trace.TraceContext -> Identity.Identity ->
          Ops.M World (result A AgentError)) : result A AgentError * World :=
  let ctx := DataService.trace_of (env_of owner) md in
  op (DataService.scoped forwarder_in ctx tok) (Some ctx) id (Cluster.world owner).

Definition hop_scope (owner : Peer) (md : Service.Metadata) : option Trace.TraceContext :=
  Some (DataService.trace_of (env_of owner) md).

(** A unary call on a peer that lets it in: the owner's answer as a message, or its
    error as the envelope it is. *)
Lemma invoke_served {A} peer id pond r (f : Links) owner who tok
    (op : Forwarder F -> option Trace.TraceContext -> Identity.Identity ->
          Ops.M World (result A AgentError)) (resp : A -> Response) :
  GrpcForwarder.net f !! endpoint peer = Some owner ->
  admitted (Cluster.surface owner) (env_of owner) (metadata id) = Some (who, tok) ->
  (forall ctx tok who, DataService.run forwarder_in (Cluster.node owner) ctx tok who r =
     DataService.answered ctx (op (DataService.scoped forwarder_in ctx tok) (Some ctx) who) resp) ->
  let out := serve owner who tok (metadata id) op in
  exists f',
    GrpcForwarder.invoke header_ok current_bearer current_traceparent peer id pond r f =
      (match out.1 with
       | Ok a => Ok (resp a)
       | Err e => Err (DataService.stamped (hop_scope owner (metadata id)) e)
       end, f') /\
    GrpcForwarder.net f' =
      <[endpoint peer := Cluster.moved owner out.2]> (GrpcForwarder.net f).
Proof.
  intros Ho Ha Hr. cbv zeta. destruct (client_ok peer pond f owner Ho) as (f1 & Hc & Hn).
  unfold GrpcForwarder.invoke. rewrite Hc. cbn [call net_ Cluster.network]. rewrite Hn.
  unfold Cluster.on_node. rewrite Ho. unfold DataService.handle.
  rewrite (try_admitted _ _ _ _ _ _ _ _ Ha), Hr. unfold DataService.answered, Ops.bind, serve.
  destruct (op _ _ _ _) as [[a|e] w'].
  - eexists. split; [reflexivity|done].
  - unfold ret. cbv beta iota. cbn [map_err]. rewrite status_round.
    eexists. split; [reflexivity|done].
Qed.

(** *** The operations that are forwarded *)

Inductive Forwarded : Type -> Type :=
| FRead (pond sql : string) (t : option N) : Forwarded QueryResult
| FWrite (pond sql : string) (t : option N) : Forwarded QueryResult
| FExplain (pond sql : string) : Forwarded ExplainResult
| FDescribe (pond : string) : Forwarded DescribeResult
| FLineage (pond : string) (limit : N) (since before : option string) : Forwarded LineagePage
| FDrop (pond : string) (confirm : bool) : Forwarded unit
| FMaterialize (pond : string) : Forwarded unit
| FPull (pond catalog query : string) (params : gmap string string) : Forwarded PullResult
| FCatalog (pond catalog : string) (params : gmap string string) :
    Forwarded (list (string * string)).

#[local] Instance forwarder_ : Forwarder Links :=
  GrpcForwarder.grpc_forwarder header_ok current_bearer current_traceparent.

(** The forwarder's call. *)
Definition remote {A} (o : Forwarded A) (peer : Types.Peer) (id : Identity.Identity) :
    Links -> result A AgentError * Links :=
  match o with
  | FRead pond sql t => fw_read peer id pond sql t
  | FWrite pond sql t => fw_write peer id pond sql t
  | FExplain pond sql => fw_explain peer id pond sql
  | FDescribe pond => fw_describe peer id pond
  | FLineage pond limit since before => fw_get_lineage peer id pond limit since before
  | FDrop pond confirm => fw_drop_pond peer id pond confirm
  | FMaterialize pond => fw_materialize_pond peer id pond
  | FPull pond catalog query params => fw_catalog_pull peer id pond catalog query params
  | FCatalog pond catalog params => fw_catalog_describe peer id pond catalog params
  end.

(** The same operation where the pond is: no timeout is zero, no bound is the empty
    one. *)
Definition here {A} (o : Forwarded A) (n : Node) (fw : Forwarder F)
    (ambient : option Trace.TraceContext) (id : Identity.Identity) :
    Ops.M World (result A AgentError) :=
  let controls t := DataService.controls_of (GrpcForwarder.wire_timeout t) in
  let bound b := DataService.non_empty (default EmptyString b) in
  match o with
  | FRead pond sql t => AgentOps.read_collected_with n ambient id pond sql (controls t)
  | FWrite pond sql t => AgentOps.write_query_with n ambient id pond sql (controls t)
  | FExplain pond sql => AgentOps.explain_query n ambient id pond sql
  | FDescribe pond => AgentOps.describe_pond n ambient id pond
  | FLineage pond limit since before =>
      AgentOps.get_lineage n ambient id pond (N.min limit GrpcForwarder.U32_MAX) (bound since)
        (bound before)
  | FDrop pond confirm => AgentOps.drop_pond n ambient id pond confirm
  | FMaterialize pond => AgentOps.materialize_pond n ambient id pond
  | FPull pond catalog query params => AgentOps.catalog_pull n ambient id pond catalog query params
  | FCatalog pond catalog params => AgentOps.catalog_describe n ambient id pond catalog params
  end.

(** What an answer keeps: all but the columns of a result's datasets. *)
Definition kept (q : QueryResult) : QueryResult :=
  {| columns := columns q; rows := rows q; meta := meta_on_wire (meta q) |}.

Definition on_wire {A} (o : Forwarded A) : A -> A :=
  match o with FRead _ _ _ | FWrite _ _ _ => kept | _ => fun a => a end.

Definition query_fits (q : QueryResult) : Prop :=
  meta_fits (meta q) /\ Forall (Forall (canonical exact)) (rows q).

(** Its numbers are within their types, and its values are what JSON text can hold. *)
Definition fits {A} (o : Forwarded A) : A -> Prop :=
  match o with
  | FRead _ _ _ | FWrite _ _ _ => query_fits
  | FExplain _ _ => explain_fits
  | FDescribe _ => fun d => Forall table_fits (tables (dr_schema d))
  | FLineage _ _ _ _ => fun p => page_fits p /\ Forall (canonical exact) (pg_events p)
  | _ => fun _ => True
  end.

Lemma parse_canonical v : canonical exact v -> GrpcForwarder.parse_json (to_string v) = Ok v.
Proof. intros Hv. unfold GrpcForwarder.parse_json. by rewrite from_str_to_string. Qed.

Lemma from_value_ok {A} what (from : Derive.Read A) v a :
  from v = Ok a -> GrpcForwarder.from_value what from v = Ok a.
Proof. unfold GrpcForwarder.from_value. by intros ->. Qed.

Lemma catalog_tables_round catalog ts :
  GrpcForwarder.tables_from (DataService.tables_value catalog ts) = Ok ts /\
  canonical exact (DataService.tables_value catalog ts).
Proof.
  unfold DataService.tables_value.
  assert (Hrow : forall t : string * string,
    GrpcForwarder.table_pair
      (Derive.members [("schema", Some (Str t.1)); ("table", Some (Str t.2))]) = Some t /\
    canonical exact (Derive.members [("schema", Some (Str t.1)); ("table", Some (Str t.2))])).
  { intros [a b]. split; [|by apply canonical_members; repeat constructor].
    unfold GrpcForwarder.table_pair. cbn [fst snd].
    destruct (members_spec [("schema", Some (Str a)); ("table", Some (Str b))]) as (m & -> & Hm).
    { apply (bool_decide_unpack _). vm_compute. exact I. }
    unfold Plan.get. by rewrite !Hm. }
  split.
  - unfold GrpcForwarder.tables_from. edestruct members_spec as (m & -> & Hm).
    { apply (bool_decide_unpack _). vm_compute. exact I. }
    unfold Plan.get. rewrite Hm.
    change (Ok (omap GrpcForwarder.table_pair (map (fun t : string * string => Derive.members
      [("schema", Some (Str t.1)); ("table", Some (Str t.2))]) ts)) = Ok (E := AgentError) ts).
    f_equal. apply omap_map_id. intros t. exact (proj1 (Hrow t)).
  - apply canonical_members. apply Forall_cons_2; [exact I|].
    apply Forall_cons_2; [|apply Forall_nil_2].
    apply canonical_array, Forall_map, Forall_true. intros t. exact (proj2 (Hrow t)).
Qed.

(** A body that reads back, and one that is not read. *)
Lemma decoded_served {A} peer id pond r (f : Links) owner who tok
    (op : Forwarder F -> option Trace.TraceContext -> Identity.Identity ->
          Ops.M World (result A AgentError)) (to : A -> Json) from (wire : A -> A) :
  GrpcForwarder.net f !! endpoint peer = Some owner ->
  admitted (Cluster.surface owner) (env_of owner) (metadata id) = Some (who, tok) ->
  (forall ctx tok who, DataService.run forwarder_in (Cluster.node owner) ctx tok who r =
     DataService.answered ctx (op (DataService.scoped forwarder_in ctx tok) (Some ctx) who)
       (fun a => DataService.json_resp (to a))) ->
  let out := serve owner who tok (metadata id) op in
  (forall a, out.1 = Ok a -> canonical exact (to a) /\ from (to a) = Ok (wire a)) ->
  exists f',
    GrpcForwarder.decoded from
      (GrpcForwarder.invoke header_ok current_bearer current_traceparent peer id pond r f) =
      (match out.1 with
       | Ok a => Ok (wire a)
       | Err e => Err (DataService.stamped (hop_scope owner (metadata id)) e)
       end, f') /\
    GrpcForwarder.net f' =
      <[endpoint peer := Cluster.moved owner out.2]> (GrpcForwarder.net f).
Proof.
  intros Ho Ha Hr out Hok.
  destruct (invoke_served peer id pond r f owner who tok op _ Ho Ha Hr) as (f' & Hi & Hn).
  exists f'. split; [|exact Hn]. rewrite Hi. unfold GrpcForwarder.decoded. cbn [fst snd]. fold out.
  destruct out.1 as [a|e]; [|done]. destruct (Hok a eq_refl) as [Hc Hf].
  cbn [res_bind GrpcForwarder.body DataService.json_resp]. rewrite (parse_canonical _ Hc).
  cbn [res_bind]. by rewrite Hf.
Qed.

Lemma unit_served peer id pond r (f : Links) owner who tok
    (op : Forwarder F -> option Trace.TraceContext -> Identity.Identity ->
          Ops.M World (result unit AgentError)) :
  GrpcForwarder.net f !! endpoint peer = Some owner ->
  admitted (Cluster.surface owner) (env_of owner) (metadata id) = Some (who, tok) ->
  (forall ctx tok who, DataService.run forwarder_in (Cluster.node owner) ctx tok who r =
     DataService.answered ctx (op (DataService.scoped forwarder_in ctx tok) (Some ctx) who)
       (fun _ => Done)) ->
  let out := serve owner who tok (metadata id) op in
  let called := GrpcForwarder.invoke header_ok current_bearer current_traceparent peer id pond r f in
  exists f',
    (map_ok (fun _ => tt) called.1, called.2) =
      (match out.1 with
       | Ok a => Ok a
       | Err e => Err (DataService.stamped (hop_scope owner (metadata id)) e)
       end, f') /\
    GrpcForwarder.net f' =
      <[endpoint peer := Cluster.moved owner out.2]> (GrpcForwarder.net f).
Proof.
  intros Ho Ha Hr out called.
  destruct (invoke_served peer id pond r f owner who tok op _ Ho Ha Hr) as (f' & Hi & Hn).
  exists f'. split; [|exact Hn]. unfold called. rewrite Hi. fold out.
  by destruct out.1 as [[]|e].
Qed.

(** C3: an operation forwarded to the node that owns its pond is that node's: it runs
    there once, as the caller the node lets in, in a scope of the caller's trace; its
    answer comes back as it is, but for the columns of its datasets, and its error as
    the envelope it left with, stamped with the owner's span; and nothing but the
    owner's state moves. *)
Theorem forwarding_is_transparent {A} (o : Forwarded A) peer id (f : Links) owner who tok :
  GrpcForwarder.net f !! endpoint peer = Some owner ->
  admitted (Cluster.surface owner) (env_of owner) (metadata id) = Some (who, tok) ->
  let out := serve owner who tok (metadata id) (here o (Cluster.node owner)) in
  (forall a, out.1 = Ok a -> fits o a) ->
  exists f',
    remote o peer id f =
      (match out.1 with
       | Ok a => Ok (on_wire o a)
       | Err e => Err (DataService.stamped (hop_scope owner (metadata id)) e)
       end, f') /\
    GrpcForwarder.net f' =
      <[endpoint peer := Cluster.moved owner out.2]> (GrpcForwarder.net f).
Proof.
  intros Ho Ha out Hfits. destruct o; cbn [remote on_wire fits] in Hfits |- *.
  - apply (decoded_served peer id pond _ f owner who tok _ Bodies.query_value _ kept Ho Ha);
      [reflexivity|]. intros a [Hm Hr]%Hfits. split; [by apply canonical_query|by apply query_round].
  - apply (decoded_served peer id pond _ f owner who tok _ Bodies.query_value _ kept Ho Ha);
      [reflexivity|]. intros a [Hm Hr]%Hfits. split; [by apply canonical_query|by apply query_round].
  - apply (decoded_served peer id pond _ f owner who tok _ Bodies.explain_to _ (fun a => a) Ho Ha);
      [reflexivity|]. intros a He%Hfits.
    split; [by apply canonical_explain|by apply from_value_ok, explain_round].
  - apply (decoded_served peer id pond _ f owner who tok _ Bodies.describe_to _ (fun a => a) Ho Ha);
      [reflexivity|]. intros a He%Hfits.
    split; [by apply canonical_describe|by apply from_value_ok, describe_round].
  - apply (decoded_served peer id pond _ f owner who tok _ Bodies.page_to _ (fun a => a) Ho Ha);
      [reflexivity|]. intros a [Hp He]%Hfits.
    split; [by apply canonical_page|by apply from_value_ok, page_round].
  - apply (unit_served peer id pond _ f owner who tok _ Ho Ha). reflexivity.
  - apply (unit_served peer id pond _ f owner who tok _ Ho Ha). reflexivity.
  - apply (decoded_served peer id pond _ f owner who tok _ Bodies.pull_to _ (fun a => a) Ho Ha);
      [reflexivity|]. intros a _. split; [apply canonical_pull|by apply from_value_ok, pull_round].
  - apply (decoded_served peer id pond _ f owner who tok _ (DataService.tables_value catalog) _
      (fun a => a) Ho Ha); [reflexivity|]. intros a _. destruct (catalog_tables_round catalog a) as [Hr Hc].
    exact (conj Hc Hr).
Qed.

(** *** Turned away by the owner *)

Lemma invoke_refused peer id pond r (f : Links) owner :
  GrpcForwarder.net f !! endpoint peer = Some owner ->
  admitted (Cluster.surface owner) (env_of owner) (metadata id) = None ->
  exists f' m summary,
    GrpcForwarder.invoke header_ok current_bearer current_traceparent peer id pond r f =
      (Err (Envelope.for_kind Kind.Unauthenticated m), f') /\
    GrpcForwarder.net f' = <[endpoint peer := Cluster.moved owner
      (set_trail (trail (Cluster.world owner) ++
         [Access.record None (Identity.claimed (Service.latiq_agent_id (metadata id))) (op_of r)
            None (Some summary) 0 Access.ERROR]) (Cluster.world owner))]> (GrpcForwarder.net f).
Proof.
  intros Ho Ha. destruct (client_ok peer pond f owner Ho) as (f1 & Hc & Hn).
  unfold GrpcForwarder.invoke. rewrite Hc. cbn [call net_ Cluster.network]. rewrite Hn.
  unfold Cluster.on_node. rewrite Ho. unfold DataService.handle, DataService.identity_of.
  unfold admitted in Ha. destruct (verifier (Cluster.surface owner)) as [v|]; [|done].
  destruct (DataService.bearer_of (metadata id)) as [t|].
  - destruct (Verify.verify _ _ _ _ _); [done|]. eexists _, _, _. split; [reflexivity|reflexivity].
  - eexists _, _, _. split; [reflexivity|reflexivity].
Qed.

(** *** Nobody there *)

Lemma invoke_unreachable peer id pond r (f : Links) :
  GrpcForwarder.net f !! endpoint peer = None ->
  exists f',
    GrpcForwarder.invoke header_ok current_bearer current_traceparent peer id pond r f =
      (Err (GrpcForwarder.unreachable_owner peer pond (refused (endpoint peer))), f') /\
    GrpcForwarder.net f' = GrpcForwarder.net f.
Proof.
  intros Ho. unfold GrpcForwarder.invoke, GrpcForwarder.client.
  case_bool_decide; cbn [connect call net_ Cluster.network]; unfold Cluster.on_node; rewrite Ho;
    by eexists.
Qed.

Definition pond_of {A} (o : Forwarded A) : string :=
  match o with
  | FRead pond _ _ | FWrite pond _ _ | FExplain pond _ | FDescribe pond | FLineage pond _ _ _
  | FDrop pond _ | FMaterialize pond | FPull pond _ _ _ | FCatalog pond _ _ => pond
  end.

(** The message a forwarded operation is. *)
Definition request_of {A} (o : Forwarded A) : Request :=
  match o with
  | FRead pond sql t => ReadQuery pond sql (GrpcForwarder.wire_timeout t)
  | FWrite pond sql t => WriteQuery pond sql (GrpcForwarder.wire_timeout t)
  | FExplain pond sql => ExplainQuery pond sql (GrpcForwarder.wire_timeout None)
  | FDescribe pond => DescribePond pond
  | FLineage pond limit since before =>
      GetLineage pond (N.min limit GrpcForwarder.U32_MAX) (default EmptyString since)
        (default EmptyString before)
  | FDrop pond confirm => DropPond pond confirm
  | FMaterialize pond => MaterializePond pond
  | FPull pond catalog query params => CatalogPull pond catalog query params
  | FCatalog pond catalog params => CatalogDescribe pond catalog params
  end.

(** A call that fails is its operation's failure. *)
Lemma remote_fails {A} (o : Forwarded A) peer id (f f' : Links) e :
  GrpcForwarder.invoke header_ok current_bearer current_traceparent peer id (pond_of o) (request_of o)
    f = (Err e, f') ->
  remote o peer id f = (Err e, f').
Proof.
  intros Hi. destruct o; cbn [remote]; cbv [fw_read fw_write fw_explain fw_describe fw_get_lineage
    fw_drop_pond fw_materialize_pond fw_catalog_pull fw_catalog_describe forwarder_
    GrpcForwarder.grpc_forwarder GrpcForwarder.read GrpcForwarder.write GrpcForwarder.explain
    GrpcForwarder.describe GrpcForwarder.get_lineage GrpcForwarder.drop_pond
    GrpcForwarder.materialize_pond GrpcForwarder.catalog_pull GrpcForwarder.catalog_describe
    GrpcForwarder.decoded]; cbn [pond_of request_of] in Hi; by rewrite Hi.
Qed.

(** an operation whose owner is gone fails as its pond being unavailable, naming the
    node, whether the connection was kept or not, and touches nothing; one its owner
    does not let in fails as unauthenticated, and all it leaves is the record of that on
    the owner. *)
Theorem failed_hops_are_reported {A} (o : Forwarded A) peer id (f : Links) :
  exists f', (remote o peer id f).2 = f' /\
  match GrpcForwarder.net f !! endpoint peer with
  | None =>
      (remote o peer id f).1 =
        Err (GrpcForwarder.unreachable_owner peer (pond_of o) (refused (endpoint peer))) /\
      GrpcForwarder.net f' = GrpcForwarder.net f
  | Some owner =>
      admitted (Cluster.surface owner) (env_of owner) (metadata id) = None ->
      exists m summary,
        (remote o peer id f).1 = Err (Envelope.for_kind Kind.Unauthenticated m) /\
        GrpcForwarder.net f' = <[endpoint peer := Cluster.moved owner
          (set_trail (trail (Cluster.world owner) ++
             [Access.record None (Identity.claimed (Service.latiq_agent_id (metadata id)))
                (op_of (request_of o)) None (Some summary) 0 Access.ERROR])
             (Cluster.world owner))]> (GrpcForwarder.net f)
  end.
Proof.
  eexists. split; [reflexivity|]. destruct (GrpcForwarder.net f !! endpoint peer) as [owner|] eqn:Ho.
  - intros Ha. destruct (invoke_refused peer id (pond_of o) (request_of o) f owner Ho Ha)
      as (f' & m & summary & Hi & Hn).
    rewrite (remote_fails _ _ _ _ _ _ Hi). by exists m, summary.
  - destruct (invoke_unreachable peer id (pond_of o) (request_of o) f Ho) as (f' & Hi & Hn).
    by rewrite (remote_fails _ _ _ _ _ _ Hi).
Qed.

(** *** Streamed reads *)

Section streams.
Context `{!IpcLaws}.

(** The decoding task once the schema is known. *)
Definition decoding sc (d : decoder) served_by traceparent (out : list (result batch AgentError)) :
    GrpcForwarder.Decoding :=
  {| GrpcForwarder.dec := d;
     GrpcForwarder.delivered :=
       Some (Ok {| GrpcForwarder.s_schema := sc; GrpcForwarder.s_served_by := served_by;
                   GrpcForwarder.s_traceparent := traceparent |});
     GrpcForwarder.said_served_by := served_by; GrpcForwarder.said_traceparent := traceparent;
     GrpcForwarder.out := out |}.

Lemma decode_batches peer pond ctx sc w d served_by tp batches out :
  in_step sc w d ->
  exists d', GrpcForwarder.decode_arrow_stream peer pond (StreamService.encode_batches ctx w batches)
      (decoding sc d served_by tp out) =
    decoding sc d' served_by tp
      (out ++ received (DataService.stamped (Some ctx)) w batches).
Proof.
  revert w d out. induction batches as [|[b|e] batches IH]; intros w d out Hs;
    cbn [StreamService.encode_batches received].
  - destruct (finish w) as [tail|e] eqn:Ef; [|exists d; by rewrite app_nil_r].
    destruct (String.eqb_spec tail EmptyString); [exists d; by rewrite app_nil_r|].
    destruct (closes _ _ _ _ Hs Ef) as (d' & Hd). exists d'. rewrite app_nil_r.
    cbn [GrpcForwarder.decode_arrow_stream GrpcForwarder.decode_chunk ipc StreamService.chunk].
    unfold GrpcForwarder.hear. cbn [GrpcForwarder.dec decoding]. by rewrite Hd.
  - destruct (write b w) as [[w' bytes]|e] eqn:Ew.
    + destruct (carries _ _ _ _ _ _ Hs Ew) as (d1 & Hd & _ & Hs').
      cbn [GrpcForwarder.decode_arrow_stream GrpcForwarder.decode_chunk ipc StreamService.chunk].
      unfold GrpcForwarder.hear. cbn [GrpcForwarder.dec decoding]. rewrite Hd.
      destruct (IH w' d1 (out ++ [Ok b]) Hs') as (d' & Hd'). exists d'.
      rewrite <- (app_assoc out [Ok b]) in Hd'. exact Hd'.
    + exists d. cbn [GrpcForwarder.decode_arrow_stream]. reflexivity.
  - exists d. cbn [GrpcForwarder.decode_arrow_stream]. by rewrite status_round.
Qed.

(** What the far side makes of a whole stream. *)
Lemma stream_round peer pond ctx read :
  let d := GrpcForwarder.decode_arrow_stream peer pond
             (StreamService.encode_to_chunks ctx read) GrpcForwarder.decoding_new in
  match try_new (schema read) with
  | Err e =>
      GrpcForwarder.delivered d = Some (Err (Agent.internal ("arrow ipc encode: " +:+ e)))
  | Ok (w, _) =>
      exists d', d = decoding (schema read) d' (stream_served_by read) (stream_traceparent read)
                       (received (DataService.stamped (Some ctx)) w (batches read))
  end.
Proof.
  cbv zeta. unfold StreamService.encode_to_chunks.
  destruct (try_new (schema read)) as [[w bytes]|e] eqn:Et; [|reflexivity].
  destruct (opens _ _ _ Et) as (d & Hd & Hsc & Hs).
  destruct (decode_batches peer pond ctx _ _ _ (stream_served_by read) (stream_traceparent read)
    (batches read) [] Hs) as (d' & Hd').
  exists d'. change ([] ++ ?l) with l in Hd'. rewrite <- Hd'.
  cbn [GrpcForwarder.decode_arrow_stream GrpcForwarder.decode_chunk ipc].
  unfold GrpcForwarder.hear. cbn. rewrite Hd. cbn. unfold GrpcForwarder.deliver_schema. cbn.
  rewrite Hsc. unfold decoding, GrpcForwarder.deliver, GrpcForwarder.served. cbn.
  by destruct (String.eqb_spec (stream_served_by read) EmptyString) as [->|],
    (String.eqb_spec (stream_traceparent read) EmptyString) as [->|].
Qed.

(** C12: a streamed read of a pond on another node arrives as its owner sent it: the
    schema, every batch in order up to an error, that error as its own envelope, and
    who served it under which span; only the statement's meta stays behind. *)
Theorem stream_arrives_whole peer id pond sql t (f : Links) owner who tok :
  GrpcForwarder.net f !! endpoint peer = Some owner ->
  admitted (Cluster.surface owner) (env_of owner) (metadata id) = Some (who, tok) ->
  let controls := DataService.controls_of (GrpcForwarder.wire_timeout t) in
  let out := serve owner who tok (metadata id) (fun fw ambient id =>
    AgentOps.read_arrow_with (Cluster.node owner) ambient id pond sql controls) in
  let scope := hop_scope owner (metadata id) in
  exists f',
    GrpcForwarder.read_arrow header_ok current_bearer current_traceparent peer id pond sql t f =
      (match out.1 with
       | Err e => Err (DataService.stamped scope e)
       | Ok read =>
           match try_new (schema read) with
           | Err e => Err (Agent.internal ("arrow ipc encode: " +:+ e))
           | Ok (w, _) =>
               Ok {| schema := schema read;
                     batches := received (DataService.stamped scope) w (batches read);
                     stream_meta := None; stream_served_by := stream_served_by read;
                     stream_traceparent := stream_traceparent read |}
           end
       end, f') /\
    GrpcForwarder.net f' =
      <[endpoint peer := Cluster.moved owner out.2]> (GrpcForwarder.net f).
Proof.
  intros Ho Ha. cbv zeta. destruct (stream_client_ok peer pond f owner Ho) as (f1 & Hc & Hn).
  unfold GrpcForwarder.read_arrow. rewrite Hc. cbn [call_stream net_ Cluster.network]. rewrite Hn.
  unfold Cluster.on_node. rewrite Ho. unfold StreamService.read_arrow.
  rewrite (try_admitted _ _ _ _ _ _ _ _ Ha). unfold Ops.bind, serve, hop_scope.
  destruct (AgentOps.read_arrow_with _ _ _ _ _ _ _) as [[read|e] w'];
    unfold ret; cbv beta iota; cbn [map_err res_bind fst snd];
    exists (GrpcForwarder.set_net (<[endpoint peer := Cluster.moved owner w']>
              (GrpcForwarder.net f)) f1); (split; [f_equal|reflexivity]).
  - pose proof (stream_round peer pond (DataService.trace_of (env_of owner) (metadata id)) read) as Hs.
    cbv zeta in Hs. destruct (try_new (schema read)) as [[w bytes]|e].
    + destruct Hs as (d' & ->). reflexivity.
    + by rewrite Hs.
  - by rewrite status_round.
Qed.
End streams.
End hop.

(** ** The decoding task on its own *)

Section task.
Context `{!Floats} `{!Arrow} `{!Ipc} `{!Codec}.

(** The fuel of a chunk is enough: each batch takes a byte of it. *)
Lemma decode_chunk_fuel n m buf d :
  String.length buf < n -> String.length buf < m ->
  GrpcForwarder.decode_chunk n buf d = GrpcForwarder.decode_chunk m buf d.
Proof.
  revert m buf d. induction n as [|n IH]; intros m buf d Hn Hm; [lia|].
  destruct m as [|m]; [lia|]. cbn [GrpcForwarder.decode_chunk].
  destruct (decode buf (GrpcForwarder.dec d)) as [[[[b|]|e] rest] dec'] eqn:Ed; try done.
  destruct (String.eqb rest EmptyString); [done|]. apply decode_consumes in Ed. apply IH; lia.
Qed.

Lemma delivered_push r d :
  GrpcForwarder.delivered (GrpcForwarder.push r d) = GrpcForwarder.delivered d.
Proof. done. Qed.

Lemma fail_delivers ae d : is_Some (GrpcForwarder.delivered (GrpcForwarder.fail ae d)).
Proof. unfold GrpcForwarder.fail. destruct (GrpcForwarder.delivered d) eqn:E; by eexists. Qed.

Lemma decode_chunk_over n buf d :
  (GrpcForwarder.decode_chunk n buf d).2 = true ->
  is_Some (GrpcForwarder.delivered (GrpcForwarder.decode_chunk n buf d).1).
Proof.
  revert buf d. induction n as [|n IH]; intros buf d; cbn [GrpcForwarder.decode_chunk]; [done|].
  destruct (decode buf (GrpcForwarder.dec d)) as [[[[b|]|e] rest] dec']; [|done|].
  - destruct (String.eqb rest EmptyString); [done|apply IH].
  - intros _. apply fail_delivers.
Qed.

(** whatever a peer sends, and however it ends, the consumer of a forwarded read gets
    its schema or an error: it is never left waiting on a task that is over. *)
Theorem forwarded_read_answers peer pond messages d :
  is_Some (GrpcForwarder.delivered (GrpcForwarder.decode_arrow_stream peer pond messages d)).
Proof.
  revert d. induction messages as [|[c|s] messages IH]; intros d;
    cbn [GrpcForwarder.decode_arrow_stream].
  - destruct (GrpcForwarder.delivered d) eqn:E; by eexists.
  - pose proof (decode_chunk_over (S (String.length (ipc c))) (ipc c) (GrpcForwarder.hear c d)) as Ho.
    destruct (GrpcForwarder.decode_chunk _ _ _) as [d' []]; [by apply Ho|apply IH].
  - apply fail_delivers.
Qed.
End task.

(** ** The caller on both sides of the hop *)

Section identity.
Context `{!Jwt}.
Variable header_ok : string -> bool.

Lemma claimed_or_again h d :
  trim d = d -> d <> EmptyString ->
  Identity.claimed_or (Some (Identity.claimed_or h d)) d = Identity.claimed_or h d.
Proof.
  intros Ht Hd%String.eqb_neq. unfold Identity.claimed_or.
  destruct h as [s|]; cbn [fmap option_fmap option_map]; [|by rewrite Ht, Hd].
  destruct (String.eqb (trim s) EmptyString) eqn:E; [by rewrite Ht, Hd|].
  by rewrite trim_idem, E.
Qed.

(** A verified caller's agent id is only ever its claim, or its subject. *)
Lemma verify_claimed v kf now token c c' id :
  Verify.verify v kf now token c = Ok id ->
  Verify.verify v kf now token c' =
    Ok {| Identity.agent_id := Identity.claimed_or c' (Identity.subject id);
          Identity.subject := Identity.subject id; Identity.issuer := Identity.issuer id;
          Identity.verified := true |} /\
  Identity.agent_id id = Identity.claimed_or c (Identity.subject id) /\
  Identity.verified id = true /\
  trim (Identity.subject id) = Identity.subject id /\ Identity.subject id <> EmptyString.
Proof.
  unfold Verify.verify. intros Hv.
  repeat (case_match || (unfold res_bind in Hv |- *)); try discriminate Hv.
  injection Hv as <-. cbn [Identity.agent_id Identity.subject Identity.from_claims].
  split_and!; try done; rewrite !trim_idem; try done. by apply String.eqb_neq.
Qed.

(** What a header carries of the caller is read back as the caller. *)
Lemma claim_carried h d :
  trim d = d -> d <> EmptyString ->
  (h <> None -> header_ok (Identity.claimed_or h d) = true) ->
  Identity.claimed_or (GrpcForwarder.header header_ok (Identity.claimed_or h d)) d =
    Identity.claimed_or h d.
Proof.
  intros Ht Hd Hh. unfold GrpcForwarder.header. destruct h as [s|].
  - rewrite Hh by done. by apply claimed_or_again.
  - case_match; [by apply claimed_or_again|done].
Qed.

Lemma bearer_carried t md :
  header_ok ("Bearer " +:+ t) = true -> trim t = t -> t <> EmptyString ->
  Service.authorization md = GrpcForwarder.header header_ok ("Bearer " +:+ t) ->
  DataService.bearer_of md = Some t.
Proof.
  intros Hh Ht Hn Ha. unfold DataService.bearer_of. rewrite Ha. unfold GrpcForwarder.header.
  rewrite Hh. apply bearer_spec. exists "Bearer", t. by rewrite Ht.
Qed.

Lemma bearer_trimmed h t : Common.bearer h = Some t -> trim t = t /\ t <> EmptyString.
Proof. intros (? & rest & _ & _ & _ & -> & Hn)%bearer_spec. by rewrite trim_idem. Qed.

(** C11: a hop changes nothing about who is calling: an owner that would let the caller in
    at its own door lets in the forwarded call as the same agent, subject and issuer,
    with the same token to replay, and continues the same trace with the same sampling
    decision under a span of its own. *)
Theorem identity_survives_hop s env md id tok ctx :
  admitted s env md = Some (id, tok) ->
  trace_wf ctx ->
  header_ok (Trace.traceparent ctx) = true ->
  (Service.latiq_agent_id md <> None -> header_ok (Identity.agent_id id) = true) ->
  (forall t, tok = Some t -> header_ok ("Bearer " +:+ t) = true) ->
  let hop := GrpcForwarder.with_identity header_ok tok (Some (Trace.traceparent ctx)) id in
  admitted s env hop = Some (id, tok) /\
  DataService.trace_of env hop =
    {| Trace.trace_id := Trace.trace_id ctx; Trace.span_id := Trace.span_of (uuids env).2;
       Trace.sampled := Trace.sampled ctx |}.
Proof.
  intros Ha Hw Htp Hag Htok hop. split.
  - unfold admitted in Ha |- *. destruct (verifier s) as [v|].
    + destruct (DataService.bearer_of md) as [t|] eqn:Eb; [|done].
      destruct (Verify.verify _ _ _ _ _) as [id'|] eqn:Ev; [|done]. injection Ha as -> <-.
      unfold DataService.bearer_of in Eb. destruct (Service.authorization md) as [raw|]; [|done].
      destruct (bearer_trimmed _ _ Eb) as [Ht Hn].
      rewrite (bearer_carried t hop (Htok t eq_refl) Ht Hn eq_refl).
      destruct (verify_claimed _ _ _ _ _ (Service.latiq_agent_id hop) _ Ev)
        as (-> & Hid & Hver & Hst & Hsn).
      do 2 f_equal. destruct id as [a su iss ve]. simpl in *. subst ve. f_equal. rewrite Hid in Hag |- *.
      by apply claim_carried.
    + injection Ha as <- <-. unfold Identity.claimed in *. cbn [Identity.agent_id] in Hag. do 3 f_equal.
      apply claim_carried; [reflexivity|done|exact Hag].
  - unfold DataService.trace_of, Trace.inbound. cbn [hop GrpcForwarder.with_identity
      Service.traceparent]. unfold GrpcForwarder.header. rewrite Htp.
    cbn [mbind option_bind]. by rewrite traceparent_roundtrip.
Qed.
End identity.
