(* ===== verification/ClusterSpec.v ===== *)
(** * One operation, one record, one trace

    A node that does not own a pond and the node that does, as they are wired in a
    cluster: an operation the first relays is recorded once, on the second, as the
    caller the second took it for and under the trace of the first; one the second
    turns away is recorded there as well. *)
From S2P Require Import Prelude Errors Policy Common Deadline Plan Interfaces Auth AuthSpec Wire WireSpec ControlPlane.
From S2P Require Import Ops OpsSpec DataService Forward ForwardSpec.
Import Types Rpc.
#[local] Open Scope rust_scope.
#[local] Arguments String.append !_ _ / : simpl nomatch.

(** The limit of a relayed page: the node's own bound, then the field's. *)
Definition sent (limit : N) : N := N.min (N.min limit AgentOps.MAX_LIMIT) GrpcForwarder.U32_MAX.

(** What a call is to the owner it is relayed to: the limit is bounded, no timeout
    is a timeout of zero and no bound an empty one; and a collected read, being carried
    as its stream, arrives as one. *)
Definition arrives (c : Call) : Call :=
  let controls ctl :=
    DataService.controls_of (GrpcForwarder.wire_timeout (Deadline.timeout_ms ctl)) in
  let bound b := DataService.non_empty (default EmptyString b) in
  match c with
  | CQuery true sql ctl => CQuery true sql (controls ctl)
  | CQuery false sql ctl => CCollected sql (controls ctl)
  | CArrow sql ctl | CCollected sql ctl => CArrow sql (controls ctl)
  | CLineage limit since before => CLineage (sent limit) (bound since) (bound before)
  | c => c
  end.

(** The message a relayed call is. *)
Inductive Hop := Unary (r : Request) | Stream (pond sql : string) (timeout_ms : N).

Definition hop_of (ref : string) (c : Call) : Hop :=
  let t ctl := GrpcForwarder.wire_timeout (Deadline.timeout_ms ctl) in
  match c with
  | CQuery true sql ctl => Unary (WriteQuery ref sql (t ctl))
  | CQuery false sql ctl => Unary (ReadQuery ref sql (t ctl))
  | CArrow sql ctl | CCollected sql ctl => Stream ref sql (t ctl)
  | CExplain sql => Unary (ExplainQuery ref sql (GrpcForwarder.wire_timeout None))
  | CDescribe => Unary (DescribePond ref)
  | CDrop confirm => Unary (DropPond ref confirm)
  | CMaterialize => Unary (MaterializePond ref)
  | CPull catalog query params => Unary (CatalogPull ref catalog query params)
  | CCatalog catalog params => Unary (CatalogDescribe ref catalog params)
  | CLineage limit since before =>
      Unary (GetLineage ref (sent limit) (default EmptyString since)
               (default EmptyString before))
  end.

Lemma hop_op ref c :
  match hop_of ref c with Unary r => op_of r | Stream _ _ _ => "read_arrow" end =
  call_op (arrives c).
Proof. by destruct c as [[]|[]|[]| | | | | | |]. Qed.

Section cluster.
Context {C D E F : Type} `{!PondIds} `{!Floats} `{!Arrow} `{!Ipc}.
Context `{!ControlPlane C} `{!PondStorage D} `{!QueryEngine E} `{!LineageReader D}.
Context `{!Codec} `{!SerdeTexts} `{!Serde} `{!Jwt}.
Variable forwarder_in : option string -> option string -> Forwarder F.
Variable header_ok : string -> bool.
Variable refused : string -> string.
Variable valid_uri : string -> result unit string.
Variables (current_bearer current_traceparent : option string).

Notation Peer := (Cluster.Peer (C := C) (D := D) (E := E) (F := F)).
Notation Peers := (Cluster.Peers (C := C) (D := D) (E := E) (F := F)).
Notation Links := (GrpcForwarder.Links Peers).
#[local] Hint Extern 0 (Network _) =>
  exact (net_ forwarder_in header_ok refused valid_uri) : typeclass_instances.
#[local] Hint Extern 0 (Forwarder Links) =>
  exact (forwarder_ forwarder_in header_ok refused valid_uri current_bearer current_traceparent)
  : typeclass_instances.
Notation metadata id := (GrpcForwarder.with_identity header_ok current_bearer current_traceparent id).
Notation env_of owner := (Cluster.arrivals owner (Cluster.arrived owner)).

(** ** The owner's half *)

(** The owner's state once a message is served. *)
Definition after (owner : Peer) (md : Service.Metadata) (h : Hop) : World C D E F :=
  match h with
  | Unary r =>
      (DataService.handle forwarder_in (Cluster.node owner) (Cluster.surface owner) header_ok
         (env_of owner) md r (Cluster.world owner)).2
  | Stream pond sql t =>
      (StreamService.read_arrow forwarder_in (Cluster.node owner) (Cluster.surface owner) header_ok
         (env_of owner) md pond sql t (Cluster.world owner)).2
  end.

Lemma answered_world {A} ctx (op : Ops.M (World C D E F) (result A AgentError)) resp w :
  (DataService.answered ctx op resp w).2 = (op w).2.
Proof. unfold DataService.answered, Ops.bind. by destruct (op w). Qed.

(** A message let in is the call it stands for. *)
Lemma after_admitted owner md ref c who tok :
  admitted (Cluster.surface owner) (env_of owner) md = Some (who, tok) ->
  let ctx := DataService.trace_of (env_of owner) md in
  let fw := DataService.scoped forwarder_in ctx tok in
  after owner md (hop_of ref c) =
    (run (Cluster.node owner) (Some ctx) who ref (arrives c) (Cluster.world owner)).2.
Proof.
  intros Ha ctx fw. unfold after, DataService.handle, StreamService.read_arrow.
  destruct c as [[]|sql ctl|sql ctl| | | | | | |]; cbn [hop_of arrives run];
    rewrite (try_admitted _ _ _ _ _ _ _ _ _ Ha), (proj1 (ran_ok_run _ _));
    try (cbn [DataService.run]; rewrite answered_world; reflexivity).
  all: unfold Ops.bind; fold ctx; by destruct (AgentOps.read_arrow_with _ _ _ _ _ _ _).
Qed.

(** One turned away leaves the record of its rejection. *)
Lemma after_refused owner md ref c :
  admitted (Cluster.surface owner) (env_of owner) md = None ->
  exists summary, trail (after owner md (hop_of ref c)) = trail (Cluster.world owner) ++
    [Access.record None (Identity.claimed (Service.latiq_agent_id md)) (call_op (arrives c))
       None (Some summary) 0 Access.ERROR].
Proof.
  unfold admitted, after. rewrite <- (hop_op ref c). intros Ha.
  destruct (hop_of ref c) as [r|pond sql t];
    unfold DataService.handle, StreamService.read_arrow, DataService.identity_of;
    (destruct (verifier (Cluster.surface owner)) as [v|]; [|done]);
    (destruct (DataService.bearer_of md) as [token|];
     [destruct (Verify.verify _ _ _ _ _); [done|]|]); by eexists.
Qed.

(** ** The half of the node that relays *)

Lemma invoke_moves peer id pond r (f : Links) owner :
  GrpcForwarder.net f !! endpoint peer = Some owner ->
  GrpcForwarder.net
    (GrpcForwarder.invoke header_ok current_bearer current_traceparent peer id pond r f).2 =
  <[endpoint peer := Cluster.moved owner (after owner (metadata id) (Unary r))]>
    (GrpcForwarder.net f).
Proof.
  intros Ho. destruct (client_ok forwarder_in header_ok refused valid_uri peer pond f owner Ho)
    as (f1 & Hc & Hn).
  unfold GrpcForwarder.invoke. rewrite Hc. cbn [call net_ Cluster.network]. rewrite Hn.
  unfold Cluster.on_node. rewrite Ho. unfold after.
  by destruct (DataService.handle _ _ _ _ _ _ _ _).
Qed.

Lemma stream_moves peer id pond sql t (f : Links) owner :
  GrpcForwarder.net f !! endpoint peer = Some owner ->
  GrpcForwarder.net
    (GrpcForwarder.read_arrow header_ok current_bearer current_traceparent peer id pond sql t f).2 =
  <[endpoint peer := Cluster.moved owner
      (after owner (metadata id) (Stream pond sql (GrpcForwarder.wire_timeout t)))]>
    (GrpcForwarder.net f).
Proof.
  intros Ho.
  destruct (stream_client_ok forwarder_in header_ok refused valid_uri peer pond f owner Ho)
    as (f1 & Hc & Hn).
  unfold GrpcForwarder.read_arrow. rewrite Hc. cbn [call_stream net_ Cluster.network]. rewrite Hn.
  unfold Cluster.on_node. rewrite Ho. unfold after.
  by destruct (StreamService.read_arrow _ _ _ _ _ _ _ _ _ _).
Qed.

(** A call handed to the peer: nothing but the peers moves, and they as its message
    moves them. *)
Lemma delegated_moves {A} op (f : Links -> result A AgentError * Links) h p identity owner
    (w : World C D E Links) :
  GrpcForwarder.net (f (peers w)).2 =
    <[endpoint p := Cluster.moved owner (after owner (metadata identity) h)]>
      (GrpcForwarder.net (peers w)) ->
  let w' := ((record_forward op ;; on_peers f) w).2 in
  trail w' = trail w /\
  GrpcForwarder.net (peers w') =
    <[endpoint p := Cluster.moved owner (after owner (metadata identity) h)]>
      (GrpcForwarder.net (peers w)).
Proof. cbv zeta. destruct (delegated op f w) as (_ & -> & _ & _ & ->). done. Qed.

(** Up to its delegation an operation leaves nothing. *)
Lemma to_peer {A} self ambient identity op ref info p (here : Types.PondInfo -> Ops.M _ (result A AgentError))
    (remote : Types.Peer -> Ops.M (World C D E Links) (result A AgentError)) w :
  cp_pond_info ref (cp w) = Ok info -> placement self info = Forward p ->
  Ops.try (AgentOps.pond_info_audited ambient identity op ref) (fun info =>
    Ops.try (AgentOps.route self ambient identity op info) (fun peer =>
      match peer with Some p => remote p | None => here info end)) w = remote p w.
Proof.
  intros Hi Hp. rewrite (lookup_found _ _ _ _ _ _ _ Hi). cbv beta.
  by rewrite (route_forward _ _ _ _ _ _ _ _ Hp).
Qed.

Ltac relays :=
  match goal with
  | Hi : cp_pond_info _ _ = _, Hp : placement _ _ = _, Ho : _ !! _ = _ |- _ =>
      rewrite (to_peer _ _ _ _ _ _ _ _ _ _ Hi Hp); apply delegated_moves;
      apply (invoke_moves _ _ _ _ _ _ Ho)
  end.

Lemma relayed_moves self ambient identity ref c (w : World C D E Links) info p owner :
  cp_pond_info ref (cp w) = Ok info -> placement self info = Forward p -> invalid c = false ->
  GrpcForwarder.net (peers w) !! endpoint p = Some owner ->
  let w' := (run self ambient identity ref c w).2 in
  trail w' = trail w /\
  GrpcForwarder.net (peers w') =
    <[endpoint p := Cluster.moved owner (after owner (metadata identity) (hop_of ref c))]>
      (GrpcForwarder.net (peers w)).
Proof.
  intros Hi Hp Hv Ho.
  destruct c as [[] sql ctl|sql ctl|sql ctl|sql| |[]|  |cat q ps|cat ps|n s b]; try discriminate Hv;
    cbn [run hop_of]; rewrite (proj1 (ran_ok_run _ _)).
  1,2: unfold AgentOps.run_query; rewrite (to_peer _ _ _ _ _ _ _ _ _ _ Hi Hp);
    apply delegated_moves; cbn [fw_read fw_write forwarder_ GrpcForwarder.grpc_forwarder];
    apply (invoke_moves _ _ _ _ _ _ Ho).
  - unfold AgentOps.read_arrow_with. rewrite (to_peer _ _ _ _ _ _ _ _ _ _ Hi Hp).
    apply delegated_moves, stream_moves, Ho.
  - unfold AgentOps.read_collected_with. rewrite (to_peer _ _ _ _ _ _ _ _ _ _ Hi Hp).
    pose proof (delegated_moves "read_query"
      (fw_read_arrow p identity ref sql (Deadline.timeout_ms ctl)) _ p identity owner w
      (stream_moves p identity ref sql (Deadline.timeout_ms ctl) (peers w) owner Ho)) as Hd.
    cbv zeta in Hd. unfold Ops.try, Ops.bind, record_forward, emit_metric, on_peers in *.
    cbn [fst snd] in *. destruct (fw_read_arrow _ _ _ _ _ _) as [[st|e] f]; exact Hd.
  - unfold AgentOps.explain_query. relays.
  - unfold AgentOps.describe_pond. relays.
  - unfold AgentOps.drop_pond. cbn [negb]. relays.
  - unfold AgentOps.materialize_pond. relays.
  - unfold AgentOps.catalog_pull. relays.
  - unfold AgentOps.catalog_describe. relays.
  - unfold AgentOps.get_lineage. cbn [invalid] in Hv. rewrite Hv. relays.
Qed.

(** C4: an operation on a pond of another node is recorded once in the cluster: nothing
    is left where it was received, and one record where the pond is, under the trace of
    the call and as the caller let in there; turned away there, it leaves the record of
    that instead. *)
Theorem recorded_once_in_the_cluster self ctx identity ref c (w : World C D E Links) info p owner :
  cp_pond_info ref (cp w) = Ok info -> placement self info = Forward p -> invalid c = false ->
  GrpcForwarder.net (peers w) !! endpoint p = Some owner ->
  (forall info' q, cp_pond_info ref (cp (Cluster.world owner)) = Ok info' ->
     placement (Cluster.node owner) info' <> Forward q) ->
  current_traceparent = Some (Trace.traceparent ctx) -> trace_wf ctx ->
  header_ok (Trace.traceparent ctx) = true ->
  let w' := (run self (Some ctx) identity ref c w).2 in
  trail w' = trail w /\
  exists owner' pond summary ms outcome,
    GrpcForwarder.net (peers w') = <[endpoint p := owner']> (GrpcForwarder.net (peers w)) /\
    trail (Cluster.world owner') = trail (Cluster.world owner) ++
      match admitted (Cluster.surface owner) (env_of owner) (metadata identity) with
      | Some (who, _) =>
          [Access.record (Some (Trace.trace_id ctx)) who (call_op (arrives c)) pond summary ms outcome]
      | None =>
          [Access.record None (Identity.claimed (Service.latiq_agent_id (metadata identity)))
             (call_op (arrives c)) None summary 0 Access.ERROR]
      end.
Proof.
  intros Hi Hp Hv Ho Hthere Htp Hw Hh w'.
  destruct (relayed_moves self (Some ctx) identity ref c w info p owner Hi Hp Hv Ho) as [Ht Hn].
  split; [exact Ht|]. clear Ht.
  destruct (admitted _ _ (metadata identity)) as [[who tok]|] eqn:Ha.
  - pose proof (after_admitted owner _ ref c who tok Ha) as Hafter. cbv zeta in Hafter.
    set (hop := DataService.trace_of (env_of owner) (metadata identity)) in Hafter.
    assert (Trace.trace_id hop = Trace.trace_id ctx) as Hid.
    { unfold hop, DataService.trace_of, Trace.inbound. cbn [GrpcForwarder.with_identity
        Service.traceparent]. rewrite Htp. unfold GrpcForwarder.header. rewrite Hh.
      cbn [mbind option_bind]. by rewrite traceparent_roundtrip. }
    destruct (@run_record _ _ _ _ _ _ _ _ _ (DataService.scoped forwarder_in hop tok) _
      (Cluster.node owner) (Some hop) who ref (arrives c) (Cluster.world owner))
      as [(info' & q & Hi' & Hq & _)|(pond & summary & ms & Hr)].
    { by destruct (Hthere info' q Hi'). }
    rewrite <- Hafter in Hr. cbn [AgentOps.current_trace_id option_map fmap option_fmap] in Hr.
    rewrite Hid in Hr. eexists _, pond, summary, ms, _. split; [exact Hn|]. exact Hr.
  - destruct (after_refused owner _ ref c Ha) as (summary & Hr).
    eexists _, None, (Some summary), 0%N, Access.ERROR. split; [exact Hn|]. exact Hr.
Qed.
End cluster.
