(* ===== verification/ForwardSample.v ===== *)
(** * Two nodes

    The forwarding theorems at work: a node that forwards to the owner of a pond, over
    an Arrow framing, a JSON text and an envelope codec that keep their laws. *)
From S2P Require Import Prelude Errors Policy Common Inflight Deadline Plan PlanSpec Interfaces Auth AuthSpec.
From S2P Require Import Registry RegistryInv RegistrySpec Wire WireSpec ControlPlane ControlPlaneSpec.
From S2P Require Import Ops OpsSpec OpsResult DataService Forward ForwardSpec ClusterSpec.
Import Types Rpc.
#[local] Open Scope rust_scope.
#[local] Arguments String.append !_ _ / : simpl nomatch.

Module TwoNodes.
Export ControlPlaneSpec.Sample AuthSpec.Sample.

(** ** JSON text: any injective printing *)

#[export] Instance floats : Floats := {| f64 := Z; is_finite := fun _ => true |}.

Definition Leaf : Type := unit + (bool + (Z + (Z + string))).

Fixpoint tree_of (v : Json) : gen_tree Leaf :=
  match v with
  | Null => GenLeaf (inl tt)
  | Bool b => GenLeaf (inr (inl b))
  | Int z => GenLeaf (inr (inr (inl z)))
  | Float f => GenLeaf (inr (inr (inr (inl f))))
  | Str s => GenLeaf (inr (inr (inr (inr s))))
  | Array l => GenNode 0 (map tree_of l)
  | Object l =>
      GenNode 1 (map (fun e => GenNode 2 [GenLeaf (inr (inr (inr (inr e.1)))); tree_of e.2]) l)
  end.

Fixpoint json_of (t : gen_tree Leaf) : Json :=
  match t with
  | GenLeaf (inl _) => Null
  | GenLeaf (inr (inl b)) => Bool b
  | GenLeaf (inr (inr (inl z))) => Int z
  | GenLeaf (inr (inr (inr (inl f)))) => Float f
  | GenLeaf (inr (inr (inr (inr s)))) => Str s
  | GenNode 0 l => Array (map json_of l)
  | GenNode _ l =>
      Object (map (fun e =>
        match e with
        | GenNode _ (GenLeaf (inr (inr (inr (inr k)))) :: v :: _) => (k, json_of v)
        | _ => (EmptyString, Null)
        end) l)
  end.

Lemma json_of_tree v : json_of (tree_of v) = v.
Proof.
  revert v. apply Json_ind'; try done.
  - intros l Hl. simpl. f_equal. rewrite map_map. induction Hl as [|v l Hv _ IH]; [done|].
    simpl. by rewrite Hv, IH.
  - intros l Hl. simpl. f_equal. rewrite map_map. induction Hl as [|[k v] l Hv _ IH]; [done|].
    simpl in *. by rewrite Hv, IH.
Qed.

#[export] Instance serde : Serde :=
  {| to_string := fun v => pos_to_string (encode (tree_of v));
     from_str := fun s =>
       match countable.decode (pos_of_string s) with Some t => Ok (json_of t) | None => Err "syntax" end |}.

#[export, refine] Instance serde_laws : SerdeLaws := {| exact := fun _ => True |}.
Proof.
  intros v _. cbn [from_str to_string serde]. rewrite pos_of_to_string, decode_encode.
  by rewrite json_of_tree.
Defined.

#[export] Instance serde_texts : SerdeTexts :=
  {| missing_field := fun f => "missing field `" +:+ f +:+ "`";
     invalid_length := fun n e => "invalid length, expected " +:+ e;
     invalid_type := fun _ e => "invalid type, expected " +:+ e;
     unknown_variant := fun v e => "unknown variant `" +:+ v +:+ "`, expected " +:+ e |}.

(** ** Arrow: a column of text, framed by a letter *)

#[export] Instance arrow : Arrow :=
  {| record_batch := list string; num_rows := fun b => N.of_nat (length b);
     batch_json := fun b => Ok (map (fun s => {["n" := Str s]}) b) |}.

Definition framed (a : ascii) (l : list string) : string := String a (pos_to_string (encode l)).
Definition frame_of (s : string) : option (list string) := countable.decode (pos_of_string s).

Lemma frame_round l : frame_of (pos_to_string (encode l)) = Some l.
Proof. unfold frame_of. by rewrite pos_of_to_string, decode_encode. Qed.

Definition feed (buf : string) (d : option (list string)) :
    (result (option (list string)) string * string) * option (list string) :=
  match buf with
  | EmptyString => ((Ok None, EmptyString), d)
  | String a s =>
      match frame_of s with
      | None => ((Err "bad frame", EmptyString), d)
      | Some l =>
          if Ascii.eqb a "S" then ((Ok None, EmptyString), Some l)
          else ((Ok (Some l), EmptyString), d)
      end
  end.

#[export, refine] Instance framing : Ipc :=
  {| writer := unit; decoder := option (list string);
     try_new := fun sc => Ok (tt, framed "S" sc); write := fun b _ => Ok (tt, framed "B" b);
     finish := fun _ => Ok EmptyString; decoder_new := None; decode := feed;
     decoded_schema := fun d => d |}.
Proof.
  intros [|a s] d b rest d'; simpl; [done|]. destruct (frame_of s); [|done].
  destruct (Ascii.eqb a "S"); [done|]. intros [= _ <- _]. simpl. lia.
Defined.

#[export, refine] Instance framing_laws : IpcLaws :=
  {| in_step := fun sc _ d => d = Some sc |}.
Proof.
  - intros sc w bytes [= <- <-]. exists (Some sc). cbn. by rewrite frame_round.
  - intros sc w d b w' bytes -> [= <- <-]. exists (Some sc). cbn. by rewrite frame_round.
  - intros sc w d bytes -> [= <-]. by exists (Some sc).
Defined.

(** ** The nodes *)

#[export] Existing Instances OpsResult.Sample.ids OpsResult.Sample.cp OpsResult.Sample.disk.

Definition done {A} (a : A) (e : unit) : Join (result A EngineError) * unit := (Ok (Ok a), e).
Definition none {A} (e : unit) : Join (result A EngineError) * unit := (Err "none", e).

#[export] Instance engine : QueryEngine unit :=
  {| en_init_pond := fun _ => done tt; en_read_query := fun _ _ _ => none;
     en_write_query := fun _ _ _ _ _ => none;
     en_read_arrow := fun _ _ _ e =>
       ({| sent_schema := Some ["n"]; sent_batches := [["1"; "2"]; ["3"]] |}, Ok (Ok Meta.default), e);
     en_explain_query := fun _ _ => none; en_plan_datasets := fun _ _ e => (None, e);
     en_describe_schema := fun _ => none; en_pull_catalog := fun _ _ _ _ _ _ _ => none;
     en_describe_catalog := fun _ _ _ _ => none; en_forget_pond := fun _ e => e |}.

#[export] Instance reader : LineageReader (list string) :=
  {| read_newest := fun _ _ _ _ _ => Err "none" |}.

Definition alone {A} (f : unit) : result A AgentError * unit := (Err (Agent.internal "alone"), f).

Definition no_peer (_ _ : option string) : Forwarder unit :=
  {| fw_read := fun _ _ _ _ _ => alone; fw_read_arrow := fun _ _ _ _ _ => alone;
     fw_write := fun _ _ _ _ _ => alone; fw_explain := fun _ _ _ _ => alone;
     fw_describe := fun _ _ _ => alone; fw_get_lineage := fun _ _ _ _ _ _ => alone;
     fw_drop_pond := fun _ _ _ _ => alone; fw_materialize_pond := fun _ _ _ => alone;
     fw_catalog_pull := fun _ _ _ _ _ _ => alone;
     fw_catalog_describe := fun _ _ _ _ _ => alone |}.

Definition visible (s : string) : bool := all_bytes (ascii_in 32 126) s.
Definition refused (endpoint : string) : string := "connection refused".
Definition valid_uri (endpoint : string) : result unit string := Ok tt.

Definition state {F} (peers : F) : World (list PondInfo) (list string) unit F :=
  {| Ops.cp := [OpsResult.Sample.pond]; Ops.disk := ["0190"]; Ops.engine := tt; Ops.peers := peers;
     inflight := Inflight.empty; trail := []; metrics := []; lineage_writers := ∅; fresh := 0;
     clock := [5%N]; timers := [] |}.

Definition surface : Surface :=
  {| DataService.verifier := Some AuthSpec.Sample.verifier; challenge := None |}.
Definition env : Env :=
  {| uuids := ("0190a000-0000-7000-8000-00000000000a", "0190a000-0000-7000-8000-00000000000b");
     DataService.key_for := AuthSpec.Sample.key_for; clock_now := 500 |}.

(** The owner of [sales] behind a verifier, and the node next to it. *)
Definition owner : Cluster.Peer (F := unit) :=
  {| Cluster.node := OpsResult.Sample.node; Cluster.surface := surface;
     Cluster.arrivals := fun _ => env; Cluster.arrived := 0; Cluster.world := state tt |}.

Definition links : GrpcForwarder.Links Cluster.Peers :=
  GrpcForwarder.new {["http://n1" := owner]}.

Definition here_node : Node :=
  {| Ops.config := default_config; self_node_id := Some "n2"; self_endpoint := Some "http://n2";
     forwarder := true |}.
Definition n1 : Types.Peer := {| peer_node_id := "n1"; endpoint := "http://n1" |}.

Definition ctx : Trace.TraceContext :=
  {| Trace.trace_id := "0af7651916cd43dd8448eb211c80319c"; Trace.span_id := "b7ad6b7169203331";
     Trace.sampled := true |}.

Definition alice : Identity.Identity :=
  {| Identity.agent_id := "cli"; Identity.subject := "alice"; Identity.issuer := idp;
     Identity.verified := true |}.

Definition asked : Service.Metadata :=
  {| Service.latiq_agent_id := Some "cli"; Service.authorization := Some ("Bearer " +:+ token);
     Service.traceparent := None |}.

Notation tp := (Some (Trace.traceparent ctx)).
Notation hop := (GrpcForwarder.with_identity visible (Some token) tp alice).

Lemma alice_admitted : admitted surface env hop = Some (alice, Some token).
Proof. vm_compute. reflexivity. Defined.

Lemma identity_survives_hop_witness :
  admitted surface env asked = Some (alice, Some token) /\
  admitted surface env hop = Some (alice, Some token) /\
  Trace.trace_id (DataService.trace_of env hop) = Trace.trace_id ctx.
Proof.
  assert (Ha : admitted surface env asked = Some (alice, Some token)) by (vm_compute; reflexivity).
  split; [exact Ha|].
  destruct (identity_survives_hop visible surface env asked alice (Some token) ctx Ha) as [Hh Ht].
  - by split.
  - vm_compute. reflexivity.
  - intros _. vm_compute. reflexivity.
  - intros t [= <-]. vm_compute. reflexivity.
  - split; [exact Hh|]. by rewrite Ht.
Defined.

Definition o : Forwarded QueryResult := FRead "sales" "SELECT n FROM t" None.

Lemma no_empty : decode_envelope EmptyString = None.
Proof. vm_compute. reflexivity. Defined.

Lemma owner_found : GrpcForwarder.net links !! endpoint n1 = Some owner.
Proof.
  change (({["http://n1" := owner]} : gmap string (Cluster.Peer (F := unit))) !! "http://n1" =
    Some owner). apply lookup_singleton_eq.
Defined.

(** What the statement answers at home. *)
Definition answer : QueryResult :=
  {| columns := ["n"]; rows := [[Str "1"]; [Str "2"]; [Str "3"]];
     meta :=
       {| Meta.rows := 3; Meta.rows_affected := 0; Meta.snapshot_id := None; Meta.duration_ms := 0;
          Meta.timeout_ms := 30000; Meta.bytes_scanned := 0; Meta.tables_touched := [];
          Meta.inputs := []; Meta.outputs := []; Meta.warnings := []; Meta.hint := None;
          Meta.served_by := "http://n1"; Meta.trace_id := Trace.trace_id ctx;
          Meta.traceparent := "00-0af7651916cd43dd8448eb211c80319c-0190a00000007000-01" |} |}.

Lemma answer_fits : query_fits answer.
Proof.
  split.
  - split; cbn; (exact (Forall_nil_2 _) || (intros ? [=]) || (vm_compute; discriminate)).
  - repeat (apply Forall_cons_2 || apply Forall_nil_2); exact I.
Defined.

Lemma forwarding_is_transparent_witness :
  exists f', remote no_peer visible refused valid_uri (Some token) tp o n1 alice links =
    (Ok (kept answer), f').
Proof.
  pose proof (forwarding_is_transparent no_peer visible refused valid_uri (Some token) tp
    no_empty o n1 alice links owner alice (Some token) owner_found alice_admitted) as Hp.
  cbv zeta in Hp. set (out := serve _ _ _ _ _ _) in Hp.
  assert (Ha : out.1 = Ok answer) by (vm_compute; reflexivity).
  rewrite Ha in Hp. destruct Hp as (f' & Hr & _); [|by exists f'].
  intros a [= <-]. exact answer_fits.
Defined.

(** The same read by a caller without a token. *)
Lemma failed_hops_are_reported_witness :
  exists m, (remote no_peer visible refused valid_uri None tp o n1 alice links).1 =
    Err (Envelope.for_kind Kind.Unauthenticated m).
Proof.
  destruct (failed_hops_are_reported no_peer visible refused valid_uri None tp o n1 alice links)
    as (f' & _ & Hp).
  rewrite owner_found in Hp. destruct Hp as (m & su & Hr & _); [|by exists m].
  change (Cluster.surface owner) with surface.
  change (Cluster.arrivals owner (Cluster.arrived owner)) with env. vm_compute. reflexivity.
Defined.

(** The same read, streamed. *)
Lemma stream_arrives_whole_witness :
  exists read f',
    GrpcForwarder.read_arrow (P := Cluster.Peers) (Network0 := net_ no_peer visible refused valid_uri)
      visible (Some token) tp n1 alice "sales" "SELECT n FROM t" None links = (Ok read, f') /\
    schema read = ["n"] /\ batches read = [Ok ["1"; "2"]; Ok ["3"]] /\
    stream_served_by read = "http://n1".
Proof.
  destruct (stream_arrives_whole no_peer visible refused valid_uri (Some token) tp
    no_empty n1 alice "sales" "SELECT n FROM t" None links owner alice
    (Some token) owner_found alice_admitted) as (f' & Hr & _).
  match type of Hr with _ = (match ?x with _ => _ end, _) => set (out := x) in Hr end.
  assert (Ho : exists read, out = Ok read /\ schema read = ["n"] /\
    batches read = [Ok ["1"; "2"]; Ok ["3"]] /\ stream_served_by read = "http://n1").
  { eexists. split; [vm_compute; reflexivity|]. by split_and!. }
  destruct Ho as (read & He & Hs & Hb & Hby). rewrite He in Hr. clear out He.
  eexists _, f'. split; [rewrite Hr; reflexivity|]. cbn [schema batches stream_served_by].
  by rewrite Hs, Hb, Hby.
Defined.

(** The node next to it, before and after it relays the read. *)
#[local] Hint Extern 0 (Network _) =>
  exact (net_ no_peer visible refused valid_uri) : typeclass_instances.
#[local] Hint Extern 0 (Forwarder (GrpcForwarder.Links _)) =>
  exact (forwarder_ no_peer visible refused valid_uri (Some token) tp) : typeclass_instances.

Definition read_call : Call := CCollected "SELECT n FROM t" Deadline.none.

Lemma at_n1 {A} (p : A) (ps : gmap string A) :
  (<["http://n1" := p]> ps) !! "http://n1" = Some p.
Proof. apply lookup_insert_eq. Qed.

Lemma recorded_once_in_the_cluster_witness :
  let w' := (OpsSpec.run here_node (Some ctx) alice "sales" read_call (state links)).2 in
  trail w' = [] /\
  exists owner' r, GrpcForwarder.net (peers w') !! "http://n1" = Some owner' /\
    trail (Cluster.world owner') = [r] /\ Access.identity r = alice /\
    Access.op r = "read_arrow" /\ Access.trace_id r = Trace.trace_id ctx.
Proof.
  assert (Hi : cp_pond_info "sales" (cp (state links)) = Ok OpsResult.Sample.pond) by reflexivity.
  assert (Hp : placement here_node OpsResult.Sample.pond = Forward n1) by (vm_compute; reflexivity).
  pose proof (recorded_once_in_the_cluster no_peer visible refused valid_uri (Some token) tp here_node
    ctx alice "sales" read_call (state links) OpsResult.Sample.pond n1 owner Hi Hp eq_refl
    owner_found) as Hr.
  cbv zeta in Hr |- *. change (Cluster.surface owner) with surface in Hr.
  change (Cluster.arrivals owner (Cluster.arrived owner)) with env in Hr.
  rewrite alice_admitted in Hr. destruct Hr as (Ht & owner' & pond & su & ms & out & Hn & Hrec).
  - intros info' q Hinfo. assert (Hinfo' : Ok (E := AgentError) OpsResult.Sample.pond = Ok info') by exact Hinfo.
    injection Hinfo' as <-. vm_compute. discriminate.
  - reflexivity.
  - by split.
  - vm_compute. reflexivity.
  - split; [exact Ht|]. exists owner'. eexists.
    split; [rewrite Hn; apply at_n1|]. split; [exact Hrec|]. by split_and!.
Defined.
End TwoNodes.
