(* ===== verification/Mcp.v ===== *)
(** * The agents' surface

    Models [latiq-mcp/src/encode.rs], [response.rs] and [server.rs]: what a tool's
    answer is as a result of the protocol, the arguments each tool accepts, who a call
    is taken to be, every tool over the node's [AgentOps], the layer that verifies a
    request before any of it, and the addresses the surface is known by.  The protocol
    itself is the rmcp crate's; a header arrives as its text. *)
From S2P Require Import Prelude Errors Extensions Policy Common Inflight Deadline Plan Interfaces Auth Wire.
From S2P Require Import ControlPlane.
From S2P Require Import Ops DataService.
Import Types.
#[local] Open Scope rust_scope.
#[local] Arguments String.append !_ _ / : simpl nomatch.

(** ** response.rs, and the derives of what it wraps *)

Module Response.
Import Wire.Derive.
Section response.
Context `{!Floats} `{!Arrow} `{!SerdeTexts}.

Definition allocate_to (a : AllocateResult) : Json :=
  members [("pond_id", Some (Str (al_pond_id a))); ("pond_name", Some (Str (al_pond_name a)))].

Definition dataset_table_to (t : DatasetTableInfo) : Json :=
  members [("table_name", Some (Str (table_name t))); ("source_uri", Some (Str (source_uri t)));
           ("format", Some (Str (format t)))].

Definition dataset_to (d : DatasetInfo) : Json :=
  members [("name", Some (Str (ds_name d))); ("description", Some (Str (ds_description d)));
           ("tags", Some (of_list Str (ds_tags d)));
           ("tables", Some (of_list dataset_table_to (ds_tables d)));
           ("created_by", Some (Str (ds_created_by d)));
           ("created_at", Some (Str (ds_created_at d)))].

Definition of_map {A} (to : A -> Json) (m : gmap string A) : Json :=
  Object (btree_entries (to <$> m)).

Definition catalog_to (c : CatalogInfo) : Json :=
  members [("name", Some (Str (ca_name c))); ("type", Some (Str (ca_type c)));
           ("params", Some (of_map Str (ca_params c)));
           ("description", Some (Str (ca_description c)));
           ("tags", Some (of_list Str (ca_tags c)));
           ("created_by", Some (Str (ca_created_by c)));
           ("created_at", Some (Str (ca_created_at c)))].

Definition query_response_to (statement status : string) (qr : QueryResult) : Json :=
  members [("columns", Some (of_list Str (columns qr)));
           ("rows", Some (Array (map Array (rows qr))));
           ("statement", Some (Str statement)); ("status", Some (Str status));
           ("_meta", Some (Bodies.meta_to (meta qr)))].

Definition list_ponds_to (ponds : list PondInfo) : Json :=
  members [("ponds", Some (of_list Bodies.pond_to ponds))].

Definition drop_pond_to (status pond : string) : Json :=
  members [("status", Some (Str status)); ("pond", Some (Str pond))].

Definition list_datasets_to (l : list DatasetInfo) : Json :=
  members [("datasets", Some (of_list dataset_to l))].

Definition list_catalogs_to (l : list CatalogInfo) : Json :=
  members [("catalogs", Some (of_list catalog_to l))].

Definition catalog_table_to (t : string * string) : Json :=
  members [("schema", Some (Str t.1)); ("table", Some (Str t.2))].

Definition describe_catalog_to (catalog : string) (tables : list (string * string)) : Json :=
  members [("catalog", Some (Str catalog)); ("tables", Some (of_list catalog_table_to tables))].

(** *** The envelope ([latiq-common/src/error.rs]) *)

Definition location_to (l : Location) : Json :=
  members [("line", Some (of_N (line l))); ("column", Some (of_N (column l)));
           ("byte", Some (of_N (byte l)))].

Definition fact_to (f : Fact) : Json :=
  match f with Number n => of_N n | Text s => Str s | Flag b => Bool b end.

Definition envelope_to (e : ErrorEnvelope) : Json :=
  members [("kind", Some (Str (Kind.as_str (kind e)))); ("message", Some (Str (message e)));
           ("location", skip_none location_to (location e));
           ("suggest", Some (Str (suggest e))); ("see", Some (Str (see e)));
           ("audience", Some (Str (Kind.audience_as_str (env_audience e))));
           ("retryable", Some (Str (Kind.retryable_as_str (env_retryable e))));
           ("facts", skip_if (fun m => bool_decide (m = ∅)) (of_map fact_to) (env_facts e));
           ("trace_id", skip_none Str (trace_id e));
           ("traceparent", skip_none Str (traceparent e))].
End response.
End Response.

(** ** encode.rs *)

(** [content] is the text block. *)
Record CallToolResult `{!Floats} := {
  content : string;
  is_error : bool;
  structured_content : Json;
  result_meta : option Json;
}.

Module Encode.
Section encode.
Context `{!Floats} `{!Arrow} `{!SerdeTexts} `{!Serde}.
(** The trace scope of the call. *)
Variable ambient : option Trace.TraceContext.

Definition TRACEPARENT_META : string := "traceparent".
Definition BODY_META : string := "_meta".

(** A JSON map with one more key, in key order; and with the value of a key replaced. *)
Definition insert (k : string) (v : Json) (m : list (string * Json)) : list (string * Json) :=
  btree_entries (<[k := v]> (list_to_map m : gmap string Json)).

Fixpoint replace (k : string) (v : Json) (m : list (string * Json)) : list (string * Json) :=
  match m with
  | [] => []
  | (k', v') :: m => if String.eqb k' k then (k', v) :: m else (k', v') :: replace k v m
  end.

Definition trace_meta : option Json :=
  (fun tp => Object [(TRACEPARENT_META, Str tp)]) <$> AgentOps.current_traceparent ambient.

Definition with_body_traceparent (value : Json) : Json :=
  match AgentOps.current_traceparent ambient with
  | None => value
  | Some tp =>
      match value with
      | Object map =>
          match lookup_key BODY_META map with
          | Some (Object meta) =>
              let meta :=
                match lookup_key TRACEPARENT_META meta with
                | Some _ => meta
                | None => insert TRACEPARENT_META (Str tp) meta
                end in
              Object (replace BODY_META (Object meta) map)
          | Some _ => value
          | None => Object (insert BODY_META (Object [(TRACEPARENT_META, Str tp)]) map)
          end
      | _ => value
      end
  end.

Definition dual (value : Json) (is_error : bool) : CallToolResult :=
  let value := if is_error then value else with_body_traceparent value in
  {| content := to_string value; is_error := is_error; structured_content := value;
     result_meta := trace_meta |}.

Definition ok (value : Json) : CallToolResult := dual value false.

Definition err_envelope (env : ErrorEnvelope) : CallToolResult :=
  dual (Response.envelope_to
          (Envelope.with_traceparent
             (Envelope.with_trace_id env (AgentOps.current_trace_id ambient))
             (AgentOps.current_traceparent ambient))) true.

Definition ok_query (statement : string) (qr : QueryResult) : CallToolResult :=
  ok (Response.query_response_to statement "ok" qr).
Definition ok_explain (er : ExplainResult) : CallToolResult := ok (Bodies.explain_to er).
End encode.
End Encode.

(** ** The arguments of the tools *)

Module Args.
Import Wire.Derive.

Record AllocateArgs := {
  aa_name : option string;
  aa_tier : option string;
  aa_extensions : option (list string);
  aa_lineage : option bool;
}.
Record PondRefArgs := { pr_pond : string }.
Record DropArgs := { da_pond : string; da_confirm : option bool }.
Record QueryArgs := { qa_pond : string; qa_sql : string; qa_timeout_ms : option N }.
Record ExplainArgs := { ea_pond : string; ea_sql : string }.
Record SearchArgs := { sa_query : option string }.
Record LoadDatasetArgs := { la_pond : string; la_dataset : string }.
Record CatalogDescribeArgs := {
  cd_pond : string;
  cd_catalog : string;
  cd_set : option (gmap string string);
}.
Record CatalogPullArgs := {
  cp_pond : string;
  cp_catalog : string;
  cp_query : string;
  cp_set : option (gmap string string);
}.
Record LineageArgs := {
  li_pond : string;
  li_limit : option N;
  li_since : option string;
  li_before : option string;
}.

(** A call of a tool, by the method's name. *)
Inductive Tool :=
| AllocatePond (a : AllocateArgs)
| DescribePond (a : PondRefArgs)
| ListPonds
| DropPond (a : DropArgs)
| ReadQuery (a : QueryArgs)
| WriteQuery (a : QueryArgs)
| ExplainQuery (a : ExplainArgs)
| ListDatasets (a : SearchArgs)
| LoadDataset (a : LoadDatasetArgs)
| ListCatalogs (a : SearchArgs)
| DescribeCatalog (a : CatalogDescribeArgs)
| PullCatalog (a : CatalogPullArgs)
| GetLineage (a : LineageArgs).

Section args.
Context `{!Floats} `{!SerdeTexts}.

Definition to_u32 : Read N := fun v =>
  let? n := expecting "u32" as_u64 v in
  if (n <=? 2 ^ 32 - 1)%N then Ok n else Err (invalid_type v "u32").

Fixpoint read_entries {A} (from : Read A) (l : list (string * Json)) (m : gmap string A) :
    result (gmap string A) string :=
  match l with
  | [] => Ok m
  | (k, v) :: l => let? a := from v in read_entries from l (<[k := a]> m)
  end.

Definition to_map {A} (from : Read A) : Read (gmap string A) := fun v =>
  let? l := expecting "a map" as_object v in read_entries from l ∅.

(** [deny_unknown_fields]: a key that is none of the struct's is refused. *)
Definition deny_unknown_fields {A} (fields : list string) (from : Read A)
    (m : list (string * Json)) : option A :=
  if forallb (fun kv => existsb (String.eqb kv.1) fields) m then res_ok (from (Object m)) else None.

Definition allocate_args : list (string * Json) -> option AllocateArgs :=
  deny_unknown_fields ["name"; "tier"; "extensions"; "lineage"]
    (to_struct "struct AllocateArgs with 4 elements"
      (read! n := optional "name" to_str in
       read! t := optional "tier" to_str in
       read! x := optional "extensions" (to_list to_str) in
       read! l := optional "lineage" to_bool in
       done {| aa_name := n; aa_tier := t; aa_extensions := x; aa_lineage := l |})).

Definition pond_ref_args : list (string * Json) -> option PondRefArgs :=
  deny_unknown_fields ["pond"]
    (to_struct "struct PondRefArgs with 1 element"
      (read! p := required "pond" to_str in done {| pr_pond := p |})).

Definition drop_args : list (string * Json) -> option DropArgs :=
  deny_unknown_fields ["pond"; "confirm"]
    (to_struct "struct DropArgs with 2 elements"
      (read! p := required "pond" to_str in
       read! c := optional "confirm" to_bool in
       done {| da_pond := p; da_confirm := c |})).

Definition query_args : list (string * Json) -> option QueryArgs :=
  deny_unknown_fields ["pond"; "sql"; "timeout_ms"]
    (to_struct "struct QueryArgs with 3 elements"
      (read! p := required "pond" to_str in
       read! s := required "sql" to_str in
       read! t := optional "timeout_ms" to_u64 in
       done {| qa_pond := p; qa_sql := s; qa_timeout_ms := t |})).

Definition explain_args : list (string * Json) -> option ExplainArgs :=
  deny_unknown_fields ["pond"; "sql"]
    (to_struct "struct ExplainArgs with 2 elements"
      (read! p := required "pond" to_str in
       read! s := required "sql" to_str in
       done {| ea_pond := p; ea_sql := s |})).

Definition search_args : list (string * Json) -> option SearchArgs :=
  deny_unknown_fields ["query"]
    (to_struct "struct SearchArgs with 1 element"
      (read! q := optional "query" to_str in done {| sa_query := q |})).

Definition load_dataset_args : list (string * Json) -> option LoadDatasetArgs :=
  deny_unknown_fields ["pond"; "dataset"]
    (to_struct "struct LoadDatasetArgs with 2 elements"
      (read! p := required "pond" to_str in
       read! d := required "dataset" to_str in
       done {| la_pond := p; la_dataset := d |})).

Definition catalog_describe_args : list (string * Json) -> option CatalogDescribeArgs :=
  deny_unknown_fields ["pond"; "catalog"; "set"]
    (to_struct "struct CatalogDescribeArgs with 3 elements"
      (read! p := required "pond" to_str in
       read! c := required "catalog" to_str in
       read! s := optional "set" (to_map to_str) in
       done {| cd_pond := p; cd_catalog := c; cd_set := s |})).

Definition catalog_pull_args : list (string * Json) -> option CatalogPullArgs :=
  deny_unknown_fields ["pond"; "catalog"; "query"; "set"]
    (to_struct "struct CatalogPullArgs with 4 elements"
      (read! p := required "pond" to_str in
       read! c := required "catalog" to_str in
       read! q := required "query" to_str in
       read! s := optional "set" (to_map to_str) in
       done {| cp_pond := p; cp_catalog := c; cp_query := q; cp_set := s |})).

Definition lineage_args : list (string * Json) -> option LineageArgs :=
  deny_unknown_fields ["pond"; "limit"; "since"; "before"]
    (to_struct "struct LineageArgs with 4 elements"
      (read! p := required "pond" to_str in
       read! n := optional "limit" to_u32 in
       read! s := optional "since" to_str in
       read! b := optional "before" to_str in
       done {| li_pond := p; li_limit := n; li_since := s; li_before := b |})).

(** The router: the tools by name, with the arguments each method declares. *)
Definition router (arguments : list (string * Json)) : list (string * option Tool) :=
  [("allocate_pond", AllocatePond <$> allocate_args arguments);
   ("describe_pond", DescribePond <$> pond_ref_args arguments);
   ("list_ponds", Some ListPonds);
   ("drop_pond", DropPond <$> drop_args arguments);
   ("read_query", ReadQuery <$> query_args arguments);
   ("write_query", WriteQuery <$> query_args arguments);
   ("explain_query", ExplainQuery <$> explain_args arguments);
   ("list_datasets", ListDatasets <$> search_args arguments);
   ("load_dataset", LoadDataset <$> load_dataset_args arguments);
   ("list_catalogs", ListCatalogs <$> search_args arguments);
   ("describe_catalog", DescribeCatalog <$> catalog_describe_args arguments);
   ("pull_catalog", PullCatalog <$> catalog_pull_args arguments);
   ("get_lineage", GetLineage <$> lineage_args arguments)].

Definition tool_of (name : string) (arguments : list (string * Json)) : option Tool :=
  match find (fun r => String.eqb r.1 name) (router arguments) with
  | Some (_, t) => t
  | None => None
  end.
End args.
End Args.

(** ** server.rs *)

Inductive McpError := InvalidRequest (message : string).

(** What the authentication layer leaves for the handler. *)
Record VerifiedCaller := { vc_identity : Identity.Identity; vc_token : string }.

(** A request as its handler meets it: its path, the headers it is read for, and what
    was left on it. *)
Record Parts := {
  path : string;
  h_agent_id : option string;
  h_authorization : option string;
  h_traceparent : option string;
  caller : option VerifiedCaller;
}.

(** What rmcp gives a tool: the request's parts where it was posted, its cancellation
    token by whether it is cancelled, and the UUIDs a trace context may take. *)
Record RequestContext := { parts : option Parts; ct : bool; uuids : string * string }.

(** A request turned away at the door, with its challenge, or answered. *)
Inductive Reply (A : Type) := Unauthorized (www_authenticate : option string) | Replied (a : A).
Arguments Unauthorized {A}.
Arguments Replied {A}.

Module LatiqServer.
Import Args.
Section server.
Context {C D E F : Type} `{!PondIds} `{!Floats} `{!Arrow}.
Context `{!ControlPlane C} `{!PondStorage D} `{!QueryEngine E} `{!LineageReader D}.
Context `{!SerdeTexts} `{!Serde} `{!Jwt}.
(** The forwarder, in the bearer and trace scope of a call. *)
Variable forwarder_in : option string -> option string -> Forwarder F.
Variable self : Node.
Variable verifier : option Verify.Verifier.
Notation World := (World C D E F).
Notation MR A := (Ops.M World (result A McpError)).

Definition query_controls (a : QueryArgs) (ctx : RequestContext) : Deadline.QueryControls :=
  Deadline.with_cancel (Deadline.timeout (qa_timeout_ms a)) (ct ctx).

Definition identity (ctx : RequestContext) :
    result (Identity.Identity * option string) McpError :=
  match verifier with
  | None => Ok (Identity.claimed (p ← parts ctx; h_agent_id p), None)
  | Some _ =>
      ok_or ((fun c => (vc_identity c, Some (vc_token c))) <$> (p ← parts ctx; caller p))
        (InvalidRequest "a bearer token is required")
  end.

Definition trace_of (ctx : RequestContext) : Trace.TraceContext :=
  Trace.inbound (uuids ctx).1 (uuids ctx).2 (p ← parts ctx; h_traceparent p).

Definition traced {A} (ctx : RequestContext) (bearer : option string)
    (fut : Forwarder F -> option Trace.TraceContext -> Ops.M World A) : Ops.M World A :=
  let trace := trace_of ctx in
  fut (forwarder_in bearer (Some (Trace.traceparent trace))) (Some trace).

Definition reject_zero (ambient : option Trace.TraceContext) (field : string) (value : option N) :
    option CallToolResult :=
  if bool_decide (value = Some 0%N) then
    Some (Encode.err_envelope ambient
      (Envelope.rendered_with Kind.InvalidValue "`{field}` must be at least 1."
         (facts [("field", Text field)])
         "Omit `{field}` to use the node's default; `0` is not 'unlimited'." "latiq://guidance"))
  else None.

(** What [allocate_pond] checks before the operation. *)
Definition reject_name (ambient : option Trace.TraceContext) (name : option string) :
    option CallToolResult :=
  match name with
  | None => None
  | Some name =>
      match PondName.validate name with
      | Ok _ => None
      | Err msg =>
          Some (Encode.err_envelope ambient
            (Envelope.new Kind.InvalidValue msg
               ("Retry with a name of letters, digits, `_` or `-`, or omit `name` "
                 +:+ "and use the one Latiq generates.") "latiq://guidance"))
      end
  end.

(** A tool for its caller, in the scope of its call. *)
Definition tool (ctx : RequestContext)
    (op : Forwarder F -> option Trace.TraceContext -> Identity.Identity ->
          Ops.M World CallToolResult) : MR CallToolResult :=
  match identity ctx with
  | Err e => ret (Err e)
  | Ok (id, tok) =>
      let! r := traced ctx tok (fun fw ambient => op fw ambient id) in
      ret (Ok r)
  end.

(** An operation's answer, or its envelope. *)
Definition replied {A} (ambient : option Trace.TraceContext) (to : A -> Json)
    (op : Ops.M World (result A AgentError)) : Ops.M World CallToolResult :=
  let! res := op in
  ret (match res with
       | Ok a => Encode.ok ambient (to a)
       | Err e => Encode.err_envelope ambient e
       end).

Definition allocate_pond (a : AllocateArgs) (ctx : RequestContext) : MR CallToolResult :=
  tool ctx (fun fw ambient id =>
    let tier := default "medium" (aa_tier a) in
    match reject_name ambient (aa_name a) with
    | Some refusal => ret refusal
    | None =>
        match Extensions.validate (default [] (aa_extensions a)) with
        | Err msg => ret (Encode.err_envelope ambient (Agent.unsupported_extension msg))
        | Ok exts =>
            replied ambient Response.allocate_to
              (AgentOps.allocate_pond ambient id (aa_name a) "{}" tier exts
                 (default false (aa_lineage a)))
        end
    end).

Definition describe_pond (a : PondRefArgs) (ctx : RequestContext) : MR CallToolResult :=
  tool ctx (fun fw ambient id =>
    replied ambient Bodies.describe_to (AgentOps.describe_pond self ambient id (pr_pond a))).

Definition list_ponds (ctx : RequestContext) : MR CallToolResult :=
  tool ctx (fun fw ambient id =>
    replied ambient Response.list_ponds_to (AgentOps.list_ponds ambient id)).

Definition drop_pond (a : DropArgs) (ctx : RequestContext) : MR CallToolResult :=
  tool ctx (fun fw ambient id =>
    replied ambient (fun _ => Response.drop_pond_to "dropped" (da_pond a))
      (AgentOps.drop_pond self ambient id (da_pond a) (default false (da_confirm a)))).

Definition read_query (a : QueryArgs) (ctx : RequestContext) : MR CallToolResult :=
  let controls := query_controls a ctx in
  tool ctx (fun fw ambient id =>
    match reject_zero ambient "timeout_ms" (qa_timeout_ms a) with
    | Some refusal => ret refusal
    | None =>
        replied ambient (Response.query_response_to "read_query" "ok")
          (AgentOps.read_collected_with self ambient id (qa_pond a) (qa_sql a) controls)
    end).

Definition write_query (a : QueryArgs) (ctx : RequestContext) : MR CallToolResult :=
  let controls := query_controls a ctx in
  tool ctx (fun fw ambient id =>
    match reject_zero ambient "timeout_ms" (qa_timeout_ms a) with
    | Some refusal => ret refusal
    | None =>
        replied ambient (Response.query_response_to "write_query" "ok")
          (AgentOps.write_query_with self ambient id (qa_pond a) (qa_sql a) controls)
    end).

Definition explain_query (a : ExplainArgs) (ctx : RequestContext) : MR CallToolResult :=
  tool ctx (fun fw ambient id =>
    replied ambient Bodies.explain_to
      (AgentOps.explain_query self ambient id (ea_pond a) (ea_sql a))).

Definition list_datasets (a : SearchArgs) (ctx : RequestContext) : MR CallToolResult :=
  tool ctx (fun fw ambient id =>
    replied ambient Response.list_datasets_to
      (AgentOps.list_datasets (default EmptyString (sa_query a)))).

Definition load_dataset (a : LoadDatasetArgs) (ctx : RequestContext) : MR CallToolResult :=
  tool ctx (fun fw ambient id =>
    replied ambient Bodies.load_to
      (AgentOps.load_dataset self ambient id (la_pond a) (la_dataset a))).

Definition list_catalogs (a : SearchArgs) (ctx : RequestContext) : MR CallToolResult :=
  tool ctx (fun fw ambient id =>
    replied ambient Response.list_catalogs_to
      (AgentOps.list_catalogs (default EmptyString (sa_query a)))).

Definition describe_catalog (a : CatalogDescribeArgs) (ctx : RequestContext) : MR CallToolResult :=
  let set := default ∅ (cd_set a) in
  tool ctx (fun fw ambient id =>
    replied ambient (Response.describe_catalog_to (cd_catalog a))
      (AgentOps.catalog_describe self ambient id (cd_pond a) (cd_catalog a) set)).

Definition pull_catalog (a : CatalogPullArgs) (ctx : RequestContext) : MR CallToolResult :=
  let set := default ∅ (cp_set a) in
  tool ctx (fun fw ambient id =>
    replied ambient Bodies.pull_to
      (AgentOps.catalog_pull self ambient id (cp_pond a) (cp_catalog a) (cp_query a) set)).

Definition DEFAULT_LINEAGE_LIMIT : N := 50.

Definition get_lineage (a : LineageArgs) (ctx : RequestContext) : MR CallToolResult :=
  let limit := default DEFAULT_LINEAGE_LIMIT (li_limit a) in
  tool ctx (fun fw ambient id =>
    replied ambient Bodies.page_to
      (AgentOps.get_lineage self ambient id (li_pond a) limit (li_since a) (li_before a))).

Definition call_tool (t : Tool) (ctx : RequestContext) : MR CallToolResult :=
  match t with
  | AllocatePond a => allocate_pond a ctx
  | DescribePond a => describe_pond a ctx
  | ListPonds => list_ponds ctx
  | DropPond a => drop_pond a ctx
  | ReadQuery a => read_query a ctx
  | WriteQuery a => write_query a ctx
  | ExplainQuery a => explain_query a ctx
  | ListDatasets a => list_datasets a ctx
  | LoadDataset a => load_dataset a ctx
  | ListCatalogs a => list_catalogs a ctx
  | DescribeCatalog a => describe_catalog a ctx
  | PullCatalog a => pull_catalog a ctx
  | GetLineage a => get_lineage a ctx
  end.
End server.

(** *** The door *)

Definition PROTECTED_RESOURCE_PATH : string := "/.well-known/oauth-protected-resource".

Section door.
Context {W : Type} `{!Jwt}.
Variable header_ok : string -> bool.

Definition unauthorized {A} (challenge : string) : Reply A :=
  Unauthorized (if header_ok challenge then Some challenge else None).

(** [key_for] and [now] are the key caches' answers and the verifier's clock. *)
Definition verify_bearer {A} (verifier : Verify.Verifier)
    (key_for : string -> string -> result Jwks.SigningKey AuthError) (now : N)
    (challenge : string) (req : Parts) (next : Parts -> Ops.M W (Reply A)) : Ops.M W (Reply A) :=
  if String.eqb (path req) PROTECTED_RESOURCE_PATH then next req
  else
    match raw ← h_authorization req; Common.bearer raw with
    | None => ret (unauthorized challenge)
    | Some token =>
        match Verify.verify verifier key_for now token (h_agent_id req) with
        | Ok identity =>
            next {| path := path req; h_agent_id := h_agent_id req;
                    h_authorization := h_authorization req; h_traceparent := h_traceparent req;
                    caller := Some {| vc_identity := identity; vc_token := token |} |}
        | Err _ => ret (unauthorized challenge)
        end
    end.
End door.
End LatiqServer.

(** *** Where the surface is *)

(** What the url crate does with a parsed address, and an address's own text. *)
Class McpUrls `{!Urls} := {
  set_port : N -> Url -> option Url;
  set_path : string -> Url -> Url;
  host_str : Host -> string;
}.

(** The socket the surface is bound to: its text, and its port. *)
Record SocketAddr := { addr_text : string; port : N }.

Module Address.
(** [str::strip_suffix]. *)
Fixpoint strip_suffix (suffix s : string) : option string :=
  if String.eqb s suffix then Some EmptyString
  else
    match s with
    | EmptyString => None
    | String b s => String b <$> strip_suffix suffix s
    end.

Section address.
Context `{!Urls} `{!McpUrls}.
(** A string as [{:?}] prints it. *)
Variable debug : string -> string.

Definition advertised_mcp_url (advertised_endpoint : string) (mcp_addr : SocketAddr) :
    option string :=
  url ← res_ok (url_parse advertised_endpoint);
  url ← set_port (port mcp_addr) url;
  Some (text (set_path "/mcp" url)).

Definition resolve_public_mcp_url (public_mcp_url : option string) (advertised_endpoint : string)
    (mcp_addr : SocketAddr) : result string string :=
  match public_mcp_url with
  | Some configured =>
      let? url := map_err (fun e =>
        "--public-mcp-url (or $LATIQ_PUBLIC_MCP_URL) is not a valid absolute URL: "
          +:+ debug configured +:+ " (" +:+ e +:+ "). Pass the full URL agents dial, e.g. "
          +:+ "https://latiq.example.com/mcp.") (url_parse configured) in
      match host url with
      | None =>
          Err ("--public-mcp-url (or $LATIQ_PUBLIC_MCP_URL) has no host: " +:+ debug configured
                 +:+ ". Pass the " +:+ "full URL agents dial, e.g. https://latiq.example.com/mcp.")
      | Some _ => Ok configured
      end
  | None =>
      Ok (default ("http://" +:+ addr_text mcp_addr +:+ "/mcp")
            (advertised_mcp_url advertised_endpoint mcp_addr))
  end.

Definition public_url_host (public_url : string) : option string :=
  url ← res_ok (url_parse public_url); host_str <$> host url.

Definition mcp_allowed_hosts (public_url : option string) : list string :=
  let hosts := ["localhost"; "127.0.0.1"; "::1"] in
  match u ← public_url; public_url_host u with
  | Some h => if existsb (String.eqb h) hosts then hosts else hosts ++ [h]
  | None => hosts
  end.
End address.

Definition protected_resource_metadata_url (resource : string) : string :=
  default resource (strip_suffix "/mcp" resource) +:+ LatiqServer.PROTECTED_RESOURCE_PATH.
End Address.

(** *** The served surface *)

Module Surface.
Section serve.
Context {C D E F : Type} `{!PondIds} `{!Floats} `{!Arrow}.
Context `{!ControlPlane C} `{!PondStorage D} `{!QueryEngine E} `{!LineageReader D}.
Context `{!SerdeTexts} `{!Serde} `{!Jwt}.
Variable forwarder_in : option string -> option string -> Forwarder F.
Variable header_ok : string -> bool.
Variable self : Node.
Variable verifier : option Verify.Verifier.
Variable public_url : option string.
(** The address of the listener, for a deployment that advertises none. *)
Variable local_addr : string.
Notation World := (World C D E F).

Inductive Answer :=
| Tool (r : result CallToolResult McpError)
| Document (doc : Metadata.ProtectedResourceMetadata)
| NotFound.

Definition resource : string := default ("http://" +:+ local_addr +:+ "/mcp") public_url.

Definition issuers (v : Verify.Verifier) : list string :=
  map Verify.issuer (Verify.issuers (Verify.cfg v)).

Definition is_mcp (p : string) : bool := String.eqb p "/mcp" || starts_with "/mcp/" p.

(** A request for a tool behind the door. *)
Definition route (t : Args.Tool) (cancelled : bool) (uuids : string * string) (req : Parts) :
    Ops.M World (Reply Answer) :=
  if is_mcp (path req) then
    let! r := LatiqServer.call_tool forwarder_in self verifier t
                {| parts := Some req; ct := cancelled; uuids := uuids |} in
    ret (Replied (Tool r))
  else
    match verifier with
    | Some v =>
        if String.eqb (path req) LatiqServer.PROTECTED_RESOURCE_PATH then
          ret (Replied (Document (Metadata.new resource (issuers v))))
        else ret (Replied NotFound)
    | None => ret (Replied NotFound)
    end.

(** Nobody but the door leaves a verified caller on a request. *)
Definition posted (req : Parts) : Parts :=
  {| path := path req; h_agent_id := h_agent_id req; h_authorization := h_authorization req;
     h_traceparent := h_traceparent req; caller := None |}.

Definition serve_mcp (key_for : string -> string -> result Jwks.SigningKey AuthError) (now : N)
    (t : Args.Tool) (cancelled : bool) (uuids : string * string) (req : Parts) :
    Ops.M World (Reply Answer) :=
  match verifier with
  | None => route t cancelled uuids (posted req)
  | Some v =>
      LatiqServer.verify_bearer header_ok v key_for now
        (Metadata.challenge_header (Address.protected_resource_metadata_url resource))
        (posted req) (route t cancelled uuids)
  end.
End serve.
End Surface.
