(* ===== verification/McpSpec.v ===== *)
(** * What an agent can rely on

    The surface adds nothing to the operation behind a tool but its encoding, and
    withholds nothing of it; its answers all carry the trace they belong to; nothing of
    a guarded surface runs without a verified caller; every tool accepts exactly the
    arguments it declares. *)
From S2P Require Import Prelude Errors Extensions Policy Common Deadline Plan Interfaces Auth Wire WireSpec.
From S2P Require Import ControlPlane.
From S2P Require Import Ops OpsSpec OpsResult DataService Mcp.
Import Types Wire.Derive.
#[local] Open Scope rust_scope.
#[local] Arguments String.append !_ _ / : simpl nomatch.

(** ** Answers *)

Section answers.
Context `{!Floats} `{!Arrow} `{!SerdeTexts} `{!Serde}.

Lemma lookup_insert_key k k' v m :
  lookup_key k' (Encode.insert k v m) = if String.eqb k k' then Some v else lookup_key k' m.
Proof.
  unfold Encode.insert. rewrite !lookup_key_lookup, list_to_map_btree_entries.
  destruct (String.eqb_spec k k') as [->|Hk]; [by rewrite lookup_insert_eq|].
  by rewrite lookup_insert_ne.
Qed.

Lemma lookup_replace_key k k' v v0 m :
  lookup_key k m = Some v0 ->
  lookup_key k' (Encode.replace k v m) = if String.eqb k k' then Some v else lookup_key k' m.
Proof.
  induction m as [|[j w] m IH]; [done|]. cbn [lookup_key Encode.replace].
  destruct (String.eqb_spec j k) as [->|Hj]; intros Hm; cbn [lookup_key].
  - by destruct (String.eqb_spec k k') as [->|].
  - rewrite IH by done. destruct (String.eqb_spec j k') as [->|]; [|done].
    by destruct (String.eqb_spec k k') as [->|].
Qed.

(** The trace a body reports, and where an envelope reports its own. *)
Definition body_traceparent (v : Json) : option Json :=
  meta ← Plan.get v Encode.BODY_META; Plan.get meta Encode.TRACEPARENT_META.

(** A body as the tools produce it: an object without a [_meta], or with one of its own. *)
Definition body_ok (v : Json) : Prop :=
  exists m, v = Object m /\
    (lookup_key Encode.BODY_META m = None \/
     exists meta, lookup_key Encode.BODY_META m = Some (Object meta)).

Lemma body_members l :
  NoDup (map fst l) ->
  match member Encode.BODY_META l with Some (Object _) | None => True | _ => False end ->
  body_ok (members l).
Proof.
  intros Hl Hm. destruct (members_spec l Hl) as (m & He & Hk). exists m. split; [exact He|].
  rewrite Hk. destruct (member _ _) as [[]|]; try done; [right; by eexists|by left].
Qed.

Definition all_but_trace (v v' : Json) : Prop :=
  exists m m', v = Object m /\ v' = Object m' /\
    forall k, k <> Encode.BODY_META -> lookup_key k m' = lookup_key k m.

Lemma body_carries ctx v :
  body_ok v ->
  let v' := Encode.with_body_traceparent (Some ctx) v in
  body_traceparent v' =
    Some (default (Str (Trace.traceparent ctx)) (body_traceparent v)) /\ all_but_trace v v'.
Proof.
  intros (m & -> & Hm). unfold Encode.with_body_traceparent, body_traceparent, Plan.get, all_but_trace.
  cbn [AgentOps.current_traceparent fmap option_fmap option_map]. destruct Hm as [Hn|[meta Hs]].
  - rewrite Hn. cbn. rewrite lookup_insert_key, String.eqb_refl. cbn. split; [done|].
    eexists _, _. split; [done|]. split; [done|]. intros k Hk. rewrite lookup_insert_key.
    by destruct (String.eqb_spec Encode.BODY_META k).
  - rewrite Hs. cbn. erewrite lookup_replace_key by exact Hs. rewrite String.eqb_refl. cbn. split.
    + destruct (lookup_key Encode.TRACEPARENT_META meta) eqn:E; [by rewrite E|].
      by rewrite lookup_insert_key, String.eqb_refl.
    + eexists _, _. split; [done|]. split; [done|]. intros k Hk. erewrite lookup_replace_key by exact Hs.
      by destruct (String.eqb_spec Encode.BODY_META k).
Qed.

Lemma members_without_trace l :
  NoDup (map fst l) -> member Encode.BODY_META l = None -> body_traceparent (members l) = None.
Proof. intros Hl Hm. unfold body_traceparent. by rewrite get_member, Hm. Qed.

Lemma query_body_trace statement status q :
  body_traceparent (Response.query_response_to statement status q) =
    if String.eqb (Meta.traceparent (meta q)) EmptyString then None
    else Some (Str (Meta.traceparent (meta q))).
Proof.
  unfold body_traceparent, Response.query_response_to.
  rewrite get_member by (apply (bool_decide_unpack _); vm_compute; exact I).
  change (Plan.get (Bodies.meta_to (meta q)) Encode.TRACEPARENT_META =
    skip_if no_text Str (Meta.traceparent (meta q))).
  unfold Bodies.meta_to. by rewrite get_member by (apply (bool_decide_unpack _); vm_compute; exact I).
Qed.

(** The answer an outcome is given in the scope of a call. *)
Definition answer (trace : Trace.TraceContext) (res : result Json AgentError) : CallToolResult :=
  match res with
  | Ok v => Encode.ok (Some trace) v
  | Err e => Encode.err_envelope (Some trace) e
  end.

(** The errors that differ in their trace only. *)
Definition same_error (e e' : ErrorEnvelope) : Prop :=
  kind e' = kind e /\ message e' = message e /\ location e' = location e /\
  suggest e' = suggest e /\ see e' = see e /\ env_audience e' = env_audience e /\
  env_retryable e' = env_retryable e /\ env_facts e' = env_facts e.

Lemma answer_error trace e :
  exists e', structured_content (answer trace (Err e)) = Response.envelope_to e' /\ same_error e e' /\
    trace_id e' = Some (Trace.trace_id trace) /\
    traceparent e' = Some (default (Trace.traceparent trace) (traceparent e)).
Proof.
  eexists. split; [reflexivity|]. destruct e as [k m l su se a re f t tp]. unfold same_error.
  by destruct tp.
Qed.
End answers.

(** A struct's body, whatever its fields. *)
#[export] Hint Extern 1 (body_ok _) =>
  apply body_members; [apply (bool_decide_unpack _); vm_compute; exact I|exact I] : mcp.
#[export] Hint Extern 1 (body_traceparent _ = None) =>
  apply members_without_trace; [apply (bool_decide_unpack _); vm_compute; exact I|reflexivity] : mcp.

(** ** Tools *)

Section tools.
Context {C D E F : Type} `{!PondIds} `{!Floats} `{!Arrow}.
Context `{!ControlPlane C} `{!PondStorage D} `{!QueryEngine E} `{!LineageReader D}.
Context `{!SerdeTexts} `{!Serde} `{!Jwt}.
Variable forwarder_in : option string -> option string -> Forwarder F.
Variable self : Node.
Variable verifier : option Verify.Verifier.
Notation World := (World C D E F).
Notation call_tool := (LatiqServer.call_tool forwarder_in self verifier).
Notation identity := (LatiqServer.identity verifier).

(** *** The operation behind a tool *)

(** An operation, its result in the shape of its tool's body. *)
Definition shaped {A} (to : A -> Json) (op : Ops.M World (result A AgentError)) :
    Ops.M World (result Json AgentError) :=
  fun w => let (r, w') := op w in (map_ok to r, w').

(** The operation a tool stands for, in the scope of a call. *)
Definition operation_of (fw : Forwarder F) (trace : option Trace.TraceContext)
    (id : Identity.Identity) (cancelled : bool) (t : Args.Tool) :
    Ops.M World (result Json AgentError) :=
  let controls timeout := Deadline.with_cancel (Deadline.timeout timeout) cancelled in
  match t with
  | Args.AllocatePond a =>
      shaped Response.allocate_to
        (AgentOps.allocate_pond trace id (Args.aa_name a) "{}" (default "medium" (Args.aa_tier a))
           (default [] (res_ok (Extensions.validate (default [] (Args.aa_extensions a)))))
           (default false (Args.aa_lineage a)))
  | Args.DescribePond a =>
      shaped Bodies.describe_to (AgentOps.describe_pond self trace id (Args.pr_pond a))
  | Args.ListPonds => shaped Response.list_ponds_to (AgentOps.list_ponds trace id)
  | Args.DropPond a =>
      shaped (fun _ => Response.drop_pond_to "dropped" (Args.da_pond a))
        (AgentOps.drop_pond self trace id (Args.da_pond a) (default false (Args.da_confirm a)))
  | Args.ReadQuery a =>
      shaped (Response.query_response_to "read_query" "ok")
        (AgentOps.read_collected_with self trace id (Args.qa_pond a) (Args.qa_sql a)
           (controls (Args.qa_timeout_ms a)))
  | Args.WriteQuery a =>
      shaped (Response.query_response_to "write_query" "ok")
        (AgentOps.write_query_with self trace id (Args.qa_pond a) (Args.qa_sql a)
           (controls (Args.qa_timeout_ms a)))
  | Args.ExplainQuery a =>
      shaped Bodies.explain_to (AgentOps.explain_query self trace id (Args.ea_pond a) (Args.ea_sql a))
  | Args.ListDatasets a =>
      shaped Response.list_datasets_to (AgentOps.list_datasets (default EmptyString (Args.sa_query a)))
  | Args.LoadDataset a =>
      shaped Bodies.load_to (AgentOps.load_dataset self trace id (Args.la_pond a) (Args.la_dataset a))
  | Args.ListCatalogs a =>
      shaped Response.list_catalogs_to (AgentOps.list_catalogs (default EmptyString (Args.sa_query a)))
  | Args.DescribeCatalog a =>
      shaped (Response.describe_catalog_to (Args.cd_catalog a))
        (AgentOps.catalog_describe self trace id (Args.cd_pond a) (Args.cd_catalog a)
           (default ∅ (Args.cd_set a)))
  | Args.PullCatalog a =>
      shaped Bodies.pull_to
        (AgentOps.catalog_pull self trace id (Args.cp_pond a) (Args.cp_catalog a) (Args.cp_query a)
           (default ∅ (Args.cp_set a)))
  | Args.GetLineage a =>
      shaped Bodies.page_to
        (AgentOps.get_lineage self trace id (Args.li_pond a) (default 50%N (Args.li_limit a))
           (Args.li_since a) (Args.li_before a))
  end.

(** Refused for what was typed, before the operation: a name or an extension that is not
    allowed, a timeout of zero. *)
Definition refused (t : Args.Tool) : bool :=
  match t with
  | Args.AllocatePond a =>
      match Args.aa_name a with Some n => negb (is_ok (PondName.validate n)) | None => false end
      || negb (is_ok (Extensions.validate (default [] (Args.aa_extensions a))))
  | Args.ReadQuery a | Args.WriteQuery a => bool_decide (Args.qa_timeout_ms a = Some 0%N)
  | _ => false
  end.

(** What a call comes to: a refusal of ours, or its operation. *)
Definition comes_to (fw : Forwarder F) (trace : option Trace.TraceContext) (id : Identity.Identity)
    (cancelled : bool) (t : Args.Tool) (w : World) (res : result Json AgentError) (w' : World) : Prop :=
  if refused t then
    w' = w /\ exists e, res = Err e /\ kind e = Kind.InvalidValue /\ trace_id e = None /\
      traceparent e = None
  else operation_of fw trace id cancelled t w = (res, w').

Lemma tool_runs ctx id tok
    (op : Forwarder F -> option Trace.TraceContext -> Identity.Identity -> Ops.M World CallToolResult) w :
  identity ctx = Ok (id, tok) ->
  LatiqServer.tool forwarder_in verifier ctx op w =
    (let trace := LatiqServer.trace_of ctx in
     let out := op (forwarder_in tok (Some (Trace.traceparent trace))) (Some trace) id w in
     (Ok out.1, out.2)).
Proof.
  intros Hi. unfold LatiqServer.tool. rewrite Hi. unfold Ops.bind, LatiqServer.traced. cbv zeta.
  by destruct (op _ _ _ w).
Qed.

Lemma replied_answer {A} trace (to : A -> Json) (op : Ops.M World (result A AgentError)) w :
  LatiqServer.replied (Some trace) to op w =
    (answer trace (shaped to op w).1, (shaped to op w).2).
Proof. unfold LatiqServer.replied, shaped, Ops.bind. by destruct (op w) as [[a|e] w']. Qed.

Ltac operated := rewrite replied_answer; eexists _, _; split; [apply surjective_pairing|reflexivity].
Ltac refusal :=
  eexists (Err _), _; split; [|reflexivity]; split; [reflexivity|]; eexists; split; [reflexivity|done].

(** Whoever passed the door is answered with what the call comes to. *)
Lemma call_runs t ctx id tok w :
  identity ctx = Ok (id, tok) ->
  let trace := LatiqServer.trace_of ctx in
  exists res w',
    comes_to (forwarder_in tok (Some (Trace.traceparent trace))) (Some trace) id (ct ctx) t w res w' /\
    call_tool t ctx w = (Ok (answer trace res), w').
Proof.
  intros Hi. cbv zeta. unfold comes_to.
  destruct t as [a|a| |a|a|a|a|a|a|a|a|a|a]; cbn [LatiqServer.call_tool refused operation_of];
    cbv delta [LatiqServer.allocate_pond LatiqServer.describe_pond LatiqServer.list_ponds
      LatiqServer.drop_pond LatiqServer.read_query LatiqServer.write_query
      LatiqServer.explain_query LatiqServer.list_datasets LatiqServer.load_dataset
      LatiqServer.list_catalogs LatiqServer.describe_catalog LatiqServer.pull_catalog
      LatiqServer.get_lineage] beta zeta;
    rewrite (tool_runs _ _ _ _ _ Hi); cbv zeta;
    try operated.
  - unfold LatiqServer.reject_name.
    destruct (Args.aa_name a) as [n|]; [destruct (PondName.validate n) as [u|m]|]; cbn [is_ok negb orb].
    2: refusal.
    all: destruct (Extensions.validate _) as [exts|m]; cbn [is_ok negb res_ok default]; [operated|refusal].
  - unfold LatiqServer.reject_zero. case_bool_decide; [refusal|operated].
  - unfold LatiqServer.reject_zero. case_bool_decide; [refusal|operated].
Qed.

Lemma called_ok t ctx id tok w :
  identity ctx = Ok (id, tok) -> exists r, (call_tool t ctx w).1 = Ok r.
Proof. intros Hi. destruct (call_runs t ctx id tok w Hi) as (res & w' & _ & ->). by eexists. Qed.

Lemma shaped_Ok {A} (to : A -> Json) (op : Ops.M World (result A AgentError)) w v w' :
  shaped to op w = (Ok v, w') -> exists a, op w = (Ok a, w') /\ v = to a.
Proof. unfold shaped. destruct (op w) as [[a|e] w1]; intros [= <- <-]. by exists a. Qed.

(** The bodies of the tools are objects whose [_meta], if any, is one. *)
Lemma operation_body fw trace id cancelled t w v w' :
  operation_of fw trace id cancelled t w = (Ok v, w') -> body_ok v.
Proof.
  destruct t; cbn [operation_of]; intros (a0 & _ & ->)%shaped_Ok; auto with mcp.
Qed.

(** C5: a tool is its operation and nothing else, for every one of the thirteen: with the
    arguments the agent gave and the defaults of those it left out, as the caller and under
    the trace of its request, once; a success is answered with the operation's result, in
    the tool's shape, but for the trace in its [_meta], and a failure with its error, but
    for its trace; and a call refused for its name, its extensions or a timeout of zero runs
    nothing at all and is answered with an error of an invalid value. *)
Theorem tool_is_its_operation t ctx id tok (w : World) :
  identity ctx = Ok (id, tok) ->
  let trace := Trace.inbound (Mcp.uuids ctx).1 (Mcp.uuids ctx).2 (p ← parts ctx; h_traceparent p) in
  let fw := forwarder_in tok (Some (Trace.traceparent trace)) in
  exists r,
    if refused t then
      call_tool t ctx w = (Ok r, w) /\ is_error r = true /\
      exists e, structured_content r = Response.envelope_to e /\ kind e = Kind.InvalidValue
    else
      let (res, w') := operation_of fw (Some trace) id (ct ctx) t w in
      call_tool t ctx w = (Ok r, w') /\
      match res with
      | Ok v => is_error r = false /\ all_but_trace v (structured_content r)
      | Err e =>
          is_error r = true /\
          exists e', structured_content r = Response.envelope_to e' /\ same_error e e'
      end.
Proof.
  intros Hi. cbv zeta. destruct (call_runs t ctx id tok w Hi) as (res & w' & Hc & Hr).
  exists (answer (LatiqServer.trace_of ctx) res). unfold comes_to in Hc.
  change (Trace.inbound _ _ _) with (LatiqServer.trace_of ctx). destruct (refused t).
  - destruct Hc as (-> & e & -> & Hk & _). split; [done|]. split; [done|].
    destruct (answer_error (LatiqServer.trace_of ctx) e) as (e' & He & (Hk' & _) & _).
    exists e'. by rewrite Hk'.
  - rewrite Hc. split; [done|]. destruct res as [v|e].
    + split; [done|]. by apply body_carries, (operation_body _ _ _ _ _ _ _ _ Hc).
    + split; [done|]. destruct (answer_error (LatiqServer.trace_of ctx) e) as (e' & He & Hs & _).
      by exists e'.
Qed.

(** *** Traces *)

(** The pond of a statement that may run on another node. *)
Definition queried (t : Args.Tool) : option string :=
  match t with
  | Args.ReadQuery a | Args.WriteQuery a => Some (Args.qa_pond a)
  | _ => None
  end.

(** The trace a body brings along is the caller's, but where its statement is another
    node's. *)
Lemma operation_trace fw trace id cancelled t w v w' :
  operation_of fw (Some trace) id cancelled t w = (Ok v, w') ->
  body_traceparent v = None \/ body_traceparent v = Some (Str (Trace.traceparent trace)) \/
  exists ref, queried t = Some ref /\
    forall info, cp_pond_info ref (cp w) = Ok info -> placement self info <> Local.
Proof.
  destruct t as [a|a| |a|a|a|a|a|a|a|a|a|a]; cbn [operation_of];
    intros (q & Hq & ->)%shaped_Ok; auto with mcp; right; cbn [queried].
  all: destruct (cp_pond_info (Args.qa_pond a) (cp w)) as [info|e] eqn:Hi;
    [destruct (placement self info) as [|p|] eqn:Hp|];
    [left|right; exists (Args.qa_pond a); split; [done|]; intros i Hi'; congruence..].
  all: rewrite query_body_trace; apply (f_equal fst) in Hq; cbn [fst] in Hq.
  - by rewrite (collected_traced_here _ _ _ _ _ _ _ _ _ Hi Hp Hq).
  - unfold AgentOps.write_query_with in Hq.
    by rewrite (query_traced_here _ _ _ _ _ _ _ _ _ _ Hi Hp Hq).
Qed.

(** C9: whatever an agent asks and however it fares, the answer carries the trace of its
    request, the one its header names or else one begun for it: on the protocol's own field
    always; as the trace id of an error; and as the traceparent in the body of a success or
    the envelope of an error, but where that came with another, which a body does only
    when its statement was another node's, whose span it then names.  Its text and its
    structure are one body; and only a request that never passed the door goes without an
    answer. *)
Theorem answers_carry_their_trace t ctx w :
  let trace := Trace.inbound (Mcp.uuids ctx).1 (Mcp.uuids ctx).2 (p ← parts ctx; h_traceparent p) in
  let tp := Trace.traceparent trace in
  match (call_tool t ctx w).1 with
  | Err x => is_Some verifier /\ identity ctx = Err x
  | Ok r => exists id tok res w',
      identity ctx = Ok (id, tok) /\
      comes_to (forwarder_in tok (Some tp)) (Some trace) id (ct ctx) t w res w' /\
      result_meta r = Some (Object [("traceparent", Str tp)]) /\
      content r = to_string (structured_content r) /\
      match res with
      | Ok v => is_error r = false /\
          let said := body_traceparent (structured_content r) in
          said = Some (Str tp) \/
          (said = body_traceparent v /\
           exists ref, queried t = Some ref /\
             forall info, cp_pond_info ref (cp w) = Ok info -> placement self info <> Local)
      | Err e => is_error r = true /\
          exists e', structured_content r = Response.envelope_to e' /\
            trace_id e' = Some (Trace.trace_id trace) /\
            traceparent e' = Some (default tp (traceparent e))
      end
  end.
Proof.
  cbv zeta. change (Trace.inbound _ _ _) with (LatiqServer.trace_of ctx).
  destruct (identity ctx) as [[id tok]|x] eqn:Hi.
  - destruct (call_runs t ctx id tok w Hi) as (res & w' & Hc & ->). cbn [fst].
    exists id, tok, res, w'. split; [done|]. split; [exact Hc|]. destruct res as [v|e].
    + split; [done|]. split; [done|]. split; [done|]. unfold comes_to in Hc.
      destruct (refused t); [by destruct Hc as (_ & e & ? & _)|]. cbn [answer].
      destruct (body_carries (LatiqServer.trace_of ctx) v (operation_body _ _ _ _ _ _ _ _ Hc)) as [Hb _].
      unfold Encode.ok, Encode.dual. cbn [structured_content]. rewrite Hb.
      destruct (operation_trace _ _ _ _ _ _ _ _ Hc) as [->|[->|Hq]]; [by left..|].
      destruct (body_traceparent v) as [own|]; [by right|by left].
    + split; [done|]. split; [done|]. split; [done|].
      destruct (answer_error (LatiqServer.trace_of ctx) e) as (e' & He & _ & Ht). by exists e'.
  - assert (Hcall : (call_tool t ctx w).1 = Err x).
    { destruct t; cbn [LatiqServer.call_tool];
      cbv delta [LatiqServer.allocate_pond LatiqServer.describe_pond LatiqServer.list_ponds
        LatiqServer.drop_pond LatiqServer.read_query LatiqServer.write_query
        LatiqServer.explain_query LatiqServer.list_datasets LatiqServer.load_dataset
        LatiqServer.list_catalogs LatiqServer.describe_catalog LatiqServer.pull_catalog
        LatiqServer.get_lineage] beta zeta; unfold LatiqServer.tool; by rewrite Hi. }
    rewrite Hcall. split; [|done]. unfold LatiqServer.identity in Hi. destruct verifier; [by eexists|discriminate Hi].
Qed.
End tools.

(** ** The door *)

Section door.
Context {C D E F : Type} `{!PondIds} `{!Floats} `{!Arrow}.
Context `{!ControlPlane C} `{!PondStorage D} `{!QueryEngine E} `{!LineageReader D}.
Context `{!SerdeTexts} `{!Serde} `{!Jwt}.
Variable forwarder_in : option string -> option string -> Forwarder F.
Variable header_ok : string -> bool.
Variable self : Node.
Variable v : Verify.Verifier.
Variable public_url : option string.
Variable local_addr : string.
Notation World := (World C D E F).
Notation serve := (Surface.serve_mcp forwarder_in header_ok self (Some v) public_url local_addr).

(** C6: on a surface that verifies its callers nothing runs for a request without a token
    the verifier accepts: a tool runs only at its own path, as the caller its token
    names, with that token to replay; everything else, the public document apart, is
    turned away or unknown, and leaves the node as it was. *)
Theorem only_verified_agents_act key_for now t cancelled uu (req : Parts) (w : World) :
  let (reply, w') := serve key_for now t cancelled uu req w in
  match reply with
  | Replied (Surface.Tool out) =>
      exists raw token id r,
        Surface.is_mcp (path req) = true /\
        h_authorization req = Some raw /\ Common.bearer raw = Some token /\
        Verify.verify v key_for now token (h_agent_id req) = Ok id /\ out = Ok r /\
        let ctx := {| parts := Some {| path := path req; h_agent_id := h_agent_id req;
                        h_authorization := h_authorization req; h_traceparent := h_traceparent req;
                        caller := Some {| vc_identity := id; vc_token := token |} |};
                      ct := cancelled; uuids := uu |} in
        LatiqServer.identity (Some v) ctx = Ok (id, Some token) /\
        LatiqServer.call_tool forwarder_in self (Some v) t ctx w = (Ok r, w')
  | Replied (Surface.Document _) => path req = LatiqServer.PROTECTED_RESOURCE_PATH /\ w' = w
  | _ => w' = w
  end.
Proof.
  unfold Surface.serve_mcp, LatiqServer.verify_bearer. cbn [path h_authorization h_agent_id Surface.posted].
  destruct (String.eqb_spec (path req) LatiqServer.PROTECTED_RESOURCE_PATH) as [Hp|Hp].
  - unfold Surface.route. cbn [path Surface.posted]. rewrite Hp. by split.
  - destruct (h_authorization req) as [raw|] eqn:Ha; [|done]. cbn [mbind option_bind].
    destruct (Common.bearer raw) as [token|] eqn:Eb; [|done].
    destruct (Verify.verify _ _ _ _ _) as [id|] eqn:Ev; [|done].
    unfold Surface.route. cbn [path Surface.posted].
    destruct (Surface.is_mcp (path req)) eqn:Em.
    + unfold Ops.bind.
      match goal with |- context [LatiqServer.call_tool _ _ _ t ?c w] => set (ctx := c) end.
      assert (Hi : LatiqServer.identity (Some v) ctx = Ok (id, Some token)) by done.
      destruct (LatiqServer.call_tool forwarder_in self (Some v) t ctx w) as [out w'] eqn:Ec.
      destruct (called_ok forwarder_in self (Some v) t ctx id (Some token) w Hi) as [r Hr].
      rewrite Ec in Hr. cbn [fst] in Hr. subst out.
      cbn [ret fst snd].
      exists raw, token, id, r. do 5 (split; [done|]). split; [exact Hi|exact Ec].
    + by destruct (String.eqb_spec (path req) LatiqServer.PROTECTED_RESOURCE_PATH).
Qed.
End door.

(** ** Arguments *)

Section arguments.
Context `{!Floats} `{!SerdeTexts}.

Definition name_of (t : Args.Tool) : string :=
  match t with
  | Args.AllocatePond _ => "allocate_pond"
  | Args.DescribePond _ => "describe_pond"
  | Args.ListPonds => "list_ponds"
  | Args.DropPond _ => "drop_pond"
  | Args.ReadQuery _ => "read_query"
  | Args.WriteQuery _ => "write_query"
  | Args.ExplainQuery _ => "explain_query"
  | Args.ListDatasets _ => "list_datasets"
  | Args.LoadDataset _ => "load_dataset"
  | Args.ListCatalogs _ => "list_catalogs"
  | Args.DescribeCatalog _ => "describe_catalog"
  | Args.PullCatalog _ => "pull_catalog"
  | Args.GetLineage _ => "get_lineage"
  end.

(** A call's arguments as a client writes them: what is not given is left out. *)
Definition members_of (t : Args.Tool) : list (string * option Json) :=
  match t with
  | Args.AllocatePond a =>
      [("name", Str <$> Args.aa_name a); ("tier", Str <$> Args.aa_tier a);
       ("extensions", of_list Str <$> Args.aa_extensions a); ("lineage", Bool <$> Args.aa_lineage a)]
  | Args.DescribePond a => [("pond", Some (Str (Args.pr_pond a)))]
  | Args.ListPonds => []
  | Args.DropPond a =>
      [("pond", Some (Str (Args.da_pond a))); ("confirm", Bool <$> Args.da_confirm a)]
  | Args.ReadQuery a | Args.WriteQuery a =>
      [("pond", Some (Str (Args.qa_pond a))); ("sql", Some (Str (Args.qa_sql a)));
       ("timeout_ms", of_N <$> Args.qa_timeout_ms a)]
  | Args.ExplainQuery a =>
      [("pond", Some (Str (Args.ea_pond a))); ("sql", Some (Str (Args.ea_sql a)))]
  | Args.ListDatasets a | Args.ListCatalogs a => [("query", Str <$> Args.sa_query a)]
  | Args.LoadDataset a =>
      [("pond", Some (Str (Args.la_pond a))); ("dataset", Some (Str (Args.la_dataset a)))]
  | Args.DescribeCatalog a =>
      [("pond", Some (Str (Args.cd_pond a))); ("catalog", Some (Str (Args.cd_catalog a)));
       ("set", Response.of_map Str <$> Args.cd_set a)]
  | Args.PullCatalog a =>
      [("pond", Some (Str (Args.cp_pond a))); ("catalog", Some (Str (Args.cp_catalog a)));
       ("query", Some (Str (Args.cp_query a))); ("set", Response.of_map Str <$> Args.cp_set a)]
  | Args.GetLineage a =>
      [("pond", Some (Str (Args.li_pond a))); ("limit", of_N <$> Args.li_limit a);
       ("since", Str <$> Args.li_since a); ("before", Str <$> Args.li_before a)]
  end.

Definition declared (t : Args.Tool) : list string := map fst (members_of t).

(** Its numbers are within their types. *)
Definition args_fit (t : Args.Tool) : Prop :=
  match t with
  | Args.ReadQuery a | Args.WriteQuery a =>
      forall n, Args.qa_timeout_ms a = Some n -> (n <= U64_MAX)%N
  | Args.GetLineage a => forall n, Args.li_limit a = Some n -> (n <= 2 ^ 32 - 1)%N
  | _ => True
  end.

Lemma read_entries_ok {A} (from : Read A) l (acc : gmap string A) :
  NoDup (map fst l) -> Forall (fun e => is_ok (from e.2) = true) l ->
  exists m, Args.read_entries from l acc = Ok m /\
    forall k, m !! k = match lookup_key k l with Some v => res_ok (from v) | None => acc !! k end.
Proof.
  revert acc. induction l as [|[k v] l IH]; intros acc; [by exists acc|]. cbn [map fst].
  rewrite NoDup_cons, Forall_cons. intros [Hk Hn] [Hv Hl]. cbn [Args.read_entries fst snd] in Hv |- *.
  destruct (from v) as [a|e] eqn:Ef; [|done]. cbn [res_bind].
  destruct (IH (<[k := a]> acc) Hn Hl) as (m & -> & Hm). exists m. split; [done|]. intros k'.
  rewrite Hm. cbn [lookup_key]. destruct (String.eqb_spec k k') as [<-|Hne].
  - assert (lookup_key k l = None) as ->.
    { rewrite lookup_key_lookup. by apply not_elem_of_list_to_map_1. }
    by rewrite lookup_insert_eq, Ef.
  - by rewrite lookup_insert_ne.
Qed.

Lemma to_map_ok (m : gmap string string) : Args.to_map to_str (Response.of_map Str m) = Ok m.
Proof.
  unfold Args.to_map, Response.of_map, expecting. cbn [as_object ok_or res_bind].
  destruct (read_entries_ok to_str (btree_entries (Str <$> m)) ∅) as (m' & -> & Hm).
  - rewrite btree_entries_fst. apply NoDup_btree_keys.
  - rewrite Forall_forall. intros [k v] Hin%elem_of_btree_entries. rewrite lookup_fmap in Hin.
    destruct (m !! k); [|done]. by injection Hin as <-.
  - f_equal. apply map_eq. intros k. rewrite Hm, lookup_key_lookup, list_to_map_btree_entries, lookup_fmap.
    by destruct (m !! k).
Qed.

Lemma to_u32_ok n : (n <= 2 ^ 32 - 1)%N -> Args.to_u32 (of_N n) = Ok n.
Proof.
  intros Hn. assert (Hu : to_u64 (of_N n) = Ok n) by (apply to_u64_ok; unfold U64_MAX; lia).
  unfold to_u64, Args.to_u32, expecting in *. destruct (as_u64 (of_N n)); [|done].
  cbn [ok_or res_bind] in *. injection Hu as ->. by rewrite (proj2 (N.leb_le _ _) Hn).
Qed.

Lemma accepted {A} expected (r : Reader A) l a :
  NoDup (map fst l) ->
  (forall m, (forall k, lookup_key k m = member k l) -> r (Fields m) = Ok (a, Fields m)) ->
  Args.deny_unknown_fields (map fst l) (to_struct expected r) (written l) = Some a.
Proof.
  intros Hl Hr. unfold Args.deny_unknown_fields.
  assert (forallb (fun kv => existsb (String.eqb kv.1) (map fst l)) (written l) = true) as ->.
  { rewrite forallb_forall. intros kv Hin%list_elem_of_In. apply existsb_eqb_elem_of.
    apply elem_of_written. by apply list_elem_of_fmap_2. }
  unfold to_struct. by rewrite (Hr _ (fun k => lookup_written k l Hl)).
Qed.

Lemma option_list_ok (a : option (list string)) : option_ok (to_list to_str) (of_list Str) a.
Proof. intros l _. split; [done|]. apply to_strs_ok. Qed.
Lemma option_bool_ok a : option_ok to_bool Bool a.
Proof. by intros b _. Qed.
Lemma option_u64_ok a : (forall n, a = Some n -> (n <= U64_MAX)%N) -> option_ok to_u64 of_N a.
Proof. intros Ha n Hn. split; [done|]. by apply to_u64_ok, Ha. Qed.
Lemma option_u32_ok a : (forall n, a = Some n -> (n <= 2 ^ 32 - 1)%N) -> option_ok Args.to_u32 of_N a.
Proof. intros Ha n Hn. split; [done|]. by apply to_u32_ok, Ha. Qed.
Lemma option_map_ok a : option_ok (Args.to_map to_str) (Response.of_map Str) a.
Proof. intros m _. split; [done|]. apply to_map_ok. Qed.
#[local] Hint Resolve option_list_ok option_bool_ok option_u64_ok option_u32_ok option_map_ok : wire.

Ltac routed :=
  cbv beta iota delta [Args.tool_of Args.router find fst String.eqb Ascii.eqb Bool.eqb
    Args.allocate_args Args.pond_ref_args Args.drop_args
    Args.query_args Args.explain_args Args.search_args Args.load_dataset_args
    Args.catalog_describe_args Args.catalog_pull_args Args.lineage_args].

Ltac accepts :=
  routed;
  match goal with |- fmap _ ?o = Some (_ ?a) => assert (o = Some a) as ->; [|done] end;
  match goal with |- Args.deny_unknown_fields ?f _ (written ?l) = _ => change f with (map fst l) end;
  apply accepted; [apply (bool_decide_unpack _); vm_compute; exact I|];
  let m := fresh "m" in let Hm := fresh "Hm" in intros m Hm; unfold done;
  repeat first
    [ lazymatch goal with |- Ok _ = Ok _ => reflexivity end
    | eapply andThen_ok
    | eapply required_ok; [rewrite Hm; reflexivity|]
    | eapply optional_skip_none; [rewrite Hm; reflexivity|] ];
  eauto with wire.

(** C10: every tool takes exactly the arguments it declares: a call of it, written out,
    is read back as that call, and a call with any other key is refused; but for
    list_ponds, which declares none and takes whatever it is sent, ignoring it. *)
Theorem arguments_roundtrip t :
  args_fit t ->
  Args.tool_of (name_of t) (written (members_of t)) = Some t /\
  forall m k v, (k, v) ∈ m -> k ∉ declared t ->
    Args.tool_of (name_of t) m = match t with Args.ListPonds => Some Args.ListPonds | _ => None end.
Proof.
  intros Hf. split.
  - destruct t as [[]|[]| |[]|[]|[]|[]|[]|[]|[]|[]|[]|[]]; cbn [args_fit] in Hf;
      cbn [name_of members_of]; try reflexivity.
    all: accepts.
  - intros m k v Hin Hk. assert (Hden : forall A fields (from : Read A), fields = declared t ->
      Args.deny_unknown_fields fields from m = None).
    { intros A fields from ->. unfold Args.deny_unknown_fields.
      destruct (forallb _ m) eqn:E; [|done]. rewrite forallb_forall in E.
      apply list_elem_of_In in Hin. specialize (E _ Hin). by apply existsb_eqb_elem_of in E. }
    destruct t; try reflexivity; cbn [name_of]; routed;
      rewrite Hden by reflexivity; reflexivity.
Qed.
End arguments.

(** ** Addresses *)

Section address.
Context `{!Urls} `{!McpUrls}.

(** the names the surface answers to are the loopback ones and the one agents dial,
    each once. *)
Theorem mcp_allowed_hosts_spec public_url :
  let hosts := Address.mcp_allowed_hosts public_url in
  NoDup hosts /\
  forall h, h ∈ hosts <->
    h ∈ ["localhost"; "127.0.0.1"; "::1"] \/
    exists u, public_url = Some u /\ Address.public_url_host u = Some h.
Proof.
  cbv zeta. unfold Address.mcp_allowed_hosts.
  assert (Hn : NoDup ["localhost"; "127.0.0.1"; "::1"]) by (apply (bool_decide_unpack _); reflexivity).
  destruct public_url as [u|]; cbn [mbind option_bind].
  2: { split; [done|]. intros h. split; [by left|]. by intros [?|(? & ? & ?)]. }
  destruct (Address.public_url_host u) as [p|] eqn:Ep.
  2: { split; [done|]. intros h. split; [by left|]. intros [?|(? & [= <-] & ?)]; congruence. }
  destruct (existsb (String.eqb p) _) eqn:Ee.
  - apply existsb_eqb_elem_of in Ee. split; [done|]. intros h. split; [by left|].
    intros [?|(? & [= <-] & Hp)]; [done|]. rewrite Ep in Hp. by injection Hp as <-.
  - assert (Hp : p ∉ ["localhost"; "127.0.0.1"; "::1"]).
    { rewrite <- existsb_eqb_elem_of. by rewrite Ee. }
    split.
    + apply NoDup_app. split; [exact Hn|]. split; [|apply NoDup_singleton].
      intros x Hx ->%list_elem_of_singleton. by apply Hp.
    + intros h. rewrite elem_of_app, list_elem_of_singleton. split.
      * intros [?| ->]; [by left|right; by exists u].
      * intros [?|(? & [= <-] & Hh)]; [by left|right]. rewrite Ep in Hh. by injection Hh.
Qed.

(** the document a challenge points at is on the origin of the resource it is about. *)
Lemma metadata_url_of_resource base :
  Address.protected_resource_metadata_url (base +:+ "/mcp") =
    base +:+ LatiqServer.PROTECTED_RESOURCE_PATH.
Proof.
  unfold Address.protected_resource_metadata_url.
  assert (Address.strip_suffix "/mcp" (base +:+ "/mcp") = Some base) as ->; [|done].
  induction base as [|b base IH]; [reflexivity|].
  change (String b base +:+ "/mcp") with (String b (base +:+ "/mcp")). cbn [Address.strip_suffix].
  destruct (String.eqb_spec (String b (base +:+ "/mcp")) "/mcp") as [He|_]; [|by rewrite IH].
  injection He as _ He. apply (f_equal String.length) in He. rewrite str_length_app in He.
  simpl in He. lia.
Qed.
End address.
