(* ===== verification/McpSample.v ===== *)
(** * An agent at a node

    The tool theorems at work: an agent reads, through the node next to it, a pond of
    another node of [ForwardSample]. *)
From S2P Require Import Prelude Errors Policy Common Inflight Deadline Plan PlanSpec Interfaces Auth AuthSpec.
From S2P Require Import Registry RegistryInv RegistrySpec Wire WireSpec ControlPlane ControlPlaneSpec.
From S2P Require Import Ops OpsSpec OpsResult DataService Forward ForwardSpec ClusterSpec ForwardSample.
From S2P Require Import Mcp McpSpec.
Import Types.
#[local] Open Scope rust_scope.
#[local] Arguments String.append !_ _ / : simpl nomatch.

Module Agent.
Export TwoNodes.
#[local] Hint Extern 0 (Network _) =>
  exact (net_ no_peer visible refused valid_uri) : typeclass_instances.

(** The forwarder of the node, in the scope of a call. *)
Definition to_peers (bearer traceparent : option string) : Forwarder (GrpcForwarder.Links Cluster.Peers) :=
  forwarder_ no_peer visible refused valid_uri bearer traceparent.

Definition asks (token : option string) : Parts :=
  {| path := "/mcp"; h_agent_id := Some "cli";
     h_authorization := (fun t => "Bearer " +:+ t) <$> token;
     h_traceparent := Some (Trace.traceparent ctx); caller := None |}.

Definition admitted : RequestContext :=
  {| parts := Some {| path := "/mcp"; h_agent_id := Some "cli";
       h_authorization := Some ("Bearer " +:+ token); h_traceparent := Some (Trace.traceparent ctx);
       caller := Some {| vc_identity := alice; vc_token := token |} |};
     ct := false; Mcp.uuids := DataService.uuids env |}.

Definition query (timeout : option N) : Args.QueryArgs :=
  {| Args.qa_pond := "sales"; Args.qa_sql := "SELECT n FROM t"; Args.qa_timeout_ms := timeout |}.

Definition guard : option Verify.Verifier := Some AuthSpec.Sample.verifier.

Definition asked : Args.Tool := Args.ReadQuery (query (Some 1000%N)).
Definition searched : Args.Tool := Args.ListDatasets {| Args.sa_query := None |}.

Lemma tool_is_its_operation_witness :
  (exists r w', LatiqServer.call_tool to_peers here_node guard asked admitted (state links) = (Ok r, w') /\
     is_error r = false) /\
  exists r w', LatiqServer.call_tool to_peers here_node guard searched admitted (state links) = (Ok r, w') /\
     is_error r = false /\ Plan.get (structured_content r) "datasets" = Some (Array []).
Proof.
  split.
  - destruct (tool_is_its_operation to_peers here_node guard asked admitted alice (Some token)
      (state links) eq_refl) as (r & Hr).
    match type of Hr with context [operation_of ?a ?b ?c ?d ?e ?f ?g] =>
      set (out := operation_of a b c d e f g) in Hr end.
    assert (Hok : is_ok out.1 = true) by (vm_compute; reflexivity).
    change (McpSpec.refused asked) with false in Hr. cbv iota in Hr.
    destruct out as [res w']. exists r, w'. destruct res as [v|e]; [|discriminate Hok].
    split; [exact (proj1 Hr)|exact (proj1 (proj2 Hr))].
  - destruct (tool_is_its_operation to_peers here_node guard searched admitted alice (Some token)
      (state links) eq_refl) as (r & Hr).
    match type of Hr with context [operation_of ?a ?b ?c ?d ?e ?f ?g] =>
      set (out := operation_of a b c d e f g) in Hr end.
    assert (Hok : out.1 = Ok (Object [("datasets", Array [])])) by (vm_compute; reflexivity).
    change (McpSpec.refused searched) with false in Hr. cbv iota in Hr.
    destruct out as [res w']. cbn [fst] in Hok. subst res. exists r, w'.
    destruct Hr as (Hr & He & m & m' & Hm & Hm' & Hkeys). injection Hm as <-.
    split; [exact Hr|]. split; [exact He|]. rewrite Hm'. apply (Hkeys "datasets"). discriminate.
Defined.

Lemma arguments_roundtrip_witness :
  Args.tool_of "read_query"
    [("pond", Str "sales"); ("sql", Str "SELECT n FROM t"); ("timeout_ms", Int 1000)] =
    Some (Args.ReadQuery (query (Some 1000%N))) /\
  Args.tool_of "read_query"
    [("pond", Str "sales"); ("sql", Str "SELECT n FROM t"); ("timout_ms", Int 1000)] = None.
Proof.
  assert (Hf : args_fit (Args.ReadQuery (query (Some 1000%N)))).
  { intros n [= <-]. vm_compute. discriminate. }
  destruct (arguments_roundtrip _ Hf) as [Hr Hd]. split; [exact Hr|].
  refine (Hd _ "timout_ms" (Int 1000) _ _).
  - right. right. by left.
  - apply (bool_decide_unpack _). vm_compute. exact I.
Defined.
End Agent.
