(* ===== verification/Resources.v ===== *)
(** * What agents read

    Models [latiq-mcp/src/resources.rs] and the texts of [server.rs]: the instructions
    sent to every session, the [latiq://] resources and the prompts, with the arguments
    they require, and the description of every tool.  The texts are the served ones, so
    that what they promise can be computed. *)
From S2P Require Import Prelude Errors Extensions Policy Common Plan Interfaces Auth.
From S2P Require Import Wire Ops Mcp.
#[local] Open Scope rust_scope.
#[local] Arguments String.append !_ _ / : simpl nomatch.

(** ** The texts *)

Module Text.

Definition guidance_body : string :=
  "# Working in a Latiq pond" +:+ nl +:+ nl
    +:+ "- **SQL dialect:** Latiq speaks ANSI SQL on DuckDB. DuckDB-specific functions "
    +:+ "work but reduce portability — prefer ANSI when other agents will read your "
    +:+ "code." +:+ nl
    +:+ "- **Self-describing schemas:** after you CREATE TABLE, send `COMMENT ON "
    +:+ "TABLE`/`COMMENT ON COLUMN` statements. A `--` comment inside the DDL is lexical "
    +:+ "— the parser discards it and nothing is stored, so the next agent sees "
    +:+ "nothing. See latiq://recipes/schema-design." +:+ nl
    +:+ "- **Attribution:** your writes are tagged with your agent identity. To see who "
    +:+ "wrote what: `SELECT author, commit_message, commit_extra_info FROM "
    +:+ "ducklake_snapshots('<pond>')`. `author` is the identity; `commit_extra_info` "
    +:+ "carries the evidence for it (issuer/subject when the caller was verified) — "
    +:+ "read BOTH, because an unverified caller can claim any author." +:+ nl
    +:+ "- **Latiq owns the transaction:** send plain statements — multi-statement SQL "
    +:+ "is fine, but never `BEGIN`/`COMMIT`/`ROLLBACK`/`START TRANSACTION`. Latiq "
    +:+ "commits your write itself and records the author just before committing; your "
    +:+ "own `COMMIT` ends that transaction first, so the change lands in history with "
    +:+ "NO author." +:+ nl
    +:+ "- **Discover:** describe_pond is one call for the WHOLE pond — its metadata "
    +:+ "plus every table with its columns, a row estimate, the stored comment and the "
    +:+ "pond's `lineage` flag — where `SHOW TABLES` + `DESCRIBE` is one call per "
    +:+ "table. In SQL: `SHOW TABLES` lists tables, `DESCRIBE <table>` its columns and "
    +:+ "types, and `SELECT column_name, comment FROM duckdb_columns() WHERE "
    +:+ "table_name='<table>'` the column comments. list_ponds + describe_pond find "
    +:+ "existing work to join." +:+ nl
    +:+ "- **External data:** to bring outside data in, use list_datasets + load_dataset "
    +:+ "(curated public files), or list_catalogs → describe_catalog → pull_catalog "
    +:+ "(external databases/lakehouses like iceberg — you pull a subset into the "
    +:+ "pond, then work there). See latiq://recipes/external-data." +:+ nl
    +:+ "- **Identity:** who you are arrives in the TRANSPORT, never in a tool argument "
    +:+ "— no tool takes an agent id, so don't try to set one. The `Authorization: "
    +:+ "Bearer` token is the verified principal (`subject` + `issuer`); the "
    +:+ "`latiq-agent-id` header is a CLAIM and carries no authority. On a deployment "
    +:+ "with no issuer configured nothing is verified: you get `verified: false` and a "
    +:+ "null `subject` wherever identity is reported. Read that as " +:+ dq
    +:+ "nobody proved it" +:+ dq +:+ ", not " +:+ dq +:+ "nobody did it" +:+ dq +:+ "." +:+ nl
    +:+ "- **Provenance:** a pond allocated with `lineage: true` records an OpenLineage "
    +:+ "event pair for every query; read it with get_lineage (newest first), and check "
    +:+ "the `lineage` flag in describe_pond to know whether a pond has it. It is chosen "
    +:+ "at allocation and CANNOT be turned on later, so ask for it when you allocate. "
    +:+ "It is a working record, not tamper-proof evidence — the events are files in "
    +:+ "the pond, and dropping the pond destroys them. See latiq://recipes/lineage." +:+ nl
    +:+ "- **Large results:** results are capped (~10k rows). Narrow with WHERE/LIMIT, "
    +:+ "aggregate server-side, or materialize with CREATE TABLE AS SELECT. See "
    +:+ "latiq://recipes/large-results." +:+ nl
    +:+ "- **Plan first:** call explain_query before an expensive query — it plans "
    +:+ "without executing, so it costs nothing. It returns `estimated_rows` (the result "
    +:+ "size — compare it to the ~10k cap), a `scan_operations` entry per table read "
    +:+ "(`table`, `scan_type` full_scan/filtered_scan, `estimated_rows_scanned`, "
    +:+ "`source`), named `warnings`/`suggestions`, and `raw_plan` if you want to read "
    +:+ "the plan yourself. They are PLANNER ESTIMATES, not measurements: act on orders "
    +:+ "of magnitude, not on small differences. It estimates ROWS only — there is "
    +:+ "deliberately no time or byte estimate, because the planner predicts neither." +:+ nl
    +:+ "- **Collaboration:** multiple agents in one pond is the common case. Writes "
    +:+ "serialize; conflicts auto-retry. See latiq://troubleshooting/conflicts." +:+ nl +:+ nl
    +:+ "## Reading an error" +:+ nl +:+ nl
    +:+ "Every failed call returns one envelope, and it carries **machine-readable "
    +:+ "fields alongside the prose**. Read them before deciding what to do next: they "
    +:+ "are AUTHORITATIVE over the sentence, and they are the fields to branch on." +:+ nl
    +:+ "- `retryable: as_is` — send the same call again, unchanged. The failure was "
    +:+ "timing, capacity or the world, not your request. Once; a second identical "
    +:+ "failure is not transient." +:+ nl
    +:+ "- `retryable: after_change` — the arguments are what failed. `suggest` says "
    +:+ "what to change. Do not re-send it unchanged." +:+ nl
    +:+ "- `retryable: never` — **this call** cannot be made to work, however you edit "
    +:+ "its arguments. That does NOT mean your goal is blocked: `suggest` names the "
    +:+ "different call that is the move. A write sent to read_query is `never` there "
    +:+ "and belongs in **write_query** — switch calls, don't abandon the task. Only "
    +:+ "when `audience` is `operator` is there nothing for you to do." +:+ nl
    +:+ "- `retryable: after_provisioning` — **your request was correct; this "
    +:+ "deployment is missing a capability it needs.** Nothing you can send fixes that, "
    +:+ "so do not retry and do not rewrite the call. Tell whoever is orchestrating you "
    +:+ "— the human in the loop, or the agent that dispatched you, which may be able "
    +:+ "to install it — what is missing: it is in `facts.capability`. Then stop, and "
    +:+ "re-send this call only once you are told the capability exists. Carry on with "
    +:+ "anything that does not depend on it in the meantime." +:+ nl
    +:+ "- `audience: agent` — yours to fix, from a call you can make." +:+ nl
    +:+ "- `audience: operator` — nothing you can call resolves it. Report it and "
    +:+ "stop; retrying only adds load to a deployment already unwell. " +:+ dq +:+ "Operator"
    +:+ dq +:+ " is whoever runs this deployment: a human in the loop, or a higher-privilege "
    +:+ "agent orchestrating you. Surfacing it clearly IS your move here." +:+ nl
    +:+ "- `facts` — the numbers and names behind the sentence, **as values**. Branch "
    +:+ "on `facts.cap`; never parse a number out of `message`. A message we did not "
    +:+ "compose (an engine's own text) carries no facts rather than invented ones." +:+ nl
    +:+ "- `trace_id` / `traceparent` — the id of your own failed request. Quote it "
    +:+ "when you report anything; it is what joins your transcript to the node logs." +:+ nl
    +:+ "And the three you already read: `kind` (what went wrong — a closed set, "
    +:+ "classified by the failure, never by which call raised it), `message` (one "
    +:+ "sentence) and `see` (a latiq:// resource about that kind). Start at "
    +:+ "latiq://troubleshooting.".

Definition recipes_schema_design_body : string :=
  "# Recipe — schema design for collaboration" +:+ nl +:+ nl
    +:+ "**When:** you're the first agent creating tables in a pond." +:+ nl +:+ nl
    +:+ "**Pattern:**" +:+ nl +:+ "```sql" +:+ nl +:+ "CREATE TABLE events (" +:+ nl
    +:+ "  id INTEGER," +:+ nl +:+ "  severity VARCHAR," +:+ nl +:+ "  occurred_at TIMESTAMP"
    +:+ nl +:+ ");" +:+ nl +:+ "COMMENT ON TABLE events IS 'One row per observed event.';"
    +:+ nl +:+ "COMMENT ON COLUMN events.id IS 'event primary key';" +:+ nl
    +:+ "COMMENT ON COLUMN events.severity IS 'one of: low, medium, high, critical';" +:+ nl
    +:+ "COMMENT ON COLUMN events.occurred_at IS 'event time in UTC';" +:+ nl +:+ "```" +:+ nl
    +:+ "Send it as one write_query — several plain statements in one call are fine, "
    +:+ "and they commit as one snapshot." +:+ nl
    +:+ "**Why it works:** `COMMENT ON` STORES the text in the catalog, so the next "
    +:+ "agent reads your intent without asking:" +:+ nl +:+ "```sql" +:+ nl
    +:+ "SELECT column_name, comment FROM duckdb_columns() WHERE table_name='events';" +:+ nl
    +:+ "SELECT comment FROM duckdb_tables() WHERE table_name='events';" +:+ nl +:+ "```" +:+ nl
    +:+ "(`information_schema.columns` carries the same text in its `column_comment` "
    +:+ "column.)" +:+ nl
    +:+ "**A `--` comment inside the DDL stores NOTHING.** It is lexical: the parser "
    +:+ "discards it, `duckdb_columns().comment` stays NULL, and the next agent sees an "
    +:+ "undocumented table. Only `COMMENT ON` persists." +:+ nl
    +:+ "**Watch for:** vague table/column names; a CREATE TABLE with no COMMENT ON "
    +:+ "statements after it; types that don't match the domain.".

Definition recipes_large_results_body : string :=
  "# Recipe — large results" +:+ nl +:+ nl
    +:+ "**When:** a read_query returns `result_cap_exceeded` or you expect many rows." +:+ nl
    +:+ nl +:+ "**First, plan it:** call **explain_query** on the statement. It does not "
    +:+ "execute, so it costs you nothing. Read `estimated_rows` — that is the size of "
    +:+ "the RESULT, so if it is well over ~10k this read will be capped whatever you do "
    +:+ "next. Then read `scan_operations` for the table that is heavy (one entry per "
    +:+ "table read: `table`, `scan_type` `full_scan`/`filtered_scan`, "
    +:+ "`estimated_rows_scanned`, `source` — a `full_scan` with a big "
    +:+ "`estimated_rows_scanned` is the one to fix) and the `warnings`/`suggestions`, "
    +:+ "which name it for you. `raw_plan` carries the planner's own output when you "
    +:+ "want to read it yourself. These are estimates and are routinely wrong on joins "
    +:+ "— believe the order of magnitude, not the digits, and note that explain "
    +:+ "estimates ROWS only: there is no time or byte estimate, because the planner "
    +:+ "predicts neither." +:+ nl +:+ nl +:+ "**Then (pick one):**" +:+ nl
    +:+ "1. **Narrow:** add a WHERE on a selective column and/or LIMIT." +:+ nl
    +:+ "2. **Aggregate server-side:** `SELECT severity, count(" +:+ "*"
    +:+ ") FROM events GROUP BY severity`." +:+ nl
    +:+ "3. **Materialize:** `CREATE TABLE hot AS SELECT * FROM events WHERE "
    +:+ "severity='critical'` then query the smaller table." +:+ nl
    +:+ "**Why:** the inline cap keeps your context bounded. It is a limit on THIS "
    +:+ "surface, not on Latiq — the SDK reads the same query unbounded as an Arrow "
    +:+ "stream (`Stream/ReadArrow`), so a full extract is a job for whoever holds the "
    +:+ "SDK, not something to page into your context.".

Definition recipes_data_ingestion_m1_body : string :=
  "# Recipe — ingest data with SQL" +:+ nl +:+ nl
    +:+ "**Files by URL:** read CSV/Parquet/JSON straight into a table from write_query:" +:+ nl
    +:+ "```sql" +:+ nl
    +:+ "CREATE TABLE raw AS SELECT * FROM read_csv('https://example.com/data.csv');" +:+ nl
    +:+ "INSERT INTO raw SELECT * FROM 's3://public-bucket/more.parquet';" +:+ nl +:+ "```"
    +:+ nl +:+ "**No credentials are attached to these reads.** A source that needs "
    +:+ "authentication will fail as `source_unavailable` — for those use "
    +:+ "pull_catalog, whose `set:{…}` credentials are used once and never stored "
    +:+ "(latiq://recipes/external-data). **And the address is not restricted.** Latiq "
    +:+ "does not inspect or allow-list the path in your SQL, so the node will read "
    +:+ "whatever it can reach — including its own local files. That is a known gap "
    +:+ "(issue #79), not a sandbox: name only sources you were asked to use, and never "
    +:+ "read that a path worked as permission to read it." +:+ nl
    +:+ "For curated/registered sources (incl. external lakehouses like iceberg) use "
    +:+ "list_datasets/load_dataset and list_catalogs -> describe_catalog -> "
    +:+ "pull_catalog — see latiq://recipes/external-data." +:+ nl
    +:+ "**Own data:** `INSERT INTO t VALUES (...)` or `CREATE TABLE t AS SELECT ...`.".

Definition recipes_external_data_body : string :=
  "# Recipe — bring external data into a pond" +:+ nl +:+ nl
    +:+ "Latiq has two paths. Everything ends up as tables IN your pond — external "
    +:+ "catalogs are never queried live." +:+ nl +:+ nl
    +:+ "## Datasets — curated public files (copy in)" +:+ nl
    +:+ "A dataset loads into a SCHEMA named after it — query its tables as "
    +:+ "`<dataset>.<table>`." +:+ nl +:+ "```" +:+ nl
    +:+ "list_datasets {query?}            # discover; e.g. query='#sample' or 'tpch'" +:+ nl
    +:+ "load_dataset {pond, dataset:'tpch'}   # -> schema 'tpch'; returns "
    +:+ "schema-qualified tables" +:+ nl +:+ "read_query {pond, sql:'SELECT count(" +:+ "*"
    +:+ ") FROM tpch.orders'}" +:+ nl +:+ "```" +:+ nl +:+ nl
    +:+ "## Catalogs — external databases/lakehouses (pull a subset in)" +:+ nl
    +:+ "An operator registers a catalog (iceberg today). You discover its tables, then "
    +:+ "pull what you need:" +:+ nl +:+ "```" +:+ nl
    +:+ "list_catalogs {query?}                                  # find a catalog, e.g. "
    +:+ "'lake'" +:+ nl
    +:+ "describe_catalog {pond, catalog, set:{token:'<bearer>'}} # list its tables "
    +:+ "(transient attach)" +:+ nl
    +:+ "pull_catalog {pond, catalog, query:'CREATE TABLE us AS SELECT id,total FROM "
    +:+ "lake.sales.orders WHERE region=''us''', set:{token:'<bearer>'}}" +:+ nl
    +:+ "read_query {pond, sql:'SELECT * FROM us LIMIT 10'}" +:+ nl +:+ "```" +:+ nl
    +:+ "**Credentials** ride in via `set` (e.g. `{token: '<bearer>'}`) on describe/pull "
    +:+ "only — used once, never stored. Write the pull `query` as a CREATE TABLE that "
    +:+ "names the catalog; DuckDB downloads only the columns/rows you SELECT. **Don't** "
    +:+ "try to query `lake.…` outside a pull — attach is transient. **Do** "
    +:+ "describe_catalog first so you SELECT real table names.".

Definition recipes_attribution_lookup_body : string :=
  "# Recipe — attribution lookup" +:+ nl +:+ nl
    +:+ "Every write is tagged with the writing agent's identity (native DuckLake commit "
    +:+ "metadata)." +:+ nl +:+ "```sql" +:+ nl
    +:+ "SELECT snapshot_id, author, commit_message, commit_extra_info FROM "
    +:+ "ducklake_snapshots('<pond>') ORDER BY snapshot_id DESC;" +:+ nl +:+ "```" +:+ nl
    +:+ "Use this to coordinate: see who created a table before extending it." +:+ nl
    +:+ "**How a write loses its author:** Latiq brackets your statement in its own "
    +:+ "transaction and records the author immediately before committing. SQL that does "
    +:+ "its own `COMMIT` (or `BEGIN`/`ROLLBACK`/`START TRANSACTION`) ends that bracket "
    +:+ "first, so the snapshot appears here with no author and nobody can tell who made "
    +:+ "the change. Nothing stops you — just send plain statements." +:+ nl
    +:+ "**Always read `commit_extra_info` alongside `author`.** `author` alone cannot "
    +:+ "tell a VERIFIED writer from one merely claiming that name — the evidence "
    +:+ "(issuer/subject, and whether the identity was verified) lives in "
    +:+ "`commit_extra_info`. Where the deployment configures no issuer there is nothing "
    +:+ "to verify, so every author is a claim and no subject is recorded; that is the "
    +:+ "default, not a fault." +:+ nl
    +:+ "**You cannot choose the identity you write under.** It comes from the transport "
    +:+ "— the bearer token (verified `subject`/`issuer`) and the `latiq-agent-id` "
    +:+ "header (a claimed leaf) — and no tool takes it as an argument.".

Definition recipes_lineage_body : string :=
  "# Recipe — lineage lookup" +:+ nl +:+ nl
    +:+ "**When:** you need the provenance of a table: what a run read, what it wrote, "
    +:+ "who ran it, and which snapshot it produced." +:+ nl +:+ nl
    +:+ "**First, the pond must be recording.** Lineage is opt-in at allocation and "
    +:+ "FIXED for the pond's lifetime:" +:+ nl +:+ "```" +:+ nl
    +:+ "allocate_pond {name:'audited', lineage:true}" +:+ nl +:+ "```" +:+ nl
    +:+ "`describe_pond` reports `lineage`. Calling get_lineage on a pond without it "
    +:+ "returns an error, not an empty list — 'we were not recording' and 'nothing "
    +:+ "happened' are different answers, and only one of them means the data appeared "
    +:+ "from nowhere." +:+ nl +:+ nl +:+ "**Read it, newest first:**" +:+ nl +:+ "```" +:+ nl
    +:+ "get_lineage {pond:'audited'}                 # the newest 50 events" +:+ nl +:+ "```"
    +:+ nl +:+ "**A page is bounded on purpose**, so a busy pond cannot flood your context: "
    +:+ "`limit` defaults to 50 and is CLAMPED at 500 rather than refused — "
    +:+ "`limit_applied` reports the value actually used — and a page also stops at "
    +:+ "~256 KB. `truncated` is how you learn older events remain; never read a short "
    +:+ "page as the whole trail." +:+ nl
    +:+ "Each operation records TWO events (a START and a terminal one), so 50 events is "
    +:+ "roughly 25 operations." +:+ nl
    +:+ "**Page backwards** while `truncated` is true, using the OLDEST `eventTime` you "
    +:+ "received as the next `before` (exclusive — it never repeats or skips an "
    +:+ "event, because a page is cut on a timestamp boundary; the one exception is a "
    +:+ "FULL page whose events all share a single `eventTime`, which is returned uncut, "
    +:+ "so raise `limit` if a pond records more than that in one millisecond):" +:+ nl
    +:+ "```" +:+ nl +:+ "get_lineage {pond:'audited', limit:50}" +:+ nl
    +:+ "get_lineage {pond:'audited', limit:50, before:'<oldest eventTime from the last "
    +:+ "page>'}" +:+ nl +:+ "... until truncated is false" +:+ nl +:+ "```" +:+ nl
    +:+ "**Catch up** instead with `since`, which is the opposite bound and is INCLUSIVE "
    +:+ "— pass the newest `eventTime` you already have and that one event comes back "
    +:+ "with anything newer:" +:+ nl +:+ "```" +:+ nl
    +:+ "get_lineage {pond:'audited', since:'2026-08-14T10:00:00Z'}" +:+ nl +:+ "```" +:+ nl
    +:+ "`malformed_lines` and `unreadable_files` are non-zero when the page is missing "
    +:+ "events that were recorded — a short answer never pretends to be a complete " +:+ "one."
    +:+ nl +:+ "Each operation records a START and a terminal (COMPLETE / FAIL / ABORT) event "
    +:+ "sharing one `run.runId`. Standard facets carry the SQL shape (`job.facets.sql`, "
    +:+ "literals redacted), the engine, the error message on a failure, each dataset's "
    +:+ "DuckLake snapshot (`inputs[].facets.version`), and its columns "
    +:+ "(`inputs[]`/`outputs[].facets.schema.fields` — name + the engine's own type). "
    +:+ "A dataset OUTSIDE the pond (an s3 object, a Parquet file, another catalog) "
    +:+ "carries no `schema` facet: those columns are not ours to state, and absent "
    +:+ "means unknown rather than empty. Latiq's own facets carry the caller "
    +:+ "(`run.facets.latiq_identity`), the pond (`job.facets.latiq_pond`), and the "
    +:+ "outcome + duration (`run.facets.latiq_query`, on the terminal event only)." +:+ nl
    +:+ "The events are canonical OpenLineage 2-0-2: hand them to any OpenLineage "
    +:+ "consumer unchanged." +:+ nl +:+ nl
    +:+ "**Reading the identity facet.** Verified caller:" +:+ nl +:+ "```json" +:+ nl +:+ "{ "
    +:+ dq +:+ "agentId" +:+ dq +:+ ": " +:+ dq +:+ "analytics-agent-7" +:+ dq +:+ ", " +:+ dq
    +:+ "agentIdVerified" +:+ dq +:+ ": false," +:+ nl +:+ "  " +:+ dq +:+ "issuer" +:+ dq
    +:+ ": " +:+ dq +:+ "https://idp.example/realms/latiq" +:+ dq +:+ "," +:+ nl +:+ "  " +:+ dq
    +:+ "subject" +:+ dq +:+ ": " +:+ dq +:+ "d6d75715-…" +:+ dq +:+ ", " +:+ dq +:+ "verified"
    +:+ dq +:+ ": true }" +:+ nl +:+ "```" +:+ nl
    +:+ "`subject`/`issuer` come from the caller's bearer token; `agentId` is the "
    +:+ "claimed leaf header and `agentIdVerified` says whether that leaf itself was "
    +:+ "backed by the token. Where no issuer is configured there is nothing to verify, "
    +:+ "so `verified` is false and `subject` and `issuer` are **null** while `agentId` "
    +:+ "still names the caller — a null subject means the deployment proved nothing, "
    +:+ "not that nobody ran the query. Check `verified` before you attribute anything "
    +:+ "to `subject`." +:+ nl +:+ nl
    +:+ "**Complements attribution, not a replacement.** `ducklake_snapshots('<pond>')` "
    +:+ "says who committed a snapshot; lineage says which run produced it and what that "
    +:+ "run read. See latiq://recipes/attribution-lookup." +:+ nl +:+ nl
    +:+ "**To filter or aggregate the WHOLE trail** rather than page it, query the files "
    +:+ "directly — get_lineage returns their directory as `lineage_dir`:" +:+ nl +:+ "```sql"
    +:+ nl +:+ "SELECT job.name, run.facets.latiq_query.outcome, count(" +:+ "*" +:+ ")" +:+ nl
    +:+ "FROM read_json_auto('<lineage_dir>/*.jsonl')" +:+ nl +:+ "GROUP BY 1, 2;" +:+ nl
    +:+ "```" +:+ nl
    +:+ "**Watch for:** the facets present differ per event, so DuckDB's inferred struct "
    +:+ "type can shift between queries — SELECT the fields you need, and don't rely "
    +:+ "on a stable schema across runs. Only `*.jsonl` files are complete; a `.tmp-` "
    +:+ "file is a batch still being written." +:+ nl +:+ nl
    +:+ "**What lineage does NOT promise.**" +:+ nl
    +:+ "- It is a record, not proof. The events are ordinary files under `lineage_dir` "
    +:+ "in the pond, and write_query runs arbitrary SQL — so anything that can write "
    +:+ "in the pond can also add, overwrite or remove events. Use it to understand what "
    +:+ "happened; do not present it as evidence nobody could have altered." +:+ nl
    +:+ "- It starts at allocation. Nothing is recorded for a pond that was allocated "
    +:+ "without `lineage`, and it cannot be switched on afterwards — you would have "
    +:+ "to redo the work in a new pond." +:+ nl
    +:+ "- It dies with the pond. drop_pond removes the lineage directory along with the "
    +:+ "data; read what you need first." +:+ nl
    +:+ "- It covers queries, not intent. The SQL shape is recorded with literals "
    +:+ "redacted, so the trail shows what ran, not the values it ran on.".

Definition datasets_body : string :=
  "# Datasets" +:+ nl +:+ nl
    +:+ "A **dataset** is a curated file this deployment already knows how to fetch — "
    +:+ "you name it, Latiq loads it into your pond. Nothing is queried live: "
    +:+ "`load_dataset` copies the data in, and from then on it is ordinary pond data." +:+ nl
    +:+ nl +:+ "```" +:+ nl
    +:+ "list_datasets {}                        # everything registered here" +:+ nl
    +:+ "list_datasets {query:'tpch'}            # filter by name/tag; '#sample' finds "
    +:+ "the small ones" +:+ nl
    +:+ "load_dataset {pond:'p', dataset:'tpch'} # -> a SCHEMA named after the dataset" +:+ nl
    +:+ "read_query {pond:'p', sql:'SELECT count(" +:+ "*" +:+ ") FROM tpch.orders'}" +:+ nl
    +:+ "```" +:+ nl +:+ nl
    +:+ "**A dataset lands in its own schema**, so its tables are `<dataset>.<table>` "
    +:+ "— `tpch.orders`, not `orders`. `describe_pond` shows them after the load." +:+ nl
    +:+ nl +:+ "**`dataset_not_found` means the reference is not registered in THIS "
    +:+ "deployment.** The catalogue differs per deployment and is an operator's to "
    +:+ "extend, so:" +:+ nl
    +:+ "- Call **list_datasets** and use a name from the answer — do not guess, and "
    +:+ "do not retry the same reference." +:+ nl
    +:+ "- If what you need is a URL rather than a registered dataset, read it directly "
    +:+ "instead: `write_query {sql:" +:+ dq
    +:+ "CREATE TABLE raw AS SELECT * FROM read_csv('https://…')" +:+ dq
    +:+ "}` (latiq://recipes/data-ingestion-m1)." +:+ nl
    +:+ "- For an external database or lakehouse, that is a **catalog**, not a dataset: "
    +:+ "list_catalogs → describe_catalog → pull_catalog "
    +:+ "(latiq://recipes/external-data).".

Definition troubleshooting_body : string :=
  "# Troubleshooting" +:+ nl +:+ nl
    +:+ "Every page here is keyed by the `kind` on the error envelope you received — "
    +:+ "match the kind, don't browse." +:+ nl +:+ nl
    +:+ "**Before you pick a page, read the envelope's machine-readable fields** — "
    +:+ "they are authoritative over the prose and usually decide the next move on their "
    +:+ "own: `retryable` (`as_is` = re-send unchanged, `after_change` = fix the "
    +:+ "arguments first, `never` = this call cannot work and `suggest` names the "
    +:+ "different call that can, `after_provisioning` = the call is right and the "
    +:+ "deployment is missing something, so escalate and stop), `audience` (`operator` "
    +:+ "= report it and stop) and `facts` (branch on the values; don't parse numbers "
    +:+ "out of `message`). The full contract is in latiq://guidance." +:+ nl +:+ nl
    +:+ "- latiq://troubleshooting/pond-not-found — `pond_not_found`: the pond id/name "
    +:+ "doesn't resolve." +:+ nl
    +:+ "- latiq://troubleshooting/pond-unavailable — `pond_unavailable`: the pond "
    +:+ "exists but no node is serving it, or allocate_pond could not create one on the "
    +:+ "node it was assigned to." +:+ nl
    +:+ "- latiq://troubleshooting/catalog-error — `catalog_error`: a "
    +:+ "table/column/function in your SQL doesn't exist, or already does." +:+ nl
    +:+ "- latiq://troubleshooting/source-unavailable — `source_unavailable`: a URL or "
    +:+ "path in your SQL could not be read." +:+ nl
    +:+ "- latiq://troubleshooting/large-results — `result_cap_exceeded`: results "
    +:+ "exceeded the inline cap." +:+ nl
    +:+ "- latiq://troubleshooting/timeouts — `query_timeout` and `query_cancelled`: a "
    +:+ "query was stopped before it finished." +:+ nl
    +:+ "- latiq://troubleshooting/unauthenticated — `unauthenticated`: your token was "
    +:+ "missing, expired or rejected." +:+ nl
    +:+ "- latiq://troubleshooting/capability-unavailable — `capability_unavailable`: "
    +:+ "your call was fine; this deployment has not installed something it needs." +:+ nl
    +:+ "- latiq://troubleshooting/internal — `internal` and `storage`: Latiq itself "
    +:+ "failed. Nothing in your SQL fixes it." +:+ nl
    +:+ "- latiq://troubleshooting/conflicts — concurrent writes conflicted. No error "
    +:+ "kind: Latiq retries these for you." +:+ nl
    +:+ "- latiq://troubleshooting/read-only-violation — `read_only_violation`: a "
    +:+ "write was sent to read_query.".

Definition troubleshooting_catalog_error_body : string :=
  "# Catalog error (`catalog_error`)" +:+ nl +:+ nl
    +:+ "Your statement is valid SQL. A **name** in it does not match this pond: a "
    +:+ "table, column, schema or function that isn't there — or one that is there "
    +:+ "when you asked to create it." +:+ nl +:+ nl +:+ "## The name doesn't exist" +:+ nl
    +:+ "`Catalog Error: Table with name nope does not exist!`, `Binder Error: "
    +:+ "Referenced column " +:+ dq +:+ "qty" +:+ dq +:+ " not found`." +:+ nl
    +:+ "1. **Look, don't guess:** `read_query {sql:'SHOW TABLES'}`, `read_query "
    +:+ "{sql:'DESCRIBE orders'}`, or **describe_pond** for the whole schema in one call."
    +:+ nl +:+ "2. Ponds are separate — a table in another pond is not visible here. "
    +:+ "`list_ponds` if you may be in the wrong one." +:+ nl
    +:+ "3. If it genuinely isn't there, create it with **write_query** (`CREATE TABLE "
    +:+ "…`, or `CREATE TABLE … AS SELECT …`), or bring the data in with "
    +:+ "load_dataset / pull_catalog (latiq://recipes/external-data)." +:+ nl +:+ nl
    +:+ "## The name already exists" +:+ nl
    +:+ "`Catalog Error: Table with name t already exists!` — from `CREATE TABLE t " +:+ "…`."
    +:+ nl +:+ "- **Do not retry the same statement.** It will fail identically forever; this "
    +:+ "is not a transient error." +:+ nl
    +:+ "- Choose: a different name, `CREATE TABLE IF NOT EXISTS t …` (keep what's "
    +:+ "there), `CREATE OR REPLACE TABLE t …` (discard what's there — destructive), "
    +:+ "or `INSERT INTO t …` if you meant to add rows to it." +:+ nl
    +:+ "- Another agent may have created it since you last looked. `DESCRIBE t` before "
    +:+ "you replace anything: ponds are shared, and CREATE OR REPLACE destroys someone "
    +:+ "else's table without asking." +:+ nl +:+ nl +:+ "## Functions" +:+ nl
    +:+ "`Binder Error: No function matches the given name and argument types` — the "
    +:+ "function name or its argument types are wrong, not the SQL. See latiq://dialect."
    +:+ nl +:+ nl
    +:+ "This is never a syntax problem (that arrives as `parse_error`) and never "
    +:+ "something an operator can fix for you.".

Definition troubleshooting_source_unavailable_body : string :=
  "# Source unavailable (`source_unavailable`)" +:+ nl +:+ nl
    +:+ "The statement named a data source outside the pond — a URL, an object-store "
    +:+ "path, a file — and the engine could not read it: `IO Error: Could not connect "
    +:+ "to server …`, `HTTP Error: … (404)`." +:+ nl +:+ nl
    +:+ "**Nothing in Latiq is broken, and this is not the pond's storage.** The address "
    +:+ "is yours, in your SQL, so the fix is too:" +:+ nl
    +:+ "1. **Check the address** — spelling, scheme, host, bucket, the file actually "
    +:+ "being there. `read_csv('http://127.0.0.1:9/none.csv')` fails for the obvious "
    +:+ "reason." +:+ nl
    +:+ "2. **Check it is reachable from the NODE**, not from you — the node's network "
    +:+ "decides, and it is not yours. Your laptop's localhost and your VPN's private "
    +:+ "hosts are not the node's. There is no URI allowlist: a source is refused "
    +:+ "because it could not be read, never because it was disallowed." +:+ nl
    +:+ "3. **Credentials:** Latiq attaches none to a URL in your SQL, so anything "
    +:+ "requiring authentication fails here. For those use **pull_catalog** with "
    +:+ "`set:{…}` (used once, never stored) — see latiq://recipes/external-data." +:+ nl
    +:+ "4. **Retry once, not repeatedly.** A transient network fault is worth one "
    +:+ "retry; a second identical failure is the source, and repeating it will not "
    +:+ "change that." +:+ nl +:+ nl
    +:+ "Once the data is in the pond it can't fail this way again: `CREATE TABLE raw AS "
    +:+ "SELECT * FROM read_csv('<url>')` copies it in, and later queries read the pond.".

Definition troubleshooting_pond_not_found_body : string :=
  "# Pond not found (`pond_not_found`)" +:+ nl +:+ nl
    +:+ "The pond id or name doesn't exist in this deployment." +:+ nl
    +:+ "- Call **list_ponds** to see what exists (names + ids)." +:+ nl
    +:+ "- Call **allocate_pond** to create a new one." +:+ nl
    +:+ "- Check spelling; pond refs accept either the UUID or the human name.".

Definition troubleshooting_pond_unavailable_body : string :=
  "# Pond unavailable (`pond_unavailable`)" +:+ nl +:+ nl
    +:+ "The pond is still in the registry — its name resolves and list_ponds shows it "
    +:+ "— but the node that owns it is no longer registered, so nothing can reach its "
    +:+ "files. This is NOT the same as a missing pond, and it is not something you can "
    +:+ "fix from here:" +:+ nl
    +:+ "- **Do not** allocate a replacement under the same intent and assume the data "
    +:+ "moved. It did not; the old pond's tables are on a node this deployment cannot "
    +:+ "see." +:+ nl
    +:+ "- An empty answer would have been a plausible lie, which is why you get an "
    +:+ "error instead." +:+ nl
    +:+ "- Ask an operator. They can bring the node back (`latiq node list`), or, if it "
    +:+ "is gone for good, remove the stale record with `latiq pond forget <pond> "
    +:+ "--confirm` — which deletes the registry row only, never the data on the "
    +:+ "departed node." +:+ nl
    +:+ "- Work in a different pond in the meantime: **list_ponds**, or "
    +:+ "**allocate_pond** for a fresh one." +:+ nl +:+ nl
    +:+ "## The same error from allocate_pond" +:+ nl +:+ nl
    +:+ "Allocation is eager: the control plane picks a node, and that node must create "
    +:+ "the pond's storage before you are told you have one. If it cannot be reached, "
    +:+ "**the pond was not created** — and the message says so, along with what "
    +:+ "happened to the assignment:" +:+ nl
    +:+ "- **'the assignment has been rolled back'** — nothing was left behind and the "
    +:+ "name is free. Retry allocate_pond, the same name and all. If it keeps failing, "
    +:+ "that node is down and only an operator can bring it back; use a different pond "
    +:+ "in the meantime." +:+ nl
    +:+ "- **'may still exist'** — the rollback itself failed, so a registry row with "
    +:+ "that name may survive with no storage behind it. Retry under a DIFFERENT name, "
    +:+ "and tell an operator: `latiq pond forget <pond> --confirm` removes the stranded "
    +:+ "record." +:+ nl +:+ nl
    +:+ "You are not seeing a half-created pond either way. The eagerness is the point: "
    +:+ "the alternative is a pond id that works until your first write.".

Definition troubleshooting_large_results_body : string :=
  "# Result cap exceeded (`result_cap_exceeded`)" +:+ nl +:+ nl
    +:+ "Your read returned more rows than the inline cap (~10k). Narrow with "
    +:+ "WHERE/LIMIT, aggregate server-side (GROUP BY/count/sum), or materialize with "
    +:+ "CREATE TABLE AS SELECT and query the smaller table." +:+ nl +:+ nl
    +:+ "**Read the message carefully — it comes in two forms, and only one of them "
    +:+ "names a row count you can size from.** `Result has N rows` is the true total: "
    +:+ "the whole result was built before the cap was checked, so N is exact. `Result "
    +:+ "has more than N rows` means collection STOPPED at the cap and the total is "
    +:+ "genuinely unknown — N is the cap, not a measurement, and a result of 20 000 "
    +:+ "rows and one of a billion both say it. Never narrow by a little on the strength "
    +:+ "of that number; get a real one from `SELECT count(" +:+ "*"
    +:+ ")` or explain_query's `estimated_rows` first." +:+ nl +:+ nl
    +:+ "**Size it first with explain_query**, so the next attempt is not another guess. "
    +:+ "In its response: `estimated_rows` is how many rows the query would return — "
    +:+ "if that is still far over ~10k, narrowing is not enough and you want an "
    +:+ "aggregate or a CREATE TABLE AS SELECT. `scan_operations` names each table read "
    +:+ "and whether it was a `full_scan`, and `warnings`/`suggestions` point at the "
    +:+ "table to filter. All of it is the planner ESTIMATING, not measuring — use it "
    +:+ "to choose between approaches, not to predict an exact row count. See "
    +:+ "latiq://recipes/large-results.".

Definition troubleshooting_timeouts_body : string :=
  "# Query stopped (`query_timeout`, `query_cancelled`)" +:+ nl +:+ nl
    +:+ "Your statement ran past the timeout in effect for it and was stopped. The error "
    +:+ "names two numbers: the timeout that was APPLIED, and the maximum this node "
    +:+ "allows." +:+ nl +:+ nl
    +:+ "**How the timeout is decided.** `read_query` and `write_query` take an optional "
    +:+ "`timeout_ms`. Omit it and the node's default applies. Ask for more than the "
    +:+ "node's maximum and you are CLAMPED to that maximum — the query still runs, it "
    +:+ "is never refused — so read `_meta.timeout_ms` on every successful result to "
    +:+ "see what was actually in effect." +:+ nl +:+ nl
    +:+ "**Three levers, in order of cost:**" +:+ nl
    +:+ "1. **Retry with a larger `timeout_ms`**, up to the node's maximum. Cheapest "
    +:+ "when the work is genuinely large and you simply under-asked." +:+ nl
    +:+ "2. **Narrow the query** — a WHERE on a selective column, a LIMIT, fewer "
    +:+ "columns, or aggregate server-side (GROUP BY/count/sum) instead of scanning. "
    +:+ "Call explain_query first to find the heavy operation: the `scan_operations` "
    +:+ "entry with the largest `estimated_rows_scanned` — especially one whose "
    +:+ "`scan_type` is `full_scan` — is what the time went on, and "
    +:+ "`warnings`/`suggestions` name that table. Note explain estimates ROWS, never "
    +:+ "TIME: nothing in that response predicts a duration, so a big scan is a reason "
    +:+ "to narrow, not a measured cost." +:+ nl
    +:+ "3. **If it already timed out AT the maximum**, a larger `timeout_ms` is not "
    +:+ "available: the work is too large for this pond's tier. Ask an operator to "
    +:+ "re-tier the pond." +:+ nl +:+ nl
    +:+ "`query_timeout` and `query_cancelled` are different: the first is the node's "
    +:+ "deadline, the second is somebody asking for the query to stop. Only the first "
    +:+ "is fixed by asking for more time." +:+ nl +:+ nl +:+ "## If you got `query_cancelled`"
    +:+ nl +:+ nl
    +:+ "Someone sent `notifications/cancelled` for that request, or the client that "
    +:+ "issued it went away. The query really was stopped — a partial result was not "
    +:+ "returned and a write was rolled back, so nothing half-done is in the pond. **Do "
    +:+ "not automatically retry it:** a cancel is a decision, and re-issuing the same "
    +:+ "statement overrides it. Re-issue only if you still need the result and nothing "
    +:+ "has since told you to stop.".

Definition troubleshooting_conflicts_body : string :=
  "# Write conflicts" +:+ nl +:+ nl
    +:+ "Multiple agents write through DuckLake's transactional model. Conflicting "
    +:+ "writes auto-retry against the latest snapshot; expect occasional snapshot "
    +:+ "bumps. If you need strict ordering, coordinate at the application layer (e.g. "
    +:+ "read `ducklake_snapshots('<pond>')` to see the latest writer before extending a "
    +:+ "table).".

Definition troubleshooting_unauthenticated_body : string :=
  "# Unauthenticated (`unauthenticated`)" +:+ nl +:+ nl
    +:+ "This deployment verifies callers, and your request did not carry a token it "
    +:+ "accepts. The transport answered before any SQL ran, so nothing happened in any "
    +:+ "pond." +:+ nl +:+ nl
    +:+ "**Identity arrives in the TRANSPORT, never in a tool argument.** There is no "
    +:+ "tool that takes a token or an agent id, so no retry with different arguments "
    +:+ "can fix this — the `Authorization: Bearer` header is the verified principal "
    +:+ "and the `latiq-agent-id` header is a claim carrying no authority." +:+ nl +:+ nl
    +:+ "1. **The token is your client's to supply, not yours to construct.** If it "
    +:+ "expired, your client refreshes it and re-sends; ask it to, or stop and report "
    +:+ "that you have no valid credential. Do not invent, edit or reuse a token from a "
    +:+ "resource or a table." +:+ nl
    +:+ "2. **Check the audience.** A token minted for another service is rejected here "
    +:+ "even when it is perfectly valid. `/.well-known/oauth-protected-resource` on "
    +:+ "this server names the issuers and the resource identifier this deployment "
    +:+ "accepts." +:+ nl
    +:+ "3. **Do not retry the same token in a loop.** Nothing about it changes between "
    +:+ "attempts, and a repeated rejection is worth reporting once, not fifty times." +:+ nl
    +:+ nl +:+ "If you were working without a token until now, the deployment has an issuer "
    +:+ "configured and relaxed identity does not apply here — that is a deployment's "
    +:+ "choice and an operator's to change, not yours.".

Definition troubleshooting_capability_unavailable_body : string :=
  "# Capability unavailable (`capability_unavailable`)" +:+ nl +:+ nl
    +:+ "**You did nothing wrong.** The call is well-formed, the pond is fine, and the "
    +:+ "SQL is fine. This deployment has simply not installed a capability the call "
    +:+ "needs — today that is always a DuckDB extension that is not in the node's "
    +:+ "cache. Nodes never download an extension while serving a request (an unbounded "
    +:+ "wait on an external host, and impossible where there is no egress), so a "
    +:+ "missing one fails immediately instead of hanging." +:+ nl +:+ nl
    +:+ "The envelope says exactly this in fields you can branch on: `audience: "
    +:+ "operator` and **`retryable: after_provisioning`** — a value that appears on "
    +:+ "no other kind. `facts.capability` names the missing extension." +:+ nl +:+ nl
    +:+ "## What to do" +:+ nl +:+ nl
    +:+ "1. **Do not retry, and do not rewrite the call.** Neither changes anything: the "
    +:+ "same call will fail identically until somebody installs the capability, and "
    +:+ "there is nothing wrong with the call to correct." +:+ nl
    +:+ "2. **Report it upwards, and say what is missing.** Quote `facts.capability` and "
    +:+ "the `trace_id`. Your " +:+ dq +:+ "operator" +:+ dq
    +:+ " is whoever runs this deployment — a human in the loop, or the "
    +:+ "higher-privilege agent that dispatched you, which may be able to install it and "
    +:+ "re-dispatch. Surfacing it precisely IS your move; there is no approval channel "
    +:+ "for you to wait on, so do not block." +:+ nl
    +:+ "3. **Keep working on what does not need it.** A pond without that extension "
    +:+ "still reads CSV, Parquet and JSON, and every other tool still works. Report the "
    +:+ "blocked sub-goal; don't abandon the task." +:+ nl
    +:+ "4. **Re-send the same call, unchanged, only when you are told the capability is "
    +:+ "there.** That is the whole meaning of `after_provisioning`." +:+ nl +:+ nl
    +:+ "**What an operator does:** `latiq warm-extensions` on the node, with network "
    +:+ "access, then restart it (the container image bakes the same step in at build "
    +:+ "time). `latiq://dialect` lists what a deployment ships and which extensions "
    +:+ "must be asked for at allocate_pond — those are fixed for a pond's life, so a "
    +:+ "pond that never requested one cannot gain it later; a new pond with "
    +:+ "`extensions: [...]` is the way, once the node has it cached." +:+ nl +:+ nl
    +:+ "Not to be confused with `unsupported_feature` (the engine will NEVER have it "
    +:+ "— delete the clause), `internal`/`storage` (something of Latiq's broke) or "
    +:+ "`source_unavailable` (an address in your SQL could not be read).".

Definition troubleshooting_internal_body : string :=
  "# Internal (`internal`) and storage (`storage`) failures" +:+ nl +:+ nl
    +:+ "**This one is ours, not yours.** `internal` is a failure Latiq could not "
    +:+ "classify; `storage` is the pond's own files or catalog failing underneath it (a "
    +:+ "full disk, a missing data directory, an unreadable catalog). Neither is a "
    +:+ "statement you can rewrite into working. If your SQL had been the problem you "
    +:+ "would have a kind that names it — `parse_error`, `catalog_error`, "
    +:+ "`invalid_value`, `source_unavailable`." +:+ nl +:+ nl +:+ "**What to do, in order:**"
    +:+ nl
    +:+ "1. **Retry once.** Some are transient. A second identical failure is not, and a "
    +:+ "third is noise." +:+ nl
    +:+ "2. **Check the write actually failed.** A write that errors is rolled back, so "
    +:+ "the pond should be unchanged — but confirm rather than assume before you "
    +:+ "re-send it: `SELECT snapshot_id, author, commit_message FROM "
    +:+ "ducklake_snapshots('<pond>') ORDER BY snapshot_id DESC LIMIT 5`. If your change "
    +:+ "is already there, re-sending it duplicates the work." +:+ nl
    +:+ "3. **Try a different pond** to tell a broken pond from a broken node: "
    +:+ "allocate_pond and run a trivial `SELECT 1`. If that works, the first pond's "
    +:+ "storage is the problem; if it doesn't, the node is." +:+ nl
    +:+ "4. **Report it and stop.** Quote the `message` verbatim to your operator — it "
    +:+ "carries the detail they need and you cannot act on. Working around a storage "
    +:+ "failure by writing somewhere else is how data ends up in a pond nobody is "
    +:+ "looking after." +:+ nl +:+ nl
    +:+ "**Do not** treat this as a permissions or a not-found answer. `internal` never "
    +:+ "means " +:+ dq +:+ "you may not" +:+ dq +:+ " and never means " +:+ dq
    +:+ "it isn't there" +:+ dq
    +:+ "; assuming either is how an agent talks itself into recreating data that still "
    +:+ "exists.".

Definition troubleshooting_read_only_violation_body : string :=
  "# Read-only violation (`read_only_violation`)" +:+ nl +:+ nl
    +:+ "read_query only runs SELECT and read-only metadata statements. For "
    +:+ "INSERT/UPDATE/DELETE/DDL, use **write_query** — your writes there are "
    +:+ "attributed to your identity." +:+ nl +:+ nl
    +:+ "You get this error only for a statement that really is recognisable as a write "
    +:+ "(including a hidden one: `WITH … INSERT`, `EXPLAIN ANALYZE`, a second "
    +:+ "statement after a `;`, or `BEGIN`/`COMMIT`/`ROLLBACK`, which Latiq owns). A "
    +:+ "statement it cannot recognise at all is NOT reported here — it goes to the "
    +:+ "parser and comes back as `parse_error` — so if you see this kind, re-read "
    +:+ "your SQL for a write rather than assuming a typo.".

Definition DIALECT_HEAD : string :=
  "# Latiq SQL dialect" +:+ nl +:+ nl
    +:+ "Latiq runs ANSI SQL on a DuckDB engine over DuckLake storage." +:+ nl +:+ nl
    +:+ "- **read_query** accepts SELECT and read-only metadata (SHOW/DESCRIBE). Writes "
    +:+ "are rejected — use write_query." +:+ nl
    +:+ "- **write_query** accepts INSERT/UPDATE/DELETE and DDL (CREATE/DROP/ALTER, "
    +:+ "CREATE TABLE AS SELECT)." +:+ nl
    +:+ "- **Transaction control is Latiq's.** Don't send "
    +:+ "`BEGIN`/`COMMIT`/`ROLLBACK`/`START TRANSACTION`: read_query rejects them, and "
    +:+ "in write_query they cut short the transaction Latiq attributes your write in "
    +:+ "(nothing rejects them there — it silently costs you the author). Several "
    +:+ "plain statements in one call are fine; they commit together as one snapshot." +:+ nl
    +:+ "- Your tables live in the pond's default schema; query them directly (you can "
    +:+ "also `CREATE SCHEMA` for more)." +:+ nl
    +:+ "- Snapshots/history/attribution are native DuckLake — `SELECT snapshot_id, "
    +:+ "author, commit_message, commit_extra_info FROM ducklake_snapshots('<pond>')` "
    +:+ "(`commit_extra_info` is where verified-vs-claimed shows up). List "
    +:+ "tables/columns with `SHOW TABLES` / `DESCRIBE <table>` / "
    +:+ "`information_schema.columns`; a column's stored COMMENT comes back from "
    +:+ "`duckdb_columns()`." +:+ nl
    +:+ "- Prefer ANSI constructs; DuckDB extensions are tolerated but reduce "
    +:+ "portability." +:+ nl +:+ nl.

Definition DIALECT_TAIL : string :=
  "## Values, types and constraints" +:+ nl +:+ nl
    +:+ "An `invalid_value` error is about the DATA in your statement, not its syntax "
    +:+ "— the statement parsed and the names resolved." +:+ nl
    +:+ "- **Type conversion:** a literal or column is not convertible to the type it is "
    +:+ "used as (`Conversion Error: Could not convert string 'notanint' to INT32`). "
    +:+ "Quoted text is not coerced into a numeric column because it looks numeric. "
    +:+ "Check the target with `DESCRIBE <table>` and pass the right type, or CAST "
    +:+ "explicitly: `CAST('7' AS INTEGER)`." +:+ nl
    +:+ "- **Constraints:** the value is well-typed but breaks a rule on the table — "
    +:+ "primary key, unique, not null, check (`Constraint Error: Duplicate key …`). "
    +:+ "Read the conflicting row first (`SELECT * FROM t WHERE <key> = <value>`), then "
    +:+ "correct the value, UPDATE the existing row, or use `INSERT OR REPLACE` / `ON "
    +:+ "CONFLICT`." +:+ nl +:+ nl
    +:+ "Neither is fixed by retrying the same statement, and neither is a "
    +:+ "`parse_error`: if your statement had a syntax problem you would have been told "
    +:+ "`parse_error` with DuckDB's `Parser Error` text." +:+ nl +:+ nl
    +:+ "## What a pond does NOT have (`unsupported_feature`)" +:+ nl +:+ nl
    +:+ "A pond is DuckLake storage, and DuckLake implements a subset of DuckDB's DDL. "
    +:+ "These parse, and are then REFUSED — `unsupported_feature`, `audience: agent`, "
    +:+ "`retryable: after_change`, with the rejected thing in `facts.feature`:" +:+ nl
    +:+ "- **`PRIMARY KEY` / `UNIQUE` constraints** — `CREATE TABLE t(id INTEGER "
    +:+ "PRIMARY KEY)` fails. Declare `id INTEGER` and check uniqueness with a query "
    +:+ "when you need to: `SELECT id, count(" +:+ "*" +:+ ") FROM t GROUP BY id HAVING count("
    +:+ "*" +:+ ") > 1`." +:+ nl
    +:+ "- **`CHECK` constraints** — validate in the INSERT (`WHERE`) or with a read "
    +:+ "afterwards." +:+ nl
    +:+ "- **Indexes** (`CREATE INDEX`), **sequences** (`CREATE SEQUENCE`, `nextval`) "
    +:+ "and **generated columns**. For a surrogate key, generate the value in the "
    +:+ "INSERT — `row_number() OVER ()`, a hash, or a UUID." +:+ nl
    +:+ "- **Transaction control** — `BEGIN`/`COMMIT`/`ROLLBACK`/`START TRANSACTION`, "
    +:+ "for the reason above: the transaction is Latiq's. If one of yours reached "
    +:+ "write_query, part of the statement may already have committed — check the "
    +:+ "table before re-sending." +:+ nl
    +:+ "`NOT NULL` and `DEFAULT` **are** supported, and `NOT NULL` is enforced (a "
    +:+ "violation is `invalid_value`, not this). The fix for `unsupported_feature` is "
    +:+ "always the same shape: delete the clause the message names and re-send. The "
    +:+ "identical statement can never succeed, so do not retry it unchanged.".

Definition capabilities_intro : string :=
  "## What this pond can already read and reach" +:+ nl +:+ nl
    +:+ "No operator step and no install: this is what a Latiq deployment ships with. "
    +:+ "**CSV** is DuckDB's own core reader (`read_csv`) and is always available — "
    +:+ "everything below is an extension we ship. Three states, and the difference is "
    +:+ "what YOU have to do: *always loaded* is simply there; *ask at allocation* has "
    +:+ "to be requested in `allocate_pond { extensions: [...] }` and **cannot be added "
    +:+ "to a pond that already exists**, so decide before you allocate; *via "
    +:+ "`pull_catalog`* is reached through the catalog tools, not by requesting an "
    +:+ "extension." +:+ nl +:+ nl.

Definition capabilities_outro : string :=
  "Read a remote file straight from SQL — `SELECT * FROM "
    +:+ "read_csv('https://…/x.csv')`, `… FROM 's3://bucket/x.parquet'` — or bring "
    +:+ "it in with load_dataset / pull_catalog. See latiq://recipes/data-ingestion-m1 "
    +:+ "and latiq://recipes/external-data." +:+ nl +:+ nl.

Definition INSTRUCTIONS : string :=
  "Latiq — the agent-native data pond. Allocate a pond (a private DuckLake "
    +:+ "workspace), write/read SQL with native attribution. Latiq owns the transaction "
    +:+ "around every write — send plain statements, never BEGIN/COMMIT/ROLLBACK. "
    +:+ "FIRST MOVES: list_ponds to find or join a workspace, or allocate_pond for a new "
    +:+ "one; then write_query/read_query. TO BRING IN EXTERNAL DATA: list_datasets + "
    +:+ "load_dataset for curated public files; or list_catalogs → describe_catalog "
    +:+ "→ pull_catalog for an external database/lakehouse (iceberg) — you pull a "
    +:+ "subset into the pond, then work there (external catalogs are never queried "
    +:+ "live). WHAT A POND READS WITH NO SETUP: CSV, Parquet and JSON, from http(s):// "
    +:+ "and s3:// as well as local paths. Geospatial, full-text search and IP types "
    +:+ "must be asked for at allocate_pond (`extensions: [...]`, fixed for the pond's "
    +:+ "life); Iceberg comes via pull_catalog. latiq://dialect has the full list. WHO "
    +:+ "YOU ARE: your identity arrives in the transport (bearer token + the "
    +:+ "`latiq-agent-id` header), never as a tool argument — no tool takes one, so "
    +:+ "don't look for it. PROVENANCE: pass `lineage: true` at allocate_pond if this "
    +:+ "pond's work must be explainable later; it cannot be enabled afterwards. Read "
    +:+ "latiq://guidance to start and latiq://recipes/external-data for the "
    +:+ "data-loading flow. ERRORS ARE STRUCTURED: alongside `message`/`suggest`/`see`, "
    +:+ "every failure carries `retryable` (`as_is` / `after_change` / `never` / "
    +:+ "`after_provisioning` — `never` means THIS call, and `suggest` names the "
    +:+ "different call that works; `after_provisioning` means your call was fine and "
    +:+ "this deployment has not installed a capability it needs, so tell whoever is "
    +:+ "orchestrating you and stop, rather than retrying), `audience` (`operator` means "
    +:+ "report it and stop) and `facts` (the numbers as values, so don't parse the "
    +:+ "sentence). Branch on those, not on the prose — latiq://guidance has the "
    +:+ "contract. Every tool result also carries `_meta.traceparent` IN ITS BODY — "
    +:+ "the W3C trace id of that call, the one to quote when asking an operator about "
    +:+ "it (a failure puts the same id on the envelope's own `traceparent`/`trace_id`). "
    +:+ "Prompts provide SOPs for common multi-agent workflows.".
End Text.

(** ** Resources *)

Module Resources.
Import Text.

Record Res := {
  uri : string;
  res_name : string;
  desc : string;
  static_body : string;
  generated : option string;
}.

Definition body (r : Res) : string :=
  match generated r with Some g => g | None => static_body r end.

(** How a shipped extension is had, as the page says it. *)
Definition how (e : Extensions.Ext) : string :=
  if existsb (String.eqb (Extensions.name e)) Extensions.OPTIONAL then
    " *" +:+ "(ask at allocation: `extensions: [" +:+ dq +:+ Extensions.name e +:+ dq +:+ "]`)" +:+ "*"
  else if existsb (String.eqb (Extensions.name e)) Extensions.CATALOG_DRIVEN then
    " *" +:+ "(via list_catalogs → describe_catalog → pull_catalog)" +:+ "*"
  else " *" +:+ "(always loaded)" +:+ "*".

Definition capability (e : Extensions.Ext) : string :=
  "- `" +:+ Extensions.name e +:+ "` — " +:+ Extensions.what e +:+ how e +:+ nl.

Definition capabilities : string :=
  capabilities_intro
    +:+ str_concat (map (fun b =>
          "**" +:+ Extensions.title b +:+ "**" +:+ nl
            +:+ str_concat (map capability (Extensions.in_bucket b)) +:+ nl) Extensions.BUCKETS)
    +:+ capabilities_outro.

Definition DIALECT_BODY : string := DIALECT_HEAD +:+ capabilities +:+ DIALECT_TAIL.

Definition RESOURCES : list Res :=
  [{| uri := "latiq://guidance";
      res_name := "Latiq guidance"; desc := "Top-level guidance for working in a pond";
      static_body := guidance_body; generated := None |};
   {| uri := "latiq://dialect";
      res_name := "SQL dialect"; desc := "What a pond can read and reach, and the SQL contract Latiq exposes";
      static_body := EmptyString; generated := Some DIALECT_BODY |};
   {| uri := "latiq://recipes/schema-design";
      res_name := "Recipe: schema design"; desc := "Authoring tables other agents can collaborate on";
      static_body := recipes_schema_design_body; generated := None |};
   {| uri := "latiq://recipes/large-results";
      res_name := "Recipe: large results"; desc := "Handling results larger than the inline cap";
      static_body := recipes_large_results_body; generated := None |};
   {| uri := "latiq://recipes/data-ingestion-m1";
      res_name := "Recipe: data ingestion"; desc := "Loading data into a pond with SQL";
      static_body := recipes_data_ingestion_m1_body; generated := None |};
   {| uri := "latiq://recipes/external-data";
      res_name := "Recipe: external data (datasets & catalogs)"; desc := "Bring outside data into a pond — curated files or external catalogs";
      static_body := recipes_external_data_body; generated := None |};
   {| uri := "latiq://recipes/attribution-lookup";
      res_name := "Recipe: attribution lookup"; desc := "Who wrote what in a pond";
      static_body := recipes_attribution_lookup_body; generated := None |};
   {| uri := "latiq://recipes/lineage";
      res_name := "Recipe: lineage lookup"; desc := "Where a table came from — the pond's OpenLineage trail";
      static_body := recipes_lineage_body; generated := None |};
   {| uri := "latiq://datasets";
      res_name := "Datasets"; desc := "The curated public files this deployment can load into a pond";
      static_body := datasets_body; generated := None |};
   {| uri := "latiq://troubleshooting";
      res_name := "Troubleshooting index"; desc := "Problem-keyed recovery guides";
      static_body := troubleshooting_body; generated := None |};
   {| uri := "latiq://troubleshooting/catalog-error";
      res_name := "Troubleshooting: catalog error"; desc := "A name in your SQL doesn't resolve — or already exists";
      static_body := troubleshooting_catalog_error_body; generated := None |};
   {| uri := "latiq://troubleshooting/source-unavailable";
      res_name := "Troubleshooting: source unavailable"; desc := "A URL or path in your SQL could not be read";
      static_body := troubleshooting_source_unavailable_body; generated := None |};
   {| uri := "latiq://troubleshooting/pond-not-found";
      res_name := "Troubleshooting: pond not found"; desc := "Recover from a missing pond";
      static_body := troubleshooting_pond_not_found_body; generated := None |};
   {| uri := "latiq://troubleshooting/pond-unavailable";
      res_name := "Troubleshooting: pond unavailable"; desc := "The pond exists but no node is serving it";
      static_body := troubleshooting_pond_unavailable_body; generated := None |};
   {| uri := "latiq://troubleshooting/large-results";
      res_name := "Troubleshooting: large results"; desc := "Results exceeded the inline cap";
      static_body := troubleshooting_large_results_body; generated := None |};
   {| uri := "latiq://troubleshooting/timeouts";
      res_name := "Troubleshooting: timeouts"; desc := "Break up slow queries";
      static_body := troubleshooting_timeouts_body; generated := None |};
   {| uri := "latiq://troubleshooting/conflicts";
      res_name := "Troubleshooting: write conflicts"; desc := "Concurrent writes that conflict";
      static_body := troubleshooting_conflicts_body; generated := None |};
   {| uri := "latiq://troubleshooting/unauthenticated";
      res_name := "Troubleshooting: unauthenticated"; desc := "Your token was missing, expired or rejected";
      static_body := troubleshooting_unauthenticated_body; generated := None |};
   {| uri := "latiq://troubleshooting/capability-unavailable";
      res_name := "Troubleshooting: capability unavailable"; desc := "Your call was correct; this deployment is missing something it needs";
      static_body := troubleshooting_capability_unavailable_body; generated := None |};
   {| uri := "latiq://troubleshooting/internal";
      res_name := "Troubleshooting: internal / storage failure"; desc := "Latiq itself failed — what is and isn't yours to fix";
      static_body := troubleshooting_internal_body; generated := None |};
   {| uri := "latiq://troubleshooting/read-only-violation";
      res_name := "Troubleshooting: read-only violation"; desc := "A write was sent to read_query";
      static_body := troubleshooting_read_only_violation_body; generated := None |}].

(** What [resources/list] and [resources/read] answer: address, name and description;
    text and address. *)
Definition list_resources : list (string * string * string) :=
  map (fun r => (uri r, res_name r, desc r)) RESOURCES.

Definition read_resource (u : string) : option (string * string) :=
  (fun r => (body r, uri r)) <$> find (fun r => String.eqb (uri r) u) RESOURCES.
End Resources.

(** ** Prompts *)

Module Prompts.

(** An argument by its name, its description and whether it is required. *)
Record PromptDef := {
  pd_name : string;
  pd_desc : string;
  pd_args : list (string * string * bool);
}.

Definition PROMPTS : list PromptDef :=
  [{| pd_name := "setup_multi_agent_pond";
      pd_desc := "Workflow to set up a pond for several agents to collaborate in";
      pd_args :=
        [("pond_name", "Name for the new pond, e.g. 'incident-7'.", true);
         ("domain", "What the pond is for, e.g. 'incident triage'. Defaults to 'the task'.", false)] |};
   {| pd_name := "discover_existing_pond";
      pd_desc := "Workflow to find and join an existing pond";
      pd_args :=
        [("search_term", "What the pond would be about — matched against pond names, e.g. 'incident'.", true);
         ("intent", "'read' to consume what is there, 'extend' to add tables. Defaults to 'read'.", false)] |};
   {| pd_name := "design_collaborative_schema";
      pd_desc := "Workflow to design tables other agents can read and extend";
      pd_args :=
        [("domain", "What the tables describe, e.g. 'security incidents'.", true)] |};
   {| pd_name := "recover_from_conflict";
      pd_desc := "Workflow to re-plan a write after another agent's write landed first";
      pd_args :=
        [("pond_name", "The pond you were writing to. Its NAME, not its id: the DuckLake catalog is "
          +:+ "attached under the pond name, so that is what ducklake_snapshots() takes.", true)] |}].

Definition list_prompts : list (string * string * list (string * string * bool)) :=
  map (fun p => (pd_name p, pd_desc p, pd_args p)) PROMPTS.

Inductive PromptError :=
| Unknown
| MissingArgument (prompt arg : string).

Section prompts.
Context `{!Floats}.

(** A given argument: a string that is not blank. *)
Definition given (args : list (string * Json)) (key : string) : option string :=
  v ← lookup_key key args; s ← as_str v;
  let t := trim s in if String.eqb t EmptyString then None else Some t.

Definition arg (args : list (string * Json)) (key def : string) : string :=
  default def (given args key).

Definition required (def : PromptDef) (args : list (string * Json)) (key : string) :
    result string PromptError :=
  ok_or (given args key) (MissingArgument (pd_name def) key).

Definition get_prompt (name : string) (args : list (string * Json)) : result string PromptError :=
  match find (fun p => String.eqb (pd_name p) name) PROMPTS with
  | None => Err Unknown
  | Some def =>
      match name with
      | "setup_multi_agent_pond" =>
          let? pond := required def args "pond_name" in
          let domain := arg args "domain" "the task" in
          Ok ("Set up a pond named '"
             +:+ pond
             +:+ "' for "
             +:+ domain
             +:+ " where several agents will collaborate:" +:+ nl +:+ "1. allocate_pond with name='"
             +:+ pond
             +:+ "'." +:+ nl +:+ "2. Design a self-describing schema: CREATE TABLE, then `COMMENT ON "
             +:+ "TABLE`/`COMMENT ON COLUMN` for each one — a `--` comment in the DDL is "
             +:+ "discarded and stores nothing. See latiq://recipes/schema-design." +:+ nl
             +:+ "3. Establish an attribution-lookup habit: agents read `ducklake_snapshots('"
             +:+ pond
             +:+ "')` to see who wrote what — and none of them wrap SQL in "
             +:+ "BEGIN/COMMIT/ROLLBACK, which ends Latiq's own transaction early and leaves the "
             +:+ "write with no author." +:+ nl
             +:+ "4. Coordinate writes; conflicts auto-retry (latiq://troubleshooting/conflicts).")
      | "discover_existing_pond" =>
          let? term := required def args "search_term" in
          let intent := arg args "intent" "read" in
          Ok ("Find an existing pond related to '"
             +:+ term
             +:+ "' (intent: "
             +:+ intent
             +:+ "):" +:+ nl +:+ "1. list_ponds and scan names/owners." +:+ nl
             +:+ "2. describe_pond on candidates to inspect tables." +:+ nl
             +:+ "3. read_query `SHOW TABLES` and `DESCRIBE <table>` for the shape, and `SELECT "
             +:+ "column_name, comment FROM duckdb_columns() WHERE table_name='<table>'` for what "
             +:+ "the author meant by each column." +:+ nl
             +:+ "4. For intent=extend: add new tables without colliding with existing ones, and "
             +:+ "COMMENT ON them as you go.")
      | "design_collaborative_schema" =>
          let? domain := required def args "domain" in
          Ok ("Design a schema for "
             +:+ domain
             +:+ " that other agents can read and extend:" +:+ nl
             +:+ "- Use clear, ANSI types; name tables/columns for cross-agent legibility." +:+ nl
             +:+ "- Document every table and column with a `COMMENT ON TABLE`/`COMMENT ON COLUMN` "
             +:+ "statement after the CREATE. Those are stored and readable (`SELECT column_name, "
             +:+ "comment FROM duckdb_columns()`); a `--` comment inside the CREATE is not stored "
             +:+ "at all." +:+ nl
             +:+ "- Prefer additive evolution; don't rename columns others may depend on." +:+ nl
             +:+ "See latiq://recipes/schema-design.")
      | "recover_from_conflict" =>
          let? pond := required def args "pond_name" in
          Ok ("Re-plan a write in pond '"
             +:+ pond
             +:+ "' after another agent's write landed first." +:+ nl +:+ nl
             +:+ "WHEN THIS APPLIES: there is no `write_conflict` error kind and nothing routes "
             +:+ "you here — Latiq retries conflicting writes for you against the latest "
             +:+ "snapshot. Use this when a write SUCCEEDED but not against the state you "
             +:+ "assumed: your UPDATE matched no rows, an INSERT hit a duplicate key, or a table "
             +:+ "changed shape under you. If you are holding a structured error instead, follow "
             +:+ "its `see` link; this is not that." +:+ nl +:+ nl
             +:+ "1. Re-read the current state: `SELECT max(snapshot_id) FROM ducklake_snapshots('"
             +:+ pond
             +:+ "')`." +:+ nl
             +:+ "2. Identify who wrote last: `SELECT snapshot_id, author, commit_message FROM "
             +:+ "ducklake_snapshots('"
             +:+ pond
             +:+ "') ORDER BY snapshot_id DESC LIMIT 5`." +:+ nl
             +:+ "3. Re-read the rows you were changing, re-plan against what is actually there, "
             +:+ "and retry as plain statements — a hand-rolled BEGIN/COMMIT does not help and "
             +:+ "costs you the author on the write." +:+ nl +:+ "See latiq://troubleshooting/conflicts.")
      | _ => Err Unknown
      end
  end.
End prompts.
End Prompts.

(** ** The tools as they are declared *)

Module Tools.
Record ToolDef := {
  td_name : string;
  td_title : string;
  td_description : string;
  read_only_hint : bool;
  destructive_hint : bool;
  idempotent_hint : bool;
}.

Definition allocate_pond : ToolDef :=
  {| td_name := "allocate_pond"; td_title := "Allocate pond";
     td_description :=
       "Allocate a pond — a private DuckLake SQL workspace. Optional `name`; returns "
        +:+ "`pond_id` + `pond_name`. Decide `lineage` NOW: it is fixed at allocation and "
        +:+ "can never be turned on later. See latiq://guidance.";
     read_only_hint := false; destructive_hint := false; idempotent_hint := false |}.

Definition describe_pond : ToolDef :=
  {| td_name := "describe_pond"; td_title := "Describe pond";
     td_description :=
       "A pond's metadata plus every table with its columns, row estimate and comment "
        +:+ "— the whole pond in one call. Pass `pond` (id or name). See latiq://guidance.";
     read_only_hint := true; destructive_hint := false; idempotent_hint := true |}.

Definition list_ponds : ToolDef :=
  {| td_name := "list_ponds"; td_title := "List ponds";
     td_description :=
       "List the deployment's ponds (id, name, owner). Ponds are shared — look here "
        +:+ "before allocating, then describe_pond a candidate.";
     read_only_hint := true; destructive_hint := false; idempotent_hint := true |}.

Definition drop_pond : ToolDef :=
  {| td_name := "drop_pond"; td_title := "Drop pond";
     td_description :=
       "Delete a pond and everything in it — tables, history and lineage — "
        +:+ "irreversibly. Requires `confirm: true`. Others may be working in it — check "
        +:+ "list_ponds first.";
     read_only_hint := false; destructive_hint := true; idempotent_hint := true |}.

Definition read_query : ToolDef :=
  {| td_name := "read_query"; td_title := "Read query";
     td_description :=
       "Run a read-only SQL statement (SELECT, SHOW, DESCRIBE) on a pond. Writes, DDL "
        +:+ "and transaction control belong in write_query. Results are capped (~10k rows): "
        +:+ "latiq://recipes/large-results.";
     read_only_hint := true; destructive_hint := false; idempotent_hint := true |}.

Definition write_query : ToolDef :=
  {| td_name := "write_query"; td_title := "Write query";
     td_description :=
       "Run a write or DDL SQL statement on a pond; attributed to your agent identity. "
        +:+ "Send plain statements — several are fine, but NEVER "
        +:+ "BEGIN/COMMIT/ROLLBACK/START TRANSACTION: your own COMMIT ends Latiq's "
        +:+ "transaction before the author is recorded, and the change lands in history with "
        +:+ "NO author. Documenting tables: latiq://recipes/schema-design. External files: "
        +:+ "latiq://recipes/data-ingestion-m1.";
     read_only_hint := false; destructive_hint := true; idempotent_hint := false |}.

Definition explain_query : ToolDef :=
  {| td_name := "explain_query"; td_title := "Explain query";
     td_description :=
       "Plan a statement WITHOUT running it: `estimated_rows`, `scan_operations`, "
        +:+ "`warnings`/`suggestions`, `raw_plan`. Planner ESTIMATES, not measurements, and "
        +:+ "rows never time. See latiq://recipes/large-results.";
     read_only_hint := true; destructive_hint := false; idempotent_hint := true |}.

Definition list_datasets : ToolDef :=
  {| td_name := "list_datasets"; td_title := "List datasets";
     td_description :=
       "Browse curated DATASETS — public files an operator registered — then "
        +:+ "load_dataset one into a pond. See latiq://recipes/external-data.";
     read_only_hint := true; destructive_hint := false; idempotent_hint := true |}.

Definition load_dataset : ToolDef :=
  {| td_name := "load_dataset"; td_title := "Load dataset";
     td_description :=
       "Copy a dataset's tables into a pond, under a SCHEMA named after it — query "
        +:+ "them as `<dataset>.<table>`. A write. See latiq://recipes/external-data.";
     read_only_hint := false; destructive_hint := true; idempotent_hint := false |}.

Definition list_catalogs : ToolDef :=
  {| td_name := "list_catalogs"; td_title := "List catalogs";
     td_description :=
       "Browse registered external CATALOGS (iceberg today), then describe_catalog its "
        +:+ "tables and pull_catalog a subset into a pond. See latiq://recipes/external-data.";
     read_only_hint := true; destructive_hint := false; idempotent_hint := true |}.

Definition describe_catalog : ToolDef :=
  {| td_name := "describe_catalog"; td_title := "Describe catalog";
     td_description :=
       "List an external catalog's tables — attached on `pond` transiently, then "
        +:+ "detached. Credentials in `set`, used once. See latiq://recipes/external-data.";
     read_only_hint := true; destructive_hint := false; idempotent_hint := true |}.

Definition pull_catalog : ToolDef :=
  {| td_name := "pull_catalog"; td_title := "Pull from catalog";
     td_description :=
       "Copy a subset of an external catalog INTO a pond: attach → your `query` (a "
        +:+ "CREATE TABLE naming the catalog) → detach. Credentials in `set`, used once. A "
        +:+ "write. See latiq://recipes/external-data.";
     read_only_hint := false; destructive_hint := true; idempotent_hint := false |}.

Definition get_lineage : ToolDef :=
  {| td_name := "get_lineage"; td_title := "Get lineage";
     td_description :=
       "Read a pond's OpenLineage provenance, newest first. Only a pond allocated with "
        +:+ "`lineage: true` records any — one without it errors rather than returning an "
        +:+ "empty page. `truncated`/`malformed_lines` mean the page is incomplete. See "
        +:+ "latiq://recipes/lineage.";
     read_only_hint := true; destructive_hint := false; idempotent_hint := true |}.

Definition TOOLS : list ToolDef :=
  [allocate_pond; describe_pond; list_ponds; drop_pond; read_query;
   write_query; explain_query; list_datasets; load_dataset; list_catalogs;
   describe_catalog; pull_catalog; get_lineage].
End Tools.

(** ** The handler of the protocol's other requests ([impl ServerHandler]) *)

Inductive HandlerError := ResourceNotFound (message : string) | InvalidParams (message : string).

Module Handler.
Section handler.
Context `{!Floats}.

Definition read_resource (u : string) : result (string * string) HandlerError :=
  ok_or (Resources.read_resource u) (ResourceNotFound ("unknown resource: " +:+ u)).

Definition get_prompt (name : string) (arguments : option (list (string * Json))) :
    result string HandlerError :=
  let args := default [] arguments in
  map_err (fun e =>
    match e with
    | Prompts.Unknown => InvalidParams ("unknown prompt: " +:+ name)
    | Prompts.MissingArgument prompt arg =>
        InvalidParams ("prompt " +:+ prompt +:+ " requires the argument '" +:+ arg
          +:+ "' — it is declared as required in prompts/list; pass it a non-empty value")
    end) (Prompts.get_prompt name args).
End handler.
End Handler.
