(* ===== verification/ResourcesSpec.v ===== *)
(** * What agents read, and what it promises

    Every address named in a served text is served, so is what an error points at, and
    the page an error of a kind points at tells of that kind; every shipped extension is
    on the dialect page with how it is had; the tools declared are the tools routed; a
    prompt is refused for exactly the arguments it declares required. *)
From S2P Require Import Prelude Errors Extensions Policy Common Plan Interfaces Auth.
From S2P Require Import Wire WireSpec Ops Mcp McpSpec Resources.
Import Resources Kind.
#[local] Open Scope rust_scope.
#[local] Arguments String.append !_ _ / : simpl nomatch.

(** ** Links *)

Definition SCHEME : string := "latiq://".

Definition path_char (c : ascii) : bool :=
  let n := N_of_ascii c in
  ((97 <=? n) && (n <=? 122) || (48 <=? n) && (n <=? 57) || (n =? 45) || (n =? 47))%N.

Fixpoint path_prefix (s : string) : string :=
  match s with
  | EmptyString => EmptyString
  | String c s => if path_char c then String c (path_prefix s) else EmptyString
  end.

(** The addresses a text names: a mention of the scheme alone is none. *)
Fixpoint links (s : string) : list string :=
  match s with
  | EmptyString => []
  | String _ s' =>
      match strip_prefix SCHEME s with
      | Some r => if String.eqb (path_prefix r) EmptyString then links s'
                  else (SCHEME +:+ path_prefix r) :: links s'
      | None => links s'
      end
  end.

(** [t] names the address [u]: the scheme, then as much of a path as there is. *)
Definition names_link (t u : string) : Prop :=
  exists l r, t = l +:+ SCHEME +:+ r /\ path_prefix r <> EmptyString /\ u = SCHEME +:+ path_prefix r.

Lemma links_complete t u : names_link t u -> u ∈ links t.
Proof.
  intros (l & r & -> & Hr & ->). induction l as [|c l IH].
  - change (EmptyString +:+ SCHEME +:+ r) with (SCHEME +:+ r).
    assert (Hs : strip_prefix SCHEME (SCHEME +:+ r) = Some r) by (by apply strip_prefix_Some).
    remember (SCHEME +:+ r) as s eqn:Es. destruct s as [|a s]; [done|].
    cbn [links]. rewrite Hs. destruct (String.eqb_spec (path_prefix r) EmptyString); [done|left].
  - change (String c l +:+ SCHEME +:+ r) with (String c (l +:+ SCHEME +:+ r)). cbn [links].
    destruct (strip_prefix SCHEME _); [|exact IH].
    destruct (String.eqb _ _); [exact IH|by right].
Qed.

Definition served (u : string) : bool := is_Some_b (read_resource u).

Lemma links_served t : forallb served (links t) = true -> forall u, names_link t u -> served u = true.
Proof. rewrite forallb_forall. intros Ht u Hu. by apply Ht, list_elem_of_In, links_complete. Qed.

(** Every text an agent is given unasked or by the page. *)
Definition TEXTS : list string :=
  Text.INSTRUCTIONS :: map body RESOURCES ++ map Tools.td_description Tools.TOOLS
    ++ map Kind.default_suggest Kind.ALL.

(** Where an error of a kind of the taxonomy sends its reader, when its page is one of
    troubleshooting: to a page that tells of that kind. *)
Definition page_tells (k : ErrorKind) : bool :=
  match read_resource (Kind.default_see k) with
  | Some (text, _) =>
      negb (starts_with "latiq://troubleshooting" (Kind.default_see k))
      || str_contains (Kind.as_str k) text
  | None => false
  end.

(** *** Errors *)

Lemma kind_sees k : served (default_see k) = true.
Proof. destruct k; vm_compute; reflexivity. Qed.

Lemma engine_error_sees e : served (see (Agent.from_engine e)) = true.
Proof.
  destruct e; cbn [Agent.from_engine]; try apply kind_sees; try (vm_compute; reflexivity).
  case_match; apply kind_sees.
Qed.

Lemma registry_error_sees e : served (see (ControlPlaneError.envelope e)) = true.
Proof.
  destruct e; cbn [ControlPlaneError.envelope]; try apply kind_sees; try (vm_compute; reflexivity).
  case_match; apply kind_sees.
Qed.

(** whatever an agent reads leads somewhere: every address in the instructions, in a
    served page, in a tool's description or in an error's advice is one the server
    serves, and so is where every error of an engine or of the registry points, on a page
    that tells of its kind where that is a troubleshooting page. *)
Theorem every_link_resolves :
  (forall t u, t ∈ TEXTS -> names_link t u -> served u = true) /\
  (forall k, page_tells k = true) /\
  (forall e, served (see (Agent.from_engine e)) = true) /\
  (forall e, served (see (ControlPlaneError.envelope e)) = true) /\
  (forall r, r ∈ RESOURCES -> read_resource (uri r) = Some (body r, uri r)).
Proof.
  split; [|split; [|split; [exact engine_error_sees|split; [exact registry_error_sees|]]]].
  - intros t u Ht%list_elem_of_In. apply links_served.
    assert (Ha : forallb (fun t => forallb served (links t)) TEXTS = true) by (vm_compute; reflexivity).
    rewrite forallb_forall in Ha. by apply Ha.
  - intros k. destruct k; vm_compute; reflexivity.
  - intros r Hr%list_elem_of_In.
    assert (Ha : forallb (fun r => bool_decide (read_resource (uri r) = Some (body r, uri r)))
      RESOURCES = true) by (vm_compute; reflexivity).
    rewrite forallb_forall in Ha. exact (proj1 (bool_decide_eq_true _) (Ha r Hr)).
Qed.

(** the page on read-only violations is not the one such an error points at, and that
    one never names it. *)
Lemma read_only_violation_sees_another_page :
  Kind.default_see ReadOnlyViolation = "latiq://dialect" /\
  str_contains (Kind.as_str ReadOnlyViolation) DIALECT_BODY = false /\
  served "latiq://troubleshooting/read-only-violation" = true.
Proof. repeat split; vm_compute; reflexivity. Qed.

(** ** Tools *)

(** The words of a text a tool's name could be: lower-case letters and underscores. *)
Definition word_char (c : ascii) : bool :=
  let n := N_of_ascii c in ((97 <=? n) && (n <=? 122) || (n =? 95))%N.

Fixpoint words_from (w s : string) : list string :=
  match s with
  | EmptyString => [w]
  | String c s =>
      if word_char c then words_from (w +:+ String c EmptyString) s else w :: words_from EmptyString s
  end.
Definition words (s : string) : list string := words_from EmptyString s.

Definition tool_names : list string := map Tools.td_name Tools.TOOLS.

(** [read_query] is a call by its first part, [read_]. *)
Definition calls : list string :=
  map (fun n => hd EmptyString (split_byte "_" n) +:+ "_") tool_names.

(** The readers of the engine, and the kinds, are the words that look like a call and
    are none. *)
Definition no_tool : list string :=
  ["read_csv"; "read_json_auto"; "read_parquet"] ++ map Kind.as_str Kind.ALL.

Definition names_tools (t : string) : bool :=
  forallb (fun w =>
    negb (existsb (fun c => starts_with c w) calls)
    || existsb (String.eqb w) (tool_names ++ no_tool)) (words t).

Section tools.
Context `{!Floats} `{!SerdeTexts}.

Lemma tool_of_known name m t : Args.tool_of name m = Some t -> name ∈ tool_names.
Proof.
  unfold Args.tool_of. destruct (find _ _) as [[n o]|] eqn:Hf; [|done]. intros _.
  apply find_some in Hf as [Hin He]. apply String.eqb_eq in He. cbn in He. subst n.
  change tool_names with (map fst (Args.router m)). apply list_elem_of_In. by apply (in_map fst) in Hin.
Qed.

(** A call of each tool. *)
Definition sample_calls : list Args.Tool :=
  let pond := "sales" in
  let query := {| Args.qa_pond := pond; Args.qa_sql := "SELECT 1"; Args.qa_timeout_ms := None |} in
  [Args.AllocatePond {| Args.aa_name := None; Args.aa_tier := None; Args.aa_extensions := None;
                        Args.aa_lineage := None |};
   Args.DescribePond {| Args.pr_pond := pond |};
   Args.ListPonds;
   Args.DropPond {| Args.da_pond := pond; Args.da_confirm := Some true |};
   Args.ReadQuery query; Args.WriteQuery query;
   Args.ExplainQuery {| Args.ea_pond := pond; Args.ea_sql := "SELECT 1" |};
   Args.ListDatasets {| Args.sa_query := None |};
   Args.LoadDataset {| Args.la_pond := pond; Args.la_dataset := "nyc" |};
   Args.ListCatalogs {| Args.sa_query := None |};
   Args.DescribeCatalog {| Args.cd_pond := pond; Args.cd_catalog := "lake"; Args.cd_set := None |};
   Args.PullCatalog {| Args.cp_pond := pond; Args.cp_catalog := "lake"; Args.cp_query := "SELECT 1";
                       Args.cp_set := None |};
   Args.GetLineage {| Args.li_pond := pond; Args.li_limit := None; Args.li_since := None;
                      Args.li_before := None |}].

(** the tools an agent is told of are the tools there are: those declared are those
    the router answers, each once, and every word of a text that looks like a call is
    the name of one. *)
Theorem tools_named_are_tools_routed :
  NoDup tool_names /\
  (forall name, name ∈ tool_names <-> exists m t, Args.tool_of name m = Some t) /\
  (forall t, t ∈ TEXTS -> names_tools t = true).
Proof.
  split; [apply (bool_decide_unpack _); vm_compute; exact I|]. split.
  - intros name. split; [|by intros (m & t & Ht); eapply tool_of_known].
    intros Hn. change tool_names with (map name_of sample_calls) in Hn.
    apply list_elem_of_fmap_1 in Hn as (t & -> & Ht). exists (written (members_of t)), t.
    revert t Ht. rewrite <- Forall_forall. repeat constructor; by vm_compute.
  - intros t Ht%list_elem_of_In.
    assert (Ha : forallb names_tools TEXTS = true) by (vm_compute; reflexivity).
    rewrite forallb_forall in Ha. by apply Ha.
Qed.
End tools.

(** ** The dialect page *)

(** the dialect page tells the truth about what a deployment ships: every extension
    is on it with what it does and how it is had, and how it is had is what allocation
    makes of asking for it: granted for one to be asked for, nothing to do for one that
    is always loaded, refused for one that comes with a catalog. *)
Theorem dialect_page_is_true e :
  e ∈ Extensions.EXTENSIONS ->
  read_resource "latiq://dialect" = Some (DIALECT_BODY, "latiq://dialect") /\
  str_contains (capability e) DIALECT_BODY = true /\
  let asked := Extensions.validate [Extensions.name e] in
  (asked = Ok [Extensions.name e] <->
    how e = " *" +:+ "(ask at allocation: `extensions: [" +:+ dq +:+ Extensions.name e +:+ dq
              +:+ "]`)" +:+ "*") /\
  (asked = Ok [] <-> how e = " *" +:+ "(always loaded)" +:+ "*") /\
  (is_ok asked = false <->
    how e = " *" +:+ "(via list_catalogs → describe_catalog → pull_catalog)" +:+ "*").
Proof.
  intros He. split; [vm_compute; reflexivity|]. revert e He. rewrite <- Forall_forall.
  repeat constructor; try (vm_compute; reflexivity); vm_compute; intros Hx; discriminate Hx.
Qed.

Lemma dialect_page_is_true_witness :
  exists e, Extensions.name e = "spatial" /\ str_contains (capability e) DIALECT_BODY = true /\
    how e = " *" +:+ "(ask at allocation: `extensions: [" +:+ dq +:+ "spatial" +:+ dq +:+ "]`)" +:+ "*".
Proof.
  assert (exists e, e ∈ Extensions.EXTENSIONS /\ Extensions.name e = "spatial") as (e & He & Hn).
  { eexists (nth 5 Extensions.EXTENSIONS _). split; [do 5 right; left|reflexivity]. }
  destruct (dialect_page_is_true e He) as (_ & Hc & Ha & _). exists e. split; [exact Hn|].
  split; [exact Hc|]. rewrite Hn in Ha. apply Ha. vm_compute. reflexivity.
  Unshelve. exact {| Extensions.name := EmptyString; Extensions.bucket := Extensions.Engine;
    Extensions.always_loaded := true; Extensions.what := EmptyString |}.
Defined.

(** ** Prompts *)

Section prompts.
Context `{!Floats}.
Import Prompts.

(** The first argument a prompt declares required and a call does not give. *)
Definition missing (p : PromptDef) (args : list (string * Json)) : option string :=
  match find (fun a => a.2 && negb (is_Some_b (given args a.1.1))) (pd_args p) with
  | Some a => Some a.1.1
  | None => None
  end.

Lemma contains_head v r : str_contains v (v +:+ r) = true.
Proof. apply str_contains_spec. by exists EmptyString, r. Qed.
Lemma contains_tail v l r : str_contains v r = true -> str_contains v (l +:+ r) = true.
Proof.
  intros (l' & r' & ->)%str_contains_spec. apply str_contains_spec. exists (l +:+ l'), r'.
  by rewrite str_app_assoc.
Qed.

(** A value that was filled in is found. *)
Ltac filled :=
  repeat first [exact (contains_head _ _) | apply contains_tail].

(** a prompt is rendered for exactly the calls that give it what it declares
    required, a value that is not blank; what is given is in the text; and the refusal
    names the argument that is missing. *)
Theorem get_prompt_spec name args :
  match find (fun p => String.eqb (pd_name p) name) PROMPTS with
  | None => get_prompt name args = Err Unknown
  | Some p =>
      match missing p args with
      | Some a => get_prompt name args = Err (MissingArgument name a)
      | None =>
          exists text, get_prompt name args = Ok text /\
            forall a v, a ∈ pd_args p -> given args a.1.1 = Some v -> str_contains v text = true
      end
  end.
Proof.
  destruct (find _ PROMPTS) as [p|] eqn:Hf; [|by unfold get_prompt; rewrite Hf].
  apply find_some in Hf as [Hin Hn%String.eqb_eq]. subst name.
  unfold missing. revert p Hin. apply List.Forall_forall. repeat constructor.
  all: cbn [pd_name pd_args find fst snd andb get_prompt String.eqb Ascii.eqb Bool.eqb PROMPTS].
  all: unfold required, arg.
  all: repeat match goal with
    | |- context [given ?args ?k] => let v := fresh "given" in destruct (given args k) as [v|] eqn:?
    end; cbn [is_Some_b negb ok_or res_bind default fst snd]; try reflexivity.
  all: eexists; split; [reflexivity|]; intros a v Ha Hv.
  all: repeat (apply elem_of_cons in Ha as [->|Ha]; [cbn [fst snd] in Hv; simplify_eq|]); try by apply elem_of_nil in Ha.
  all: filled.
Qed.
End prompts.
