(* ===== verification/Storage.v ===== *)
(** * Where a pond's files live

    Models [latiq-storage/src/local_fs.rs], [temp_fs.rs] and [storage.rs]: a pond's layout
    under the root of its node, over a tree of directories and files in which any call of
    the operating system may be refused. *)
From S2P Require Import Prelude Errors Policy Common Interfaces.
Import Types.
#[local] Open Scope rust_scope.
#[local] Arguments String.append !_ _ / : simpl nomatch.

(** ** The file system *)

(** An entry is found by its names, the last one first; [[]] is the top. *)
Abbreviation Path := (list string).

Inductive Entry := Dir | File (content : string).

#[export] Instance Entry_eq_dec : EqDecision Entry.
Proof. solve_decision. Defined.

(** A disk as one operation meets it: its entries, those whose metadata cannot be read,
    and those that cannot be made or removed, with the reason. *)
Record Disk := {
  tree : gmap Path Entry;
  hidden : Path -> bool;
  refuses : Path -> option string;
}.

Record IoError := { not_found : bool; io_text : string }.

(** A path as the program holds it: its text, and the entry that is. *)
Record PathBuf := { display : string; names : Path }.

(** The order a directory is emptied in: everything under a path, each entry after
    what it holds. *)
Class Walk := {
  walk : Path -> gmap Path Entry -> list Path;
  walk_elem : forall p t q, q ∈ walk p t <-> is_Some (t !! q) /\ p `suffix_of` q;
  walk_last : forall p t l1 q l2 q', walk p t = l1 ++ q :: l2 -> q' ∈ l2 -> ~ q `suffix_of` q';
}.

(** *** What the program uses of [std::fs] and [std::path] *)

Module Fs.

Definition ends_with_sep (s : string) : bool :=
  match String.get (pred (String.length s)) s with Some c => Ascii.eqb c "/" | None => false end.

(** [Path::join] with a plain name. *)
Definition join (p : PathBuf) (name : string) : PathBuf :=
  {| display :=
       if String.eqb (display p) EmptyString || ends_with_sep (display p)
       then display p +:+ name else display p +:+ "/" +:+ name;
     names := name :: names p |}.

Definition entry (d : Disk) (p : Path) : option Entry :=
  match p with [] => Some Dir | _ => tree d !! p end.

Definition exists_ (d : Disk) (p : Path) : bool := is_Some_b (entry d p) && negb (hidden d p).

Definition is_dir (d : Disk) (p : Path) : bool :=
  match entry d p with Some Dir => negb (hidden d p) | _ => false end.

Definition with_tree (d : Disk) (t : gmap Path Entry) : Disk :=
  {| tree := t; hidden := hidden d; refuses := refuses d |}.

Definition NOT_FOUND : IoError :=
  {| not_found := true; io_text := "No such file or directory (os error 2)" |}.
Definition FILE_EXISTS : IoError := {| not_found := false; io_text := "File exists (os error 17)" |}.
Definition NOT_A_DIRECTORY : IoError :=
  {| not_found := false; io_text := "Not a directory (os error 20)" |}.
Definition refusal (why : string) : IoError := {| not_found := false; io_text := why |}.

Definition mkdir (p : Path) (d : Disk) : result unit IoError * Disk :=
  match entry d p with
  | Some _ => (Err FILE_EXISTS, d)
  | None =>
      match entry d (tl p) with
      | None => (Err NOT_FOUND, d)
      | Some (File _) => (Err NOT_A_DIRECTORY, d)
      | Some Dir =>
          match refuses d p with
          | Some why => (Err (refusal why), d)
          | None => (Ok tt, with_tree d (<[p := Dir]> (tree d)))
          end
      end
  end.

(** [std::fs::create_dir_all]: from the leaf up to what there is, and down again. *)
Fixpoint create_dir_all (p : Path) (d : Disk) : result unit IoError * Disk :=
  match mkdir p d with
  | (Ok tt, d) => (Ok tt, d)
  | (Err e, _) =>
      if not_found e then
        match p with
        | [] => (Err e, d)
        | _ :: parent =>
            match create_dir_all parent d with
            | (Err e, d) => (Err e, d)
            | (Ok tt, d) =>
                match mkdir p d with
                | (Ok tt, d) => (Ok tt, d)
                | (Err e, _) => if is_dir d p then (Ok tt, d) else (Err e, d)
                end
            end
        end
      else if is_dir d p then (Ok tt, d) else (Err e, d)
  end.

Fixpoint unlink_all (l : list Path) (d : Disk) : result unit IoError * Disk :=
  match l with
  | [] => (Ok tt, d)
  | q :: l =>
      match refuses d q with
      | Some why => (Err (refusal why), d)
      | None => unlink_all l (with_tree d (base.delete q (tree d)))
      end
  end.

Definition remove_dir_all `{!Walk} (p : Path) (d : Disk) : result unit IoError * Disk :=
  match entry d p with
  | None => (Err NOT_FOUND, d)
  | Some (File _) => (Err NOT_A_DIRECTORY, d)
  | Some Dir => unlink_all (walk p (tree d)) d
  end.
End Fs.

(** ** storage.rs *)

Module StorageError.
Inductive StorageError := AlreadyExists (id : string) | NotFound (id : string) | Io (m : string).

Definition to_string (e : StorageError) : string :=
  match e with
  | AlreadyExists id => "pond already exists: " +:+ id
  | NotFound id => "pond not found: " +:+ id
  | Io m => "io error: " +:+ m
  end.
End StorageError.
Abbreviation StorageError := StorageError.StorageError.

(** ** local_fs.rs *)

Module LocalFs.
Record LocalFs := { root : PathBuf }.

Definition new (root : PathBuf) : LocalFs := {| root := root |}.

Section local_fs.
Context `{!Walk}.
Variable self : LocalFs.

Definition pond_dir (pond_id : string) : PathBuf := Fs.join (root self) pond_id.

Definition lineage_dir (pond_id : string) : PathBuf := Fs.join (pond_dir pond_id) "lineage".

Definition location_for (pond_id : string) : PondLocation :=
  let dir := pond_dir pond_id in
  {| catalog_uri := "ducklake:duckdb:" +:+ display (Fs.join dir "catalog.duckdb");
     data_path := display (Fs.join dir "data");
     catalog_name := "pond";
     limits := None;
     loc_extensions := [];
     loc_lineage := false;
     Types.lineage_dir := display (lineage_dir pond_id) |}.

Definition io {A} (r : result A IoError) : result A StorageError :=
  map_err (fun e => StorageError.Io (io_text e)) r.

Definition create_lineage_dir (pond_id : string) (d : Disk) : result unit StorageError * Disk :=
  let dir := names (lineage_dir pond_id) in
  if Fs.exists_ d dir then (Ok tt, d)
  else let (r, d) := Fs.create_dir_all dir d in (io r, d).

Definition create_pond (pond_id : string) (lineage : bool) (d : Disk) :
    result PondLocation StorageError * Disk :=
  let dir := pond_dir pond_id in
  if Fs.exists_ d (names dir) then (Err (StorageError.AlreadyExists pond_id), d)
  else
    match Fs.create_dir_all (names (Fs.join dir "data")) d with
    | (Err e, d) => (Err (StorageError.Io (io_text e)), d)
    | (Ok _, d) =>
        if lineage then
          match create_lineage_dir pond_id d with
          | (Err e, d) => (Err e, d)
          | (Ok _, d) => (Ok (location_for pond_id), d)
          end
        else (Ok (location_for pond_id), d)
    end.

Definition pond_exists (pond_id : string) (d : Disk) : bool :=
  Fs.exists_ d (names (pond_dir pond_id)).

Definition pond_location (pond_id : string) (d : Disk) : result PondLocation StorageError :=
  if pond_exists pond_id d then Ok (location_for pond_id) else Err (StorageError.NotFound pond_id).

Definition ensure_pond (pond_id : string) (lineage : bool) (d : Disk) :
    result PondLocation StorageError * Disk :=
  if pond_exists pond_id d then
    if lineage then
      match create_lineage_dir pond_id d with
      | (Err e, d) => (Err e, d)
      | (Ok _, d) => (Ok (location_for pond_id), d)
      end
    else (Ok (location_for pond_id), d)
  else create_pond pond_id lineage d.

Definition drop_pond (pond_id : string) (d : Disk) : result unit StorageError * Disk :=
  let dir := names (pond_dir pond_id) in
  if negb (Fs.exists_ d dir) then (Err (StorageError.NotFound pond_id), d)
  else let (r, d) := Fs.remove_dir_all dir d in (io r, d).

(** As the operations meet it: an error is its text. *)
Definition local_fs : PondStorage Disk :=
  {| st_ensure_pond := fun id lineage d =>
       let (r, d) := ensure_pond id lineage d in (map_err StorageError.to_string r, d);
     st_pond_location := fun id d => map_err StorageError.to_string (pond_location id d);
     st_drop_pond := fun id d =>
       let (r, d) := drop_pond id d in (map_err StorageError.to_string r, d) |}.
End local_fs.
End LocalFs.

(** ** temp_fs.rs: the same under a directory that goes with its owner *)

Module TempFs.
Record TempFs := { dir : PathBuf; inner : LocalFs.LocalFs }.

(** [tmp] is the directory the [tempfile] crate made. *)
Definition new (tmp : PathBuf) : TempFs := {| dir := tmp; inner := LocalFs.new tmp |}.

Section temp_fs.
Context `{!Walk}.
Variable self : TempFs.

Definition create_pond := LocalFs.create_pond (inner self).
Definition pond_location := LocalFs.pond_location (inner self).
Definition ensure_pond := LocalFs.ensure_pond (inner self).
Definition drop_pond := LocalFs.drop_pond (inner self).
Definition pond_exists := LocalFs.pond_exists (inner self).
End temp_fs.
End TempFs.
