(* ===== verification/StorageSpec.v ===== *)
(** * What a pond's storage keeps

    An operation on a pond's files touches that pond's and no other's, however the disk
    fails it; between what the disk allows, storage is the map of ponds the trait
    promises: provisioned on first use, resolved as it was made, gone when dropped. *)
From S2P Require Import Prelude Errors Policy Common Interfaces Storage.
Import Types LocalFs.
#[local] Open Scope rust_scope.
#[local] Arguments String.append !_ _ / : simpl nomatch.

(** ** The calls of the operating system *)

(** Nothing but the entries changes, and those as [R] relates them. *)
Definition changes (R : Path -> option Entry -> option Entry -> Prop) (d d' : Disk) : Prop :=
  hidden d' = hidden d /\ refuses d' = refuses d /\ forall q, R q (tree d !! q) (tree d' !! q).

(** A directory was made on the way to [p], or nothing was done. *)
Definition makes (p : Path) (q : Path) (e e' : option Entry) : Prop :=
  e' = e \/ e = None /\ e' = Some Dir /\ q `suffix_of` p.

(** Something in [p] was removed, or nothing was done. *)
Definition empties (p : Path) (q : Path) (e e' : option Entry) : Prop :=
  e' = e \/ e' = None /\ p `suffix_of` q.

Lemma changes_refl (R : Path -> option Entry -> option Entry -> Prop) d :
  (forall q e, R q e e) -> changes R d d.
Proof. by intros HR. Qed.

Lemma makes_refl p q e : makes p q e e. Proof. by left. Qed.
Lemma empties_refl p q e : empties p q e e. Proof. by left. Qed.

Lemma makes_trans p d d1 d2 : changes (makes p) d d1 -> changes (makes p) d1 d2 -> changes (makes p) d d2.
Proof.
  intros (Hh & Hr & H1) (Hh' & Hr' & H2). repeat split; [congruence..|]. intros q.
  destruct (H2 q) as [->|(Hn & Hs & Hq)]; [apply H1|].
  destruct (H1 q) as [He|(He & Hd & _)]; [|congruence]. right. rewrite <- He. by split.
Qed.

Lemma makes_weaken p p' d d' : p `suffix_of` p' -> changes (makes p) d d' -> changes (makes p') d d'.
Proof.
  intros Hp (Hh & Hr & Hc). repeat split; [done..|]. intros q.
  destruct (Hc q) as [He|(Hn & Hs & Hq)]; [by left|right]. split; [done|]. split; [done|]. by etrans.
Qed.

#[local] Hint Resolve makes_refl empties_refl changes_refl : latiq.

Lemma mkdir_makes p d : changes (makes p) d (Fs.mkdir p d).2.
Proof.
  unfold Fs.mkdir. destruct (Fs.entry d p) as [e|] eqn:Ep; [auto with latiq|].
  destruct (Fs.entry d (tl p)) as [[]|]; [|auto with latiq..].
  destruct (refuses d p); [auto with latiq|]. repeat split. intros q. cbn [snd tree Fs.with_tree].
  destruct (decide (q = p)) as [->|Hq]; [|rewrite lookup_insert_ne by done; by left].
  rewrite lookup_insert_eq. right. repeat split; [|done]. by destruct p.
Qed.

Lemma mkdir_made p d u d' : Fs.mkdir p d = (Ok u, d') -> Fs.entry d' p = Some Dir.
Proof.
  unfold Fs.mkdir. destruct (Fs.entry d p) as [e|]; [done|].
  destruct (Fs.entry d (tl p)) as [[]|]; [|done..]. destruct (refuses d p); [done|].
  intros [= _ <-]. destruct p; [done|]. cbn [Fs.entry Fs.with_tree tree]. by rewrite lookup_insert_eq.
Qed.

Lemma create_dir_all_makes p d : changes (makes p) d (Fs.create_dir_all p d).2.
Proof.
  revert d. induction p as [|c p IH]; intros d; cbn [Fs.create_dir_all];
    pose proof (mkdir_makes) as Hm.
  - specialize (Hm [] d). destruct (Fs.mkdir [] d) as [[[]|e] d1]; [exact Hm|].
    destruct (not_found e); [auto with latiq|]. destruct (Fs.is_dir d []); auto with latiq.
  - pose proof (Hm (c :: p) d) as H1. destruct (Fs.mkdir (c :: p) d) as [[[]|e] d1]; [exact H1|].
    destruct (not_found e); [|destruct (Fs.is_dir d (c :: p)); auto with latiq].
    specialize (IH d). destruct (Fs.create_dir_all p d) as [[[]|e2] d2].
    + assert (H2 : changes (makes (c :: p)) d d2)
        by (eapply makes_weaken; [|exact IH]; by apply suffix_cons_r).
      pose proof (Hm (c :: p) d2) as H3. destruct (Fs.mkdir (c :: p) d2) as [[[]|e3] d3].
      * by eapply makes_trans.
      * by destruct (Fs.is_dir d2 (c :: p)).
    + cbn [snd] in *. eapply makes_weaken; [|exact IH]. by apply suffix_cons_r.
Qed.

Lemma is_dir_entry d p : Fs.is_dir d p = true -> Fs.entry d p = Some Dir.
Proof. unfold Fs.is_dir. by destruct (Fs.entry d p) as [[]|]. Qed.

Lemma create_dir_all_made p d u d' : Fs.create_dir_all p d = (Ok u, d') -> Fs.entry d' p = Some Dir.
Proof.
  destruct p as [|c p]; [done|]. cbn [Fs.create_dir_all].
  destruct (Fs.mkdir (c :: p) d) as [[[]|e] d1] eqn:E1.
  { intros [= _ <-]. by eapply mkdir_made. }
  destruct (not_found e).
  - destruct (Fs.create_dir_all p d) as [[[]|e2] d2]; [|done].
    destruct (Fs.mkdir (c :: p) d2) as [[[]|e3] d3] eqn:E3.
    + intros [= _ <-]. by eapply mkdir_made.
    + destruct (Fs.is_dir d2 (c :: p)) eqn:Ed; [|done]. intros [= _ <-]. by apply is_dir_entry.
  - destruct (Fs.is_dir d (c :: p)) eqn:Ed; [|done]. intros [= _ <-]. by apply is_dir_entry.
Qed.

Lemma unlink_all_spec l d :
  let (r, d') := Fs.unlink_all l d in
  hidden d' = hidden d /\ refuses d' = refuses d /\
  exists l1 l2, l = l1 ++ l2 /\
    (forall q, tree d' !! q = if decide (q ∈ l1) then None else tree d !! q) /\
    match r with Ok _ => l2 = [] | Err _ => l2 <> [] end.
Proof.
  revert d. induction l as [|q l IH]; intros d; cbn [Fs.unlink_all].
  { split; [done|]. split; [done|]. exists [], []. split; [done|].
    split; [|done]. intros q. by rewrite decide_False by set_solver. }
  destruct (refuses d q) as [why|].
  { split; [done|]. split; [done|]. exists [], (q :: l). split; [done|]. split; [|done]. intros q'.
    by rewrite decide_False by set_solver. }
  specialize (IH (Fs.with_tree d (base.delete q (tree d)))). destruct (Fs.unlink_all l _) as [r d'].
  destruct IH as (Hh & Hr & l1 & l2 & -> & Ht & Hres). split; [done|]. split; [done|].
  exists (q :: l1), l2. split; [done|]. split; [|done]. intros q'. rewrite Ht. cbn [Fs.with_tree tree].
  destruct (decide (q' ∈ l1)); [by rewrite decide_True by set_solver|].
  destruct (decide (q' = q)) as [->|Hq].
  - rewrite lookup_delete_eq. by rewrite decide_True by set_solver.
  - rewrite lookup_delete_ne by done. by rewrite decide_False by set_solver.
Qed.

(** A tree: whatever there is, is in a directory. *)
Definition is_tree (d : Disk) : Prop :=
  forall q, is_Some (tree d !! q) -> q <> [] /\ Fs.entry d (tl q) = Some Dir.

Lemma entry_tree d c p : Fs.entry d (c :: p) = tree d !! (c :: p). Proof. done. Qed.

(** Nothing is in what is not there. *)
Lemma absent_below d p q :
  is_tree d -> p <> [] -> tree d !! p = None -> p `suffix_of` q -> tree d !! q = None.
Proof.
  intros Ht Hp Hn [l ->]. induction l as [|c l IH]; [done|].
  destruct (tree d !! ((c :: l) ++ p)) as [e|] eqn:E; [|done].
  destruct (Ht _ (ex_intro _ e E)) as [_ Hd]. cbn [app tl] in Hd.
  destruct (l ++ p) as [|c' l'] eqn:El; [by apply app_eq_nil in El as [_ ->]|].
  by rewrite entry_tree, IH in Hd.
Qed.

Lemma mkdir_is_tree p d : is_tree d -> is_tree (Fs.mkdir p d).2.
Proof.
  intros Ht. unfold Fs.mkdir. destruct (Fs.entry d p) eqn:Ep; [done|].
  destruct (Fs.entry d (tl p)) as [[]|] eqn:Et; [|done..]. destruct (refuses d p); [done|].
  assert (Hin : forall q, Fs.entry d q = Some Dir ->
    Fs.entry (Fs.with_tree d (<[p := Dir]> (tree d))) q = Some Dir).
  { intros [|c q] Hq; [done|]. cbn [Fs.entry Fs.with_tree tree] in *.
    destruct (decide (c :: q = p)) as [<-|]; [by rewrite lookup_insert_eq|by rewrite lookup_insert_ne]. }
  intros q [e Hq]. cbn [snd Fs.with_tree tree] in *. destruct (decide (q = p)) as [->|Hne].
  - split; [by destruct p|]. by apply Hin.
  - rewrite lookup_insert_ne in Hq by done. destruct (Ht q (ex_intro _ e Hq)) as [Hn Hd].
    split; [done|]. by apply Hin.
Qed.

Lemma create_dir_all_is_tree p d : is_tree d -> is_tree (Fs.create_dir_all p d).2.
Proof.
  revert d. induction p as [|c p IH]; intros d Ht; cbn [Fs.create_dir_all].
  - pose proof (mkdir_is_tree [] d Ht) as Hm. destruct (Fs.mkdir [] d) as [[[]|e] d1]; [done|].
    destruct (not_found e); [done|]. by destruct (Fs.is_dir d []).
  - pose proof (mkdir_is_tree (c :: p) d Ht) as Hm. destruct (Fs.mkdir (c :: p) d) as [[[]|e] d1]; [done|].
    destruct (not_found e); [|by destruct (Fs.is_dir d (c :: p))].
    specialize (IH d Ht). destruct (Fs.create_dir_all p d) as [[[]|e2] d2]; [|done].
    pose proof (mkdir_is_tree (c :: p) d2 IH) as Hm2.
    destruct (Fs.mkdir (c :: p) d2) as [[[]|e3] d3]; [done|]. by destruct (Fs.is_dir d2 (c :: p)).
Qed.

Section emptied.
Context `{!Walk}.

Lemma remove_dir_all_empties p d : changes (empties p) d (Fs.remove_dir_all p d).2.
Proof.
  unfold Fs.remove_dir_all. destruct (Fs.entry d p) as [[]|]; auto with latiq.
  pose proof (unlink_all_spec (walk p (tree d)) d) as Hu.
  destruct (Fs.unlink_all _ d) as [r d']. destruct Hu as (Hh & Hr & l1 & l2 & Hl & Ht & _).
  repeat split; [done..|]. intros q. cbn [snd]. rewrite Ht. destruct (decide (q ∈ l1)) as [Hq|]; [right|by left].
  split; [done|]. apply (walk_elem p (tree d)). rewrite Hl. set_solver.
Qed.

(** An emptied directory is gone with all it held; one that could not be emptied is
    still there. *)
Lemma remove_dir_all_result p d :
  is_Some (tree d !! p) ->
  let (r, d') := Fs.remove_dir_all p d in
  match r with
  | Ok _ => forall q : Path, p `suffix_of` q -> tree d' !! q = None
  | Err _ => tree d' !! p = tree d !! p
  end.
Proof.
  intros Hp. unfold Fs.remove_dir_all. destruct (Fs.entry d p) as [[]|] eqn:Ep; try done.
  pose proof (unlink_all_spec (walk p (tree d)) d) as Hu.
  destruct (Fs.unlink_all _ d) as [r d']. destruct Hu as (_ & _ & l1 & l2 & Hl & Ht & Hres).
  destruct r.
  - subst l2. rewrite app_nil_r in Hl. intros q Hq. rewrite Ht.
    destruct (decide (q ∈ l1)) as [|Hn]; [done|]. destruct (tree d !! q) eqn:Eq; [|done].
    destruct Hn. rewrite <- Hl. apply walk_elem. by split; [eexists|].
  - rewrite Ht. rewrite decide_False; [done|]. intros Hin.
    destruct l2 as [|q l2]; [done|]. apply list_elem_of_split in Hin as (a & b & ->).
    rewrite <- app_assoc in Hl. cbn in Hl.
    apply (walk_last p (tree d) a p (b ++ q :: l2) q Hl); [set_solver|].
    apply (walk_elem p (tree d)). rewrite Hl. set_solver.
Qed.

Lemma remove_dir_all_is_tree p d : is_tree d -> is_tree (Fs.remove_dir_all p d).2.
Proof.
  intros Htr. unfold Fs.remove_dir_all. destruct (Fs.entry d p) as [[]|]; try done.
  pose proof (unlink_all_spec (walk p (tree d)) d) as Hu.
  destruct (Fs.unlink_all _ d) as [r d']. destruct Hu as (_ & _ & l1 & l2 & Hl & Ht & _).
  intros q [e Hq]. cbn [snd] in *. rewrite Ht in Hq. destruct (decide (q ∈ l1)) as [|Hn]; [done|].
  destruct (Htr q (ex_intro _ e Hq)) as [Hne Hd]. split; [done|].
  destruct q as [|c q]; [done|]. cbn [tl] in *. destruct q as [|c' q]; [done|].
  cbn [Fs.entry] in *. rewrite Ht. rewrite decide_False; [done|]. intros Hin.
  assert (Hw : c :: c' :: q ∈ walk p (tree d)).
  { apply walk_elem. split; [by rewrite Hq|]. apply suffix_cons_r.
    apply (walk_elem p (tree d)). rewrite Hl. set_solver. }
  rewrite Hl in Hw. apply elem_of_app in Hw as [Hw|Hw]; [done|].
  apply list_elem_of_split in Hin as (a & b & ->). rewrite <- app_assoc in Hl.
  apply (walk_last p (tree d) a (c' :: q) (b ++ l2) (c :: c' :: q) Hl); [set_solver|].
  by apply suffix_cons_r.
Qed.
End emptied.

(** ** The operations *)

Section storage.
Context `{!Walk}.
Variable self : LocalFs.

Definition home (id : string) : Path := names (pond_dir self id).

(** What a pond holds, by the names under its directory. *)
Definition holds (id : string) (d : Disk) (rel : Path) : option Entry := tree d !! (rel ++ home id).

(** An operation on [id] changes what is in that pond's directory, and makes the
    directories on the way to it. *)
Definition keeps_to (id : string) (d d' : Disk) : Prop :=
  changes (fun q e e' =>
    e' = e \/ home id `suffix_of` q \/ e = None /\ e' = Some Dir /\ q `suffix_of` names (root self)) d d'.

Lemma keeps_refl id d : keeps_to id d d.
Proof. apply changes_refl. by left. Qed.

Lemma keeps_trans id d d1 d2 : keeps_to id d d1 -> keeps_to id d1 d2 -> keeps_to id d d2.
Proof.
  intros (Hh & Hr & H1) (Hh' & Hr' & H2). repeat split; [congruence..|]. intros q.
  destruct (H2 q) as [->|[Hq|(Hn & Hs & Hq)]]; [apply H1|by right; left|].
  destruct (H1 q) as [He|[?|(He & Hd & _)]]; [|by right; left|congruence].
  right. right. rewrite <- He. by split.
Qed.

Lemma makes_keeps id l d d' : changes (makes (l ++ home id)) d d' -> keeps_to id d d'.
Proof.
  intros (Hh & Hr & Hc). repeat split; [done..|]. intros q.
  destruct (Hc q) as [He|(Hn & Hs & Hq)]; [by left|right].
  destruct (decide (home id `suffix_of` q)) as [|Ho]; [by left|right]. do 2 (split; [done|]).
  destruct (suffix_weak_total q (home id) (l ++ home id) Hq (suffix_app_r _ _ _ (reflexivity _)))
    as [Hqh|]; [|done].
  destruct q as [|c q]; [apply suffix_nil|].
  apply suffix_cons_inv in Hqh as [He|]; [|done]. destruct Ho. by rewrite He.
Qed.

Lemma empties_keeps id d d' : changes (empties (home id)) d d' -> keeps_to id d d'.
Proof.
  intros (Hh & Hr & Hc). repeat split; [done..|]. intros q.
  destruct (Hc q) as [He|[_ Hq]]; [by left|by right; left].
Qed.

Lemma create_lineage_dir_makes id d :
  changes (makes ("lineage" :: home id)) d (create_lineage_dir self id d).2.
Proof.
  unfold create_lineage_dir. destruct (Fs.exists_ d _); [auto with latiq|].
  pose proof (create_dir_all_makes (names (LocalFs.lineage_dir self id)) d) as Hc.
  by destruct (Fs.create_dir_all _ d).
Qed.

Lemma create_pond_keeps id lin d : keeps_to id d (create_pond self id lin d).2.
Proof.
  unfold create_pond. destruct (Fs.exists_ d _); [apply keeps_refl|].
  pose proof (create_dir_all_makes (names (Fs.join (pond_dir self id) "data")) d) as Hd.
  destruct (Fs.create_dir_all _ d) as [[u|e] d1]; cbn [snd] in Hd;
    apply (makes_keeps id ["data"]) in Hd; [|exact Hd].
  destruct lin; [|exact Hd].
  pose proof (create_lineage_dir_makes id d1) as Hl. apply (makes_keeps id ["lineage"]) in Hl.
  destruct (create_lineage_dir self id d1) as [[]]; by eapply keeps_trans.
Qed.

Lemma ensure_pond_keeps id lin d : keeps_to id d (ensure_pond self id lin d).2.
Proof.
  unfold ensure_pond. destruct (pond_exists self id d); [|apply create_pond_keeps].
  destruct lin; [|apply keeps_refl].
  pose proof (create_lineage_dir_makes id d) as Hl. apply (makes_keeps id ["lineage"]) in Hl.
  by destruct (create_lineage_dir self id d) as [[]].
Qed.

Lemma drop_pond_keeps id d : keeps_to id d (drop_pond self id d).2.
Proof.
  unfold drop_pond. destruct (Fs.exists_ d _); [|apply keeps_refl]. cbn [negb].
  pose proof (remove_dir_all_empties (home id) d) as He. apply empties_keeps in He.
  change (names (pond_dir self id)) with (home id). by destruct (Fs.remove_dir_all (home id) d).
Qed.

(** a pond's files are its own: whatever the disk refuses or hides, providing or
    dropping a pond leaves every file of every other pond as it was, and outside the
    pond's directory makes nothing but the directories above it. *)
Theorem storage_keeps_to_its_pond id lin d d' :
  d' ∈ [(create_pond self id lin d).2; (ensure_pond self id lin d).2; (drop_pond self id d).2] ->
  keeps_to id d d' /\ forall other rel, other <> id -> holds other d' rel = holds other d rel.
Proof.
  intros Hd. assert (Hk : keeps_to id d d').
  { repeat (apply elem_of_cons in Hd as [->|Hd]; [auto using create_pond_keeps,
      ensure_pond_keeps, drop_pond_keeps|]). by apply elem_of_nil in Hd. }
  split; [exact Hk|]. intros other rel Hne. unfold holds. destruct Hk as (_ & _ & Hc).
  destruct (Hc (rel ++ home other)) as [He|[Hq|(_ & _ & Hq)]]; [done|exfalso..].
  - destruct (suffix_weak_total (home id) (home other) (rel ++ home other) Hq
      (suffix_app_r _ _ _ (reflexivity _))) as [Hs|Hs];
      apply suffix_length_eq in Hs; cbn in *; first [lia|congruence].
  - apply suffix_length in Hq. rewrite length_app in Hq. cbn in Hq. lia.
Qed.

(** *** The map of ponds *)

Definition visible (d : Disk) : Prop := forall q, hidden d q = false.

(** What providing a pond adds to it. *)
Definition provided (lineage absent : bool) (rel : Path) : bool :=
  absent && bool_decide (rel ∈ [[]; ["data"]]) || lineage && bool_decide (rel = ["lineage"]).

Definition filled (add : Path -> bool) (before after : Path -> option Entry) : Prop :=
  forall rel, after rel =
    match before rel with Some e => Some e | None => if add rel then Some Dir else None end.

Lemma exists_visible d c p : visible d -> Fs.exists_ d (c :: p) = is_Some_b (tree d !! (c :: p)).
Proof. intros Hv. unfold Fs.exists_. by rewrite Hv, andb_true_r. Qed.

Lemma holds_home id d : holds id d [] = tree d !! home id. Proof. done. Qed.

Lemma pond_exists_tree id d : visible d -> pond_exists self id d = is_Some_b (tree d !! home id).
Proof. apply exists_visible. Qed.

Lemma create_dir_all_exact p d u d' :
  is_tree d -> Fs.create_dir_all p d = (Ok u, d') ->
  forall q, q <> [] -> tree d' !! q =
    match tree d !! q with
    | Some e => Some e
    | None => if decide (q `suffix_of` p) then Some Dir else None
    end.
Proof.
  intros Ht He q Hq. pose proof (create_dir_all_makes p d) as (_ & _ & Hc).
  pose proof (create_dir_all_is_tree p d Ht) as Ht'. rewrite He in Hc, Ht'. cbn [snd] in *.
  apply create_dir_all_made in He. destruct (Hc q) as [Hq'|(Hn & Hs & Hqp)].
  - rewrite Hq'. destruct (tree d !! q) eqn:E; [done|]. case_decide as Hs; [exfalso|done].
    pose proof (absent_below d' q p Ht' Hq Hq' Hs) as Hp.
    destruct p as [|c p]; [by apply suffix_nil_inv in Hs|]. cbn [Fs.entry] in He. congruence.
  - by rewrite Hn, Hs, decide_True by done.
Qed.

Lemma suffix_under rel x (p : Path) : rel ++ p `suffix_of` x :: p <-> rel ∈ [[]; [x]].
Proof.
  split.
  - intros [l Hl]. assert (He : x :: p = (l ++ rel) ++ p) by by rewrite <- app_assoc.
    change (x :: p) with ([x] ++ p) in He. apply app_inv_tail in He. symmetry in He.
    apply app_eq_unit in He as [[_ ->]|[_ ->]]; set_solver.
  - intros [->|[->|[]%elem_of_nil]%elem_of_cons]%elem_of_cons; [by apply suffix_cons_r|done].
Qed.

Lemma home_below id rel : rel ++ home id <> [].
Proof. intros [_ He]%app_eq_nil. discriminate He. Qed.

(** A directory under a pond's own, made. *)
Lemma filled_dir id x u d d' :
  is_tree d -> Fs.create_dir_all (x :: home id) d = (Ok u, d') ->
  filled (fun rel => bool_decide (rel ∈ [[]; [x]])) (holds id d) (holds id d').
Proof.
  intros Ht He rel. unfold holds. rewrite (create_dir_all_exact _ _ _ _ Ht He) by apply home_below.
  destruct (tree d !! _); [done|].
  destruct (decide _) as [Hs|Hs]; rewrite suffix_under in Hs;
    [by rewrite bool_decide_eq_true_2|by rewrite bool_decide_eq_false_2].
Qed.

Lemma lineage_filled id u d d' :
  is_tree d -> visible d -> pond_exists self id d = true ->
  create_lineage_dir self id d = (Ok u, d') ->
  filled (provided true false) (holds id d) (holds id d') /\ is_tree d'.
Proof.
  intros Ht Hv Hp. unfold create_lineage_dir. change (names (LocalFs.lineage_dir self id)) with ("lineage" :: home id).
  rewrite exists_visible by done. destruct (tree d !! _) eqn:El; cbn [is_Some_b].
  - intros [= _ <-]. split; [|done]. intros rel. destruct (holds id d rel) eqn:Eh; [done|].
    unfold provided. cbn [andb orb]. case_bool_decide as Hr; [|done]. subst rel. exfalso.
    unfold holds, home in Eh. cbn in Eh, El. congruence.
  - pose proof (create_dir_all_is_tree ("lineage" :: home id) d Ht) as Ht'.
    destruct (Fs.create_dir_all _ d) as [[u'|e] d1] eqn:Ec; [|done]. intros [= _ <-]. split; [|exact Ht'].
    intros rel. rewrite (filled_dir id "lineage" _ _ _ Ht Ec rel). destruct (holds id d rel) eqn:Eh; [done|].
    unfold provided. cbn [andb orb].
    assert (rel <> []).
    { intros ->. rewrite pond_exists_tree in Hp by done. rewrite holds_home in Eh. by rewrite Eh in Hp. }
    destruct (decide (rel = ["lineage"])) as [->|]; [done|].
    by rewrite !bool_decide_eq_false_2 by set_solver.
Qed.

Lemma create_lineage_dir_safe id d :
  is_tree d ->
  let (r, d') := create_lineage_dir self id d in
  is_tree d' /\ forall e, r = Err e -> exists m, e = StorageError.Io m.
Proof.
  intros Ht. unfold create_lineage_dir. destruct (Fs.exists_ d _); [done|].
  pose proof (create_dir_all_is_tree (names (LocalFs.lineage_dir self id)) d Ht) as Ht'.
  destruct (Fs.create_dir_all _ d) as [[u|e] d']; (split; [exact Ht'|]); [done|].
  intros ? [= <-]. by eexists.
Qed.

Lemma create_filled id lin d :
  is_tree d -> visible d -> pond_exists self id d = false ->
  let (r, d') := create_pond self id lin d in
  is_tree d' /\
  match r with
  | Ok loc => loc = location_for self id /\ filled (provided lin true) (holds id d) (holds id d')
  | Err e => exists m, e = StorageError.Io m
  end.
Proof.
  intros Ht Hv Hp. unfold create_pond. fold (pond_exists self id d). rewrite Hp.
  change (names (Fs.join (pond_dir self id) "data")) with ("data" :: home id).
  pose proof (create_dir_all_is_tree ("data" :: home id) d Ht) as Ht1.
  pose proof (create_dir_all_makes ("data" :: home id) d) as (Hh1 & _ & _).
  destruct (Fs.create_dir_all _ d) as [[u|e] d1] eqn:Ec; cbn [snd] in *; [|by split; [|eexists]].
  pose proof (filled_dir id "data" _ _ _ Ht Ec) as Hf1.
  destruct lin; [|split; [done|]; split; [done|]].
  - assert (Hv1 : visible d1) by (intros q; by rewrite Hh1).
    assert (Hp1 : pond_exists self id d1 = true).
    { rewrite pond_exists_tree by done. pose proof (Hf1 []) as H0. rewrite !holds_home in H0.
      rewrite H0. by destruct (tree d !! _). }
    pose proof (create_lineage_dir_safe id d1 Ht1) as Hs.
    destruct (create_lineage_dir self id d1) as [[u2|e2] d2] eqn:E2; destruct Hs as [Ht2' He2].
    + destruct (lineage_filled id _ _ _ Ht1 Hv1 Hp1 E2) as [Hf2 Ht2]. do 2 (split; [done|]).
      intros rel. rewrite Hf2, Hf1. unfold provided. cbn [andb orb].
      destruct (holds id d rel); [done|]. by destruct (bool_decide (rel ∈ _)).
    + split; [done|]. by apply He2.
  - intros rel. rewrite Hf1. unfold provided. cbn [andb]. by rewrite orb_false_r.
Qed.

Lemma location_of_existing id d :
  visible d -> is_Some (tree d !! home id) -> pond_location self id d = Ok (location_for self id).
Proof. intros Hv [e He]. unfold pond_location. by rewrite pond_exists_tree, He. Qed.

Lemma ensured id lin d :
  is_tree d -> visible d ->
  let (r, d') := ensure_pond self id lin d in
  is_tree d' /\
  match r with
  | Ok loc => loc = location_for self id /\
      filled (provided lin (negb (pond_exists self id d))) (holds id d) (holds id d')
  | Err e => exists m, e = StorageError.Io m
  end.
Proof.
  intros Ht Hv. unfold ensure_pond. destruct (pond_exists self id d) eqn:Hp.
  - destruct lin; [|do 2 (split; [done|]); intros rel; by destruct (holds id d rel)].
    pose proof (create_lineage_dir_safe id d Ht) as Hs.
    destruct (create_lineage_dir self id d) as [[u|e] d1] eqn:E; destruct Hs as [Ht1 He];
      [|split; [done|]; by apply He].
    destruct (lineage_filled id _ _ _ Ht Hv Hp E) as [Hf _]. by do 2 (split; [done|]).
  - exact (create_filled id lin d Ht Hv Hp).
Qed.

Lemma filled_home id lin there d d' :
  there = is_Some_b (tree d !! home id) ->
  filled (provided lin (negb there)) (holds id d) (holds id d') -> is_Some (tree d' !! home id).
Proof.
  intros -> Hf. pose proof (Hf []) as H0. rewrite !holds_home in H0.
  destruct (tree d !! home id); rewrite H0; by eexists.
Qed.

Lemma dropped id d :
  is_tree d -> visible d -> pond_exists self id d = true ->
  let (r, d') := drop_pond self id d in
  is_tree d' /\
  match r with
  | Ok _ => forall rel, holds id d' rel = None
  | Err e => (exists m, e = StorageError.Io m) /\ pond_exists self id d' = true
  end.
Proof.
  intros Ht Hv Hp. pose proof (drop_pond_keeps id d) as (Hhid & _). revert Hhid.
  unfold drop_pond. fold (pond_exists self id d). rewrite Hp. cbn [negb].
  change (names (pond_dir self id)) with (home id). rewrite pond_exists_tree in Hp by done.
  pose proof (remove_dir_all_result (home id) d (proj1 (is_Some_b_true _) Hp)) as Hr.
  pose proof (remove_dir_all_is_tree (home id) d Ht) as Ht'.
  destruct (Fs.remove_dir_all (home id) d) as [[u|e] d']; intros Hhid; (split; [done|]).
  - intros rel. apply Hr. by apply suffix_app_r.
  - split; [by eexists|]. cbn [snd] in Hhid. rewrite pond_exists_tree by (intros q; by rewrite Hhid).
    by rewrite Hr.
Qed.

(** C31: on a disk that hides nothing, storage is the map of ponds its trait promises:
    providing a pond that succeeds answers where it is and leaves all it held, with a
    data directory if it is new and one for its lineage if it records any; creating
    refuses a pond that is there; a dropped pond holds nothing, and one whose drop failed
    is still there; and a failure otherwise is one of the disk. *)
Theorem storage_is_the_map_of_ponds id lin d :
  is_tree d -> visible d ->
  let there := pond_exists self id d in
  create_pond self id lin d =
    (if there then (Err (StorageError.AlreadyExists id), d) else ensure_pond self id lin d) /\
  (let (r, d') := ensure_pond self id lin d in
   is_tree d' /\
   match r with
   | Ok loc =>
       loc = location_for self id /\ pond_location self id d' = Ok loc /\
       filled (provided lin (negb there)) (holds id d) (holds id d')
   | Err e => exists m, e = StorageError.Io m
   end) /\
  (let (r, d') := drop_pond self id d in
   is_tree d' /\
   match r with
   | Ok _ => forall rel, holds id d' rel = None
   | Err (StorageError.NotFound _) => there = false /\ d' = d
   | Err e => (exists m, e = StorageError.Io m) /\ pond_exists self id d' = true
   end).
Proof.
  intros Ht Hv there. split; [|split].
  - unfold ensure_pond, create_pond. fold (pond_exists self id d). fold there. by destruct there.
  - pose proof (ensured id lin d Ht Hv) as He. pose proof (ensure_pond_keeps id lin d) as (Hhid & _).
    destruct (ensure_pond self id lin d) as [[loc|e] d']; destruct He as [Ht' He]; (split; [done|]); [|done].
    destruct He as [-> Hf]. split; [done|]. split; [|exact Hf].
    apply location_of_existing; [intros q; cbn [snd] in Hhid; by rewrite Hhid|].
    eapply filled_home; [|exact Hf]. by apply pond_exists_tree.
  - destruct there eqn:Hp.
    + pose proof (dropped id d Ht Hv Hp) as Hd.
      destruct (drop_pond self id d) as [[u|[?|?|m]] d']; destruct Hd as [Ht' Hd]; (split; [done|]); try done.
      by destruct Hd as [[? [=]] _].
    + unfold drop_pond. fold (pond_exists self id d). fold there. by rewrite Hp.
Qed.

(** a pond whose directories are there is found whatever the disk refuses: providing it
    again asks the disk for nothing. *)
Theorem provided_pond_needs_nothing id lin d :
  pond_exists self id d = true -> (lin = true -> Fs.exists_ d ("lineage" :: home id) = true) ->
  ensure_pond self id lin d = (Ok (location_for self id), d).
Proof.
  intros Hp Hl. unfold ensure_pond. rewrite Hp. destruct lin; [|done].
  unfold create_lineage_dir. change (names (LocalFs.lineage_dir self id)) with ("lineage" :: home id).
  by rewrite Hl.
Qed.
End storage.

(** ** A disk *)

Module SampleDisk.
(** The longest path first. *)
Definition deepest_first (p q : Path) : Prop := length q <= length p.
#[export] Instance deepest_dec : RelDecision deepest_first.
Proof. intros p q. unfold deepest_first. apply _. Defined.
#[export] Instance deepest_trans : Transitive deepest_first.
Proof. intros p q r. unfold deepest_first. lia. Qed.
#[export] Instance deepest_total : Total deepest_first.
Proof. intros p q. unfold deepest_first. lia. Qed.

Definition below (p : Path) (t : gmap Path Entry) : list Path :=
  base.filter (fun q => p `suffix_of` q) (map_to_list t).*1.

Lemma below_elem p t q : q ∈ below p t <-> is_Some (t !! q) /\ p `suffix_of` q.
Proof.
  unfold below. rewrite list_elem_of_filter, list_elem_of_fmap. split.
  - intros [Hp ([q' e] & -> & He%elem_of_map_to_list)]. split; [by eexists|done].
  - intros [[e He] Hp]. split; [done|]. exists (q, e). split; [done|]. by apply elem_of_map_to_list.
Qed.

#[export] Program Instance walk_deepest : Walk :=
  {| walk p t := merge_sort deepest_first (below p t) |}.
Next Obligation. intros p t q. cbn. rewrite merge_sort_Permutation. apply below_elem. Qed.
Next Obligation.
  intros p t l1 q l2 q' Hl Hin Hs. cbn in Hl.
  assert (Hn : NoDup (merge_sort deepest_first (below p t))).
  { rewrite merge_sort_Permutation. apply NoDup_filter, NoDup_fst_map_to_list. }
  assert (Ho : StronglySorted deepest_first (merge_sort deepest_first (below p t)))
    by apply (StronglySorted_merge_sort deepest_first).
  rewrite Hl in Hn, Ho. apply StronglySorted_app_1_r in Ho.
  apply StronglySorted_inv in Ho as [_ Ho]. rewrite Forall_forall in Ho. specialize (Ho _ Hin).
  apply suffix_length_eq in Hs; [|exact Ho]. subst q'.
  apply NoDup_app in Hn as (_ & _ & Hn). apply NoDup_cons in Hn as [Hn _]. by apply Hn.
Qed.

Definition self : LocalFs := new {| display := "/var/lib/latiq/ponds"; names := ["ponds"] |}.

Definition disk (refuses : Path -> option string) : Disk :=
  {| tree := {[ ["ponds"] := Dir; ["b"; "ponds"] := Dir; ["data"; "b"; "ponds"] := Dir;
                ["part.parquet"; "data"; "b"; "ponds"] := File "PAR1" ]};
     hidden := fun _ => false; refuses := refuses |}.

Definition nothing (_ : Path) : option string := None.

Lemma disk_is_tree refuses : is_tree (disk refuses).
Proof.
  intros q [e Hq]. cut (map_Forall (fun q _ => q <> [] /\ Fs.entry (disk refuses) (tl q) = Some Dir)
    (tree (disk refuses))); [intros Ha; exact (Ha q e Hq)|].
  apply (bool_decide_unpack _). vm_compute. exact I.
Qed.

Lemma storage_keeps_to_its_pond_witness :
  let (r, d') := drop_pond self "b" (disk nothing) in
  r = Ok tt /\ holds self "b" d' ["part.parquet"; "data"] = None /\
  holds self "a" d' ["data"] = holds self "a" (disk nothing) ["data"].
Proof.
  destruct (storage_keeps_to_its_pond self "b" false (disk nothing) (drop_pond self "b" (disk nothing)).2)
    as [_ Ho]; [right; right; left|].
  specialize (Ho "a" ["data"] ltac:(discriminate)).
  destruct (drop_pond self "b" (disk nothing)) as [r d'] eqn:E. split; [|split; [|exact Ho]].
  - change r with (r, d').1. rewrite <- E. vm_compute. reflexivity.
  - change d' with (r, d').2. rewrite <- E. vm_compute. reflexivity.
Defined.

Lemma storage_is_the_map_of_ponds_witness :
  let d' := (ensure_pond self "b" true (disk nothing)).2 in
  holds self "b" d' ["lineage"] = Some Dir /\
  holds self "b" d' ["part.parquet"; "data"] = Some (File "PAR1").
Proof.
  destruct (storage_is_the_map_of_ponds self "b" true (disk nothing) (disk_is_tree _) (fun _ => eq_refl))
    as (_ & He & _).
  destruct (ensure_pond self "b" true (disk nothing)) as [r d'] eqn:E. cbn [snd].
  assert (Hr : is_ok r = true).
  { change r with (r, d').1. rewrite <- E. vm_compute. reflexivity. }
  destruct r as [loc|]; [|discriminate Hr]. destruct He as (_ & _ & _ & Hf).
  split; rewrite Hf; vm_compute; reflexivity.
Defined.

(** a pond whose creation failed after its directory was made is taken for one that was
    provided: it is found, and its data directory is never made. *)
Theorem half_made_pond_is_served :
  let full q := if bool_decide (q = ["data"; "a"; "ponds"]) then Some "disk full" else None in
  let (r, d1) := create_pond self "a" false (disk full) in
  r = Err (StorageError.Io "disk full") /\
  let d2 := {| tree := tree d1; hidden := hidden d1; refuses := nothing |} in
  ensure_pond self "a" false d2 = (Ok (location_for self "a"), d2) /\
  holds self "a" d2 ["data"] = None.
Proof. vm_compute. repeat split. Qed.
End SampleDisk.
