(* ===== verification/Cli.v ===== *)
(** * The command line

    Models [latiq/src/lib.rs]: what the flags of a server configure, how a command finds
    the server it talks to, every command over the Admin, Control and Data services, and
    what it prints.  Flags are parsed by the clap crate; a [Process] is one invocation:
    the servers it can reach, what it has written, and what it has sent. *)
From S2P Require Import Prelude Errors Extensions Policy Common Sql Plan Interfaces Auth Wire.
From S2P Require Import ControlPlane Ops Admin DataService Mcp Storage.
#[local] Open Scope rust_scope.
#[local] Arguments String.append !_ _ / : simpl nomatch.

(** ** What the flags mean *)

Module Flags.

(** A blank value is no value. *)
Definition non_blank (v : option string) : option string :=
  match v with
  | Some s => let t := trim s in if String.eqb t EmptyString then None else Some t
  | None => None
  end.

Definition bearer_of (token : option string) : option string := non_blank token.

Definition dangerous_flag (v : option string) (name : string) : result bool string :=
  match ascii_lowercase <$> non_blank v with
  | None => Ok false
  | Some w =>
      if existsb (String.eqb w) ["false"; "0"; "no"] then Ok false
      else if existsb (String.eqb w) ["true"; "1"; "yes"] then Ok true
      else
        Err (name +:+ " is set to '" +:+ w
               +:+ "', which is neither true nor false. Leave it unset (the "
               +:+ "safe default) or set it to true.")
  end.

Definition AUDIENCE_REQUIRED : string :=
  "--auth-issuer is set but --auth-audience is not. Without an audience a token minted "
    +:+ "for any other service that trusts the same issuer would be accepted here. Set "
    +:+ "--auth-audience (or $LATIQ_AUTH_AUDIENCE) to the audience this deployment expects.".

Definition one_issuer (n : nat) : string :=
  "--auth-jwks-uri cannot be used with " +:+ pretty n
    +:+ " issuers: it names ONE issuer's key set and "
    +:+ "there is no way to tell which. Configure a single issuer, or drop the flag and let "
    +:+ "each issuer's JWKS be discovered from its own URL.".

Definition auth_config (issuers : list string) (audience jwks_uri allow_insecure_jwks : option string) :
    result (option Verify.AuthConfig) string :=
  let issuers := omap (fun i => non_blank (Some i)) issuers in
  match issuers with
  | [] => Ok None
  | _ =>
      match non_blank audience with
      | None => Err AUDIENCE_REQUIRED
      | Some audience =>
          let jwks_uri := non_blank jwks_uri in
          if is_Some_b jwks_uri && (1 <? length issuers) then Err (one_issuer (length issuers))
          else
            let? insecure := dangerous_flag allow_insecure_jwks
                               "--auth-allow-insecure-jwks / LATIQ_AUTH_ALLOW_INSECURE_JWKS" in
            Ok (Some {| Verify.audience := audience;
                        Verify.issuers := map (fun i => {| Verify.issuer := i;
                                                           Verify.jwks_uri := jwks_uri |}) issuers;
                        Verify.allow_insecure_jwks := insecure |})
      end
  end.

Definition advertise_endpoint (advertise_addr : option string) (port : N) : string :=
  let raw :=
    match advertise_addr with
    | Some a => if str_contains ":" a then a else a +:+ ":" +:+ pretty port
    | None => "127.0.0.1:" +:+ pretty port
    end in
  if starts_with "http://" raw || starts_with "https://" raw then raw else "http://" +:+ raw.

Definition U16_MAX : N := 2 ^ 16 - 1.

(** [u16::saturating_add], and [+] of a build without overflow checks. *)
Definition saturating_add (a b : N) : N := N.min (a + b) U16_MAX.
Definition wrapping_add (a b : N) : N := (a + b) mod (U16_MAX + 1).

Record ServeArgs := {
  sv_port : N;
  sv_bind : string;
  sv_root : option string;
  sv_metrics_port : option N;
  sv_auth_issuer : list string;
  sv_auth_audience : option string;
  sv_auth_jwks_uri : option string;
  sv_auth_allow_insecure_jwks : option string;
}.

Record NodeAddArgs := {
  na_node_id : string;
  na_port : N;
  na_bind : string;
  na_advertise_addr : option string;
  na_public_mcp_url : option string;
  na_root : option string;
  na_metrics_port : option N;
  na_auth_issuer : list string;
  na_auth_audience : option string;
  na_auth_jwks_uri : option string;
  na_auth_allow_insecure_jwks : option string;
  na_lineage_backend_url : option string;
  na_query_timeout_ms : N;
  na_query_timeout_max_ms : N;
}.

(** What a pond node is started with ([latiq_pond_node::PondNodeConfig]). *)
Record PondNodeConfig := {
  node_id : string;
  mcp_addr : SocketAddr;
  data_addr : SocketAddr;
  internal_endpoint : string;
  control_endpoint : string;
  public_mcp_url : option string;
  data_dir : PathBuf;
  metrics_addr : option SocketAddr;
  auth : option Verify.AuthConfig;
  lineage_backend_url : option string;
  timeouts : Timeout.QueryTimeouts;
}.

Definition metrics_of (bind : string) (main_port : N) (metrics_port : option N) : string :=
  bind +:+ ":" +:+ pretty (default (saturating_add main_port 1000) metrics_port).

Section roles.
(** [str::parse::<SocketAddr>]. *)
Variable parse_addr : string -> result SocketAddr string.

(** [run_serve] up to its listener: the address, the metrics address, and the config;
    [opened] is the registry under its root, where both could be had. *)
Definition serve_config (opened : result unit string) (a : ServeArgs) :
    result (SocketAddr * SocketAddr * option Verify.AuthConfig) string :=
  let? auth := auth_config (sv_auth_issuer a) (sv_auth_audience a) (sv_auth_jwks_uri a)
                 (sv_auth_allow_insecure_jwks a) in
  let? _ := opened in
  let? addr := parse_addr (sv_bind a +:+ ":" +:+ pretty (sv_port a)) in
  let? metrics := parse_addr (metrics_of (sv_bind a) (sv_port a) (sv_metrics_port a)) in
  Ok (addr, metrics, auth).

(** [run_node_add] up to the node's start; [made] is the data root, where it could be
    made, and [control] the control plane. *)
Definition node_config (made : result PathBuf string) (control : string) (a : NodeAddArgs) :
    result PondNodeConfig string :=
  let? auth := auth_config (na_auth_issuer a) (na_auth_audience a) (na_auth_jwks_uri a)
                 (na_auth_allow_insecure_jwks a) in
  let? timeouts := Timeout.new (na_query_timeout_ms a) (na_query_timeout_max_ms a) in
  let? root := made in
  let data_addr := na_bind a +:+ ":" +:+ pretty (na_port a) in
  let mcp_addr := na_bind a +:+ ":" +:+ pretty (wrapping_add (na_port a) 1) in
  let? metrics := parse_addr (metrics_of (na_bind a) (na_port a) (na_metrics_port a)) in
  let advertise := advertise_endpoint (na_advertise_addr a) (na_port a) in
  let? mcp := parse_addr mcp_addr in
  let? data := parse_addr data_addr in
  Ok {| node_id := na_node_id a; mcp_addr := mcp; data_addr := data;
        internal_endpoint := advertise; control_endpoint := control;
        public_mcp_url := non_blank (na_public_mcp_url a);
        data_dir := Fs.join root "ponds"; metrics_addr := Some metrics; auth := auth;
        lineage_backend_url := non_blank (na_lineage_backend_url a); timeouts := timeouts |}.
End roles.

(** [key=value] flags: the last of a key holds. *)
Fixpoint parse_kv_into (items : list string) (flag : string) (out : gmap string string) :
    result (gmap string string) string :=
  match items with
  | [] => Ok out
  | it :: items =>
      match split_once "=" it with
      | None => Err (flag +:+ " must be KEY=VALUE (got '" +:+ it +:+ "')")
      | Some (k, v) => parse_kv_into items flag (<[trim k := trim v]> out)
      end
  end.

Definition parse_kv (items : list string) (flag : string) : result (gmap string string) string :=
  parse_kv_into items flag ∅.

Definition server_role_unavailable (role : string) : string :=
  "`latiq " +:+ role +:+ "` needs the full build; this is latiq-admin, the lean operator CLI "
    +:+ "(client commands only — no control plane, no pond node, no query engine)." +:+ nl
    +:+ nl
    +:+ "To run a server:" +:+ nl
    +:+ "  pip install latiq       # then: latiq " +:+ role
    +:+ " …   (SDK + engine + server roles)" +:+ nl
    +:+ "  docker compose up -d    # the published images: "
    +:+ "https://github.com/neonexia/latiq/blob/main/deploy/README.md" +:+ nl
    +:+ nl
    +:+ "To drive a cluster someone else runs, this build is the right one — set "
    +:+ "LATIQ_SERVER and use `latiq pond list` / `latiq stats`.".
End Flags.

(** ** What is printed *)

(** The escapes of a terminal, or none. *)
Record Style := { bold : string; dim : string; green : string; red : string; rst : string }.

Module Term.

Definition spaces (n : nat) : string := str_concat (repeat " " n).

Definition width (s : string) : nat := length (chars s).

(** [{:<w$}], [{:>w$}]: padded by characters, and never cut. *)
Definition left (w : nat) (s : string) : string := s +:+ spaces (w - width s).
Definition right (w : nat) (s : string) : string := spaces (w - width s) +:+ s.

Definition line_of (s : string) : string := s +:+ nl.
Definition text_of (lines : list string) : string := str_concat (map line_of lines).

Section tables.
Variable style : Style.

(** The widths a table's columns take: those of the cells by [measure]. *)
Definition widen (measure : string -> nat) (w : list nat) (row : list string) : list nat :=
  zip_with (fun w c => Nat.max w (measure c)) w row ++ drop (length row) w.

Definition widths (measure : string -> nat) (header : list string) (rows : list (list string)) :
    list nat :=
  foldl (widen measure) (map measure header) rows.

(** One row of [print_kv_table], from its [i]th cell. *)
Fixpoint kv_cells (right_col i : nat) (w : list nat) (cells : list string) : string :=
  match cells, w with
  | [], _ | _, [] => EmptyString
  | c :: cells, w :: ws =>
      (if (0 <? i)%nat then "  " else EmptyString)
        +:+ (match cells with
             | [] => c
             | _ => if (i =? right_col)%nat then right w c else left w c
             end)
        +:+ kv_cells right_col (S i) ws cells
  end.

Definition kv_table (header : list string) (rows : list (list string)) (right_col : nat)
    (empty : string) : list string :=
  match rows with
  | [] => [dim style +:+ empty +:+ rst style]
  | _ =>
      let w := widths String.length header rows in
      (dim style +:+ kv_cells right_col 0 w header +:+ rst style)
        :: map (kv_cells right_col 0 w) rows
  end.

(** *** Results *)

Section json.
Context `{!Floats} `{!Serde}.

Definition cell_str (v : Json) : string :=
  match v with
  | Null => EmptyString
  | Str s => s
  | Bool b => if b then "true" else "false"
  | v => to_string v
  end.

Fixpoint cells_line (w : list nat) (cells : list string) : list string :=
  match cells with
  | [] => []
  | c :: cells => left (hd 0 w) c :: cells_line (tl w) cells
  end.

Definition print_table (columns rows : list Json) : list string :=
  let headers := map (fun c => default EmptyString (as_str c)) columns in
  let body := map (fun r => match as_array r with Some cells => map cell_str cells | None => [] end)
                rows in
  let w := widths width headers body in
  let line cells := join " | " (cells_line w cells) in
  let rule := join "-+-" (map (fun n => str_concat (repeat "-" n)) w) in
  [EmptyString; rule; line headers; rule] ++ map line body
    ++ ["(" +:+ pretty (length body) +:+ " row" +:+ (if (length body =? 1)%nat then EmptyString else "s")
          +:+ ")"].
End json.

(** *** Ponds and nodes *)

Definition UNCAPPED : string := "engine default".

Definition fmt_bytes (bytes : N) : string :=
  if ((Tier.GB <=? bytes) && (bytes mod Tier.GB =? 0))%N then pretty (bytes / Tier.GB)%N +:+ " GB"
  else if (Tier.MB <=? bytes)%N then pretty (bytes / Tier.MB)%N +:+ " MB"
  else pretty bytes +:+ " B".

Definition memory_of (l : option Tier.ResourceLimits) : string :=
  match l with Some l => fmt_bytes (Tier.memory_bytes l) | None => UNCAPPED end.
Definition cores_of (l : option Tier.ResourceLimits) : string :=
  match l with Some l => pretty (Tier.cores l) | None => UNCAPPED end.

(** [str::trim_end]. *)
Definition trim_end (s : string) : string := str_concat (rev (skip_while is_whitespace (rev (chars s)))).

Definition POND_HEADER : list string :=
  ["NAME"; "TIER"; "MEMORY"; "CORES"; "NODE"; "OWNER"; "POND ID"; "DESCRIPTION"].

Definition tier_of (p : Admin.PondSummary) : Tier.PondTier :=
  default Tier.default (Tier.parse (Admin.s_tier p)).

Definition pond_cells (p : Admin.PondSummary) : list string :=
  let tier := tier_of p in
  let l := Tier.limits tier in
  [Admin.s_name p; Tier.as_str tier; memory_of l; cores_of l; Admin.s_node_id p; Admin.s_owner p;
   Admin.s_pond_id p; Admin.s_description p].

Definition pond_list_table (ponds : list Admin.PondSummary) : list string :=
  match ponds with
  | [] => [dim style +:+ "no ponds" +:+ rst style]
  | _ =>
      let rows := map pond_cells ponds in
      let w := widths String.length POND_HEADER rows in
      let fmt_row cells := trim_end (join "  " (cells_line w cells)) in
      (dim style +:+ fmt_row POND_HEADER +:+ rst style) :: map fmt_row rows
  end.

(** *** The snapshot of [stats] *)

Definition TIERS : list Tier.PondTier :=
  [Tier.XSmall; Tier.Small; Tier.Medium; Tier.Large; Tier.XLarge; Tier.None_].

Definition count (t : Tier.PondTier) (ponds : list Admin.PondSummary) : nat :=
  length (List.filter (fun p => bool_decide (tier_of p = t)) ponds).

(** The tiers in use, in their order. *)
Definition tier_rows (ponds : list Admin.PondSummary) :
    list (Tier.PondTier * nat * option Tier.ResourceLimits) :=
  omap (fun t => if (count t ponds =? 0)%nat then None
                 else Some (t, count t ponds, Tier.limits t)) TIERS.

Definition is_active (n : Admin.NodeInfo) : bool := String.eqb (Admin.n_state n) "active".

Definition BAR : string := str_concat (repeat "━" 42).

Definition tier_line (r : Tier.PondTier * nat * option Tier.ResourceLimits) : string :=
  let '(t, n, l) := r in
  "   " +:+ left 10 (Tier.as_str t) +:+ " " +:+ right 5 (pretty n) +:+ "  " +:+ right 7 (memory_of l)
    +:+ "  " +:+ right 5 (cores_of l).

Definition node_line (n : Admin.NodeInfo) : string :=
  let sc := if is_active n then green style else red style in
  "   " +:+ left 11 (Admin.n_node_id n) +:+ " " +:+ sc +:+ left 6 (Admin.n_state n) +:+ rst style
    +:+ " " +:+ right 5 (pretty (Admin.n_pond_count n)) +:+ "  "
    +:+ right 7 (pretty (Admin.n_heartbeat_age_seconds n)) +:+ "s ago  " +:+ Admin.n_mcp_endpoint n.

Definition stats_dashboard (nodes : list Admin.NodeInfo) (ponds : list Admin.PondSummary) :
    list string :=
  let '(b, d, r) := (bold style, dim style, rst style) in
  let active := length (List.filter is_active nodes) in
  let down := (length nodes - active)%nat in
  let down_c := if (0 <? down)%nat then red style else d in
  let tiers := tier_rows ponds in
  [EmptyString;
   b +:+ " " +:+ BAR +:+ r;
   b +:+ "  latiq" +:+ r +:+ " " +:+ d +:+ "· system snapshot" +:+ r;
   b +:+ " " +:+ BAR +:+ r;
   EmptyString;
   "   " +:+ d +:+ "nodes" +:+ r +:+ "  " +:+ pretty (length nodes) +:+ " total · " +:+ green style
     +:+ pretty active +:+ " active" +:+ r +:+ " · " +:+ down_c +:+ pretty down +:+ " down" +:+ r;
   "   " +:+ d +:+ "ponds" +:+ r +:+ "  " +:+ pretty (length ponds) +:+ " total"]
  ++ (match tiers with
      | [] => []
      | _ => [EmptyString; "   " +:+ d +:+ "TIER       PONDS   MEMORY   CORES" +:+ r]
               ++ map tier_line tiers
      end)
  ++ [EmptyString; "   " +:+ d +:+ "NODE        STATE   PONDS  LAST BEAT    ENDPOINT" +:+ r]
  ++ map node_line nodes ++ [EmptyString].
End tables.
End Term.

(** ** The servers a command talks to *)

Module Net.

Inductive ControlRequest :=
| GetPondLocation (pond_ref : string)
| CreatePondAssignment (r : Service.CreatePondAssignmentRequest)
| GetPondInfo (pond_ref : string).

(** A message to one of the three services, and what it is answered with. *)
Inductive Message :=
| ToControl (r : ControlRequest)
| ToAdmin (r : Admin.Request)
| ToData (r : Rpc.Request).

Definition AdminReply (r : Admin.Request) : Type :=
  match r with
  | Admin.ListNodes => list Admin.NodeInfo
  | Admin.DescribeNode _ => option Admin.NodeInfo
  | Admin.PolicyGet => string
  | Admin.PondList => list Admin.PondSummary
  | Admin.PondSetTier _ _ => string * string
  | Admin.PondForget _ _ => string * string * string * string
  | Admin.DatasetAdd _ => string
  | Admin.DatasetList _ => list Service.DatasetMsg
  | Admin.CatalogAdd _ => string * list string
  | Admin.CatalogList _ => list Service.CatalogMsg
  | Admin.PolicySet _ _ | Admin.DatasetRemove _ | Admin.CatalogRemove _ => unit
  end.

Definition DataReply (r : Rpc.Request) : Type :=
  match r with
  | Rpc.AllocatePond _ _ _ _ => string * string
  | Rpc.MaterializePond _ | Rpc.DropPond _ _ => unit
  | _ => string
  end.

Definition Reply (m : Message) : Type :=
  match m with
  | ToControl (GetPondLocation _) => string
  | ToControl (CreatePondAssignment _) => string
  | ToControl (GetPondInfo _) => option string
  | ToAdmin r => AdminReply r
  | ToData r => DataReply r
  end.

(** A refusal, with the text [tonic] shows of it. *)
Record Status := { message : string; details : string; shown : string }.

Class Net (W : Type) := {
  (** [Channel::from_shared(..).ok()?.connect().ok()]: whether there is a channel. *)
  dial : string -> W -> bool * W;
  rpc : string -> Service.Metadata -> forall m : Message, W -> result (Reply m) Status * W;
}.

(** One message sent: where, with which headers, and how it was answered. *)
Record Sent := {
  to_ : string;
  md : Service.Metadata;
  msg : Message;
  reply : result (Reply msg) Status;
}.
End Net.

(** How a command ends but for success: an error returned to [main], or the process
    left with a code. *)
Inductive Failure := Anyhow (m : string) | Exit (code : N).

(** One invocation. *)
Record Process (W : Type) := {
  net : W;
  stdout : string;
  stderr : string;
  sent : list Net.Sent;
}.
Arguments net {W}.
Arguments stdout {W}.
Arguments stderr {W}.
Arguments sent {W}.

(** What the environment and the invocation say. *)
Record Env := {
  latiq_server : option string;
  latiq_query_gateway : option string;
  token : option string;
  style : Style;
}.

(** The pretty printer of the JSON crate. *)
Class Pretty `{!Floats} := { to_string_pretty : Json -> string }.

(** ** The commands *)

Module Cmd.
Inductive Format := Tabular | Json_.

Inductive DatasetCmd :=
| DatasetAdd (name : string) (tables : list string) (format description : string)
    (tags : list string)
| DatasetList (query : option string)
| DatasetRemove (name : string)
| DatasetLoad (name pond : string) (agent_id : option string).

Inductive CatalogCmd :=
| CatalogAdd (name type_ : string) (set : list string) (description : string) (tags : list string)
| CatalogList (query : option string)
| CatalogDescribe (name pond : string) (set : list string) (agent_id : option string)
| CatalogPull (name pond query : string) (set : list string) (agent_id : option string)
| CatalogRemove (name : string).

Inductive PondCmd :=
| PondCreate (name : option string) (tier : string) (extensions agent_id description : option string)
    (lineage : bool)
| PondList (format : Format)
| PondDescribe (pond : string)
| PondDrop (pond : string) (confirm : bool)
| PondForget (pond : string) (confirm : bool)
| PondSetTier (pond tier : string).

Record QueryArgs := {
  q_pond : string;
  q_sql : string;
  q_agent_id : option string;
  q_format : Format;
  q_timeout_ms : option N;
}.

(** The commands that talk to a server; the others are servers. *)
Inductive Command :=
| NodeList
| NodeDescribe (node_id : string)
| Pond (c : PondCmd)
| Query (a : QueryArgs)
| Dataset (c : DatasetCmd)
| Catalog (c : CatalogCmd)
| Stats (format : Format).
End Cmd.

Module Cli.
Import Net Cmd Term.
Section cli.
Context {W : Type} `{!Net W} `{!Floats} `{!Serde} `{!Pretty} `{!Codec}.
Variable env : Env.
(** Whether a text can be a header's value. *)
Variable header_ok : string -> bool.
Notation Process := (Process W).
Notation MR A := (M Process (result A Failure)).

Definition TAB : string := of_bytes [9%N].

(** *** Printing *)

Definition print (s : string) : M Process unit := fun p =>
  (tt, {| net := net p; stdout := stdout p +:+ s; stderr := stderr p; sent := sent p |}).
Definition println (s : string) : M Process unit := print (s +:+ nl).
Definition eprintln (s : string) : M Process unit := fun p =>
  (tt, {| net := net p; stdout := stdout p; stderr := stderr p +:+ s +:+ nl; sent := sent p |}).
Definition print_lines (l : list string) : M Process unit := print (text_of l).

Definition done : MR unit := ret (Ok tt).
Definition fail {A} (m : string) : MR A := ret (Err (Anyhow m)).

(** An error's envelope where the status carries one, then exit. *)
Definition print_status {A} (st : Status) : MR A :=
  (match decode_envelope (details st) with
   | Some e =>
       eprintln ("error [" +:+ Kind.as_str (kind e) +:+ "]: " +:+ Errors.message e) ;;
       (if String.eqb (suggest e) EmptyString then ret tt else eprintln ("  suggest: " +:+ suggest e)) ;;
       (if String.eqb (see e) EmptyString then ret tt else eprintln ("  see: " +:+ see e))
   | None => eprintln ("error: " +:+ message st)
   end) ;;
  ret (Err (Exit 1)).

(** [.map_err(render_status)?], and [?] on a status as it is. *)
Definition rendered {A} (r : result A Status) : MR A :=
  match r with Ok a => ret (Ok a) | Err st => print_status st end.
Definition raised {A} (r : result A Status) : MR A :=
  match r with Ok a => ret (Ok a) | Err st => fail (shown st) end.

(** *** Clients *)

Definition DEFAULT_CONTROL : string := "http://127.0.0.1:51400".

Definition control_addr : string := default DEFAULT_CONTROL (latiq_server env).

(** The token of the invocation on every request. *)
Definition auth_interceptor (md : Service.Metadata) : Service.Metadata :=
  match Flags.bearer_of (token env) with
  | Some t =>
      let value := "Bearer " +:+ t in
      if header_ok value then
        {| Service.latiq_agent_id := Service.latiq_agent_id md; Service.authorization := Some value;
           Service.traceparent := Service.traceparent md |}
      else md
  | None => md
  end.

Definition with_id (agent_id : option string) : Service.Metadata :=
  {| Service.latiq_agent_id :=
       match agent_id with Some id => if header_ok id then Some id else None | None => None end;
     Service.authorization := None; Service.traceparent := None |}.

Definition connect (endpoint : string) (unreachable : string) : MR unit := fun p =>
  let (up, w) := dial endpoint (net p) in
  (if up then Ok tt else Err (Anyhow unreachable),
   {| net := w; stdout := stdout p; stderr := stderr p; sent := sent p |}).

Definition call (endpoint : string) (agent_id : option string) (m : Message) :
    M Process (result (Reply m) Status) := fun p =>
  let md := auth_interceptor (with_id agent_id) in
  let (r, w) := rpc endpoint md m (net p) in
  (r, {| net := w; stdout := stdout p; stderr := stderr p;
         sent := sent p ++ [{| to_ := endpoint; md := md; msg := m; reply := r |}] |}).

Definition unreachable_control (addr : string) : string :=
  "could not reach the control plane at " +:+ addr
    +:+ ". Is it running, and is $LATIQ_SERVER set to its address? Start one with `latiq serve`.".

Definition unreachable_node (endpoint : string) : string :=
  "could not reach the pond node at " +:+ endpoint
    +:+ ". Is it up? Start one with `latiq node add`.".

Definition control_client : MR unit := connect control_addr (unreachable_control control_addr).
Definition admin_client : MR unit := connect control_addr (unreachable_control control_addr).
Definition data_client (endpoint : string) : MR unit := connect endpoint (unreachable_node endpoint).

Definition control (r : ControlRequest) := call control_addr None (ToControl r).
Definition admin (r : Admin.Request) := call control_addr None (ToAdmin r).
Definition data (endpoint : string) (agent_id : option string) (r : Rpc.Request) :=
  call endpoint agent_id (ToData r).

Definition resolve_node (pond_ref : string) : MR string :=
  try! _ := control_client in
  let! loc := control (GetPondLocation pond_ref) in
  rendered loc.

Definition data_target (pond_ref : string) : MR string :=
  match latiq_query_gateway env with
  | Some gw => if negb (String.eqb gw EmptyString) then ret (Ok gw) else resolve_node pond_ref
  | None => resolve_node pond_ref
  end.

(** *** Results *)

Definition json (l : list (string * Json)) : Json :=
  Cell.object l.

Definition print_json_result (res : result string Status) : MR unit :=
  match res with
  | Ok json =>
      println (match from_str json with Ok v => to_string_pretty v | Err _ => json end) ;; done
  | Err st => print_status st
  end.

Definition write_line (v : Json) : string :=
  match meta ← Plan.get v "_meta"; Plan.get meta "snapshot_id" with
  | None | Some Null => "ok"
  | Some s => "ok (snapshot " +:+ to_string s +:+ ")"
  end.

Definition print_table_result (res : result string Status) : MR unit :=
  match res with
  | Err st => print_status st
  | Ok json =>
      match from_str json with
      | Err _ => println json ;; done
      | Ok v =>
          match cs ← Plan.get v "columns"; as_array cs, rs ← Plan.get v "rows"; as_array rs with
          | Some (c :: cols), Some rows => print_lines (print_table (c :: cols) rows) ;; done
          | Some [], Some _ => println (write_line v) ;; done
          | _, _ => println (to_string_pretty v) ;; done
          end
      end
  end.

Definition node_to_json (n : option Admin.NodeInfo) : Json :=
  match n with
  | Some n =>
      json [("node_id", Str (Admin.n_node_id n)); ("mcp_endpoint", Str (Admin.n_mcp_endpoint n));
            ("state", Str (Admin.n_state n)); ("pond_count", Derive.of_N (Admin.n_pond_count n));
            ("last_heartbeat", Str (Admin.n_last_heartbeat n));
            ("heartbeat_age_seconds", Derive.of_N (Admin.n_heartbeat_age_seconds n))]
  | None => Null
  end.

(** *** [query] *)

Definition run_query (a : QueryArgs) : MR unit :=
  try! node := data_target (q_pond a) in
  try! _ := data_client node in
  let timeout := default 0%N (q_timeout_ms a) in
  let! res :=
    if Sql.is_read_only (q_sql a)
    then data node (q_agent_id a) (Rpc.ReadQuery (q_pond a) (q_sql a) timeout)
    else data node (q_agent_id a) (Rpc.WriteQuery (q_pond a) (q_sql a) timeout) in
  match q_format a with
  | Json_ => print_json_result res
  | Tabular => print_table_result res
  end.

(** *** [pond] *)

Definition pond_create (name : option string) (tier : string)
    (extensions agent_id description : option string) (lineage : bool) : MR unit :=
  try! _ := match name with
            | Some n => match PondName.validate n with Ok _ => done | Err m => fail m end
            | None => done
            end in
  match Extensions.validate (Extensions.parse_csv (default EmptyString extensions)) with
  | Err msg => fail msg
  | Ok exts =>
      try! _ := control_client in
      let! r := control (CreatePondAssignment
        {| Service.name := default EmptyString name;
           Service.owner_identity := default "anonymous" agent_id;
           Service.policy_json := "{}"; Service.tier := tier; Service.extensions := exts;
           Service.description := default EmptyString description; Service.lineage := lineage |}) in
      match r with
      | Err st => print_status st
      | Ok pond_id =>
          let! info := control (GetPondInfo pond_id) in
          let pond_name := match info with Ok (Some n) => n | _ => EmptyString end in
          println (to_string (json [("pond_id", Str pond_id); ("pond_name", Str pond_name)])) ;;
          done
      end
  end.

Definition pond_json (p : Admin.PondSummary) : Json :=
  json [("pond_id", Str (Admin.s_pond_id p)); ("name", Str (Admin.s_name p));
        ("owner", Str (Admin.s_owner p)); ("node_id", Str (Admin.s_node_id p));
        ("tier", Str (Admin.s_tier p)); ("created_at", Str (Admin.s_created_at p));
        ("description", Str (Admin.s_description p)); ("lineage", Bool (Admin.s_lineage p))].

Definition pond_list (format : Format) : MR unit :=
  try! _ := admin_client in
  let! r := admin Admin.PondList in
  try! ponds := raised r in
  (match format with
   | Json_ => println (to_string_pretty (Array (map pond_json ponds)))
   | Tabular => print_lines (pond_list_table (style env) ponds)
   end) ;; done.

Definition pond_describe (pond : string) : MR unit :=
  try! node := data_target pond in
  try! _ := data_client node in
  let! res := data node None (Rpc.DescribePond pond) in
  print_json_result res.

Definition pond_set_tier (pond tier : string) : MR unit :=
  try! _ := admin_client in
  let! r := admin (Admin.PondSetTier pond tier) in
  try! r := rendered r in
  println (to_string (json [("pond", Str r.1); ("tier", Str r.2);
                            ("note", Str "applies on the pond's next query")])) ;; done.

Definition forgotten_note (node_id : string) : string :=
  "registry record removed. NO DATA WAS DELETED — any files for this pond on node '"
    +:+ node_id +:+ "' are now orphaned there.".

Definition pond_forget (pond : string) (confirm : bool) : MR unit :=
  try! _ := admin_client in
  let! r := admin (Admin.PondForget pond confirm) in
  match r with
  | Err st => print_status st
  | Ok (pond_id, name, node_id, node_state) =>
      println (to_string (json [("status", Str "forgotten"); ("pond", Str name);
        ("pond_id", Str pond_id); ("node_id", Str node_id); ("node_state", Str node_state);
        ("note", Str (forgotten_note node_id))])) ;; done
  end.

Definition pond_drop (pond : string) (confirm : bool) : MR unit :=
  try! node := data_target pond in
  try! _ := data_client node in
  let! r := data node None (Rpc.DropPond pond confirm) in
  match r with
  | Err st => print_status st
  | Ok _ => println (to_string (json [("status", Str "dropped"); ("pond", Str pond)])) ;; done
  end.

Definition run_pond_cmd (c : PondCmd) : MR unit :=
  match c with
  | PondCreate name tier extensions agent_id description lineage =>
      pond_create name tier extensions agent_id description lineage
  | PondList format => pond_list format
  | PondDescribe pond => pond_describe pond
  | PondSetTier pond tier => pond_set_tier pond tier
  | PondForget pond confirm => pond_forget pond confirm
  | PondDrop pond confirm => pond_drop pond confirm
  end.

(** *** [dataset] *)

Fixpoint table_msgs (format : string) (tables : list string) :
    result (list Service.DatasetTableMsg) string :=
  match tables with
  | [] => Ok []
  | t :: tables =>
      match split_once "=" t with
      | None => Err ("--table must be NAME=URI (got '" +:+ t +:+ "')")
      | Some (tn, uri) =>
          let? msgs := table_msgs format tables in
          Ok ({| Service.t_table_name := trim tn; Service.t_source_uri := trim uri;
                 Service.t_format := format |} :: msgs)
      end
  end.

(** An error of [main]'s. *)
Definition checked {A} (r : result A string) : MR A :=
  match r with Ok a => ret (Ok a) | Err m => fail m end.

Definition dataset_add (name : string) (tables : list string) (format description : string)
    (tags : list string) : MR unit :=
  try! msgs := checked (table_msgs format tables) in
  try! _ := admin_client in
  let! r := admin (Admin.DatasetAdd (Some
    {| Service.d_name := name; Service.d_description := description; Service.d_tags := tags;
       Service.d_tables := msgs; Service.d_created_by := "anonymous";
       Service.d_created_at := EmptyString |})) in
  try! added := rendered r in
  println ("added " +:+ added) ;; done.

Definition dataset_cells (d : Service.DatasetMsg) : list string :=
  [Service.d_name d; join "," (Service.d_tags d); pretty (length (Service.d_tables d));
   Service.d_description d].

Definition dataset_list (query : option string) : MR unit :=
  try! _ := admin_client in
  let! r := admin (Admin.DatasetList (default EmptyString query)) in
  try! datasets := rendered r in
  print_lines (kv_table (style env) ["NAME"; "TAGS"; "TABLES"; "DESCRIPTION"]
    (map dataset_cells datasets) 2 "no datasets") ;; done.

Definition dataset_remove (name : string) : MR unit :=
  try! _ := admin_client in
  let! r := admin (Admin.DatasetRemove name) in
  try! _ := rendered r in
  println ("removed " +:+ name) ;; done.

Definition loaded_tables (json : string) : nat :=
  match ts ← Plan.get (default Null (res_ok (from_str json))) "tables"; as_array ts with
  | Some ts => length ts
  | None => 0%nat
  end.

Definition dataset_load (name pond : string) (agent_id : option string) : MR unit :=
  try! node := data_target pond in
  try! _ := data_client node in
  print ("loading " +:+ name +:+ " into " +:+ pond +:+ " … ") ;;
  let! r := data node agent_id (Rpc.LoadDataset pond name) in
  match r with
  | Ok resp =>
      let n := loaded_tables resp in
      println ("ok (" +:+ pretty n +:+ " table" +:+ (if (n =? 1)%nat then EmptyString else "s") +:+ ")") ;;
      done
  | Err st => println "FAILED" ;; print_status st
  end.

Definition run_dataset_cmd (c : DatasetCmd) : MR unit :=
  match c with
  | DatasetAdd name tables format description tags =>
      dataset_add name tables format description tags
  | DatasetList query => dataset_list query
  | DatasetRemove name => dataset_remove name
  | DatasetLoad name pond agent_id => dataset_load name pond agent_id
  end.

(** *** [catalog] *)

Definition catalog_add (name type_ : string) (set : list string) (description : string)
    (tags : list string) : MR unit :=
  try! params := checked (Flags.parse_kv set "--set") in
  try! _ := admin_client in
  let! r := admin (Admin.CatalogAdd (Some
    {| Service.c_name := name; Service.c_type := type_; Service.c_params := params;
       Service.c_description := description; Service.c_tags := tags;
       Service.c_created_by := "anonymous"; Service.c_created_at := EmptyString |})) in
  try! added := rendered r in
  println ("added " +:+ added.1) ;;
  match added.2 with
  | [] => done
  | dropped => println ("  (not stored, pass at pull: " +:+ join ", " dropped +:+ ")") ;; done
  end.

Definition catalog_cells (c : Service.CatalogMsg) : list string :=
  [Service.c_name c; Service.c_type c; join "," (Service.c_tags c); Service.c_description c].

Definition catalog_list (query : option string) : MR unit :=
  try! _ := admin_client in
  let! r := admin (Admin.CatalogList (default EmptyString query)) in
  try! catalogs := rendered r in
  print_lines (kv_table (style env) ["NAME"; "TYPE"; "TAGS"; "DESCRIPTION"]
    (map catalog_cells catalogs) 99 "no catalogs") ;; done.

Definition catalog_describe (name pond : string) (set : list string) (agent_id : option string) :
    MR unit :=
  try! params := checked (Flags.parse_kv set "--set") in
  try! node := data_target pond in
  try! _ := data_client node in
  let! r := data node agent_id (Rpc.CatalogDescribe pond name params) in
  try! resp := rendered r in
  println resp ;; done.

Definition catalog_pull (name pond query : string) (set : list string) (agent_id : option string) :
    MR unit :=
  try! params := checked (Flags.parse_kv set "--set") in
  try! node := data_target pond in
  try! _ := data_client node in
  print ("pulling from " +:+ name +:+ " into " +:+ pond +:+ " … ") ;;
  let! r := data node agent_id (Rpc.CatalogPull pond name query params) in
  match r with
  | Ok _ => println "ok" ;; done
  | Err st => println "FAILED" ;; print_status st
  end.

Definition catalog_remove (name : string) : MR unit :=
  try! _ := admin_client in
  let! r := admin (Admin.CatalogRemove name) in
  try! _ := rendered r in
  println ("removed " +:+ name) ;; done.

Definition run_catalog_cmd (c : CatalogCmd) : MR unit :=
  match c with
  | CatalogAdd name type_ set description tags => catalog_add name type_ set description tags
  | CatalogList query => catalog_list query
  | CatalogDescribe name pond set agent_id => catalog_describe name pond set agent_id
  | CatalogPull name pond query set agent_id => catalog_pull name pond query set agent_id
  | CatalogRemove name => catalog_remove name
  end.

(** *** [node] and [stats] *)

Definition node_row (n : Admin.NodeInfo) : string :=
  Admin.n_node_id n +:+ TAB +:+ Admin.n_state n +:+ TAB +:+ "ponds=" +:+ pretty (Admin.n_pond_count n)
    +:+ TAB +:+ "beat=" +:+ pretty (Admin.n_heartbeat_age_seconds n) +:+ "s ago" +:+ TAB
    +:+ Admin.n_mcp_endpoint n.

Definition node_list : MR unit :=
  try! _ := admin_client in
  let! r := admin Admin.ListNodes in
  try! nodes := raised r in
  print_lines (map node_row nodes) ;; done.

Definition node_describe (node_id : string) : MR unit :=
  try! _ := admin_client in
  let! r := admin (Admin.DescribeNode node_id) in
  try! n := raised r in
  println (to_string_pretty (node_to_json n)) ;; done.

Definition tier_json (r : Tier.PondTier * nat * option Tier.ResourceLimits) : Json :=
  let '(t, n, l) := r in
  json [("tier", Str (Tier.as_str t)); ("count", Derive.of_N (N.of_nat n));
        ("memory_bytes", Derive.or_null (fun l => Derive.of_N (Tier.memory_bytes l)) l);
        ("cores", Derive.or_null (fun l => Derive.of_N (Tier.cores l)) l)].

Definition node_json (n : Admin.NodeInfo) : Json :=
  json [("node_id", Str (Admin.n_node_id n)); ("state", Str (Admin.n_state n));
        ("pond_count", Derive.of_N (Admin.n_pond_count n));
        ("heartbeat_age_seconds", Derive.of_N (Admin.n_heartbeat_age_seconds n));
        ("mcp_endpoint", Str (Admin.n_mcp_endpoint n))].

Definition stats_json (nodes : list Admin.NodeInfo) (ponds : list Admin.PondSummary) : Json :=
  let active := length (List.filter is_active nodes) in
  json [("nodes", json [("total", Derive.of_N (N.of_nat (length nodes)));
                        ("active", Derive.of_N (N.of_nat active));
                        ("down", Derive.of_N (N.of_nat (length nodes - active)))]);
        ("ponds", json [("total", Derive.of_N (N.of_nat (length ponds)));
                        ("by_tier", Array (map tier_json (tier_rows ponds)))]);
        ("node_detail", Array (map node_json nodes))].

Definition run_stats (format : Format) : MR unit :=
  try! _ := admin_client in
  let! r := admin Admin.ListNodes in
  try! nodes := raised r in
  let! r := admin Admin.PondList in
  try! ponds := raised r in
  (match format with
   | Json_ => println (to_string_pretty (stats_json nodes ponds))
   | Tabular => print_lines (stats_dashboard (style env) nodes ponds)
   end) ;; done.

(** [dispatch], of the commands that are clients. *)
Definition dispatch (c : Command) : MR unit :=
  match c with
  | NodeList => node_list
  | NodeDescribe node_id => node_describe node_id
  | Pond c => run_pond_cmd c
  | Query a => run_query a
  | Dataset c => run_dataset_cmd c
  | Catalog c => run_catalog_cmd c
  | Stats format => run_stats format
  end.
End cli.
End Cli.
