(* ===== verification/CliSpec.v ===== *)
(** * What a command does

    A command talks to the control plane the environment names and to the node that owns
    the pond, with the token of the invocation on every message; what a server refuses
    reaches the user as its envelope; a query prints the rows it was answered; flags
    configure all of authentication or none of it. *)
From S2P Require Import Prelude Errors Extensions Policy Common Sql Plan Interfaces Auth Wire WireSpec.
From S2P Require Import ControlPlane Ops Admin DataService Mcp Storage Cli.
Import Cli Net Cmd.
#[local] Open Scope rust_scope.
#[local] Arguments String.append !_ _ / : simpl nomatch.

(** ** What a run adds to its process *)

Record Effects := { log : list Sent; out : string; err : string }.

Definition none : Effects := {| log := []; out := EmptyString; err := EmptyString |}.
Definition plus (a b : Effects) : Effects :=
  {| log := log a ++ log b; out := out a +:+ out b; err := err a +:+ err b |}.

Section runs.
Context {W : Type} `{!Net W}.
Notation Process := (Process W).
Notation MR A := (M Process (result A Failure)).

(** [m] adds effects, and with its answer they satisfy [Q]. *)
Definition runs {A} (m : M Process A) (Q : Effects -> A -> Prop) : Prop :=
  forall p, exists e,
    let (a, p') := m p in
    sent p' = sent p ++ log e /\ stdout p' = stdout p +:+ out e /\ stderr p' = stderr p +:+ err e /\
    Q e a.

Lemma runs_mono {A} (m : M Process A) (Q Q' : Effects -> A -> Prop) :
  runs m Q -> (forall e a, Q e a -> Q' e a) -> runs m Q'.
Proof.
  intros Hm HQ p. destruct (Hm p) as [e He]. exists e. destruct (m p) as [a p'].
  destruct He as (? & ? & ? & He). auto.
Qed.

Lemma runs_ret {A} (a : A) (Q : Effects -> A -> Prop) : Q none a -> runs (ret a) Q.
Proof. intros HQ p. exists none. cbn. by rewrite app_nil_r, !str_app_nil_r. Qed.

Lemma runs_bind {A B} (m : M Process A) (k : A -> M Process B) (Q : Effects -> B -> Prop) :
  runs m (fun e a => runs (k a) (fun e' b => Q (plus e e') b)) -> runs (bind m k) Q.
Proof.
  intros Hm p. destruct (Hm p) as [e He]. unfold bind. destruct (m p) as [a p1].
  destruct He as (Hs & Ho & Hr & Hk). destruct (Hk p1) as [e' He']. exists (plus e e').
  destruct (k a p1) as [b p2]. destruct He' as (Hs' & Ho' & Hr' & HQ). cbn [plus log out err].
  rewrite Hs', Ho', Hr', Hs, Ho, Hr. by rewrite app_assoc, !str_app_assoc.
Qed.

Lemma runs_try {A B} (m : MR A) (k : A -> MR B) (Q : Effects -> result B Failure -> Prop) :
  runs m (fun e r =>
    match r with
    | Ok a => runs (k a) (fun e' b => Q (plus e e') b)
    | Err f => Q e (Err f)
    end) -> runs (try m k) Q.
Proof.
  intros Hm. apply runs_bind. eapply runs_mono; [exact Hm|]. intros e [a|f] HQ; [exact HQ|].
  apply runs_ret. destruct e. unfold plus, none. cbn. by rewrite app_nil_r, !str_app_nil_r.
Qed.

Definition wrote (s : string) : Effects := {| log := []; out := s; err := EmptyString |}.
Definition complained (s : string) : Effects := {| log := []; out := EmptyString; err := s |}.

Lemma runs_print s (Q : Effects -> unit -> Prop) : Q (wrote s) tt -> runs (print s) Q.
Proof. intros HQ p. exists (wrote s). cbn. by rewrite app_nil_r, str_app_nil_r. Qed.
Lemma runs_println s (Q : Effects -> unit -> Prop) : Q (wrote (s +:+ nl)) tt -> runs (println s) Q.
Proof. apply runs_print. Qed.
Lemma runs_print_lines l (Q : Effects -> unit -> Prop) :
  Q (wrote (Term.text_of l)) tt -> runs (print_lines l) Q.
Proof. apply runs_print. Qed.
Lemma runs_eprintln s (Q : Effects -> unit -> Prop) :
  Q (complained (s +:+ nl)) tt -> runs (eprintln s) Q.
Proof. intros HQ p. exists (complained (s +:+ nl)). cbn. by rewrite app_nil_r, str_app_nil_r. Qed.

Lemma runs_connect endpoint m (Q : Effects -> result unit Failure -> Prop) :
  Q none (Ok tt) -> Q none (Err (Anyhow m)) -> runs (connect endpoint m) Q.
Proof.
  intros HO HE p. exists none. unfold connect. destruct (dial endpoint (net p)) as [[] w]; cbn;
    by rewrite app_nil_r, !str_app_nil_r.
Qed.
End runs.

Section commands.
Context {W : Type} `{!Net W} `{!Floats} `{!Serde} `{!Pretty} `{!Codec}.
Variable env : Env.
Variable header_ok : string -> bool.
Notation Process := (Process W).
Notation MR A := (M Process (result A Failure)).
Notation dispatch := (dispatch env header_ok).

(** ** The course of a command *)

(** The token of the invocation, as a header. *)
Definition credential : option string :=
  match Flags.bearer_of (token env) with
  | Some t => if header_ok ("Bearer " +:+ t) then Some ("Bearer " +:+ t) else None
  | None => None
  end.

Definition entry (endpoint : string) (agent_id : option string) (m : Message)
    (r : result (Reply m) Status) : Sent :=
  {| to_ := endpoint; md := auth_interceptor env header_ok (with_id header_ok agent_id);
     msg := m; reply := r |}.

Lemma entry_credential endpoint agent_id m r :
  Service.authorization (md (entry endpoint agent_id m r)) = credential.
Proof.
  unfold entry, credential, auth_interceptor. cbn [md].
  destruct (Flags.bearer_of _); [|done]. by destruct (header_ok _).
Qed.

Definition pond_of (r : Rpc.Request) : string :=
  match r with
  | Rpc.AllocatePond _ _ _ _ => EmptyString
  | Rpc.MaterializePond pond | Rpc.DropPond pond _ | Rpc.DescribePond pond
  | Rpc.ReadQuery pond _ _ | Rpc.WriteQuery pond _ _ | Rpc.ExplainQuery pond _ _
  | Rpc.LoadDataset pond _ | Rpc.CatalogPull pond _ _ _ | Rpc.GetLineage pond _ _ _
  | Rpc.CatalogDescribe pond _ _ => pond
  end.

(** A message goes to the control plane, or with a pond's data to the gateway, or to the
    node the control plane said the pond is at. *)
Definition well_addressed (before : list Sent) (s : Sent) : Prop :=
  Service.authorization (md s) = credential /\
  match msg s with
  | ToControl _ | ToAdmin _ => to_ s = control_addr env
  | ToData r =>
      match latiq_query_gateway env with
      | Some gw => if negb (String.eqb gw EmptyString) then to_ s = gw
                   else entry (control_addr env) None (ToControl (GetPondLocation (pond_of r)))
                          (Ok (to_ s)) ∈ before
      | None => entry (control_addr env) None (ToControl (GetPondLocation (pond_of r)))
                  (Ok (to_ s)) ∈ before
      end
  end.

Fixpoint course (before l : list Sent) : Prop :=
  match l with
  | [] => True
  | s :: l => well_addressed before s /\ course (before ++ [s]) l
  end.

(** ** What is refused *)

Definition refusal (s : Sent) : option Status := res_err (reply s).

Definition rendering (st : Status) : string :=
  match decode_envelope (details st) with
  | Some e =>
      "error [" +:+ Kind.as_str (kind e) +:+ "]: " +:+ Errors.message e +:+ nl
        +:+ (if String.eqb (suggest e) EmptyString then EmptyString
             else "  suggest: " +:+ suggest e +:+ nl)
        +:+ (if String.eqb (see e) EmptyString then EmptyString else "  see: " +:+ see e +:+ nl)
  | None => "error: " +:+ message st +:+ nl
  end.

(** The lookup whose refusal is swallowed: the name a new pond was given is asked for, and
    may not be told. *)
Definition heeded (s : Sent) : bool :=
  match msg s with ToControl (GetPondInfo _) => false | _ => true end.

(** The commands that do not render what they are refused. *)
Definition raises (c : Command) : bool :=
  match c with
  | NodeList | NodeDescribe _ | Stats _ | Pond (PondList _) => true
  | _ => false
  end.

Definition is_create (c : Command) : bool :=
  match c with Pond (PondCreate _ _ _ _ _ _) => true | _ => false end.

Definition reported (c : Command) (e : Effects) (r : result unit Failure) : Prop :=
  (forall s st, s ∈ log e -> refusal s = Some st ->
     if negb (heeded s) then is_create c = true /\ r = Ok tt /\ err e = EmptyString
     else if raises c then r = Err (Anyhow (shown st)) /\ err e = EmptyString
     else r = Err (Exit 1) /\ err e = rendering st) /\
  (forall code, r = Err (Exit code) ->
     code = 1%N /\ exists s st, s ∈ log e /\ refusal s = Some st /\ err e = rendering st).

Definition behaves (c : Command) (e : Effects) (r : result unit Failure) : Prop :=
  course [] (log e) /\ reported c e r.

Lemma runs_call endpoint agent_id m (Q : Effects -> result (Reply m) Status -> Prop) :
  (forall r, Q {| log := [entry endpoint agent_id m r]; out := EmptyString; err := EmptyString |} r) ->
  runs (call env header_ok endpoint agent_id m) Q.
Proof.
  intros HQ p. unfold call. destruct (rpc _ _ m (net p)) as [r w]. eexists. cbn.
  split; [|split; [|split; [|exact (HQ r)]]]; cbn; by rewrite ?str_app_nil_r.
Qed.

Lemma runs_print_status {A} st (Q : Effects -> result A Failure -> Prop) :
  Q (complained (rendering st)) (Err (Exit 1)) -> runs (print_status st : MR A) Q.
Proof.
  intros HQ. unfold print_status, rendering in *. destruct (decode_envelope (details st)) as [e|].
  - destruct (String.eqb (suggest e) EmptyString), (String.eqb (see e) EmptyString);
      repeat (first [apply runs_bind|apply runs_eprintln|apply runs_ret]);
      unfold plus, none, complained in *; cbn [log out err app] in *;
      by rewrite ?str_app_nil_r, ?str_app_assoc in *.
  - apply runs_bind, runs_eprintln, runs_ret. unfold plus, none, complained in *. cbn [log out err app] in *.
    by rewrite ?str_app_nil_r, ?str_app_assoc in *.
Qed.

Lemma runs_rendered {A} (r : result A Status) (Q : Effects -> result A Failure -> Prop) :
  match r with Ok a => Q none (Ok a) | Err st => Q (complained (rendering st)) (Err (Exit 1)) end ->
  runs (rendered r : MR A) Q.
Proof. destruct r; [apply runs_ret|apply runs_print_status]. Qed.

Lemma runs_raised {A} (r : result A Status) (Q : Effects -> result A Failure -> Prop) :
  match r with Ok a => Q none (Ok a) | Err st => Q none (Err (Anyhow (shown st))) end ->
  runs (raised r : MR A) Q.
Proof. destruct r; apply runs_ret. Qed.

Lemma runs_checked {A} (r : result A string) (Q : Effects -> result A Failure -> Prop) :
  match r with Ok a => Q none (Ok a) | Err m => Q none (Err (Anyhow m)) end ->
  runs (checked r : MR A) Q.
Proof. destruct r; apply runs_ret. Qed.

Ltac step :=
  match goal with
  | |- runs (try _ _) _ => apply runs_try
  | |- runs (bind _ _) _ => apply runs_bind
  | |- runs (ret _) _ => apply runs_ret
  | |- runs done _ => apply runs_ret
  | |- runs (fail _) _ => apply runs_ret
  | |- runs (println _) _ => apply runs_println
  | |- runs (print_lines _) _ => apply runs_print_lines
  | |- runs (print _) _ => apply runs_print
  | |- runs (rendered _) _ => apply runs_rendered
  | |- runs (raised _) _ => apply runs_raised
  | |- runs (checked _) _ => apply runs_checked
  | |- runs (print_status _) _ => apply runs_print_status
  | |- runs (call _ _ ?n ?a ?m) ?Q => refine (runs_call n a m Q _); let r := fresh "r" in intros r
  | |- runs (connect _ _) _ => apply runs_connect
  | |- runs (match ?x with _ => _ end) _ => destruct x eqn:?
  | |- match ?x with Ok _ => _ | Err _ => _ end => destruct x eqn:?
  end.

Ltac addressed :=
  cbn [log plus none app wrote complained course];
  repeat match goal with
  | |- _ /\ _ => split
  | |- True => exact I
  | |- well_addressed _ _ =>
      split; [apply entry_credential|cbn [msg to_ entry pond_of];
        repeat match goal with H : _ = _ |- _ => rewrite H end; first [reflexivity|by repeat constructor]]
  end.

Ltac refused :=
  unfold reported; cbn [log plus none app wrote complained raises is_create err out]; split;
  [let s := fresh "s" in let st := fresh "st" in let Hin := fresh "Hin" in
   let Hr := fresh "Hr" in intros s st Hin Hr;
   repeat (apply elem_of_cons in Hin as [->|Hin]); try (by apply elem_of_nil in Hin);
   cbn in Hr; simplify_eq; cbn; rewrite ?str_app_nil_r; by repeat split
  |let code := fresh "code" in let Hc := fresh "Hc" in intros code Hc;
   first [discriminate Hc
         |injection Hc as <-; split; [reflexivity|]; eexists _, _; split; [by repeat constructor|];
          split; [reflexivity|]; cbn; by rewrite ?str_app_nil_r]].

Ltac behaves := repeat step; (split; [addressed|refused]).

Ltac behaves_by f :=
  cbn [Cli.dispatch Cli.run_pond_cmd Cli.run_dataset_cmd Cli.run_catalog_cmd];
  unfold f, print_json_result, print_table_result, data_target, resolve_node, control_client,
    admin_client, data_client, control, admin, data;
  behaves.

Lemma pond_behaves c : runs (dispatch (Pond c)) (behaves (Pond c)).
Proof.
  destruct c;
    [behaves_by @pond_create|behaves_by @pond_list|behaves_by @pond_describe|behaves_by @pond_drop
    |behaves_by @pond_forget|behaves_by @pond_set_tier].
Qed.

Lemma dataset_behaves c : runs (dispatch (Dataset c)) (behaves (Dataset c)).
Proof.
  destruct c;
    [behaves_by @dataset_add|behaves_by @dataset_list|behaves_by @dataset_remove
    |behaves_by @dataset_load].
Qed.

Lemma catalog_behaves c : runs (dispatch (Catalog c)) (behaves (Catalog c)).
Proof.
  destruct c;
    [behaves_by @catalog_add|behaves_by @catalog_list|behaves_by @catalog_describe
    |behaves_by @catalog_pull|behaves_by @catalog_remove].
Qed.

Lemma command_behaves c : runs (dispatch c) (behaves c).
Proof.
  destruct c;
    [behaves_by @node_list|behaves_by @node_describe|apply pond_behaves|behaves_by @run_query
    |apply dataset_behaves|apply catalog_behaves|behaves_by @run_stats].
Qed.

(** C37: every message of a command carries the token of the invocation, and goes where it
    should: to the control plane the environment names, or, with a pond's data, to the
    gateway it names or else to the node the control plane has just said that pond is at. *)
Theorem commands_stay_on_course c p :
  let p' := (dispatch c p).2 in
  exists l, sent p' = sent p ++ l /\ course [] l.
Proof.
  destruct (command_behaves c p) as [e He]. destruct (dispatch c p) as [r p'].
  destruct He as (Hs & _ & _ & Hc & _). by exists (log e).
Qed.

(** C39: a refusal reaches the user and fails the command: as the envelope it carries, with
    its kind, its advice and its page, and exit code one.  Two groups of commands do
    otherwise: node list, node describe, pond list and stats fail with the status as the
    transport shows it; and pond create, once the pond is made, swallows a refusal to tell
    the name it was given, says nothing of it and succeeds.  Nothing else leaves with a
    code. *)
Theorem refusals_are_reported c p :
  let (r, p') := dispatch c p in
  exists l e, sent p' = sent p ++ l /\ stderr p' = stderr p +:+ e /\
  (forall s st, s ∈ l -> refusal s = Some st ->
     if negb (heeded s) then is_create c = true /\ r = Ok tt /\ e = EmptyString
     else if raises c then r = Err (Anyhow (shown st)) /\ e = EmptyString
     else r = Err (Exit 1) /\ e = rendering st) /\
  (forall code, r = Err (Exit code) ->
     code = 1%N /\ exists s st, s ∈ l /\ refusal s = Some st /\ e = rendering st).
Proof.
  destruct (command_behaves c p) as [e He]. destruct (dispatch c p) as [r p'].
  destruct He as (Hs & _ & He & _ & Hr1 & Hr2). by exists (log e), (err e).
Qed.
End commands.

(** ** What the flags configure *)

Section flags.
Import Flags.

Definition ON : list string := ["true"; "1"; "yes"].
Definition OFF : list string := ["false"; "0"; "no"].

Lemma on_not_off w : w ∈ ON -> w ∉ OFF.
Proof.
  unfold ON, OFF. rewrite !elem_of_cons, !elem_of_nil. intros Hon Hoff.
  destruct Hon as [->|[->|[->|[]]]]; by destruct Hoff as [?|[?|[?|[]]]].
Qed.

(** A switch that is neither on nor off is refused. *)
Lemma dangerous_flag_spec v name :
  match dangerous_flag v name with
  | Ok true => exists w, non_blank v = Some w /\ ascii_lowercase w ∈ ON
  | Ok false => non_blank v = None \/ exists w, non_blank v = Some w /\ ascii_lowercase w ∈ OFF
  | Err _ => exists w, non_blank v = Some w /\ ascii_lowercase w ∉ ON ++ OFF
  end.
Proof.
  unfold dangerous_flag. destruct (non_blank v) as [w|]; cbn [fmap option_fmap option_map]; [|by left].
  change ["false"; "0"; "no"] with OFF. change ["true"; "1"; "yes"] with ON.
  destruct (existsb _ OFF) eqn:E0; [right; exists w; split; [done|]; by apply existsb_eqb_elem_of|].
  destruct (existsb _ ON) eqn:E1; [exists w; split; [done|]; by apply existsb_eqb_elem_of|].
  exists w. split; [done|]. intros [Hi|Hi]%elem_of_app; apply existsb_eqb_elem_of in Hi; congruence.
Qed.

(** The flags configure all of authentication or none of it: no issuer and it is off;
    an issuer and every one that was given is verified against the one audience, with its
    own keys or, only when it is alone, the address given for them, and with plaintext
    keys only where that was said in so many words; anything in between refuses to
    start. *)
Lemma auth_config_spec given_issuers given_audience given_uri insecure :
  let given := omap (fun i => non_blank (Some i)) given_issuers in
  match auth_config given_issuers given_audience given_uri insecure with
  | Ok None => given = []
  | Ok (Some cfg) =>
      given <> [] /\ map Verify.issuer (Verify.issuers cfg) = given /\
      non_blank given_audience = Some (Verify.audience cfg) /\
      (forall i, i ∈ Verify.issuers cfg -> Verify.jwks_uri i = non_blank given_uri /\
         (is_Some (Verify.jwks_uri i) -> length given = 1)) /\
      (Verify.allow_insecure_jwks cfg = true <->
         exists w, non_blank insecure = Some w /\ ascii_lowercase w ∈ ON)
  | Err _ =>
      given <> [] /\
      (non_blank given_audience = None \/
       is_Some (non_blank given_uri) /\ 1 < length given \/
       exists w, non_blank insecure = Some w /\ ascii_lowercase w ∉ ON ++ OFF)
  end.
Proof.
  intros given. unfold auth_config. fold given. destruct given as [|g gs] eqn:Hg; [done|].
  rewrite <- Hg in *. assert (Hne : given <> []) by by rewrite Hg.
  destruct (non_blank given_audience) as [aud|]; [|split; [done|by left]].
  destruct (is_Some_b (non_blank given_uri) && (1 <? length given)) eqn:E.
  { apply andb_true_iff in E as [Eu El%Nat.ltb_lt]. split; [done|]. right. left. split; [|done].
    destruct (non_blank given_uri); [by eexists|done]. }
  pose proof (dangerous_flag_spec insecure
    "--auth-allow-insecure-jwks / LATIQ_AUTH_ALLOW_INSECURE_JWKS") as Hf.
  destruct (dangerous_flag _ _) as [on|m]; cbn [res_bind].
  - cbn [Verify.issuers Verify.audience Verify.allow_insecure_jwks].
    split; [done|]. split; [by rewrite map_map, map_id|]. split; [done|]. split.
    + intros i (x & -> & Hx)%list_elem_of_fmap. cbn. split; [done|]. intros [u Hu]. rewrite Hu in E.
      cbn [is_Some_b andb] in E. apply Nat.ltb_ge in E.
      destruct given as [|? [|]]; cbn in *; [done|done|lia].
    + cbn. destruct on; [done|]. split; [done|]. intros (w & Hw & Hon).
      destruct Hf as [Hn|(w' & Hw' & Hoff)]; [congruence|]. rewrite Hw in Hw'. injection Hw' as <-.
      by destruct (on_not_off _ Hon).
  - split; [done|]. right. by right.
Qed.
End flags.

(** ** What is printed *)

Section printed.
Import Term.

(** A text of whole characters, as every Rust string is. *)
Definition utf8 (s : string) : Prop := forall t, chars (s +:+ t) = chars s ++ chars t.

Lemma utf8_app s t : utf8 s -> utf8 t -> utf8 (s +:+ t).
Proof. intros Hs Ht u. by rewrite str_app_assoc, !Hs, Ht, app_assoc. Qed.

Lemma width_app s t : utf8 s -> width (s +:+ t) = (width s + width t)%nat.
Proof. intros Hs. unfold width. by rewrite Hs, length_app. Qed.

Lemma utf8_ascii s : is_ascii s = true -> utf8 s.
Proof. intros Hs t. by apply chars_ascii_app. Qed.

Lemma ascii_repeat c n : is_ascii c = true -> is_ascii (str_concat (repeat c n)) = true.
Proof.
  intros Hc. unfold is_ascii in *. induction n as [|n IH]; [done|]. cbn [repeat str_concat].
  by rewrite all_bytes_app, Hc.
Qed.

Lemma width_repeat c n : is_ascii c = true -> width c = 1%nat -> width (str_concat (repeat c n)) = n.
Proof.
  intros Hc Hw. induction n as [|n IH]; [done|]. cbn [repeat str_concat].
  by rewrite width_app, IH, Hw by by apply utf8_ascii.
Qed.

Lemma width_spaces n : width (spaces n) = n.
Proof. by apply width_repeat. Qed.
Lemma utf8_spaces n : utf8 (spaces n).
Proof. by apply utf8_ascii, ascii_repeat. Qed.

Lemma width_left w s : utf8 s -> width (left w s) = Nat.max w (width s).
Proof. intros Hs. unfold left. rewrite width_app, width_spaces by done. lia. Qed.
Lemma utf8_left w s : utf8 s -> utf8 (left w s).
Proof. intros Hs. by apply utf8_app, utf8_spaces. Qed.

(** Joined texts are as wide as they and what is between them. *)
Lemma width_join sep l :
  utf8 sep -> Forall utf8 l ->
  width (join sep l) = (foldr Nat.add 0 (map width l) + width sep * pred (length l))%nat.
Proof.
  intros Hs. induction l as [|x l IH]; [intros _; cbn; lia|]. rewrite Forall_cons. intros [Hx Hl].
  destruct l as [|y l]; [cbn [join map foldr length pred]; lia|].
  change (join sep (x :: y :: l)) with (x +:+ sep +:+ join sep (y :: l)).
  rewrite !width_app, IH by done. cbn [map foldr length pred]. lia.
Qed.

(** *** Columns *)

Lemma cells_line_widths w cells :
  Forall utf8 cells -> length cells = length w -> Forall2 (fun w c => width c <= w)%nat w cells ->
  map width (cells_line w cells) = w /\ Forall utf8 (cells_line w cells).
Proof.
  intros Hu Hl H2. revert Hu. clear Hl. induction H2 as [|n c w cells Hn H2 IH]; [done|].
  rewrite Forall_cons. intros [Hc Hu]. destruct (IH Hu) as [Hw Hf]. cbn [cells_line hd tl map].
  rewrite Hw, width_left by done. split; [f_equal; lia|]. constructor; [by apply utf8_left|done].
Qed.

Lemma widen_spec (measure : string -> nat) w row :
  length row = length w ->
  length (widen measure w row) = length w /\
  Forall2 (fun n c => measure c <= n)%nat (widen measure w row) row /\
  Forall2 le w (widen measure w row).
Proof.
  revert w. induction row as [|c row IH]; intros [|n w] Hl; try done.
  injection Hl as Hl. destruct (IH w Hl) as (H1 & H2 & H3). unfold widen in *. cbn [zip_with drop length app].
  cbn [length] in *. split; [by rewrite H1|]. split; constructor; (lia || done).
Qed.

Lemma fits_wider (measure : string -> nat) w w' row :
  Forall2 (fun n c => measure c <= n)%nat w row -> Forall2 le w w' ->
  Forall2 (fun n c => measure c <= n)%nat w' row.
Proof.
  intros Hr. revert w'. induction Hr as [|n c w row Hn Hr IH]; intros w' Hw; inversion Hw; subst;
    constructor; [lia|by apply IH].
Qed.

Lemma widths_spec (measure : string -> nat) header rows :
  Forall (fun r => length r = length header) rows ->
  length (widths measure header rows) = length header /\
  Forall (fun r => Forall2 (fun n c => measure c <= n)%nat (widths measure header rows) r)
    (header :: rows).
Proof.
  intros Hr. unfold widths.
  assert (Hgen : forall w seen, length w = length header ->
    Forall (fun r => Forall2 (fun n c => measure c <= n)%nat w r) seen ->
    length (foldl (widen measure) w rows) = length header /\
  Forall (fun r => Forall2 (fun n c => measure c <= n)%nat (foldl (widen measure) w rows) r)
      (seen ++ rows)).
  { induction Hr as [|r rows Hl Hr IH]; intros w seen Hw Hs; cbn [foldl].
    { by rewrite app_nil_r. }
    destruct (widen_spec measure w r) as (H1 & H2 & H3); [congruence|].
    destruct (IH (widen measure w r) (seen ++ [r])) as [HA HB]; [congruence| |].
    - apply Forall_app. split; [|by repeat constructor]. eapply Forall_impl; [exact Hs|].
      intros x Hx. by eapply fits_wider.
    - by rewrite <- app_assoc in HB. }
  destruct (Hgen (map measure header) [header]) as [HA HB]; [by rewrite length_map| |by split].
  repeat constructor. clear. induction header; constructor; done.
Qed.

(** *** Results *)

Section results.
Context `{!Floats} `{!Serde}.

Definition cells_of (r : Json) : list string :=
  match as_array r with Some cells => map cell_str cells | None => [] end.

(** a printed result is a table: under a rule as wide as the widest cells and over
    the count of its rows, the header and every row stand in columns of one width. *)
Theorem print_table_aligns columns rows :
  let header := map (fun c => default EmptyString (as_str c)) columns in
  Forall utf8 header ->
  Forall (fun r => length (cells_of r) = length columns /\ Forall utf8 (cells_of r)) rows ->
  exists rule head body,
    print_table columns rows =
      [EmptyString; rule; head; rule] ++ body
        ++ ["(" +:+ pretty (length rows) +:+ " row"
              +:+ (if (length rows =? 1)%nat then EmptyString else "s") +:+ ")"] /\
    length body = length rows /\ Forall (fun l => width l = width rule) (head :: body).
Proof.
  intros header Hu Hr. set (w := widths width header (map cells_of rows)).
  assert (Hlen : Forall (fun r => length r = length header) (map cells_of rows)).
  { rewrite Forall_map. eapply Forall_impl; [exact Hr|]. intros r [Hl _]. unfold header. cbn.
    by rewrite length_map. }
  destruct (widths_spec width header _ Hlen) as [Hw Hf]. fold w in Hw, Hf.
  exists (join "-+-" (map (fun n => str_concat (repeat "-" n)) w)), (join " | " (cells_line w header)),
    (map (fun cells => join " | " (cells_line w cells)) (map cells_of rows)).
  split; [|split; [by rewrite !length_map|]].
  { unfold print_table. fold cells_of. change (map (fun r => cells_of r) rows) with (map cells_of rows).
    fold header. fold w. by rewrite length_map. }
  assert (Hrule : width (join "-+-" (map (fun n => str_concat (repeat "-" n)) w)) =
    (foldr Nat.add 0 w + 3 * pred (length w))%nat).
  { rewrite width_join; [|by apply utf8_ascii|].
    - rewrite map_map, length_map. f_equal. f_equal. rewrite <- (map_id w) at 2.
      apply map_ext. intros n. by apply width_repeat.
    - rewrite Forall_map. apply Forall_true. intros n. by apply utf8_ascii, ascii_repeat. }
  assert (Hline : forall cells, Forall utf8 cells -> length cells = length header ->
    Forall2 (fun n c => width c <= n)%nat w cells ->
    width (join " | " (cells_line w cells)) = (foldr Nat.add 0 w + 3 * pred (length w))%nat).
  { intros cells Hc Hl Hfit. destruct (cells_line_widths w cells Hc) as [Hcw Hcu]; [congruence|done|].
    rewrite width_join by (done || by apply utf8_ascii). rewrite Hcw. f_equal.
    by rewrite <- (length_map width), Hcw. }
  rewrite Hrule. apply Forall_cons in Hf as [Hh Hb]. constructor; [by apply Hline|].
  rewrite !Forall_map. rewrite Forall_map in Hb, Hlen. rewrite Forall_forall in *.
  intros r Hin. apply Hline; [by apply Hr|by apply Hlen|by apply Hb].
Qed.
End results.
End printed.

(** ** The answer of a query *)

Section answers.
Context {W : Type} `{!Net W} `{!Floats} `{!Arrow} `{!SerdeTexts} `{!Serde} `{!SerdeLaws}.
Context `{!Pretty} `{!Codec}.
Variable env : Env.
Variable header_ok : string -> bool.

(** What a query prints of its result. *)
Definition printed (format : Format) (q : QueryResult) : string :=
  match format with
  | Json_ => to_string_pretty (Bodies.query_value q) +:+ nl
  | Tabular =>
      match columns q with
      | [] =>
          match Meta.snapshot_id (meta q) with
          | Some n => "ok (snapshot " +:+ to_string (Int n) +:+ ")"
          | None => "ok"
          end +:+ nl
      | _ => Term.text_of (Term.print_table (map Str (columns q)) (map Array (rows q)))
      end
  end.

Lemma get_query q k :
  Plan.get (Bodies.query_value q) k =
    Derive.member k [("columns", Some (Derive.of_list Str (columns q)));
      ("rows", Some (Array (map Array (rows q))));
      ("statement", Some (Str (match Meta.snapshot_id (meta q) with
                               | Some _ => "write_query" | None => "read_query" end)));
      ("status", Some (Str "ok")); ("_meta", Some (Bodies.meta_to (meta q)))].
Proof. apply get_member. apply (bool_decide_unpack _). vm_compute. exact I. Qed.

Lemma get_snapshot m :
  Plan.get (Bodies.meta_to m) "snapshot_id" = Int <$> Meta.snapshot_id m.
Proof.
  unfold Bodies.meta_to. rewrite get_member; [reflexivity|].
  apply (bool_decide_unpack _). vm_compute. exact I.
Qed.

Lemma printed_result format q (p : Process W) :
  canonical exact (Bodies.query_value q) ->
  (match format with
   | Json_ => print_json_result (Ok (to_string (Bodies.query_value q)))
   | Tabular => print_table_result (Ok (to_string (Bodies.query_value q)))
   end) p =
    (Ok tt, {| net := net p; stdout := stdout p +:+ printed format q; stderr := stderr p;
               sent := sent p |}).
Proof.
  intros Hq. pose proof (from_str_to_string _ Hq) as Hs. destruct format.
  - unfold print_table_result. rewrite Hs, !get_query. cbn [Derive.member String.eqb Ascii.eqb Bool.eqb mbind option_bind].
    unfold Derive.of_list, as_array, printed. destruct (columns q) as [|c cs] eqn:Ec; cbn [map]; [|done].
    unfold write_line. rewrite get_query. cbn [Derive.member String.eqb Ascii.eqb Bool.eqb mbind option_bind].
    rewrite get_snapshot. by destruct (Meta.snapshot_id (meta q)).
  - unfold print_json_result. by rewrite Hs.
Qed.

(** a query prints the answer: the statement goes, as a read or a write by what it
    is, to the pond's target under the caller's name, and once; and what is printed is
    the result the node answered: its rows, or the snapshot of a write. *)
Theorem query_prints_the_answer a q node p p1 w2 w3 :
  canonical exact (Bodies.query_value q) ->
  data_target env header_ok (q_pond a) p = (Ok node, p1) ->
  dial node (net p1) = (true, w2) ->
  let md := auth_interceptor env header_ok (with_id header_ok (q_agent_id a)) in
  let timeout := default 0%N (q_timeout_ms a) in
  let msg := if Sql.is_read_only (q_sql a) then Rpc.ReadQuery (q_pond a) (q_sql a) timeout
             else Rpc.WriteQuery (q_pond a) (q_sql a) timeout in
  (if Sql.is_read_only (q_sql a)
   then rpc node md (ToData (Rpc.ReadQuery (q_pond a) (q_sql a) timeout)) w2
   else rpc node md (ToData (Rpc.WriteQuery (q_pond a) (q_sql a) timeout)) w2) =
    (Ok (to_string (Bodies.query_value q)), w3) ->
  let (r, p') := run_query env header_ok a p in
  r = Ok tt /\ net p' = w3 /\ stderr p' = stderr p1 /\
  stdout p' = stdout p1 +:+ printed (q_format a) q /\
  exists s, sent p' = sent p1 ++ [s] /\ to_ s = node /\ Net.md s = md /\ Net.msg s = ToData msg.
Proof.
  intros Hq Ht Hd md timeout msg Hr. unfold run_query, try at 1, bind at 1. rewrite Ht.
  unfold data_client, connect, try at 1, bind at 1. rewrite Hd. unfold bind at 1.
  assert (Hcall : exists s, (if Sql.is_read_only (q_sql a)
      then data env header_ok node (q_agent_id a) (Rpc.ReadQuery (q_pond a) (q_sql a) timeout)
      else data env header_ok node (q_agent_id a) (Rpc.WriteQuery (q_pond a) (q_sql a) timeout))
      {| net := w2; stdout := stdout p1; stderr := stderr p1; sent := sent p1 |} =
    (Ok (to_string (Bodies.query_value q)),
     {| net := w3; stdout := stdout p1; stderr := stderr p1; sent := sent p1 ++ [s] |}) /\
    to_ s = node /\ Net.md s = md /\ Net.msg s = ToData msg).
  { unfold msg. destruct (Sql.is_read_only (q_sql a)); unfold data, call; fold md;
      cbn [Cli.net]; rewrite Hr; eexists; split; [reflexivity|done|reflexivity|done]. }
  destruct Hcall as (s & Hc & Hs). fold timeout. cbv zeta. rewrite Hc.
  rewrite (printed_result (q_format a) q _ Hq). cbn. repeat split. by exists s.
Qed.
End answers.

(** ** Counts and ports *)

Lemma tier_rows_over ponds ts :
  let rows := omap (fun t => if (Term.count t ponds =? 0)%nat then None
                             else Some (t, Term.count t ponds, Tier.limits t)) ts in
  foldr (fun r n => r.1.2 + n)%nat 0%nat rows = foldr (fun t n => Term.count t ponds + n)%nat 0%nat ts /\
  Forall (fun r => r.2 = Tier.limits r.1.1 /\ r.1.2 <> 0%nat) rows.
Proof.
  induction ts as [|t ts [IH1 IH2]]; [by split|]. cbv zeta in *.
  match goal with |- context [omap ?f (t :: ts)] =>
    change (omap f (t :: ts)) with (match f t with Some y => y :: omap f ts | None => omap f ts end)
  end. cbv beta.
  destruct (Nat.eqb_spec (Term.count t ponds) 0) as [H0|H0]; cbn [foldr fst snd]; split.
  - rewrite H0. exact IH1.
  - exact IH2.
  - by rewrite IH1.
  - by constructor.
Qed.

(** the tiers of a snapshot account for every pond, a tier that is not known as the
    default one. *)
Theorem stats_count_every_pond ponds :
  foldr (fun r n => r.1.2 + n)%nat 0%nat (Term.tier_rows ponds) = length ponds /\
  Forall (fun r => r.2 = Tier.limits r.1.1 /\ r.1.2 <> 0%nat) (Term.tier_rows ponds).
Proof.
  destruct (tier_rows_over ponds Term.TIERS) as [Hz Hr]. split; [|exact Hr].
  unfold Term.tier_rows. rewrite Hz. clear. induction ponds as [|p ponds IH]; [done|].
  assert (Hc : forall t, Term.count t (p :: ponds) =
    ((if bool_decide (Term.tier_of p = t) then 1 else 0) + Term.count t ponds)%nat).
  { intros t. unfold Term.count. cbn [List.filter]. by case_bool_decide. }
  cbn [foldr Term.TIERS length] in *. rewrite !Hc, <- IH. clear.
  destruct (Term.tier_of p); repeat (case_bool_decide; simplify_eq); lia.
Qed.

(** a node at the last port serves its agents at port zero, whatever that is bound to:
    the next port is computed without a check. *)
Theorem last_port_wraps parse_addr root control a c :
  Flags.na_port a = Flags.U16_MAX -> Flags.node_config parse_addr root control a = Ok c ->
  parse_addr (Flags.na_bind a +:+ ":0") = Ok (Flags.mcp_addr c).
Proof.
  intros Hp. unfold Flags.node_config. rewrite Hp.
  replace (pretty (Flags.wrapping_add Flags.U16_MAX 1)) with "0" by (vm_compute; reflexivity).
  intros Hc. change (":" +:+ "0") with ":0" in Hc.
  repeat match type of Hc with
  | res_bind ?r _ = _ => destruct r eqn:?; cbn [res_bind] in Hc; [|discriminate Hc]
  end. by simplify_eq.
Qed.
