(* ===== verification/CliSample.v ===== *)
(** * A terminal

    The theorems on commands at work: a control plane that knows one pond, and the node
    that answers its queries. *)
From S2P Require Import Prelude Errors Policy Common Sql Plan Interfaces Auth Wire WireSpec ControlPlane.
From S2P Require Import Ops Admin DataService ForwardSample Cli CliSpec.
Import Net Cmd Cli.
#[local] Open Scope rust_scope.
#[local] Arguments String.append !_ _ / : simpl nomatch.

Module Terminal.
Export ForwardSample.TwoNodes.

Definition CONTROL : string := "http://control:51400".
Definition NODE : string := "http://n1:51403".

(** the two rows the node answers, as the query's body says them. *)
Definition result_ : QueryResult :=
  {| columns := ["n"; "name"];
     rows := [[Str "1"; Str "ada"]; [Str "20"; Null]];
     meta := Meta.default |}.

Definition refused (m : string) : Status := {| message := m; details := EmptyString; shown := m |}.

(** the servers, counting the messages they are sent. *)
#[export] Instance servers : Net nat :=
  {| dial := fun endpoint w => (String.eqb endpoint CONTROL || String.eqb endpoint NODE, w);
     rpc := fun endpoint md m w =>
       (match m as m return result (Reply m) Status with
        | ToControl (GetPondLocation p) =>
            if String.eqb endpoint CONTROL && String.eqb p "sales" then Ok NODE
            else Err (refused "no pond")
        | ToData (Rpc.ReadQuery _ _ _) =>
            if String.eqb endpoint NODE then Ok (to_string (Bodies.query_value result_))
            else Err (refused "not here")
        | m => Err (refused "not served")
        end, S w) |}.

#[export] Instance pretty_json : Pretty := {| to_string_pretty := to_string |}.

Definition env : Env :=
  Build_Env (Some CONTROL) (Some EmptyString) (Some "secret")
    {| bold := EmptyString; dim := EmptyString; green := EmptyString; red := EmptyString;
       rst := EmptyString |}.

Definition started : Process nat :=
  {| net := 0%nat; stdout := EmptyString; stderr := EmptyString; sent := [] |}.

Definition args : QueryArgs :=
  {| q_pond := "sales"; q_sql := "SELECT * FROM people"; q_agent_id := Some "ada";
     q_format := Tabular; q_timeout_ms := None |}.

(** ** The table of a query *)

Example it_prints :
  stdout (run_query env is_ascii args started).2 =
    Term.text_of [EmptyString; "---+-----"; "n  | name"; "---+-----"; "1  | ada "; "20 |     ";
                  "(2 rows)"].
Proof. vm_compute. reflexivity. Qed.

Lemma query_prints_the_answer_witness :
  let (r, p') := run_query env is_ascii args started in
  r = Ok tt /\ net p' = 2%nat /\ stderr p' = EmptyString /\
  stdout p' = stdout (resolve_node env is_ascii "sales" started).2 +:+ printed Tabular result_ /\
  exists s, sent p' = sent (resolve_node env is_ascii "sales" started).2 ++ [s] /\
    to_ s = NODE /\
    Net.md s = auth_interceptor env is_ascii (with_id is_ascii (Some "ada")) /\
    Net.msg s = ToData (Rpc.ReadQuery "sales" "SELECT * FROM people" 0).
Proof.
  assert (Hrun := fun Hq Ht Hd Hr => query_prints_the_answer env is_ascii args result_ NODE started
    (resolve_node env is_ascii "sales" started).2 1 2 Hq Ht Hd Hr).
  cbv zeta in Hrun. destruct (run_query env is_ascii args started) as [r p'].
  apply Hrun; try reflexivity. apply canonical_query; [|repeat constructor].
  split; try done; cbn; lia || constructor.
Defined.

Lemma print_table_aligns_witness :
  exists rule head body,
    Term.print_table [Str "n"; Str "name"] [Array [Str "1"; Str "ada"]; Array [Str "20"; Null]] =
      [EmptyString; rule; head; rule] ++ body ++ ["(2 rows)"] /\
    length body = 2%nat /\ Forall (fun l => Term.width l = Term.width rule) (head :: body).
Proof.
  apply (print_table_aligns [Str "n"; Str "name"] [Array [Str "1"; Str "ada"]; Array [Str "20"; Null]]).
  - repeat constructor; by apply utf8_ascii.
  - repeat constructor; by apply utf8_ascii.
Defined.

(** ** What a refusal leaves *)

(** a pond nobody knows: the refusal is shown, the command exits with 1, and no node is
    asked. *)
Example a_refusal_stops_it :
  let lost := {| q_pond := "lost"; q_sql := q_sql args; q_agent_id := None; q_format := Tabular;
                 q_timeout_ms := None |} in
  let (r, p') := run_query env is_ascii lost started in
  r = Err (Exit 1) /\ stderr p' = "error: no pond" +:+ nl /\ stdout p' = EmptyString /\
  map to_ (sent p') = [CONTROL].
Proof. vm_compute. repeat split. Qed.

(** the same refusal, of a list of ponds, is an error of the process. *)
Example a_list_raises_it :
  (dispatch env is_ascii (Pond (PondList Tabular)) started).1 = Err (Anyhow "not served").
Proof. reflexivity. Qed.
End Terminal.
