(* ===== verification/Trails.v ===== *)
(** * The trails a node keeps

    Models the lineage half of [AgentOps] ([latiq-agent-core/src/ops.rs], [lineage.rs]):
    the writers of the ponds that record, made on first use, fed by the operations,
    flushed when a batch is due, when a page is asked for, when a pond is dropped and
    when the node stops ([shutdown_lineage] of [latiq-pond-node/src/lib.rs]).  A writer
    is shared by whoever holds it, so the node keeps writers by handle; each carries the
    files of its directory that are its own and its history ([Writer.Config]).  The sink
    is one object for all of them, and is kept once. *)
From S2P Require Import Prelude Common Sql Interfaces Ops LineageRead LineageWrite LineageEvent.
Import Types Writer.
#[local] Open Scope rust_scope.
#[local] Arguments String.append !_ _ / : simpl nomatch.

Module Trails.

Record Node := {
  heap : list Config;
  lineage_writers : gmap string nat;
  lineage_sink : option Sink.Shared;
  (** Writers handed to the blocking pool to be flushed, and not yet run. *)
  due : list nat;
}.

Definition started (sink : option Sink.Shared) : Node :=
  {| heap := []; lineage_writers := ∅; lineage_sink := sink; due := [] |}.

Definition with_config (h : nat) (c : Config) (n : Node) : Node :=
  {| heap := <[h := c]> (heap n); lineage_writers := lineage_writers n;
     lineage_sink := lineage_sink n; due := due n |}.

Definition with_sink_of (s : option Sink.Shared) (n : Node) : Node :=
  {| heap := heap n; lineage_writers := lineage_writers n; lineage_sink := s; due := due n |}.

Definition lineage_writer_count (n : Node) : nat := size (lineage_writers n).

(** ** Recording *)

(** What the clock and the id source give an operation's events, the engine's version,
    and the trace the operation runs in. *)
Record Stamp := {
  uuid : string;
  began : string;
  ended : string;
  engine_version : string;
  trace_id : option string;
}.

Section record.
(** The OpenLineage adapter's version, and [serde_json::to_string]. *)
Variable adapter : string.
Variable to_text : Json -> string.
(** [AgentOps::serving_name]. *)
Variable serving_name : string.

Definition lines_of_record (s : Stamp) (rec : QueryRecord) : list string :=
  let (start, terminal) :=
    Emit.record adapter (engine_version s) serving_name (uuid s) (began s) (ended s) (trace_id s) rec in
  [to_text (Event.to_json start); to_text (Event.to_json terminal)].

(** [LineageWriter::buffer_all], of the writer with the node's sink. *)
Definition buffer_lines (h : nat) (lines : list string) (n : Node) : bool * Node :=
  match heap n !! h with
  | None => (false, n)
  | Some c =>
      let w := match lineage_sink n with
               | Some s => with_sink (writer c) s
               | None => writer c
               end in
      let (is_due, w') := buffer_all lines w in
      let kept := if is_Some_b (dir w) then lines else [] in
      let own := {| dir := dir w'; batch_size := batch_size w'; capacity := capacity w';
                    buffer := buffer w'; sink := None |} in
      (is_due,
       with_sink_of (match lineage_sink n with Some _ => sink w' | None => None end)
         (with_config h
            {| writer := own; files := files c; taken := taken c; accepted := accepted c ++ kept;
               written := written c;
               lost := lost c ++ overflow (capacity (writer c)) (events (buffer (writer c)) ++ kept) |}
            n))
  end.

Section ops.
Context {D : Type} `{!PondIds} `{!PondStorage D}.

(** This pond's writer, made on first use; [None] when it cannot be. *)
Definition lineage_writer (info : PondInfo) (d : D) (n : Node) : option nat * Node :=
  match lineage_writers n !! pond_id info with
  | Some h => (Some h, n)
  | None =>
      match uuid_parse (pond_id info) with
      | Err _ => (None, n)
      | Ok pid =>
          match st_pond_location pid d with
          | Err _ => (None, n)
          | Ok loc =>
              let h := length (heap n) in
              (Some h,
               {| heap := heap n ++ [init (lineage_dir loc) DEFAULT_BATCH_SIZE DEFAULT_CAPACITY];
                  lineage_writers := <[pond_id info := h]> (lineage_writers n);
                  lineage_sink := lineage_sink n; due := due n |})
          end
      end
  end.

Definition emit_lineage (s : Stamp) (rec : QueryRecord) (d : D) (n : Node) : Node :=
  if negb (lineage (q_info rec)) then n
  else
    match lineage_writer (q_info rec) d n with
    | (None, n) => n
    | (Some h, n) =>
        let (is_due, n) := buffer_lines h (lines_of_record s rec) n in
        if is_due
        then {| heap := heap n; lineage_writers := lineage_writers n;
                lineage_sink := lineage_sink n; due := due n ++ [h] |}
        else n
    end.
End ops.
End record.

(** ** Flushing *)

(** How one flush goes: the disk's answer, the id of its file, the clock. *)
Record Tick := { io : Io; file_id : string; millis : N }.

(** [LineageWriter::flush]. *)
Definition flush_config (t : Tick) (c : Config) : Config :=
  match take_batch (millis t) (writer c) with
  | (None, _) => c
  | (Some (batch, m), w) =>
      let (w', fs') := write_or_requeue (io t) (file_id t) batch m w (files c) in
      {| writer := w'; files := fs'; taken := taken c; accepted := accepted c;
         written := written c ++ (match io t with Works => [batch] | _ => [] end);
         lost := lost c ++ (match io t with
                            | Works => []
                            | _ => overflow (capacity w) (batch ++ events (buffer w))
                            end) |}
  end.

Definition flush (h : nat) (t : Tick) (n : Node) : Node :=
  match heap n !! h with
  | None => n
  | Some c => with_config h (flush_config t c) n
  end.

(** A flush the blocking pool was handed. *)
Definition run_due (t : Tick) (n : Node) : Node :=
  match due n with
  | [] => n
  | h :: hs => flush h t {| heap := heap n; lineage_writers := lineage_writers n;
                            lineage_sink := lineage_sink n; due := hs |}
  end.

Definition flush_pond_lineage (pond_id : string) (t : Tick) (n : Node) : Node :=
  match lineage_writers n !! pond_id with
  | Some h => flush h t n
  | None => n
  end.

(** The map lets its writer go; an operation may still hold it. *)
Definition forget_writer (pond_id : string) (n : Node) : Node :=
  {| heap := heap n; lineage_writers := delete pond_id (lineage_writers n);
     lineage_sink := lineage_sink n; due := due n |}.

Definition evict_lineage_writer (pond_id : string) (t : Tick) (n : Node) : Node :=
  match lineage_writers n !! pond_id with
  | Some h => flush h t (forget_writer pond_id n)
  | None => n
  end.

(** The writers of the map, in the order it lists them. *)
Definition handles (n : Node) : list nat := (map_to_list (lineage_writers n)).*2.

Definition flush_all (hs : list nat) (ticks : nat -> Tick) (n : Node) : Node :=
  foldl (fun n h => flush h (ticks h) n) n hs.

Definition flush_lineage (ticks : nat -> Tick) (n : Node) : Node := flush_all (handles n) ticks n.

(** ** Stopping *)

(** [HttpSink::drain]: each look at the queue, and how long the drain has gone on then;
    it looks again on progress, and when its budget is over.  Nothing: it still waits;
    otherwise what is unposted, if it gives up. *)
Fixpoint drain_looks (target budget : N) (looks : list (N * Sink.Shared)) : option (option N) :=
  match looks with
  | [] => None
  | (now, s) :: looks =>
      if Sink.drain_done target s then Some None
      else if (budget - now =? 0)%N then Some (Some (target - Sink.settled s)%N)
      else drain_looks target budget looks
  end.

Definition drain_lineage_sink (budget : N) (looks : list (N * Sink.Shared)) (n : Node) :
    option (option N) :=
  match lineage_sink n with
  | None => Some None
  | Some s => drain_looks (Sink.enqueued s) budget looks
  end.

Definition SHUTDOWN_BUDGET : N := 15000.
Definition POST_TIMEOUT : N := 10000.

(** Where the flush of a writer is when the process ends: not begun, its batch taken and
    in memory only, or so much of its temporary file on the disk. *)
Inductive Cut := Not_begun | Batch_taken | Half_written (partial : string).

Definition cut_config (cut : Cut) (t : Tick) (c : Config) : Config :=
  match cut, take_batch (millis t) (writer c) with
  | Not_begun, _ | _, (None, _) => c
  | Batch_taken, (Some batch, w) =>
      {| writer := w; files := files c; taken := batch :: taken c; accepted := accepted c;
         written := written c; lost := lost c |}
  | Half_written partial, (Some batch, w) =>
      {| writer := w; files := <[temp_name (file_id t) := partial]> (files c);
         taken := batch :: taken c; accepted := accepted c; written := written c;
         lost := lost c |}
  end.

Definition cut_off (cut : Cut) (ticks : nat -> Tick) (i : nat) (n : Node) : Node :=
  match handles n !! i with
  | None => n
  | Some h =>
      match heap n !! h with
      | None => n
      | Some c => with_config h (cut_config cut (ticks h) c) n
      end
  end.

(** How a node leaves its lineage: cut off in its files, or having drained its sink with
    what was left of its budget. *)
Inductive Left := Unwritten | Drained (budget : N) (unposted : option (option N)).

(** [took]: how long the files take; the process ends when the budget runs out before
    they are done, [in_time] of them flushed and the next one where [cut] says. *)
Definition shutdown_lineage (took : N) (in_time : nat) (cut : Cut) (ticks : nat -> Tick)
    (looks : list (N * Sink.Shared)) (n : Node) : Left * Node :=
  if (SHUTDOWN_BUDGET <? took)%N then
    (Unwritten, cut_off cut ticks in_time (flush_all (take in_time (handles n)) ticks n))
  else
    let n := flush_lineage ticks n in
    let left := (SHUTDOWN_BUDGET - took)%N in
    (Drained left (drain_lineage_sink left looks n), n).

(** ** Reading *)

(** The files of a directory: those of every writer that ever had it. *)
Definition dir_files (d : string) (n : Node) : Files :=
  foldr (fun c fs => files c ∪ fs) ∅ (List.filter (fun c => bool_decide (dir (writer c) = Some d)) (heap n)).

Section read.
(** [BufRead::lines]. *)
Variable file_lines : string -> list string.

(** A directory as the reader sees it. *)
Definition reader_dir (fs : Files) : Reader.Dir :=
  {| Reader.listing := Ok (map Some (map_to_list fs).*1);
     Reader.open := fun name => match fs !! name with
                                | Some b => Reader.Lines (map Some (file_lines b))
                                | None => Reader.Missing
                                end |}.

Context `{Events}.

(** [get_lineage_local] past its checks: the pond's writer is flushed, then its
    directory is read. *)
Definition read_pond (pond_id d : string) (req : Reader.PageRequest) (t : Tick) (n : Node) :
    result Page ReadError * Node :=
  let n := flush_pond_lineage pond_id t n in
  (Reader.read_newest (reader_dir (dir_files d n)) req, n).
End read.
End Trails.
