(* ===== verification/TrailRuns.v ===== *)
(** * Whole runs in a writer

    An operation hands its writer the two lines of one run together, and a writer's
    bound is even, so wherever its lines are, they are runs: a batch, a file, the buffer
    and what a full buffer lets go of never hold half of one.  Where no two flushes of a
    writer overlap, the runs are also in the order they were recorded in. *)
From S2P Require Import Prelude LineageRead LineageReadSpec LineageWrite LineageWriteSpec.
Import Writer.
#[local] Open Scope rust_scope.
#[local] Arguments String.append !_ _ / : simpl nomatch.

(** The text of a file that holds [lines]. *)
Definition text (lines : list string) : string := str_concat (map (fun l => l +:+ nl) lines).

Lemma body_text batch : batch <> [] -> body batch = text batch.
Proof.
  unfold body, text. induction batch as [|l batch IH]; [done|]. intros _.
  destruct batch as [|l' batch]; cbn [join map str_concat] in *.
  - by rewrite str_app_nil_r.
  - rewrite <- IH by done. by rewrite !str_app_assoc.
Qed.

Section runs.
Context {R : Type} (two : R -> string * string).
(** Runs a full buffer holds. *)
Variable k : nat.

(** The lines of [rs], a START and a terminal event each. *)
Definition lines_of_runs (rs : list R) : list string :=
  concat (map (fun r => [(two r).1; (two r).2]) rs).

Lemma runs_cons r rs : lines_of_runs (r :: rs) = (two r).1 :: (two r).2 :: lines_of_runs rs.
Proof. done. Qed.

Lemma runs_app rs rs' : lines_of_runs (rs ++ rs') = lines_of_runs rs ++ lines_of_runs rs'.
Proof. unfold lines_of_runs. by rewrite map_app, concat_app. Qed.

Lemma runs_length rs : length (lines_of_runs rs) = 2 * length rs.
Proof. induction rs as [|r rs IH]; [done|]. rewrite runs_cons. cbn [length]. lia. Qed.

Lemma runs_take m rs : take (2 * m) (lines_of_runs rs) = lines_of_runs (take m rs).
Proof.
  revert m. induction rs as [|r rs IH]; intros [|m]; [done..|].
  replace (2 * S m) with (S (S (2 * m))) by lia. rewrite !runs_cons. cbn [take].
  by rewrite IH, runs_cons.
Qed.

Lemma runs_drop m rs : drop (2 * m) (lines_of_runs rs) = lines_of_runs (drop m rs).
Proof.
  revert m. induction rs as [|r rs IH]; intros [|m]; [done..|].
  replace (2 * S m) with (S (S (2 * m))) by lia. rewrite runs_cons. cbn [drop]. apply IH.
Qed.

Lemma runs_nil rs : lines_of_runs rs = [] -> rs = [].
Proof. by destruct rs. Qed.

(** Where the runs [rs] of a writer are: written, in hand, in the buffer, let go. *)
Record holds (ordered : bool) (rs : list R) (c : Config) (wr tk : list (list R))
    (bf lo : list R) : Prop := {
  h_written : written c = lines_of_runs <$> wr;
  h_taken : (taken c).*1 = lines_of_runs <$> tk;
  h_buffer : events (buffer (writer c)) = lines_of_runs bf;
  h_lost : lost c = lines_of_runs lo;
  h_all : rs ≡ₚ concat wr ++ concat tk ++ bf ++ lo;
  h_kept : length rs <= k -> lo = [];
  h_order : ordered = true -> concat wr ++ concat tk ++ bf `sublist_of` rs;
}.

Definition whole (ordered : bool) (rs : list R) (c : Config) : Prop :=
  exists wr tk bf lo, holds ordered rs c wr tk bf lo.

Lemma whole_init ordered d bs cap : whole ordered [] (init d bs cap).
Proof. exists [], [], [], []. by split. Qed.

(** A bound of whole runs lets go of whole runs. *)
Lemma runs_overflow rs : overflow (2 * k) (lines_of_runs rs) = lines_of_runs (take (length rs - k) rs).
Proof.
  unfold overflow. rewrite runs_length.
  replace (2 * length rs - 2 * k) with (2 * (length rs - k)) by lia. apply runs_take.
Qed.

Lemma enforce_drop cap b :
  events (enforce_capacity cap b) = drop (length (events b) - cap) (events b).
Proof.
  unfold enforce_capacity. destruct (Nat.ltb_spec cap (length (events b))) as [Hlt|Hge]; [done|].
  replace (length (events b) - cap) with 0 by lia. by destruct (_ <? _).
Qed.

Lemma runs_enforce rs o :
  events (enforce_capacity (2 * k) {| events := lines_of_runs rs; overflowing := o |}) =
    lines_of_runs (drop (length rs - k) rs).
Proof.
  rewrite enforce_drop. cbn [events]. rewrite runs_length.
  replace (2 * length rs - 2 * k) with (2 * (length rs - k)) by lia. apply runs_drop.
Qed.

Lemma buffer_all_enforce d lines w :
  dir w = Some d -> lines <> [] ->
  exists o, buffer (buffer_all lines w).2 =
    enforce_capacity (capacity w) {| events := events (buffer w) ++ lines; overflowing := o |}.
Proof.
  intros Hd Hl. unfold buffer_all. rewrite Hd, bool_decide_eq_false_2 by done. cbn.
  exists (overflowing (buffer w)). destruct (sink w); cbn; by rewrite ?Hd.
Qed.

(** A run recorded. *)
Lemma whole_record ordered rs r c c' :
  step c c' -> accepted c' = accepted c ++ lines_of_runs [r] -> capacity (writer c) = 2 * k ->
  whole ordered rs c -> whole ordered (rs ++ [r]) c'.
Proof.
  intros Hs Ha Hcap (wr & tk & bf & lo & [Hw Ht Hb Hl Hall Hk Ho]).
  assert (Hno : forall (l : list string), l <> l ++ lines_of_runs [r]).
  { intros l Hl'. apply (f_equal length) in Hl'. rewrite length_app, runs_length in Hl'.
    cbn in Hl'. lia. }
  destruct Hs as [w fs t acc w0 lo0 lines d Hd|?|?|?];
    cbn [writer files taken accepted written lost] in *; try by destruct (Hno _ Ha).
  apply app_inv_head in Ha as ->. destruct (buffer_all_enforce d (lines_of_runs [r]) w Hd) as [o Hbuf]; [done|].
  set (m := length (bf ++ [r]) - k).
  exists wr, tk, (drop m (bf ++ [r])), (lo ++ take m (bf ++ [r])).
  split; cbn [writer files taken accepted written lost].
  - done.
  - done.
  - rewrite Hbuf, Hb, <- runs_app, Hcap. apply runs_enforce.
  - rewrite Hl, Hb, <- runs_app, Hcap, runs_overflow. by rewrite runs_app.
  - rewrite Hall. clearbody m.
    transitivity (concat wr ++ concat tk ++ (bf ++ [r]) ++ lo); [solve_Permutation|].
    rewrite <- (take_drop m (bf ++ [r])) at 1. solve_Permutation.
  - rewrite length_app. cbn [length]. intros Hlen. rewrite Hk by lia. subst m.
    apply Permutation_length in Hall. rewrite !length_app in *. cbn [length].
    by replace (length bf + 1 - k) with 0 by lia.
  - intros Hord. etrans; [|apply sublist_app; [by apply Ho|reflexivity]].
    rewrite <- !app_assoc. do 2 (apply sublist_app; [done|]). apply sublist_drop.
Qed.
Lemma fmap_split {A B} (f : A -> B) (l : list A) l1 x l2 :
  f <$> l = l1 ++ x :: l2 ->
  exists k1 y k2, l = k1 ++ y :: k2 /\ f <$> k1 = l1 /\ f y = x /\ f <$> k2 = l2.
Proof.
  intros Hl. apply fmap_app_inv in Hl as (k1 & k' & -> & Hk & ->).
  destruct k' as [|y k2]; [done|]. injection Hk as -> ->. by exists k1, y, k2.
Qed.

(** The halves of flushes move runs, and keep their order where they do not overlap. *)
Lemma whole_flush ordered rs c c' :
  step c c' -> accepted c' = accepted c -> writer_inv c -> capacity (writer c) = 2 * k ->
  (ordered = true -> length (taken c) <= 1 /\ length (taken c') <= 1) ->
  whole ordered rs c -> whole ordered rs c'.
Proof.
  intros Hs Ha [_ Hbound _ _ _ _ Hdir] Hcap Hone (wr & tk & bf & lo & [Hw Ht Hb Hl Hall Hk Ho]).
  destruct Hs as [w fs t acc w0 lo0 lines d Hd|w fs t acc w0 lo0 m batch w' Htk
    |w fs t1 t2 acc w0 lo0 batch m id fs' Hid Hwr|w fs t1 t2 acc w0 lo0 batch m id io w' fs' Hio Hwr];
    cbn [writer files taken accepted written lost] in *.
  - assert (lines = []) as ->.
    { apply (f_equal length) in Ha. rewrite length_app in Ha. destruct lines; [done|cbn in Ha; lia]. }
    exists wr, tk, bf, lo.
    assert (buffer_all [] w = (false, w)) as -> by (unfold buffer_all; by rewrite bool_decide_eq_true_2).
    unfold overflow. rewrite !app_nil_r, (proj2 (Nat.sub_0_le _ _)) by exact Hbound. split; cbn; try done.
    by rewrite app_nil_r.
  - apply take_batch_Some in Htk as (-> & _ & ->). exists wr, (bf :: tk), [], lo.
    split; cbn; try done.
    + by rewrite Hb, Ht.
    + rewrite Hall. solve_Permutation.
    + intros Hord. destruct (Hone Hord) as [_ Hlen]. cbn in Hlen.
      assert (tk = []) as ->.
      { destruct t; [|cbn in Hlen; lia]. by destruct tk. }
      specialize (Ho Hord). cbn in Ho. by rewrite !app_nil_r.
  - rewrite fmap_app in Ht. cbn in Ht. symmetry in Ht. apply fmap_split in Ht as (k1 & y & k2 & -> & H1 & Hy & H2).
    exists (wr ++ [y]), (k1 ++ k2), bf, lo. split; cbn; try done.
    + by rewrite fmap_app, Hw, <- Hy.
    + by rewrite !fmap_app, H1, H2.
    + rewrite Hall, !concat_app. cbn. rewrite app_nil_r. solve_Permutation.
    + intros Hord. destruct (Hone Hord) as [Hlen _]. rewrite length_app in Hlen. cbn in Hlen.
      destruct t1; [|cbn in Hlen; lia]. destruct t2; [|cbn in Hlen; lia].
      destruct k1; [|done]. destruct k2; [|done]. specialize (Ho Hord). cbn in Ho |- *.
      rewrite concat_app. cbn. by rewrite !app_nil_r, <- !app_assoc in *.
  - rewrite fmap_app in Ht. cbn in Ht. symmetry in Ht. apply fmap_split in Ht as (k1 & y & k2 & -> & H1 & Hy & H2).
    assert (Hd : is_Some (dir w)).
    { destruct (dir w); [done|]. destruct (Hdir eq_refl) as [Hnil _]. by destruct t1. }
    destruct Hd as [d Hd].
    assert (Hbuf : exists o, buffer w' =
      enforce_capacity (capacity w) {| events := batch ++ events (buffer w); overflowing := o |}).
    { unfold write_or_requeue in Hwr. rewrite Hd in Hwr. exists (overflowing (buffer w)).
      destruct io; [done|..]; by injection Hwr as <- _. }
    destruct Hbuf as [o Hbuf]. set (n := length (y ++ bf) - k).
    exists wr, (k1 ++ k2), (drop n (y ++ bf)), (lo ++ take n (y ++ bf)).
    split; cbn [writer files taken accepted written lost].
    + done.
    + by rewrite !fmap_app, H1, H2.
    + rewrite Hbuf, <- Hy, Hb, <- runs_app, Hcap. apply runs_enforce.
    + rewrite <- Hy, Hb, <- runs_app, Hcap, runs_overflow, Hl. by rewrite runs_app.
    + rewrite Hall, !concat_app. cbn [concat]. clearbody n.
      transitivity (concat wr ++ concat k1 ++ concat k2 ++ (y ++ bf) ++ lo); [solve_Permutation|].
      rewrite <- (take_drop n (y ++ bf)) at 1. solve_Permutation.
    + intros Hlen. rewrite Hk by done. subst n.
      apply Permutation_length in Hall. rewrite !concat_app, !length_app in *. cbn in Hall |- *.
      rewrite length_app in Hall. by replace (length y + length bf - k) with 0 by lia.
    + intros Hord. destruct (Hone Hord) as [Hlen _]. rewrite length_app in Hlen. cbn in Hlen.
      destruct t1; [|cbn in Hlen; lia]. destruct t2; [|cbn in Hlen; lia].
      destruct k1; [|done]. destruct k2; [|done]. specialize (Ho Hord). cbn in Ho |- *.
      rewrite app_nil_r in Ho. etrans; [|exact Ho]. apply sublist_app; [done|]. apply sublist_drop.
Qed.
End runs.
