(* ===== verification/TrailsSpec.v ===== *)
(** * What a node's trails keep

    The writers and files of [Trails] implement the records the operations leave
    ([Ops.lineage_writers]); a flush loses nothing, so a node that stops in time leaves
    nothing in memory; and a caller finds its own query in the page it asks for. *)
From S2P Require Import Prelude Common Sql Interfaces Ops LineageRead LineageReadSpec LineageWrite LineageWriteSpec.
From S2P Require Import Errors LineageEvent LineageEventSpec TrailRuns Trails.
Import Types Writer Trails.Trails.
#[local] Open Scope rust_scope.
#[local] Arguments String.append !_ _ / : simpl nomatch.

(** ** One writer *)

(** A half of a flush: what a writer does but for accepting lines. *)
Definition flushing (c c' : Config) : Prop := step c c' /\ accepted c' = accepted c.

(** What a writer never changes. *)
Definition same_writer (w w' : LineageWriter) : Prop :=
  dir w' = dir w /\ sink w' = sink w /\ batch_size w' = batch_size w /\ capacity w' = capacity w.

Lemma step_same c c' : sink (writer c) = None -> step c c' -> same_writer (writer c) (writer c').
Proof.
  intros Hs. destruct 1 as [w fs t acc wr lo lines d Hd|w fs t acc wr lo m batch w' Ht
    |w fs t1 t2 acc wr lo batch m id fs' Hid Hw|w fs t1 t2 acc wr lo batch m id io0 w' fs' Hio Hw]; cbn in *.
  - unfold buffer_all. rewrite Hd, Hs. case_bool_decide; [done|]. cbn. by rewrite Hd.
  - apply take_batch_Some in Ht as (_ & _ & ->). done.
  - done.
  - unfold write_or_requeue in Hw. destruct (dir w) eqn:Hd; [|by simplify_eq].
    destruct (write_batch _ _ _ _ _) as [[]]; by simplify_eq.
Qed.

(** A writer of the node's: the one made for [d], and what has become of it. *)
Definition writer_of (d : string) (c : Config) : Prop :=
  reachable d DEFAULT_BATCH_SIZE DEFAULT_CAPACITY c.

Lemma writer_of_same d c :
  writer_of d c -> same_writer (with_limits d DEFAULT_BATCH_SIZE DEFAULT_CAPACITY) (writer c).
Proof.
  unfold writer_of, reachable. intros Hr.
  assert (Hi : same_writer (with_limits d DEFAULT_BATCH_SIZE DEFAULT_CAPACITY)
    (writer (init d DEFAULT_BATCH_SIZE DEFAULT_CAPACITY))) by done.
  revert Hi. induction Hr as [|c c' c'' Hs _ IH]; [done|]. intros (H1 & H2 & H3 & H4). apply IH.
  destruct (step_same _ _ H2 Hs) as (K1 & K2 & K3 & K4). split_and!; congruence.
Qed.

Lemma writer_capacity d c : writer_of d c -> capacity (writer c) = 2 * 5000.
Proof. intros Hw. destruct (writer_of_same d c Hw) as (_ & _ & _ & ->). reflexivity. Qed.

Lemma writer_of_step d c c' : writer_of d c -> step c c' -> writer_of d c'.
Proof. intros Hr Hs. by eapply rtc_r. Qed.

Lemma writer_of_flushing d c c' : writer_of d c -> rtc flushing c c' ->
  writer_of d c' /\ accepted c' = accepted c.
Proof.
  intros Hr Hs. induction Hs as [|c c1 c' [Hs Ha] _ IH]; [done|]. rewrite <- Ha. apply IH.
  by eapply writer_of_step.
Qed.

(** A writer without a directory takes nothing, and has no file. *)
Lemma disabled_holds_nothing d c :
  writer_of d c -> dir (writer c) = None ->
  accepted c = [] /\ taken c = [] /\ events (buffer (writer c)) = [] /\ written c = [] /\ files c = ∅.
Proof.
  intros Hw Hd. pose proof (reachable_writer_inv _ _ _ _ Hw) as [Hl _ Hb _ _ Hn Hdir].
  assert (Ha : accepted c = []).
  { clear Hl Hb Hn Hdir. revert c Hw Hd. unfold writer_of, reachable.
    refine (rtc_ind_r _ _ _ _); [done|]. intros c1 c2 Hr Hs IH Hd.
    destruct (writer_of_same d c1 Hr) as (_ & Hsink & _).
    destruct (step_same c1 c2 Hsink Hs) as (Hdir & _). rewrite Hdir in Hd. specialize (IH Hd).
    destruct Hs; cbn in *; congruence. }
  destruct (Hdir Hd) as [Ht Hbuf]. split_and!; try done.
  - rewrite Ha, Ht, Hbuf in Hl. apply Permutation_nil_l in Hl.
    destruct (written c) as [|b bs]; [done|]. rewrite Forall_app in Hb. destruct Hb as [_ Hb].
    inversion Hb; subst. by destruct b.
  - apply map_size_empty_iff. rewrite Hn. rewrite Ha, Ht, Hbuf in Hl. apply Permutation_nil_l in Hl.
    destruct (written c) as [|b bs]; [done|]. rewrite Forall_app in Hb. destruct Hb as [_ Hb].
    inversion Hb; subst. by destruct b.
Qed.

(** A file is new under the id of a flush that works. *)
Definition fresh_tick (t : Tick) (c : Config) : Prop :=
  io t = Works -> files c !! final_name (millis t) (file_id t) = None.

(** A whole flush is its two halves, and loses nothing whatever the disk does. *)
Lemma flush_config_spec d t c :
  writer_of d c -> fresh_tick t c ->
  let c' := flush_config t c in
  rtc flushing c c' /\ taken c' = taken c /\ lost c' = lost c /\
  concat (written c') ++ events (buffer (writer c')) =
    concat (written c) ++ events (buffer (writer c)) /\
  (io t = Works -> events (buffer (writer c')) = []).
Proof.
  intros Hw Hf. pose proof (reachable_writer_inv _ _ _ _ Hw) as Hinv. unfold flush_config. cbv zeta.
  destruct (take_batch (millis t) (writer c)) as [[[batch m]|] w] eqn:Ht.
  2: { unfold take_batch in Ht. case_bool_decide as He; [|done].
       by split_and!. }
  pose proof Ht as Ht'. apply take_batch_Some in Ht' as (Heq & Hne & Hw1). injection Heq as -> ->.
  destruct (dir (writer c)) as [d'|] eqn:Hd.
  2: { destruct Hinv. by destruct (wi_dir Hd). }
  set (batch := events (buffer (writer c))) in *.
  assert (Hd1 : dir w = Some d') by by rewrite Hw1.
  assert (Hbound : length batch <= capacity w).
  { rewrite Hw1. destruct Hinv. exact wi_bound. }
  destruct c as [w0 fs tk acc wr lo]. cbn [writer files taken accepted written lost] in *.
  assert (Htake : flushing {| writer := w0; files := fs; taken := tk; accepted := acc; written := wr; lost := lo |}
    {| writer := w; files := fs; taken := (batch, millis t) :: tk; accepted := acc; written := wr; lost := lo |}).
  { split; [|done]. by apply step_take with (millis := millis t). }
  assert (failed : forall io0, io0 <> Works ->
    let c' := (let (w', fs') := write_or_requeue io0 (file_id t) batch (millis t) w fs in
      {| writer := w'; files := fs'; taken := tk; accepted := acc; written := wr ++ [];
         lost := lo ++ overflow (capacity w) (batch ++ events (buffer w)) |}) in
    rtc flushing {| writer := w0; files := fs; taken := tk; accepted := acc; written := wr; lost := lo |} c' /\
    taken c' = tk /\ lost c' = lo /\
    concat (written c') ++ events (buffer (writer c')) = concat wr ++ batch /\
    (io0 = Works -> events (buffer (writer c')) = [])).
  { intros io0 Hio. destruct (write_or_requeue io0 (file_id t) batch (millis t) w fs) as [w' fs'] eqn:Hr.
    pose proof (requeue_events _ _ _ _ _ _ _ _ _ Hd1 Hio Hr) as (_ & _ & _ & He & _).
    assert (Ho : overflow (capacity w) (batch ++ events (buffer w)) = []).
    { rewrite Hw1 at 2. cbn. rewrite app_nil_r. unfold overflow.
      by replace (length batch - capacity w) with 0 by lia. }
    cbv zeta. cbn [writer files taken accepted written lost]. rewrite Ho, !app_nil_r in *.
    split_and!; try done.
    - eapply rtc_l; [exact Htake|]. apply rtc_once. split; [|done].
      pose proof (step_requeue w fs [] tk acc wr lo batch (millis t) (file_id t) io0 w' fs' Hio Hr) as Hs.
      rewrite Ho, app_nil_r in Hs. exact Hs.
    - rewrite Hw1 in He. cbn in He. by rewrite app_nil_r in He; rewrite He. }
  destruct (io t) eqn:Hio.
  - unfold write_or_requeue. rewrite Hd1. cbn [write_batch writer files taken accepted written lost].
    rewrite !app_nil_r. split_and!; [|done|done| |intros _; by rewrite Hw1].
    + eapply rtc_l; [exact Htake|]. apply rtc_once. split; [|done].
      apply (step_write w fs [] tk acc wr lo batch (millis t) (file_id t)); [by apply Hf|].
      unfold write_or_requeue. by rewrite Hd1.
    + rewrite concat_app, Hw1. cbn. by rewrite !app_nil_r.
  - exact (failed Write_fails ltac:(done)).
  - exact (failed Rename_fails ltac:(done)).
Qed.

(** ** The node's writers *)

Record wf (n : Node) : Prop := {
  wf_heap : Forall (fun c => exists d, writer_of d c) (heap n);
  wf_handles : map_Forall (fun _ h => h < length (heap n)) (lineage_writers n);
  wf_apart : forall p q h, lineage_writers n !! p = Some h -> lineage_writers n !! q = Some h -> p = q;
}.

Lemma wf_lookup n h c : wf n -> heap n !! h = Some c -> exists d, writer_of d c.
Proof. intros [Hh _ _] Hc. rewrite Forall_lookup in Hh. by apply (Hh h). Qed.

Lemma wf_found n p h : wf n -> lineage_writers n !! p = Some h -> exists c, heap n !! h = Some c.
Proof. intros [_ Hh _] Hp. apply lookup_lt_is_Some. by apply (Hh p). Qed.

(** A node whose writer [h] has moved on. *)
Definition moved (h : nat) (c' : Config) (n n' : Node) : Prop :=
  heap n' = <[h := c']> (heap n) /\ lineage_writers n' = lineage_writers n.

Lemma wf_moved h c' d n n' : wf n -> writer_of d c' -> moved h c' n n' -> wf n'.
Proof.
  intros [Hh Hl Ha] Hc [Hheap Hmap]. split; rewrite ?Hmap, ?Hheap; try done.
  - apply Forall_insert; [done|by exists d].
  - by rewrite length_insert.
Qed.

Lemma flush_moved h t n c : heap n !! h = Some c -> moved h (flush_config t c) n (flush h t n).
Proof. intros Hc. unfold flush. by rewrite Hc. Qed.

(** Buffering is the writer's own step, or nothing where the writer is disabled. *)
Lemma buffer_lines_spec d h lines n c :
  heap n !! h = Some c -> writer_of d c ->
  let (is_due, n') := buffer_lines h lines n in
  exists c', moved h c' n n' /\ due n' = due n /\
    match dir (writer c) with
    | Some _ => step c c' /\ accepted c' = accepted c ++ lines /\
                writer c' = (buffer_all lines (writer c)).2
    | None => c' = c /\ is_due = false
    end.
Proof.
  intros Hc Hw. pose proof (writer_of_same _ _ Hw) as (_ & Hs & _ & _).
  pose proof (reachable_writer_inv _ _ _ _ Hw) as Hinv. unfold buffer_lines. rewrite Hc.
  set (w := match lineage_sink n with Some s => with_sink (writer c) s | None => writer c end).
  assert (Hd : dir w = dir (writer c)) by by (unfold w; destruct (lineage_sink n)).
  rewrite Hd. destruct c as [w0 fs tk acc wr lo].
  cbn [writer files taken accepted written lost] in *. destruct w0 as [d0 bs cap b s0]. cbn in Hs. subst s0.
  destruct d0 as [d0|]; cbn [dir is_Some_b].
  - destruct (buffer_all lines w) as [is_due w'] eqn:Hb. eexists. split; [done|]. split; [done|].
    assert (Hw' : {| dir := dir w'; batch_size := batch_size w'; capacity := capacity w';
                     buffer := buffer w'; sink := None |} =
      (buffer_all lines {| dir := Some d0; batch_size := bs; capacity := cap; buffer := b; sink := None |}).2).
    { revert Hb. unfold w, buffer_all. destruct (lineage_sink n); cbn;
        case_bool_decide; cbn; intros [= <- <-]; reflexivity. }
    rewrite Hw'. split; [|done]. by eapply step_buffer.
  - assert (Hbuf : events b = []).
    { destruct Hinv. cbn in *. by destruct (wi_dir eq_refl). }
    destruct (buffer_all lines w) as [is_due w'] eqn:Hb.
    assert (Hw' : is_due = false /\
      {| dir := dir w'; batch_size := batch_size w'; capacity := capacity w';
         buffer := buffer w'; sink := None |} =
      {| dir := None; batch_size := bs; capacity := cap; buffer := b; sink := None |}).
    { revert Hb. unfold w, buffer_all. destruct (lineage_sink n); cbn;
        repeat case_bool_decide; cbn; intros [= <- <-]; done. }
    destruct Hw' as [-> Hw']. rewrite Hw'. cbn [buffer]. rewrite Hbuf, !app_nil_r.
    eexists. split; [done|]. done.
Qed.

(** Flushes of writers that are not the same do not meet. *)
Lemma flush_all_spec hs ticks n :
  NoDup hs ->
  lineage_writers (flush_all hs ticks n) = lineage_writers n /\
  lineage_sink (flush_all hs ticks n) = lineage_sink n /\
  forall h, heap (flush_all hs ticks n) !! h =
    if bool_decide (h ∈ hs) then flush_config (ticks h) <$> heap n !! h else heap n !! h.
Proof.
  unfold flush_all. revert n. induction hs as [|h hs IH]; intros n; [done|].
  rewrite NoDup_cons. intros [Hh Hd]. cbn [foldl]. destruct (IH (flush h (ticks h) n) Hd) as (Hm & Hs & Hl).
  assert (Hf : lineage_writers (flush h (ticks h) n) = lineage_writers n /\
    lineage_sink (flush h (ticks h) n) = lineage_sink n /\
    forall k, heap (flush h (ticks h) n) !! k =
      if decide (k = h) then flush_config (ticks h) <$> heap n !! h else heap n !! k).
  { unfold flush. destruct (heap n !! h) as [c|] eqn:Hc; cbn.
    - split; [done|]. split; [done|]. intros k. destruct (decide (k = h)) as [->|Hne].
      + rewrite list_lookup_insert_eq; [done|]. by eapply lookup_lt_Some.
      + by rewrite list_lookup_insert_ne.
    - split; [done|]. split; [done|]. intros k. by destruct (decide (k = h)) as [->|]. }
  destruct Hf as (Hm' & Hs' & Hl'). rewrite Hm, Hm', Hs, Hs'. split; [done|]. split; [done|].
  intros k. rewrite Hl, Hl'. destruct (decide (k = h)) as [->|Hne].
  - rewrite bool_decide_eq_false_2 by done. by rewrite bool_decide_eq_true_2 by left.
  - rewrite (bool_decide_ext (k ∈ h :: hs) (k ∈ hs)); [done|]. set_solver.
Qed.

Lemma elem_of_handles n h : h ∈ handles n <-> exists p, lineage_writers n !! p = Some h.
Proof.
  unfold handles. rewrite list_elem_of_fmap. split.
  - intros ([p k] & -> & Hp). exists p. by apply elem_of_map_to_list.
  - intros [p Hp]. exists (p, h). split; [done|]. by apply elem_of_map_to_list.
Qed.

Lemma handles_eq n n' : lineage_writers n' = lineage_writers n -> handles n' = handles n.
Proof. unfold handles. by intros ->. Qed.

Lemma handles_NoDup n : wf n -> NoDup (handles n).
Proof.
  intros [_ _ Ha]. unfold handles.
  assert (Hin : forall x, x ∈ map_to_list (lineage_writers n) -> lineage_writers n !! x.1 = Some x.2).
  { intros [p h] Hx. by apply elem_of_map_to_list in Hx. }
  pose proof (NoDup_fst_map_to_list (lineage_writers n)) as Hnd. revert Hnd Hin.
  induction (map_to_list (lineage_writers n)) as [|[p h] l IH]; intros Hnd Hin; [constructor|].
  cbn in *. apply NoDup_cons in Hnd as [Hp Hnd]. constructor; [|apply IH; [done|set_solver]].
  intros ([q k] & Hk & Hq)%list_elem_of_fmap. cbn in Hk. subst k. apply Hp.
  rewrite (Ha p q h); [by apply (list_elem_of_fmap_2 fst _ (q, h))|apply (Hin (p, h)); left|].
  apply (Hin (q, h)). by right.
Qed.

(** ** Records and lines *)

Section refinement.
Context {C D E F : Type} `{!PondIds} `{!PondStorage D}.
Variables (adapter : string) (to_text : Json -> string) (serving_name : string).
Notation World := (Ops.World C D E F).
Notation lines_of_record := (lines_of_record adapter to_text serving_name).
Notation emit_lineage := (emit_lineage adapter to_text serving_name).

(** An operation of [Ops] beside the node that keeps its trails: what it emits, what it
    evicts, any half of a flush in between, and whatever else it does. *)
Inductive beside : World * Node -> World * Node -> Prop :=
| beside_emit rec s w n :
    beside (w, n) ((AgentOps.emit_lineage rec w).2, emit_lineage s rec (disk w) n)
| beside_evict p w n :
    beside (w, n) ((AgentOps.evict_lineage_writer p w).2, forget_writer p n)
| beside_flush w n n' h c c' :
    heap n !! h = Some c -> flushing c c' -> moved h c' n n' -> beside (w, n) (w, n')
| beside_other w w' n :
    Ops.lineage_writers w' = Ops.lineage_writers w -> beside (w, n) (w', n).

(** The two lines of a record's run, under the stamp it was given. *)
Definition run_of (r : Stamp * QueryRecord) : string * string :=
  let run := Emit.record adapter (engine_version r.1) serving_name (uuid r.1) (began r.1) (ended r.1)
               (trace_id r.1) r.2 in
  (to_text (Event.to_json run.1), to_text (Event.to_json run.2)).

Lemma lines_of_record_run s rec : lines_of_record s rec = lines_of_runs run_of [(s, rec)].
Proof.
  unfold lines_of_record, lines_of_runs, run_of. cbn.
  by destruct (Emit.record _ _ _ _ _ _ _ _) as [start terminal].
Qed.

(** Whether flushes of one writer are kept apart: no two of them at once. *)
Variable apart : bool.

Definition flushes_apart (n : Node) : Prop :=
  apart = true -> Forall (fun c => length (taken c) <= 1) (heap n).

(** The writer of pond [p] took [recs]: into the directory the storage gave for it. *)
Definition tracks (n : Node) (p : string) (recs : list QueryRecord) (h : nat) : Prop :=
  exists c d pid loc stamps,
    heap n !! h = Some c /\ uuid_parse p = Ok pid /\ st_pond_location pid d = Ok loc /\
    writer_of (lineage_dir loc) c /\ length stamps = length recs /\
    (is_Some (dir (writer c)) ->
       accepted c = lines_of_runs run_of (zip stamps recs) /\ whole run_of 5000 apart (zip stamps recs) c).

Record kept_by (w : World) (n : Node) : Prop := {
  kb_wf : wf n;
  kb_dom : forall p, is_Some (Ops.lineage_writers w !! p) <-> is_Some (lineage_writers n !! p);
  kb_tracks : forall p recs h, Ops.lineage_writers w !! p = Some recs ->
                lineage_writers n !! p = Some h -> tracks n p recs h;
}.

Lemma tracks_heap n n' p recs h :
  heap n' !! h = heap n !! h -> tracks n p recs h -> tracks n' p recs h.
Proof. intros Hh (c & d & pid & loc & stamps & Hc & Hrest). exists c, d, pid, loc, stamps. by rewrite Hh. Qed.

(** Asking for a writer makes the same one on both sides. *)
Lemma writer_asked info w n :
  kept_by w n ->
  let (ok, w1) := AgentOps.lineage_writer info w in
  let (oh, n1) := lineage_writer info (disk w) n in
  kept_by w1 n1 /\
  match oh with
  | Some h => ok = true /\ lineage_writers n1 !! pond_id info = Some h /\
              is_Some (Ops.lineage_writers w1 !! pond_id info)
  | None => ok = false /\ w1 = w /\ n1 = n
  end.
Proof.
  intros Hk. pose proof Hk as [Hwf Hdom Htr]. unfold AgentOps.lineage_writer, lineage_writer.
  specialize (Hdom (pond_id info)) as Hp.
  destruct (Ops.lineage_writers w !! pond_id info) as [recs|] eqn:Ew,
           (lineage_writers n !! pond_id info) as [h|] eqn:En.
  - split; [done|]. by rewrite Ew.
  - destruct Hp as [Hp _]. by destruct Hp.
  - destruct Hp as [_ Hp]. by destruct Hp.
  - unfold AgentOps.parse_id. destruct (uuid_parse (pond_id info)) as [pid|e] eqn:Eu; cbn; [|done].
    destruct (st_pond_location pid (disk w)) as [loc|e] eqn:El; [|done].
    split; [|by cbn; rewrite !lookup_insert_eq]. destruct Hwf as [Hh Hl Ha]. split.
    + split; cbn.
      * apply Forall_app. split; [done|]. constructor; [|done]. exists (lineage_dir loc). apply rtc_refl.
      * apply map_Forall_insert_2; [rewrite length_app; cbn; lia|].
        eapply map_Forall_impl; [exact Hl|]. intros q k. cbn. rewrite length_app. lia.
      * assert (Hnew : forall q, lineage_writers n !! q <> Some (length (heap n))).
        { intros q Hq. specialize (Hl q _ Hq). cbn in Hl. lia. }
        intros p q k. destruct (decide (p = pond_id info)) as [->|Hpn], (decide (q = pond_id info)) as [->|Hqn];
          rewrite ?lookup_insert_eq, ?lookup_insert_ne by done; [done|intros [= <-] Hq; by destruct (Hnew q)| |apply Ha].
        intros Hq [= <-]. by destruct (Hnew p).
    + intros q. cbn. destruct (decide (q = pond_id info)) as [->|Hne];
        [by rewrite !lookup_insert_eq|rewrite !lookup_insert_ne by done; apply Hdom].
    + intros q recs h. cbn. destruct (decide (q = pond_id info)) as [->|Hne].
      * rewrite !lookup_insert_eq. intros [= <-] [= <-].
        eexists _, (disk w), pid, loc, []. cbn. rewrite list_lookup_middle by done.
        split_and!; try done; [apply rtc_refl|]. intros _. split; [done|]. apply whole_init.
      * rewrite !lookup_insert_ne by done. intros Hq Hh'.
        eapply tracks_heap; [|by apply (Htr q)]. cbn. apply lookup_app_l. by apply (Hl q).
Qed.

Lemma kept_by_flush w n n' h c c' :
  kept_by w n -> heap n !! h = Some c -> flushing c c' -> moved h c' n n' ->
  flushes_apart n -> flushes_apart n' -> kept_by w n'.
Proof.
  intros [Hwf Hdom Htr] Hc Hf Hm Hone Hone'. destruct (wf_lookup _ _ _ Hwf Hc) as [d Hd].
  destruct (writer_of_flushing d c c' Hd (rtc_once _ _ Hf)) as [Hd' Ha].
  pose proof Hm as [Hheap Hmap]. split.
  - by eapply wf_moved.
  - intros p. rewrite Hmap. apply Hdom.
  - intros p recs k Hp Hk. rewrite Hmap in Hk. specialize (Htr p recs k Hp Hk).
    destruct (decide (k = h)) as [->|Hne].
    + destruct Htr as (c0 & d0 & pid & loc & stamps & Hc0 & Hu & Hl & Hw & Hlen & Hacc).
      assert (c0 = c) as -> by congruence. exists c', d0, pid, loc, stamps.
      assert (Hdir : dir (writer c') = dir (writer c)).
      { by apply (step_same c c'); [apply (writer_of_same _ _ Hd)|apply Hf]. }
      rewrite Hheap, list_lookup_insert_eq, Hdir, Ha by by eapply lookup_lt_Some.
      split_and!; try done; [by eapply writer_of_step; [exact Hw|apply Hf]|].
      intros He. destruct (Hacc He) as [Hacc' Hwh]. split; [done|].
      apply (whole_flush run_of 5000 apart _ c c'); [apply Hf|done| | | |done].
      * by eapply reachable_writer_inv.
      * by eapply writer_capacity.
      * intros Hap. specialize (Hone Hap). specialize (Hone' Hap). rewrite Forall_lookup in Hone, Hone'.
        split; [by apply (Hone h)|]. apply (Hone' h). rewrite Hheap.
        apply list_lookup_insert_eq. by eapply lookup_lt_Some.
    + eapply tracks_heap; [|exact Htr]. by rewrite Hheap, list_lookup_insert_ne.
Qed.

Lemma kept_by_emit w n rec s :
  kept_by w n -> kept_by (AgentOps.emit_lineage rec w).2 (emit_lineage s rec (disk w) n).
Proof.
  intros Hk. unfold AgentOps.emit_lineage, emit_lineage. destruct (lineage (q_info rec)); [cbn [negb]|done].
  pose proof (writer_asked (q_info rec) w n Hk) as Ha. unfold bind.
  destruct (AgentOps.lineage_writer (q_info rec) w) as [ok w1].
  destruct (lineage_writer (q_info rec) (disk w) n) as [[h|] n1].
  2: { destruct Ha as (_ & -> & -> & ->). exact Hk. }
  destruct Ha as ([Hwf Hdom Htr] & -> & Hh & Hrecs). cbn [snd].
  destruct (wf_found _ _ _ Hwf Hh) as [c Hc]. destruct (wf_lookup _ _ _ Hwf Hc) as [d Hd].
  pose proof (buffer_lines_spec d h (lines_of_record s rec) n1 c Hc Hd) as Hb.
  destruct (buffer_lines h (lines_of_record s rec) n1) as [is_due n2].
  destruct Hb as (c' & Hm & _ & Hcase).
  assert (Hw' : forall d, writer_of d c -> writer_of d c').
  { intros d0 Hd0. destruct (dir (writer c)); [|by destruct Hcase as [-> _]].
    by eapply writer_of_step; [exact Hd0|apply Hcase]. }
  assert (Hdir : dir (writer c') = dir (writer c)).
  { destruct (dir (writer c)) eqn:Edir; [|by destruct Hcase as [-> _]].
    rewrite <- Edir. by apply (step_same c c'); [apply (writer_of_same _ _ Hd)|apply Hcase]. }
  assert (Hkept : kept_by (set_writers (alter (fun l => l ++ [rec]) (pond_id (q_info rec))
    (Ops.lineage_writers w1)) w1) n2).
  { pose proof Hm as [Hheap Hmap]. split.
    - eapply wf_moved; [done| |exact Hm]. by apply Hw'.
    - intros p. cbn. rewrite Hmap, lookup_alter_is_Some. apply Hdom.
    - intros p recs k Hp Hpk. cbn in Hp. rewrite Hmap in Hpk.
      destruct (decide (p = pond_id (q_info rec))) as [->|Hne].
      + rewrite lookup_alter_eq in Hp. assert (k = h) as -> by congruence.
        destruct (Ops.lineage_writers w1 !! pond_id (q_info rec)) as [recs0|] eqn:Er; [|done].
        injection Hp as <-.
        destruct (Htr _ _ _ Er Hpk) as (c0 & d0 & pid & loc & stamps & Hc0 & Hu & Hl & Hw & Hlen & Hacc).
        assert (c0 = c) as -> by congruence. exists c', d0, pid, loc, (stamps ++ [s]).
        rewrite Hheap, list_lookup_insert_eq by by eapply lookup_lt_Some.
        rewrite !length_app, Hdir, zip_with_app by done. cbn [length zip_with].
        split_and!; try done; [by apply Hw'|lia|]. intros He. destruct (Hacc He) as [Hacc' Hwh].
        destruct (dir (writer c)); [|by destruct He]. destruct Hcase as (Hs & Ha' & _).
        rewrite lines_of_record_run in Ha'. rewrite runs_app, <- Hacc'. split; [done|].
        apply (whole_record run_of 5000 apart _ (s, rec) c c'); [done|done| |done].
        by eapply writer_capacity.
      + rewrite lookup_alter_ne in Hp by done.
        assert (Hkh : k <> h) by (intros ->; apply Hne; exact (wf_apart _ Hwf _ _ h Hpk Hh)).
        eapply tracks_heap; [|by apply (Htr p)]. rewrite Hheap, list_lookup_insert_ne; done. }
  destruct is_due; [|exact Hkept]. destruct Hkept as [[? ? ?] ? ?].
  split; [split|..]; assumption.
Qed.

Lemma kept_by_evict w n p :
  kept_by w n -> kept_by (AgentOps.evict_lineage_writer p w).2 (forget_writer p n).
Proof.
  intros [[Hh Hl Ha] Hdom Htr]. split; [split|..]; cbn.
  - done.
  - by apply map_Forall_delete.
  - intros q r k Hq Hr. apply lookup_delete_Some in Hq as [_ Hq], Hr as [_ Hr]. by apply (Ha q r k).
  - intros q. destruct (decide (q = p)) as [->|Hne];
      [by rewrite !lookup_delete_eq|by rewrite !lookup_delete_ne].
  - intros q recs k Hq Hk. apply lookup_delete_Some in Hq as [_ Hq], Hk as [_ Hk].
    by eapply tracks_heap; [|by apply (Htr q)].
Qed.

Lemma kept_by_beside x y :
  beside x y -> flushes_apart x.2 -> flushes_apart y.2 -> kept_by x.1 x.2 -> kept_by y.1 y.2.
Proof.
  destruct 1 as [rec s w n|p w n|w n n' h c c' Hc Hf Hm|w w' n Hw]; cbn; intros Ho Ho'.
  - apply kept_by_emit.
  - apply kept_by_evict.
  - intros Hk. by eapply kept_by_flush.
  - intros [Hwf Hdom Htr]. split; rewrite ?Hw; done.
Qed.

Lemma kept_by_started w sink :
  Ops.lineage_writers w = ∅ -> kept_by w (started sink).
Proof.
  intros Hw. split; [by split| |]; cbn; intros p; rewrite Hw; [|done]. by rewrite !lookup_empty.
Qed.

Definition beside_apart (x y : World * Node) : Prop := beside x y /\ flushes_apart y.2.

Lemma kept_by_beside_star x y :
  rtc beside_apart x y -> flushes_apart x.2 -> kept_by x.1 x.2 -> kept_by y.1 y.2.
Proof.
  induction 1 as [|x x' y [Hs Ho'] _ IH]; [done|]. intros Ho Hk.
  apply IH; [done|]. by apply (kept_by_beside x).
Qed.

(** The lines of a run: its START, then its terminal event, under the stamp's id and times. *)
Definition is_run (r : Stamp * QueryRecord) (l : string * string) : Prop :=
  exists start terminal : Event.RunEvent,
    l = (to_text (Event.to_json start), to_text (Event.to_json terminal)) /\
    Event.event_type start = Event.Start /\
    Event.event_type terminal =
      match q_error r.2 with
      | None => Event.Complete
      | Some e =>
          match kind e with
          | Kind.QueryCancelled | Kind.QueryTimeout => Event.Abort_
          | _ => Event.Fail_
          end
      end /\
    Event.run_id (Event.run start) = uuid r.1 /\ Event.run_id (Event.run terminal) = uuid r.1 /\
    Event.event_time start = began r.1 /\ Event.event_time terminal = ended r.1.

Lemma run_of_is_run r : is_run r (run_of r).
Proof.
  pose proof (LineageEventSpec.record_is_one_run adapter (engine_version r.1) serving_name
    (uuid r.1) (began r.1) (ended r.1) (trace_id r.1) r.2) as Hone.
  unfold is_run, run_of. destruct (Emit.record _ _ _ _ _ _ _ _) as [start terminal].
  destruct Hone as (H1 & H2 & H3 & H4 & _ & _ & _ & _ & H5 & H6 & _). exists start, terminal.
  split_and!; try done. rewrite H2. unfold Emit.terminal. destruct (q_error r.2) as [e|]; [|done].
  by destruct (kind e).
Qed.

(** The files of a writer are the batches of runs it wrote. *)
Lemma files_of_runs d c wr :
  writer_of d c -> written c = lines_of_runs run_of <$> wr ->
  (forall name b, files c !! name = Some b ->
     finished name /\ exists runs, runs ∈ wr /\ b = text (lines_of_runs run_of runs)) /\
  (forall runs, runs ∈ wr -> exists name, files c !! name = Some (text (lines_of_runs run_of runs))) /\
  size (files c) = length wr.
Proof.
  intros Hw Hwr. destruct (reachable_writer_inv _ _ _ _ Hw) as [_ _ Hne Hn Hwritten Hsize _].
  assert (Htext : forall batch, batch ∈ written c -> body batch = text batch).
  { intros batch Hb. apply body_text. rewrite Forall_app, !Forall_forall in Hne. by apply Hne. }
  split_and!.
  - intros name b Hf. destruct (Hn _ _ Hf) as (batch & m & id & Hb & -> & ->). split.
    + apply is_batch_spec, is_batch_final.
    + rewrite Htext by done. rewrite Hwr in Hb. apply list_elem_of_fmap in Hb as (runs & -> & Hr).
      by exists runs.
  - intros runs Hr.
    assert (Hb : lines_of_runs run_of runs ∈ written c) by (rewrite Hwr; by apply list_elem_of_fmap_2).
    rewrite Forall_forall in Hwritten. destruct (Hwritten _ Hb) as (m & id & Hf).
    exists (final_name m id). by rewrite Hf, Htext.
  - by rewrite Hsize, Hwr, length_fmap.
Qed.

(** C34: the files and buffers of a node implement the records its operations leave: every
    pond with records has one writer, in the directory the storage gave for that pond.
    Each record is a run of two lines, its START and its terminal event; every run is
    whole, in one of the writer's files, in a batch in hand, in its buffer, or let go by a
    full buffer, which takes more than 5000 records; each file is a batch of whole runs,
    under a name a reader takes.  Where no two flushes of a writer overlap, the runs
    written, in hand and buffered are in the order of their records.  A directory that is
    not absolute disables the writer, which then keeps nothing.  This holds however
    operations, evictions and the halves of flushes interleave, on a disk that may fail. *)
Theorem trails_implement_records w0 sink w n :
  Ops.lineage_writers w0 = ∅ -> rtc beside_apart (w0, started sink) (w, n) ->
  forall p recs, Ops.lineage_writers w !! p = Some recs ->
  exists h c d pid loc stamps,
    lineage_writers n !! p = Some h /\ heap n !! h = Some c /\
    (forall q, lineage_writers n !! q = Some h -> q = p) /\
    uuid_parse p = Ok pid /\ st_pond_location pid d = Ok loc /\
    length stamps = length recs /\
    (forall r, r ∈ zip stamps recs -> is_run r (run_of r)) /\
    if starts_with "/" (lineage_dir loc) then
      dir (writer c) = Some (lineage_dir loc) /\
      exists wr tk bf lo,
        zip stamps recs ≡ₚ concat wr ++ concat tk ++ bf ++ lo /\
        (length recs <= 5000 -> lo = []) /\
        (apart = true -> concat wr ++ concat tk ++ bf `sublist_of` zip stamps recs) /\
        (taken c).*1 = lines_of_runs run_of <$> tk /\
        events (buffer (writer c)) = lines_of_runs run_of bf /\
        (forall name b, files c !! name = Some b ->
           finished name /\ exists runs, runs ∈ wr /\ b = text (lines_of_runs run_of runs)) /\
        (forall runs, runs ∈ wr ->
           exists name, files c !! name = Some (text (lines_of_runs run_of runs))) /\
        size (files c) = length wr
    else
      dir (writer c) = None /\ files c = ∅ /\ taken c = [] /\ events (buffer (writer c)) = [].
Proof.
  intros Hw0 Hr p recs Hp.
  assert (Hk : kept_by w n).
  { change (kept_by (w, n).1 (w, n).2). eapply kept_by_beside_star; [exact Hr|by intros _|].
    by apply kept_by_started. }
  destruct Hk as [Hwf Hdom Htr]. destruct (proj1 (Hdom p)) as [h Hh]; [by rewrite Hp|].
  destruct (Htr p recs h Hp Hh) as (c & d & pid & loc & stamps & Hc & Hu & Hl & Hw & Hlen & Hacc).
  exists h, c, d, pid, loc, stamps. split_and!; try done.
  - intros q Hq. by eapply wf_apart.
  - intros r _. apply run_of_is_run.
  - assert (Hdir : dir (writer c) = if starts_with "/" (lineage_dir loc) then Some (lineage_dir loc) else None).
    { destruct (writer_of_same _ _ Hw) as (-> & _). cbn. unfold is_absolute.
      by destruct (lineage_dir loc); [|destruct (starts_with _ _)]. }
    destruct (starts_with "/" (lineage_dir loc)).
    + split; [done|]. destruct (Hacc ltac:(by rewrite Hdir)) as [_ (wr & tk & bf & lo & [? ? ? ? ? Hkept ?])].
      destruct (files_of_runs _ c wr Hw) as (? & ? & ?); [done|].
      exists wr, tk, bf, lo. split_and!; try done. intros Hle. apply Hkept.
      rewrite length_zip. lia.
    + destruct (disabled_holds_nothing _ c Hw Hdir) as (_ & ? & ? & _ & ?). done.
Qed.
End refinement.

(** ** Flushes of the node *)

Section flushes.
Context {C D E F : Type} `{!PondIds} `{!PondStorage D}.
Variables (adapter : string) (to_text : Json -> string) (serving_name : string).
Notation beside := (@beside C D E F _ _ adapter to_text serving_name).

(** What the node does to a writer is made of the halves its writers make. *)
Lemma flush_beside w n h t :
  wf n -> (forall c, heap n !! h = Some c -> fresh_tick t c) -> rtc beside (w, n) (w, flush h t n).
Proof.
  intros Hwf Hf. unfold flush. destruct (heap n !! h) as [c|] eqn:Hc; [|apply rtc_refl].
  destruct (wf_lookup _ _ _ Hwf Hc) as [d Hd].
  destruct (flush_config_spec d t c Hd (Hf c eq_refl)) as (Hr & _).
  assert (Hgo : forall c1 c2, rtc flushing c1 c2 -> rtc beside (w, with_config h c1 n) (w, with_config h c2 n)).
  { intros c1 c2 Hs. induction Hs as [|c1 c3 c2 Hs _ IH]; [apply rtc_refl|].
    eapply rtc_l; [|exact IH]. apply (beside_flush _ _ _ _ _ _ h c1 c3); [|done|].
    - cbn. apply list_lookup_insert_eq. by eapply lookup_lt_Some.
    - split; cbn; [by rewrite list_insert_insert_eq|done]. }
  replace (w, n) with (w, with_config h c n); [by apply Hgo|].
  destruct n. unfold with_config. cbn in *. by rewrite list_insert_id.
Qed.
End flushes.

(** ** Stopping *)

(** What a file name's reader would take is still there. *)
Definition keeps_files (c c' : Config) : Prop :=
  forall name b, finished name -> files c !! name = Some b -> files c' !! name = Some b.

(** A writer flushed: its buffer is one more file, and empty; where the disk refused it,
    it is as it was. *)
Definition flushed (t : Tick) (c c' : Config) : Prop :=
  taken c' = taken c /\
  match io t with
  | Works =>
      events (buffer (writer c')) = [] /\
      (events (buffer (writer c)) <> [] ->
       exists name, finished name /\ files c !! name = None /\
         files c' !! name = Some (text (events (buffer (writer c)))))
  | _ => events (buffer (writer c')) = events (buffer (writer c))
  end.

(** A writer whose batch is in memory only. *)
Definition in_hand (t : Tick) (c c' : Config) : Prop :=
  events (buffer (writer c)) <> [] /\ events (buffer (writer c')) = [] /\
  taken c' = (events (buffer (writer c)), millis t) :: taken c.

Lemma temp_not_finished id : ~ finished (temp_name id).
Proof. intros [_ Hn]. apply Hn. by exists id. Qed.

Lemma flush_config_flushed d t c :
  writer_of d c -> fresh_tick t c ->
  flushed t c (flush_config t c) /\ lost (flush_config t c) = lost c /\
  keeps_files c (flush_config t c).
Proof.
  intros Hw Hf. destruct (flush_config_spec d t c Hw Hf) as (_ & Ht & Hlo & Hlines & Hworks).
  pose proof (reachable_writer_inv _ _ _ _ Hw) as Hinv.
  assert (Hfiles : (events (buffer (writer c)) = [] /\ flush_config t c = c) \/
    files (flush_config t c) = match io t with
      | Works => <[final_name (millis t) (file_id t) := text (events (buffer (writer c)))]>
                   (delete (temp_name (file_id t)) (files c))
      | _ => delete (temp_name (file_id t)) (files c)
      end /\ (io t <> Works -> written (flush_config t c) = written c)).
  { unfold flush_config, take_batch. case_bool_decide as He; [by left|right].
    unfold write_or_requeue. cbn [set_buffer dir].
    destruct (dir (writer c)) eqn:Hd; [|by destruct (wi_dir _ Hinv Hd)].
    rewrite <- body_text by done. destruct (io t); cbn; rewrite ?app_nil_r; done. }
  assert (Hother : forall name, finished name -> name <> temp_name (file_id t)).
  { intros name Hn ->. by destruct (temp_not_finished (file_id t)). }
  split; [|split; [done|]].
  - split; [done|]. destruct Hfiles as [[He Hsame]|[Hfiles Hwr]].
    + rewrite Hsame, He. by destruct (io t).
    + destruct (io t) eqn:Hio.
      * split; [by apply Hworks|]. intros _. exists (final_name (millis t) (file_id t)).
        split; [apply is_batch_spec, is_batch_final|]. split; [by apply Hf|].
        by rewrite Hfiles, lookup_insert_eq.
      * rewrite Hwr in Hlines by done. by apply app_inv_head in Hlines.
      * rewrite Hwr in Hlines by done. by apply app_inv_head in Hlines.
  - intros name b Hn Hb. destruct Hfiles as [[_ ->]|[-> _]]; [done|].
    assert (Hdel : delete (temp_name (file_id t)) (files c) !! name = Some b).
    { by rewrite lookup_delete_ne by (intros <-; by apply (Hother _ Hn)). }
    destruct (io t) eqn:Hio; [|done..]. rewrite lookup_insert_ne; [done|].
    intros <-. by rewrite Hf in Hb.
Qed.

Lemma cut_config_cut cut t c :
  (cut_config cut t c = c \/ (cut <> Not_begun /\ in_hand t c (cut_config cut t c))) /\
  lost (cut_config cut t c) = lost c /\ keeps_files c (cut_config cut t c).
Proof.
  unfold cut_config, keeps_files. destruct cut; [by split_and!; [left|..]|..];
    destruct (take_batch (millis t) (writer c)) as [[batch|] w] eqn:Ht;
    try (by split_and!; [left|..]);
    apply take_batch_Some in Ht as (-> & Hne & ->); cbn; split_and!; try done; try by right.
  intros name b Hn Hb. rewrite lookup_insert_ne; [done|]. intros <-.
  by destruct (temp_not_finished (file_id t)).
Qed.

(** What a drain came to with a budget: it waits while something is unsettled and there is
    time; it stops once all is settled; and gives up when its budget is over, and then a
    poster that keeps to the limit of a request has settled one event for each such limit
    the budget had room for. *)
Definition drained (s : Sink.Shared) (budget : N) (looks : list (N * Sink.Shared))
    (unposted : option (option N)) : Prop :=
  let target := Sink.enqueued s in
  match unposted with
  | None => Forall (fun l => (Sink.settled l.2 < target)%N /\ (l.1 < budget)%N) looks
  | Some None => exists l, l ∈ looks /\ (target <= Sink.settled l.2)%N
  | Some (Some k) =>
      (exists l, l ∈ looks /\ (budget <= l.1)%N /\ (Sink.settled l.2 + k = target)%N /\ (0 < k)%N) /\
      ((forall l, l ∈ looks ->
          (Sink.settled s + N.min (l.1 / POST_TIMEOUT) (target - Sink.settled s) <= Sink.settled l.2)%N) ->
       (Sink.settled s + budget / POST_TIMEOUT + k <= target)%N)
  end.

Lemma drain_looks_spec s budget looks :
  drained s budget looks (drain_looks (Sink.enqueued s) budget looks).
Proof.
  unfold drained. set (target := Sink.enqueued s).
  induction looks as [|[now s'] looks IH]; cbn [drain_looks]; [constructor|].
  unfold Sink.drain_done. destruct (N.leb_spec target (Sink.settled s')) as [Hd|Hd].
  { exists (now, s'). split; [by left|done]. }
  destruct (N.eqb_spec (budget - now) 0) as [Hn|Hn].
  - split; [exists (now, s'); split_and!; [by left|cbn; lia..]|]. intros Hp.
    specialize (Hp (now, s') ltac:(by left)). cbn in Hp.
    assert (budget / POST_TIMEOUT <= now / POST_TIMEOUT)%N by (apply N.Div0.div_le_mono; lia). lia.
  - destruct (drain_looks target budget looks) as [[k|]|].
    + destruct IH as [(l & Hl & Hrest) Hp]. split; [exists l; split; [by right|done]|].
      intros Hall. apply Hp. intros l' Hl'. apply Hall. by right.
    + destruct IH as (l & Hl & ?). exists l. split; [by right|done].
    + constructor; [cbn; lia|done].
Qed.

(** The writer at place [i] of the map when the process ends after [in_time] of them. *)
Lemma cut_off_spec cut ticks i n n' :
  NoDup (handles n) -> handles n' = handles n ->
  forall h, heap (cut_off cut ticks i n') !! h =
    if bool_decide (handles n !! i = Some h) then cut_config cut (ticks h) <$> heap n' !! h
    else heap n' !! h.
Proof.
  intros Hnd Hh h. unfold cut_off. rewrite Hh. destruct (handles n !! i) as [k|] eqn:Hk.
  - case_bool_decide as Heq.
    + injection Heq as ->. destruct (heap n' !! h) as [c|] eqn:Hc; cbn; [|by rewrite Hc].
      apply list_lookup_insert_eq. by eapply lookup_lt_Some.
    + destruct (heap n' !! k) as [c|] eqn:Hc; cbn; [|done].
      apply list_lookup_insert_ne. congruence.
  - by rewrite bool_decide_eq_false_2.
Qed.

(** C35: a node that stops in time has every buffered line the disk took in a file: each
    writer's buffer, where it was not empty, is one more file with its lines in order, and
    a buffer the disk refused is as it was.  A node whose budget runs out first is cut off
    in the flush of one writer: those before it in the order of the map are flushed, those
    behind it are as they were, and of that one the batch may be taken and in memory only,
    or in a file no reader takes, and so is lost with the process.  No file a reader takes
    is touched either way, nothing is let go by a full buffer, and a batch another flush
    has in hand stays there.  The sink is drained with what is left of the budget: it
    waits while events are unsettled and there is time, and where it gives up, a poster
    that keeps to its limit on a request has settled one event for each such limit left,
    which is one where the files took at most 5 of the 15 seconds. *)
Theorem stopping_keeps_the_trails took in_time cut ticks looks n :
  wf n ->
  (forall p h c, lineage_writers n !! p = Some h -> heap n !! h = Some c -> fresh_tick (ticks h) c) ->
  let (left, n') := shutdown_lineage took in_time cut ticks looks n in
  (forall p h c, lineage_writers n !! p = Some h -> heap n !! h = Some c ->
     exists i c', handles n !! i = Some h /\ heap n' !! h = Some c' /\
       lost c' = lost c /\ keeps_files c c' /\
       match left with
       | Drained _ _ => flushed (ticks h) c c'
       | Unwritten =>
           if i <? in_time then flushed (ticks h) c c'
           else c' = c \/ (i = in_time /\ cut <> Not_begun /\ in_hand (ticks h) c c')
       end) /\
  match left with
  | Unwritten => (15000 < took)%N
  | Drained budget unposted =>
      (took + budget = 15000)%N /\
      ((took <= 5000)%N -> (1 <= budget / POST_TIMEOUT)%N) /\
      match lineage_sink n with
      | None => unposted = Some None
      | Some s => drained s budget looks unposted
      end
  end.
Proof.
  intros Hwf Hf. pose proof (handles_NoDup n Hwf) as Hnd. unfold shutdown_lineage.
  assert (Hplace : forall p h, lineage_writers n !! p = Some h -> exists i, handles n !! i = Some h).
  { intros p h Hp. apply list_elem_of_lookup, elem_of_handles. by exists p. }
  destruct (N.ltb_spec SHUTDOWN_BUDGET took) as [Hlt|Hge].
  - split; [|done]. intros p h c Hp Hc. destruct (Hplace p h Hp) as [i Hi].
    destruct (wf_lookup _ _ _ Hwf Hc) as [d Hd]. exists i.
    destruct (flush_all_spec (take in_time (handles n)) ticks n) as (Hm & _ & Hl).
    { eapply sublist_NoDup; [exact Hnd|]. apply sublist_take. }
    rewrite (cut_off_spec cut ticks in_time n) by (done || by apply handles_eq).
    rewrite Hl, Hc.
    assert (Hin : h ∈ take in_time (handles n) <-> i < in_time).
    { rewrite elem_of_take. split; [|by exists i].
      intros (j & Hj & Hlt'). by rewrite (NoDup_lookup _ i j h Hnd Hi Hj). }
    destruct (Nat.ltb_spec i in_time) as [Hb|Hb].
    + rewrite (bool_decide_eq_true_2 (h ∈ _)) by by apply Hin. rewrite bool_decide_eq_false_2.
      2: { intros Hj. pose proof (NoDup_lookup _ _ _ _ Hnd Hi Hj). lia. }
      exists (flush_config (ticks h) c).
      destruct (flush_config_flushed d (ticks h) c Hd (Hf p h c Hp Hc)) as (? & ? & ?). done.
    + rewrite (bool_decide_eq_false_2 (h ∈ _)) by (rewrite Hin; lia). case_bool_decide as Hj.
      * pose proof (NoDup_lookup _ _ _ _ Hnd Hi Hj) as ->. exists (cut_config cut (ticks h) c).
        destruct (cut_config_cut cut (ticks h) c) as (Hcut & ? & ?). split_and!; try done.
        destruct Hcut as [->|[? ?]]; [by left|by right].
      * exists c. split_and!; [done..|by intros ?|by left].
  - split; [|split_and!; [unfold SHUTDOWN_BUDGET in *; lia| |]].
    + intros p h c Hp Hc. destruct (Hplace p h Hp) as [i Hi].
      destruct (wf_lookup _ _ _ Hwf Hc) as [d Hd]. exists i, (flush_config (ticks h) c).
      destruct (flush_all_spec (handles n) ticks n Hnd) as (_ & _ & Hl). unfold flush_lineage.
      rewrite Hl, Hc, bool_decide_eq_true_2 by (apply elem_of_handles; by exists p).
      destruct (flush_config_flushed d (ticks h) c Hd (Hf p h c Hp Hc)) as (? & ? & ?). done.
    + intros Ht. apply N.div_le_lower_bound; unfold POST_TIMEOUT, SHUTDOWN_BUDGET in *; lia.
    + unfold drain_lineage_sink, flush_lineage.
      destruct (flush_all_spec (handles n) ticks n Hnd) as (_ & -> & _).
      destruct (lineage_sink n) as [s|]; [|done]. apply drain_looks_spec.
Qed.

(** ** A page of a pond *)

(** The greatest name heads the names a reader takes. *)
Lemma newest_is_first (names : list string) (x : string) :
  NoDup names -> x ∈ names -> Reader.is_batch x = true ->
  (forall y, y ∈ names -> Reader.is_batch y = true -> y <> x -> ~ String.le x y) ->
  forall d, Reader.listing d = Ok (map Some names) ->
  exists rest skipped, Reader.newest_names d = Ok (x :: rest, skipped).
Proof.
  intros Hnd Hin Hb Hmax d Hd. rewrite newest_names_eq, Hd.
  assert (Hbs : batches (map Some names) = List.filter Reader.is_batch names).
  { unfold batches. f_equal. clear. induction names as [|n names IH]; [done|]. cbn. by f_equal. }
  rewrite Hbs. set (l := List.filter Reader.is_batch names).
  assert (Hl : forall y, y ∈ sort_strings l <-> y ∈ names /\ Reader.is_batch y = true).
  { intros y. rewrite sort_strings_Permutation. unfold l. by rewrite !list_elem_of_In, filter_In. }
  assert (Hndl : NoDup (sort_strings l)).
  { rewrite sort_strings_Permutation. unfold l. apply NoDup_ListNoDup, List.NoDup_filter. by apply NoDup_ListNoDup. }
  pose proof (sort_strings_Permutation l) as Hp. pose proof (sort_strings_Sorted l) as Hs.
  assert (Hx : x ∈ sort_strings l) by by apply Hl.
  apply list_elem_of_split in Hx as (l1 & l2 & Hsplit).
  assert (l2 = []) as ->.
  { destruct l2 as [|y l2]; [done|exfalso]. rewrite Hsplit in Hs, Hndl.
    assert (Hy : y ∈ names /\ Reader.is_batch y = true) by (apply Hl; rewrite Hsplit; set_solver).
    apply (Hmax y); [apply Hy..| |].
    - intros ->. apply NoDup_app in Hndl as (_ & _ & Hndl). apply NoDup_cons in Hndl as [Hndl _]. set_solver.
    - apply StronglySorted_app_1_r in Hs. inversion Hs as [|? ? _ Hall]; subst.
      by apply Forall_cons in Hall as [? _]. }
  assert (Hlen : length l = S (length l1)).
  { rewrite <- Hp, Hsplit, length_app. cbn. lia. }
  cbv zeta. rewrite Hsplit, drop_app_le, reverse_snoc by (rewrite Hlen; unfold Reader.MAX_FILES; lia).
  by eexists _, _.
Qed.

Section page.
Context {HV : Values} {HE : Events}.

Lemma picked_snoc s b ls line e :
  parse_json (trim line) = Some e -> trim line <> EmptyString -> Reader.selected s b e = true ->
  picked s b (map Some (ls ++ [line])) =
    picked s b (map Some ls) ++ [(e, N.of_nat (String.length (trim line)))].
Proof.
  intros Hp Hne Hs. induction ls as [|l ls IH]; cbn.
  - rewrite (proj2 (String.eqb_neq _ _) Hne), Hp, Hs. done.
  - rewrite IH. destruct (if String.eqb (trim l) EmptyString then None else parse_json (trim l)) as [e'|]; [|done].
    by destruct (Reader.selected s b e').
Qed.

(** The last line of the newest file is the first event of a page without bounds. *)
Lemma first_of_page file_lines fs name ls line e limit :
  file_lines (default EmptyString (fs !! name)) = ls ++ [line] -> is_Some (fs !! name) ->
  Reader.is_batch name = true ->
  (forall y, is_Some (fs !! y) -> Reader.is_batch y = true -> y <> name -> ~ String.le name y) ->
  parse_json (trim line) = Some e -> trim line <> EmptyString ->
  exists p evs,
    Reader.read_newest (reader_dir file_lines fs)
      {| Reader.limit := limit; Reader.since := None; Reader.before := None |} = Ok p /\
    Interfaces.events p = e :: evs.
Proof.
  intros Hls [b Hb] Hbatch Hmax He Hne.
  assert (Hin : forall y, y ∈ (map_to_list fs).*1 <-> is_Some (fs !! y)).
  { intros y. rewrite list_elem_of_fmap. split.
    - intros ([z v] & -> & Hz). exists v. by apply elem_of_map_to_list.
    - intros [v Hv]. exists (y, v). split; [done|]. by apply elem_of_map_to_list. }
  destruct (newest_is_first (map_to_list fs).*1 name) with (d := reader_dir file_lines fs)
    as (rest & skipped & Hn); try done.
  { apply NoDup_fst_map_to_list. }
  { apply Hin. by exists b. }
  { intros y Hy. apply Hmax. by apply Hin. }
  set (req := {| Reader.limit := limit; Reader.since := None; Reader.before := None |}).
  pose proof (page_of_the_trail (reader_dir file_lines fs) req) as Hpage.
  destruct (Reader.read_newest (reader_dir file_lines fs) req) as [p|err].
  - destruct Hpage as (s0 & b0 & names & sk & shown & rest' & Hs & Hbf & Hn' & Hh & Hev & _ & _ & _ & _ & _ & Hnil).
    cbn in Hs, Hbf. injection Hs as <-. injection Hbf as <-. rewrite Hn in Hn'. injection Hn' as <- <-.
    cbn [history] in Hh. unfold reader_dir at 1 in Hh. cbn [Reader.open] in Hh. rewrite Hb in Hls, Hh. cbn in Hls.
    cbn [file_events] in Hh. rewrite Hls, (picked_snoc _ _ _ _ e) in Hh by done.
    rewrite reverse_snoc in Hh. destruct shown as [|x shown]; cbn in Hh.
    + rewrite (Hnil eq_refl) in Hh. done.
    + injection Hh as <- _. exists p, (shown.*1). split; [done|]. by rewrite Hev.
  - destruct Hpage as [Hp|[Hp|Hp]]; [done|done|congruence].
Qed.
End page.

Lemma buffer_all_last d w l t :
  dir w = Some d -> 0 < capacity w ->
  exists ls, events (buffer (buffer_all (l ++ [t]) w).2) = ls ++ [t].
Proof.
  intros Hd Hcap. unfold buffer_all. rewrite Hd. cbn [is_Some_b negb andb].
  rewrite bool_decide_eq_false_2 by (by destruct l). cbn [orb].
  assert (Hen : forall b, exists ls, events (enforce_capacity (capacity w)
    {| events := events (buffer w) ++ l ++ [t]; overflowing := b |}) = ls ++ [t]).
  { intros b. rewrite app_assoc. unfold enforce_capacity. cbn [events].
    destruct (Nat.ltb_spec (capacity w) (length ((events (buffer w) ++ l) ++ [t]))) as [Hlt|_].
    - cbn [events]. rewrite drop_app_le; [by eexists|]. rewrite !length_app in *. cbn in *. lia.
    - destruct (_ <? _); by eexists. }
  destruct (sink w); cbn; rewrite ?Hd; cbn; apply Hen.
Qed.

Lemma dir_files_Some d n name b :
  dir_files d n !! name = Some b ->
  exists h c, heap n !! h = Some c /\ dir (writer c) = Some d /\ files c !! name = Some b.
Proof.
  unfold dir_files. intros Hf.
  assert (Hin : exists c, c ∈ List.filter (fun c => bool_decide (dir (writer c) = Some d)) (heap n) /\
    files c !! name = Some b).
  { induction (List.filter _ (heap n)) as [|c l IH]; cbn in Hf; [by rewrite lookup_empty in Hf|].
    apply lookup_union_Some_raw in Hf as [Hf|[_ Hf]]; [exists c; split; [by left|done]|].
    destruct (IH Hf) as (c' & ? & ?). exists c'. split; [by right|done]. }
  destruct Hin as (c & Hc & Hb). apply list_elem_of_In, filter_In in Hc as [Hc Hd].
  apply list_elem_of_In, list_elem_of_lookup in Hc as [h Hh]. exists h, c.
  split_and!; [done| |done]. by apply bool_decide_eq_true in Hd.
Qed.

Lemma dir_files_is_Some d n h c name :
  heap n !! h = Some c -> dir (writer c) = Some d -> is_Some (files c !! name) ->
  is_Some (dir_files d n !! name).
Proof.
  intros Hh Hd Hn. unfold dir_files.
  assert (Hc : c ∈ List.filter (fun c => bool_decide (dir (writer c) = Some d)) (heap n)).
  { apply list_elem_of_In, filter_In. rewrite <- list_elem_of_In. split; [by eapply list_elem_of_lookup_2|].
    by apply bool_decide_eq_true. }
  induction (List.filter _ (heap n)) as [|c' l IH]; [by apply elem_of_nil in Hc|]. cbn.
  apply lookup_union_is_Some. apply elem_of_cons in Hc as [<-|Hc]; [by left|right; by apply IH].
Qed.

(** A flush that works puts its batch in a new file of its directory. *)
Lemma dir_files_flush d n h c t name :
  heap n !! h = Some c -> dir (writer c) = Some d -> io t = Works ->
  events (buffer (writer c)) <> [] ->
  dir_files d n !! final_name (millis t) (file_id t) = None ->
  let n' := flush h t n in
  dir_files d n' !! final_name (millis t) (file_id t) = Some (body (events (buffer (writer c)))) /\
  (is_Some (dir_files d n' !! name) ->
     name = final_name (millis t) (file_id t) \/ is_Some (dir_files d n !! name)).
Proof.
  intros Hc Hd Hio Hne Hnew. cbv zeta. set (fn := final_name (millis t) (file_id t)) in *.
  set (c' := flush_config t c).
  assert (Hfiles : files c' = <[fn := body (events (buffer (writer c)))]> (delete (temp_name (file_id t)) (files c))
    /\ dir (writer c') = Some d).
  { unfold c', flush_config, take_batch. rewrite bool_decide_eq_false_2 by done.
    unfold write_or_requeue. cbn [set_buffer dir]. rewrite Hd, Hio. done. }
  destruct Hfiles as [Hfiles Hd'].
  assert (Hflush : flush h t n = with_config h c' n) by (unfold flush; by rewrite Hc).
  rewrite Hflush. assert (Hh : heap (with_config h c' n) !! h = Some c').
  { cbn. apply list_lookup_insert_eq. by eapply lookup_lt_Some. }
  assert (Hother : forall k c0 x, heap (with_config h c' n) !! k = Some c0 -> dir (writer c0) = Some d ->
    is_Some (files c0 !! x) -> c0 = c' \/ is_Some (dir_files d n !! x)).
  { intros k c0 x Hk Hd0 Hx. destruct (decide (k = h)) as [->|Hkh]; [left; congruence|right].
    cbn in Hk. rewrite list_lookup_insert_ne in Hk by done. by eapply dir_files_is_Some. }
  split.
  - destruct (dir_files_is_Some d _ h c' fn Hh Hd') as [b Hb].
    { rewrite Hfiles, lookup_insert_eq. by eexists. }
    rewrite Hb. f_equal. destruct (dir_files_Some _ _ _ _ Hb) as (k & c0 & Hk & Hd0 & Hb0).
    destruct (Hother k c0 fn Hk Hd0) as [->|Hs]; [by eexists| |].
    + rewrite Hfiles, lookup_insert_eq in Hb0. by injection Hb0.
    + rewrite Hnew in Hs. by destruct Hs.
  - intros [b Hb]. destruct (dir_files_Some _ _ _ _ Hb) as (k & c0 & Hk & Hd0 & Hb0).
    destruct (Hother k c0 name Hk Hd0) as [->|Hs]; [by eexists| |by right].
    rewrite Hfiles in Hb0. apply lookup_insert_Some in Hb0 as [[<- _]|[_ Hb0]]; [by left|right].
    apply lookup_delete_Some in Hb0 as [_ Hb0]. eapply dir_files_is_Some; [exact Hc|exact Hd|by eexists].
Qed.

Section own.
Context {C D E F : Type} `{!PondIds} `{!PondStorage D} {HV : Values} {HE : Events}.
Variables (adapter : string) (to_text : Json -> string) (serving_name : string).
Notation World := (Ops.World C D E F).
Notation beside := (@beside C D E F _ _ adapter to_text serving_name).
Notation kept_by := (@kept_by C D E F _ _ adapter to_text serving_name false).
Notation emit_lineage := (emit_lineage adapter to_text serving_name).

Lemma kept_by_rtc x y : rtc beside x y -> kept_by x.1 x.2 -> kept_by y.1 y.2.
Proof.
  induction 1 as [|x x' y Hs _ IH]; [done|]. intros Hk.
  by apply IH, (kept_by_beside _ _ _ _ x).
Qed.

(** The terminal event of an operation, as it is recorded. *)
Definition terminal_event (s : Stamp) (rec : QueryRecord) : Json :=
  Event.to_json (Emit.record adapter (engine_version s) serving_name (uuid s) (began s) (ended s)
                   (trace_id s) rec).2.

Lemma emit_spec (w : World) n rec s pid loc :
  kept_by w n -> lineage (q_info rec) = true -> uuid_parse (pond_id (q_info rec)) = Ok pid ->
  st_pond_location pid (disk w) = Ok loc ->
  let n1 := emit_lineage s rec (disk w) n in
  exists h c pid' d0 loc0 recs stamps,
    lineage_writers n1 !! pond_id (q_info rec) = Some h /\ heap n1 !! h = Some c /\
    uuid_parse (pond_id (q_info rec)) = Ok pid' /\
    st_pond_location pid' d0 = Ok loc0 /\ writer_of (lineage_dir loc0) c /\
    (is_Some (dir (writer c)) ->
       accepted c = lines_of_runs (run_of adapter to_text serving_name) (zip stamps recs) /\
       exists ls, events (buffer (writer c)) = ls ++ [to_text (terminal_event s rec)]).
Proof.
  intros Hk Hlin Hu Hl n1. pose proof (kept_by_emit adapter to_text serving_name false w n rec s Hk) as Hk1.
  fold n1 in Hk1.
  pose proof (writer_asked adapter to_text serving_name false (q_info rec) w n Hk) as Ha.
  assert (Hn1 : n1 = match lineage_writer (q_info rec) (disk w) n with
    | (None, n) => n
    | (Some h, n) =>
        let (is_due, n) := buffer_lines h (lines_of_record adapter to_text serving_name s rec) n in
        if is_due then {| heap := heap n; lineage_writers := lineage_writers n;
                          lineage_sink := lineage_sink n; due := due n ++ [h] |} else n
    end) by (unfold n1, Trails.emit_lineage; by rewrite Hlin).
  destruct (AgentOps.lineage_writer (q_info rec) w) as [ok w1].
  destruct (lineage_writer (q_info rec) (disk w) n) as [[h|] n2] eqn:El.
  2: { unfold lineage_writer in El. rewrite Hu, Hl in El. by destruct (lineage_writers n !! _). }
  destruct Ha as ([Hwf Hdom Htr] & _ & Hh & _).
  destruct (wf_found _ _ _ Hwf Hh) as [c Hc]. destruct (wf_lookup _ _ _ Hwf Hc) as [d Hd].
  pose proof (buffer_lines_spec d h (lines_of_record adapter to_text serving_name s rec) n2 c Hc Hd) as Hb.
  destruct (buffer_lines h _ n2) as [is_due n3]. destruct Hb as (c' & [Hheap Hmap] & _ & Hcase).
  assert (Hfields : lineage_writers n1 = lineage_writers n2 /\ heap n1 = <[h := c']> (heap n2)).
  { rewrite Hn1. destruct is_due; cbn; by rewrite Hmap, Hheap. }
  destruct Hfields as [Hlw1 Hheap1].
  assert (Hc1 : heap n1 !! h = Some c').
  { rewrite Hheap1. apply list_lookup_insert_eq. by eapply lookup_lt_Some. }
  destruct Hk1 as [_ Hdom1 Htr1].
  destruct (proj2 (Hdom1 (pond_id (q_info rec)))) as [recs Hrecs]; [by rewrite Hlw1, Hh|].
  rewrite <- Hlw1 in Hh.
  destruct (Htr1 _ _ _ Hrecs Hh) as (c0 & d0 & pid' & loc0 & stamps & Hc0 & Hu' & Hl0 & Hw0 & _ & Hacc).
  assert (c0 = c') as -> by congruence. exists h, c', pid', d0, loc0, recs, stamps.
  split_and!; try done. intros He. split; [by apply Hacc|].
  assert (Hdir : exists d1, dir (writer c) = Some d1).
  { destruct (dir (writer c)) as [d1|] eqn:Ed; [by exists d1|]. destruct Hcase as [-> _].
    rewrite Ed in He. by destruct He. }
  destruct Hdir as [d1 Ed]. rewrite Ed in Hcase. destruct Hcase as (_ & _ & ->).
  unfold lines_of_record, terminal_event. destruct (Emit.record _ _ _ _ _ _ _ _) as [start terminal].
  apply (buffer_all_last d1 _ [_]); [done|].
  destruct (writer_of_same _ _ Hd) as (_ & _ & _ & ->). cbn. unfold DEFAULT_CAPACITY. lia.
Qed.

(** a caller sees its own query: whatever ran before it, once an operation on a pond
    that records has left its record, the next page asked for without bounds begins with
    that operation's terminal event, provided the disk takes the flush and its clock has
    moved past the files that are there. *)
Theorem own_query_is_seen (w0 : World) sink w n rec s pid loc t limit e :
  Ops.lineage_writers w0 = ∅ -> rtc beside (w0, started sink) (w, n) ->
  (forall j, json_line (to_text j)) ->
  (forall d loc', st_pond_location pid d = Ok loc' -> lineage_dir loc' = lineage_dir loc) ->
  lineage (q_info rec) = true -> uuid_parse (pond_id (q_info rec)) = Ok pid ->
  st_pond_location pid (disk w) = Ok loc -> is_absolute (lineage_dir loc) = true ->
  let event := to_text (terminal_event s rec) in
  parse_json (trim event) = Some e -> trim event <> EmptyString ->
  let n1 := emit_lineage s rec (disk w) n in
  io t = Works -> (millis t < 10 ^ 13)%N ->
  (forall m id, is_Some (dir_files (lineage_dir loc) n1 !! final_name m id) -> (m < millis t)%N) ->
  exists p evs n2,
    read_pond LineageWriteSpec.lines_of (pond_id (q_info rec)) (lineage_dir loc)
      {| Reader.limit := limit; Reader.since := None; Reader.before := None |} t n1 = (Ok p, n2) /\
    Interfaces.events p = e :: evs.
Proof.
  intros Hw0 Hr Hjson Hdirs Hlin Hu Hl Habs event He Hne n1 Hio Hm Hclock.
  assert (Hk : kept_by w n).
  { change (kept_by (w, n).1 (w, n).2). eapply kept_by_rtc; [exact Hr|]. by apply kept_by_started. }
  destruct (emit_spec w n rec s pid loc Hk Hlin Hu Hl) as
    (h & c & pid' & d0 & loc0 & recs & stamps & Hh & Hc & Hu' & Hl0 & Hw & Hrest). fold n1 in Hh, Hc.
  assert (pid' = pid) as -> by congruence. rewrite (Hdirs _ _ Hl0) in Hw.
  assert (Hd : dir (writer c) = Some (lineage_dir loc)).
  { destruct (writer_of_same _ _ Hw) as (-> & _). cbn. rewrite Habs. cbn.
    by destruct (lineage_dir loc). }
  destruct Hrest as (Hacc & ls & Hls); [by rewrite Hd|].
  assert (Hlines : Forall json_line (ls ++ [event])).
  { apply Forall_forall. intros l Hlin'. unfold event in Hlin'. rewrite <- Hls in Hlin'.
    assert (Ha : l ∈ accepted c).
    { rewrite (wi_lines _ (reachable_writer_inv _ _ _ _ Hw)). set_solver. }
    rewrite Hacc in Ha. unfold lines_of_runs in Ha. apply list_elem_of_In, in_concat in Ha as (x & Hx & Hin).
    apply in_map_iff in Hx as (r & <- & _). destruct Hin as [<-|[<-|[]]]; apply Hjson. }
  assert (Hnew : dir_files (lineage_dir loc) n1 !! final_name (millis t) (file_id t) = None).
  { destruct (dir_files _ _ !! final_name _ _) eqn:Ef; [|done].
    assert (Hlt : (millis t < millis t)%N) by (apply (Hclock _ (file_id t)); by rewrite Ef). lia. }
  assert (Hbuf : events (buffer (writer c)) <> []) by (rewrite Hls; by destruct ls).
  set (fn := final_name (millis t) (file_id t)) in *. set (n2 := flush h t n1).
  assert (Hfs : dir_files (lineage_dir loc) n2 !! fn = Some (body (ls ++ [event]))).
  { unfold n2, event. rewrite <- Hls. by apply (dir_files_flush _ n1 h c t fn). }
  destruct (first_of_page LineageWriteSpec.lines_of (dir_files (lineage_dir loc) n2) fn ls event e limit)
    as (p & evs & Hp & Hev); try done.
  - rewrite Hfs. cbn. apply lines_of_body; [by destruct ls|done].
  - apply is_batch_final.
  - intros y Hy _ Hyn.
    destruct (dir_files_flush (lineage_dir loc) n1 h c t y Hc Hd Hio Hbuf Hnew) as [_ Hold].
    destruct (Hold Hy) as [->|Hy1]; [done|]. destruct Hy1 as [b Hb].
    destruct (dir_files_Some _ _ _ _ Hb) as (k & c1 & Hk1 & _ & Hb1).
    assert (Hwf1 : wf n1).
    { eapply kb_wf. by apply kept_by_emit. }
    destruct (wf_lookup _ _ _ Hwf1 Hk1) as [d1 Hw1].
    destruct (wi_names _ (reachable_writer_inv _ _ _ _ Hw1) _ _ Hb1) as (batch & m & id & _ & -> & _).
    apply (batch_names_sort_by_time m (millis t) id (file_id t)); [|done].
    apply (Hclock m id). by rewrite Hb.
  - exists p, evs, n2. split; [|done]. unfold read_pond, flush_pond_lineage. rewrite Hh. fold n2. by rewrite Hp.
Qed.
End own.
