(* ===== verification/TrailsSample.v ===== *)
(** * A node that records

    The theorems on trails at work: one pond that records, and a node that runs two
    queries on it, is asked for its trail, and stops. *)
From S2P Require Import Prelude Common Sql Inflight Interfaces Ops LineageRead LineageWrite LineageWriteSpec.
From S2P Require Import LineageEvent Trails TrailRuns TrailsSpec.
Import Types Writer Trails.Trails.
#[local] Open Scope rust_scope.
#[local] Arguments String.append !_ _ / : simpl nomatch.

Module Recorded.
#[local] Instance ids : PondIds := {| uuid_parse := fun s => Ok s |}.
#[local] Instance values : Values :=
  {| json := string; json_null := "null"; batch := unit; batch_objects := fun _ => Ok [] |}.
#[local] Instance parsed : Events :=
  {| parse_json := fun l => Some l; get := fun _ _ => None; as_str := fun e => Some e;
     parse_from_rfc3339 := fun _ => None |}.

Definition location (id : string) : PondLocation :=
  {| catalog_uri := id; data_path := id; catalog_name := id; limits := None;
     loc_extensions := []; loc_lineage := true; lineage_dir := "/ponds/" +:+ id +:+ "/lineage" |}.

#[local] Instance disk : PondStorage (list string) :=
  {| st_ensure_pond := fun id _ d => (Ok (location id), id :: d);
     st_pond_location := fun id d => if bool_decide (id ∈ d) then Ok (location id) else Err "absent";
     st_drop_pond := fun id d => (Ok tt, base.filter (fun i => i <> id) d) |}.

Definition pond : PondInfo :=
  {| pond_id := "0190"; name := "sales"; owner := "ada"; created_at := "2026-01-01";
     policy_json := "{}"; node_id := Some "n1"; node_endpoint := Some "http://n1";
     tier := "small"; extensions := []; description := EmptyString; lineage := true |}.

Definition ada : Identity.Identity :=
  {| Identity.agent_id := "ada"; Identity.subject := EmptyString; Identity.issuer := EmptyString;
     Identity.verified := false |}.

Definition ran (op : string) : QueryRecord :=
  {| q_identity := ada; q_info := pond; q_op := op; q_sql := "SELECT 1"; q_duration_ms := 3;
     q_meaning := Completion; q_error := None; q_meta := None |}.

(** An event's text is its type. *)
Definition to_text (j : Json) : string :=
  match j with
  | Object m =>
      match m !! "eventType" with
      | Some (Str t) =>
          if String.eqb t "START" then "START" else if String.eqb t "COMPLETE" then "COMPLETE" else "?"
      | _ => "?"
      end
  | _ => "?"
  end.

Lemma to_text_line j : json_line (to_text j).
Proof.
  destruct j as [| | | | |m]; cbn; try by vm_compute. destruct (m !! "eventType") as [[]|]; cbn; try by vm_compute.
  destruct (String.eqb _ _); [by vm_compute|]. destruct (String.eqb _ _); by vm_compute.
Qed.

Definition stamp (id : string) : Stamp :=
  {| uuid := id; began := "2026-01-01T00:00:00.000Z"; ended := "2026-01-01T00:00:01.000Z";
     engine_version := "v1.5.3"; trace_id := None |}.

Notation World := (Ops.World unit (list string) unit unit).

Definition world : World :=
  {| cp := tt; Ops.disk := ["0190"]; engine := tt; peers := tt; inflight := Inflight.empty; trail := [];
     metrics := []; Ops.lineage_writers := ∅; fresh := 0; clock := []; timers := [] |}.

Notation emit := (emit_lineage "1.0" to_text "http://n1").
Notation beside := (@beside unit (list string) unit unit _ _ "1.0" to_text "http://n1").

(** a read is run, and recorded. *)
Definition after_read : World * Node :=
  ((AgentOps.emit_lineage (ran "read_query") world).2,
   emit (stamp "r1") (ran "read_query") ["0190"] (started (Some Sink.empty))).

Lemma read_recorded : rtc beside (world, started (Some Sink.empty)) after_read.
Proof. apply rtc_once. apply (beside_emit _ _ _ (ran "read_query") (stamp "r1") world). Qed.

Definition tick (m : N) (id : string) : Tick := {| io := Works; file_id := id; millis := m |}.

(** The two halves of a flush of its writer. *)
Definition writer0 : Config := default (init EmptyString 1 1) (heap after_read.2 !! 0%nat).

Definition half : Config :=
  {| writer := (take_batch 7 (writer writer0)).2; files := files writer0;
     taken := [(events (buffer (writer writer0)), 7%N)]; accepted := accepted writer0;
     written := []; lost := [] |}.

Definition after_half : Node := with_config 0 half after_read.2.

Definition after_flush : Node := flush 0 (tick 7 "f1") after_read.2.

Notation beside_apart := (@beside_apart unit (list string) unit unit _ _ "1.0" to_text "http://n1" true).

Lemma flush_recorded : rtc beside_apart (world, started (Some Sink.empty)) (after_read.1, after_flush).
Proof.
  eapply rtc_l; [|eapply rtc_l; [|apply rtc_once]].
  - split; [apply (beside_emit _ _ _ (ran "read_query") (stamp "r1") world)|].
    intros _. repeat constructor.
  - split; [apply (beside_flush _ _ _ _ after_read.2 after_half 0 writer0 half); [reflexivity| |by split]|].
    + split; [|reflexivity]. by eapply (step_take _ _ _ _ _ _ 7%N).
    + intros _. repeat constructor.
  - split; [apply (beside_flush _ _ _ _ after_half after_flush 0 half (flush_config (tick 7 "f1") writer0));
      [reflexivity| |by split]|].
    + split; [|reflexivity]. by eapply (step_write _ _ [] [] _ _ _ _ _ "f1").
    + intros _. repeat constructor.
Qed.

Lemma trails_implement_records_witness :
  exists c, heap after_flush !! 0%nat = Some c /\
    dir (writer c) = Some "/ponds/0190/lineage" /\ events (buffer (writer c)) = [] /\
    size (files c) = 1 /\
    forall name b, files c !! name = Some b -> b = "START" +:+ nl +:+ "COMPLETE" +:+ nl.
Proof.
  destruct (trails_implement_records "1.0" to_text "http://n1" true world (Some Sink.empty)
    after_read.1 after_flush eq_refl flush_recorded "0190" [ran "read_query"] eq_refl)
    as (h & c & d & pid & loc & stamps & Hh & Hc & _ & Hu & Hloc & Hlen & _ & Hrest).
  assert (h = 0%nat) as -> by (vm_compute in Hh; congruence).
  exists c. split; [exact Hc|]. cbn in Hu. injection Hu as <-. cbn in Hloc.
  destruct (bool_decide _); [|discriminate Hloc]. injection Hloc as <-.
  cbn in Hrest. destruct Hrest as (Hd & wr & tk & bf & lo & Hall & Hlo & _ & Ht & Hb & Hfiles & _ & Hsize).
  split; [exact Hd|].
  assert (Hc' : c = flush_config (tick 7 "f1") writer0) by (vm_compute in Hc |- *; congruence).
  split; [subst c; vm_compute; reflexivity|]. split; [subst c; vm_compute; reflexivity|].
  intros name b Hf. destruct (Hfiles _ _ Hf) as (_ & runs & Hr & ->).
  rewrite Hc' in Hsize, Ht, Hb. vm_compute in Hsize.
  destruct wr as [|r1 [|]]; [discriminate Hsize| |discriminate Hsize].
  apply list_elem_of_singleton in Hr as ->. clear Hfiles Hf.
  assert (Ht0 : taken (flush_config (tick 7 "f1") writer0) = []) by (vm_compute; reflexivity).
  assert (Hb0 : events (buffer (writer (flush_config (tick 7 "f1") writer0))) = [])
    by (vm_compute; reflexivity).
  rewrite Ht0 in Ht. rewrite Hb0 in Hb. symmetry in Hb. apply runs_nil in Hb as ->.
  assert (tk = []) as -> by (destruct tk; [reflexivity|discriminate Ht]).
  rewrite (Hlo ltac:(cbn; lia)) in Hall. cbn in Hall. rewrite !app_nil_r in Hall.
  destruct stamps as [|s [|]]; [discriminate Hlen| |discriminate Hlen].
  apply Permutation_singleton_l in Hall. rewrite <- Hall. reflexivity.
Defined.

Lemma own_query_is_seen_witness :
  exists (p : @Page values) (evs : list string) n2,
    read_pond LineageWriteSpec.lines_of "0190" "/ponds/0190/lineage"
      {| Reader.limit := 10; Reader.since := None; Reader.before := None |} (tick 7 "f1")
      (emit (stamp "r2") (ran "write_query") ["0190"] after_read.2) = (Ok p, n2) /\
    @Interfaces.events values p = "COMPLETE" :: evs.
Proof.
  apply (own_query_is_seen "1.0" to_text "http://n1" world (Some Sink.empty) after_read.1 after_read.2
    (ran "write_query") (stamp "r2") "0190" (location "0190") (tick 7 "f1") 10 ("COMPLETE" : @json values) eq_refl read_recorded).
  - apply to_text_line.
  - intros d loc. cbn. case_bool_decide; [|done]. by intros [= <-].
  - reflexivity.
  - reflexivity.
  - reflexivity.
  - reflexivity.
  - vm_compute. reflexivity.
  - vm_compute. discriminate.
  - reflexivity.
  - reflexivity.
  - intros m id [b Hb]. vm_compute in Hb. discriminate Hb.
Defined.

(** The node stops in time, its sink having posted what it was given. *)
Definition posted : Sink.Shared :=
  {| Sink.queue := []; Sink.enqueued := 2; Sink.posted := 2; Sink.dropped := 0; Sink.overflowing := false |}.

Definition looks : list (N * Sink.Shared) := [(0%N, Sink.push "COMPLETE" (Sink.push "START" Sink.empty)); (30%N, posted)].

Definition stopped : Left * Node :=
  shutdown_lineage 20 1 Batch_taken (fun _ => tick 9 "f2") looks after_read.2.

Lemma stopping_keeps_the_trails_witness :
  stopped.1 = Drained 14980 (Some None) /\
  exists c' name, heap stopped.2 !! 0%nat = Some c' /\ events (buffer (writer c')) = [] /\
    files c' !! name = Some ("START" +:+ nl +:+ "COMPLETE" +:+ nl).
Proof.
  assert (Hwf : wf after_read.2).
  { apply (kb_wf "1.0" to_text "http://n1" false after_read.1).
    apply (kept_by_rtc "1.0" to_text "http://n1" _ _ read_recorded). by apply kept_by_started. }
  assert (Hleft : stopped.1 = Drained 14980 (Some None)) by reflexivity.
  split; [exact Hleft|]. unfold stopped in *.
  pose proof (stopping_keeps_the_trails 20 1 Batch_taken (fun _ => tick 9 "f2") looks after_read.2 Hwf) as Hs.
  destruct (shutdown_lineage _ _ _ _ _ _) as [left n']. cbn in Hleft. subst left. destruct Hs as [Hs _].
  - intros p h c _ Hc. destruct h as [|h]; [|vm_compute in Hc; discriminate Hc].
    vm_compute in Hc. injection Hc as <-. intros _. reflexivity.
  - destruct (Hs "0190" 0%nat _ eq_refl eq_refl) as (i & c' & _ & Hc' & _ & _ & _ & Hb & Hfile).
    destruct Hfile as (name & _ & _ & Hname); [discriminate|]. exists c', name.
    split; [exact Hc'|]. split; [exact Hb|]. exact Hname.
Defined.
End Recorded.
