(* ===== verification/Serve.v ===== *)
(** * Starting servers

    Models the start of a pond node ([latiq-pond-node/src/lib.rs]) and of a control plane
    ([latiq-control-plane/src/lib.rs]) as far as the commands that run them
    ([latiq/src/lib.rs]): what is checked, in which order, before a node joins its cluster
    and before anything is served, and with what; the backend address of
    [latiq-lineage/src/sink.rs]; and the heartbeat loop of a node against the reaper.

    Module [Node] runs over the control plane's [Store] and keeps a log of [Effect]s; what
    a start meets on the way is an [Outside].  Tasks are spawned where they appear in the
    log.  Module [Heart] keeps the node's client and the registry, and is told the time. *)
From S2P Require Import Prelude Errors Policy Common Registry Interfaces Auth Ops ControlPlane Admin.
From S2P Require Import DataService DuckText Mcp Storage Cli.
#[local] Open Scope rust_scope.
#[local] Arguments String.append !_ _ / : simpl nomatch.

(** [AuthError], displayed. *)
Definition auth_error_text (e : AuthError) : string :=
  match e with
  | Missing => "no bearer token presented"
  | Malformed m => "malformed token: " +:+ m
  | UnknownKid kid => "token signing key '" +:+ kid +:+ "' is not known to the issuer's JWKS"
  | Invalid m => "token rejected: " +:+ m
  | Jwks_ m => "jwks: " +:+ m
  end.

(** ** The lineage backend *)

Module Backend.
Section backend.
Context `{!Urls}.

Definition FULL_ENDPOINT : string :=
  "It is the FULL endpoint to POST events to, e.g. http://marquez:5000/api/v1/lineage.".

Definition validate_url (url : string) : result Url string :=
  let? parsed := map_err (fun e => "--lineage-backend-url is not a URL ('" +:+ url +:+ "'): " +:+ e
                                     +:+ ". " +:+ FULL_ENDPOINT) (url_parse url) in
  if existsb (String.eqb (scheme parsed)) ["http"; "https"] then Ok parsed
  else Err ("--lineage-backend-url must be http or https, got '" +:+ scheme parsed +:+ "' ('" +:+ url
              +:+ "'). " +:+ FULL_ENDPOINT).

(** A host that is a name is no address. *)
Definition is_plaintext_remote (u : Url) : bool :=
  if negb (String.eqb (scheme u) "http") then false
  else
    match host u with
    | None => false
    | Some (Domain name) =>
        negb (eq_ignore_ascii_case name "localhost" || eq_ignore_ascii_case name "localhost.")
    | Some (Ipv4 ip) => negb (Verify.is_ipv4_loopback ip)
    | Some (Ipv6 ip) => negb (ip =? 1)%N
    end.

(** [HttpSink::new]: the address its task posts to, and whether it warns that it is in
    the clear; [client] is whether the HTTP client could be built. *)
Definition new (client : result unit string) (url : string) : result (Url * bool) string :=
  let? url := validate_url url in
  let? _ := map_err (fun e => "could not build the lineage backend HTTP client: " +:+ e) client in
  Ok (url, is_plaintext_remote url).
End backend.
End Backend.

(** ** A pond node *)

(** One call over the wire: answered, or an error before or after it was served. *)
Inductive Wire := Through | Unanswered (served : bool) (why : string).

(** The operations a node serves: who it is, where its ponds are, and whether its events
    are posted to a backend as well. *)
Record NodeOps := { node : Ops.Node; data_dir : PathBuf; posts : bool }.

Inductive Effect :=
| PostsEvents (url : string) (in_the_clear : bool)
| Registers (node_id mcp_endpoint internal_endpoint : string) (capacity : N)
| WarmsExtensions
| Collects (sink : bool)
| ServesMetrics (addr : SocketAddr)
| Beats (endpoint node_id : string)
| ServesData (addr : SocketAddr) (self : NodeOps) (surface : Surface)
| ServesStream (addr : SocketAddr) (self : NodeOps) (surface : Surface)
| ServesMcp (addr : SocketAddr) (self : NodeOps) (verifier : option Verify.Verifier)
    (public_url : option string)
| Prints (line : string)
| Complains (line : string)
| FlushesLineage.

(** What a start meets: the extension check (that it ran, and what it said), the HTTP
    client, the dialled control plane and its answer, the ports, the metrics server's end,
    and the MCP server's end. *)
Record Outside := {
  extensions : result (result unit string) string;
  http_client : result unit string;
  dialled : result unit string;
  registration : Wire;
  dialled_again : result unit string;
  data_bound : result unit string;
  metrics_bound : result unit string;
  mcp_bound : result unit string;
  mcp_ends : result unit string;
}.

Record World := { cp : Store; log : list Effect }.

Module Node.
Section node.
Context `{!Sql} `{!Entropy} `{!Codec} `{!Urls} `{!McpUrls}.
(** A string as [{:?}] prints it, and a status as [{}] does. *)
Variable debug : string -> string.
Variable status_text : Service.Status -> string.
Variable o : Outside.
Notation MR A := (M World (result A string)).

Definition emit (e : Effect) : M World unit := fun w =>
  (tt, {| cp := cp w; log := log w ++ [e] |}).

(** A call on the control plane. *)
Definition call {A} (w : Wire) (handler : Store -> result A Service.Status * Store) : MR A :=
  fun s =>
    match w with
    | Through =>
        let (r, c) := handler (cp s) in (map_err status_text r, {| cp := c; log := log s |})
    | Unanswered served why =>
        (Err why, {| cp := if served then (handler (cp s)).2 else cp s; log := log s |})
    end.

(** [AgentOps::new], over [LocalFs] in a directory. *)
Definition agent_ops_new (data_dir : PathBuf) (config : AgentConfig) : NodeOps :=
  {| node := {| config := config; self_node_id := None; self_endpoint := None; forwarder := false |};
     data_dir := data_dir; posts := false |}.

Definition ops_forwarding (node_id endpoint : string) (ops : NodeOps) : NodeOps :=
  {| node := with_forwarding (node ops) node_id endpoint; data_dir := data_dir ops; posts := posts ops |}.

Definition with_lineage_sink (ops : NodeOps) : NodeOps :=
  {| node := node ops; data_dir := data_dir ops; posts := true |}.

Definition build_ops (node_id mcp_endpoint internal_endpoint control_endpoint : string)
    (data_dir : PathBuf) (lineage_sink : bool) (timeouts : Timeout.QueryTimeouts) : MR NodeOps :=
  try! _ := ret (dialled o) in
  emit (Registers node_id mcp_endpoint internal_endpoint 100) ;;
  try! _ := call (registration o)
              (Service.register_node node_id mcp_endpoint internal_endpoint 100) in
  try! _ := ret (dialled_again o) in
  let ops := ops_forwarding node_id internal_endpoint
               (agent_ops_new data_dir {| inline_row_cap := inline_row_cap default_config;
                                          timeouts := timeouts |}) in
  ret (Ok (if lineage_sink then with_lineage_sink ops else ops)).

(** Data and Stream share a port. *)
Definition serve_data (addr : SocketAddr) (self : NodeOps) (verifier : option Verify.Verifier)
    (metadata_url : option string) : MR unit :=
  match data_bound o with
  | Err e => ret (Err e)
  | Ok _ =>
      emit (ServesData addr self (DataService.with_metadata_url verifier metadata_url)) ;;
      emit (ServesStream addr self (DataService.with_metadata_url verifier metadata_url)) ;;
      ret (Ok tt)
  end.

(** A spawned server's error is printed and no more. *)
Definition spawned (what : string) (m : MR unit) : M World unit :=
  let! r := m in
  match r with
  | Ok _ => ret tt
  | Err e => emit (Complains (what +:+ " server error: " +:+ e))
  end.

Definition serve_metrics (addr : SocketAddr) : MR unit :=
  match metrics_bound o with
  | Err e => ret (Err e)
  | Ok _ => emit (ServesMetrics addr) ;; ret (Ok tt)
  end.

(** A listener that cannot be had is an end of its own. *)
Definition serve_mcp (addr : SocketAddr) (self : NodeOps) (verifier : option Verify.Verifier)
    (public_url : option string) (shutdown : bool) : MR unit :=
  match mcp_bound o with
  | Err e => ret (Err ("mcp server error: " +:+ e))
  | Ok _ =>
      emit (ServesMcp addr self verifier public_url) ;;
      ret (if shutdown then Ok tt else map_err (fun e => "mcp server error: " +:+ e) (mcp_ends o))
  end.

Definition extensions_ready : result unit string :=
  let? checked := map_err (fun e => "extension check failed to run: " +:+ e) (extensions o) in
  map_err (fun e => "Latiq requires the ducklake and httpfs DuckDB extensions but could "
                      +:+ "not load them (bake them into the deployment image): " +:+ e) checked.

Definition verifier_of (auth : option Verify.AuthConfig) : result (option Verify.Verifier) string :=
  match auth with
  | Some auth =>
      let? v := map_err (fun e => "auth is configured but the verifier could not be built: "
                                    +:+ auth_error_text e) (Verify.new auth) in
      Ok (Some v)
  | None => Ok None
  end.

Definition sink_of (url : option string) : MR bool :=
  match url with
  | Some url =>
      match Backend.new (http_client o) url with
      | Ok (u, in_the_clear) => emit (PostsEvents (text u) in_the_clear) ;; ret (Ok true)
      | Err e => ret (Err e)
      end
  | None => ret (Ok false)
  end.

(** [shutdown]: whether it is asked for before the MCP server ends. *)
Definition run_pond_node_until (shutdown : bool) (cfg : Flags.PondNodeConfig) : MR unit :=
  try! _ := ret extensions_ready in
  try! verifier := ret (verifier_of (Flags.auth cfg)) in
  try! mcp_public_url :=
    ret (Address.resolve_public_mcp_url debug (Flags.public_mcp_url cfg)
           (Flags.internal_endpoint cfg) (Flags.mcp_addr cfg)) in
  try! lineage_sink := sink_of (Flags.lineage_backend_url cfg) in
  let mcp_endpoint := "http://" +:+ addr_text (Flags.mcp_addr cfg) +:+ "/mcp" in
  try! ops := build_ops (Flags.node_id cfg) mcp_endpoint (Flags.internal_endpoint cfg)
                (Flags.control_endpoint cfg) (Flags.data_dir cfg) lineage_sink (Flags.timeouts cfg) in
  emit WarmsExtensions ;;
  match Flags.metrics_addr cfg with
  | Some metrics_addr =>
      emit (Collects lineage_sink) ;; spawned "metrics" (serve_metrics metrics_addr)
  | None => ret tt
  end ;;
  emit (Beats (Flags.control_endpoint cfg) (Flags.node_id cfg)) ;;
  let data_metadata_url :=
    (fun _ => Address.protected_resource_metadata_url mcp_public_url) <$> verifier in
  spawned "data gRPC" (serve_data (Flags.data_addr cfg) ops verifier data_metadata_url) ;;
  emit (Prints ("pond-node '" +:+ Flags.node_id cfg +:+ "' serving MCP at " +:+ mcp_endpoint
                  +:+ " and Data gRPC at http://" +:+ addr_text (Flags.data_addr cfg))) ;;
  emit (Prints ("  pond storage: " +:+ display (Flags.data_dir cfg))) ;;
  match Flags.lineage_backend_url cfg with
  | Some url => emit (Prints ("  lineage:      also posting events to " +:+ url))
  | None => ret tt
  end ;;
  let! result := serve_mcp (Flags.mcp_addr cfg) ops verifier (Some mcp_public_url) shutdown in
  emit FlushesLineage ;;
  ret result.

Definition run_pond_node (cfg : Flags.PondNodeConfig) : MR unit := run_pond_node_until false cfg.

(** [latiq node add]. *)
Definition run_node_add (parse_addr : string -> result SocketAddr string)
    (made : result PathBuf string) (control : string) (shutdown : bool) (a : Flags.NodeAddArgs) :
    MR unit :=
  try! cfg := ret (Flags.node_config parse_addr made control a) in
  run_pond_node_until shutdown cfg.

(** What the warming of the cache says, once it is through. *)
Definition warm_extensions (report : Warm.WarmReport) : result unit string :=
  if Warm.is_complete report then Ok tt else Err (Warm.failure_summary report).
End node.
End Node.

(** ** A control plane *)

Inductive Served :=
| ReapsNodes (ttl_secs interval_secs : N)
| CollectsGauges
| ServesControl (addr : SocketAddr) (materializer replay_bearer : bool)
| ServesAdmin (addr : SocketAddr) (service : Admin.AdminService)
| Exposes (addr : SocketAddr)
| Announces (line : string).

Module System.
Definition NODE_TTL_SECS : N := 30.
Definition REAP_INTERVAL_SECS : N := 10.
Definition PROTECTED_RESOURCE_PATH : string := "/.well-known/oauth-protected-resource".

Section system.
Context `{!Urls}.
Notation MR A := (M (list Served) (result A string)).
(** How the transport ends: not at all, or with an error. *)
Variable transport : result unit string.

Definition emit (e : Served) : M (list Served) unit := fun log => (tt, log ++ [e]).

Definition protected_resource_url (addr : string) : string :=
  "http://" +:+ addr +:+ PROTECTED_RESOURCE_PATH.

Definition build_verifier (auth : option Verify.AuthConfig) :
    result (option Verify.Verifier) string :=
  match auth with
  | None => Ok None
  | Some cfg => let? v := map_err auth_error_text (Verify.new cfg) in Ok (Some v)
  end.

(** Every Control surface has a materializer. *)
Definition control_server (addr : SocketAddr) (authenticated : bool) : Served :=
  ServesControl addr true authenticated.

Definition admin_service (addr : SocketAddr) (verifier : option Verify.Verifier) : Admin.AdminService :=
  Admin.with_metadata_url ((fun _ => protected_resource_url (addr_text addr)) <$> verifier)
    (Admin.with_verifier verifier Admin.new).

Definition serve_control_plane (addr : SocketAddr) (auth : option Verify.AuthConfig) : MR unit :=
  let authenticated := is_Some_b auth in
  try! verifier := ret (build_verifier auth) in
  emit (ReapsNodes NODE_TTL_SECS REAP_INTERVAL_SECS) ;;
  emit (control_server addr authenticated) ;;
  emit (ServesAdmin addr (admin_service addr verifier)) ;;
  ret transport.

Definition serve_control (addr : SocketAddr) : MR unit :=
  emit (control_server addr false) ;; ret transport.

Definition serve_admin (addr : SocketAddr) (auth : option Verify.AuthConfig) : MR unit :=
  try! verifier := ret (build_verifier auth) in
  emit (ServesAdmin addr (admin_service addr verifier)) ;;
  ret transport.

(** *** [latiq serve] *)

Section roles.
Variable parse_addr : string -> result SocketAddr string.

(** [start_metrics] is where the metrics address is read. *)
Definition run_serve (opened : result PathBuf string) (a : Flags.ServeArgs) : MR unit :=
  try! (addr, metrics_addr, auth) :=
    ret (Flags.serve_config parse_addr (let? _ := opened in Ok tt) a) in
  emit (Exposes metrics_addr) ;;
  emit CollectsGauges ;;
  emit (Announces ("control plane: Control + Admin gRPC on " +:+ addr_text addr)) ;;
  match opened with
  | Ok db => emit (Announces ("  registry: " +:+ display db))
  | Err _ => ret tt
  end ;;
  emit (Announces ("  metrics:  http://" +:+ addr_text metrics_addr +:+ "/metrics")) ;;
  emit (Announces
    (match auth with
     | Some cfg =>
         "  auth:     verifying tokens for audience '" +:+ Verify.audience cfg +:+ "' from "
           +:+ join ", " (map Verify.issuer (Verify.issuers cfg))
     | None => "  auth:     off (relaxed claimed identity)"
     end)) ;;
  let! r := serve_control_plane addr auth in
  ret (map_err (fun e => "server error: " +:+ e) r).
End roles.
End system.
End System.

(** ** The heartbeat and the reaper *)

Module Heart.
Section heart.
Context `{!Sql}.
Variable node_id : string.

(** Whether the loop holds a client, and the registry. *)
Record Link := { client : bool; registry : Registry }.

(** One round of the loop: whether a control plane can be dialled, and what becomes of
    the call.  An error costs the client. *)
Definition beat (now : Z) (dials : bool) (w : Wire) (l : Link) : Link :=
  if client l || dials then
    match w with
    | Through =>
        let (res, r) := Ops.heartbeat now node_id 0 (registry l) in
        {| client := is_ok res; registry := r |}
    | Unanswered true _ =>
        {| client := false; registry := (Ops.heartbeat now node_id 0 (registry l)).2 |}
    | Unanswered false _ => {| client := false; registry := registry l |}
    end
  else l.

(** One sweep of the control plane's loop. *)
Definition sweep (now : Z) (l : Link) : Link :=
  {| client := client l;
     registry := (Ops.reap_stale_nodes now System.NODE_TTL_SECS (registry l)).2 |}.

(** What happens over time; [Elsewhere] is anything that leaves the node's row alone. *)
Inductive Event :=
| Beat (now : Z) (dials : bool) (w : Wire)
| Sweep (now : Z)
| Elsewhere (r : Registry).

Definition after (l : Link) (e : Event) : Link :=
  match e with
  | Beat now dials w => beat now dials w l
  | Sweep now => sweep now l
  | Elsewhere r => {| client := client l; registry := r |}
  end.

Definition over (l : Link) (es : list Event) : Link := foldl after l es.
End heart.
End Heart.

(** ** Gauges *)

Module Gauges.
(** A gauge by its name and its label's value, empty where it has none; it keeps what
    it was last set to. *)
Notation Gauges := (gmap (string * string) N).

Definition set (name label : string) (n : nat) (g : Gauges) : Gauges :=
  <[(name, label) := N.of_nat n]> g.

Definition count_tier (by_tier : gmap string nat) (p : Rows.PondRow) : gmap string nat :=
  <[Rows.p_tier p := S (default 0 (by_tier !! Rows.p_tier p))]> by_tier.

(** One round of [spawn_system_collector], over the two lists as they were read. *)
Definition system {E F} (nodes : result (list Rows.NodeRow) E)
    (ponds : result (list Rows.PondRow) F) (g : Gauges) : Gauges :=
  let g :=
    match nodes with
    | Ok nodes =>
        let active := length (List.filter (fun n => String.eqb (Rows.state n) "active") nodes) in
        set "latiq_nodes" "down" (length nodes - active) (set "latiq_nodes" "active" active g)
    | Err _ => g
    end in
  match ponds with
  | Ok ponds =>
      map_fold (fun tier n g => set "latiq_ponds" tier n g)
        (set "latiq_ponds_total" EmptyString (length ponds) g) (foldl count_tier ∅ ponds)
  | Err _ => g
  end.

(** One round of [spawn_node_collector]. *)
Definition node (inflight open_ponds : nat) (sink : option (nat * nat * nat)) (g : Gauges) : Gauges :=
  let g := set "latiq_node_open_ponds" EmptyString open_ponds
             (set "latiq_inflight_queries" EmptyString inflight g) in
  match sink with
  | Some (submitted, posted, dropped) =>
      set "latiq_lineage_sink_events_dropped" EmptyString dropped
        (set "latiq_lineage_sink_events_posted" EmptyString posted
           (set "latiq_lineage_sink_events_submitted" EmptyString submitted g))
  | None => g
  end.
End Gauges.
