(* ===== verification/ServeSpec.v ===== *)
(** * What a start promises

    Nothing is served, and no node joins its cluster, before every setting has been
    checked; what is served is served with the verifier and the address that were
    checked.  A node stays up under the reaper as long as it does not miss two beats in a
    row, and comes back within two beats of an outage's end.  The gauges say what the
    registry says, but for tiers that are gone. *)
From S2P Require Import Prelude Errors Policy Common Registry RegistryInv RegistrySpec Interfaces Auth Ops.
From S2P Require Import AuthSpec ControlPlane Admin DataService Mcp Storage Cli CliSpec Serve.
#[local] Open Scope rust_scope.
#[local] Arguments String.append !_ _ / : simpl nomatch.

(** ** Beats *)

Section beats.
Context `{!Sql}.
Variable node_id : string.
Import Heart.

(** A round that reaches the control plane, if the node may dial it. *)
Definition gets_through (dials : bool) (w : Wire) : bool :=
  dials && match w with Through => true | Unanswered _ _ => false end.

(** The node's row, last heard of at [t] or later. *)
Definition up_since (t : Z) (l : Link) : Prop :=
  exists n, nodes (registry l) !! node_id = Some n /\ Tables.state n = "active" /\
    (t <= Tables.last_heartbeat n)%Z.

(** A round every fifteen seconds at most, no two misses in a row, and nobody else
    touching the row: [last] is the last round, [missed] whether it was a miss. *)
Fixpoint regular (last : Z) (missed : bool) (l : Link) (es : list Event) : Prop :=
  match es with
  | [] => True
  | e :: es =>
      match e with
      | Beat now dials w =>
          (last <= now <= last + 15000000)%Z /\ (gets_through dials w = true \/ missed = false) /\
          regular now (negb (gets_through dials w)) (after node_id l e) es
      | Sweep now =>
          (last <= now <= last + 15000000)%Z /\ regular last missed (after node_id l e) es
      | Elsewhere r =>
          nodes r !! node_id = nodes (registry l) !! node_id /\
          regular last missed (after node_id l e) es
      end
  end.

Lemma lookup_beaten now id n r : nodes r !! id = Some n ->
  exists n', nodes (Ops.heartbeat now id 0 r).2 !! id = Some n' /\ Tables.state n' = "active" /\
    Tables.last_heartbeat n' = now /\ is_ok (Ops.heartbeat now id 0 r).1 = true.
Proof.
  intros Hn. unfold Ops.heartbeat. rewrite Hn. cbn. rewrite lookup_insert_eq. by eexists.
Qed.

(** A round that gets through leaves the node up; any other leaves it no worse. *)
Lemma beat_up now dials w t l :
  up_since t l -> (t <= now)%Z ->
  up_since (if gets_through dials w then now else t) (beat node_id now dials w l).
Proof.
  intros (n & Hn & Ha & Ht) Hle. destruct (lookup_beaten now _ _ _ Hn) as (n' & Hn' & Ha' & Hb & Hok).
  unfold beat, gets_through, up_since. destruct w as [|served why]; [|destruct served]; rewrite ?andb_true_r, ?andb_false_r.
  - destruct (Ops.heartbeat _ _ _ _) as [res r] eqn:E. cbn [fst snd] in *.
    destruct dials; rewrite ?orb_true_r.
    + exists n'. cbn. repeat split; [done..|lia].
    + destruct (client l); cbn; [exists n'; repeat split; [done..|lia]|by exists n].
  - destruct (client l || dials); cbn; [exists n'; repeat split; [done..|lia]|by exists n].
  - destruct (client l || dials); cbn; by exists n.
Qed.

Lemma sweep_up now t l :
  up_since t l -> (now <= t + 30000000)%Z -> up_since t (sweep now l).
Proof.
  intros (n & Hn & Ha & Ht) Hle. exists n. unfold sweep. cbn [registry]. rewrite lookup_reaped, Hn.
  cbn. unfold Ops.stale. rewrite (proj2 (Z.ltb_ge _ _)) by (unfold System.NODE_TTL_SECS; lia).
  by rewrite andb_false_r.
Qed.

(** C19: a node that beats every fifteen seconds at most, and never misses twice in a row,
    hosts new ponds at every moment: no sweep of the reaper takes it for dead, however often
    a call is lost, a client dropped and the control plane dialled anew. *)
Theorem regular_beats_keep_a_node_up last l es :
  up_since last l -> regular last false l es ->
  forall k, node_id ∈ Ops.active_nodes (registry (over node_id l (take k es))).
Proof.
  assert (Hg : forall (missed : bool) last l es,
    up_since (if missed then last - 15000000 else last)%Z l -> regular last missed l es ->
    forall k, exists t, up_since t (over node_id l (take k es))).
  2:{ intros Hup Hr k. destruct (Hg false last l es Hup Hr k) as (t & n & Hn & Ha & _).
      apply elem_of_active_nodes. by exists n. }
  clear. intros missed last l es. revert missed last l.
  induction es as [|e es IH]; intros missed last l Hup Hr [|k]; [by eexists..|].
  change (over node_id l (take (S k) (e :: es))) with (over node_id (after node_id l e) (take k es)).
  destruct e as [now dials w|now|r]; cbn [regular] in Hr.
  - destruct Hr as (Hnow & Hmiss & Hr). eapply IH, Hr.
    pose proof (beat_up now dials w _ _ Hup) as Hb. cbn [after].
    destruct (gets_through dials w); cbn [negb]; [apply Hb; destruct missed; lia|].
    destruct Hmiss as [Hm| ->]; [done|]. destruct (Hb ltac:(lia)) as (n & ? & ? & ?).
    exists n. repeat split; [done..|lia].
  - destruct Hr as (Hnow & Hr). eapply IH, Hr. apply sweep_up; [done|destruct missed; lia].
  - destruct Hr as (Hrow & Hr). eapply IH, Hr. destruct Hup as (n & Hn & Hup).
    exists n. cbn. by rewrite Hrow.
Qed.

(** C20: however long an outage was, and whatever the reaper did in it, a registered node is
    up again after the first two rounds that find a control plane: a client left over from
    before may cost the first, and then the second dials. *)
Theorem outage_ends_in_two_beats l t1 t2 dials1 w1 dials2 w2 :
  is_Some (nodes (registry l) !! node_id) -> (t1 <= t2)%Z ->
  (client l = false -> gets_through dials1 w1 = true) ->
  (client (beat node_id t1 dials1 w1 l) = false -> gets_through dials2 w2 = true) ->
  up_since t1 (beat node_id t2 dials2 w2 (beat node_id t1 dials1 w1 l)).
Proof.
  intros [n Hn] Hle H1 H2. destruct (lookup_beaten t1 _ _ _ Hn) as (n1 & Hn1 & Ha1 & Hb1 & Hok1).
  assert (Hrow : exists m, nodes (registry (beat node_id t1 dials1 w1 l)) !! node_id = Some m /\
            (client (beat node_id t1 dials1 w1 l) = true -> Tables.state m = "active" /\
               (t1 <= Tables.last_heartbeat m)%Z)).
  { unfold beat in H2 |- *. destruct (client l || dials1) eqn:Ec.
    - destruct w1 as [|served why]; [|destruct served]; cbn.
      + destruct (Ops.heartbeat _ _ _ _) as [res r]. cbn in *. exists n1. by rewrite Hb1.
      + by exists n1.
      + by exists n.
    - exists n. split; [done|]. intros Hc. by rewrite Hc in Ec. }
  destruct Hrow as (m & Hm & Hup). destruct (client (beat node_id t1 dials1 w1 l)) eqn:Ec.
  - destruct (beat_up t2 dials2 w2 t1 (beat node_id t1 dials1 w1 l)) as (m' & ? & ? & Hb');
      [exists m; split; [done|by apply Hup]|lia|].
    exists m'. repeat split; [done..|]. revert Hb'. case_match; lia.
  - specialize (H2 eq_refl). unfold gets_through in H2. apply andb_true_iff in H2 as [-> Hw].
    destruct w2; [|done]. destruct (lookup_beaten t2 _ _ _ Hm) as (n' & Hn' & Ha' & Hb' & Hok').
    unfold beat at 1. rewrite orb_true_r. destruct (Ops.heartbeat t2 _ _ _) as [res r]. cbn in *.
    exists n'. by rewrite Hb'.
Qed.

(** Every operation on the registry but a beat or a registration of the node, and the
    reaper, leaves its row alone. *)
Lemma elsewhere_leaves_the_row r r' : step r r' ->
  nodes r' !! node_id = nodes r !! node_id \/
  (exists now mcp int cap, r' = (Ops.register_node now node_id mcp int cap r).2) \/
  (exists now n, r' = (Ops.heartbeat now node_id n r).2) \/
  (exists now ttl, r' = (Ops.reap_stale_nodes now ttl r).2).
Proof.
  intros Hstep. destruct Hstep.
  - destruct (decide (id = node_id)) as [->|Hne]; [right; left; by eexists _, _, _, _|].
    left. cbn. by rewrite lookup_insert_ne.
  - destruct (decide (id = node_id)) as [->|Hne]; [right; right; left; by eexists _, _|].
    left. unfold Ops.heartbeat. destruct (nodes r !! id); [|done]. cbn. by rewrite lookup_insert_ne.
  - right; right; right. by eexists _, _.
  - left. destruct (Ops.create_pond _ _ _ _ _ _ _ _ _ _ _) as [[row|e] r'] eqn:E; cbn.
    + by apply create_pond_Ok in E as (t & p & Ht & [? ? (nd & ? & ?) ? ? Hpd ? ->]).
    + by apply create_pond_Err in E as ->.
  - left. unfold Ops.set_pond_tier. by repeat case_match.
  - left. unfold Ops.forget_pond. by repeat case_match.
  - left. unfold Ops.drop_pond. by repeat case_match.
  - left. destruct (Ops.add_dataset now d r) as [[n|e] r'] eqn:E; cbn.
    + by apply add_dataset_Ok in E as (? & _ & _ & _ & _ & ->).
    + by apply add_dataset_Err in E as ->.
  - left. unfold Ops.remove_dataset. by repeat case_match.
  - left. unfold Ops.add_catalog, Ops.in_txn. by repeat case_match.
  - left. unfold Ops.remove_catalog. by repeat case_match.
  - by left.
Qed.

(** A node its control plane does not know: each round that is heard costs the client, the
    next dials again, and none registers. *)
Theorem forgotten_node_stays_forgotten l es :
  nodes (registry l) !! node_id = None ->
  (forall r, Elsewhere r ∈ es -> nodes r !! node_id = None) ->
  nodes (registry (over node_id l es)) !! node_id = None /\
  (forall now dials, client (beat node_id now dials Through (over node_id l es)) = false).
Proof.
  intros Hn He. assert (Hnone : nodes (registry (over node_id l es)) !! node_id = None).
  { revert l Hn He. induction es as [|e es IH]; intros l Hn He; [done|]. apply IH.
    - destruct e as [now dials w|now|r]; unfold after.
      + unfold beat. destruct (client l || dials); [|done]. unfold Ops.heartbeat. rewrite Hn.
        destruct w as [|served why]; [done|]. by destruct served.
      + unfold sweep. cbn [registry]. by rewrite lookup_reaped, Hn.
      + apply He. by left.
    - intros r Hr. apply He. by right. }
  split; [done|]. intros now dials. unfold beat, Ops.heartbeat. rewrite Hnone.
  destruct (client _ || dials) eqn:Ec; [done|]. by apply orb_false_iff in Ec as [].
Qed.
End beats.

(** ** Gauges *)

Section gauges.
Import Gauges.
Context {E F : Type}.

Definition of_tier (tier : string) (ps : list Rows.PondRow) : nat :=
  length (List.filter (fun p => String.eqb (Rows.p_tier p) tier) ps).

Lemma lookup_count_tier tier ps m :
  foldl count_tier m ps !! tier =
    match of_tier tier ps with
    | O => m !! tier
    | S n => Some (default 0 (m !! tier) + S n)
    end.
Proof.
  revert m. induction ps as [|p ps IH]; intros m; [done|].
  cbn [foldl]. rewrite IH. unfold of_tier, count_tier. cbn.
  destruct (String.eqb_spec (Rows.p_tier p) tier) as [->|Hne]; cbn.
  - rewrite lookup_insert_eq. cbn. destruct (length _); f_equal; cbn; lia.
  - by rewrite lookup_insert_ne.
Qed.

Lemma lookup_tiers name m g n tier :
  map_fold (fun tier n g => set name tier n g) g m !! (n, tier) =
    if String.eqb n name then
      match m !! tier with Some k => Some (N.of_nat k) | None => g !! (n, tier) end
    else g !! (n, tier).
Proof.
  apply (map_fold_weak_ind (fun r m => r !! (n, tier) = if String.eqb n name then
      match m !! tier with Some k => Some (N.of_nat k) | None => g !! (n, tier) end
      else g !! (n, tier))); clear m.
  - rewrite lookup_empty. by destruct (String.eqb n name).
  - intros t k m r _ IH. unfold set. destruct (String.eqb_spec n name) as [->|Hne].
    + destruct (decide (t = tier)) as [->|Ht]; [by rewrite !lookup_insert_eq|].
      by rewrite !lookup_insert_ne by congruence.
    + by rewrite lookup_insert_ne by congruence.
Qed.

(** a round of the collector leaves the gauges of nodes, of ponds, and of every tier
    that has a pond equal to what the registry said; the gauge of a tier whose last pond
    is gone keeps what it last was. *)
Theorem gauges_follow_the_registry (ns : list Rows.NodeRow) (ps : list Rows.PondRow) g :
  let g' := system (E := E) (F := F) (Ok ns) (Ok ps) g in
  let active := length (List.filter (fun n => String.eqb (Rows.state n) "active") ns) in
  g' !! ("latiq_nodes", "active") = Some (N.of_nat active) /\
  g' !! ("latiq_nodes", "down") = Some (N.of_nat (length ns - active)) /\
  g' !! ("latiq_ponds_total", EmptyString) = Some (N.of_nat (length ps)) /\
  forall tier, g' !! ("latiq_ponds", tier) =
    match of_tier tier ps with O => g !! ("latiq_ponds", tier) | S n => Some (N.of_nat (S n)) end.
Proof.
  cbv zeta. unfold system. rewrite !lookup_tiers.
  split_and!; [by unfold set; repeat first [rewrite lookup_insert_eq | rewrite lookup_insert_ne by done]..|].
  intros tier. rewrite lookup_tiers, lookup_count_tier, lookup_empty.
  cbn [String.eqb Ascii.eqb Bool.eqb]. destruct (of_tier tier ps); [|done].
  unfold set. by rewrite !lookup_insert_ne by congruence.
Qed.
End gauges.

(** ** A pond node's start *)

Section node.
Context `{!Sql} `{!Entropy} `{!Codec} `{!Urls} `{!McpUrls}.
Variable debug : string -> string.
Variable status_text : Service.Status -> string.
Variable o : Outside.
Import Node.
Notation run := (run_pond_node_until debug status_text o).

(** What has to hold for a node to join: its extensions load, its verifier is built from
    all of its configuration, its address and its backend are addresses. *)
Record checked (cfg : Flags.PondNodeConfig) (v : option Verify.Verifier) (url : string) : Prop := {
  ck_extensions : extensions o = Ok (Ok tt);
  ck_verifier :
    match Flags.auth cfg with
    | Some auth => exists v', Verify.new auth = Ok v' /\ v = Some v'
    | None => v = None
    end;
  ck_url : Address.resolve_public_mcp_url debug (Flags.public_mcp_url cfg)
             (Flags.internal_endpoint cfg) (Flags.mcp_addr cfg) = Ok url;
  ck_backend : forall b, Flags.lineage_backend_url cfg = Some b ->
    exists u, Backend.validate_url b = Ok u /\ (scheme u = "http" \/ scheme u = "https");
}.

(** The node that serves: what it goes by is what it registered, its ponds are where it is
    told, and it posts its events exactly where a backend is configured. *)
Definition serving (cfg : Flags.PondNodeConfig) : NodeOps :=
  {| node := {| config := {| inline_row_cap := 10000; timeouts := Flags.timeouts cfg |};
                self_node_id := Some (Flags.node_id cfg);
                self_endpoint := Some (Flags.internal_endpoint cfg); forwarder := true |};
     data_dir := Flags.data_dir cfg; posts := is_Some_b (Flags.lineage_backend_url cfg) |}.

(** Where the MCP surface of [url] says its metadata is. *)
Definition mcp_metadata (url : string) : string :=
  Address.protected_resource_metadata_url (Surface.resource (Some url) EmptyString).

(** The two gRPC surfaces verify as the MCP surface does, and challenge for the same
    document; without a verifier they do neither. *)
Definition surface_of (v : option Verify.Verifier) (url : string) : Surface :=
  {| verifier := v; challenge := (fun _ => Metadata.challenge_header (mcp_metadata url)) <$> v |}.

Definition fits (cfg : Flags.PondNodeConfig) (v : option Verify.Verifier) (url : string)
    (e : Effect) : Prop :=
  match e with
  | Registers id mcp internal _ =>
      id = Flags.node_id cfg /\ internal = Flags.internal_endpoint cfg /\
      mcp = "http://" +:+ addr_text (Flags.mcp_addr cfg) +:+ "/mcp"
  | ServesData a self s | ServesStream a self s =>
      a = Flags.data_addr cfg /\ self = serving cfg /\ s = surface_of v url
  | ServesMcp a self v' url' =>
      a = Flags.mcp_addr cfg /\ self = serving cfg /\ v' = v /\ url' = Some url
  | Beats _ id => id = Flags.node_id cfg
  | _ => True
  end.

Definition is_server (e : Effect) : bool :=
  match e with ServesData _ _ _ | ServesStream _ _ _ | ServesMcp _ _ _ _ => true | _ => false end.

(** The control plane knows the node as it is. *)
Definition joined (cfg : Flags.PondNodeConfig) (w : World) : Prop :=
  exists n, nodes (registry (cp w)) !! Flags.node_id cfg = Some n /\ Tables.state n = "active" /\
    Tables.internal_endpoint n = Flags.internal_endpoint cfg.

Lemma extensions_checked : extensions_ready o = Ok tt -> extensions o = Ok (Ok tt).
Proof. unfold extensions_ready. by destruct (extensions o) as [[[]|]|]. Qed.

Lemma verifier_checked auth v : verifier_of auth = Ok v ->
  match auth with
  | Some auth => exists v', Verify.new auth = Ok v' /\ v = Some v'
  | None => v = None
  end.
Proof.
  unfold verifier_of. destruct auth as [auth|]; [|congruence].
  destruct (Verify.new auth) as [v'|]; cbn; [|done]. intros [= <-]. by eexists.
Qed.

Lemma backend_checked b u (clear : bool) : Backend.new (http_client o) b = Ok (u, clear) ->
  Backend.validate_url b = Ok u /\ (scheme u = "http" \/ scheme u = "https").
Proof.
  unfold Backend.new. destruct (Backend.validate_url b) as [u'|] eqn:Ev; cbn; [|done].
  destruct (http_client o); cbn; [|done]. intros [= <- _]. split; [done|].
  revert Ev. unfold Backend.validate_url. destruct (url_parse b) as [p|]; cbn; [|done].
  destruct (String.eqb_spec (scheme p) "http"); cbn; [intros [= <-]; by left|].
  destruct (String.eqb_spec (scheme p) "https"); cbn; [intros [= <-]; by right|done].
Qed.

(** The log of a run from its checks on. *)
Definition log_of (cfg : Flags.PondNodeConfig) (v : option Verify.Verifier) (url : string)
    (sink : list Effect) : list Effect :=
  sink ++ [Registers (Flags.node_id cfg) ("http://" +:+ addr_text (Flags.mcp_addr cfg) +:+ "/mcp")
             (Flags.internal_endpoint cfg) 100; WarmsExtensions]
    ++ match Flags.metrics_addr cfg with
       | Some a =>
           [Collects (is_Some_b (Flags.lineage_backend_url cfg));
            match metrics_bound o with
            | Ok _ => ServesMetrics a
            | Err e => Complains ("metrics server error: " +:+ e)
            end]
       | None => []
       end
    ++ [Beats (Flags.control_endpoint cfg) (Flags.node_id cfg)]
    ++ match data_bound o with
       | Ok _ => [ServesData (Flags.data_addr cfg) (serving cfg) (surface_of v url);
                  ServesStream (Flags.data_addr cfg) (serving cfg) (surface_of v url)]
       | Err e => [Complains ("data gRPC server error: " +:+ e)]
       end
    ++ [Prints ("pond-node '" +:+ Flags.node_id cfg +:+ "' serving MCP at "
                  +:+ ("http://" +:+ addr_text (Flags.mcp_addr cfg) +:+ "/mcp")
                  +:+ " and Data gRPC at http://" +:+ addr_text (Flags.data_addr cfg));
        Prints ("  pond storage: " +:+ display (Flags.data_dir cfg))]
    ++ match Flags.lineage_backend_url cfg with
       | Some b => [Prints ("  lineage:      also posting events to " +:+ b)]
       | None => []
       end
    ++ match mcp_bound o with
       | Ok _ => [ServesMcp (Flags.mcp_addr cfg) (serving cfg) v (Some url)]
       | Err _ => []
       end
    ++ [FlushesLineage].

(** A run is one of four: a check fails; the control plane cannot be dialled; it does not
    take the registration, or cannot be dialled again; or the node serves. *)
Inductive Ran (shutdown : bool) (cfg : Flags.PondNodeConfig) (w : World) :
    result unit string * World -> Prop :=
| Refused_ e : Ran shutdown cfg w (Err e, w)
| Alone v url sink e :
    checked cfg v url -> Forall (fun e => exists u c, e = PostsEvents u c) sink ->
    Ran shutdown cfg w (Err e, {| cp := cp w; log := log w ++ sink |})
| Turned_away v url sink e c :
    checked cfg v url -> Forall (fun e => exists u c, e = PostsEvents u c) sink ->
    Ran shutdown cfg w
      (Err e, {| cp := c;
                 log := log w ++ sink ++
                   [Registers (Flags.node_id cfg)
                      ("http://" +:+ addr_text (Flags.mcp_addr cfg) +:+ "/mcp")
                      (Flags.internal_endpoint cfg) 100] |})
| Serving v url sink c :
    checked cfg v url -> Forall (fun e => exists u c, e = PostsEvents u c) sink ->
    joined cfg {| cp := c; log := [] |} ->
    Ran shutdown cfg w
      (match mcp_bound o with
       | Err e => Err ("mcp server error: " +:+ e)
       | Ok _ => if shutdown then Ok tt else map_err (fun e => "mcp server error: " +:+ e) (mcp_ends o)
       end, {| cp := c; log := log w ++ log_of cfg v url sink |}).

Lemma registered_joined cfg mcp c :
  joined cfg {| cp := (Service.register_node (Flags.node_id cfg) mcp (Flags.internal_endpoint cfg)
                         100 c).2; log := [] |}.
Proof.
  unfold joined, Service.register_node. cbn. rewrite lookup_insert_eq. by eexists.
Qed.

(** What is left of a run once everything has been checked. *)
Lemma ran_checked shutdown cfg v url w sink :
  checked cfg v url -> Forall (fun e => exists u c, e = PostsEvents u c) sink ->
  sink_of o (Flags.lineage_backend_url cfg) w =
    (Ok (is_Some_b (Flags.lineage_backend_url cfg)), {| cp := cp w; log := log w ++ sink |}) ->
  extensions_ready o = Ok tt -> verifier_of (Flags.auth cfg) = Ok v ->
  Ran shutdown cfg w (run shutdown cfg w).
Proof.
  intros Hck Hs Hsink He Hv. unfold run_pond_node_until, try, bind, ret.
  rewrite He, Hv. rewrite (ck_url _ _ _ Hck). cbv beta iota. rewrite Hsink. cbv beta iota.
  unfold build_ops, try, bind, ret, emit. destruct (dialled o) as [[]|e];
    [|by eapply Alone]. cbn [cp log].
  pose proof (registered_joined cfg ("http://" +:+ addr_text (Flags.mcp_addr cfg) +:+ "/mcp") (cp w)) as Hj.
  unfold call. destruct (registration o) as [|served why].
  2:{ cbn. rewrite <- app_assoc. by eapply Turned_away. }
  cbn [cp]. destruct (Service.register_node _ _ _ _ _) as [r c] eqn:Er. cbn in Hj.
  assert (r = Ok tt) as -> by (by injection Er as <- _).
  cbn [map_err cp log]. destruct (dialled_again o) as [[]|e];
    [|rewrite <- app_assoc; by eapply Turned_away].
  cbn [cp log]. unfold spawned, serve_metrics, serve_data, serve_mcp, emit, bind, ret.
  assert (Hsurf : DataService.with_metadata_url v
            ((fun _ => Address.protected_resource_metadata_url url) <$> v) = surface_of v url).
  { unfold DataService.with_metadata_url, DataService.challenge_of, surface_of. by destruct v. }
  rewrite Hsurf. pose proof (Serving shutdown cfg w v url sink c Hck Hs Hj) as HS.
  unfold log_of, serving in HS. revert HS.
  destruct (Flags.metrics_addr cfg), (metrics_bound o), (data_bound o),
    (Flags.lineage_backend_url cfg), (mcp_bound o); cbn [cp log app is_Some_b];
    intros HS; rewrite <- ?app_assoc; exact HS.
Qed.

Lemma ran shutdown cfg w : Ran shutdown cfg w (run shutdown cfg w).
Proof.
  destruct (extensions_ready o) as [[]|e] eqn:He.
  2:{ unfold run_pond_node_until, try, bind, ret. rewrite He. by apply Refused_. }
  destruct (verifier_of (Flags.auth cfg)) as [v|e] eqn:Hv.
  2:{ unfold run_pond_node_until, try, bind, ret. rewrite He, Hv. by apply Refused_. }
  destruct (Address.resolve_public_mcp_url debug (Flags.public_mcp_url cfg)
              (Flags.internal_endpoint cfg) (Flags.mcp_addr cfg)) as [url|e] eqn:Hu.
  2:{ unfold run_pond_node_until, try, bind, ret. rewrite He, Hv, Hu. by apply Refused_. }
  destruct (Flags.lineage_backend_url cfg) as [b|] eqn:Hb.
  - destruct (Backend.new (http_client o) b) as [[u clear]|e] eqn:Hn.
    2:{ unfold run_pond_node_until, try, bind, ret, sink_of. rewrite He, Hv, Hu, Hb, Hn.
        by apply Refused_. }
    apply (ran_checked shutdown cfg v url w [PostsEvents (text u) clear]); [|by repeat econstructor| |done..].
    + split; [by apply extensions_checked|by apply verifier_checked|done|].
      intros b' [= <-]%(eq_trans (eq_sym Hb)). exists u. by eapply backend_checked.
    + unfold sink_of, emit, bind, ret. by rewrite Hb, Hn.
  - apply (ran_checked shutdown cfg v url w []); [|done| |done..].
    + split; [by apply extensions_checked|by apply verifier_checked|done|]. congruence.
    + unfold sink_of, ret. rewrite Hb, app_nil_r. by destruct w.
Qed.

Lemma fits_log cfg v url sink :
  Forall (fun e => exists u c, e = PostsEvents u c) sink -> Forall (fits cfg v url) (log_of cfg v url sink).
Proof.
  intros Hs. unfold log_of. rewrite !Forall_app. split_and!.
  - eapply Forall_impl; [exact Hs|]. by intros e (u & c & ->).
  - by repeat constructor.
  - destruct (Flags.metrics_addr cfg), (metrics_bound o); by repeat constructor.
  - by repeat constructor.
  - destruct (data_bound o); by repeat constructor.
  - by repeat constructor.
  - destruct (Flags.lineage_backend_url cfg); by repeat constructor.
  - destruct (mcp_bound o); by repeat constructor.
  - by repeat constructor.
Qed.

(** Whatever a run does fits what was checked. *)
Lemma log_fits shutdown cfg w :
  exists t, log (run shutdown cfg w).2 = log w ++ t /\
    (t = [] \/ exists v url, checked cfg v url /\ Forall (fits cfg v url) t).
Proof.
  destruct (ran shutdown cfg w) as [e|v url sink e Hck Hs|v url sink e c Hck Hs|v url sink c Hck Hs Hj];
    cbn [log snd].
  1: exists []; rewrite app_nil_r; split; [done|by left].
  all: eexists; split; [reflexivity|]; right; exists v, url; split; [done|].
  3: by apply fits_log.
  2: apply Forall_app; split; [|by repeat constructor].
  all: eapply Forall_impl; [exact Hs|]; by intros ? (? & ? & ->).
Qed.

(** C7: a pond node fails closed.  It does nothing at all, to its cluster or to the world,
    unless every check has passed; whatever serves does so after the registration of a node
    that the control plane then knows as active, under the endpoint it forwards from; it
    serves, as the node it registered and the ponds of its directory, with the verifier built from the configuration, or with none where none is
    configured, and the gRPC surfaces challenge for the very document the MCP surface
    serves; and a node that ends well has served its agents. *)
Theorem node_fails_closed shutdown cfg w :
  let (r, w') := run shutdown cfg w in
  exists t, log w' = log w ++ t /\
    (t = [] \/ exists v url, checked cfg v url /\ Forall (fits cfg v url) t) /\
    (forall e, e ∈ t -> is_server e = true ->
       joined cfg w' /\
       exists before id mcp int cap after, t = before ++ Registers id mcp int cap :: after /\
         e ∈ after /\ forall e', e' ∈ before -> is_server e' = false) /\
    (r = Ok tt -> exists v url, ServesMcp (Flags.mcp_addr cfg) (serving cfg) v (Some url) ∈ t).
Proof.
  pose proof (log_fits shutdown cfg w) as (t & Ht & Hfits). revert Ht.
  destruct (ran shutdown cfg w) as [e|v url sink e Hck Hs|v url sink e c Hck Hs|v url sink c Hck Hs Hj];
    cbn [log snd]; intros Ht; exists t; (split; [exact Ht|]); (split; [exact Hfits|]).
  1: assert (t = []) as -> by (apply (app_inv_head (log w)); by rewrite app_nil_r, <- Ht).
  2-4: apply app_inv_head in Ht as <-.
  1-3: split; [|done]; intros x Hx Hserver; exfalso.
  - by apply elem_of_nil in Hx.
  - by apply (proj1 (Forall_forall _ _) Hs) in Hx as (? & ? & ->).
  - apply elem_of_app in Hx as [Hx|Hx].
    + by apply (proj1 (Forall_forall _ _) Hs) in Hx as (? & ? & ->).
    + by apply list_elem_of_singleton in Hx as ->.
  - split.
    + intros x Hx Hserver. split; [exact Hj|]. unfold log_of in Hx |- *.
      apply elem_of_app in Hx as [Hx|Hx].
      { by apply (proj1 (Forall_forall _ _) Hs) in Hx as (? & ? & ->). }
      apply elem_of_cons in Hx as [->|Hx]; [done|].
      eexists sink, _, _, _, _, _. split; [reflexivity|]. split; [exact Hx|].
      intros e' He'. by apply (proj1 (Forall_forall _ _) Hs) in He' as (? & ? & ->).
    + intros Hr. exists v, url. unfold log_of. destruct (mcp_bound o); [|done].
      rewrite !elem_of_app. do 7 right. left. by left.
Qed.

(** A node whose data port is taken says so on its terminal, and joins, beats and serves
    its agents all the same, under an endpoint nothing listens on. *)
Theorem data_port_taken_goes_unnoticed shutdown cfg w why :
  data_bound o = Err why ->
  let (r, w') := run shutdown cfg w in
  forall t, log w' = log w ++ t ->
    (forall a self s, ServesData a self s ∉ t) /\
    ((exists a self v u, ServesMcp a self v u ∈ t) ->
     joined cfg w' /\ Beats (Flags.control_endpoint cfg) (Flags.node_id cfg) ∈ t /\
     (shutdown = true -> r = Ok tt)).
Proof.
  intros Hd. destruct (ran shutdown cfg w) as [e|v url sink e Hck Hs|v url sink e c Hck Hs|v url sink c Hck Hs Hj];
    cbn [log]; intros t Ht.
  1: assert (t = []) as -> by (apply (app_inv_head (log w)); by rewrite app_nil_r).
  2-4: apply app_inv_head in Ht as <-.
  - split; [by intros a self s ?%elem_of_nil|by intros (? & ? & ? & ? & ?%elem_of_nil)].
  - split; [intros a self s Hx|intros (a & self & v' & u & Hx)];
      by apply (proj1 (Forall_forall _ _) Hs) in Hx as (? & ? & ?).
  - split; [intros a self s Hx|intros (a & self & v' & u & Hx)];
      (apply elem_of_app in Hx as [Hx|Hx];
        [by apply (proj1 (Forall_forall _ _) Hs) in Hx as (? & ? & ?)
        |by apply list_elem_of_singleton in Hx]).
  - split.
    + intros a self s Hx. unfold log_of in Hx. rewrite Hd in Hx.
      apply elem_of_app in Hx as [Hx|Hx]; [by apply (proj1 (Forall_forall _ _) Hs) in Hx as (? & ? & ?)|].
      destruct (Flags.metrics_addr cfg), (metrics_bound o), (Flags.lineage_backend_url cfg), (mcp_bound o);
        cbn in Hx; set_solver.
    + intros (a & self & v' & u & Hx). split; [exact Hj|]. split.
      * unfold log_of. rewrite !elem_of_app. do 3 right. left. by left.
      * intros ->. destruct (mcp_bound o) as [|e] eqn:Hm; [done|]. exfalso. unfold log_of in Hx.
        rewrite Hd, Hm in Hx.
        apply elem_of_app in Hx as [Hx|Hx]; [by apply (proj1 (Forall_forall _ _) Hs) in Hx as (? & ? & ?)|].
        destruct (Flags.metrics_addr cfg), (metrics_bound o), (Flags.lineage_backend_url cfg);
          cbn in Hx; set_solver.
Qed.
End node.

(** ** The flags of the servers *)

Section roles.
Context `{!Sql} `{!Entropy} `{!Codec} `{!Urls} `{!McpUrls}.
Variable debug : string -> string.
Variable status_text : Service.Status -> string.
Variable parse_addr : string -> result SocketAddr string.

(** The issuers given, and whom a surface then verifies callers with: nobody, or all of
    them for the audience given. *)
Definition given (issuers : list string) : list string :=
  omap (fun i => Flags.non_blank (Some i)) issuers.

Definition verified_by (issuers : list string) (audience : option string)
    (v : option Verify.Verifier) : Prop :=
  match given issuers with
  | [] => v = None
  | _ => exists v', v = Some v' /\
      map Verify.issuer (Verify.issuers (Verify.cfg v')) = given issuers /\
      Flags.non_blank audience = Some (Verify.audience (Verify.cfg v'))
  end.

Lemma non_blank_trimmed v t : Flags.non_blank v = Some t -> trim t = t.
Proof.
  unfold Flags.non_blank. destruct v as [s|]; [|done]. destruct (String.eqb _ _); [done|].
  intros [= <-]. apply trim_idem.
Qed.

Lemma given_trimmed issuers : map trim (given issuers) = given issuers.
Proof.
  unfold given. induction issuers as [|i l IH]; [done|]. cbn.
  destruct (String.eqb _ _); [exact IH|]. cbn. f_equal; [apply trim_idem|exact IH].
Qed.

(** A verifier built from flags is one for what they give. *)
Lemma flags_verifier issuers audience uri insecure auth v :
  Flags.auth_config issuers audience uri insecure = Ok auth ->
  match auth with
  | Some a => exists v', Verify.new a = Ok v' /\ v = Some v'
  | None => v = None
  end ->
  verified_by issuers audience v.
Proof.
  intros Ha Hv. pose proof (CliSpec.auth_config_spec issuers audience uri insecure) as Hs.
  cbv zeta in Hs. rewrite Ha in Hs. unfold verified_by. change (omap _ issuers) with (given issuers) in Hs.
  destruct auth as [a|]; [|by rewrite Hs].
  destruct Hs as (Hne & Hi & Haud & _). destruct Hv as (v' & Hnew & ->).
  apply AuthSpec.verifier_new_Ok in Hnew as (_ & _ & Hf & _ & Hc).
  assert (Hq : exists v'', Some v' = Some v'' /\ map Verify.issuer (Verify.issuers (Verify.cfg v'')) = given issuers /\
            Flags.non_blank audience = Some (Verify.audience (Verify.cfg v''))).
  { exists v'. split; [done|]. rewrite Hc. cbn. split.
    - apply AuthSpec.stored_names in Hf. rewrite map_map. cbn.
      transitivity (map (fun i => trim (Verify.issuer i)) (Verify.issuers a)); [exact Hf|].
      rewrite <- (map_map Verify.issuer trim), Hi. apply given_trimmed.
    - rewrite Haud. f_equal. symmetry. by eapply non_blank_trimmed. }
  by destruct (given issuers).
Qed.

(** Whom a surface verifies with, where an effect is one. *)
Definition verifies (e : Effect) : option (option Verify.Verifier) :=
  match e with
  | ServesData _ _ s | ServesStream _ _ s => Some (DataService.verifier s)
  | ServesMcp _ _ v _ => Some v
  | _ => None
  end.

Lemma node_config_auth made control a cfg :
  Flags.node_config parse_addr made control a = Ok cfg ->
  Flags.auth_config (Flags.na_auth_issuer a) (Flags.na_auth_audience a) (Flags.na_auth_jwks_uri a)
    (Flags.na_auth_allow_insecure_jwks a) = Ok (Flags.auth cfg).
Proof.
  unfold Flags.node_config. destruct (Flags.auth_config _ _ _ _) as [auth|]; cbn; [|done].
  destruct (Timeout.new _ _), made, (parse_addr (Flags.metrics_of _ _ _)), (parse_addr _); cbn; try done;
    destruct (parse_addr _); cbn; try done; by intros [= <-].
Qed.

Lemma serve_config_auth opened a addr metrics auth :
  Flags.serve_config parse_addr opened a = Ok (addr, metrics, auth) ->
  Flags.auth_config (Flags.sv_auth_issuer a) (Flags.sv_auth_audience a) (Flags.sv_auth_jwks_uri a)
    (Flags.sv_auth_allow_insecure_jwks a) = Ok auth.
Proof.
  unfold Flags.serve_config. destruct (Flags.auth_config _ _ _ _) as [auth'|]; cbn; [|done].
  destruct opened, (parse_addr _); cbn; try done; destruct (parse_addr _); cbn; try done;
    by intros [= _ _ <-].
Qed.

Lemma build_verifier_checked auth v : System.build_verifier auth = Ok v ->
  match auth with
  | Some auth => exists v', Verify.new auth = Ok v' /\ v = Some v'
  | None => v = None
  end.
Proof.
  unfold System.build_verifier. destruct auth as [auth|]; [|congruence].
  destruct (Verify.new auth) as [v'|]; cbn; [|done]. intros [= <-]. by eexists.
Qed.

(** What a control plane's log holds of its surfaces. *)
Definition surfaces_fit (issuers : list string) (audience : option string) (t : list Served) : Prop :=
  (forall addr s, ServesAdmin addr s ∈ t ->
     verified_by issuers audience (Admin.verifier s) /\
     is_Some_b (Admin.challenge s) = is_Some_b (Admin.verifier s)) /\
  (forall addr m replay, ServesControl addr m replay ∈ t ->
     m = true /\ (replay = true <-> given issuers <> []) /\ ReapsNodes 30 10 ∈ t).

Lemma control_plane_fits transport addr issuers audience uri insecure auth l :
  Flags.auth_config issuers audience uri insecure = Ok auth ->
  exists t, (System.serve_control_plane transport addr auth l).2 = l ++ t /\ surfaces_fit issuers audience t.
Proof.
  intros Ha. unfold System.serve_control_plane, try, bind, ret, System.emit.
  destruct (System.build_verifier auth) as [v|e] eqn:Hv.
  2:{ exists []. rewrite app_nil_r. split; [done|]. split; [by intros ? ? ?%elem_of_nil|by intros ? ? ? ?%elem_of_nil]. }
  apply build_verifier_checked in Hv. pose proof (flags_verifier _ _ _ _ _ _ Ha Hv) as Hver.
  cbn [snd]. rewrite <- !app_assoc. eexists. split; [reflexivity|]. split.
  - intros x s Hx. assert (s = System.admin_service addr v) as -> by (cbn in Hx; set_solver).
    split; [exact Hver|]. by destruct v.
  - intros x m replay Hx. unfold System.control_server in *.
    assert (m = true /\ replay = is_Some_b auth) as [-> ->] by (cbn in Hx; set_solver).
    split; [done|]. split; [|by left]. unfold verified_by in Hver.
    destruct auth as [a|]; [destruct Hv as (v' & _ & ->)|subst v]; destruct (given issuers);
      cbn; naive_solver.
Qed.

Lemma announced_fits issuers audience t t' :
  Forall (fun e => match e with ServesAdmin _ _ | ServesControl _ _ _ => False | _ => True end) t ->
  surfaces_fit issuers audience t' -> surfaces_fit issuers audience (t ++ t').
Proof.
  intros Ht [Ha Hc]. rewrite Forall_forall in Ht. split.
  - intros addr s [Hx|Hx]%elem_of_app; [by apply Ht in Hx|by eapply Ha].
  - intros addr m replay [Hx|Hx]%elem_of_app; [by apply Ht in Hx|].
    destruct (Hc _ _ _ Hx) as (? & ? & ?). split_and!; [done..|]. apply elem_of_app. by right.
Qed.

(** C8: the flags of a server decide whom its surfaces verify, and nothing else does.
    Started without an issuer, neither role verifies anybody; started with issuers, every
    surface of a node, and the Admin surface of a control plane, verifies against all of
    them for the audience given, or is not served; and a control plane serves Control only
    with its materializer and its reaper, and replays bearer tokens exactly when it
    verifies them. *)
Theorem flags_decide_who_is_verified o transport :
  (forall made control shutdown a w,
     exists t, log (Node.run_node_add debug status_text o parse_addr made control shutdown a w).2
                 = log w ++ t /\
       forall e v, e ∈ t -> verifies e = Some v ->
         verified_by (Flags.na_auth_issuer a) (Flags.na_auth_audience a) v) /\
  (forall opened a l,
     exists t, (System.run_serve transport parse_addr opened a l).2 = l ++ t /\
       surfaces_fit (Flags.sv_auth_issuer a) (Flags.sv_auth_audience a) t).
Proof.
  split.
  - intros made control shutdown a w. unfold Node.run_node_add, try, bind, ret.
    destruct (Flags.node_config parse_addr made control a) as [cfg|e] eqn:Hc.
    2:{ exists []. rewrite app_nil_r. split; [done|]. by intros ? ? ?%elem_of_nil. }
    apply node_config_auth in Hc. destruct (log_fits debug status_text o shutdown cfg w) as (t & Ht & Hf).
    exists t. split; [exact Ht|]. intros e v He Hv. destruct Hf as [->|(v0 & url & Hck & Hall)];
      [by apply elem_of_nil in He|].
    pose proof (flags_verifier _ _ _ _ _ _ Hc (ck_verifier _ _ _ _ _ Hck)) as Hver.
    rewrite Forall_forall in Hall. specialize (Hall _ He).
    destruct e; try done; injection Hv as <-; destruct Hall as (_ & _ & Hall); [by rewrite Hall..|].
    by destruct Hall as [-> _].
  - intros opened a l. unfold System.run_serve, try, bind, ret.
    destruct (Flags.serve_config _ _ _) as [[[addr metrics] auth]|e] eqn:Hc.
    2:{ exists []. rewrite app_nil_r. split; [done|].
        split; [by intros ? ? ?%elem_of_nil|by intros ? ? ? ?%elem_of_nil]. }
    apply serve_config_auth in Hc. unfold System.emit. cbv beta iota.
    destruct opened as [db|e]; cbv beta iota;
      (match goal with |- context[System.serve_control_plane transport addr auth ?l0] =>
         destruct (control_plane_fits transport addr _ _ _ _ _ l0 Hc) as (t & Ht & Hf) end);
      destruct (System.serve_control_plane _ _ _ _) as [r l']; cbn [snd] in *; rewrite Ht;
      rewrite <- ?app_assoc; (eexists; split; [reflexivity|]);
      repeat (apply announced_fits; [by repeat constructor|]); exact Hf.
Qed.
End roles.

(** ** At work *)

Module Beating.
Import Heart.

Definition registered : Link :=
  {| client := false;
     registry := (Ops.register_node 0 "n1" "http://n1/mcp" "http://n1" 100 (open_fresh 0)).2 |}.

(** A round lost on the way, between sweeps. *)
Definition hour : list Event :=
  [Beat 10000000 true Through; Sweep 12000000; Beat 20000000 true (Unanswered false "reset");
   Sweep 32000000; Beat 34000000 true Through; Sweep 42000000].

Lemma regular_beats_witness :
  up_since "n1" 0 registered /\ regular "n1" 0 false registered hour /\
  "n1" ∈ Ops.active_nodes (registry (over "n1" registered (take 6 hour))).
Proof.
  assert (Hup : up_since "n1" 0 registered) by (eexists; split_and!; [reflexivity|reflexivity|cbn; lia]).
  assert (Hr : regular "n1" 0 false registered hour)
    by (cbn [regular hour]; unfold gets_through; cbn [andb negb]; repeat split; try lia; tauto).
  split; [exact Hup|]. split; [exact Hr|].
  exact (regular_beats_keep_a_node_up "n1" 0 registered hour Hup Hr 6).
Defined.

(** Taken for dead while a call hung; the client of then is of no use. *)
Definition downed : Link :=
  {| client := true; registry := registry (sweep 90000000 registered) |}.

Lemma outage_ends_witness :
  "n1" ∉ Ops.active_nodes (registry downed) /\
  up_since "n1" 100000000
    (beat "n1" 110000000 true Through (beat "n1" 100000000 true (Unanswered false "reset") downed)).
Proof.
  split.
  - vm_compute. intros Hin. inversion Hin.
  - apply outage_ends_in_two_beats; [by eexists|lia|by intros|by intros].
Defined.
End Beating.
