(* ===== verification/Sdk.v ===== *)
(** * The SDK

    Models [latiq-sdk/src/lib.rs]: how a client is made (its token, its two endpoints,
    their channels), every operation with the messages it sends and what it makes of the
    answers, the decoding of an Arrow stream, and the embedded cluster a local client
    starts and waits for.  A client talks to one [Net]: whether an endpoint can be dialled
    and how a message is answered are the network's, and may change from one look to the
    next.  A session logs what was sent and what was spawned. *)
From S2P Require Import Prelude Errors Policy Common Sql Plan Interfaces Auth Wire ControlPlane Ops Admin.
From S2P Require Import DataService Mcp Storage Cli Serve.
#[local] Open Scope rust_scope.
#[local] Arguments String.append !_ _ / : simpl nomatch.

(** ** Messages *)

Module Api.
Section api.
Context `{!Values}.

Inductive Message :=
| CreatePondAssignment (r : Service.CreatePondAssignmentRequest)
| GetPondInfo (pond_ref : string)
| ListDatasets (query : string)
| ListCatalogs (query : string)
| PondList
| ListNodes
| Data (r : Rpc.Request)
| ReadArrow (pond sql : string) (timeout_ms : N).

(** A streamed answer is its messages, up to an error. *)
Definition Reply (m : Message) : Type :=
  match m with
  | CreatePondAssignment _ => Service.CreatePondAssignmentResponse
  | GetPondInfo _ => option Service.PondInfoMsg
  | ListDatasets _ => list Service.DatasetMsg
  | ListCatalogs _ => list Service.CatalogMsg
  | PondList => list Admin.PondSummary
  | ListNodes => list Admin.NodeInfo
  | Data _ => Rpc.Response
  | ReadArrow _ _ _ => list (result Rpc.ArrowChunk Rpc.Status)
  end.

Class Net (W : Type) := {
  (** [Channel::from_shared], and [connect] on what it made. *)
  from_shared : string -> bool;
  connect : string -> W -> bool * W;
  rpc : string -> Service.Metadata -> forall m : Message, W -> result (Reply m) Rpc.Status * W;
}.
End api.

(** One message sent: where, with which headers, and what it was. *)
Record Sent := { to_ : string; md : Service.Metadata; msg : Message }.

Inductive Spawned :=
| ControlPlaneAt (addr : string) (registry : PathBuf)
| PondNodeWith (cfg : Flags.PondNodeConfig).

Record Session (W : Type) := { net : W; sent : list Sent; spawned : list Spawned }.
Arguments net {W}.
Arguments sent {W}.
Arguments spawned {W}.
End Api.
Import Api.

(** ** Texts *)

Module Text.
(** An explicit token, a blank one too, is never replaced by the environment's. *)
Definition resolve_token (explicit from_env : option string) : option string :=
  match match explicit with Some t => Some t | None => from_env end with
  | Some t => let t := trim t in if String.eqb t EmptyString then None else Some t
  | None => None
  end.

Definition normalize_endpoint (server : string) : string :=
  let s := trim server in
  match strip_prefix "grpc://" s with
  | Some rest => "http://" +:+ rest
  | None => if starts_with "http://" s || starts_with "https://" s then s else "http://" +:+ s
  end.

Definition quote_ident (s : string) : string := dq +:+ replace_ascii "034" (dq +:+ dq) s +:+ dq.

Definition snapshots_sql (pond : string) : string :=
  "SELECT * FROM " +:+ quote_ident pond +:+ ".snapshots() ORDER BY snapshot_id".

Definition DEFAULT_IDENTITY : string := "sdk".

Definition default_local_root (home : option PathBuf) : PathBuf :=
  Fs.join (Fs.join (default {| display := "."; names := ["."] |} home) ".latiq") "local".
End Text.

(** ** Arrow *)

Section decode.
Context `{!Values} `{!Ipc}.

(** The decoder takes at least a byte for a batch. *)
Fixpoint decode_batches (fuel : nat) (buf : string) (d : decoder) (batches : list batch) :
    result (list batch) string :=
  match fuel with
  | O => Ok batches
  | S fuel =>
      if String.eqb buf EmptyString then Ok batches
      else
        match decode buf d with
        | ((Ok (Some b), rest), d) => decode_batches fuel rest d (batches ++ [b])
        | ((Ok None, _), _) => Ok batches
        | ((Err e, _), _) => Err ("arrow ipc: " +:+ e)
        end
  end.

Definition decode_ipc (ipc : string) : result (list batch) string :=
  if String.eqb ipc EmptyString then Ok [] else decode_batches (S (String.length ipc)) ipc decoder_new [].
End decode.

(** ** The client *)

Record PondInfo := {
  pond_id : string;
  name : string;
  node_id : string;
  tier : string;
  description : string;
  lineage : bool;
}.

(** The channels are their endpoints: each is made once, and reconnects by itself. *)
Record Latiq := {
  control_endpoint : string;
  data_endpoint : string;
  identity : string;
  token : option string;
}.

Record BearerAuth := { b_identity : string; b_token : option string }.

Module Sdk.
Section sdk.
Context {W : Type} `{!Net W} `{!Values} `{!Ipc} `{!Floats} `{!Serde}.
(** Whether a text can be a header's value, and a status as [{}] prints it. *)
Variable header_ok : string -> bool.
Variable display : Rpc.Status -> string.
Notation Session := (Session W).
Notation MR A := (M Session (result A string)).

(** *** Sending *)

Definition interceptor (a : BearerAuth) : Service.Metadata :=
  {| Service.latiq_agent_id := if header_ok (b_identity a) then Some (b_identity a) else None;
     Service.authorization :=
       match b_token a with
       | Some t => let v := "Bearer " +:+ t in if header_ok v then Some v else None
       | None => None
       end;
     Service.traceparent := None |}.

Definition send (a : BearerAuth) (endpoint : string) (m : Message) :
    M Session (result (Reply m) Rpc.Status) := fun s =>
  let (r, w) := rpc endpoint (interceptor a) m (net s) in
  (r, {| net := w; sent := sent s ++ [{| to_ := endpoint; md := interceptor a; msg := m |}];
         spawned := spawned s |}).

Definition dial (endpoint : string) : M Session bool := fun s =>
  let (up, w) := connect endpoint (net s) in
  (up, {| net := w; sent := sent s; spawned := spawned s |}).

Definition spawn (x : Spawned) : M Session unit := fun s =>
  (tt, {| net := net s; sent := sent s; spawned := spawned s ++ [x] |}).

(** [?] on a status, and [.map_err(..)?] with what was being done. *)
Definition raised {A} (r : result A Rpc.Status) : result A string := map_err display r.
Definition doing {A} (what : string) (r : result A Rpc.Status) : result A string :=
  map_err (fun st => what +:+ ": " +:+ Rpc.message st) r.

(** *** Waiting *)

Fixpoint poll (n : nat) (look : M Session bool) : M Session bool :=
  match n with
  | O => ret false
  | S n => let! up := look in if up then ret true else poll n look
  end.

Definition wait_connectable (endpoint : string) : MR unit :=
  let! up := poll 200 (if from_shared endpoint then dial endpoint else ret false) in
  ret (if up then Ok tt else Err ("endpoint never became connectable: " +:+ endpoint)).

Definition wait_for_active_node (endpoint : string) (a : BearerAuth) : MR unit :=
  let! up := poll 400
    (if from_shared endpoint then
       let! r := send a endpoint ListNodes in
       ret (match r with
            | Ok nodes => existsb (fun n => String.eqb (Admin.n_state n) "active") nodes
            | Err _ => false
            end)
     else ret false) in
  ret (if up then Ok tt else Err "local pond node did not register in time").

Definition lazy_channel (endpoint : string) : result unit string :=
  if from_shared endpoint then Ok tt else Err ("invalid endpoint " +:+ endpoint).

(** *** The embedded cluster *)

Definition loopback (port : N) : SocketAddr :=
  {| addr_text := "127.0.0.1:" +:+ pretty port; port := port |}.

Definition local_config (root : PathBuf) (control_endpoint : string) (data_port mcp_port : N) :
    Flags.PondNodeConfig :=
  {| Flags.node_id := "local"; Flags.mcp_addr := loopback mcp_port;
     Flags.data_addr := loopback data_port;
     Flags.internal_endpoint := "http://127.0.0.1:" +:+ pretty data_port;
     Flags.control_endpoint := control_endpoint; Flags.public_mcp_url := None;
     Flags.data_dir := Fs.join root "ponds"; Flags.metrics_addr := None; Flags.auth := None;
     Flags.lineage_backend_url := None; Flags.timeouts := Timeout.default |}.

(** [made]: the root's directories; [ports]: the free ones, where they could be had;
    [opened]: the registry under the root. *)
Definition start (root : PathBuf) (made : result unit string) (ports : result (N * N * N) string)
    (opened : result unit string) (a : BearerAuth) : MR (string * string) :=
  try! _ := ret made in
  try! (cp_port, data_port, mcp_port) := ret ports in
  let control_endpoint := "http://127.0.0.1:" +:+ pretty cp_port in
  try! _ := ret (map_err (fun e => "open registry: " +:+ e) opened) in
  spawn (ControlPlaneAt ("127.0.0.1:" +:+ pretty cp_port) (Fs.join root "registry.duckdb")) ;;
  try! _ := wait_connectable control_endpoint in
  spawn (PondNodeWith (local_config root control_endpoint data_port mcp_port)) ;;
  try! _ := wait_for_active_node control_endpoint a in
  let data_endpoint := "http://127.0.0.1:" +:+ pretty data_port in
  try! _ := wait_connectable data_endpoint in
  ret (Ok (control_endpoint, data_endpoint)).

(** *** Connecting *)

Definition client_on (control data : string) (token : option string) : result Latiq string :=
  let? _ := lazy_channel control in
  let? _ := lazy_channel data in
  Ok {| control_endpoint := control; data_endpoint := data; identity := Text.DEFAULT_IDENTITY;
        token := token |}.

(** What a connection finds: [$LATIQ_TOKEN], [$HOME], and whatever starting an embedded
    cluster takes. *)
Record Host := {
  latiq_token : option string;
  home : option PathBuf;
  made : PathBuf -> result unit string;
  ports : result (N * N * N) string;
  opened : PathBuf -> result unit string;
}.

Definition connect_with_token (h : Host) (server : string) (root : option PathBuf)
    (query_gateway token : option string) : MR Latiq :=
  let token := Text.resolve_token token (latiq_token h) in
  if String.eqb server "local" then
    let root := default (Text.default_local_root (home h)) root in
    let auth := {| b_identity := Text.DEFAULT_IDENTITY; b_token := token |} in
    try! (control, data) := start root (made h root) (ports h) (opened h root) auth in
    ret (client_on control data token)
  else
    let control := Text.normalize_endpoint server in
    let data := from_option Text.normalize_endpoint control query_gateway in
    let! up := wait_connectable control in
    match up with
    | Err _ => ret (Err ("connecting to control plane at " +:+ server))
    | Ok _ => ret (client_on control data token)
    end.

Definition connect_with (h : Host) (server : string) (root : option PathBuf)
    (query_gateway : option string) : MR Latiq :=
  connect_with_token h server root query_gateway None.

Definition connect_to (h : Host) (server : string) (root : option PathBuf) : MR Latiq :=
  connect_with h server root None.

Definition with_identity (id : string) (l : Latiq) : Latiq :=
  {| control_endpoint := control_endpoint l; data_endpoint := data_endpoint l; identity := id;
     token := token l |}.

(** *** Operations *)

Section ops.
Variable l : Latiq.

Definition auth : BearerAuth := {| b_identity := identity l; b_token := token l |}.

(** The front doors: Control and Admin on one, Data and Stream on the other. *)
Definition control (m : Message) : M Session (result (Reply m) Rpc.Status) :=
  send auth (control_endpoint l) m.
Definition data (m : Message) : M Session (result (Reply m) Rpc.Status) :=
  send auth (data_endpoint l) m.

Definition parse_json (s : string) : result Json string :=
  map_err (fun e => "decode response: " +:+ e) (from_str s).

Definition body (r : Rpc.Response) : string :=
  match r with Rpc.JsonResponse json => json | _ => EmptyString end.

Definition info_from_msg (msg : option Service.PondInfoMsg) (fallback_id : string) :
    result PondInfo string :=
  match msg with
  | None => Err "pond not found"
  | Some m =>
      Ok {| pond_id := if String.eqb (Service.m_pond_id m) EmptyString then fallback_id
                       else Service.m_pond_id m;
            name := Service.m_name m; node_id := Service.m_node_id m; tier := Service.m_tier m;
            description := Service.m_description m; lineage := Service.m_lineage m |}
  end.

Definition create_pond (name : option string) (tier description : string) (lineage : bool) :
    MR PondInfo :=
  let! r := control (CreatePondAssignment
    {| Service.name := default EmptyString name; Service.owner_identity := identity l;
       Service.policy_json := "{}"; Service.tier := tier; Service.extensions := [];
       Service.description := description; Service.lineage := lineage |}) in
  try! r := ret (raised r) in
  let! pond := control (GetPondInfo (Service.pond_id r)) in
  try! pond := ret (raised pond) in
  ret (info_from_msg pond (Service.pond_id r)).

Definition get_pond (pond : string) : MR PondInfo :=
  let! r := control (GetPondInfo pond) in
  try! msg := ret (doing ("pond '" +:+ pond +:+ "'") r) in
  ret (info_from_msg msg pond).

Definition summary_info (p : Admin.PondSummary) : PondInfo :=
  {| pond_id := Admin.s_pond_id p; name := Admin.s_name p; node_id := Admin.s_node_id p;
     tier := Admin.s_tier p; description := Admin.s_description p; lineage := Admin.s_lineage p |}.

(** By name, the last of a name. *)
Definition list_ponds : MR (gmap string PondInfo) :=
  let! r := control PondList in
  try! ponds := ret (raised r) in
  ret (Ok (foldl (fun m p => <[Admin.s_name p := summary_info p]> m) ∅ ponds)).

(** A Data call whose answer is JSON. *)
Definition data_json (what : option string) (r : Rpc.Request) : MR Json :=
  let! resp := data (Data r) in
  try! resp := ret (match what with Some w => doing w resp | None => raised resp end) in
  ret (parse_json (body resp)).

Definition describe_pond (pond : string) : MR Json := data_json None (Rpc.DescribePond pond).

Definition drop_pond (pond : string) (confirm : bool) : MR unit :=
  let! resp := data (Data (Rpc.DropPond pond confirm)) in
  try! _ := ret (raised resp) in
  ret (Ok tt).

(** The bytes of a stream, up to an error. *)
Fixpoint collect (chunks : list (result Rpc.ArrowChunk Rpc.Status)) (out : string) :
    result string string :=
  match chunks with
  | [] => Ok out
  | Ok c :: chunks => collect chunks (out +:+ Rpc.ipc c)
  | Err st :: _ => Err (display st)
  end.

Definition query_ipc (pond sql : string) : MR string :=
  if negb (Sql.is_read_only sql) then
    let! r := data (Data (Rpc.WriteQuery pond sql 0)) in
    try! _ := ret (doing "write" r) in
    ret (Ok EmptyString)
  else
    let! r := data (ReadArrow pond sql 0) in
    try! streaming := ret (doing "read" r) in
    ret (collect streaming EmptyString).

Definition query (pond sql : string) : MR (list batch) :=
  try! ipc := query_ipc pond sql in
  ret (decode_ipc ipc).

Definition explain (pond sql : string) : MR Json :=
  data_json (Some "explain") (Rpc.ExplainQuery pond sql 0).

Definition snapshots_ipc (pond : string) : MR string := query_ipc pond (Text.snapshots_sql pond).
Definition snapshots (pond : string) : MR (list batch) :=
  try! ipc := snapshots_ipc pond in
  ret (decode_ipc ipc).

Definition strs (ts : list string) : Json := Array (map Str ts).

Definition dataset_json (d : Service.DatasetMsg) : Json :=
  Cell.object
    [("description", Str (Service.d_description d)); ("tags", strs (Service.d_tags d));
     ("tables", Array (map (fun t => Cell.object
        [("table_name", Str (Service.t_table_name t)); ("source_uri", Str (Service.t_source_uri t));
         ("format", Str (Service.t_format t))]) (Service.d_tables d)));
     ("created_by", Str (Service.d_created_by d)); ("created_at", Str (Service.d_created_at d))].

Definition list_datasets (query : string) : MR Json :=
  let! r := control (ListDatasets query) in
  try! ds := ret (raised r) in
  ret (Ok (Cell.object (map (fun d => (Service.d_name d, dataset_json d)) ds))).

Definition catalog_json (c : Service.CatalogMsg) : Json :=
  Cell.object
    [("type", Str (Service.c_type c));
     ("params", Cell.object (map (fun kv => (kv.1, Str kv.2)) (btree_entries (Service.c_params c))));
     ("description", Str (Service.c_description c)); ("tags", strs (Service.c_tags c));
     ("created_by", Str (Service.c_created_by c)); ("created_at", Str (Service.c_created_at c))].

Definition list_catalogs (query : string) : MR Json :=
  let! r := control (ListCatalogs query) in
  try! cs := ret (raised r) in
  ret (Ok (Cell.object (map (fun c => (Service.c_name c, catalog_json c)) cs))).

Definition load_dataset (pond dataset : string) : MR Json :=
  data_json (Some "load_dataset") (Rpc.LoadDataset pond dataset).

Definition describe_catalog (pond catalog : string) (set : gmap string string) : MR Json :=
  data_json (Some "describe_catalog") (Rpc.CatalogDescribe pond catalog set).

Definition pull_catalog (pond catalog query : string) (set : gmap string string) : MR Json :=
  data_json (Some "pull_catalog") (Rpc.CatalogPull pond catalog query set).

(** *** A pond's handle: the operations, by its name *)

Inductive Call : Type -> Type :=
| Query (sql : string) : Call (list batch)
| Describe : Call Json
| Explain (sql : string) : Call Json
| Snapshots : Call (list batch)
| LoadDataset (dataset : string) : Call Json
| DescribeCatalog (catalog : string) (set : gmap string string) : Call Json
| PullCatalog (catalog query : string) (set : gmap string string) : Call Json.

Definition on_pond {A} (info : PondInfo) (c : Call A) : MR A :=
  match c with
  | Query sql => query (name info) sql
  | Describe => describe_pond (name info)
  | Explain sql => explain (name info) sql
  | Snapshots => snapshots (name info)
  | LoadDataset dataset => load_dataset (name info) dataset
  | DescribeCatalog catalog set => describe_catalog (name info) catalog set
  | PullCatalog catalog query set => pull_catalog (name info) catalog query set
  end.
End ops.
End sdk.
End Sdk.
