(* ===== verification/SdkSpec.v ===== *)
(** * What the SDK promises

    A read through the SDK is the read its front door served, batch for batch; every
    message a client sends says who it is and goes to the door it is for; waiting ends;
    a client of an embedded cluster is only handed out once the cluster can be reached;
    tokens, endpoints and the one statement the SDK writes itself are what they say. *)
From S2P Require Import Prelude Errors Policy Common Deadline Sql SqlSpec Plan Interfaces Auth Wire WireSpec.
From S2P Require Import Registry ControlPlane Ops Admin DataService Forward ForwardSpec Mcp Storage Cli.
From S2P Require Import Serve ServeSpec Sdk.
Import Api.
#[local] Open Scope rust_scope.
#[local] Arguments String.append !_ _ / : simpl nomatch.

(** ** Arrow *)

(** A decoder does not care how its input is cut. *)
Class Chunking `{!Values} `{!Ipc} := {
  resumes : forall buf more d d', decode buf d = ((Ok None, EmptyString), d') ->
    decode (buf +:+ more) d = decode more d';
  yields : forall buf more d d' b rest, decode buf d = ((Ok (Some b), rest), d') ->
    decode (buf +:+ more) d = ((Ok (Some b), rest +:+ more), d');
}.

Section arrow.
Context `{!Floats} `{!Arrow} `{!Ipc} `{!IpcLaws} `{!Chunking} `{!Codec}.
Variable display : Rpc.Status -> string.
Variable ctx : Trace.TraceContext.
Notation encode := (StreamService.encode_batches ctx).

(** What a whole stream of batches comes to: all of them, or the first thing that went
    wrong. *)
Fixpoint gathered (w : writer) (batches : list (result batch AgentError)) :
    result (list batch) string :=
  match batches with
  | [] => Ok []
  | Err e :: _ => Err (display (DataService.to_status (Some ctx) e))
  | Ok b :: batches =>
      match write b w with
      | Err e => Err (display (StreamService.ipc_status e))
      | Ok (w, _) => let? bs := gathered w batches in Ok (b :: bs)
      end
  end.

Lemma collect_from chunks out :
  Sdk.collect display chunks out =
    let? s := Sdk.collect display chunks EmptyString in Ok (out +:+ s).
Proof.
  revert out. induction chunks as [|[c|st] chunks IH]; intros out; cbn;
    [by rewrite str_app_nil_r| |done].
  rewrite IH, (IH (Rpc.ipc c)). destruct (Sdk.collect display chunks EmptyString); cbn; [|done].
  by rewrite str_app_assoc.
Qed.

Lemma decode_batches_nil fuel d acc : decode_batches fuel EmptyString d acc = Ok acc.
Proof. by destruct fuel. Qed.

(** The bytes of a stream that ends well decode to its batches. *)
Lemma decode_gathered batches : forall w sc d acc fuel,
  in_step sc w d ->
  match Sdk.collect display (encode w batches) EmptyString with
  | Ok bytes => String.length bytes < fuel ->
      exists bs, gathered w batches = Ok bs /\ decode_batches fuel bytes d acc = Ok (acc ++ bs)
  | Err e => gathered w batches = Err e
  end.
Proof.
  induction batches as [|[b|e] batches IH]; intros w sc d acc fuel Hs; cbn [encode gathered]; [|  |done].
  - destruct (finish w) as [tail|e] eqn:Ef.
    2:{ intros _. exists []. by rewrite app_nil_r, decode_batches_nil. }
    destruct (String.eqb_spec tail EmptyString) as [->|Hne]; cbn.
    { intros _. exists []. by rewrite app_nil_r, decode_batches_nil. }
    intros Hf. exists []. split; [done|]. destruct fuel as [|fuel]; [lia|]. cbn [decode_batches].
    rewrite (proj2 (String.eqb_neq _ _) Hne). destruct (closes _ _ _ _ Hs Ef) as (d' & ->).
    by rewrite app_nil_r.
  - destruct (write b w) as [[w' bytes]|e] eqn:Ew; [|done]. cbn [Sdk.collect StreamService.chunk Rpc.ipc].
    rewrite collect_from. destruct (carries _ _ _ _ _ _ Hs Ew) as (d' & Hd & _ & Hs').
    specialize (IH w' sc d' (acc ++ [b])).
    destruct (Sdk.collect display (encode w' batches) EmptyString) as [rest|e]; cbn [res_bind].
    + intros Hf. rewrite str_length_app in Hf. pose proof (decode_consumes _ _ _ _ _ Hd) as Hpos.
      cbn in Hpos. destruct fuel as [|fuel]; [lia|].
      destruct (IH fuel Hs' ltac:(cbn in Hf; lia)) as (bs & Hg & Hdec). exists (b :: bs).
      rewrite Hg. split; [done|]. cbn [decode_batches].
      cbn [String.append]. rewrite (yields _ rest _ _ _ _ Hd). cbn [String.append].
      destruct (String.eqb_spec (bytes +:+ rest) EmptyString) as [He|_].
      { apply (f_equal String.length) in He. rewrite str_length_app in He. cbn in He. lia. }
      rewrite Hdec, <- app_assoc. done.
    + by rewrite (IH 0 Hs').
Qed.

(** What the client makes of a whole read: the schema's frame is skipped. *)
Definition delivered (read : ArrowReadStream) : result (list batch) string :=
  match try_new (schema read) with
  | Err e => Err (display (StreamService.ipc_status e))
  | Ok (w, _) => gathered w (batches read)
  end.

Lemma decode_read read :
  (let? ipc := Sdk.collect display (StreamService.encode_to_chunks ctx read) EmptyString in
   decode_ipc ipc) = delivered read.
Proof.
  unfold StreamService.encode_to_chunks, delivered.
  destruct (try_new (schema read)) as [[w bytes]|e] eqn:Et; [|done].
  cbn [Sdk.collect Rpc.ipc String.append]. rewrite collect_from.
  destruct (opens _ _ _ Et) as (d & Hd & _ & Hs).
  pose proof (decode_gathered (batches read) w (schema read) d []) as Hg.
  destruct (Sdk.collect display (encode w (batches read)) EmptyString) as [rest|e]; cbn [res_bind];
    [|by rewrite (Hg 0 Hs)].
  destruct (Hg (S (String.length (bytes +:+ rest))) Hs) as (bs & -> & Hdec);
    [rewrite str_length_app; lia|].
  unfold decode_ipc. destruct (String.eqb_spec (bytes +:+ rest) EmptyString) as [He|Hne].
  - assert (rest = EmptyString) as -> by (destruct bytes; [exact He|done]).
    by rewrite decode_batches_nil in Hdec.
  - cbn [decode_batches] in Hdec |- *. rewrite (proj2 (String.eqb_neq _ _) Hne).
    rewrite (resumes _ _ _ _ Hd). destruct (String.eqb_spec rest EmptyString) as [->|_]; [|exact Hdec].
    pose proof (resumes _ EmptyString _ _ Hd) as Hr. rewrite str_app_nil_r, Hd in Hr.
    by rewrite <- Hr.
Qed.

(** A read that does not fail arrives as it is. *)
Lemma gathered_all w bs :
  (forall b w, is_ok (write b w) = true) -> gathered w (map Ok bs) = Ok bs.
Proof.
  intros Hw. revert w. induction bs as [|b bs IH]; intros w; cbn; [done|].
  specialize (Hw b w). destruct (write b w) as [[w' bytes]|e]; [|done]. by rewrite IH.
Qed.

(** And what arrives is what was read. *)
Lemma gathered_only w bs rs : gathered w rs = Ok bs -> rs = map Ok bs.
Proof.
  revert w bs. induction rs as [|[b|e] rs IH]; intros w bs; cbn; [by intros [= <-]| |done].
  destruct (write b w) as [[w' bytes]|e]; [|done].
  destruct (gathered w' rs) as [bs'|e] eqn:E; cbn; [|done]. intros [= <-]. cbn. f_equal. by eapply IH.
Qed.
End arrow.

(** ** A read through a node *)

Lemma message_stamped ctx e : Errors.message (DataService.stamped ctx e) = Errors.message e.
Proof. unfold DataService.stamped, Envelope.with_traceparent. by case_match. Qed.

Section front_door.
Context {C D E F : Type} `{!PondIds} `{!Floats} `{!Arrow} `{!Ipc}.
Context `{!ControlPlane C} `{!PondStorage D} `{!QueryEngine E} `{!LineageReader D}.
Context `{!Codec} `{!SerdeTexts} `{!Serde} `{!Jwt}.
Context `{!IpcLaws} `{!Chunking}.
Variable forwarder_in : option string -> option string -> Forwarder F.
Variable header_ok : string -> bool.
Variable refused : string -> string.
Variable valid_uri : string -> result unit string.
Variable display : Rpc.Status -> string.
(** What a server says of a service it does not have. *)
Variable unimplemented : Rpc.Status.

Notation Peers := (Cluster.Peers (C := C) (D := D) (E := E) (F := F)).

(** The nodes, as a client of their Data and Stream services meets them. *)
#[local] Instance nodes_net : Net Peers := {
  Api.from_shared e := is_ok (valid_uri e);
  Api.connect e ps := (bool_decide (is_Some (ps !! e)), ps);
  Api.rpc e md m ps :=
    let net := Cluster.network forwarder_in header_ok refused valid_uri in
    match m with
    | Data r => @Forward.call _ net e md r ps
    | ReadArrow pond sql t => @call_stream _ net e md pond sql t ps
    | CreatePondAssignment _ | GetPondInfo _ | ListDatasets _ | ListCatalogs _ | PondList
    | ListNodes => (Err unimplemented, ps)
    end;
}.

(** C13: a read through the SDK is the read its front door serves the client: what
    [read_arrow_with] answers on that node, for whom the client says it is, reaches the
    caller as exactly its batches in order, or as the first error in it; an error of the
    call keeps its message; and where neither the read nor the writer fails, nothing is
    lost. *)
Theorem sdk_reads_arrive_whole (l : Latiq) pond sql s owner who tok :
  let md := Sdk.interceptor header_ok (Sdk.auth l) in
  Sql.is_read_only sql = true ->
  net s !! data_endpoint l = Some owner ->
  admitted (Cluster.surface owner) (Cluster.arrivals owner (Cluster.arrived owner)) md = Some (who, tok) ->
  let out := serve forwarder_in owner who tok md (fun fw ambient id =>
    AgentOps.read_arrow_with (Cluster.node owner) ambient id pond sql (DataService.controls_of 0)) in
  let ctx := DataService.trace_of (Cluster.arrivals owner (Cluster.arrived owner)) md in
  let (answer, s') := Sdk.query header_ok display l pond sql s in
  net s' = <[data_endpoint l := Cluster.moved owner out.2]> (net s) /\
  match out.1 with
  | Err e => answer = Err ("read: " +:+ Errors.message e)
  | Ok read =>
      answer = delivered display ctx read /\
      (forall bs, answer = Ok bs -> batches read = map Ok bs) /\
      (forall bs, batches read = map Ok bs -> is_ok (try_new (schema read)) = true ->
         (forall b w, is_ok (write b w) = true) -> answer = Ok bs)
  end.
Proof.
  intros md Hsql Ho Ha out ctx. unfold Sdk.query, Sdk.query_ipc, Ops.try, Ops.bind, ret.
  rewrite Hsql. cbn [negb]. unfold Sdk.data, Sdk.send. cbn [rpc nodes_net call_stream Cluster.network].
  unfold Cluster.on_node. rewrite Ho. unfold StreamService.read_arrow.
  fold md. rewrite (try_admitted _ _ _ _ _ _ _ _ _ Ha). unfold Ops.bind. fold ctx.
  subst out. unfold serve. fold ctx.
  destruct (AgentOps.read_arrow_with _ _ _ _ _ _ _) as [[read|e] w'];
    unfold ret; cbv beta iota; cbn [fst snd net Sdk.doing map_err Rpc.message DataService.to_status].
  2: { split; [reflexivity|]. by rewrite message_stamped. }
  pose proof (decode_read display ctx read) as Hd.
  assert (Hall : forall bs, delivered display ctx read = Ok bs -> batches read = map Ok bs).
  { unfold delivered. intros bs. destruct (try_new (schema read)) as [[w b0]|]; [|done]. by apply gathered_only. }
  assert (Hfull : forall bs, batches read = map Ok bs -> is_ok (try_new (schema read)) = true ->
            (forall b w, is_ok (write b w) = true) -> delivered display ctx read = Ok bs).
  { unfold delivered. intros bs -> Hok Hw. destruct (try_new (schema read)) as [[w b0]|]; [|done].
    by apply gathered_all. }
  destruct (Sdk.collect display _ EmptyString) as [ipc|e]; cbn [res_bind] in Hd; cbn [net];
    rewrite Hd; done.
Qed.
End front_door.

(** ** What is sent *)

Section sending.
Context {W : Type} `{!Floats} `{!Arrow} `{!Ipc} `{!Serde} `{!Net W}.
Variable header_ok : string -> bool.
Variable display : Rpc.Status -> string.
Notation Session := (Session W).

(** [m] spawns nothing, and every message it sends is fine. *)
Definition sends (fine : Sent -> Prop) {A} (m : Ops.M Session A) : Prop :=
  forall s, exists t, sent (m s).2 = sent s ++ t /\ Forall fine t /\ spawned (m s).2 = spawned s.

Lemma sends_ret fine {A} (a : A) : sends fine (ret a : Ops.M Session A).
Proof. intros s. exists []. by rewrite app_nil_r. Qed.

Lemma sends_bind fine {A B} (m : Ops.M Session A) (k : A -> Ops.M Session B) :
  sends fine m -> (forall a, sends fine (k a)) -> sends fine (Ops.bind m k).
Proof.
  intros Hm Hk s. unfold Ops.bind. destruct (Hm s) as (t & Ht & Hf & Hs).
  destruct (m s) as [a s1]. cbn [snd] in *. destruct (Hk a s1) as (t' & Ht' & Hf' & Hs').
  exists (t ++ t'). rewrite Ht', Ht, app_assoc, Hs'. split_and!; [done|by apply Forall_app|done].
Qed.

Lemma sends_try fine {A B E} (m : Ops.M Session (result A E)) (k : A -> Ops.M Session (result B E)) :
  sends fine m -> (forall a, sends fine (k a)) -> sends fine (Ops.try m k).
Proof.
  intros Hm Hk. apply sends_bind; [done|]. intros [a|e]; [apply Hk|apply sends_ret].
Qed.

Lemma sends_send (fine : Sent -> Prop) a e m :
  fine {| to_ := e; md := Sdk.interceptor header_ok a; msg := m |} ->
  sends fine (Sdk.send header_ok a e m).
Proof.
  intros Hf s. unfold Sdk.send. destruct (rpc _ _ _ _) as [r w]. cbn.
  eexists. split; [reflexivity|]. by repeat constructor.
Qed.

(** A message of a client: both headers, through the door of its service; a statement
    goes by the stream exactly when it is a read, and names no timeout. *)
Definition says (l : Latiq) (x : Sent) : Prop :=
  md x = Sdk.interceptor header_ok (Sdk.auth l) /\
  to_ x = match msg x with Data _ | ReadArrow _ _ _ => data_endpoint l | _ => control_endpoint l end /\
  match msg x with
  | ReadArrow _ sql t => Sql.is_read_only sql = true /\ t = 0%N
  | Data (Rpc.WriteQuery _ sql t) => Sql.is_read_only sql = false /\ t = 0%N
  | CreatePondAssignment r => Service.owner_identity r = identity l
  | _ => True
  end.

(** And to a pond's handle, that it names that pond. *)
Definition names (pond : string) (m : Message) : Prop :=
  match m with
  | ReadArrow p _ _ => p = pond
  | Data r =>
      match r with
      | Rpc.WriteQuery p _ _ | Rpc.ExplainQuery p _ _ | Rpc.DescribePond p | Rpc.LoadDataset p _
      | Rpc.CatalogPull p _ _ _ | Rpc.CatalogDescribe p _ _ => p = pond
      | _ => False
      end
  | _ => False
  end.

Create HintDb sdk.
#[local] Hint Resolve sends_ret : sdk.
#[local] Hint Extern 2 (sends _ (Ops.bind _ _)) => apply sends_bind; [|intros ?] : sdk.
#[local] Hint Extern 2 (sends _ (Ops.try _ _)) => apply sends_try; [|intros ?] : sdk.
#[local] Hint Extern 2 (sends _ (Sdk.send _ _ _ _)) =>
  apply sends_send; unfold says; cbn; repeat split; auto : sdk.

Lemma data_json_says (fine : Sent -> Prop) l what r :
  fine {| to_ := data_endpoint l; md := Sdk.interceptor header_ok (Sdk.auth l); msg := Data r |} ->
  sends fine (Sdk.data_json header_ok display l what r).
Proof. intros Hf. unfold Sdk.data_json. apply sends_bind; [by apply sends_send|]. auto with sdk. Qed.

Lemma query_ipc_says l (fine : Sent -> Prop) pond sql :
  (forall x, says l x -> names pond (msg x) -> fine x) ->
  sends fine (Sdk.query_ipc header_ok display l pond sql).
Proof.
  intros Hf. unfold Sdk.query_ipc, Sdk.data. destruct (Sql.is_read_only sql) eqn:E; cbn [negb];
    (apply sends_bind; [apply sends_send, Hf; [|done]; by repeat split|]); auto with sdk.
Qed.

(** C14: whatever an application does with a client, every message it causes carries the
    client's claimed identity and, where it has one, its token; it goes to the control
    plane's address or to the query gateway's, whichever serves it; reads go by the stream
    and nothing else does; and a pond's handle only ever names its pond. *)
Theorem sdk_calls_say_who l :
  (forall A info (c : Sdk.Call A),
     sends (fun x => says l x /\ names (name info) (msg x)) (Sdk.on_pond header_ok display l info c)) /\
  (forall pond sql, sends (says l) (Sdk.query_ipc header_ok display l pond sql)) /\
  (forall n tier desc lin, sends (says l) (Sdk.create_pond header_ok display l n tier desc lin)) /\
  (forall pond, sends (says l) (Sdk.get_pond header_ok l pond)) /\
  sends (says l) (Sdk.list_ponds header_ok display l) /\
  (forall pond confirm, sends (says l) (Sdk.drop_pond header_ok display l pond confirm)) /\
  (forall q, sends (says l) (Sdk.list_datasets header_ok display l q)) /\
  (forall q, sends (says l) (Sdk.list_catalogs header_ok display l q)) /\
  (header_ok (identity l) = true ->
     Service.latiq_agent_id (Sdk.interceptor header_ok (Sdk.auth l)) = Some (identity l)) /\
  (forall t, token l = Some t -> header_ok ("Bearer " +:+ t) = true ->
     Service.authorization (Sdk.interceptor header_ok (Sdk.auth l)) = Some ("Bearer " +:+ t)).
Proof.
  split_and!.
  - intros A info c. destruct c; cbn [Sdk.on_pond];
      unfold Sdk.query, Sdk.snapshots, Sdk.snapshots_ipc, Sdk.describe_pond, Sdk.explain,
        Sdk.load_dataset, Sdk.describe_catalog, Sdk.pull_catalog;
      try (apply data_json_says; by repeat split);
      (apply sends_try; [apply (query_ipc_says l); by split|auto with sdk]).
  - intros pond sql. by apply (query_ipc_says l).
  - intros n tier desc lin. unfold Sdk.create_pond, Sdk.control. auto 10 with sdk.
  - intros pond. unfold Sdk.get_pond, Sdk.control. auto 10 with sdk.
  - unfold Sdk.list_ponds, Sdk.control. auto 10 with sdk.
  - intros pond confirm. unfold Sdk.drop_pond, Sdk.data. auto 10 with sdk.
  - intros q. unfold Sdk.list_datasets, Sdk.control. auto 10 with sdk.
  - intros q. unfold Sdk.list_catalogs, Sdk.control. auto 10 with sdk.
  - intros Hh. cbn. by rewrite Hh.
  - intros t Ht Hh. unfold Sdk.interceptor, Sdk.auth. cbn [b_token Service.authorization].
    rewrite Ht. cbv zeta. by rewrite Hh.
Qed.
End sending.

(** ** Waiting *)

Section waiting.
Context {W : Type} `{!Floats} `{!Arrow} `{!Ipc} `{!Serde} `{!Net W}.
Variable header_ok : string -> bool.
Notation Session := (Session W).

(** A session after some looks. *)
Fixpoint looked (k : nat) (look : Ops.M Session bool) (s : Session) : Session :=
  match k with O => s | S k => looked k look (look s).2 end.

Definition sees (k : nat) (look : Ops.M Session bool) (s : Session) : bool := (look (looked k look s)).1.

(** The first look that saw what it looked for was one of [n], and the last. *)
Definition seen (n : nat) (look : Ops.M Session bool) (s s' : Session) : Prop :=
  exists k, k < n /\ sees k look s = true /\ (forall j, j < k -> sees j look s = false) /\
    s' = looked (S k) look s.

Definition unseen (n : nat) (look : Ops.M Session bool) (s s' : Session) : Prop :=
  (forall j, j < n -> sees j look s = false) /\ s' = looked n look s.

Lemma poll_spec n look s :
  let (up, s') := Sdk.poll n look s in if up then seen n look s s' else unseen n look s s'.
Proof.
  revert s. induction n as [|n IH]; intros s; cbn; [by split; [intros j Hj; lia|]|].
  unfold Ops.bind. destruct (look s) as [[] s1] eqn:El; cbn.
  - exists 0. unfold sees. cbn. rewrite El. split_and!; [lia|done|intros j Hj; lia|done].
  - specialize (IH s1). destruct (Sdk.poll n look s1) as [[] s2].
    + destruct IH as (k & Hk & Hs & Hn & ->). exists (S k). unfold sees in *. cbn. rewrite El.
      split_and!; [lia|done| |done]. intros [|j] Hj; cbn; [by rewrite El|].
      rewrite El. apply Hn. lia.
    + destruct IH as (Hn & ->). split; [|cbn; by rewrite El]. unfold sees in *.
      intros [|j] Hj; cbn; [by rewrite El|]. rewrite El. apply Hn. lia.
Qed.

(** One look at an endpoint, and one at the nodes of a control plane. *)
Definition at_endpoint (e : string) : Ops.M Session bool :=
  if from_shared e then Sdk.dial e else ret false.

Definition at_nodes (a : BearerAuth) (e : string) : Ops.M Session bool :=
  if from_shared e then
    let! r := Sdk.send header_ok a e ListNodes in
    ret (match r with
         | Ok nodes => existsb (fun n => String.eqb (Admin.n_state n) "active") nodes
         | Err _ => false
         end)
  else ret false.

Lemma wait_connectable_spec e s :
  let (r, s') := Sdk.wait_connectable e s in
  match r with
  | Ok _ => seen 200 (at_endpoint e) s s'
  | Err m => unseen 200 (at_endpoint e) s s' /\ m = "endpoint never became connectable: " +:+ e
  end.
Proof.
  unfold Sdk.wait_connectable, Ops.bind, ret. fold (at_endpoint e).
  pose proof (poll_spec 200 (at_endpoint e) s) as Hp. destruct (Sdk.poll _ _ _) as [[] s']; done.
Qed.

Lemma wait_for_active_node_spec e a s :
  let (r, s') := Sdk.wait_for_active_node header_ok e a s in
  match r with
  | Ok _ => seen 400 (at_nodes a e) s s'
  | Err _ => unseen 400 (at_nodes a e) s s'
  end.
Proof.
  unfold Sdk.wait_for_active_node, Ops.bind at 1, ret at 3. fold (at_nodes a e).
  pose proof (poll_spec 400 (at_nodes a e) s) as Hp. destruct (Sdk.poll _ _ _) as [[] s']; done.
Qed.

(** Looking spawns nothing. *)
Lemma looked_spawned look k s :
  (forall s, spawned (look s).2 = spawned s) -> spawned (looked k look s) = spawned s.
Proof. intros Hl. revert s. induction k as [|k IH]; intros s; cbn; [done|]. by rewrite IH, Hl. Qed.

Lemma at_endpoint_spawned e s : spawned (at_endpoint e s).2 = spawned s.
Proof. unfold at_endpoint, Sdk.dial. destruct (from_shared e); [|done]. by destruct (Api.connect _ _). Qed.

Lemma at_nodes_spawned a e s : spawned (at_nodes a e s).2 = spawned s.
Proof.
  unfold at_nodes, Ops.bind, Sdk.send. destruct (from_shared e); [|done]. by destruct (rpc _ _ _ _).
Qed.

(** ** Connecting *)

Definition spawned_on (x : Spawned) (s : Session) : Session :=
  {| net := net s; sent := sent s; spawned := spawned s ++ [x] |}.

Definition embedded_root (h : Sdk.Host) (root : option PathBuf) : PathBuf :=
  default (Text.default_local_root (Sdk.home h)) root.

Definition embedded_plane (h : Sdk.Host) (root : option PathBuf) (cp : N) : Spawned :=
  ControlPlaneAt ("127.0.0.1:" +:+ pretty cp) (Fs.join (embedded_root h root) "registry.duckdb").

Definition embedded_node (h : Sdk.Host) (root : option PathBuf) (cp dp mp : N) : Spawned :=
  PondNodeWith (Sdk.local_config (embedded_root h root) ("http://127.0.0.1:" +:+ pretty cp) dp mp).

Definition at_port (p : N) : string := "http://127.0.0.1:" +:+ pretty p.

Lemma seen_spawned n look s s' :
  (forall s, spawned (look s).2 = spawned s) -> seen n look s s' -> spawned s' = spawned s.
Proof. intros Hl (k & _ & _ & _ & ->). by apply looked_spawned. Qed.

Lemma unseen_spawned n look s s' :
  (forall s, spawned (look s).2 = spawned s) -> unseen n look s s' -> spawned s' = spawned s.
Proof. intros Hl (_ & ->). by apply looked_spawned. Qed.

(** How far an embedded start got. *)
Inductive Started (h : Sdk.Host) (root : option PathBuf) (a : BearerAuth) (s : Session) :
    result (string * string) string * Session -> Prop :=
| Not_started e : Started h root a s (Err e, s)
| Plane_unseen cp dp mp e s' :
    Sdk.ports h = Ok (cp, dp, mp) ->
    unseen 200 (at_endpoint (at_port cp)) (spawned_on (embedded_plane h root cp) s) s' ->
    Started h root a s (Err e, s')
| Node_unseen cp dp mp e s1 s' :
    Sdk.ports h = Ok (cp, dp, mp) ->
    seen 200 (at_endpoint (at_port cp)) (spawned_on (embedded_plane h root cp) s) s1 ->
    unseen 400 (at_nodes a (at_port cp)) (spawned_on (embedded_node h root cp dp mp) s1) s' \/
    (exists s2, seen 400 (at_nodes a (at_port cp)) (spawned_on (embedded_node h root cp dp mp) s1) s2 /\
       unseen 200 (at_endpoint (at_port dp)) s2 s') ->
    Started h root a s (Err e, s')
| All_seen cp dp mp s1 s2 s' :
    Sdk.ports h = Ok (cp, dp, mp) ->
    seen 200 (at_endpoint (at_port cp)) (spawned_on (embedded_plane h root cp) s) s1 ->
    seen 400 (at_nodes a (at_port cp)) (spawned_on (embedded_node h root cp dp mp) s1) s2 ->
    seen 200 (at_endpoint (at_port dp)) s2 s' ->
    Started h root a s (Ok (at_port cp, at_port dp), s').

Lemma started h root a s :
  Started h root a s
    (Sdk.start header_ok (embedded_root h root) (Sdk.made h (embedded_root h root)) (Sdk.ports h)
       (Sdk.opened h (embedded_root h root)) a s).
Proof.
  unfold Sdk.start, Ops.try, Ops.bind, ret.
  destruct (Sdk.made h _) as [[]|e]; [|by constructor].
  destruct (Sdk.ports h) as [[[cp dp] mp]|e] eqn:Hp; [|by constructor].
  destruct (Sdk.opened h _) as [[]|e]; cbn [map_err]; [|by constructor].
  unfold Sdk.spawn. change ("http://127.0.0.1:" +:+ pretty cp) with (at_port cp).
  change ("http://127.0.0.1:" +:+ pretty dp) with (at_port dp).
  fold (embedded_plane h root cp). fold (spawned_on (embedded_plane h root cp) s).
  pose proof (wait_connectable_spec (at_port cp) (spawned_on (embedded_plane h root cp) s)) as Hw1.
  destruct (Sdk.wait_connectable _ _) as [[[]|e] s1]; [|destruct Hw1 as [Hw1 _]; by eapply Plane_unseen].
  change (PondNodeWith _) with (embedded_node h root cp dp mp).
  fold (spawned_on (embedded_node h root cp dp mp) s1).
  pose proof (wait_for_active_node_spec (at_port cp) a (spawned_on (embedded_node h root cp dp mp) s1)) as Hw2.
  destruct (Sdk.wait_for_active_node _ _ _ _) as [[[]|e] s2];
    [|by eapply Node_unseen; [exact Hp|exact Hw1|left]].
  pose proof (wait_connectable_spec (at_port dp) s2) as Hw3.
  destruct (Sdk.wait_connectable _ s2) as [[[]|e] s3]; [by eapply All_seen|].
  destruct Hw3 as [Hw3 _]. eapply Node_unseen; [exact Hp|exact Hw1|]. right. by exists s2.
Qed.

Lemma client_on_spec c d tok :
  match Sdk.client_on c d tok with
  | Ok l => control_endpoint l = c /\ data_endpoint l = d /\ identity l = "sdk" /\ token l = tok
  | Err m => exists e, from_shared e = false /\ m = "invalid endpoint " +:+ e
  end.
Proof.
  unfold Sdk.client_on, Sdk.lazy_channel.
  destruct (from_shared c) eqn:Ec; cbn; [|by exists c]. destruct (from_shared d) eqn:Ed; cbn; [done|by exists d].
Qed.

(** What is spawned once the plane was seen, whatever became of the node. *)
Lemma plane_then_node h root cp node (s s1 s' : Session) :
  seen 200 (at_endpoint (at_port cp)) (spawned_on (embedded_plane h root cp) s) s1 ->
  spawned s' = spawned (spawned_on node s1) ->
  spawned s' = spawned s ++ [embedded_plane h root cp; node].
Proof.
  intros Hw ->. apply seen_spawned in Hw; [|by intros; apply at_endpoint_spawned].
  cbn. rewrite Hw. cbn. by rewrite <- app_assoc.
Qed.

(** C38: connecting ends, with a client that can be used or with the reason it cannot.  A
    remote client is handed out once its control plane was reached, in at most two hundred
    looks, with both addresses normalized, and one that never was reached says so.  An
    embedded client is handed out once a control plane was reached, then a node was seen
    active there, then that node's data port was reached, on the addresses those have; its
    node is only ever spawned after its control plane was reached, and nothing else is
    spawned.  Either way the client is the default one, with the token that was resolved. *)
Theorem connecting_ends h server root gw tok s :
  let token' := Text.resolve_token tok (Sdk.latiq_token h) in
  let a := {| b_identity := "sdk"; b_token := token' |} in
  let (r, s') := Sdk.connect_with_token header_ok h server root gw tok s in
  (forall l, r = Ok l -> identity l = "sdk" /\ token l = token') /\
  if String.eqb server "local" then
    match r with
    | Ok l => exists cp dp mp s1 s2,
        control_endpoint l = at_port cp /\ data_endpoint l = at_port dp /\
        seen 200 (at_endpoint (at_port cp)) (spawned_on (embedded_plane h root cp) s) s1 /\
        seen 400 (at_nodes a (at_port cp)) (spawned_on (embedded_node h root cp dp mp) s1) s2 /\
        seen 200 (at_endpoint (at_port dp)) s2 s' /\
        spawned s' = spawned s ++ [embedded_plane h root cp; embedded_node h root cp dp mp]
    | Err _ =>
        spawned s' = spawned s \/
        exists cp dp mp,
          spawned s' = spawned s ++ [embedded_plane h root cp] \/
          (exists s1, seen 200 (at_endpoint (at_port cp)) (spawned_on (embedded_plane h root cp) s) s1) /\
          spawned s' = spawned s ++ [embedded_plane h root cp; embedded_node h root cp dp mp]
    end
  else
    spawned s' = spawned s /\
    match r with
    | Ok l =>
        control_endpoint l = Text.normalize_endpoint server /\
        data_endpoint l = from_option Text.normalize_endpoint (Text.normalize_endpoint server) gw /\
        seen 200 (at_endpoint (Text.normalize_endpoint server)) s s'
    | Err m =>
        unseen 200 (at_endpoint (Text.normalize_endpoint server)) s s' /\
        m = "connecting to control plane at " +:+ server \/
        exists e, from_shared e = false /\ m = "invalid endpoint " +:+ e
    end.
Proof.
  intros token' a. unfold Sdk.connect_with_token, Ops.try, Ops.bind, ret. fold token'.
  pose proof (fun c d => client_on_spec c d token') as Hc.
  destruct (String.eqb server "local").
  - fold (embedded_root h root). change (Text.DEFAULT_IDENTITY) with "sdk". fold a.
    pose proof (started h root a s) as Hs. pose proof at_endpoint_spawned as He.
    pose proof (at_nodes_spawned a) as Hn.
    destruct Hs as [e|cp dp mp e s' Hp Hu|cp dp mp e s1 s' Hp Hw1 Hu|cp dp mp s1 s2 s' Hp Hw1 Hw2 Hw3].
    + split; [done|by left].
    + split; [done|right]. apply unseen_spawned in Hu; [|by intros; apply He]. exists cp, dp, mp. by left.
    + split; [done|right]. exists cp, dp, mp. right. split; [by exists s1|].
      eapply plane_then_node; [done|]. destruct Hu as [Hu|(s2 & Hw2 & Hu)].
      * by apply unseen_spawned in Hu; [|intros; apply Hn].
      * apply unseen_spawned in Hu; [|by intros; apply He].
        apply seen_spawned in Hw2; [|by intros; apply Hn]. congruence.
    + specialize (Hc (at_port cp) (at_port dp)).
      assert (Hs' : spawned s' = spawned s ++ [embedded_plane h root cp; embedded_node h root cp dp mp]).
      { eapply plane_then_node; [done|]. pose proof Hw2 as Hq2. pose proof Hw3 as Hq3.
        apply seen_spawned in Hq2; [|by intros; apply Hn]. apply seen_spawned in Hq3; [|by intros; apply He].
        congruence. }
      destruct (Sdk.client_on _ _ _) as [l|m].
      * destruct Hc as (? & ? & ? & ?). split; [by intros ? [= <-]|]. by exists cp, dp, mp, s1, s2.
      * split; [done|]. right. exists cp, dp, mp. right. split; [by exists s1|done].
  - pose proof (wait_connectable_spec (Text.normalize_endpoint server) s) as Hw.
    destruct (Sdk.wait_connectable _ s) as [[[]|e] s'].
    + specialize (Hc (Text.normalize_endpoint server)
        (from_option Text.normalize_endpoint (Text.normalize_endpoint server) gw)).
      pose proof Hw as Hq. apply seen_spawned in Hq; [|by intros; apply at_endpoint_spawned].
      destruct (Sdk.client_on _ _ _) as [l|m]; [|by split; [|split; [|right]]].
      destruct Hc as (? & ? & ? & ?). split; [by intros ? [= <-]|]. by split.
    + split; [done|]. destruct Hw as [Hu _]. split; [|by left].
      apply unseen_spawned in Hu; [done|]. intros. apply at_endpoint_spawned.
Qed.
End waiting.

(** ** Texts *)

Section texts.

(** a token given, were it blank, is never replaced by the environment's, and what is
    presented is never blank nor padded; an endpoint is always one that can be dialled by
    its scheme. *)
Theorem client_texts_spec explicit env server :
  (Text.resolve_token (Some explicit) env = Text.resolve_token (Some explicit) None) /\
  (forall e t, Text.resolve_token e env = Some t -> t <> EmptyString /\ trim t = t) /\
  (exists rest, Text.normalize_endpoint server = "http://" +:+ rest \/
     Text.normalize_endpoint server = "https://" +:+ rest).
Proof.
  split_and!.
  - done.
  - intros e t. unfold Text.resolve_token. case_match; [|done].
    destruct (String.eqb_spec (trim s) EmptyString); [done|]. intros [= <-]. split; [done|apply trim_idem].
  - unfold Text.normalize_endpoint. destruct (strip_prefix _ _) as [rest|]; [exists rest; by left|].
    destruct (starts_with "http://" (trim server)) eqn:E1; cbn [orb].
    { apply starts_with_spec in E1 as [r ->]. exists r. by left. }
    destruct (starts_with "https://" (trim server)) eqn:E2; [|eexists; by left].
    apply starts_with_spec in E2 as [r ->]. exists r. by right.
Qed.

Lemma ascii_lowercase_app s t :
  ascii_lowercase (s +:+ t) = ascii_lowercase s +:+ ascii_lowercase t.
Proof. induction s as [|a s IH]; cbn; [done|]. by rewrite IH. Qed.

Lemma blank_separators_app s t :
  Sql.blank_separators (s +:+ t) = Sql.blank_separators s +:+ Sql.blank_separators t.
Proof. induction s as [|a s IH]; cbn; [done|]. by rewrite IH. Qed.

Lemma to_lowercase_ascii s : is_ascii s = true -> to_lowercase s = ascii_lowercase s.
Proof.
  induction s as [|a s IH]; [done|]. intros Hs. unfold to_lowercase.
  change (String a s) with (String a EmptyString +:+ s). unfold is_ascii in *. cbn in Hs.
  apply andb_true_iff in Hs as [Ha Hs].
  rewrite chars_ascii_app by (unfold is_ascii; cbn; by rewrite Ha).
  rewrite map_app, str_concat_app. fold (to_lowercase s). rewrite (IH Hs).
  destruct a as [b0 b1 b2 b3 b4 b5 b6 [|]]; [done|]. reflexivity.
Qed.

(** What a legal name is made of is in no way special to the classifier. *)
Lemma legal_byte_plain a : PondName.legal_byte a = true ->
  is_ascii_byte a = true /\ Ascii.eqb "034" a = false /\ Sql.separator (lower_ascii a) = false /\
  Ascii.eqb " " (lower_ascii a) = false.
Proof. destruct a as [[] [] [] [] [] [] [] []]; by vm_compute. Qed.

Lemma legal_name_plain n : all_bytes PondName.legal_byte n = true ->
  is_ascii n = true /\ replace_ascii "034" (dq +:+ dq) n = n /\
  Sql.blank_separators (ascii_lowercase n) = ascii_lowercase n /\ no_byte " " (ascii_lowercase n).
Proof.
  induction n as [|a n IH]; [done|]. cbn [all_bytes]. intros [Ha Hn]%andb_true_iff.
  destruct (legal_byte_plain a Ha) as (Hx & Hq & Hs & Hb). destruct (IH Hn) as (Hi & Hr & Hbl & Hno).
  unfold is_ascii, no_byte in *. cbn [all_bytes replace_ascii ascii_lowercase Sql.blank_separators].
  rewrite Hx, Hi, Hq, Hr, Hs, Hbl, Hb, Hno. done.
Qed.

Definition snapshot_words (n : string) : list string :=
  ["select"; "*"; "from"; dq +:+ ascii_lowercase n +:+ dq +:+ ".snapshots"; EmptyString; EmptyString;
   "order"; "by"; "snapshot_id"].

Lemma lowered_snapshots n : all_bytes PondName.legal_byte n = true ->
  to_lowercase (trim_start (Text.snapshots_sql n)) =
    "select * from " +:+ (dq +:+ ascii_lowercase n +:+ dq) +:+ ".snapshots() order by snapshot_id".
Proof.
  intros Hn. destruct (legal_name_plain n Hn) as (Hi & Hr & _).
  unfold Text.snapshots_sql, Text.quote_ident. rewrite Hr.
  assert (Ht : forall r, trim_start ("SELECT" +:+ r) = "SELECT" +:+ r).
  { intros r. unfold trim_start. rewrite chars_ascii_app by done.
    change (skip_while is_whitespace (chars "SELECT" ++ chars r)) with (chars "SELECT" ++ chars r).
    by rewrite str_concat_app, !str_concat_chars. }
  change ("SELECT * FROM " +:+ ?r) with ("SELECT" +:+ (" * FROM " +:+ r)).
  rewrite Ht, to_lowercase_ascii; [by rewrite !ascii_lowercase_app|].
  unfold is_ascii in *. by rewrite !all_bytes_app, Hi.
Qed.

Lemma words_snapshots n : all_bytes PondName.legal_byte n = true ->
  words (to_lowercase (trim_start (Text.snapshots_sql n))) = snapshot_words n.
Proof.
  intros Hn. destruct (legal_name_plain n Hn) as (_ & _ & Hbl & Hno).
  rewrite lowered_snapshots by done. unfold words. rewrite !blank_separators_app, Hbl.
  change (Sql.blank_separators "select * from ") with "select * from ".
  change (Sql.blank_separators dq) with dq.
  change (Sql.blank_separators ".snapshots() order by snapshot_id")
    with (".snapshots" +:+ String " " (String " " (String " " "order by snapshot_id"))).
  set (X := dq +:+ ascii_lowercase n +:+ dq +:+ ".snapshots").
  assert (HX : (dq +:+ ascii_lowercase n +:+ dq) +:+
            (".snapshots" +:+ String " " (String " " (String " " "order by snapshot_id")))
            = X +:+ String " " (String " " (String " " "order by snapshot_id")))
    by (unfold X; by rewrite !str_app_assoc).
  rewrite HX. change ("select * from " +:+ ?r)
    with ("select" +:+ String " " ("*" +:+ String " " ("from" +:+ String " " r))).
  rewrite !split_byte_cons; [reflexivity| |done..].
  unfold X, no_byte in *. rewrite !all_bytes_app, Hno. reflexivity.
Qed.

Lemma snapshot_words_plain n :
  Forall (fun w => existsb (String.eqb w) ("start" :: "end" :: SINGLE) = false) (snapshot_words n).
Proof. unfold snapshot_words. repeat constructor. Qed.

(** the statement a client writes itself names one pond: read with SQL's own quoting
    rule, it is one identifier, exactly the name given, between two fixed texts; and for a
    name a pond can have it is a read, so a history is always streamed and never sent as a
    write. *)
Theorem snapshots_is_one_read n :
  (exists rest, Text.snapshots_sql n = "SELECT * FROM " +:+ dq +:+ rest /\
     lex_quoted "034" rest = Some (n, ".snapshots() ORDER BY snapshot_id")) /\
  (PondName.legal n -> Sql.is_read_only (Text.snapshots_sql n) = true).
Proof.
  split.
  - unfold Text.snapshots_sql, Text.quote_ident.
    exists (replace_ascii "034" (dq +:+ dq) n +:+ dq +:+ ".snapshots() ORDER BY snapshot_id").
    split; [by rewrite !str_app_assoc|]. by apply lex_quoted_escaped.
  - intros [_ Hn]. unfold Sql.is_read_only. apply bool_decide_eq_true, classify_read_spec.
    cbv zeta.
    pose proof (words_snapshots n Hn) as Hw.
    assert (Hk : forall k, k ∈ "start" :: "end" :: SINGLE ->
              k ∉ words (to_lowercase (trim_start (Text.snapshots_sql n)))).
    { intros k Hk. rewrite Hw. intros Hin. apply existsb_eqb_elem_of in Hk.
      pose proof (snapshot_words_plain n) as Hp. rewrite Forall_forall in Hp. by rewrite Hp in Hk. }
    split_and!.
    + exists "select". eexists. split; [by left|]. rewrite lowered_snapshots by done. reflexivity.
    + intros k Hin. apply Hk. by do 2 right.
    + intros p Hp. apply not_true_iff_false. intros Hc. apply str_contains_spec in Hc as (a & b & Hc).
      assert (Hword : forall k, k ∈ ["start"; "end"] -> p = " " +:+ k +:+ " transaction " -> False).
      { intros k Hin ->. destruct (Hk k) as [].
        { change ("start" :: "end" :: SINGLE) with (["start"; "end"] ++ SINGLE). apply elem_of_app. by left. }
        apply contains_word.
        1-2: by repeat (apply elem_of_cons in Hin as [->|Hin]; [done|]); apply elem_of_nil in Hin.
        apply str_contains_spec. exists a, ("transaction " +:+ b). rewrite Hc.
        by rewrite !str_app_assoc. }
      unfold PHRASES in Hp. apply elem_of_cons in Hp as [->|Hp]; [by eapply (Hword "start"); [by left|]|].
      apply elem_of_cons in Hp as [->|Hp]; [by eapply (Hword "end"); [by right; left|]|]. by apply elem_of_nil in Hp.
Qed.
End texts.

(** ** The embedded node *)

Section embedded.
Context `{!Urls} `{!McpUrls}.

(** A node an embedded cluster starts has no setting that can be wrong: once its extensions
    load it has passed every check, it verifies nobody, and all it binds or gives out is on
    the loopback. *)
Lemma embedded_node_is_checked debug o root control_endpoint dp mp :
  extensions o = Ok (Ok tt) ->
  let cfg := Sdk.local_config root control_endpoint dp mp in
  (exists url, checked debug o cfg None url) /\
  (forall a, a ∈ [Flags.mcp_addr cfg; Flags.data_addr cfg] -> starts_with "127.0.0.1:" (addr_text a) = true) /\
  starts_with "http://127.0.0.1:" (Flags.internal_endpoint cfg) = true.
Proof.
  intros He cfg. split_and!.
  - eexists. split; [exact He|done|reflexivity|]. by intros b.
  - intros a Ha. apply elem_of_cons in Ha as [->|Ha%list_elem_of_singleton]; [|subst a];
      by apply starts_with_spec; eexists.
  - by apply starts_with_spec; eexists.
Qed.
End embedded.
