(* ===== verification/SdkSample.v ===== *)
(** * A client of one node

    The SDK's theorems at work: a client with a token reads from a node behind a
    verifier, over a byte-wise framing of Arrow that may be cut anywhere. *)
From S2P Require Import Prelude Errors Policy Common Deadline Plan Interfaces Auth AuthSpec Wire WireSpec.
From S2P Require Import Registry RegistrySpec ControlPlane ControlPlaneSpec Ops OpsResult DataService Forward ForwardSpec.
From S2P Require Import ForwardSample Mcp Storage Cli Serve ServeSpec Sdk SdkSpec.
Import Types Rpc Api.
#[local] Open Scope rust_scope.
#[local] Arguments String.append !_ _ / : simpl nomatch.

Module Client.
Import TwoNodes.

(** ** A framing

    A letter, the payload with a dot before every byte, and a semicolon. *)
Inductive Phase := Start | In (kind : ascii) (acc : string) | Escaped (kind : ascii) (acc : string).

Record Machine := { known : option (list string); phase : Phase }.

Inductive Stepped := Onward (m : Machine) | Yields (b : list string) (m : Machine) | Fails (e : string).

Definition at_phase (m : Machine) (p : Phase) : Stepped := Onward {| known := known m; phase := p |}.

Definition step (a : ascii) (m : Machine) : Stepped :=
  match phase m with
  | Start => at_phase m (In a EmptyString)
  | Escaped k acc => at_phase m (In k (acc +:+ String a EmptyString))
  | In k acc =>
      if Ascii.eqb a "." then at_phase m (Escaped k acc)
      else
        match frame_of acc with
        | None => Fails "bad frame"
        | Some l =>
            if Ascii.eqb k "S" then Onward {| known := Some l; phase := Start |}
            else Yields l {| known := known m; phase := Start |}
        end
  end.

Fixpoint eat (buf : string) (m : Machine) : (result (option (list string)) string * string) * Machine :=
  match buf with
  | EmptyString => ((Ok None, EmptyString), m)
  | String a buf =>
      match step a m with
      | Onward m => eat buf m
      | Yields b m => ((Ok (Some b), buf), m)
      | Fails e => ((Err e, EmptyString), m)
      end
  end.

Fixpoint dotted (s : string) : string :=
  match s with EmptyString => ";" | String a s => String "." (String a (dotted s)) end.

Definition frame (kind : ascii) (l : list string) : string :=
  String kind (dotted (pos_to_string (encode l))).

Lemma eat_consumes buf m b rest m' :
  eat buf m = ((Ok (Some b), rest), m') -> String.length rest < String.length buf.
Proof.
  revert m. induction buf as [|a buf IH]; intros m; cbn; [done|]. destruct (step a m).
  - intros Hb. apply IH in Hb. lia.
  - intros [= _ <- _]. lia.
  - done.
Qed.

Lemma eat_dotted s rest k acc kn :
  eat (dotted s +:+ rest) {| known := kn; phase := In k acc |} =
  eat (String ";" rest) {| known := kn; phase := In k (acc +:+ s) |}.
Proof.
  revert acc. induction s as [|a s IH]; intros acc.
  - cbn [dotted]. by rewrite str_app_nil_r.
  - cbn [dotted]. change (String "." (String a (dotted s)) +:+ rest)
      with (String "." (String a (dotted s +:+ rest))).
    cbn [eat step phase at_phase Ascii.eqb Bool.eqb known]. rewrite IH.
    change (String a s) with (String a EmptyString +:+ s). by rewrite str_app_assoc.
Qed.

Lemma eat_frame k l kn :
  eat (frame k l) {| known := kn; phase := Start |} =
    if Ascii.eqb k "S" then ((Ok None, EmptyString), {| known := Some l; phase := Start |})
    else ((Ok (Some l), EmptyString), {| known := kn; phase := Start |}).
Proof.
  unfold frame. cbn [eat step phase at_phase known].
  rewrite <- (str_app_nil_r (dotted _)), eat_dotted. cbn [String.append].
  cbn [eat step phase Ascii.eqb Bool.eqb]. rewrite frame_round.
  by destruct (Ascii.eqb k "S").
Qed.

#[local] Instance machine : Ipc :=
  {| writer := unit; decoder := Machine;
     try_new := fun sc => Ok (tt, frame "S" sc); write := fun b _ => Ok (tt, frame "B" b);
     finish := fun _ => Ok EmptyString; decoder_new := {| known := None; phase := Start |};
     DataService.decode := eat; decoded_schema := known; decode_consumes := eat_consumes |}.

#[local, refine] Instance machine_laws : IpcLaws :=
  {| in_step := fun sc _ d => d = {| known := Some sc; phase := Start |} |}.
Proof.
  - intros sc w bytes [= <- <-]. eexists. split; [exact (eat_frame "S" sc None)|done].
  - intros sc w d b w' bytes -> [= <- <-]. eexists. split; [exact (eat_frame "B" b (Some sc))|done].
  - intros sc w d bytes -> [= <-]. by eexists.
Defined.

#[local] Instance machine_cuts : Chunking.
Proof.
  split.
  - intros buf more d d'. cbn. revert d. induction buf as [|a buf IH]; intros d; cbn; [by intros [= ->]|].
    destruct (step a d); [apply IH|done..].
  - intros buf more d d' b rest. cbn. revert d. induction buf as [|a buf IH]; intros d; cbn; [done|].
    destruct (step a d); [apply IH|by intros [= -> -> ->]|done].
Defined.

(** ** A read *)

Definition client : Latiq :=
  Build_Latiq "http://cp" "http://n1" "cli" (Some token).

Definition session : Session Cluster.Peers := {| net := {["http://n1" := owner]}; sent := []; spawned := [] |}.

Definition shown (st : Rpc.Status) : string := Rpc.message st.

Definition unimplemented : Status :=
  {| code := Other 12; message := "unimplemented"; details := EmptyString; www_authenticate := None |}.

#[local] Instance here : Net (Cluster.Peers (F := unit)) :=
  nodes_net no_peer visible refused valid_uri unimplemented.

Lemma sdk_reads_arrive_whole_witness :
  (Sdk.query visible shown client "sales" "SELECT n FROM t" session).1 = Ok [["1"; "2"]; ["3"]].
Proof.
  pose proof (sdk_reads_arrive_whole no_peer visible refused valid_uri shown unimplemented client "sales"
    "SELECT n FROM t" session owner alice (Some token)) as Hp.
  cbv zeta in Hp.
  specialize (Hp ltac:(by vm_compute) (lookup_singleton_eq _ _) ltac:(by vm_compute)).
  destruct (Sdk.query _ _ _ _ _ _) as [answer s']. destruct Hp as [_ Hp].
  match type of Hp with match ?x with _ => _ end => set (out := x) in Hp end.
  assert (Ho : exists read, out = Ok read /\ batches read = map Ok [["1"; "2"]; ["3"]]).
  { eexists. split; vm_compute; reflexivity. }
  destruct Ho as (read & He & Hb). rewrite He in Hp. destruct Hp as (_ & _ & Hall).
  apply Hall; [exact Hb|done|done].
Defined.
End Client.
