(* ===== verification/Migrations.v ===== *)
(** * The registry's schema

    Models [latiq-control-plane/src/migrations.rs]: the migrations as the statements they
    are made of, and [run_migrations] over a database that is its tables.  A statement
    takes effect by itself, so what fails half way stays half done.  Of the database the
    model keeps what migrations can tell apart: which tables there are, their columns and
    primary keys, and their rows; a value is its text. *)
From S2P Require Import Prelude Registry.
#[local] Open Scope rust_scope.
#[local] Arguments String.append !_ _ / : simpl nomatch.

(** ** Tables *)

Inductive Default := Value (s : string) | CurrentTimestamp.

Record Column := { col : string; decl : string; dflt : option Default }.

(** A row: what it holds under which column. *)
Notation Row := (list (string * string)).

Definition get (k : string) (r : Row) : option string :=
  snd <$> find (fun p => String.eqb p.1 k) r.

Record Table := { columns : list Column; key : list string; rows : list Row }.

Inductive Stmt :=
| CreateTable (name : string) (columns : list Column) (key : list string)
| AddColumn (table : string) (c : Column)
| Insert (table : string) (into : list string) (values : list (list string))
| DropTableIfExists (name : string).

(** [versions] is the table of schema versions, once there is one. *)
Record Db := { tables : gmap string Table; versions : option (list Z) }.

Definition with_tables (db : Db) (t : gmap string Table) : Db :=
  {| tables := t; versions := versions db |}.

Section exec.
(** What the database says of a statement it refuses, and the time. *)
Variable refusal : Stmt -> string.
Variable now : string.

Definition value_of (d : Default) : string :=
  match d with Value s => s | CurrentTimestamp => now end.

Definition with_default (r : Row) (c : Column) : Row :=
  match get (col c) r, dflt c with
  | None, Some d => r ++ [(col c, value_of d)]
  | _, _ => r
  end.

Definition row_of (cs : list Column) (into values : list string) : Row :=
  foldl with_default (zip into values) cs.

Definition same_key (key : list string) (a b : Row) : bool :=
  forallb (fun k => bool_decide (get k a = get k b)) key.

Fixpoint insert_rows (t : Table) (into : list string) (values : list (list string)) : option Table :=
  match values with
  | [] => Some t
  | v :: values =>
      let r := row_of (columns t) into v in
      if existsb (same_key (key t) r) (rows t) then None
      else insert_rows {| columns := columns t; key := key t; rows := rows t ++ [r] |} into values
  end.

Definition exec (s : Stmt) (db : Db) : result Db string :=
  match s with
  | CreateTable name cs k =>
      match tables db !! name with
      | Some _ => Err (refusal s)
      | None => Ok (with_tables db (<[name := {| columns := cs; key := k; rows := [] |}]> (tables db)))
      end
  | AddColumn name c =>
      match tables db !! name with
      | None => Err (refusal s)
      | Some t =>
          if existsb (fun c' => String.eqb (col c') (col c)) (columns t) then Err (refusal s)
          else
            Ok (with_tables db (<[name := {| columns := columns t ++ [c]; key := key t;
                                             rows := map (fun r => with_default r c) (rows t) |}]>
                                  (tables db)))
      end
  | Insert name into values =>
      match t ← tables db !! name; insert_rows t into values with
      | None => Err (refusal s)
      | Some t => Ok (with_tables db (<[name := t]> (tables db)))
      end
  | DropTableIfExists name => Ok (with_tables db (delete name (tables db)))
  end.

(** [execute_batch]: up to the first statement that is refused. *)
Fixpoint execute_batch (ddl : list Stmt) (db : Db) : result unit string * Db :=
  match ddl with
  | [] => (Ok tt, db)
  | s :: ddl => match exec s db with Ok db => execute_batch ddl db | Err e => (Err e, db) end
  end.

Definition current (db : Db) : Z := foldr Z.max 0%Z (default [] (versions db)).

Definition record_version (v : Z) (db : Db) : Db :=
  {| tables := tables db; versions := Some (default [] (versions db) ++ [v]) |}.

(** [version] is that of the first of [ddls]. *)
Fixpoint migrate_from (current version : Z) (ddls : list (list Stmt)) (db : Db) :
    result unit string * Db :=
  match ddls with
  | [] => (Ok tt, db)
  | ddl :: ddls =>
      if (current <? version)%Z then
        match execute_batch ddl db with
        | (Ok _, db) => migrate_from current (version + 1) ddls (record_version version db)
        | (Err e, db) => (Err e, db)
        end
      else migrate_from current (version + 1) ddls db
  end.

(** ** The migrations *)

Definition c (col decl : string) (d : option Default) : Column := {| col := col; decl := decl; dflt := d |}.
Definition text_key (n : string) : Column := c n "VARCHAR PRIMARY KEY" None.
Definition text (n : string) : Column := c n "VARCHAR NOT NULL" None.
Definition text_or (n s : string) : Column := c n "VARCHAR NOT NULL" (Some (Value s)).
Definition stamp (n : string) : Column := c n "TIMESTAMP NOT NULL" (Some CurrentTimestamp).

Definition v1 : list Stmt :=
  [CreateTable "nodes"
     [text_key "node_id"; text "mcp_endpoint"; text "internal_endpoint";
      c "capacity" "UINTEGER NOT NULL" None; c "pond_count" "UINTEGER NOT NULL" (Some (Value "0"));
      text_or "state" "active"; stamp "last_heartbeat"] ["node_id"];
   CreateTable "ponds"
     [text_key "pond_id"; c "name" "VARCHAR NOT NULL UNIQUE" None; text "owner_identity";
      text "node_id"; text_or "policy_json" "{}"; stamp "created_at"; text_or "state" "active"]
     ["pond_id"];
   CreateTable "policy" [text_key "key"; text "value"] ["key"];
   CreateTable "audit_log"
     [text_key "audit_id"; stamp "ts"; text "agent_identity";
      c "identity_verified" "BOOLEAN NOT NULL" None; text "operation"; c "pond_id" "VARCHAR" None;
      c "request_summary" "VARCHAR" None; c "result_summary" "VARCHAR" None;
      c "duration_ms" "UBIGINT NOT NULL" (Some (Value "0"))] ["audit_id"];
   Insert "policy" ["key"; "value"]
     [["default_pond_lifetime_seconds"; "3600"]; ["query_timeout_seconds"; "30"]]].

Definition v2 : list Stmt := [AddColumn "ponds" (c "tier" "VARCHAR" (Some (Value "medium")))].
Definition v3 : list Stmt := [AddColumn "ponds" (c "extensions" "VARCHAR" (Some (Value EmptyString)))].

Definition v4 : list Stmt :=
  [CreateTable "catalogs"
     [text_key "name"; text "type"; text_or "params_json" "{}"; text_or "description" EmptyString;
      text_or "created_by" "anonymous"; stamp "created_at"] ["name"];
   CreateTable "catalog_tags" [text "catalog"; text "tag"] ["catalog"; "tag"];
   CreateTable "datasets"
     [text_key "name"; text_or "description" EmptyString; text_or "created_by" "anonymous";
      stamp "created_at"] ["name"];
   CreateTable "dataset_tables"
     [text "dataset"; text "table_name"; text "source_uri"; text_or "format" "auto"]
     ["dataset"; "table_name"];
   CreateTable "dataset_tags" [text "dataset"; text "tag"] ["dataset"; "tag"];
   Insert "datasets" ["name"; "description"; "created_by"]
     [["startrek"; "Star Trek Season 1 scripts — CSV, ~2 KB"; "latiq"];
      ["holdings"; "Example stock holdings — CSV, ~300 B"; "latiq"];
      ["tpch"; "TPC-H scale 0.01 — 8 tables, Parquet, a few MB"; "latiq"];
      ["taxi"; "NYC yellow-taxi, Apr 2019 — Parquet, ~127 MB (large)"; "latiq"]];
   Insert "dataset_tables" ["dataset"; "table_name"; "source_uri"]
     [["startrek"; "startrek"; "https://blobs.duckdb.org/data/Star_Trek-Season_1.csv"];
      ["holdings"; "holdings"; "https://duckdb.org/data/holdings.csv"];
      ["tpch"; "lineitem"; "https://shell.duckdb.org/data/tpch/0_01/parquet/lineitem.parquet"];
      ["tpch"; "orders"; "https://shell.duckdb.org/data/tpch/0_01/parquet/orders.parquet"];
      ["tpch"; "customer"; "https://shell.duckdb.org/data/tpch/0_01/parquet/customer.parquet"];
      ["tpch"; "part"; "https://shell.duckdb.org/data/tpch/0_01/parquet/part.parquet"];
      ["tpch"; "supplier"; "https://shell.duckdb.org/data/tpch/0_01/parquet/supplier.parquet"];
      ["tpch"; "partsupp"; "https://shell.duckdb.org/data/tpch/0_01/parquet/partsupp.parquet"];
      ["tpch"; "nation"; "https://shell.duckdb.org/data/tpch/0_01/parquet/nation.parquet"];
      ["tpch"; "region"; "https://shell.duckdb.org/data/tpch/0_01/parquet/region.parquet"];
      ["taxi"; "taxi"; "https://blobs.duckdb.org/data/taxi_2019_04.parquet"]];
   Insert "dataset_tags" ["dataset"; "tag"]
     [["startrek"; "sample"]; ["holdings"; "sample"]; ["tpch"; "sample"]; ["tpch"; "tpch"];
      ["taxi"; "sample"]]].

Definition v5 : list Stmt := [DropTableIfExists "audit_log"].
Definition v6 : list Stmt := [AddColumn "ponds" (c "description" "VARCHAR" (Some (Value EmptyString)))].
Definition v7 : list Stmt := [AddColumn "ponds" (c "lineage" "BOOLEAN" (Some (Value "false")))].

Definition MIGRATIONS : list (list Stmt) := [v1; v2; v3; v4; v5; v6; v7].

Definition run_migrations (db : Db) : result unit string * Db :=
  let db := {| tables := tables db; versions := Some (default [] (versions db)) |} in
  migrate_from (current db) 1 MIGRATIONS db.
End exec.
