(* ===== verification/MigrationsSpec.v ===== *)
(** * The registry's schema, from any version

    Whatever version a registry was left at, and whatever it holds, opening it leads to
    the one schema, keeps its rows, and gives each the defaults of the columns it gains;
    a new registry holds the seeds [open_fresh] has.  A migration that was cut off between
    its statements and its version row is never got over. *)
From S2P Require Import Prelude Registry Migrations.
#[local] Open Scope rust_scope.
#[local] Arguments String.append !_ _ / : simpl nomatch.

Section converge.
Variable refusal : Stmt -> string.
Variable now : string.
Notation run := (run_migrations refusal now).

Definition empty : Db := {| tables := ∅; versions := None |}.

(** The first [n] migrations, and the rows they leave. *)
Definition built (n : nat) : Db := (execute_batch refusal now (concat (take n MIGRATIONS)) empty).2.

(** The tables of [b], each with its rows from elsewhere. *)
Definition with_rows (f : string -> Table -> list Row) (b : gmap string Table) : gmap string Table :=
  map_imap (fun name t => Some {| columns := columns t; key := key t; rows := f name t |}) b.

(** A registry left at version [n], with any rows in its tables. *)
Definition at_version (n : nat) (held : string -> list Row) : Db :=
  {| tables := with_rows (fun name _ => held name) (tables (built n));
     versions := Some (map Z.of_nat (seq 1 n)) |}.

(** The columns a table gains after version [n]. *)
Definition gains (n : nat) (name : string) : list Column :=
  omap (fun s => match s with
                 | AddColumn t c => if String.eqb t name then Some c else None
                 | _ => None
                 end) (concat (drop n MIGRATIONS)).

Definition upgraded (n : nat) (name : string) (held : list Row) : list Row :=
  foldl (fun rs c => map (fun r => with_default now r c) rs) held (gains n name).

(** What an open leaves: the last schema; a table that was there keeps its rows, and one
    that was not has its seeds. *)
Definition final (n : nat) (held : string -> list Row) : Db :=
  {| tables := with_rows (fun name t =>
                 match tables (built n) !! name with
                 | Some _ => upgraded n name (held name)
                 | None => rows t
                 end) (tables (built 7));
     versions := Some (map Z.of_nat (seq 1 7)) |}.

Lemma run_at_version n held : n <= 7 -> run (at_version n held) = (Ok tt, final n held).
Proof. intros Hn. do 8 (destruct n as [|n]; [vm_compute; reflexivity|]). lia. Qed.

Lemma with_rows_again f b :
  with_rows (fun name _ => default [] (rows <$> with_rows f b !! name)) b = with_rows f b.
Proof.
  apply map_eq. intros name. unfold with_rows. rewrite !map_lookup_imap.
  by destruct (b !! name).
Qed.

Lemma with_rows_ext f g b :
  (forall name t, b !! name = Some t -> f name t = g name t) -> with_rows f b = with_rows g b.
Proof.
  intros Hfg. apply map_eq. intros name. unfold with_rows. rewrite !map_lookup_imap.
  destruct (b !! name) eqn:E; [|done]. cbn. by rewrite (Hfg _ _ E).
Qed.

Lemma final_last held : final 7 held = at_version 7 held.
Proof.
  unfold final, at_version.
  rewrite (with_rows_ext _ (fun name _ => held name) (tables (built 7))); [reflexivity|].
  intros name t ->. reflexivity.
Qed.

Lemma upgraded_map n name held :
  upgraded n name held = map (fun r => foldl (with_default now) r (gains n name)) held.
Proof.
  unfold upgraded. generalize (gains n name). intros cs. revert held.
  induction cs as [|c cs IH]; intros held; cbn; [by rewrite map_id|]. by rewrite IH, map_map.
Qed.

Lemma get_row_app k r r' : get k (r ++ r') = match get k r with Some v => Some v | None => get k r' end.
Proof.
  unfold get. induction r as [|p r IH]; cbn; [by destruct (find _ r')|]. by destruct (String.eqb p.1 k).
Qed.

Lemma defaults_keep cs r k v : get k r = Some v -> get k (foldl (with_default now) r cs) = Some v.
Proof.
  revert r. induction cs as [|c cs IH]; intros r Hr; cbn; [done|]. apply IH. unfold with_default.
  destruct (get (col c) r) eqn:E; [done|]. destruct (dflt c); [|done]. by rewrite get_row_app, Hr.
Qed.

Lemma defaults_give cs r c d : c ∈ cs -> dflt c = Some d -> is_Some (get (col c) (foldl (with_default now) r cs)).
Proof.
  intros Hc Hd. revert r. induction cs as [|c' cs IH]; intros r; [by apply elem_of_nil in Hc|].
  apply elem_of_cons in Hc as [->|Hc]; [|by apply IH]. cbn.
  assert (Hs : exists v, get (col c') (with_default now r c') = Some v).
  { unfold with_default. rewrite Hd. destruct (get (col c') r) eqn:E; [by eexists|].
    eexists. rewrite get_row_app, E. unfold get. cbn. by rewrite String.eqb_refl. }
  destruct Hs as [v Hv]. eexists. by apply defaults_keep.
Qed.

(** Every column a later version adds has a default. *)
Lemma gains_defaulted n name c : n <= 7 -> c ∈ gains n name -> is_Some (dflt c).
Proof.
  intros Hn Hc.
  assert (Hall : Forall (fun s => match s with AddColumn _ c => is_Some (dflt c) | _ => True end)
                   (concat MIGRATIONS)) by (cbn; repeat constructor; by eexists).
  unfold gains in Hc. apply list_elem_of_omap in Hc as (s & Hs & Hc). destruct s as [| t c'| |]; try done.
  destruct (String.eqb t name); [|done]. injection Hc as ->.
  rewrite Forall_forall in Hall. apply (Hall (AddColumn t c)).
  rewrite <- (take_drop n MIGRATIONS), concat_app. apply elem_of_app. by right.
Qed.

(** C17: from whichever version a registry was left at, and whatever it holds, opening it
    succeeds, and leads to the one last schema and version; no row of a table that stays
    is lost or altered, each has a value in every column its table gains, and an open of
    the result changes nothing. *)
Theorem migrations_converge n held : n <= 7 ->
  exists db, run (at_version n held) = (Ok tt, db) /\ run db = (Ok tt, db) /\
    versions db = Some [1; 2; 3; 4; 5; 6; 7]%Z /\
    (forall name, columns <$> tables db !! name = columns <$> tables (built 7) !! name) /\
    (forall name t, tables (built n) !! name <> None -> tables db !! name = Some t ->
       length (rows t) = length (held name) /\
       forall i r, held name !! i = Some r -> exists r', rows t !! i = Some r' /\
         (forall k v, get k r = Some v -> get k r' = Some v) /\
         (forall c, c ∈ gains n name -> is_Some (get (col c) r'))).
Proof.
  intros Hn. exists (final n held). split_and!.
  - by apply run_at_version.
  - set (held' := fun name => default [] (rows <$> tables (final n held) !! name)).
    assert (Hf : final n held = at_version 7 held').
    { unfold at_version, held'. cbn [final tables]. unfold final. by rewrite <- with_rows_again. }
    rewrite Hf at 1. rewrite run_at_version by lia. by rewrite final_last.
  - reflexivity.
  - intros name. cbn [final tables]. unfold with_rows. rewrite map_lookup_imap.
    by destruct (tables (built 7) !! name).
  - intros name t Hold Ht. cbn [final tables] in Ht. unfold with_rows in Ht. rewrite map_lookup_imap in Ht.
    destruct (tables (built 7) !! name); [|done]. injection Ht as <-. cbn [rows].
    destruct (tables (built n) !! name); [|done]. rewrite upgraded_map, length_map. split; [done|].
    intros i r Hr. eexists. split; [by rewrite list_lookup_fmap, Hr|]. split.
    + intros k v. apply defaults_keep.
    + intros c Hc. destruct (gains_defaulted _ _ _ Hn Hc) as [d Hd]. by eapply defaults_give.
Qed.

(** ** A new registry *)

Definition held_in (db : Db) (name : string) (cols : list string) : list (list (option string)) :=
  match tables db !! name with
  | Some t => map (fun r => map (fun k => get k r) cols) (rows t)
  | None => []
  end.

(** A registry that was never opened holds the seeds of [open_fresh], and no more. *)
Lemma fresh_registry_is_seeded :
  let db := (run empty).2 in
  (run empty).1 = Ok tt /\
    held_in db "datasets" ["name"; "description"; "created_by"; "created_at"] =
      map (fun d => [Some d.1; Some d.2; Some "latiq"; Some now]) sample_datasets /\
    held_in db "dataset_tables" ["dataset"; "table_name"; "source_uri"; "format"] =
      map (fun t => [Some t.1.1; Some t.1.2; Some t.2; Some "auto"]) sample_tables /\
    held_in db "dataset_tags" ["dataset"; "tag"] = map (fun t => [Some t.1; Some t.2]) sample_tags /\
    held_in db "policy" ["key"; "value"] =
      [[Some "default_pond_lifetime_seconds"; Some "3600"]; [Some "query_timeout_seconds"; Some "30"]] /\
    map (fun name => rows <$> tables db !! name) ["nodes"; "ponds"; "catalogs"; "catalog_tags"] =
      [Some []; Some []; Some []; Some []] /\
    tables db !! "audit_log" = None.
Proof.
  intros db. split_and!; try (vm_compute; reflexivity).
Qed.

(** ** A migration that was cut off *)

(** Version [n], and some of the statements of the next migration. *)
Definition cut_off (n j : nat) (held : string -> list Row) : Db :=
  (execute_batch refusal now (take j (nth n MIGRATIONS [])) (at_version n held)).2.

(** Statements that add to a registry lose no table. *)
Definition adds (s : Stmt) : Prop := match s with DropTableIfExists _ => False | _ => True end.

Lemma tables_stay ddl db name : Forall adds ddl -> is_Some (tables db !! name) ->
  is_Some (tables (execute_batch refusal now ddl db).2 !! name).
Proof.
  intros Hadds. revert db. induction Hadds as [|s ddl Hs _ IH]; intros db Hdb; [done|].
  cbn [execute_batch]. destruct (exec refusal now s db) as [db'|e] eqn:E; [|done]. apply IH.
  destruct s; cbn [exec adds] in *; try done;
    repeat case_match; try done; injection E as <-; cbn [tables with_tables];
    apply lookup_insert_is_Some'; by right.
Qed.

Lemma versions_stay ddl db : versions (execute_batch refusal now ddl db).2 = versions db.
Proof.
  revert db. induction ddl as [|s ddl IH]; intros db; [done|]. cbn [execute_batch].
  destruct (exec refusal now s db) as [db'|e] eqn:E; [|done]. rewrite IH.
  destruct s; cbn [exec] in E; repeat case_match; try done; by injection E as <-.
Qed.

(** Statements and version row are not one transaction: but for the one that drops a table
    if it exists, a migration whose first statement took effect and whose version row did
    not is refused by every later open, which leaves the registry as it was. *)
Theorem cut_off_migration_is_stuck n j held :
  n < 7 -> n <> 4 -> 0 < j -> exists e, run (cut_off n j held) = (Err e, cut_off n j held).
Proof.
  intros Hn Hne Hj. destruct j as [|j]; [lia|].
  assert (Hv : versions (cut_off n (S j) held) = Some (map Z.of_nat (seq 1 n))) by apply versions_stay.
  assert (Hcreated : forall name cs k ddl, nth n MIGRATIONS [] = CreateTable name cs k :: ddl ->
            Forall adds ddl -> tables (at_version n held) !! name = None ->
            is_Some (tables (cut_off n (S j) held) !! name)).
  { intros name cs k ddl Hm Hadds Hno. unfold cut_off. rewrite Hm. cbn [take execute_batch exec].
    rewrite Hno. apply tables_stay; [by apply Forall_take|].
    apply lookup_insert_is_Some'. by left. }
  assert (Hadded : length (nth n MIGRATIONS []) = 1 ->
            cut_off n (S j) held = (execute_batch refusal now (nth n MIGRATIONS []) (at_version n held)).2)
    by (intros Hl; unfold cut_off; by rewrite take_ge by lia).
  do 7 (destruct n as [|n];
    [first [ rewrite Hadded by reflexivity; eexists; vm_compute; reflexivity
           | destruct (Hcreated _ _ _ _ eq_refl) as [t Ht]; [by repeat constructor|by vm_compute|];
             destruct (cut_off _ _ held) as [ts vs]; cbn in Hv, Ht; subst vs;
             unfold run_migrations; cbn -[exec]; cbn [exec tables]; rewrite Ht; by eexists
           | done]|]).
  lia.
Qed.
End converge.

(** A registry of version 3 that holds a pond gets a description for it, and no lineage. *)
Definition held_pond (name : string) : list (list (string * string)) :=
  if String.eqb name "ponds" then [[("pond_id", "p1"); ("name", "sales"); ("tier", "large")]] else [].

Lemma migrations_converge_witness :
  exists db, run_migrations (fun _ => "no") "now" (at_version (fun _ => "no") "now" 3 held_pond) = (Ok tt, db) /\
    held_in db "ponds" ["name"; "tier"; "description"; "lineage"] =
      [[Some "sales"; Some "large"; Some EmptyString; Some "false"]].
Proof.
  destruct (migrations_converge (fun _ => "no") "now" 3 held_pond ltac:(lia)) as (db & Hrun & _).
  exists db. split; [done|]. rewrite run_at_version in Hrun by lia. injection Hrun as <-.
  vm_compute. reflexivity.
Defined.
