(* ===== verification/Schemas.v ===== *)
(** * The schemas tools declare

    Models [latiq-mcp/src/schema.rs] and the output schemas of the tools of [server.rs]:
    what is derived from a response type, less its prose, with the trace the encoder adds.
    The derivation itself is the schemars crate's, a parameter; a panic is [None]. *)
From S2P Require Import Prelude Plan Mcp Resources.
#[local] Open Scope rust_scope.
#[local] Arguments String.append !_ _ / : simpl nomatch.

Module Schema.
Section schema.
Context `{!Floats}.
Notation JsonObject := (list (string * Json)).

(** Keywords whose value is a map of schemas, a schema, a list of schemas. *)
Definition SCHEMA_MAPS : list string :=
  ["properties"; "patternProperties"; "dependentSchemas"; "$defs"; "definitions"].
Definition SUBSCHEMAS : list string :=
  ["items"; "additionalItems"; "additionalProperties"; "propertyNames"; "contains"; "not"; "if";
   "then"; "else"].
Definition SCHEMA_LISTS : list string := ["allOf"; "anyOf"; "oneOf"; "prefixItems"].

Definition is_one (key : string) (keywords : list string) : bool := existsb (String.eqb key) keywords.

(** [strip] is what is done to a schema below: nothing, where it is no object. *)
Definition strip_keyword (strip : Json -> Json) (key : string) (value : Json) : Json :=
  if is_one key SCHEMA_MAPS then
    match value with
    | Object m => Object (map (fun kv => (kv.1, strip kv.2)) m)
    | v => v
    end
  else if is_one key SUBSCHEMAS then strip value
  else if is_one key SCHEMA_LISTS then
    match value with Array l => Array (map strip l) | v => v end
  else value.

Definition strip_members (strip : Json -> Json) (schema : JsonObject) : JsonObject :=
  omap (fun kv =>
    if String.eqb kv.1 "description" then None
    else Some (kv.1, strip_keyword strip kv.1 kv.2)) schema.

Fixpoint strip_value (v : Json) : Json :=
  match v with Object schema => Object (strip_members strip_value schema) | v => v end.

Definition strip_descriptions (schema : JsonObject) : JsonObject := strip_members strip_value schema.

Definition body_meta : Json :=
  Object [("properties", Object [("traceparent", Object [("type", Str "string")])]); ("type", Str "object")].

Definition declare_body_meta (object : JsonObject) : JsonObject :=
  match lookup_key "properties" object with
  | Some (Object props) =>
      match lookup_key Encode.BODY_META props with
      | Some _ => object
      | None =>
          Encode.replace "properties" (Object (Encode.insert Encode.BODY_META body_meta props)) object
      end
  | _ => object
  end.

(** What the schemars crate derives for a type, as JSON. *)
Notation TypeId := string.
Variable derived : TypeId -> result Json string.

Definition build (t : TypeId) : option JsonObject :=
  match derived t with
  | Ok (Object o) =>
      let object := declare_body_meta (strip_descriptions o) in
      match lookup_key "type" object ≫= as_str with
      | Some ty => if String.eqb ty "object" then Some object else None
      | None => None
      end
  | _ => None
  end.

(** What was built, by type. *)
Notation Cache := (gmap TypeId JsonObject).

Definition output_schema (t : TypeId) (cache : Cache) : option JsonObject * Cache :=
  match cache !! t with
  | Some hit => (Some hit, cache)
  | None =>
      match build t with
      | Some schema => (Some schema, <[t := schema]> cache)
      | None => (None, cache)
      end
  end.

(** Each tool's type, in the order of the router. *)
Definition DECLARED : list (string * TypeId) :=
  [("allocate_pond", "AllocateResult"); ("describe_pond", "DescribeResult");
   ("list_ponds", "ListPondsResponse"); ("drop_pond", "DropPondResponse");
   ("read_query", "QueryResponse"); ("write_query", "QueryResponse");
   ("explain_query", "ExplainResult"); ("list_datasets", "ListDatasetsResponse");
   ("load_dataset", "LoadDatasetResult"); ("list_catalogs", "ListCatalogsResponse");
   ("describe_catalog", "DescribeCatalogResponse"); ("pull_catalog", "PullResult");
   ("get_lineage", "LineagePage")].

Fixpoint declare (tools : list (string * TypeId)) (cache : Cache) :
    option (list (string * JsonObject)) * Cache :=
  match tools with
  | [] => (Some [], cache)
  | (tool, t) :: tools =>
      match output_schema t cache with
      | (None, cache) => (None, cache)
      | (Some schema, cache) =>
          let (rest, cache) := declare tools cache in
          ((fun l => (tool, schema) :: l) <$> rest, cache)
      end
  end.

(** A router is made for each session. *)
Definition tool_router (cache : Cache) : option (list (string * JsonObject)) * Cache :=
  declare DECLARED cache.
End schema.
End Schema.
