(* ===== verification/SchemasSpec.v ===== *)
(** * What an agent is told a tool answers

    A declared schema is the derived one: at every place a schema can be, it has the same
    keywords but for its description, and the same names, a property called description
    among them; nothing else is in it than the trace the encoder adds.  Every session is
    told the same. *)
From S2P Require Import Prelude Plan PlanSpec Wire WireSpec Mcp McpSpec Resources Schemas.
Import Schema.
#[local] Open Scope rust_scope.
#[local] Arguments String.append !_ _ / : simpl nomatch.

Section places.
Context `{!Floats}.
Notation JsonObject := (list (string * Json)).

(** A way down from a schema to one it holds. *)
Inductive Step :=
| Named (keyword name : string)
| Under (keyword : string)
| Nth (keyword : string) (i : nat).

Definition child (st : Step) (o : JsonObject) : option JsonObject :=
  match st with
  | Named k n =>
      if is_one k SCHEMA_MAPS then m ← lookup_key k o ≫= as_object; lookup_key n m ≫= as_object
      else None
  | Under k => if is_one k SUBSCHEMAS then lookup_key k o ≫= as_object else None
  | Nth k i =>
      if is_one k SCHEMA_LISTS then l ← lookup_key k o ≫= as_array; (l : list Json) !! i ≫= as_object
      else None
  end.

Fixpoint place (p : list Step) (o : JsonObject) : option JsonObject :=
  match p with
  | [] => Some o
  | st :: p => o ← child st o; place p o
  end.

Definition holds_schemas (k : string) : bool :=
  is_one k SCHEMA_MAPS || is_one k SUBSCHEMAS || is_one k SCHEMA_LISTS.

Lemma is_one_elem k l : is_one k l = true <-> k ∈ l.
Proof. apply existsb_eqb_elem_of. Qed.

Lemma lookup_strip k o :
  lookup_key k (strip_descriptions o) =
  if String.eqb k "description" then None else strip_keyword strip_value k <$> lookup_key k o.
Proof.
  unfold strip_descriptions, strip_members.
  induction o as [|[j v] o IH]; [by destruct (String.eqb k _)|].
  cbn -[String.eqb].
  destruct (String.eqb_spec j "description") as [->|Hj]; cbn -[String.eqb].
  - rewrite IH. destruct (String.eqb_spec k "description") as [->|Hk]; [done|].
    destruct (String.eqb_spec "description" k); [congruence|done].
  - destruct (String.eqb_spec j k) as [->|Hne]; [|exact IH].
    by destruct (String.eqb_spec k "description").
Qed.

Lemma lookup_stripped_map n (m : JsonObject) :
  lookup_key n (map (fun kv => (kv.1, strip_value kv.2)) m) = strip_value <$> lookup_key n m.
Proof. induction m as [|[j v] m IH]; cbn; [done|]. by destruct (String.eqb j n). Qed.

Lemma as_object_strip v : as_object (strip_value v) = strip_descriptions <$> as_object v.
Proof. by destruct v. Qed.

Lemma child_strip st o : child st (strip_descriptions o) = strip_descriptions <$> child st o.
Proof.
  assert (Hk : forall k, holds_schemas k = true -> lookup_key k (strip_descriptions o) =
                 strip_keyword strip_value k <$> lookup_key k o).
  { intros k Hs. rewrite lookup_strip. by destruct (String.eqb_spec k "description") as [->|]. }
  unfold holds_schemas in Hk.
  destruct st as [k n|k|k i]; cbn [child].
  - destruct (is_one k SCHEMA_MAPS) eqn:E; [|done]. rewrite Hk by (by rewrite E).
    destruct (lookup_key k o) as [v|]; [|done]. cbn. unfold strip_keyword. rewrite E.
    destruct v as [| | | | | |m]; try done. cbn. rewrite lookup_stripped_map.
    destruct (lookup_key n m) as [v|]; [|done]. apply as_object_strip.
  - destruct (is_one k SUBSCHEMAS) eqn:E; [|done]. rewrite Hk by (by rewrite E, orb_true_r).
    assert (Hm : is_one k SCHEMA_MAPS = false).
    { apply is_one_elem in E. unfold SUBSCHEMAS in E. by repeat (apply elem_of_cons in E as [->|E]; [done|]);
        apply elem_of_nil in E. }
    destruct (lookup_key k o) as [v|]; [|done]. cbn. unfold strip_keyword. rewrite Hm, E.
    apply as_object_strip.
  - destruct (is_one k SCHEMA_LISTS) eqn:E; [|done]. rewrite Hk by (by rewrite E, orb_true_r).
    assert (Hm : is_one k SCHEMA_MAPS = false /\ is_one k SUBSCHEMAS = false).
    { apply is_one_elem in E. unfold SCHEMA_LISTS in E. by repeat (apply elem_of_cons in E as [->|E]; [done|]);
        apply elem_of_nil in E. }
    destruct Hm as [Hm Hs]. destruct (lookup_key k o) as [v|]; [|done]. cbn. unfold strip_keyword.
    rewrite Hm, Hs, E. destruct v as [| | | | |l|]; try done. cbn. rewrite list_lookup_fmap.
    destruct (l !! i) as [v|]; [|done]. apply as_object_strip.
Qed.

Lemma place_strip p o : place p (strip_descriptions o) = strip_descriptions <$> place p o.
Proof.
  revert o. induction p as [|st p IH]; intros o; [done|]. cbn [place]. rewrite child_strip.
  destruct (child st o); [apply IH|done].
Qed.
End places.

Section declared.
Context `{!Floats}.
Notation JsonObject := (list (string * Json)).
Variable derived : string -> result Json string.

Definition stub : JsonObject := default [] (as_object body_meta).

(** Whether the encoder's stub is what a schema gets for its [_meta]. *)
Definition gets_stub (o : JsonObject) : bool :=
  match lookup_key "properties" o with
  | Some (Object props) => negb (is_Some_b (lookup_key Encode.BODY_META props))
  | _ => false
  end.

Lemma lookup_declare k o : k <> "properties" -> lookup_key k (declare_body_meta o) = lookup_key k o.
Proof.
  intros Hk. unfold declare_body_meta. destruct (lookup_key "properties" o) as [v|] eqn:E; [|done].
  destruct v as [| | | | | |m]; try done. destruct (lookup_key Encode.BODY_META m); [done|].
  rewrite (lookup_replace_key _ k _ _ _ E). destruct (String.eqb_spec "properties" k); [congruence|done].
Qed.

Definition to_meta (st : Step) : bool :=
  match st with
  | Named k n => String.eqb k "properties" && String.eqb n Encode.BODY_META
  | _ => false
  end.

Lemma child_declare st o :
  child st (declare_body_meta o) = if gets_stub o && to_meta st then Some stub else child st o.
Proof.
  destruct st as [k n|k|k i]; cbn [child to_meta]; rewrite ?andb_false_r.
  - destruct (String.eqb_spec k "properties") as [->|Hk].
    2:{ rewrite andb_false_l, andb_false_r. destruct (is_one k SCHEMA_MAPS); [|done]. by rewrite lookup_declare. }
    unfold gets_stub, declare_body_meta. cbn -[String.eqb Encode.BODY_META].
    destruct (lookup_key "properties" o) as [v|] eqn:E; [|by rewrite E].
    destruct v as [| | | | | |m]; try by rewrite E.
    destruct (lookup_key Encode.BODY_META m) as [v|] eqn:Em; [by rewrite E|].
    rewrite (lookup_replace_key _ _ _ _ _ E), String.eqb_refl. cbn -[String.eqb Encode.BODY_META].
    rewrite lookup_insert_key, (String.eqb_sym Encode.BODY_META).
    by destruct (String.eqb n Encode.BODY_META).
  - destruct (String.eqb_spec k "properties") as [->|Hk]; [done|].
    destruct (is_one k SUBSCHEMAS); [|done]. by rewrite lookup_declare.
  - destruct (String.eqb_spec k "properties") as [->|Hk]; [done|].
    destruct (is_one k SCHEMA_LISTS); [|done]. by rewrite lookup_declare.
Qed.

Lemma gets_stub_strip o : gets_stub (strip_descriptions o) = gets_stub o.
Proof.
  unfold gets_stub. rewrite lookup_strip. cbn -[lookup_key].
  destruct (lookup_key "properties" o) as [v|]; [|done]. destruct v as [| | | | | |m]; try done.
  cbn -[lookup_key]. rewrite lookup_stripped_map. by destruct (lookup_key Encode.BODY_META m).
Qed.

(** The places of a declared schema: those of the derived one, and the stub's. *)
Lemma place_declared p o :
  place p (declare_body_meta (strip_descriptions o)) =
  match p with
  | [] => Some (declare_body_meta (strip_descriptions o))
  | st :: q =>
      if gets_stub o && to_meta st then strip_descriptions <$> place q stub
      else strip_descriptions <$> place p o
  end.
Proof.
  destruct p as [|st q]; [done|]. cbn [place]. rewrite child_declare, gets_stub_strip.
  destruct (gets_stub o && to_meta st).
  - cbn [mbind option_bind]. by rewrite <- place_strip.
  - rewrite child_strip. destruct (child st o); [apply place_strip|done].
Qed.

(** Where the stub goes, the derived schema has nothing. *)
Lemma no_meta_below st q o s : place (st :: q) o = Some s -> gets_stub o && to_meta st = false.
Proof.
  destruct (gets_stub o && to_meta st) eqn:E; [|done]. apply andb_true_iff in E as [Hg Hst].
  destruct st as [k n| |]; try done. apply andb_true_iff in Hst as [->%String.eqb_eq ->%String.eqb_eq].
  unfold gets_stub in Hg. cbn -[lookup_key]. destruct (lookup_key "properties" o) as [v|]; [|done].
  destruct v as [| | | | | |m]; try done. cbn -[lookup_key]. by destruct (lookup_key Encode.BODY_META m).
Qed.

(** C32: a tool declares the schema derived from its response type, no less and little more:
    it is an object's; no schema in it has a description; every place of the derived schema
    is there, with every keyword that is not of prose as it was, so a property called
    description and what is required stay; and what else is there is only the trace that
    the encoder adds, where the type does not declare its own. *)
Theorem declared_schema_is_the_derived_one t o o' :
  derived t = Ok (Object o) -> build derived t = Some o' ->
  lookup_key "type" o' = Some (Str "object") /\
  (forall p s', place p o' = Some s' -> lookup_key "description" s' = None) /\
  (forall p s, place p o = Some s -> exists s', place p o' = Some s' /\
     forall k, k <> "description" -> holds_schemas k = false -> lookup_key k s' = lookup_key k s) /\
  (forall p s', place p o' = Some s' -> place p o <> None \/
     gets_stub o = true /\ exists q, p = Named "properties" Encode.BODY_META :: q) /\
  (gets_stub o = true -> place [Named "properties" Encode.BODY_META] o' = Some stub).
Proof.
  intros Hd. unfold build. rewrite Hd.
  set (d := declare_body_meta (strip_descriptions o)).
  destruct (lookup_key "type" d ≫= as_str) as [ty|] eqn:Et; [|done].
  destruct (String.eqb_spec ty "object") as [->|]; [|done]. intros [= <-].
  assert (Hkeep : forall k s, k <> "description" -> holds_schemas k = false ->
            lookup_key k (strip_descriptions s) = lookup_key k s).
  { intros k s Hk Hs. rewrite lookup_strip. destruct (String.eqb_spec k "description"); [done|].
    unfold strip_keyword. unfold holds_schemas in Hs.
    apply orb_false_iff in Hs as [Hs ->]. apply orb_false_iff in Hs as [-> ->].
    by destruct (lookup_key k s). }
  assert (Hbare : forall s, lookup_key "description" (strip_descriptions s) = None)
    by (intros s; by rewrite lookup_strip).
  split_and!.
  - destruct (lookup_key "type" d) as [v|]; [|done]. destruct v; try done. by injection Et as ->.
  - intros p s'. unfold d. rewrite place_declared. destruct p as [|st q].
    + intros [= <-]. rewrite lookup_declare by done. apply Hbare.
    + destruct (gets_stub o && to_meta st); intros Hs; apply fmap_Some in Hs as (s & _ & ->); apply Hbare.
  - intros p s Hp. unfold d. rewrite place_declared. destruct p as [|st q].
    + injection Hp as <-. eexists. split; [done|]. intros k Hk Hs.
      rewrite lookup_declare by (by intros ->). by apply Hkeep.
    + rewrite (no_meta_below _ _ _ _ Hp). exists (strip_descriptions s). split; [by rewrite Hp|]. intros k. apply Hkeep.
  - intros p s'. unfold d. rewrite place_declared. destruct p as [|st q]; [by left|].
    destruct (gets_stub o && to_meta st) eqn:E.
    + intros _. right. apply andb_true_iff in E as [Hg Hst]. split; [done|]. destruct st as [k n| |]; try done.
      apply andb_true_iff in Hst as [->%String.eqb_eq ->%String.eqb_eq]. by exists q.
    + intros Hs. left. by destruct (place _ o).
  - intros Hg. unfold d. by rewrite place_declared, Hg.
Qed.

(** ** Sessions *)

Definition sound (c : gmap string JsonObject) : Prop :=
  forall t s, c !! t = Some s -> build derived t = Some s.

Lemma output_schema_spec t c : sound c ->
  (output_schema derived t c).1 = build derived t /\ sound (output_schema derived t c).2.
Proof.
  intros Hc. unfold output_schema. destruct (c !! t) as [s|] eqn:E.
  - split; [|done]. symmetry. by apply Hc.
  - destruct (build derived t) as [s|] eqn:Eb; [|done]. split; [done|]. cbn [snd]. intros t' s'.
    destruct (decide (t = t')) as [->|Hne].
    + by rewrite lookup_insert_eq, Eb.
    + rewrite lookup_insert_ne by done. apply Hc.
Qed.

(** What is declared, were nothing kept. *)
Definition declarations (tools : list (string * string)) : option (list (string * JsonObject)) :=
  mapM (fun dt => s ← build derived dt.2; Some (dt.1, s)) tools.

Lemma declare_spec tools c : sound c ->
  (declare derived tools c).1 = declarations tools /\ sound (declare derived tools c).2.
Proof.
  revert c. induction tools as [|[tool t] tools IH]; intros c Hc; [done|]. cbn [declare].
  destruct (output_schema_spec t c Hc) as [Hr Hs].
  destruct (output_schema derived t c) as [r c']. cbn [fst snd] in Hr, Hs. subst r.
  unfold declarations. cbn. destruct (build derived t) as [s|]; [|done]. cbn.
  destruct (IH c' Hs) as [Hd Hs']. destruct (declare derived tools c') as [rest c'']. cbn in Hd, Hs'. subst rest.
  split; [|done]. unfold declarations. by destruct (mapM _ tools).
Qed.

(** whatever was asked of the schemas before, a session is told the same: each tool
    there is, in the router's order, with the schema built from the type of its answer; and
    no session can be served where one of these types has no schema. *)
Theorem sessions_are_told_the_same (asked : list string) :
  let c := foldl (fun c t => (output_schema derived t c).2) ∅ asked in
  (tool_router derived c).1 = declarations DECLARED /\
  map fst DECLARED = map Tools.td_name Tools.TOOLS /\
  (is_Some (declarations DECLARED) <-> Forall (fun dt => is_Some (build derived dt.2)) DECLARED).
Proof.
  intros c.
  assert (Hc : sound c).
  { unfold c. assert (He : sound ∅) by (intros t s; by rewrite lookup_empty). revert He.
    generalize (∅ : gmap string JsonObject). induction asked as [|t asked IH]; intros c0 H0; [done|].
    apply IH. by apply output_schema_spec. }
  split; [by apply declare_spec|]. split; [reflexivity|].
  unfold declarations. rewrite mapM_is_Some. apply Forall_iff. intros dt. unfold compose.
  destruct (build derived dt.2) as [s|]; cbn [mbind option_bind]; [|done].
  split; intros _; by eexists.
Qed.
End declared.

(** ** A response type with a description of its own *)

Module Sample.
#[local] Instance floats : Floats := {| f64 := Z; is_finite := fun _ => true |}.

Definition dataset : list (string * Json) :=
  [("description", Str "A dataset. See issue 12."); ("properties", Object
     [("description", Object [("description", Str "What it is for."); ("type", Str "string")]);
      ("tags", Object [("items", Object [("description", Str "A tag."); ("type", Str "string")]);
                       ("type", Str "array")])]);
   ("required", Array [Str "description"]); ("type", Str "object")].

Definition declared_dataset : list (string * Json) :=
  [("properties", Object
     [("_meta", body_meta); ("description", Object [("type", Str "string")]);
      ("tags", Object [("items", Object [("type", Str "string")]); ("type", Str "array")])]);
   ("required", Array [Str "description"]); ("type", Str "object")].

Lemma declared_schema_witness :
  build (fun _ => Ok (Object dataset)) "ListDatasetsResponse" = Some declared_dataset /\
  lookup_key "required" declared_dataset = Some (Array [Str "description"]) /\
  place [Named "properties" "description"] declared_dataset = Some [("type", Str "string")] /\
  forall p s', place p declared_dataset = Some s' -> lookup_key "description" s' = None.
Proof.
  assert (Hb : build (fun _ => Ok (Object dataset)) "ListDatasetsResponse" = Some declared_dataset)
    by (vm_compute; reflexivity).
  split; [exact Hb|]. split; [reflexivity|]. split; [reflexivity|].
  exact (proj1 (proj2 (declared_schema_is_the_derived_one
                         (fun _ => Ok (Object dataset)) "ListDatasetsResponse" dataset _ eq_refl Hb))).
Defined.
End Sample.
